(* ===== verification/_CoqProject ===== *)
-Q . S2P
Prelude.v
External.v
Instances.v
Ofac.v
Packets.v
LoadBalancer.v
ScheduleCache.v
HealthManager.v
Refreshers.v
AuthInterceptor.v
AuthChallenges.v
AuthService.v
Redemptions.v
Forwarder.v
Relayer.v
RelayerMetrics.v
RelayerAccounting.v
ControlPath.v
BlockEngine.v
Tpu.v
DataPath.v
System.v
Running.v
Service.v
AccessPath.v
Delivery.v
PacketBlaster.v
Main.v
Deployment.v
Shutdown.v
