(* ===== verification/Prelude.v ===== *)
(** * Jito relayer: a verification development

    The relayer is a proxy in front of the transaction ports of Solana validators.  It
    receives packets over QUIC, checks their signatures, holds them back for a moment,
    and streams them to the validators that subscribed, while it offers them at once to
    a block engine.  This library models the decisions of its Rust code as executable
    definitions and proves what they promise.

    ** The program and the files

    The data path.  QUIC servers ([core/src/tpu.rs], Tpu.v) feed the signature stage, a
    Solana library; packets forwarded by other validators pass through
    [core/src/fetch_stage.rs] (Packets.v, [fetch_stage_thread]), which marks them first.
    The verified batches reach [transaction-relayer/src/forwarder.rs] (Forwarder.v,
    [forwarder_thread]), which offers each to the block engine and, after the packet
    delay, hands it to the event loop of [relayer/src/relayer.rs] (Relayer.v,
    [run_event_loop]; what its counters and reports say in RelayerMetrics.v, and its packet
    counts in RelayerAccounting.v).  That loop screens
    the packets ([core/src/ofac.rs], Ofac.v), converts them
    ([jito-protos/src/convert.rs], Packets.v) and queues batches for the validators.
    [block_engine/src/block_engine.rs] and [block_engine_stats.rs] (BlockEngine.v) are the
    client that screens, filters by accounts of interest and sends to the block engine.
    DataPath.v joins the stages of Tpu.v, the forwarder and its two consumers.  System.v is
    the running relayer: the threads of both paths as [main] starts them, joined by its
    channels with their capacities, as one transition system; Running.v is what it promises,
    and Delivery.v what that means for each verified batch.

    The control path.  [rpc/src/load_balancer.rs] (LoadBalancer.v) follows the slots of
    the RPC servers; [relayer/src/health_manager.rs] (HealthManager.v) turns them into a
    health state and passes them on to the event loop;
    [relayer/src/schedule_cache.rs] (ScheduleCache.v) keeps the leader schedule.
    [core/src/staked_nodes_updater_service.rs] and the lookup-table refresher of
    [transaction-relayer/src/main.rs] are in Refreshers.v; all three ask the node the balancer
    chooses.  ControlPath.v joins the slots,
    the health state, the event loop and the handlers that read the health state.

    Access.  A validator answers a challenge to get tokens: [relayer/src/auth_challenges.rs]
    (AuthChallenges.v, the queue of pending challenges), [relayer/src/auth_service.rs]
    (AuthService.v, the three handlers; Redemptions.v, how often they can redeem one
    challenge), [relayer/src/auth_interceptor.rs]
    (AuthInterceptor.v, the claims and the gate before the gRPC handlers of Relayer.v);
    AccessPath.v takes a validator through all of them, and Service.v is the running
    relayer of System.v behind these services, as one transition system.

    Start-up and the diagnostic pages, [transaction-relayer/src/main.rs] and
    [web/src/lib.rs], are in Main.v; Deployment.v runs the systems of System.v and
    Service.v on what [main] sets up.  The end of the process, by a signal or a panic ([core/src/lib.rs], the end of [main], [Tpu::join]),
    is in Shutdown.v: every thread with its place in its loop, the exit flag, the
    channels that go away as threads end, and the exit status.

    Beside the relayer, [packet_blaster/src/main.rs] is a load generator (PacketBlaster.v).

    ** How code is modelled

    - Code over shared or local state is a [Prog S E A] (below): a function from the
      state to an outcome, [Done], [Fail] for an [Err], or [Panicked], and the state it
      leaves behind.  Early returns, [?] and [unwrap] are its operations.
    - A service thread, [while !exit.load()], is [run_loop] over the list of what its
      iterations receive from channels, clocks and the network; [None] is the exit flag
      read as set.  A finite list is a prefix of an execution, so a theorem about every
      list is about every execution.
    - Threads and handlers that share a variable are step relations with one step for
      each access: [LoadBalancer.lb_step] for the subscription threads,
      [AuthService.auth_step] for the concurrent handlers and the cleanup task,
      [Tpu.tpu_step] for the stages of the pipeline, [System.sys_step] for the threads of
      the running relayer, [Service.service_step] for these with the services, [Shutdown.act] for the end of the process.
    - Machine integers are [Z] with their wrap-around or saturation written out
      ([u64_add], [u64_sat_add], [u16_sub]); arithmetic wraps as in a release build.
    - Instants and dates are nanoseconds in [Z]; a clock is an input, one reading for
      each reading the code makes.
    - A [HashMap] iterates in an unspecified order: the class [HashOrder] is that order, a
      parameter, and theorems hold for all of them.
    - Third-party code is a class of operations in External.v with a class of documented
      laws beside it; Instances.v implements each class and proves its laws, and the
      witnesses at the end of each file (their data is named [toy_...]) evaluate the
      components on those implementations.

    ** What the theorems show

    - The data path: only bytes that a QUIC server received, with valid signatures, leave
      the relayer ([DataPath.only_verified_packets_leave]); what validators and the block
      engine are sent comes, in order, from batches the forwarder received, held back for
      the validators and stamped for the block engine ([DataPath.validators_data_path],
      [DataPath.block_engine_data_path]).
    - The control path: a validator gets packets only if it leads one of the slots the RPC
      servers reported, or one of the lookahead, and all that do get them while no stream
      is closed ([ControlPath.packets_follow_slots]); when the slots stop, validators are
      disconnected and the handlers that read the health state refuse
      ([ControlPath.stale_slots_stop_service]); [get_tpu_configs] does not read it.
    - The running relayer: whatever the interleaving and however full its channels, it
      implements three unbounded queues, and every thread goes through what the others
      sent it ([Running.running_system_refines]); the threads never wait for each other in a
      ring: all that is inside arrives ([Running.running_system_drains]), and every verified
      batch is delivered, as far as queues have room and while no stream is closed, to the
      validators that are due ([Delivery.running_system_delivers]); and what leaves
      a relayer that [main] started answers to its arguments, their ports, batch size and
      listed addresses, looked for in the tables as cached at the turn that took the batch
      ([Deployment.deployed_relayer_safe]), and goes to validators that the arguments admit
      and that redeemed in the run, with a signature by their key, the challenge pending for
      them ([Deployment.deployed_relayer_serves]).
    - Shutdown: once the flag is up every run ends the process, or comes to where all threads
      have left and [main] waits for clients to end their streams, though full channels
      block their senders ([Shutdown.shutdown_terminates]); a panic of a joined thread ends it with status one
      ([Shutdown.panic_fails_fast]), and status zero means that all of them returned
      ([Shutdown.exit_zero_joined]); the transition system agrees with the modelled bodies
      of the threads ([Shutdown.bodies_follow]).
    - Screening: [Ofac.is_tx_ofac_related_iff]; nothing that was discarded or mentions a
      listed address leaves, to validators ([Relayer.event_loop_queues_safe]) or to the
      block engine ([BlockEngine.block_engine_sends_safe]), over whole runs.
    - Delivery: [Relayer.forward_packets_delivers], [Forwarder.forwarder_thread_fifo],
      [Packets.handle_forwarded_packets_spec], [BlockEngine.filter_packets_spec].
    - Access: what each handler accepts ([AuthService.generate_auth_challenge_iff],
      [generate_auth_tokens_iff], [refresh_access_token_iff],
      [AuthInterceptor.interceptor_call_iff], [Relayer.subscribe_packets_iff]); tokens go
      to authorized keys only and are accepted afterwards, in any interleaving
      ([AuthService.issued_tokens_accepted]); the queue stays bounded
      ([AuthService.challenges_capacity]), a challenge is redeemed at most once by each
      handler ([Redemptions.redemptions_bounded]), and the queue is cleaned exactly
      ([AuthChallenges.remove_all_expired_spec]); both ends of the protocol fit
      ([BlockEngine.client_answers_challenge]), and a validator that may connect gets its
      packets ([AccessPath.validator_session]).
    - Control: [LoadBalancer.rpc_client_highest], [LoadBalancer.slots_sent_distinct], a
      thread through all its connections ([LoadBalancer.subscription_thread_sends]) and a
      silent one given up ([LoadBalancer.silent_connection_dropped]),
      [HealthManager.health_after_check], [ScheduleCache.update_leader_cache_spec],
      [Refreshers.refresh_address_lookup_table_spec], [Refreshers.refreshers_never_panic],
      [Relayer.slot_arm_spec], [Relayer.heartbeat_spec],
      [BlockEngine.maybe_refresh_auth_spec], [BlockEngine.thread_disconnected].
    - Start-up: [Main.get_sockets_spec], [Main.main_setup_spec], [Main.advertised_ports],
      [Main.health_page_spec] and, for every page, [Main.router_pages].
    - Counters: [RelayerMetrics.event_loop_reports],
      [RelayerAccounting.event_loop_accounting], [Forwarder.forwarder_thread_accounting].
    - The load generator: [PacketBlaster.slow_loris_send],
      [PacketBlaster.streamed_transactions_distinct], [PacketBlaster.local_socket_addr_clash].
    - What goes wrong: a validator that stays connected keeps the process from ending after
      a signal ([Shutdown.open_stream_blocks_exit]); a fetch stage that waits for a batch turns a shutdown into a panic
      ([Shutdown.graceful_exit_needs_forward]), and without forwards servers it panics at
      once ([Shutdown.no_forward_server_panics]); a thread that sends to the event loop panics
      when the loop leaves first ([Shutdown.shutdown_race_panics]); a closed stream starves other validators
      ([Relayer.closed_stream_starves_others]); of two handlers that redeem one challenge
      the later deletes the next one ([AuthService.late_removal_drops_challenge]); without a block-engine URL the
      forwarding thread panics ([Main.no_block_engine_url_panics]); slots can go back
      ([LoadBalancer.slots_sent_can_regress]); an expired challenge, an access token used
      as a refresh token and an expired token pass ([AuthService.expired_challenge_redeemed],
      [AuthService.access_token_refreshes],
      [AuthInterceptor.interceptor_ignores_expiry_and_ip]); a renewed token without
      expiration panics later ([BlockEngine.refreshed_token_undated_panics]); the load
      generator repeats its batches ([PacketBlaster.client_batches_overlap]) and takes a
      confirmed airdrop for an error ([PacketBlaster.airdrop_inverted]).

    ** Fuel

    [chunks_fuel], [AuthInterceptor.split_fuel] and
    [AuthChallenges.remove_expired_loop] recurse on fuel.  The wrappers give one unit
    for each element, character or pending challenge (and one more), which is enough:
    [chunks_concat], [AuthInterceptor.jwt_from_header_done] (both directions) and
    [AuthChallenges.remove_all_expired_spec] prove results, not mere absence of wrong
    ones.

    ** What is not modelled, and why

    Network, file and process input and output: the websocket connections, RPC
    requests, gRPC transport and log lines.  The signature stage, the QUIC servers
    themselves and the banking tracer are Solana libraries; the signature stage is an
    interface with a law ([SigVerifier]).  The concurrent map of lookup tables is a
    snapshot for each call that reads it.  Argument parsing, the limits on requests and
    the TLS configuration of the load generator are library configuration; the routing of the
    diagnostic pages is an interface with laws ([AxumLaws]).  In
    Shutdown.v time is not measured: the five seconds of the panic hook, sleeps and
    timeouts are steps that come by themselves ([guaranteed]).  [jito-protos] is
    generated from files that are not in the repository.

    In System.v a turn of a thread is one step up to the message it blocks on, and the
    threads are alive: what becomes of the others when one ends is in Shutdown.v.  In Service.v a client shows only tokens the
    service issued, or such that do not verify: that signatures cannot be forged is no
    property of the code, and is a premise of the steps there ([Service.presentable]). *)

From coqutil Require Export Datatypes.RecordSetters.
From stdpp Require Export base gmap sets list strings relations.
From Stdlib Require Export ZArith Lia.
Export OCamlLikeNotations.

(** ** Outcomes of Rust code: a value, an [Err], or a panic *)

Inductive Outcome (E A : Type) : Type :=
| Done (a : A)
| Fail (e : E)
| Panicked (why : string).
Arguments Done {E A} a.
Arguments Fail {E A} e.
Arguments Panicked {E A} why.

#[global] Instance Outcome_ret E : MRet (Outcome E) := λ A a, Done a.
#[global] Instance Outcome_bind E : MBind (Outcome E) := λ A B f m,
  match m with
  | Done a => f a
  | Fail e => Fail e
  | Panicked w => Panicked w
  end.

(** [Prog S E A]: code over a shared mutable state [S].  The state is kept when
    the code returns [Err] or panics, as Rust keeps what was already written
    behind an [Arc<Mutex<_>>]. *)
Definition Prog (S E A : Type) : Type := S → Outcome E A * S.

#[global] Instance Prog_ret S E : MRet (Prog S E) := λ A a s, (Done a, s).
#[global] Instance Prog_bind S E : MBind (Prog S E) := λ A B f m s,
  match m s with
  | (Done a, s') => f a s'
  | (Fail e, s') => (Fail e, s')
  | (Panicked w, s') => (Panicked w, s')
  end.

Definition gets {S E A} (f : S → A) : Prog S E A := λ s, (Done (f s), s).
Definition modify {S E} (f : S → S) : Prog S E unit := λ s, (Done tt, f s).
Definition throw {S E A} (e : E) : Prog S E A := λ s, (Fail e, s).
Definition panic {S E A} (why : string) : Prog S E A := λ s, (Panicked why, s).
(** [o.ok_or(e)?] *)
Definition ok_or {S E A} (e : E) (o : option A) : Prog S E A :=
  match o with Some a => mret a | None => throw e end.
(** [o.unwrap()] / [o.expect(why)] *)
Definition unwrap {S E A} (why : string) (o : option A) : Prog S E A :=
  match o with Some a => mret a | None => panic why end.
(** A call that touches no state of the caller and cannot answer an error. *)
Definition call {S E A} (o : Outcome Empty_set A) : Prog S E A :=
  match o with Done a => mret a | Fail e => match e with end | Panicked why => panic why end.
(** [if guard { return Err(e) }] *)
Definition fail_if {S E} (guard : bool) (e : E) : Prog S E unit :=
  if guard then throw e else mret tt.
(** [assert!(cond)] *)
Definition assert {S E} (cond : bool) (why : string) : Prog S E unit :=
  if cond then mret tt else panic why.

Fixpoint for_each {S E A} (body : A → Prog S E unit) (l : list A) : Prog S E unit :=
  match l with
  | [] => mret tt
  | a :: l' => body a ;; for_each body l'
  end.

(** A service thread, [while !exit.load(Relaxed) { body }].  The input of one
    iteration is [None] when the exit flag is read as set, and what the body
    receives from its channels and clocks otherwise.  A finite input list is a
    prefix of an execution: [Running] means the thread has not returned yet. *)
Inductive LoopStatus := Running | Exited.

Fixpoint run_loop {S E I} (body : I → Prog S E unit) (inputs : list (option I))
    : Prog S E LoopStatus :=
  match inputs with
  | [] => mret Running
  | None :: _ => mret Exited
  | Some i :: rest => body i ;; run_loop body rest
  end.

(** The inputs of the iterations a loop goes through: those before the exit. *)
Fixpoint live_inputs {I} (inputs : list (option I)) : list I :=
  match inputs with
  | Some i :: rest => i :: live_inputs rest
  | _ => []
  end.

(** ** Machine integers *)

Local Open Scope Z_scope.

Definition u64_max : Z := 2 ^ 64 - 1.
Definition u64_wrap (z : Z) : Z := z mod 2 ^ 64.
Definition u64_add (x y : Z) : Z := u64_wrap (x + y).
Definition u64_sub (x y : Z) : Z := u64_wrap (x - y).
Definition u64_sat_add (x y : Z) : Z := Z.min (x + y) u64_max.
Definition is_u64 (z : Z) : Prop := 0 <= z < 2 ^ 64.
Definition u32_wrap (z : Z) : Z := z mod 2 ^ 32.
Definition u32_add (x y : Z) : Z := u32_wrap (x + y).
Definition u16_wrap (z : Z) : Z := z mod 2 ^ 16.
Definition u16_sub (x y : Z) : Z := u16_wrap (x - y).
(** [stamp.elapsed()] read at [now]: an [Instant] difference saturates at zero *)
Definition elapsed (now stamp : Z) : Z := Z.max 0 (now - stamp).
Definition is_u16 (z : Z) : Prop := 0 <= z < 2 ^ 16.
Definition u16_add (x y : Z) : Z := u16_wrap (x + y).
(** [x.checked_add(y)] on [u16] *)
Definition u16_checked_add (x y : Z) : option Z :=
  if x + y <? 2 ^ 16 then Some (x + y) else None.
(** [x as i64] for an unsigned 64-bit [x] *)
Definition as_i64 (z : Z) : Z := if z <? 2 ^ 63 then z else z - 2 ^ 64.
(** [iter.sum::<u64>()] *)
Definition u64_sum (l : list Z) : Z := foldl u64_add 0 l.
Definition Z_sum (l : list Z) : Z := foldr Z.add 0 l.

(** The range [lo..hi]: empty when [hi <= lo]. *)
Definition z_range (lo hi : Z) : list Z :=
  map (λ i, lo + Z.of_nat i) (seq 0 (Z.to_nat (hi - lo))).

(** ** Standard-library functions used by several components *)

(** [slice.chunks(n)] *)
Fixpoint chunks_fuel {A} (fuel n : nat) (l : list A) : list (list A) :=
  match fuel, l with
  | S fuel', _ :: _ => take n l :: chunks_fuel fuel' n (drop n l)
  | _, _ => []
  end.
Definition chunks {A} (n : nat) (l : list A) : list (list A) :=
  chunks_fuel (length l) n l.

(** [iter.collect::<HashMap<K, V>>()]: a later pair replaces an earlier one. *)
Definition collect_map {K V} `{Countable K} (l : list (K * V)) : gmap K V :=
  foldl (λ m kv, <[kv.1 := kv.2]> m) ∅ l.

(** The iteration order of a [HashMap] or [HashSet] is unspecified: it is a
    parameter of the code that iterates, and theorems hold for every order. *)
Class HashOrder (K : Type) `{Countable K} := {
  map_iter : ∀ {V}, gmap K V → list (K * V);
  set_iter : gset K → list K }.
Class HashOrderLaws (K : Type) `{HashOrder K} : Prop := {
  map_iter_perm : ∀ V (m : gmap K V), map_iter m ≡ₚ map_to_list m;
  set_iter_perm : ∀ (s : gset K), set_iter s ≡ₚ elements s }.

(** ** Lemmas: the monad *)

Section prog_lemmas.
Context {S E : Type}.

Lemma prog_bind_done {A B} (m : Prog S E A) (f : A → Prog S E B) s a s' :
  m s = (Done a, s') → (m ≫= f) s = f a s'.
Proof. unfold mbind, Prog_bind. by intros ->. Qed.

Lemma prog_bind_panicked {A B} (m : Prog S E A) (f : A → Prog S E B) s w s' :
  m s = (Panicked w, s') → (m ≫= f) s = (Panicked w, s').
Proof. unfold mbind, Prog_bind. by intros ->. Qed.

Lemma prog_bind_inv {A B} (m : Prog S E A) (f : A → Prog S E B) s b s' :
  (m ≫= f) s = (Done b, s') → ∃ a s1, m s = (Done a, s1) ∧ f a s1 = (Done b, s').
Proof.
  unfold mbind, Prog_bind.
  destruct (m s) as [[a|e|w] s1] eqn:Hm; [eauto|discriminate..].
Qed.

Lemma run_loop_app {I} (body : I → Prog S E unit) xs ys s s' :
  run_loop body xs s = (Done Running, s') →
  run_loop body (xs ++ ys) s = run_loop body ys s'.
Proof.
  revert s; induction xs as [|[i|] xs IH]; intros s; simpl.
  - by intros [= ->].
  - intros (u & s1 & Hb & Hr)%prog_bind_inv.
    rewrite (prog_bind_done _ _ _ _ _ Hb). eauto.
  - discriminate.
Qed.

Lemma run_loop_snoc {I} (body : I → Prog S E unit) log i st0 st st' :
  run_loop body (Some <$> log) st0 = (Done Running, st) → body i st = (Done tt, st') →
  run_loop body (Some <$> log ++ [i]) st0 = (Done Running, st').
Proof.
  intros Hrun Hi. rewrite fmap_app, (run_loop_app body _ _ _ _ Hrun). cbn.
  by rewrite (prog_bind_done _ _ _ _ _ Hi).
Qed.

(** A loop that has gone through a log has gone through each of its turns. *)
Lemma run_loop_split {I} (body : I → Prog S E unit) l1 i l2 st0 st :
  run_loop body (Some <$> l1 ++ i :: l2) st0 = (Done Running, st) →
  ∃ st1 st2, run_loop body (Some <$> l1) st0 = (Done Running, st1) ∧ body i st1 = (Done tt, st2) ∧
    run_loop body (Some <$> l2) st2 = (Done Running, st).
Proof.
  revert st0. induction l1 as [|j l1 IH]; intros st0; cbn.
  - intros ([] & st2 & Hi & Hl2)%prog_bind_inv. by exists st0, st2.
  - intros (u & st1 & Hj & Hrest)%prog_bind_inv. rewrite (prog_bind_done _ _ _ _ _ Hj). by apply IH.
Qed.

Lemma live_inputs_some {I} (l : list I) : live_inputs (Some <$> l) = l.
Proof. induction l as [|i l IH]; [done|]. cbn. by rewrite IH. Qed.

(** What each turn adds to a log, the loop adds turn by turn. *)
Lemma run_loop_log {I L} (log : S → list L) (entry : I → list L)
    (body : I → Prog S E unit) inputs s r s' :
  (∀ i s u s', body i s = (Done u, s') → log s' = log s ++ entry i) →
  run_loop body inputs s = (Done r, s') →
  log s' = log s ++ flat_map entry (live_inputs inputs).
Proof.
  intros Hbody. revert s; induction inputs as [|[i|] inputs IH]; intros s; simpl.
  - intros [= _ ->]. by rewrite app_nil_r.
  - intros (u & s1 & Hb & Hr)%prog_bind_inv.
    by rewrite (IH _ Hr), (Hbody _ _ _ _ Hb), <-app_assoc.
  - intros [= _ ->]. by rewrite app_nil_r.
Qed.

Lemma run_loop_done_invariant {I} (P : S → Prop) (body : I → Prog S E unit) inputs s r s' :
  (∀ i s u s', P s → body i s = (Done u, s') → P s') →
  P s → run_loop body inputs s = (Done r, s') → P s'.
Proof.
  intros Hbody. revert s; induction inputs as [|[i|] inputs IH]; intros s Hs; simpl.
  - by intros [= _ <-].
  - intros (u & s1 & Hb & Hr)%prog_bind_inv. eauto.
  - by intros [= _ <-].
Qed.

(** An invariant of the body is an invariant of the loop, whatever the loop
    returns. *)
Lemma run_loop_invariant {I} (P : S → Prop) (body : I → Prog S E unit) inputs s :
  (∀ i s, P s → P (body i s).2) → P s → P (run_loop body inputs s).2.
Proof.
  intros Hbody. revert s; induction inputs as [|[i|] inputs IH]; intros s Hs; simpl.
  - done.
  - unfold mbind, Prog_bind. specialize (Hbody i s Hs).
    destruct (body i s) as [[u|e|w] s1]; simpl in *; eauto.
  - done.
Qed.

Lemma run_loop_invariant_inputs {I} (good : I → Prop) (P : S → Prop)
    (body : I → Prog S E unit) inputs s :
  (∀ i s, good i → P s → P (body i s).2) →
  Forall good (live_inputs inputs) → P s → P (run_loop body inputs s).2.
Proof.
  intros Hbody. revert s; induction inputs as [|[i|] inputs IH]; intros s Hgood Hs; simpl in *.
  - done.
  - apply Forall_cons in Hgood as [Hi Hgood]. unfold mbind, Prog_bind.
    specialize (Hbody i s Hi Hs).
    destruct (body i s) as [[u|e|w] s1]; simpl in *; eauto.
  - done.
Qed.
End prog_lemmas.

(** *** What a completed program did, operation by operation *)

Section prog_done.
Context {S E : Type}.

Lemma bind_done {A B} (m : Prog S E A) (f : A → Prog S E B) s b s' :
  (m ≫= f) s = (Done b, s') ↔ ∃ a s1, m s = (Done a, s1) ∧ f a s1 = (Done b, s').
Proof.
  split; [apply prog_bind_inv|]. intros (a & s1 & Hm & Hf).
  by rewrite (prog_bind_done _ _ _ _ _ Hm).
Qed.
Lemma mret_done {A} (a b : A) (s s' : S) :
  (mret a : Prog S E A) s = (Done b, s') ↔ a = b ∧ s' = s.
Proof. unfold mret, Prog_ret. naive_solver. Qed.
Lemma gets_done {A} (f : S → A) b s s' :
  (gets f : Prog S E A) s = (Done b, s') ↔ f s = b ∧ s' = s.
Proof. unfold gets. naive_solver. Qed.
Lemma modify_done (f : S → S) u s s' :
  (modify f : Prog S E unit) s = (Done u, s') ↔ s' = f s.
Proof. unfold modify. destruct u. naive_solver. Qed.
Lemma ok_or_done {A} (e : E) (o : option A) a (s s' : S) :
  ok_or e o s = (Done a, s') ↔ o = Some a ∧ s' = s.
Proof. destruct o; unfold ok_or, throw, mret, Prog_ret; naive_solver. Qed.
Lemma unwrap_done {A} why (o : option A) a (s s' : S) :
  (unwrap why o : Prog S E A) s = (Done a, s') ↔ o = Some a ∧ s' = s.
Proof. destruct o; unfold unwrap, panic, mret, Prog_ret; naive_solver. Qed.
Lemma fail_if_done g (e : E) u (s s' : S) :
  fail_if g e s = (Done u, s') ↔ g = false ∧ s' = s.
Proof. destruct g, u; unfold fail_if, throw, mret, Prog_ret; naive_solver. Qed.
Lemma assert_done g why u (s s' : S) :
  (assert g why : Prog S E unit) s = (Done u, s') ↔ g = true ∧ s' = s.
Proof. destruct g, u; unfold assert, panic, mret, Prog_ret; naive_solver. Qed.
Lemma throw_done {A} (e : E) a (s s' : S) : (throw e : Prog S E A) s ≠ (Done a, s').
Proof. done. Qed.

Create HintDb keeps.
(** [m] leaves the state alone, whatever it returns. *)
Definition reads_only {A} (m : Prog S E A) : Prop := ∀ s, (m s).2 = s.

(** [m] preserves [P], whatever it returns. *)
Definition keeps (P : S → Prop) {A} (m : Prog S E A) : Prop := ∀ s, P s → P (m s).2.

Lemma keeps_bind P {A B} (m : Prog S E A) (f : A → Prog S E B) :
  keeps P m → (∀ a, keeps P (f a)) → keeps P (m ≫= f).
Proof.
  intros Hm Hf s Hs. unfold mbind, Prog_bind. specialize (Hm s Hs).
  destruct (m s) as [[a|e|w] s1]; cbn in *; [by apply Hf|done..].
Qed.
Lemma keeps_reads_only P {A} (m : Prog S E A) : reads_only m → keeps P m.
Proof. intros Hm s. by rewrite Hm. Qed.
Lemma keeps_modify (P : S → Prop) (f : S → S) : (∀ s, P s → P (f s)) → keeps P (modify f).
Proof. done. Qed.
Lemma keeps_run_loop P {I} (body : I → Prog S E unit) inputs :
  (∀ i, keeps P (body i)) → keeps P (run_loop body inputs).
Proof. intros Hbody s. apply run_loop_invariant. intros i. apply Hbody. Qed.

Lemma keeps_run_loop_inputs P {I} (body : I → Prog S E unit) inputs :
  (∀ i, i ∈ live_inputs inputs → keeps P (body i)) → keeps P (run_loop body inputs).
Proof.
  intros Hbody s. apply (run_loop_invariant_inputs (λ i, i ∈ live_inputs inputs)).
  - intros i s' Hi. by apply Hbody.
  - by apply Forall_forall.
Qed.

Lemma reads_only_elim {A} (m : Prog S E A) s r s' : reads_only m → m s = (r, s') → s' = s.
Proof. intros Hm Hr. specialize (Hm s). by rewrite Hr in Hm. Qed.
Lemma reads_only_bind {A B} (m : Prog S E A) (f : A → Prog S E B) :
  reads_only m → (∀ a, reads_only (f a)) → reads_only (m ≫= f).
Proof.
  intros Hm Hf s. unfold mbind, Prog_bind. specialize (Hm s).
  destruct (m s) as [[a|e|w] s1]; cbn in *; subst; [apply Hf|done..].
Qed.
Lemma reads_only_ret {A} (a : A) : reads_only (mret a).
Proof. done. Qed.
Lemma reads_only_gets {A} (f : S → A) : reads_only (gets f).
Proof. done. Qed.
Lemma reads_only_throw {A} (e : E) : reads_only (throw e : Prog S E A).
Proof. done. Qed.
Lemma reads_only_ok_or {A} (e : E) (o : option A) : reads_only (ok_or e o).
Proof. by destruct o. Qed.
Lemma reads_only_unwrap {A} why (o : option A) : reads_only (unwrap why o).
Proof. by destruct o. Qed.
Lemma reads_only_fail_if g (e : E) : reads_only (fail_if g e).
Proof. by destruct g. Qed.
Lemma reads_only_assert g why : reads_only (assert g why).
Proof. by destruct g. Qed.
End prog_done.

#[export] Hint Resolve reads_only_bind reads_only_ret reads_only_gets reads_only_throw
  reads_only_ok_or reads_only_unwrap reads_only_fail_if reads_only_assert : keeps.
Lemma keeps_ret {S E A} (P : S → Prop) (a : A) : keeps P (mret a : Prog S E A).
Proof. by intros s Hs. Qed.
#[export] Hint Resolve keeps_bind keeps_ret : keeps.
#[export] Hint Extern 3 (keeps _ _) => apply keeps_reads_only : keeps.

(** Loops that collect, and loops that only assert. *)
Lemma map_m_cons {S E A B} (f : A → Prog S E B) x l s ys s' :
  mapM f (x :: l) s = (Done ys, s') ↔
  ∃ y ys' s1, f x s = (Done y, s1) ∧ mapM f l s1 = (Done ys', s') ∧ ys = y :: ys'.
Proof.
  cbn. rewrite bind_done. setoid_rewrite bind_done. setoid_rewrite mret_done. naive_solver.
Qed.
Lemma for_each_assert_done {S E A} (f : A → bool) why l (s : S) u s' :
  for_each (E := E) (λ x, assert (f x) why) l s = (Done u, s') ↔ s' = s ∧ ∀ x, x ∈ l → f x = true.
Proof.
  destruct u. induction l as [|x l IH]; cbn; [unfold mret, Prog_ret; set_solver|].
  rewrite bind_done. setoid_rewrite assert_done. setoid_rewrite elem_of_cons. split.
  - intros (_ & s1 & [Hx ->] & [-> Hl]%IH). naive_solver.
  - intros [-> Hall]. exists tt, s. split; [auto|]. apply IH. auto.
Qed.

(** Code without an [Err] of its own. *)
Definition never_fails {S E A} (m : Prog S E A) : Prop := ∀ s e s', m s ≠ (Fail e, s').

Create HintDb never_fails.
Section never_fails.
Context {S E : Type}.
Lemma never_fails_ret {A} (a : A) : never_fails (mret a : Prog S E A).
Proof. by intros s e s'. Qed.
Lemma never_fails_gets {A} (f : S → A) : never_fails (gets f : Prog S E A).
Proof. by intros s e s'. Qed.
Lemma never_fails_modify (f : S → S) : never_fails (modify f : Prog S E unit).
Proof. by intros s e s'. Qed.
Lemma never_fails_unwrap {A} why (o : option A) : never_fails (unwrap why o : Prog S E A).
Proof. by destruct o; intros s e s'. Qed.
Lemma never_fails_assert b why : never_fails (assert b why : Prog S E unit).
Proof. by destruct b; intros s e s'. Qed.
Lemma never_fails_bind {A B} (m : Prog S E A) (f : A → Prog S E B) :
  never_fails m → (∀ a, never_fails (f a)) → never_fails (m ≫= f).
Proof.
  intros Hm Hf s e s'. unfold mbind, Prog_bind. pose proof (Hm s) as Hs.
  destruct (m s) as [[a|e'|w] s1]; [apply Hf|naive_solver|done].
Qed.
Lemma never_fails_for_each {A} (body : A → Prog S E unit) l :
  (∀ a, never_fails (body a)) → never_fails (for_each body l).
Proof.
  intros Hbody. induction l; cbn; [apply never_fails_ret|].
  apply never_fails_bind; [apply Hbody|done].
Qed.
End never_fails.
#[export] Hint Resolve never_fails_ret never_fails_gets never_fails_modify never_fails_unwrap
  never_fails_assert never_fails_bind never_fails_for_each : never_fails.
#[export] Hint Extern 2 (never_fails (match ?x with _ => _ end)) => destruct x : never_fails.

(** Code that completes from every state. *)
Definition completes {S E A} (m : Prog S E A) : Prop := ∀ s, ∃ a s', m s = (Done a, s').

Create HintDb completes.
Section completes.
Context {S E : Type}.
Lemma completes_ret {A} (a : A) : completes (mret a : Prog S E A).
Proof. intros s. by eexists _, _. Qed.
Lemma completes_gets {A} (f : S → A) : completes (gets f : Prog S E A).
Proof. intros s. by eexists _, _. Qed.
Lemma completes_modify (f : S → S) : completes (modify f : Prog S E unit).
Proof. intros s. by eexists _, _. Qed.
Lemma completes_ok_or_some {A} (e : E) (a : A) : completes (ok_or e (Some a) : Prog S E A).
Proof. apply completes_ret. Qed.
Lemma completes_bind {A B} (m : Prog S E A) (f : A → Prog S E B) :
  completes m → (∀ a, completes (f a)) → completes (m ≫= f).
Proof.
  intros Hm Hf s. destruct (Hm s) as (a & s1 & Hs). rewrite (prog_bind_done _ _ _ _ _ Hs). apply Hf.
Qed.
Lemma completes_for_each {A} (body : A → Prog S E unit) l :
  (∀ a, completes (body a)) → completes (for_each body l).
Proof.
  intros Hbody. induction l; cbn; [apply completes_ret|]. apply completes_bind; [apply Hbody|done].
Qed.
End completes.
#[export] Hint Resolve completes_ret completes_gets completes_modify completes_ok_or_some
  completes_bind completes_for_each : completes.
#[export] Hint Extern 2 (completes (match ?x with _ => _ end)) => destruct x : completes.

(** ** Lemmas: machine integers *)

Lemma u64_wrap_small z : is_u64 z → u64_wrap z = z.
Proof. apply Z.mod_small. Qed.
Lemma u64_wrap_range z : is_u64 (u64_wrap z).
Proof. apply Z.mod_pos_bound. lia. Qed.
Lemma u64_add_range x y : is_u64 (u64_add x y).
Proof. apply u64_wrap_range. Qed.
Lemma u64_sub_range x y : is_u64 (u64_sub x y).
Proof. apply u64_wrap_range. Qed.
Lemma u64_add_small x y : 0 <= x + y < 2 ^ 64 → u64_add x y = x + y.
Proof. apply Z.mod_small. Qed.
Lemma u64_sub_small x y : 0 <= x - y < 2 ^ 64 → u64_sub x y = x - y.
Proof. apply Z.mod_small. Qed.
Lemma u64_sat_add_range x y : is_u64 x → is_u64 y → is_u64 (u64_sat_add x y).
Proof. unfold is_u64, u64_sat_add, u64_max. lia. Qed.
Lemma u64_add_swap x y z : u64_add (u64_add x z) y = u64_add (u64_add x y) z.
Proof. unfold u64_add, u64_wrap. rewrite !Zplus_mod_idemp_l. f_equal. lia. Qed.
Lemma u64_add_assoc x y z : u64_add x (u64_add y z) = u64_add (u64_add x y) z.
Proof. unfold u64_add, u64_wrap. rewrite Zplus_mod_idemp_l, Zplus_mod_idemp_r. f_equal. lia. Qed.
Lemma u64_add_0_l x : is_u64 x → u64_add 0 x = x.
Proof. intros. apply u64_add_small. unfold is_u64 in *. lia. Qed.

Lemma u64_add_wrap_l x y : u64_add (u64_wrap x) y = u64_wrap (x + y).
Proof. unfold u64_add, u64_wrap. apply Zplus_mod_idemp_l. Qed.

Lemma u64_sum_wrap l : u64_sum l = u64_wrap (Z_sum l).
Proof.
  unfold u64_sum.
  assert (Hgen : ∀ acc, foldl u64_add (u64_wrap acc) l = u64_wrap (acc + Z_sum l)).
  { induction l as [|x l IH]; intros acc; simpl; [by rewrite Z.add_0_r|].
    rewrite u64_add_wrap_l, IH. f_equal. lia. }
  apply (Hgen 0).
Qed.

Lemma elem_of_z_range x lo hi : x ∈ z_range lo hi ↔ lo <= x < hi.
Proof.
  unfold z_range. rewrite list_elem_of_In, in_map_iff. setoid_rewrite in_seq. split.
  - intros (i & <- & ?). lia.
  - intros ?. exists (Z.to_nat (x - lo)). lia.
Qed.

#[global] Instance z_offset_inj lo : Inj (=) (=) (λ i : nat, lo + Z.of_nat i).
Proof. intros ??. lia. Qed.
Lemma NoDup_z_range lo hi : NoDup (z_range lo hi).
Proof.
  unfold z_range. apply (NoDup_fmap_2 (λ i : nat, lo + Z.of_nat i)).
  apply NoDup_ListNoDup, seq_NoDup.
Qed.
Lemma map_add_z_range start n : map (Z.add start) (z_range 0 n) = z_range start (start + n).
Proof.
  unfold z_range. rewrite map_map. replace (start + n - start) with n by lia.
  rewrite Z.sub_0_r. apply map_ext. intros. lia.
Qed.
Lemma u16_checked_add_done x y z : u16_checked_add x y = Some z ↔ z = x + y ∧ x + y < 2 ^ 16.
Proof. unfold u16_checked_add. destruct (Z.ltb_spec (x + y) (2 ^ 16)); naive_solver lia. Qed.

(** ** Lemmas: lists and maps *)

Section chunks_lemmas.
Context {A : Type}.
Implicit Types l : list A.

Lemma chunks_fuel_concat fuel n l :
  (0 < n)%nat → (length l ≤ fuel)%nat → concat (chunks_fuel fuel n l) = l.
Proof.
  intros Hn. revert l; induction fuel as [|fuel IH]; intros [|a l] Hl;
    simpl in *; try done; [lia|].
  rewrite IH; [apply (take_drop n (a :: l))|].
  rewrite length_drop. simpl. lia.
Qed.

Lemma chunks_concat n l : (0 < n)%nat → concat (chunks n l) = l.
Proof. intros. by apply chunks_fuel_concat. Qed.

Lemma chunks_size n l c : (0 < n)%nat → c ∈ chunks n l → (0 < length c ≤ n)%nat.
Proof.
  intros Hn. unfold chunks. generalize (length l) as fuel.
  intros fuel. revert l; induction fuel as [|fuel IH]; intros [|a l]; simpl;
    try (intros []%not_elem_of_nil).
  intros [->|?]%elem_of_cons; [|eauto].
  rewrite length_take. simpl. lia.
Qed.
End chunks_lemmas.

Lemma existsb_elem {A} (f : A → bool) l : existsb f l = true ↔ ∃ x, x ∈ l ∧ f x = true.
Proof. rewrite existsb_exists. by setoid_rewrite list_elem_of_In. Qed.

Lemma collect_map_snoc {K V} `{Countable K} (l : list (K * V)) k v :
  collect_map (l ++ [(k, v)]) = <[k := v]> (collect_map l).
Proof. unfold collect_map. by rewrite foldl_app. Qed.

(** How many elements pass a test, when one of them is replaced. *)
Lemma length_filter_insert {A} (f : A → bool) l i old new :
  l !! i = Some old →
  Z.of_nat (length (List.filter f (<[i := new]> l))) =
    Z.of_nat (length (List.filter f l)) - Z.b2z (f old) + Z.b2z (f new).
Proof.
  revert i; induction l as [|x l IH]; intros [|i]; try done.
  - intros [= ->]. cbn [list_insert insert List.filter].
    destruct (f old), (f new); cbn [length Z.b2z]; lia.
  - intros Hi. specialize (IH i Hi). change (<[S i := new]> (x :: l)) with (x :: <[i := new]> l).
    cbn [List.filter]. destruct (f x); cbn [length]; lia.
Qed.
Lemma filter_replicate_none {A} (f : A → bool) k x : f x = false → List.filter f (replicate k x) = [].
Proof. intros Hx. induction k as [|k IH]; [done|]. cbn. by rewrite Hx. Qed.

(** The [n]-th result of an [omap] comes from an element with [n] results before it. *)
Lemma omap_lookup_split {A B} (f : A → option B) l n b :
  omap f l !! n = Some b →
  ∃ l1 a l2, l = l1 ++ a :: l2 ∧ f a = Some b ∧ length (omap f l1) = n.
Proof.
  revert n. induction l as [|a l IH]; intros n; [done|]. cbn [omap list_omap].
  destruct (f a) as [b'|] eqn:Hf; [destruct n as [|n]; cbn|].
  - intros [= <-]. by exists [], a, l.
  - intros (l1 & a' & l2 & -> & Ha & <-)%IH. exists (a :: l1), a', l2. cbn. by rewrite Hf.
  - intros (l1 & a' & l2 & -> & Ha & <-)%IH. exists (a :: l1), a', l2. cbn. by rewrite Hf.
Qed.

(** [collect] keeps the last binding of a key. *)
Lemma lookup_collect_map {K V} `{Countable K} (l : list (K * V)) k v :
  collect_map l !! k = Some v ↔
  ∃ l1 l2, l = l1 ++ (k, v) :: l2 ∧ k ∉ l2.*1.
Proof.
  induction l as [|[k' v'] l IH] using rev_ind.
  { split; [done|]. intros (l1 & l2 & Heq & _). by destruct l1. }
  rewrite collect_map_snoc, lookup_insert_Some, IH. split.
  - intros [[-> ->]|[Hne (l1 & l2 & -> & Hnin)]].
    + exists l, []. split; [done|]. apply not_elem_of_nil.
    + exists l1, (l2 ++ [(k', v')]). rewrite <-app_assoc. split; [done|].
      rewrite fmap_app. set_solver.
  - intros (l1 & l2 & Heq & Hnin). destruct l2 as [|[k2 v2] l2 _] using rev_ind.
    + apply app_inj_tail in Heq as [-> [= -> ->]]. by left.
    + rewrite app_comm_cons, app_assoc in Heq.
      apply app_inj_tail in Heq as [-> [= -> ->]]. right.
      rewrite fmap_app in Hnin. split; [set_solver|].
      exists l1, l2. set_solver.
Qed.

Lemma elem_of_collect_map {K V} `{Countable K} (l : list (K * V)) k v :
  collect_map l !! k = Some v → (k, v) ∈ l.
Proof. intros (l1 & l2 & -> & _)%lookup_collect_map. set_solver. Qed.

Lemma collect_map_is_Some {K V} `{Countable K} (l : list (K * V)) k :
  is_Some (collect_map l !! k) ↔ k ∈ l.*1.
Proof.
  induction l as [|[k' v'] l IH] using rev_ind; simpl.
  { split; [by intros [? ?]|intros []%not_elem_of_nil]. }
  rewrite collect_map_snoc, fmap_app, lookup_insert_is_Some', IH. set_solver.
Qed.

Section hash_order_lemmas.
Context `{HashOrderLaws K}.

Lemma elem_of_map_iter {V} (m : gmap K V) k v : (k, v) ∈ map_iter m ↔ m !! k = Some v.
Proof. by rewrite map_iter_perm, elem_of_map_to_list. Qed.
Lemma NoDup_map_iter {V} (m : gmap K V) : NoDup (map_iter m).*1.
Proof. rewrite map_iter_perm. apply NoDup_fst_map_to_list. Qed.
Lemma elem_of_set_iter (s : gset K) k : k ∈ set_iter s ↔ k ∈ s.
Proof. by rewrite set_iter_perm, elem_of_elements. Qed.
Lemma NoDup_set_iter (s : gset K) : NoDup (set_iter s).
Proof. rewrite set_iter_perm. apply NoDup_elements. Qed.
End hash_order_lemmas.

Lemma rtc_invariant {A} (R : relation A) (P : A → Prop) x y :
  (∀ x y, P x → R x y → P y) → P x → rtc R x y → P y.
Proof. intros Hstep Hx Hrtc. induction Hrtc; eauto. Qed.

(** ** Automation *)

Create HintDb relayer discriminated.
#[export] Hint Resolve u64_wrap_range u64_add_range u64_sub_range u64_sat_add_range : relayer.

#[export] Hint Resolve reads_only_bind reads_only_ret reads_only_gets reads_only_throw
  reads_only_ok_or reads_only_unwrap reads_only_fail_if reads_only_assert keeps_bind : relayer.
#[export] Hint Extern 5 (keeps _ _) => apply keeps_reads_only; solve [auto with relayer] : relayer.

(** Boolean tests as propositions. *)
#[export] Hint Rewrite negb_false_iff negb_true_iff bool_decide_eq_true bool_decide_eq_false
  Z.eqb_eq Z.eqb_neq Nat.eqb_eq Z.leb_le Z.leb_gt Z.ltb_lt Z.ltb_ge : bool_facts.

(** Turn a hypothesis [m s = (Done a, s')] into what each operation of [m] did. *)
Ltac prog_inv H :=
  lazymatch type of H with
  | (_ ≫= _) _ = (Done _, _) =>
      let a := fresh "a" in let s1 := fresh "s" in let H1 := fresh "H" in let H2 := fresh "H" in
      apply bind_done in H as (a & s1 & H1 & H2); prog_inv H1; prog_inv H2
  | ok_or _ _ _ = (Done _, _) => apply ok_or_done in H as [H ?]; simplify_eq
  | unwrap _ _ _ = (Done _, _) => apply unwrap_done in H as [H ?]; simplify_eq
  | fail_if _ _ _ = (Done _, _) => apply fail_if_done in H as [H ?]; simplify_eq
  | assert _ _ _ = (Done _, _) => apply assert_done in H as [H ?]; simplify_eq
  | mret _ _ = (Done _, _) => apply mret_done in H as [? ?]; simplify_eq
  | gets _ _ = (Done _, _) => apply gets_done in H as [? ?]; simplify_eq
  | modify _ _ = (Done _, _) => apply modify_done in H; simplify_eq
  | throw _ _ = (Done _, _) => by destruct (throw_done _ _ _ _ H)
  | _ => idtac
  end.

(** Run the goal's program with the equations in the context. *)
Ltac prog_run :=
  repeat (erewrite prog_bind_done; [|first
    [ apply gets_done; split; [reflexivity|reflexivity]
    | apply ok_or_done; split; [eassumption|reflexivity]
    | apply unwrap_done; split; [eassumption|reflexivity]
    | apply fail_if_done with (u := tt); split; [eassumption|reflexivity]
    | apply assert_done with (u := tt); split; [eassumption|reflexivity]
    | apply modify_done with (u := tt); reflexivity
    | eassumption ]]).

(** Unfold the monad's operations in the goal and everywhere else. *)
Ltac prog_unfold :=
  unfold gets, modify, throw, panic, ok_or, unwrap, fail_if, assert, mbind, mret,
    Prog_bind, Prog_ret, Outcome_bind, Outcome_ret, constant in *.

(** Addition and subtraction respect equality modulo [m]. *)
#[export] Instance eqm_equivalence m : Equivalence (eqm m) := eqm_setoid m.
#[export] Instance add_eqm_proper m : Proper (eqm m ==> eqm m ==> eqm m) Z.add := Zplus_eqm m.
#[export] Instance sub_eqm_proper m : Proper (eqm m ==> eqm m ==> eqm m) Z.sub := Zminus_eqm m.

(** Equations between sums of [u64]s, by rewriting modulo [2^64]: the inner
    wrap-arounds go, and the sums are equal. *)
Ltac u64_ring :=
  unfold u64_add, u64_sub, u64_wrap;
  lazymatch goal with |- ?x mod ?m = ?y mod ?m => change (eqm m x y) end;
  repeat setoid_rewrite Zmod_eqm; unfold eqm; rewrite ?Nat2Z.inj_succ; f_equal; lia.

(** One step of symbolic execution: case on the scrutinee in the goal. *)
Ltac prog_step := prog_unfold; cbn in *; repeat (case_match; simplify_eq; cbn in *).

(** Both sides of the equation evaluate to the same value. *)
Ltac vm_refl := lazymatch goal with |- ?x = ?y => exact (eq_refl y <: x = y) end.
