(* ===== verification/External.v ===== *)
(** * Interfaces to third-party code

    Each class lists the operations of one library that the relayer's code
    calls; the class named [...Laws] states their documented behaviour.  Nothing
    here is defined: the components are written against the operations, the
    theorems that need a law take the laws class as a hypothesis, and
    [Instances.v] shows that the laws can hold. *)

From Stdlib Require Import Ascii.
From S2P Require Import Prelude.
Local Open Scope Z_scope.

(** ** [std::net::IpAddr] *)

Inductive IpAddr :=
| IpV4 (a b c d : Z)
| IpV6 (segments : list Z).

#[global] Instance IpAddr_eq_dec : EqDecision IpAddr.
Proof. solve_decision. Defined.

#[global] Instance IpAddr_countable : Countable IpAddr.
Proof.
  refine (inj_countable'
    (λ ip, match ip with
           | IpV4 a b c d => inl (a, b, c, d)
           | IpV6 s => inr s
           end)
    (λ x, match x with
          | inl (a, b, c, d) => IpV4 a b c d
          | inr s => IpV6 s
          end) _).
  by intros [].
Defined.

Definition is_ipv4 (ip : IpAddr) : bool :=
  match ip with IpV4 _ _ _ _ => true | IpV6 _ => false end.
Definition is_loopback (ip : IpAddr) : bool :=
  match ip with
  | IpV4 a _ _ _ => a =? 127
  | IpV6 s => bool_decide (s = [0; 0; 0; 0; 0; 0; 0; 1])
  end.

(** [IpAddr::to_string] and [IpAddr::from_str] *)
Class IpText := {
  ip_to_string : IpAddr → string;
  ip_from_str : string → option IpAddr }.
Class IpTextLaws `{IpText} : Prop := {
  ip_text_roundtrip : ∀ ip, ip_from_str (ip_to_string ip) = Some ip }.

(** ** [tonic::Status] *)

Inductive Code := Internal | ResourceExhausted | InvalidArgument | PermissionDenied.
Record Status := { code : Code; message : string }.

#[global] Instance Code_eq_dec : EqDecision Code.
Proof. solve_decision. Defined.
#[global] Instance Status_eq_dec : EqDecision Status.
Proof. solve_decision. Defined.

(** ** [solana_sdk]: keys, transactions, packets *)

(** The fields of [v0::MessageAddressTableLookup] and [AddressLookupTableAccount]. *)
Record MessageAddressTableLookup (Pubkey : Type) := {
  account_key : Pubkey;
  writable_indexes : list Z;
  readonly_indexes : list Z }.
Arguments account_key {Pubkey}.
Arguments writable_indexes {Pubkey}.
Arguments readonly_indexes {Pubkey}.
Arguments Build_MessageAddressTableLookup {Pubkey}.

Record AddressLookupTableAccount (Pubkey : Type) := {
  key : Pubkey;
  addresses : list Pubkey }.
Arguments key {Pubkey}.
Arguments addresses {Pubkey}.
Arguments Build_AddressLookupTableAccount {Pubkey}.

(** [packet::Meta]; [meta_flags] is the bit set [PacketFlags]. *)
Record Meta := {
  meta_size : Z;
  meta_addr : IpAddr;
  meta_port : Z;
  meta_flags : Z }.

Class Sdk := {
  Pubkey : Type;
  Pubkey_eq_dec :: EqDecision Pubkey;
  Pubkey_countable :: Countable Pubkey;
  PUBKEY_BYTES : nat;
  SIGNATURE_BYTES : nat;
  pubkey_try_from : list Byte.byte → option Pubkey;
  pubkey_to_bytes : Pubkey → list Byte.byte;
  pubkey_from_str : string → option Pubkey;
  pubkey_to_string : Pubkey → string;

  VersionedTransaction : Type;
  static_account_keys : VersionedTransaction → list Pubkey;
  is_maybe_writable : VersionedTransaction → nat → bool;
  address_table_lookups :
    VersionedTransaction → option (list (MessageAddressTableLookup Pubkey));

  Packet : Type;
  packet_meta : Packet → Meta;
  packet_set_flags : Z → Packet → Packet;
  packet_data : Packet → option (list Byte.byte);
  deserialize_slice : Packet → option VersionedTransaction;

  FORWARDED : Z;
  discard : Meta → bool;
  forwarded : Meta → bool;
  repair : Meta → bool;
  is_simple_vote_tx : Meta → bool;
  is_tracer_packet : Meta → bool;
  is_from_staked_node : Meta → bool }.

Class SdkLaws `{Sdk} : Prop := {
  pubkey_text_roundtrip : ∀ pk, pubkey_from_str (pubkey_to_string pk) = Some pk;
  pubkey_bytes_roundtrip : ∀ pk, pubkey_try_from (pubkey_to_bytes pk) = Some pk;
  pubkey_to_bytes_length : ∀ pk, length (pubkey_to_bytes pk) = PUBKEY_BYTES;
  pubkey_try_from_length : ∀ bs,
    is_Some (pubkey_try_from bs) ↔ length bs = PUBKEY_BYTES;
  packet_set_flags_meta : ∀ fl p, packet_meta (packet_set_flags fl p) =
    {| meta_size := meta_size (packet_meta p); meta_addr := meta_addr (packet_meta p);
       meta_port := meta_port (packet_meta p); meta_flags := fl |};
  forwarded_spec : ∀ m, forwarded m = (Z.land (meta_flags m) FORWARDED =? FORWARDED);
  (** [Packet::data] answers by the discard flag, which [FORWARDED] leaves alone *)
  packet_data_flags : ∀ p,
    packet_data (packet_set_flags (Z.lor (meta_flags (packet_meta p)) FORWARDED) p) = packet_data p }.

(** ** [solana_core::sigverify]: the batches a turn of the stage passes on *)

Class SigVerifier `{Sdk} := {
  verify_batches : list (list Packet) → list (list Packet);
  (** what the law speaks of: the signatures of the transaction in the bytes verify *)
  signatures_valid : list Byte.byte → bool }.

(** A packet that leaves the stage undiscarded came in with its bytes and its forwarded
    flag, and with valid signatures. *)
Class SigVerifierLaws `{SigVerifier} : Prop :=
  verify_batches_spec : ∀ batches b' p', b' ∈ verify_batches batches → p' ∈ b' →
    discard (packet_meta p') = false →
    ∃ b p, b ∈ batches ∧ p ∈ b ∧ packet_data p' = packet_data p ∧
      forwarded (packet_meta p') = forwarded (packet_meta p) ∧
      ∀ bytes, packet_data p = Some bytes → signatures_valid bytes = true.

(** [solana_perf::packet::PacketBatch] and [BankingPacketBatch.0] *)
Abbreviation PacketBatch := (list Packet).
Abbreviation BankingPacketBatch := (list PacketBatch).

(** ** Bounded multi-producer channels ([tokio::sync::mpsc], [crossbeam_channel]) *)

Inductive TrySendError := Closed | Full.

Class Channels := {
  chan : Type → Type;
  channel : ∀ {M}, nat → chan M;
  try_send : ∀ {M}, M → chan M → option TrySendError * chan M;
  capacity : ∀ {M}, chan M → nat;
  (** the receiver is dropped *)
  drop_receiver : ∀ {M}, chan M → chan M;
  (** what the laws speak of: the messages queued, the bound, and whether the
      receiver is gone *)
  chan_queue : ∀ {M}, chan M → list M;
  chan_bound : ∀ {M}, chan M → nat;
  chan_closed : ∀ {M}, chan M → bool }.

(** What the laws speak of, as one value: two channels in the same [chan_view]
    behave alike. *)
Definition chan_view `{Channels} {M} (c : chan M) : list M * nat * bool :=
  (chan_queue c, chan_bound c, chan_closed c).

Class ChannelsLaws `{Channels} : Prop := {
  channel_view : ∀ M n, chan_view (channel (M := M) n) = ([], n, false);
  capacity_view : ∀ M (c : chan M), capacity c = (chan_bound c - length (chan_queue c))%nat;
  drop_receiver_closes : ∀ M (c : chan M), chan_closed (drop_receiver c) = true;
  try_send_closed : ∀ M (m : M) c, chan_closed c = true → try_send m c = (Some Closed, c);
  try_send_full : ∀ M (m : M) c, chan_closed c = false →
    (chan_bound c ≤ length (chan_queue c))%nat → try_send m c = (Some Full, c);
  try_send_ok : ∀ M (m : M) c, chan_closed c = false →
    (length (chan_queue c) < chan_bound c)%nat →
    (try_send m c).1 = None ∧
    chan_view (try_send m c).2 = (chan_queue c ++ [m], chan_bound c, false) }.

Lemma channel_empty `{ChannelsLaws} {M} n : chan_queue (channel (M := M) n) = [].
Proof. pose proof (channel_view M n) as Hv. unfold chan_view in Hv. by injection Hv. Qed.

(** ** [histogram::Histogram] *)

Class Histograms := {
  Histogram : Type;
  histogram_default : Histogram;
  histogram_increment : Z → Histogram → Histogram;
  histogram_minimum : Histogram → option Z;
  histogram_maximum : Histogram → option Z;
  (** the argument is the percentage *)
  histogram_percentile : Z → Histogram → option Z }.

(** ** [chrono]: a [NaiveDateTime] is its number of nanoseconds since the epoch *)

Definition NaiveDateTime := Z.
Definition nanos_per_sec : Z := 1000000000.
(** [naive.and_utc().timestamp()]: whole seconds, rounded towards the past *)
Definition timestamp (t : NaiveDateTime) : Z := t / nanos_per_sec.

Class Chrono := {
  (** [DateTime::from_timestamp(secs, 0)] *)
  from_timestamp : Z → option NaiveDateTime;
  (** [Utc::now().add(duration)], [None] for its panic on overflow *)
  datetime_add : NaiveDateTime → Z → option NaiveDateTime;
  (** [Duration::from_std], seconds to nanoseconds *)
  duration_from_std : Z → option Z }.
Class ChronoLaws `{Chrono} : Prop := {
  from_timestamp_spec : ∀ s t, from_timestamp s = Some t → t = s * nanos_per_sec;
  datetime_add_spec : ∀ t d u, datetime_add t d = Some u → u = t + d;
  (** a representable instant is still representable rounded to its second *)
  from_timestamp_timestamp : ∀ t d u,
    datetime_add t d = Some u → from_timestamp (timestamp u) = Some (timestamp u * nanos_per_sec) }.

(** ** Generated from the protocol definitions: [Role::Validator as i32], [Role::Relayer as i32] *)

Class ProtoRoles := { role_validator : Z; role_relayer : Z }.

(** ** [prost_types::Timestamp] and its conversion to a [SystemTime] (nanoseconds since
    the epoch) *)

Record Timestamp := { seconds : Z; nanos : Z }.
Class ProstTime := { systemtime_try_from : Timestamp → option Z }.

(** ** [ed25519_dalek] *)

Class Ed25519 := {
  PublicKey : Type;
  Signature : Type;
  publickey_from_bytes : list Byte.byte → option PublicKey;
  publickey_to_bytes : PublicKey → list Byte.byte;
  signature_from_bytes : list Byte.byte → option Signature;
  ed25519_verify : PublicKey → list Byte.byte → Signature → bool }.

(** [solana_sdk::signature::Keypair]: the key it signs for, and a signature *)
Class Keypairs `{Sdk} := {
  Keypair : Type;
  keypair_pubkey : Keypair → Pubkey;
  sign_message : Keypair → list Byte.byte → list Byte.byte }.
(** A signature has the size the SDK states, parses, and verifies under the key. *)
Class KeypairsLaws `{Keypairs} `{Ed25519} : Prop := {
  keypair_publickey : ∀ kp, ∃ pk, publickey_from_bytes (pubkey_to_bytes (keypair_pubkey kp)) = Some pk ∧
    publickey_to_bytes pk = pubkey_to_bytes (keypair_pubkey kp) ∧
    ∀ m, ∃ sig, signature_from_bytes (sign_message kp m) = Some sig ∧ ed25519_verify pk m sig = true;
  sign_message_length : ∀ kp m,
    length (sign_message kp m) = SIGNATURE_BYTES ∧ length (sign_message kp m) = 64%nat }.

(** ** [jwt], for claims of type [C] *)

Inductive AlgorithmType := Hs256 | Hs384 | Hs512 | Rs256 | Rs384 | Rs512
  | Es256 | Es384 | Es512 | Ps256 | Ps384 | Ps512 | NoAlg.
#[global] Instance AlgorithmType_eq_dec : EqDecision AlgorithmType.
Proof. solve_decision. Defined.

Class Jwt (C : Type) := {
  SigningKey : Type;
  VerifyingKey : Type;
  (** [Token::new(Header { algorithm, .. }, claims).sign_with_key(key)] *)
  sign_with_key : SigningKey → AlgorithmType → C → option string;
  (** [token.verify_with_key(key)]: the header's algorithm and the claims *)
  verify_with_key : VerifyingKey → string → option (AlgorithmType * C) }.
(** The two keys are the halves of one key pair.  A token is written in the compact
    serialization, whose alphabet has no space. *)
Class JwtKeyPair {C} `{Jwt C} (sk : SigningKey) (vk : VerifyingKey) : Prop := {
  jwt_sign_verify : ∀ alg c t,
    sign_with_key sk alg c = Some t → verify_with_key vk t = Some (alg, c);
  jwt_compact : ∀ alg c t,
    sign_with_key sk alg c = Some t → " "%char ∉ String.list_ascii_of_string t }.

(** ** [keyed_priority_queue::KeyedPriorityQueue<K, P>], [P: Ord] by [cmp] *)

Class KeyedPriorityQueue (K P : Type) `{Countable K} (cmp : P → P → comparison) := {
  kpq : Type;
  kpq_default : kpq;
  kpq_push : K → P → kpq → kpq;
  kpq_peek : kpq → option (K * P);
  kpq_pop : kpq → kpq;
  kpq_len : kpq → nat;
  kpq_get_priority : K → kpq → option P;
  kpq_remove : K → kpq → kpq;
  (** what the laws speak of: the key-to-priority map the queue holds *)
  kpq_view : kpq → gmap K P }.
Class KeyedPriorityQueueLaws {K P : Type} `{KeyedPriorityQueue K P cmp} : Prop := {
  kpq_default_view : kpq_view kpq_default = ∅;
  kpq_push_view : ∀ k p q, kpq_view (kpq_push k p q) = <[k := p]> (kpq_view q);
  kpq_remove_view : ∀ k q, kpq_view (kpq_remove k q) = delete k (kpq_view q);
  kpq_get_priority_view : ∀ k q, kpq_get_priority k q = kpq_view q !! k;
  kpq_len_view : ∀ q, kpq_len q = size (kpq_view q);
  kpq_peek_none : ∀ q, kpq_peek q = None ↔ kpq_view q = ∅;
  (** the front is an entry no other entry is greater than *)
  kpq_peek_some : ∀ q k p, kpq_peek q = Some (k, p) →
    kpq_view q !! k = Some p ∧
    ∀ k' p', kpq_view q !! k' = Some p' → cmp p' p ≠ Gt;
  kpq_pop_view : ∀ q k p, kpq_peek q = Some (k, p) →
    kpq_view (kpq_pop q) = delete k (kpq_view q) }.

(** ** [cached::TimedCache<K, u8>]: a set whose members expire *)

Class TimedCaches (K : Type) := {
  TimedCache : Type;
  (** [TimedCache::with_lifespan_and_capacity(secs, cap)] *)
  with_lifespan_and_capacity : Z → Z → TimedCache;
  cache_set : Z → K → TimedCache → TimedCache;
  cache_get : Z → K → TimedCache → bool * TimedCache;
  cache_flush : Z → TimedCache → TimedCache;
  cache_size : TimedCache → nat;
  (** what the laws speak of: the lifespan in seconds, and whether a key is held
      and unexpired at an instant (instants are in nanoseconds) *)
  cache_lifespan : TimedCache → Z;
  cache_live : TimedCache → Z → K → bool }.
Class TimedCachesLaws (K : Type) `{EqDecision K} `{TimedCaches K} : Prop := {
  cache_new_live : ∀ secs cap now k,
    cache_live (with_lifespan_and_capacity secs cap) now k = false;
  cache_live_expires : ∀ now now' k c, now <= now' →
    cache_live c now' k = true → cache_live c now k = true;
  cache_get_live : ∀ now k c, (cache_get now k c).1 = cache_live c now k;
  cache_get_keeps : ∀ now k c now' k', now <= now' →
    cache_live (cache_get now k c).2 now' k' = cache_live c now' k';
  cache_get_lifespan : ∀ now k c, cache_lifespan (cache_get now k c).2 = cache_lifespan c;
  cache_set_live : ∀ now k c now', now <= now' →
    cache_live (cache_set now k c) now' k
      = ((now' - now) / nanos_per_sec <? cache_lifespan c);
  cache_set_lifespan : ∀ now k c, cache_lifespan (cache_set now k c) = cache_lifespan c;
  cache_set_other : ∀ now k c now' k', k ≠ k' →
    cache_live (cache_set now k c) now' k' = cache_live c now' k';
  cache_flush_keeps : ∀ now c now' k', now <= now' →
    cache_live (cache_flush now c) now' k' = cache_live c now' k' }.

(** ** The machine: [std::net::UdpSocket], [solana_net_utils], the key files *)

Class NetUtils := {
  UdpSocket : Type;
  (** [s.local_addr().unwrap().port()], [None] for the panic *)
  local_port : UdpSocket → option Z;
  (** the sockets of the machine, as far as binding goes *)
  Host : Type;
  multi_bind_in_range : IpAddr → Z * Z → nat → Host → option (Z * list UdpSocket) * Host;
  (** what the laws speak of: whether a UDP port can be bound *)
  bindable : Host → Z → bool;
  SocketAddr : Type;
  parse_host_port : string → option SocketAddr;
  get_public_ip_addr : SocketAddr → option IpAddr }.
Class NetUtilsLaws `{NetUtils} : Prop := {
  multi_bind_ok : ∀ ip lo hi n h port socks h',
    0 < lo → multi_bind_in_range ip (lo, hi) n h = (Some (port, socks), h') →
    lo <= port < hi ∧ length socks = n ∧ Forall (λ s, local_port s = Some port) socks;
  (** port zero asks the system for a port of its choice *)
  multi_bind_zero : ∀ ip hi n h port socks h',
    multi_bind_in_range ip (0, hi) n h = (Some (port, socks), h') → port ≠ 0;
  (** a range of one port gives one socket when that port can be bound, and leaves the
      others as they are *)
  multi_bind_one : ∀ ip port h, 0 < port →
    is_Some (multi_bind_in_range ip (port, port + 1) 1 h).1 ↔ bindable h port = true;
  multi_bind_others : ∀ ip port h other, 0 < port → other ≠ port →
    bindable (multi_bind_in_range ip (port, port + 1) 1 h).2 other = bindable h other }.

(** The key files, by path: [read_keypair_file], and [fs::read] with [PKey::*_from_pem] *)
Class KeyFiles (K SK VK : Type) := {
  read_keypair_file : string → option K;
  fs_read : string → option (list Byte.byte);
  private_key_from_pem : list Byte.byte → option SK;
  public_key_from_pem : list Byte.byte → option VK }.

(** ** [axum::Router] *)

(** An answer: its status code and its body. *)
Record HttpAnswer (Body : Type) := { http_status : Z; http_body : Body }.
Arguments Build_HttpAnswer {Body}.
Arguments http_status {Body}.
Arguments http_body {Body}.

(** A router with [get] routes, whose bodies are what the handlers would answer, under layers
    that may refuse a request with an error, and a [HandleErrorLayer] for these. *)
Class Axum := {
  HttpRequest : Type;
  (** a request for a path, by [GET] *)
  http_get : string → HttpRequest;
  router_call : ∀ {Body}, list (string * Body) → (string → HttpAnswer Body) → option string →
    HttpRequest → option (HttpAnswer Body) }.
(** A route answers its path with status 200, unless a layer refuses. *)
Class AxumLaws `{Axum} : Prop := {
  router_get : ∀ Body (routes : list (string * Body)) handle_error path body,
    NoDup routes.*1 → (path, body) ∈ routes →
    router_call routes handle_error None (http_get path) = Some {| http_status := 200; http_body := body |};
  router_refused : ∀ Body (routes : list (string * Body)) handle_error err req,
    router_call routes handle_error (Some err) req = Some (handle_error err) }.

(** [hostname::get()] as UTF-8 text, and the [staked_map_id] of the [StakedNodesOverrides] that
    [serde_yaml::from_reader] reads. *)
Class HostFiles `{Sdk} := {
  hostname_get : option string;
  staked_map_id_from_reader : list Byte.byte → option (gmap Pubkey Z) }.

(** Key pairs in a directory: [path.is_dir()], [fs::read_dir] with the path of each entry that
    can be read, and [Keypair::from_bytes] *)
Class KeyDirs (K : Type) := {
  is_dir : string → bool;
  read_dir : string → option (list (option string));
  keypair_from_bytes : list Byte.byte → option K }.

(** ** [system_transaction::transfer] and [bincode::serialize] *)

Class Transfers `{Keypairs} := {
  Hash : Type;
  Transaction : Type;
  transfer : Keypair → Pubkey → Z → Hash → Transaction;
  serialize : Transaction → option (list Byte.byte) }.
(** A transfer serializes, and its amount, a [u64], can be read back. *)
Class TransfersLaws `{Transfers} : Prop := {
  transfer_serializes : ∀ kp to lamports h, is_Some (serialize (transfer kp to lamports h));
  transfer_lamports : ∀ kp to l1 h1 l2 h2, is_u64 l1 → is_u64 l2 →
    serialize (transfer kp to l1 h1) = serialize (transfer kp to l2 h2) → l1 = l2 }.
