(* ===== verification/Instances.v ===== *)
(** * Concrete instances of the third-party interfaces

    Small executable implementations of the classes of [External.v], with proofs
    of their laws.  They show that the laws are satisfiable, and the witnesses
    of the theorems evaluate the components on them. *)

From Stdlib Require Export Ascii.
From S2P Require Import Prelude External.
Local Open Scope Z_scope.

(** ** Iteration in the order of the underlying trees *)

#[global] Instance map_order K `{Countable K} : HashOrder K := {
  map_iter _ m := map_to_list m;
  set_iter s := elements s }.
#[global] Instance map_order_laws K `{Countable K} : HashOrderLaws K.
Proof. by split. Qed.

(** ** Text of countable values: the bits of their code *)

Fixpoint bits_text (p : positive) : string :=
  match p with
  | xH => EmptyString
  | xO p' => String "0"%char (bits_text p')
  | xI p' => String "1"%char (bits_text p')
  end.
Fixpoint text_bits (s : string) : positive :=
  match s with
  | EmptyString => xH
  | String c s' => if Ascii.eqb c "1"%char then xI (text_bits s') else xO (text_bits s')
  end.
Lemma text_bits_text p : text_bits (bits_text p) = p.
Proof. induction p as [p IH|p IH|]; simpl; by rewrite ?IH. Qed.

Lemma bits_text_no_space p : " "%char ∉ String.list_ascii_of_string (bits_text p).
Proof.
  induction p as [p IH|p IH|]; simpl; [| |apply not_elem_of_nil];
    by intros [?|?]%elem_of_cons.
Qed.

Definition countable_text {A} `{Countable A} (a : A) : string := bits_text (encode a).
Definition text_countable {A} `{Countable A} (s : string) : option A := decode (text_bits s).
Lemma countable_text_roundtrip {A} `{Countable A} (a : A) :
  text_countable (countable_text a) = Some a.
Proof. unfold text_countable, countable_text. by rewrite text_bits_text, decode_encode. Qed.

#[global] Instance toy_ip_text : IpText := {
  ip_to_string := countable_text;
  ip_from_str := text_countable }.
#[global] Instance toy_ip_text_laws : IpTextLaws.
Proof. split. apply countable_text_roundtrip. Qed.

(** ** A toy [solana_sdk]: a key is one character, padded to 32 bytes; its text is
    that character after the prefix [K] *)

Record ToyTx := {
  toy_keys : list (ascii * bool);
  toy_lookups : option (list (MessageAddressTableLookup ascii)) }.
Record ToyPacket := {
  toy_meta : Meta;
  toy_data : list Byte.byte;
  toy_tx : option ToyTx }.

Definition toy_from_str (s : string) : option ascii :=
  match s with
  | String "K"%char (String c EmptyString) => Some c
  | _ => None
  end.
Definition toy_try_from (bs : list Byte.byte) : option ascii :=
  match bs with
  | b :: bs' => if decide (length bs' = 31%nat) then Some (ascii_of_byte b) else None
  | [] => None
  end.
Definition bit (i : Z) (m : Meta) : bool := Z.land (meta_flags m) i =? i.

#[global] Instance toy_sdk : Sdk := {
  Pubkey := ascii;
  PUBKEY_BYTES := 32;
  SIGNATURE_BYTES := 64;
  pubkey_try_from := toy_try_from;
  pubkey_to_bytes c := byte_of_ascii c :: replicate 31 Byte.x00;
  pubkey_from_str := toy_from_str;
  pubkey_to_string c := String "K"%char (String c EmptyString);
  VersionedTransaction := ToyTx;
  static_account_keys tx := (toy_keys tx).*1;
  is_maybe_writable tx i := default false (snd <$> toy_keys tx !! i);
  address_table_lookups := toy_lookups;
  Packet := ToyPacket;
  packet_meta := toy_meta;
  packet_set_flags fl p :=
    {| toy_meta := {| meta_size := meta_size (toy_meta p); meta_addr := meta_addr (toy_meta p);
                      meta_port := meta_port (toy_meta p); meta_flags := fl |};
       toy_data := toy_data p; toy_tx := toy_tx p |};
  packet_data p := if bit 1 (toy_meta p) then None else Some (toy_data p);
  deserialize_slice := toy_tx;
  FORWARDED := 2;
  discard := bit 1;
  forwarded := bit 2;
  repair := bit 4;
  is_simple_vote_tx := bit 8;
  is_tracer_packet := bit 16;
  is_from_staked_node := bit 32 }.
#[global] Instance toy_sdk_laws : SdkLaws.
Proof.
  split; simpl; try done.
  - intros c. by rewrite ascii_of_byte_of_ascii.
  - intros [|b bs]; simpl; [by split; [intros []|]|].
    case_decide as Hl; (split; [intros [? ?]|intros [= ?]]); try done; by rewrite Hl.
  - intros p. unfold bit. cbn. rewrite Z.land_lor_distr_l. cbn. by rewrite Z.lor_0_r.
Qed.

(** Bytes that begin with zero carry no valid signature; such packets are discarded. *)
Definition toy_valid (bytes : list Byte.byte) : bool :=
  match bytes with Byte.x00 :: _ => false | _ => true end.
#[global] Instance toy_sigverifier : SigVerifier := {
  verify_batches := map (map (λ p : ToyPacket,
    if toy_valid (toy_data p) then p
    else packet_set_flags (Z.lor (meta_flags (toy_meta p)) 1) p));
  signatures_valid := toy_valid }.
#[global] Instance toy_sigverifier_laws : SigVerifierLaws.
Proof.
  intros batches b' p' (b & -> & Hb)%list_elem_of_fmap (p & -> & Hp)%list_elem_of_fmap Hd.
  exists b, p. cbn in *. destruct (toy_valid (toy_data p)) eqn:Hv.
  - split_and!; [done..|]. intros bytes. destruct (bit 1 (toy_meta p)); [done|]. by intros [= <-].
  - exfalso. unfold bit in Hd. cbn in Hd. rewrite Z.land_lor_distr_l in Hd.
    apply Z.eqb_neq in Hd. apply Hd, Z.bits_inj'. intros i Hi.
    rewrite Z.land_diag, Z.lor_spec, Z.land_spec.
    by destruct (Z.testbit (meta_flags (toy_meta p)) i), (Z.testbit 1 i).
Qed.

(** A packet with the given flags that parses as [tx]. *)
Definition toy_packet (flags : Z) (tx : option ToyTx) : ToyPacket :=
  {| toy_meta := {| meta_size := 4; meta_addr := IpV4 1 2 3 4; meta_port := 1000;
                    meta_flags := flags |};
     toy_data := [Byte.x01]; toy_tx := tx |}.
(** A transaction over the keys of [text], all of them writable. *)
Definition toy_transaction (text : string) : ToyTx :=
  {| toy_keys := map (λ c, (c, true)) (String.list_ascii_of_string text); toy_lookups := None |}.

(** ** Channels as bounded queues *)

Record ToyChan (M : Type) := { tc_queue : list M; tc_bound : nat; tc_closed : bool }.
Arguments tc_queue {M}.
Arguments tc_bound {M}.
Arguments tc_closed {M}.
Arguments Build_ToyChan {M}.

#[global] Instance toy_channels : Channels := {
  chan := ToyChan;
  channel M n := Build_ToyChan [] n false;
  try_send M m c :=
    if tc_closed c then (Some Closed, c)
    else if decide (tc_bound c ≤ length (tc_queue c))%nat then (Some Full, c)
    else (None, Build_ToyChan (tc_queue c ++ [m]) (tc_bound c) false);
  drop_receiver M c := Build_ToyChan (tc_queue c) (tc_bound c) true;
  capacity M c := (tc_bound c - length (tc_queue c))%nat;
  chan_queue M := tc_queue;
  chan_bound M := tc_bound;
  chan_closed M := tc_closed }.
#[global] Instance toy_channels_laws : ChannelsLaws.
Proof.
  split; try done; intros M m c; simpl.
  - by intros ->.
  - intros ->. by case_decide.
  - intros -> ?. case_decide; [lia|done].
Qed.

(** ** Histograms that keep their increments *)

#[global] Instance toy_histograms : Histograms := {
  Histogram := list Z;
  histogram_default := [];
  histogram_increment := cons;
  histogram_minimum h := match h with [] => None | z :: h' => Some (foldr Z.min z h') end;
  histogram_maximum h := match h with [] => None | z :: h' => Some (foldr Z.max z h') end;
  histogram_percentile _ h := head h }.

(** ** Keyed priority queues as maps *)

Section map_kpq.
Context {K P : Type} `{Countable K}.
Variable cmp : P → P → comparison.

Definition kpq_max (l : list (K * P)) : option (K * P) :=
  foldr (λ kp best,
    match best with
    | None => Some kp
    | Some kp' => match cmp kp.2 kp'.2 with Gt => Some kp | _ => Some kp' end
    end) None l.

#[global] Instance map_kpq : KeyedPriorityQueue K P cmp := {
  kpq := gmap K P;
  kpq_default := ∅;
  kpq_push k p q := <[k := p]> q;
  kpq_peek q := kpq_max (map_to_list q);
  kpq_pop q := match kpq_max (map_to_list q) with
               | Some (k, _) => delete k q
               | None => q
               end;
  kpq_len q := size q;
  kpq_get_priority k q := q !! k;
  kpq_remove k q := delete k q;
  kpq_view q := q }.

Hypothesis cmp_antisym : ∀ p q, cmp p q = CompOpp (cmp q p).
Hypothesis cmp_trans : ∀ p q r, cmp p q ≠ Gt → cmp q r ≠ Gt → cmp p r ≠ Gt.

Lemma kpq_max_spec l :
  match kpq_max l with
  | None => l = []
  | Some (k, p) => (k, p) ∈ l ∧ ∀ k' p', (k', p') ∈ l → cmp p' p ≠ Gt
  end.
Proof.
  assert (Hrefl : ∀ p, cmp p p ≠ Gt).
  { intros p Hp. pose proof (cmp_antisym p p) as Ha. by rewrite Hp in Ha. }
  induction l as [|[k p] l IH]; simpl; [done|].
  destruct (kpq_max l) as [[k1 p1]|] eqn:E.
  - destruct IH as [Hin Hmax]. simpl.
    destruct (cmp p p1) eqn:Hc; simpl; (split; [set_solver|]);
      intros k' p' [[= -> ->]|Hin']%elem_of_cons; try done; eauto; try congruence.
    apply cmp_trans with p1; eauto.
    rewrite cmp_antisym, Hc. done.
  - subst l. simpl. split; [set_solver|].
    intros k' p' [[= -> ->]|[]%not_elem_of_nil]%elem_of_cons. done.
Qed.

Lemma map_kpq_laws : KeyedPriorityQueueLaws (K := K) (P := P).
Proof.
  split; simpl; try done.
  - intros q. pose proof (kpq_max_spec (map_to_list q)) as Hs. split.
    + intros E. rewrite E in Hs. by apply map_to_list_empty_iff.
    + intros ->. by rewrite map_to_list_empty.
  - intros q k p E. pose proof (kpq_max_spec (map_to_list q)) as Hs.
    rewrite E in Hs. destruct Hs as [Hin Hmax]. split.
    + by apply elem_of_map_to_list.
    + intros k' p' Hl. apply (Hmax k'). by apply elem_of_map_to_list.
  - intros q k p E. by rewrite E.
Qed.
End map_kpq.

(** ** Timed caches: the last insertion of each key *)

Section map_timed_cache.
Context (K : Type) `{Countable K}.

Record ToyTimedCache := { ttc_secs : Z; ttc_store : gmap K Z }.

Definition ttc_live (c : ToyTimedCache) (now : Z) (k : K) : bool :=
  match ttc_store c !! k with
  | Some t => (now - t) / nanos_per_sec <? ttc_secs c
  | None => false
  end.

#[global] Instance map_timed_cache : TimedCaches K := {
  TimedCache := ToyTimedCache;
  with_lifespan_and_capacity secs _ := {| ttc_secs := secs; ttc_store := ∅ |};
  cache_set now k c := {| ttc_secs := ttc_secs c; ttc_store := <[k := now]> (ttc_store c) |};
  cache_get now k c := (ttc_live c now k, c);
  cache_flush now c := c;
  cache_size c := size (ttc_store c);
  cache_lifespan := ttc_secs;
  cache_live := ttc_live }.
#[global] Instance map_timed_cache_laws : TimedCachesLaws K.
Proof.
  split; unfold ttc_live; simpl; try done.
  - intros now now' k c Hle. unfold ttc_live. destruct (ttc_store c !! k); [|done].
    rewrite !Z.ltb_lt. intros Hl. eapply Z.le_lt_trans; [|exact Hl].
    apply Z.div_le_mono; [done|lia].
  - intros. unfold ttc_live. simpl. by rewrite lookup_insert_eq.
  - intros. unfold ttc_live. simpl. by rewrite lookup_insert_ne.
Qed.
End map_timed_cache.

(** ** Dates without bounds *)

#[global] Instance toy_chrono : Chrono := {
  from_timestamp s := Some (s * nanos_per_sec);
  datetime_add t d := Some (t + d);
  duration_from_std s := Some (s * nanos_per_sec) }.
#[global] Instance toy_chrono_laws : ChronoLaws.
Proof. split; simpl; naive_solver. Qed.

(** ** Signatures that are the key followed by the start of the message *)

#[global] Instance byte_eq_decision : EqDecision Byte.byte := Stdlib.Strings.Byte.byte_eq_dec.

Definition toy_sign (pk msg : list Byte.byte) : list Byte.byte :=
  pk ++ take 32 (msg ++ replicate 32 Byte.x00).

#[global] Instance toy_ed25519 : Ed25519 := {
  PublicKey := list Byte.byte;
  Signature := list Byte.byte;
  publickey_from_bytes bs := if (length bs =? 32)%nat then Some bs else None;
  publickey_to_bytes bs := bs;
  signature_from_bytes := Some;
  ed25519_verify pk msg sig := bool_decide (sig = toy_sign pk msg) }.

#[global] Instance toy_keypairs : Keypairs := {
  Keypair := ascii;
  keypair_pubkey c := c;
  sign_message c m := toy_sign (byte_of_ascii c :: replicate 31 Byte.x00) m }.
#[global] Instance toy_keypairs_laws : KeypairsLaws.
Proof.
  split.
  - intros c. eexists. split; [done|]. split; [done|]. intros m. eexists. split; [done|].
    cbn [ed25519_verify toy_ed25519]. by apply bool_decide_eq_true.
  - intros c m. cbn [sign_message toy_keypairs SIGNATURE_BYTES toy_sdk].
    enough (length (toy_sign (byte_of_ascii c :: replicate 31 Byte.x00) m) = 64%nat) by done.
    unfold toy_sign. rewrite length_app, length_take, length_app, !length_replicate. cbn [length].
    rewrite length_replicate. lia.
Qed.

(** ** Tokens that are the key followed by the text of the header and claims *)

#[global] Instance AlgorithmType_countable : Countable AlgorithmType.
Proof.
  refine (inj_countable'
    (λ a, match a with
          | Hs256 => 0 | Hs384 => 1 | Hs512 => 2 | Rs256 => 3 | Rs384 => 4 | Rs512 => 5
          | Es256 => 6 | Es384 => 7 | Es512 => 8 | Ps256 => 9 | Ps384 => 10 | Ps512 => 11
          | NoAlg => 12
          end%nat)
    (λ n, match n with
          | 0 => Hs256 | 1 => Hs384 | 2 => Hs512 | 3 => Rs256 | 4 => Rs384 | 5 => Rs512
          | 6 => Es256 | 7 => Es384 | 8 => Es512 | 9 => Ps256 | 10 => Ps384 | 11 => Ps512
          | _ => NoAlg
          end%nat) _).
  by intros [].
Defined.

Section toy_jwt.
Context (C : Type) `{Countable C}.

#[global] Instance toy_jwt : Jwt C := {
  SigningKey := ascii;
  VerifyingKey := ascii;
  sign_with_key k alg c := Some (String k (countable_text (alg, c)));
  verify_with_key k t :=
    match t with
    | String k' t' => if Ascii.eqb k k' then text_countable t' else None
    | EmptyString => None
    end }.
#[global] Instance toy_key_pair :
  JwtKeyPair ("k"%char : SigningKey) ("k"%char : VerifyingKey).
Proof.
  split; intros alg c t [= <-]; simpl.
  - by rewrite countable_text_roundtrip.
  - intros [?|Hin]%elem_of_cons; [done|]. by eapply bits_text_no_space.
Qed.
End toy_jwt.

#[global] Instance toy_roles : ProtoRoles := { role_validator := 1; role_relayer := 0 }.
#[global] Instance toy_prost : ProstTime := {
  systemtime_try_from t := Some (seconds t * nanos_per_sec + nanos t) }.

(** ** A machine on which the ports below [1024] and those already bound are taken *)

#[global] Instance toy_net : NetUtils := {
  UdpSocket := Z;
  local_port := Some;
  Host := gset Z;
  multi_bind_in_range _ '(lo, hi) n bound :=
    let '(lo, hi) := if lo =? 0 then (32768, 61000) else (lo, hi) in
    match List.filter (λ p, (1024 <=? p) && bool_decide (p ∉ bound)) (z_range lo hi) with
    | p :: _ => (Some (p, replicate n p), {[p]} ∪ bound)
    | [] => (None, bound)
    end;
  bindable bound p := (1024 <=? p) && bool_decide (p ∉ bound);
  SocketAddr := string;
  parse_host_port := Some;
  get_public_ip_addr _ := Some (IpV4 8 8 8 8) }.

#[global] Instance toy_net_laws : NetUtilsLaws.
Proof.
  assert (Hone : ∀ p, z_range p (p + 1) = [p]).
  { intros p. unfold z_range. replace (Z.to_nat (p + 1 - p)) with 1%nat by lia. cbn.
    f_equal. lia. }
  split; cbn -[z_range].
  - intros ip lo hi n bound port socks h' Hlo. rewrite (proj2 (Z.eqb_neq lo 0)) by lia.
    destruct (List.filter _ _) as [|p l] eqn:E; intros [= <- <- <-].
    assert (Hp : In p (p :: l)) by by left. rewrite <-E, filter_In in Hp.
    destruct Hp as [Hp _]. apply list_elem_of_In, elem_of_z_range in Hp.
    split_and!; [lia..|apply length_replicate|]. apply Forall_replicate. done.
  - intros ip hi n bound port socks h'. destruct (List.filter _ _) as [|p l] eqn:E; intros [= <- <- <-].
    assert (Hp : In p (p :: l)) by by left. rewrite <-E, filter_In in Hp.
    destruct Hp as [Hp _]. apply list_elem_of_In, elem_of_z_range in Hp. lia.
  - intros ip p bound Hp. rewrite (proj2 (Z.eqb_neq p 0)) by lia. rewrite Hone. cbn. destruct (_ && _); cbn; [naive_solver|].
    split; [intros []|]; done.
  - intros ip p bound other Hp Hne. rewrite (proj2 (Z.eqb_neq p 0)) by lia. rewrite Hone. cbn.
    destruct ((1024 <=? p) && _); cbn; [|done]. f_equal. apply bool_decide_ext. set_solver.
Qed.

#[global] Instance toy_files : KeyFiles Ascii.ascii Ascii.ascii Ascii.ascii := {
  read_keypair_file _ := Some "k"%char;
  fs_read path := Some (String.list_byte_of_string path);
  private_key_from_pem _ := Some "k"%char;
  public_key_from_pem _ := Some "k"%char }.

(** A router over requests by path; an unknown path has no answer here. *)
#[global] Instance toy_axum : Axum := {
  HttpRequest := string;
  http_get path := path;
  router_call Body routes handle_error err path :=
    match err with
    | Some err => Some (handle_error err)
    | None => Build_HttpAnswer 200 <$> (list_to_map routes : gmap string Body) !! path
    end }.
#[global] Instance toy_axum_laws : AxumLaws.
Proof.
  split; [|done]. intros Body routes handle_error path body Hnodup Hin. cbn.
  by rewrite (elem_of_list_to_map_1 _ _ _ Hnodup Hin).
Qed.

#[global] Instance toy_host_files : HostFiles := {
  hostname_get := Some "host"%string;
  staked_map_id_from_reader file := if file is [] then None else Some {["a"%char := 7]} }.

#[global] Instance toy_dirs : KeyDirs Ascii.ascii := {
  is_dir _ := false;
  read_dir _ := None;
  keypair_from_bytes bs := ascii_of_byte <$> head bs }.

(** ** Transfers written as the text of their four parts *)

Lemma list_byte_of_string_inj s1 s2 :
  String.list_byte_of_string s1 = String.list_byte_of_string s2 → s1 = s2.
Proof.
  intros Heq. rewrite <-(String.string_of_list_byte_of_string s1).
  by rewrite Heq, String.string_of_list_byte_of_string.
Qed.

#[global] Instance toy_transfers : Transfers := {
  Hash := Z;
  Transaction := Ascii.ascii * Ascii.ascii * Z * Z;
  transfer kp to lamports h := (kp, to, lamports, h);
  serialize tx := Some (String.list_byte_of_string (countable_text tx)) }.
#[global] Instance toy_transfers_laws : TransfersLaws.
Proof.
  split; [by eexists|]. intros kp to l1 h1 l2 h2 _ _ [= Heq%list_byte_of_string_inj].
  apply (f_equal (text_countable (A := ascii * ascii * Z * Z))) in Heq.
  rewrite !countable_text_roundtrip in Heq. by injection Heq.
Qed.
