(* ===== verification/Ofac.v ===== *)
(** * OFAC screening ([core/src/ofac.rs])

    [is_tx_ofac_related] and its two scans, and the abstract notion it decides:
    some account the transaction mentions, directly or through a cached lookup
    table, is on the list. *)

From S2P Require Import Prelude External Instances.
Local Open Scope Z_scope.

Section ofac.
Context `{Sdk}.
Implicit Types (tx : VersionedTransaction) (ofac_addresses : gset Pubkey)
  (address_lookup_table_cache : gmap Pubkey (AddressLookupTableAccount Pubkey)).

Definition is_ofac_address_in_static_keys tx ofac_addresses : bool :=
  existsb (λ acc, bool_decide (acc ∈ ofac_addresses)) (static_account_keys tx).

Definition is_ofac_address_in_lookup_table tx ofac_addresses
    address_lookup_table_cache : bool :=
  match address_table_lookups tx with
  | Some lookup_tables =>
      existsb (λ table,
        match address_lookup_table_cache !! account_key table with
        | Some lookup_info =>
            existsb (λ idx,
              match addresses lookup_info !! Z.to_nat idx with
              | Some account => bool_decide (account ∈ ofac_addresses)
              | None => false
              end) (writable_indexes table ++ readonly_indexes table)
        | None => false
        end) lookup_tables
  | None => false
  end.

Definition is_tx_ofac_related tx ofac_addresses address_lookup_table_cache : bool :=
  is_ofac_address_in_static_keys tx ofac_addresses
  || is_ofac_address_in_lookup_table tx ofac_addresses address_lookup_table_cache.

(** The accounts a transaction can touch, as far as the cache resolves them. *)
Definition mentions address_lookup_table_cache tx (acc : Pubkey) : Prop :=
  acc ∈ static_account_keys tx ∨
  ∃ lookup_tables table lookup_info idx,
    address_table_lookups tx = Some lookup_tables ∧
    table ∈ lookup_tables ∧
    address_lookup_table_cache !! account_key table = Some lookup_info ∧
    idx ∈ writable_indexes table ++ readonly_indexes table ∧
    addresses lookup_info !! Z.to_nat idx = Some acc.

Lemma static_keys_iff tx ofac_addresses :
  is_ofac_address_in_static_keys tx ofac_addresses = true ↔
  ∃ acc, acc ∈ static_account_keys tx ∧ acc ∈ ofac_addresses.
Proof.
  unfold is_ofac_address_in_static_keys. rewrite existsb_elem.
  by setoid_rewrite bool_decide_eq_true.
Qed.

Lemma lookup_table_iff tx ofac_addresses cache :
  is_ofac_address_in_lookup_table tx ofac_addresses cache = true ↔
  ∃ acc lookup_tables table lookup_info idx,
    address_table_lookups tx = Some lookup_tables ∧
    table ∈ lookup_tables ∧
    cache !! account_key table = Some lookup_info ∧
    idx ∈ writable_indexes table ++ readonly_indexes table ∧
    addresses lookup_info !! Z.to_nat idx = Some acc ∧
    acc ∈ ofac_addresses.
Proof.
  unfold is_ofac_address_in_lookup_table. split.
  - destruct (address_table_lookups tx) as [tables|]; [|done].
    intros (table & Hin & Hm)%existsb_elem.
    destruct (cache !! account_key table) as [info|] eqn:Hc; [|done].
    apply existsb_elem in Hm as (idx & Hidx & Ha).
    destruct (addresses info !! Z.to_nat idx) as [acc|] eqn:Hacc; [|done].
    apply bool_decide_eq_true in Ha. naive_solver.
  - intros (acc & tables & table & info & idx & -> & Hin & Hc & Hidx & Hacc & Ho).
    apply existsb_elem. exists table. split; [done|]. rewrite Hc.
    apply existsb_elem. exists idx. split; [done|]. rewrite Hacc.
    by apply bool_decide_eq_true.
Qed.

(** C22: the filter decides exactly whether some sanctioned address is mentioned
    by the transaction, in a static key or at an index it uses of a cached
    lookup table; an address that is in a table but not used does not count. *)
Theorem is_tx_ofac_related_iff tx ofac_addresses cache :
  is_tx_ofac_related tx ofac_addresses cache = true ↔
  ∃ acc, mentions cache tx acc ∧ acc ∈ ofac_addresses.
Proof.
  unfold is_tx_ofac_related, mentions.
  rewrite orb_true_iff, static_keys_iff, lookup_table_iff. naive_solver.
Qed.

Lemma unrelated_mentions tx ofac_addresses cache acc :
  is_tx_ofac_related tx ofac_addresses cache = false →
  mentions cache tx acc → acc ∉ ofac_addresses.
Proof.
  intros Hrel Hm Hin. apply not_true_iff_false in Hrel as []. unfold is_tx_ofac_related.
  rewrite orb_true_iff, static_keys_iff, lookup_table_iff.
  destruct Hm; naive_solver.
Qed.

Lemma mentions_cache_mono cache cache' tx acc :
  cache ⊆ cache' → mentions cache tx acc → mentions cache' tx acc.
Proof.
  intros Hsub [?|(tables & table & info & idx & ? & ? & Hc & ?)]; [by left|right].
  exists tables, table, info, idx. by rewrite (lookup_weaken _ _ _ _ Hc Hsub).
Qed.

Lemma ofac_related_mono tx ofac ofac' cache cache' :
  ofac ⊆ ofac' → cache ⊆ cache' →
  is_tx_ofac_related tx ofac cache = true → is_tx_ofac_related tx ofac' cache' = true.
Proof.
  unfold is_tx_ofac_related. rewrite !orb_true_iff, !static_keys_iff, !lookup_table_iff.
  intros Hofac Hcache [?|(acc & tables & table & info & idx & ? & ? & Hc & ?)].
  - left. set_solver.
  - right. exists acc, tables, table, info, idx.
    rewrite (lookup_weaken _ _ _ _ Hc Hcache). naive_solver.
Qed.

(** With an empty list no transaction is related: the [is_empty] shortcut of
    the callers only saves the scan. *)
Lemma ofac_related_empty tx cache : is_tx_ofac_related tx ∅ cache = false.
Proof.
  apply not_true_iff_false. unfold is_tx_ofac_related.
  rewrite orb_true_iff, static_keys_iff, lookup_table_iff. set_solver.
Qed.
End ofac.
