(* ===== verification/Packets.v ===== *)
(** * Packets on the wire and the forwarded-packet stage

    [jito-protos/src/convert.rs] ([packet_to_proto_packet]) and
    [core/src/fetch_stage.rs] ([handle_forwarded_packets] and the thread that
    calls it). *)

From S2P Require Import Prelude External Instances Ofac.
Local Open Scope Z_scope.

(** ** Conversion to protobuf *)

Record ProtoPacketFlags := {
  pf_discard : bool;
  pf_forwarded : bool;
  pf_repair : bool;
  pf_simple_vote_tx : bool;
  pf_tracer_packet : bool;
  pf_from_staked_node : bool }.
Record ProtoMeta := {
  pm_size : Z;
  pm_addr : string;
  pm_port : Z;
  pm_flags : option ProtoPacketFlags;
  pm_sender_stake : Z }.
Record ProtoPacket := {
  pp_data : list Byte.byte;
  pp_meta : option ProtoMeta }.
Record ProtoPacketBatch := { packets : list ProtoPacket }.

Definition packet_to_proto_packet `{Sdk} `{IpText} (p : Packet) : option ProtoPacket :=
  data ← packet_data p;
  let m := packet_meta p in
  Some {| pp_data := data;
          pp_meta := Some
            {| pm_size := meta_size m;
               pm_addr := ip_to_string (meta_addr m);
               pm_port := meta_port m;
               pm_flags := Some
                 {| pf_discard := discard m;
                    pf_forwarded := forwarded m;
                    pf_repair := repair m;
                    pf_simple_vote_tx := is_simple_vote_tx m;
                    pf_tracer_packet := is_tracer_packet m;
                    pf_from_staked_node := is_from_staked_node m |};
               pm_sender_stake := 0 |} |}.

(** ** What the stages pass to each other *)

(** [RelayerPacketBatches] ([relayer.rs]): the stamp is an [Instant]. *)
Record RelayerPacketBatches `{Sdk} := {
  stamp : Z;
  banking_packet_batch : BankingPacketBatch }.

(** [BlockEnginePackets] ([block_engine.rs]): the stamp is a [SystemTime]. *)
Record BlockEnginePackets `{Sdk} := {
  be_banking_packet_batch : BankingPacketBatch;
  be_stamp : Z;
  expiration : Z }.

(** [batch.0.iter().map(|b| b.len() as u64).sum::<u64>()] *)
Definition count_packets `{Sdk} (batch : BankingPacketBatch) : Z :=
  u64_sum (map (λ b, Z.of_nat (length b)) batch).

(** The packets that may leave: received in one of the batches, not discarded, and with a
    list in force, parsed as a transaction that mentions none of its addresses. *)
Definition may_forward `{Sdk} `{IpText} (ofac : gset Pubkey) (cache : gmap Pubkey (AddressLookupTableAccount Pubkey))
    (received : BankingPacketBatch) (p : ProtoPacket) : Prop :=
  ∃ batch packet, batch ∈ received ∧ packet ∈ batch ∧ discard (packet_meta packet) = false ∧
    packet_to_proto_packet packet = Some p ∧
    (ofac ≠ ∅ → ∃ tx, deserialize_slice packet = Some tx ∧
      ∀ acc, mentions cache tx acc → acc ∉ ofac).

(** ** The fetch stage *)

Section fetch_stage.
Context `{Sdk}.

Inductive FetchStageError :=
| Send (batch : PacketBatch)
| RecvTimeout
| Recv.

(** The two channels of the stage: the batches [try_recv] will find on the
    forwards channel, the batches handed to the TPU channel, and how many more
    sends succeed before its receiver is gone ([None]: it stays). *)
Record FetchChannels := {
  tpu_forwards : list PacketBatch;
  tpu_sent : list PacketBatch;
  tpu_accepts : option nat }.

Definition mark_forwarded (packet : Packet) : Packet :=
  packet_set_flags (Z.lor (meta_flags (packet_meta packet)) FORWARDED) packet.

(** The [while let Ok(..) = try_recv()] loop: the batches it takes, marked, and
    those it leaves on the channel. *)
Fixpoint collect_available (num_packets : nat) (available : list PacketBatch)
    : list PacketBatch * list PacketBatch :=
  match available with
  | [] => ([], [])
  | packet_batch :: available' =>
      let num_packets' := (num_packets + length packet_batch)%nat in
      let marked := map mark_forwarded packet_batch in
      if (1024 <? num_packets')%nat then ([marked], available')
      else
        let '(more, rest) := collect_available num_packets' available' in
        (marked :: more, rest)
  end.

(** [tpu_sender.send(packet_batch)] *)
Definition send_tpu (packet_batch : PacketBatch) : Prog FetchChannels FetchStageError unit :=
  λ st,
    match tpu_accepts st with
    | Some O => (Fail (Send packet_batch), st)
    | room => (Done tt, {st with tpu_sent ::= (λ l, l ++ [packet_batch]);
                                 tpu_accepts := pred <$> room})
    end.

(** [first] is what the blocking [recv()] returns, [None] for its error. *)
Definition handle_forwarded_packets (first : option PacketBatch)
    : Prog FetchChannels FetchStageError unit :=
  packet_batch ← ok_or Recv first;
  let num_packets := length packet_batch in
  available ← gets tpu_forwards;
  let '(more, rest) := collect_available num_packets available in
  modify (λ st, {st with tpu_forwards := rest}) ;;
  for_each send_tpu (map mark_forwarded packet_batch :: more).

(** The thread's state: the channels and the metrics of its loop. *)
Record FetchStage := {
  fs_channels : FetchChannels;
  fs_start : Z;
  tpu_forwards_receiver_max_len : Z;
  tpu_sender_max_len : Z }.

(** What one iteration reads: the blocking receive, the clock (nanoseconds), and
    the lengths of the two channels. *)
Record FetchInput := {
  fi_first : option PacketBatch;
  fi_now : Z;
  fi_forwards_len : Z;
  fi_sender_len : Z }.

Definition fetch_stage_iteration (i : FetchInput) : Prog FetchStage Empty_set unit :=
  λ st,
    let '(r, ch) := handle_forwarded_packets (fi_first i) (fs_channels st) in
    let st1 := {st with fs_channels := ch} in
    match r with
    | Fail Recv | Fail (Send _) => (Panicked "Failed to handle forwarded packets", st1)
    | Panicked w => (Panicked w, st1)
    | Done _ | Fail RecvTimeout =>
        let st2 :=
          if nanos_per_sec <=? fi_now i - fs_start st1 then
            {st1 with fs_start := fi_now i;
                      tpu_forwards_receiver_max_len := 0;
                      tpu_sender_max_len := 0}
          else st1 in
        (Done tt,
         {st2 with tpu_forwards_receiver_max_len ::= Z.max (fi_forwards_len i);
                   tpu_sender_max_len ::= Z.max (fi_sender_len i)})
    end.

Definition fetch_stage_thread := run_loop fetch_stage_iteration.
End fetch_stage.

(** ** Lemmas and properties *)

Lemma Z_land_lor_absorb f g : Z.land (Z.lor f g) g = g.
Proof. apply Z.bits_inj'. intros i Hi. rewrite Z.land_spec, Z.lor_spec. by destruct (Z.testbit f i), (Z.testbit g i). Qed.

Section fetch_stage_theorems.
Context `{SdkLaws}.

Lemma mark_forwarded_meta p :
  packet_meta (mark_forwarded p) =
    {| meta_size := meta_size (packet_meta p); meta_addr := meta_addr (packet_meta p);
       meta_port := meta_port (packet_meta p);
       meta_flags := Z.lor (meta_flags (packet_meta p)) FORWARDED |}.
Proof. unfold mark_forwarded. by rewrite packet_set_flags_meta. Qed.

Lemma mark_forwarded_forwarded p : forwarded (packet_meta (mark_forwarded p)) = true.
Proof.
  rewrite forwarded_spec, mark_forwarded_meta. cbn.
  rewrite Z_land_lor_absorb. apply Z.eqb_refl.
Qed.

Lemma for_each_send_tpu batches st :
  tpu_accepts st = None →
  for_each send_tpu batches st = (Done tt, {st with tpu_sent ::= (λ l, l ++ batches)}).
Proof.
  revert st; induction batches as [|b batches IH]; intros [fw sent room] Hroom;
    cbn in *; subst; unfold mbind, Prog_bind; cbn.
  - by rewrite app_nil_r.
  - rewrite IH by done. cbn. by rewrite <-app_assoc.
Qed.

(** The loop takes a prefix of what is available, and stops at the first batch
    that brings the count above 1024. *)
Lemma collect_available_spec n available more rest :
  collect_available n available = (more, rest) →
  ∃ taken, available = taken ++ rest ∧ more = map (map mark_forwarded) taken ∧
    (rest = [] ∨ (1024 < n + length (concat taken))%nat) ∧
    (∀ init lst, taken = init ++ [lst] → init ≠ [] →
      (n + length (concat init) ≤ 1024)%nat).
Proof.
  revert n more; induction available as [|b available IH]; intros n more; cbn [collect_available].
  { intros [= <- <-]. exists []. split_and!; try done; [by left|]. intros init lst Heq. by destruct init. }
  destruct (Nat.ltb_spec 1024 (n + length b)) as [Hgt|Hle].
  - intros [= <- <-]. exists [b]. split_and!; try done.
    + right. cbn. rewrite length_app. cbn. lia.
    + intros init lst Heq Hne. by destruct init as [|? [|??]].
  - destruct (collect_available (n + length b) available) as [more' rest'] eqn:E.
    intros [= <- <-]. destruct (IH _ _ E) as (taken & -> & -> & Hstop & Hbound).
    exists (b :: taken). split_and!; try done.
    + destruct Hstop as [?|?]; [by left|right]. cbn. rewrite length_app. lia.
    + intros [|b' init] lst Heq Hne; [done|]. injection Heq as -> Heq.
      cbn. rewrite length_app. destruct init as [|b2 init]; [cbn; lia|].
      specialize (Hbound (b2 :: init) lst Heq ltac:(done)). lia.
Qed.

(** C27: One call hands to the TPU channel, in arrival order and each marked, the
    batch it waited for and a prefix of those available; it leaves the others
    on the forwards channel, and stops early only once it holds more than 1024
    packets.  The count is checked after a batch is taken: without the last
    batch the extra ones stay within 1024, with it they need not. *)
Theorem handle_forwarded_packets_spec first st :
  tpu_accepts st = None →
  ∃ taken rest,
    tpu_forwards st = taken ++ rest ∧
    handle_forwarded_packets (Some first) st =
      (Done tt, {| tpu_forwards := rest;
                   tpu_sent := tpu_sent st ++ map (map mark_forwarded) (first :: taken);
                   tpu_accepts := None |}) ∧
    (rest = [] ∨ (1024 < length first + length (concat taken))%nat) ∧
    (∀ init lst, taken = init ++ [lst] → init ≠ [] →
      (length first + length (concat init) ≤ 1024)%nat).
Proof.
  intros Hacc. destruct (collect_available (length first) (tpu_forwards st))
    as [more rest] eqn:E.
  destruct (collect_available_spec _ _ _ _ E) as (taken & Hfw & -> & Hstop & Hbound).
  exists taken, rest. split_and!; try done.
  unfold handle_forwarded_packets. prog_unfold. cbn [fst snd]. rewrite E.
  rewrite for_each_send_tpu by done. destruct st; cbn in *. by rewrite Hacc.
Qed.

(** Nothing but the awaited batch and a prefix of those available goes on, marked. *)
Lemma handle_forwarded_packets_sends first st :
  tpu_accepts st = None →
  ∃ taken rest, tpu_forwards st = taken ++ rest ∧
    handle_forwarded_packets (Some first) st =
      (Done tt, {| tpu_forwards := rest;
                   tpu_sent := tpu_sent st ++ map (map mark_forwarded) (first :: taken);
                   tpu_accepts := None |}).
Proof.
  intros Hacc. destruct (collect_available (length first) (tpu_forwards st)) as [more rest] eqn:E.
  destruct (collect_available_spec _ _ _ _ E) as (taken & Hfw & -> & _).
  exists taken, rest. split; [done|]. unfold handle_forwarded_packets. prog_unfold. cbn [fst snd].
  rewrite E, for_each_send_tpu by done. destruct st; cbn in *. by rewrite Hacc.
Qed.

(** With both channels there, an iteration comes to its end. *)
Lemma fetch_stage_iteration_completes first i st :
  fi_first i = Some first → tpu_accepts (fs_channels st) = None →
  ∃ st', fetch_stage_iteration i st = (Done tt, st').
Proof.
  intros Hi Hacc. unfold fetch_stage_iteration, handle_forwarded_packets. rewrite Hi.
  prog_unfold. cbn [fst snd]. destruct (collect_available _ _) as [more rest].
  destruct st as [[fw sent room] ? ? ?]. cbn [fs_channels tpu_accepts] in *.
  rewrite for_each_send_tpu by done. eauto.
Qed.

(** Every packet the stage hands on carries the flag, whatever happens. *)
Definition all_forwarded (batches : list PacketBatch) : Prop :=
  ∀ b p, b ∈ batches → p ∈ b → forwarded (packet_meta p) = true.

Lemma all_forwarded_marked batches : all_forwarded (map (map mark_forwarded) batches).
Proof.
  intros b p (b' & -> & _)%list_elem_of_fmap (p' & -> & _)%list_elem_of_fmap.
  apply mark_forwarded_forwarded.
Qed.

Lemma for_each_send_tpu_sub batches st :
  ∃ l, l ⊆ batches ∧ tpu_sent (for_each send_tpu batches st).2 = tpu_sent st ++ l.
Proof.
  revert st; induction batches as [|b batches IH]; intros st; cbn.
  { exists []. by rewrite app_nil_r. }
  unfold mbind, Prog_bind, send_tpu. destruct (tpu_accepts st) as [[|n]|] eqn:E; cbn.
  - exists []. rewrite app_nil_r. split; [set_solver|done].
  - destruct (IH {st with tpu_sent ::= (λ l, l ++ [b]); tpu_accepts := Some n})
      as (l & Hl & Hs).
    exists (b :: l). split; [set_solver|]. cbn in Hs. rewrite <-app_assoc in Hs. done.
  - destruct (IH {st with tpu_sent ::= (λ l, l ++ [b]); tpu_accepts := None})
      as (l & Hl & Hs).
    exists (b :: l). split; [set_solver|]. cbn in Hs. rewrite <-app_assoc in Hs. done.
Qed.

Lemma handle_forwarded_packets_forwarded first st :
  all_forwarded (tpu_sent st) →
  all_forwarded (tpu_sent (handle_forwarded_packets first st).2).
Proof.
  intros Hst. unfold handle_forwarded_packets. destruct first as [first|]; [|done].
  prog_unfold. cbn [fst snd].
  destruct (collect_available (length first) (tpu_forwards st)) as [more rest] eqn:E.
  destruct (collect_available_spec _ _ _ _ E) as (taken & _ & -> & _).
  destruct (for_each_send_tpu_sub (map mark_forwarded first :: map (map mark_forwarded) taken)
    {st with tpu_forwards := rest}) as (l & Hl & Hs).
  unfold constant in Hs. rewrite Hs. cbn.
  intros b p [?|Hb]%elem_of_app Hp; [by eapply Hst|].
  by eapply (all_forwarded_marked (first :: taken)); [apply Hl|].
Qed.

(** Whatever the thread receives and however it ends, a lost TPU receiver and
    a panic included, every packet it ever hands to the TPU channel has the
    FORWARDED flag set, so it is never forwarded again. *)
Theorem fetch_stage_thread_forwarded inputs st :
  all_forwarded (tpu_sent (fs_channels st)) →
  all_forwarded (tpu_sent (fs_channels (fetch_stage_thread inputs st).2)).
Proof.
  apply (run_loop_invariant (λ st, all_forwarded (tpu_sent (fs_channels st)))).
  intros i s Hs. unfold fetch_stage_iteration.
  pose proof (handle_forwarded_packets_forwarded (fi_first i) (fs_channels s) Hs) as Hok.
  destruct (handle_forwarded_packets (fi_first i) (fs_channels s)) as [r ch].
  destruct s; cbn in *. destruct r as [u|[]|w]; cbn; try done; by destruct (_ <=? _).
Qed.
End fetch_stage_theorems.

(** ** Concrete inputs *)

Definition toy_batch : list Packet := [toy_packet 0 None; toy_packet 4 None].

Lemma handle_forwarded_packets_spec_witness :
  let st := {| tpu_forwards := [toy_batch]; tpu_sent := []; tpu_accepts := None |} in
  tpu_accepts st = None ∧
  ∃ taken rest, tpu_forwards st = taken ++ rest ∧
    tpu_sent (handle_forwarded_packets (Some toy_batch) st).2
      = map (map mark_forwarded) (toy_batch :: taken) ∧
    (rest = [] ∨ (1024 < length toy_batch + length (concat taken))%nat).
Proof.
  intros st. split; [reflexivity|].
  destruct (handle_forwarded_packets_spec toy_batch st) as (taken & rest & Hfw & Hr & Hstop & _);
    [reflexivity|]. exists taken, rest. rewrite Hr. by split.
Defined.

Lemma fetch_stage_thread_forwarded_witness :
  let ch := {| tpu_forwards := [toy_batch]; tpu_sent := []; tpu_accepts := Some 1%nat |} in
  let st := {| fs_channels := ch; fs_start := 0; tpu_forwards_receiver_max_len := 0;
               tpu_sender_max_len := 0 |} in
  let input := {| fi_first := Some toy_batch; fi_now := 5; fi_forwards_len := 0; fi_sender_len := 1 |} in
  all_forwarded (tpu_sent ch) ∧
  all_forwarded (tpu_sent (fs_channels (fetch_stage_thread [Some input] st).2)) ∧
  (length (tpu_sent (fs_channels (fetch_stage_thread [Some input] st).2)) = 1)%nat.
Proof.
  intros ch st input.
  assert (Hnone : all_forwarded (tpu_sent ch)) by (intros b p []%not_elem_of_nil).
  split; [exact Hnone|]. split; [by apply (fetch_stage_thread_forwarded [Some input] st)|].
  vm_refl.
Defined.
