(* ===== verification/LoadBalancer.v ===== *)
(** * The RPC load balancer ([rpc/src/load_balancer.rs])

    Two shared variables, the slot of each server and the highest slot, are
    written by one subscription thread per server.  The handling of one slot is
    modelled twice: as one function (what a single thread does), and as three
    atomic steps of an interleaving semantics, one per shared access. *)

From Stdlib Require Import Sorted.
From S2P Require Import Prelude External Instances.
Local Open Scope Z_scope.

Section load_balancer.
Context `{!HashOrder string}.
Variable RpcClient : Type.
(** [RpcClient::new_with_timeout_and_commitment(url, ..)] *)
Variable rpc_client_new : string → RpcClient.

Definition DISCONNECT_WEBSOCKET_TIMEOUT : Z := 30 * nanos_per_sec.
Definition SLOT_QUEUE_CAPACITY : nat := 100.

Record LoadBalancer := {
  server_to_slot : gmap string Z;
  server_to_rpc_client : gmap string RpcClient }.

Definition LoadBalancer_new (servers : list (string * string)) : LoadBalancer :=
  {| server_to_slot := collect_map (map (λ '(_, ws), (ws, 0)) servers);
     server_to_rpc_client :=
       collect_map (map (λ '(rpc_url, ws), (ws, rpc_client_new rpc_url)) servers) |}.

(** [iter().max_by(|l, r| l.value().cmp(r.value()))]: the last of the maxima. *)
Definition max_by_value (l : list (string * Z)) : option (string * Z) :=
  foldl (λ best kv,
    match best with
    | None => Some kv
    | Some b => if kv.2 <? b.2 then Some b else Some kv
    end) None l.

Definition get_highest_slot (lb : LoadBalancer) : Outcome Empty_set (string * Z) :=
  match max_by_value (map_iter (server_to_slot lb)) with
  | Some kv => Done kv
  | None => Panicked "called `Option::unwrap()` on a `None` value"
  end.

Definition rpc_client (lb : LoadBalancer) : Outcome Empty_set RpcClient :=
  '(highest_server, _) ← get_highest_slot lb;
  match server_to_rpc_client lb !! highest_server with
  | Some c => Done c
  | None => Panicked "called `Option::unwrap()` on a `None` value"
  end.

(** ** The subscription threads *)

(** What the threads share: the balancer's slots, the [highest_slot] counter, the
    slots sent downstream, and whether the downstream receiver is there. *)
Record Shared := {
  slots : gmap string Z;
  highest_slot : Z;
  slots_sent : list Z;
  downstream_alive : bool }.

Inductive SlotMessage := SlotUpdate (slot : Z) | Timeout | Disconnected.
Inductive LoopControl := Continue | Break.

(** One [recv_timeout] of the thread subscribed to [websocket_url]: the loop's
    local [last_slot_update], the clock, and what the receive returned. *)
Definition on_message (websocket_url : string) (now : Z) (msg : SlotMessage)
    : Prog (Z * Shared) Empty_set LoopControl :=
  λ '(last_slot_update, sh),
    match msg with
    | SlotUpdate slot =>
        let sh1 := {sh with slots ::= (λ m, <[websocket_url := slot]> m)} in
        let old_slot := highest_slot sh1 in
        let sh2 := {sh1 with highest_slot := Z.max old_slot slot} in
        if old_slot <? slot then
          if downstream_alive sh2
          then (Done Continue, (now, {sh2 with slots_sent ::= (λ l, l ++ [slot])}))
          else (Done Break, (now, sh2))
        else (Done Continue, (now, sh2))
    | Timeout =>
        if DISCONNECT_WEBSOCKET_TIMEOUT <=? now - last_slot_update
        then (Done Break, (last_slot_update, sh))
        else (Done Continue, (last_slot_update, sh))
    | Disconnected => (Done Break, (last_slot_update, sh))
    end.

(** The message loop of one connection, until it breaks. *)
Fixpoint message_loop (websocket_url : string) (msgs : list (Z * SlotMessage))
    : Prog (Z * Shared) Empty_set LoopControl :=
  match msgs with
  | [] => mret Continue
  | (now, msg) :: msgs' =>
      ctl ← on_message websocket_url now msg;
      match ctl with
      | Break => mret Break
      | Continue => message_loop websocket_url msgs'
      end
  end.

(** One turn of the reconnection loop: when it started, and what [slot_subscribe]
    answered, [None] for its error, with what the receives then return until the loop
    over them breaks or finds the exit flag set.  A pause of one second follows. *)
Record Connection := {
  con_started : Z;
  con_answer : option (list (Z * SlotMessage)) }.
Definition slot_subscription (websocket_url : string) (c : Connection)
    : Prog Shared Empty_set unit :=
  λ sh,
    match con_answer c with
    | None => (Done tt, sh)
    | Some msgs =>
        let '(r, (_, sh')) := message_loop websocket_url msgs (con_started c, sh) in
        (_ ← r; mret tt, sh')
    end.

Definition subscription_thread (websocket_url : string) := run_loop (slot_subscription websocket_url).

(** ** The interleaving of the threads *)

(** Where a thread is in the handling of a slot. *)
Inductive Pc := Waiting | Stored (slot : Z) | Notifying (slot : Z).
Record Threads := { shared : Shared; pcs : list (string * Pc) }.

(** One atomic action of the [i]-th thread, that of the server [url]: the insertion into
    [server_to_slot], the [fetch_max], the [send]. *)
Inductive lb_step : Threads → Threads → Prop :=
| step_insert t i url slot :
    pcs t !! i = Some (url, Waiting) → 0 <= slot →
    lb_step t {t with shared ::= (λ sh, {sh with slots ::= (λ m, <[url := slot]> m)});
                      pcs ::= (λ l, <[i := (url, Stored slot)]> l)}
| step_fetch_max t i url slot :
    pcs t !! i = Some (url, Stored slot) →
    lb_step t {t with shared ::= (λ sh, {sh with highest_slot := Z.max (highest_slot sh) slot});
                      pcs ::= (λ l,
                        <[i := (url, if highest_slot (shared t) <? slot
                                     then Notifying slot else Waiting)]> l)}
| step_send t i url slot :
    pcs t !! i = Some (url, Notifying slot) →
    lb_step t {t with shared ::= (λ sh,
                        if downstream_alive sh
                        then {sh with slots_sent ::= (λ l, l ++ [slot])} else sh);
                      pcs ::= (λ l, <[i := (url, Waiting)]> l)}.

Definition threads_init (servers : list (string * string)) : Threads :=
  {| shared := {| slots := server_to_slot (LoadBalancer_new servers);
                  highest_slot := 0; slots_sent := []; downstream_alive := true |};
     pcs := map (λ '(_, ws), (ws, Waiting)) servers |}.

(** The balancer as its users find it: the slots the threads have stored, and the clients. *)
Definition balancer_of (servers : list (string * string)) (t : Threads) : LoadBalancer :=
  {| server_to_slot := slots (shared t);
     server_to_rpc_client := server_to_rpc_client (LoadBalancer_new servers) |}.

(** ** Specification *)

(** The slots of [l] that exceed [h] and everything before them. *)
Fixpoint records (h : Z) (l : list Z) : list Z :=
  match l with
  | [] => []
  | s :: l' => if h <? s then s :: records s l' else records h l'
  end.

Definition notifying (t : Threads) (i : nat) (s : Z) : Prop :=
  ∃ url, pcs t !! i = Some (url, Notifying s).

(** Slots sent or about to be sent are distinct and below the counter. *)
Record lb_inv (t : Threads) : Prop := {
  inv_sent_nodup : NoDup (slots_sent (shared t));
  inv_sent_le : ∀ s, s ∈ slots_sent (shared t) → 0 < s <= highest_slot (shared t);
  inv_notify_le : ∀ i s, notifying t i s → 0 < s <= highest_slot (shared t);
  inv_notify_fresh : ∀ i s, notifying t i s → s ∉ slots_sent (shared t);
  inv_notify_inj : ∀ i i' s, notifying t i s → notifying t i' s → i = i';
  inv_highest : 0 <= highest_slot (shared t) }.
End load_balancer.

Arguments server_to_slot {RpcClient}.
Arguments server_to_rpc_client {RpcClient}.
Arguments get_highest_slot {_ RpcClient}.
Arguments rpc_client {_ RpcClient}.
Arguments LoadBalancer_new {RpcClient}.
Arguments balancer_of {RpcClient}.

Section load_balancer_theorems.
Context `{!HashOrder string} `{!HashOrderLaws string}.
Variable RpcClient : Type.
Implicit Types (lb : LoadBalancer RpcClient).

Lemma max_by_value_spec l :
  match max_by_value l with
  | None => l = []
  | Some (k, v) => (k, v) ∈ l ∧ ∀ k' v', (k', v') ∈ l → v' <= v
  end.
Proof.
  induction l as [|[k v] l IH] using rev_ind; [done|].
  unfold max_by_value in *. rewrite foldl_app. cbn [foldl].
  destruct (foldl _ _ l) as [[k0 v0]|]; cbn.
  - destruct IH as [Hin Hmax]. destruct (Z.ltb_spec v v0); split; try set_solver.
    + intros k' v' [?|[= -> ->]%list_elem_of_singleton]%elem_of_app; [eauto|lia].
    + intros k' v' [?%Hmax|[= -> ->]%list_elem_of_singleton]%elem_of_app; lia.
  - subst l. split; [set_solver|].
    intros k' v' [= -> ->]%list_elem_of_singleton. lia.
Qed.

Lemma get_highest_slot_done lb k v :
  get_highest_slot lb = Done (k, v) →
  server_to_slot lb !! k = Some v ∧
  ∀ k' v', server_to_slot lb !! k' = Some v' → v' <= v.
Proof.
  unfold get_highest_slot. pose proof (max_by_value_spec (map_iter (server_to_slot lb))) as Hs.
  destruct (max_by_value _) as [[k0 v0]|]; [intros [= <- <-]|discriminate].
  rewrite <-elem_of_map_iter. destruct Hs as [Hin Hmax]. split; [done|].
  intros k' v' Hk'. apply (Hmax k'). by apply elem_of_map_iter.
Qed.

Lemma get_highest_slot_total lb :
  server_to_slot lb ≠ ∅ → ∃ kv, get_highest_slot lb = Done kv.
Proof.
  intros Hne. unfold get_highest_slot.
  pose proof (max_by_value_spec (map_iter (server_to_slot lb))) as Hs.
  destruct (max_by_value _) as [kv|]; [eauto|]. destruct Hne.
  apply map_eq. intros k. rewrite lookup_empty.
  destruct (server_to_slot lb !! k) as [v|] eqn:Hk; [|done].
  apply elem_of_map_iter in Hk. rewrite Hs in Hk. by apply not_elem_of_nil in Hk.
Qed.

(** The two maps have one entry per server, whatever slots were stored since. *)
Definition lb_wf lb : Prop := dom (server_to_slot lb) = dom (server_to_rpc_client lb).

(** [client] is that of a server whose stored slot no other exceeds. *)
Definition most_current lb (client : RpcClient) : Prop :=
  ∃ ws slot, server_to_rpc_client lb !! ws = Some client ∧ server_to_slot lb !! ws = Some slot ∧
    ∀ ws' slot', server_to_slot lb !! ws' = Some slot' → slot' <= slot.

Lemma rpc_client_current lb :
  lb_wf lb → server_to_slot lb ≠ ∅ → ∃ client, rpc_client lb = Done client ∧ most_current lb client.
Proof.
  intros Hwf Hne. destruct (get_highest_slot_total lb Hne) as ([ws slot] & Hg).
  destruct (get_highest_slot_done _ _ _ Hg) as [Hws Hmax].
  assert (is_Some (server_to_rpc_client lb !! ws)) as [client Hc].
  { apply elem_of_dom. rewrite <-Hwf. apply elem_of_dom. by exists slot. }
  exists client. split; [|by exists ws, slot].
  unfold rpc_client, mbind, Outcome_bind. by rewrite Hg, Hc.
Qed.

(** Without a server there is no highest slot to unwrap. *)
Lemma rpc_client_none lb :
  server_to_slot lb = ∅ → rpc_client lb = Panicked "called `Option::unwrap()` on a `None` value".
Proof.
  intros Hnone. unfold rpc_client, get_highest_slot. rewrite Hnone.
  assert (map_iter (∅ : gmap string Z) = []) as ->; [|done].
  apply Permutation_nil. by rewrite map_iter_perm, map_to_list_empty.
Qed.

Variable rpc_client_new : string → RpcClient.

Lemma dom_collect_map {K A} `{Countable K} (l : list (K * A)) :
  dom (collect_map l) = list_to_set l.*1.
Proof.
  apply set_eq. intros k. rewrite elem_of_dom, collect_map_is_Some. set_solver.
Qed.

Lemma LoadBalancer_new_wf servers : lb_wf (LoadBalancer_new rpc_client_new servers).
Proof.
  unfold lb_wf. cbn. rewrite !dom_collect_map. f_equal.
  rewrite !list_fmap_alt. induction servers as [|[u w] servers IH]; cbn; by f_equal.
Qed.

(** The balancer made from a non-empty list of servers always yields the client
    of a configured server whose stored slot no other exceeds, and never panics,
    whatever slots the subscription threads have stored for its servers. *)
Theorem rpc_client_highest servers stored :
  servers ≠ [] →
  dom stored = dom (server_to_slot (LoadBalancer_new rpc_client_new servers)) →
  let lb := {| server_to_slot := stored;
               server_to_rpc_client :=
                 server_to_rpc_client (LoadBalancer_new rpc_client_new servers) |} in
  ∃ url ws slot,
    rpc_client lb = Done (rpc_client_new url) ∧ (url, ws) ∈ servers ∧
    stored !! ws = Some slot ∧ ∀ ws' slot', stored !! ws' = Some slot' → slot' <= slot.
Proof.
  intros Hne Hdom lb. destruct (rpc_client_current lb) as (client & Hr & ws & slot & Hc & Hslot & Hmax).
  - unfold lb_wf. cbn. rewrite Hdom. apply LoadBalancer_new_wf.
  - cbn. intros ->. rewrite dom_empty_L in Hdom. cbn in Hdom. rewrite dom_collect_map in Hdom.
    destruct servers as [|[u w] ?]; [done|]. set_solver.
  - apply elem_of_collect_map, list_elem_of_fmap in Hc as ([url ws'] & [= -> ->] & Hin).
    by exists url, ws', slot.
Qed.

(** ** One thread *)

Lemma records_sorted h l : StronglySorted Z.lt (h :: records h l).
Proof.
  revert h; induction l as [|s l IH]; intros h; cbn [records].
  { by repeat constructor. }
  destruct (Z.ltb_spec h s) as [Hlt|]; [|done].
  specialize (IH s). inversion IH as [|?? _ Hall]; subst.
  constructor; [done|]. constructor; [done|].
  eapply List.Forall_impl; [|done]. cbn. lia.
Qed.

Lemma records_cons h s l :
  records h (s :: l) = (if h <? s then [s] else []) ++ records (Z.max h s) l.
Proof.
  cbn [records]. destruct (Z.ltb_spec h s); cbn.
  - by rewrite Z.max_r by lia.
  - by rewrite Z.max_l by lia.
Qed.

Lemma on_message_slot ws now s lu sl hs sent :
  on_message ws now (SlotUpdate s)
    (lu, {| slots := sl; highest_slot := hs; slots_sent := sent; downstream_alive := true |}) =
  (Done Continue,
   (now, {| slots := <[ws := s]> sl; highest_slot := Z.max hs s;
            slots_sent := sent ++ (if hs <? s then [s] else []);
            downstream_alive := true |})).
Proof. cbn. unfold constant. destruct (hs <? s); cbn; by rewrite ?app_nil_r. Qed.

(** A connection handled without interference sends downstream exactly the
    slots that are new maxima, a strictly increasing sequence above what the
    counter held; the counter ends at the maximum of all it saw, and the server's
    own entry at the last slot received, even a lower one. *)
Theorem message_loop_increasing ws updates lu sh :
  downstream_alive sh = true →
  ∃ lu', message_loop ws (map (λ '(now, s), (now, SlotUpdate s)) updates) (lu, sh) =
    (Done Continue, (lu',
      {| slots := match last updates.*2 with
                  | Some s => <[ws := s]> (slots sh)
                  | None => slots sh
                  end;
         highest_slot := foldl Z.max (highest_slot sh) updates.*2;
         slots_sent := slots_sent sh ++ records (highest_slot sh) updates.*2;
         downstream_alive := true |})) ∧
    lu' = default lu (last updates.*1) ∧
    StronglySorted Z.lt (highest_slot sh :: records (highest_slot sh) updates.*2).
Proof.
  intros Halive. eexists. split_and!; [|reflexivity|apply records_sorted].
  revert lu sh Halive.
  induction updates as [|[now s] updates IH]; intros lu [sl hs sent al] Halive; cbn in Halive; subst.
  { cbn. by rewrite app_nil_r. }
  rewrite !fmap_cons. cbn [fst snd map message_loop].
  rewrite (prog_bind_done _ _ _ _ _ (on_message_slot ws now s lu sl hs sent)).
  rewrite IH by done. cbn [slots highest_slot slots_sent].
  rewrite records_cons, app_assoc. cbn [foldl].
  destruct updates as [|[? ?] ?]; [done|]. rewrite !fmap_cons, !last_cons_cons.
  rewrite !last_cons.
  by destruct (last updates.*1), (last updates.*2); cbn; rewrite insert_insert_eq.
Qed.

(** *** Reconnection *)

(** The slots of one connection: those before it goes silent for too long or is lost. *)
Fixpoint handled (last_slot_update : Z) (msgs : list (Z * SlotMessage)) : list Z :=
  match msgs with
  | [] => []
  | (now, SlotUpdate slot) :: msgs' => slot :: handled now msgs'
  | (now, Timeout) :: msgs' =>
      if DISCONNECT_WEBSOCKET_TIMEOUT <=? now - last_slot_update then []
      else handled last_slot_update msgs'
  | (_, Disconnected) :: _ => []
  end.
Definition connection_slots (c : Connection) : list Z :=
  handled (con_started c) (default [] (con_answer c)).

(** What the slots of one thread make of the shared state. *)
Definition after_slots (ws : string) (received : list Z) (sh : Shared) : Shared :=
  {| slots := match last received with Some s => <[ws := s]> (slots sh) | None => slots sh end;
     highest_slot := foldl Z.max (highest_slot sh) received;
     slots_sent := slots_sent sh ++ records (highest_slot sh) received;
     downstream_alive := true |}.

Lemma after_slots_cons ws s l sl hs sent :
  after_slots ws (s :: l) {| slots := sl; highest_slot := hs; slots_sent := sent; downstream_alive := true |} =
  after_slots ws l {| slots := <[ws := s]> sl; highest_slot := Z.max hs s;
    slots_sent := sent ++ (if hs <? s then [s] else []); downstream_alive := true |}.
Proof.
  unfold after_slots. cbn [slots highest_slot slots_sent foldl]. rewrite records_cons, app_assoc.
  destruct l; [done|]. rewrite last_cons_cons, last_cons.
  destruct (last _); by rewrite ?insert_insert_eq.
Qed.

Lemma after_slots_app ws l k sh :
  after_slots ws (l ++ k) sh = after_slots ws k (after_slots ws l sh).
Proof.
  destruct sh as [sl hs sent al]. unfold after_slots; cbn. rewrite foldl_app, last_app. f_equal.
  - destruct (last k), (last l); by rewrite ?insert_insert_eq.
  - rewrite <-app_assoc. f_equal. clear. revert hs. induction l as [|s l IH]; intros hs; [done|].
    cbn [app foldl]. by rewrite !records_cons, IH, app_assoc.
Qed.

Lemma message_loop_handled ws msgs lu sh :
  downstream_alive sh = true →
  ∃ ctl lu', message_loop ws msgs (lu, sh) = (Done ctl, (lu', after_slots ws (handled lu msgs) sh)).
Proof.
  revert lu sh. induction msgs as [|[now msg] msgs IH]; intros lu [sl hs sent al]; cbn [downstream_alive];
    intros ->; [by eexists _, _; unfold after_slots; cbn; rewrite app_nil_r|].
  cbn [message_loop handled]. destruct msg as [s| |].
  - rewrite (prog_bind_done _ _ _ _ _ (on_message_slot ws now s lu sl hs sent)), after_slots_cons.
    by apply IH.
  - unfold mbind, Prog_bind. cbn [on_message]. destruct (_ <=? _); [|by apply IH].
    by eexists _, _; unfold after_slots; cbn; rewrite app_nil_r.
  - by eexists _, _; unfold after_slots; cbn; rewrite app_nil_r.
Qed.

Lemma after_slots_nil ws sh : downstream_alive sh = true → after_slots ws [] sh = sh.
Proof. destruct sh; cbn; intros ->. unfold after_slots. cbn. by rewrite app_nil_r. Qed.

Lemma slot_subscription_done ws c sh :
  downstream_alive sh = true →
  slot_subscription ws c sh = (Done tt, after_slots ws (connection_slots c) sh).
Proof.
  intros Halive. unfold slot_subscription, connection_slots. destruct (con_answer c) as [msgs|]; cbn.
  - by destruct (message_loop_handled ws msgs (con_started c) sh Halive) as (? & ? & ->).
  - by rewrite after_slots_nil.
Qed.

(** C24: A thread on its own, through refused, lost and stale connections alike, never
    stops before the exit flag, and sends downstream exactly the slots above all it had
    received in any connection before: a reconnection does not start over. *)
Theorem subscription_thread_sends ws inputs sh :
  downstream_alive sh = true →
  let received := live_inputs inputs ≫= connection_slots in
  (∃ r, subscription_thread ws inputs sh = (Done r, after_slots ws received sh)) ∧
  StronglySorted Z.lt (highest_slot sh :: records (highest_slot sh) received).
Proof.
  intros Halive. split; [|apply records_sorted]. revert sh Halive.
  induction inputs as [|[c|] inputs IH]; intros sh Halive; cbn.
  1, 3: by eexists; rewrite after_slots_nil.
  rewrite (prog_bind_done _ _ _ _ _ (slot_subscription_done ws c sh Halive)), after_slots_app.
  by apply IH.
Qed.

(** Readings at least a receive timeout apart. *)
Definition RECV_TIMEOUT : Z := 100 * 1000000.
Fixpoint spaced (previous : Z) (clocks : list Z) : Prop :=
  match clocks with
  | [] => True
  | now :: clocks' => previous + RECV_TIMEOUT <= now ∧ spaced now clocks'
  end.

#[global] Instance spaced_dec previous clocks : Decision (spaced previous clocks).
Proof. revert previous. induction clocks; intros; apply _. Defined.

Lemma message_loop_app ws l k st st' :
  message_loop ws l st = (Done Continue, st') → message_loop ws (l ++ k) st = message_loop ws k st'.
Proof.
  revert st. induction l as [|[now msg] l IH]; intros st; [by intros [= ->]|].
  cbn [message_loop app]. unfold mbind, Prog_bind.
  destruct (on_message _ _ _ _) as [[[]|[]|] st1]; [apply IH|done|done].
Qed.

Lemma message_loop_timeouts ws n clocks lu t sh post :
  spaced t clocks → lu + Z.of_nat n * RECV_TIMEOUT <= t →
  DISCONNECT_WEBSOCKET_TIMEOUT <= Z.of_nat (n + length clocks) * RECV_TIMEOUT → clocks ≠ [] →
  message_loop ws (map (λ now, (now, Timeout)) clocks ++ post) (lu, sh) = (Done Break, (lu, sh)).
Proof.
  revert n t. induction clocks as [|now clocks IH]; intros n t; [done|].
  cbn [spaced length]. intros [Hnow Hsp] Ht Hlen _. cbn [map app message_loop].
  unfold mbind, Prog_bind. cbn [on_message].
  destruct (Z.leb_spec DISCONNECT_WEBSOCKET_TIMEOUT (now - lu)); [done|].
  destruct clocks as [|now' clocks]; [cbn in *; lia|].
  apply (IH (S n) now); [done|lia| |done]. by rewrite Nat.add_succ_comm.
Qed.

(** A connection that goes silent is given up: whatever it has delivered, 300
    receives in a row that time out, 100 ms each at least, end its loop, so the thread
    reconnects; nothing shared has changed meanwhile. *)
Theorem silent_connection_dropped ws msgs clocks post lu last sh sh' :
  message_loop ws msgs (lu, sh) = (Done Continue, (last, sh')) →
  spaced last clocks → (300 ≤ length clocks)%nat →
  message_loop ws (msgs ++ map (λ now, (now, Timeout)) clocks ++ post) (lu, sh) =
    (Done Break, (last, sh')).
Proof.
  intros Hmsgs Hsp Hlen. rewrite (message_loop_app _ _ _ _ _ Hmsgs).
  apply (message_loop_timeouts _ 0 _ _ last); [done|lia| |by destruct clocks; cbn in *; [lia|]].
  unfold DISCONNECT_WEBSOCKET_TIMEOUT, RECV_TIMEOUT, nanos_per_sec. lia.
Qed.

(** ** All threads together *)

Lemma lb_inv_init servers : lb_inv (threads_init RpcClient rpc_client_new servers).
Proof.
  assert (Hn : ∀ i s, ¬ notifying (threads_init RpcClient rpc_client_new servers) i s).
  { intros i s [url Hi]. cbn in Hi. apply list_elem_of_lookup_2, list_elem_of_fmap in Hi as ([??] & [=] & _). }
  split; cbn; try (intros; exfalso; by eapply Hn); [constructor| |lia].
  by intros s ?%not_elem_of_nil.
Qed.

(** The threads about to notify, after one of them has moved on. *)
Lemma notifying_insert sh sh' (l : list (string * Pc)) i url pc j s :
  notifying {| shared := sh'; pcs := <[i := (url, pc)]> l |} j s →
  (i = j ∧ pc = Notifying s) ∨ (i ≠ j ∧ notifying {| shared := sh; pcs := l |} j s).
Proof. intros [u [(-> & [= <- <-] & _)|[Hne Hj]]%list_lookup_insert_Some]; [by left|]. right. by split; [|exists u]. Qed.

Lemma lb_inv_step t t' : lb_inv t → lb_step t t' → lb_inv t'.
Proof.
  intros [Hnd Hle Hnle Hfr Hinj Hh] Hstep.
  destruct Hstep as [[[sl hs sent al] pcs] i url slot Hpc Hslot
                    |[[sl hs sent al] pcs] i url slot Hpc
                    |[[sl hs sent al] pcs] i url slot Hpc];
    cbn in *; unfold constant in *; split; cbn; try done.
  - intros j s [[_ [=]]|[_ Hj]]%(notifying_insert (Build_Shared sl hs sent al)). eauto.
  - intros j s [[_ [=]]|[_ Hj]]%(notifying_insert (Build_Shared sl hs sent al)). eauto.
  - intros j j' s [[_ [=]]|[_ Hj]]%(notifying_insert (Build_Shared sl hs sent al)) [[_ [=]]|[_ Hj']]%(notifying_insert (Build_Shared sl hs sent al)).
    eauto.
  - intros s Hs. specialize (Hle s Hs). lia.
  - intros j s [[_ Heq]|[_ Hj]]%(notifying_insert (Build_Shared sl hs sent al)); [|apply Hnle in Hj; lia].
    destruct (Z.ltb_spec hs slot); [|done]. injection Heq as <-. lia.
  - intros j s [[_ Heq]|[_ Hj]]%(notifying_insert (Build_Shared sl hs sent al)); [|eauto].
    destruct (Z.ltb_spec hs slot); [|done]. injection Heq as <-. intros Hin%Hle. lia.
  - intros j j' s [[<- Heq]|[Hne Hj]]%(notifying_insert (Build_Shared sl hs sent al))
      [[<- Heq']|[Hne' Hj']]%(notifying_insert (Build_Shared sl hs sent al)); [done| | |eauto];
      (destruct (Z.ltb_spec hs slot); [|done]); simplify_eq.
    + apply Hnle in Hj'. lia.
    + apply Hnle in Hj. lia.
  - lia.
  - assert (slot ∉ sent) as Hnew by (apply (Hfr i); by exists url).
    destruct al; cbn; [|done]. apply NoDup_app. split_and!; [done| |by repeat constructor; apply not_elem_of_nil].
    by intros x Hx ?%list_elem_of_singleton; subst.
  - assert (0 < slot <= hs) by (apply (Hnle i); by exists url).
    destruct al; cbn; [|done]. intros s [?|?%list_elem_of_singleton]%elem_of_app; subst; eauto.
  - intros j s [[_ [=]]|[_ Hj]]%(notifying_insert (Build_Shared sl hs sent al)). apply Hnle in Hj. by destruct al.
  - intros j s [[_ [=]]|[Hne Hj]]%(notifying_insert (Build_Shared sl hs sent al)). pose proof (Hfr _ _ Hj).
    destruct al; cbn; [|done]. rewrite elem_of_app, list_elem_of_singleton. intros [?|Heq]; [done|]. subst.
    apply Hne. eapply Hinj; [by exists url|done].
  - intros j j' s [[_ [=]]|[_ Hj]]%(notifying_insert (Build_Shared sl hs sent al)) [[_ [=]]|[_ Hj']]%(notifying_insert (Build_Shared sl hs sent al)).
    eauto.
  - by destruct al.
Qed.

(** However the subscription threads interleave, no slot is ever sent
    downstream twice, and every slot sent is one the counter has reached. *)
Theorem slots_sent_distinct servers t :
  rtc lb_step (threads_init RpcClient rpc_client_new servers) t →
  NoDup (slots_sent (shared t)) ∧
  ∀ s, s ∈ slots_sent (shared t) → 0 < s <= highest_slot (shared t).
Proof.
  intros Hrtc.
  destruct (rtc_invariant lb_step lb_inv _ t lb_inv_step (lb_inv_init servers) Hrtc).
  done.
Qed.

(** The threads' updates are not atomic as a whole: with two servers, whatever
    slots [lo < hi] they report, an interleaving sends the higher one downstream
    first and the lower one after it, so the downstream sequence can go back. *)
Theorem slots_sent_can_regress servers i j r1 u1 r2 u2 lo hi :
  servers !! i = Some (r1, u1) → servers !! j = Some (r2, u2) → i ≠ j → 0 < lo < hi →
  ∃ t, rtc lb_step (threads_init RpcClient rpc_client_new servers) t ∧
    slots_sent (shared t) = [hi; lo].
Proof.
  intros H1 H2 Hne Hlo. unfold threads_init. set (l := map _ servers).
  assert (l !! i = Some (u1, Waiting) ∧ l !! j = Some (u2, Waiting)) as [W1 W2].
  { unfold l. rewrite !list_lookup_fmap, H1, H2. done. }
  assert (i < length l ∧ j < length l)%nat as [Li Lj] by (split; by eapply lookup_lt_Some).
  generalize dependent l. intros l W1 W2 Li Lj. eexists. split.
  - eapply rtc_l; [apply (step_insert _ i u1 lo); [done|lia]|]. cbn.
    eapply rtc_l; [apply (step_fetch_max _ i u1 lo); cbn; by rewrite list_lookup_insert_eq|]. cbn.
    eapply rtc_l; [apply (step_insert _ j u2 hi); [cbn; by rewrite !list_lookup_insert_ne|lia]|]. cbn.
    eapply rtc_l; [apply (step_fetch_max _ j u2 hi); cbn;
      rewrite list_lookup_insert_eq; [done|by rewrite !length_insert]|]. cbn.
    eapply rtc_l; [apply (step_send _ j u2 hi); cbn; rewrite list_lookup_insert_eq|]; cbn.
    { unfold constant. rewrite (proj2 (Z.ltb_lt _ _)) by lia. done. }
    { by rewrite !length_insert. }
    eapply rtc_once. apply (step_send _ i u1 lo). cbn.
    rewrite !list_lookup_insert_ne by done. rewrite list_lookup_insert_eq by (by rewrite !length_insert).
    rewrite (proj2 (Z.ltb_lt _ _)) by lia. done.
  - done.
Qed.

(** Whatever the threads store, the balancer keeps one slot for each configured server, so
    its users never miss a client. *)
Lemma balancer_of_wf servers t :
  rtc lb_step (threads_init RpcClient rpc_client_new servers) t →
  lb_wf (balancer_of rpc_client_new servers t) ∧
  (servers ≠ [] → server_to_slot (balancer_of rpc_client_new servers t) ≠ ∅).
Proof.
  intros Hrtc.
  set (urls := dom (server_to_slot (LoadBalancer_new rpc_client_new servers))).
  assert (dom (slots (shared t)) = urls ∧ ∀ i url pc, pcs t !! i = Some (url, pc) → url ∈ urls) as [Hdom _].
  { refine (rtc_invariant lb_step (λ t, dom (slots (shared t)) = urls ∧
      ∀ i url pc, pcs t !! i = Some (url, pc) → url ∈ urls) _ t _ _ Hrtc).
    - intros t1 t2 [Hdom Hurls] Hstep. destruct Hstep as [[[sl hs sent al] pcs] i url slot Hpc Hslot
        |[[sl hs sent al] pcs] i url slot Hpc|[[sl hs sent al] pcs] i url slot Hpc]; cbn in *;
        (split; [|intros j u pc [(_ & [= <- <-] & _)|[_ Hj]]%list_lookup_insert_Some; by eauto]).
      + rewrite dom_insert_L. apply Hurls in Hpc. set_solver.
      + done.
      + by destruct al.
    - split; [done|]. cbn. intros i url pc Hi.
      apply list_elem_of_lookup_2, list_elem_of_fmap in Hi as ([r w] & [= -> ->] & Hi).
      unfold urls. cbn. rewrite dom_collect_map, elem_of_list_to_set, list_elem_of_fmap.
      exists (w, 0). split; [done|]. apply list_elem_of_fmap. by exists (r, w). }
  split.
  - unfold lb_wf. cbn. rewrite Hdom. apply LoadBalancer_new_wf.
  - cbn. intros Hne Hempty. rewrite Hempty, dom_empty_L in Hdom. unfold urls in Hdom. cbn in Hdom.
    rewrite dom_collect_map in Hdom. destruct servers as [|[u w] ?]; [done|]. set_solver.
Qed.
End load_balancer_theorems.

Arguments lb_wf {RpcClient}.
Arguments most_current {RpcClient}.

(** ** Concrete inputs *)

Definition toy_servers : list (string * string) :=
  [("http://a", "ws://a"); ("http://b", "ws://b")]%string.

Lemma rpc_client_highest_witness :
  let stored : gmap string Z := {["ws://a" := 5; "ws://b" := 9]}%string in
  let lb := {| server_to_slot := stored;
               server_to_rpc_client := server_to_rpc_client (LoadBalancer_new id toy_servers) |} in
  toy_servers ≠ [] ∧ dom stored = dom (server_to_slot (LoadBalancer_new id toy_servers)) ∧
  rpc_client lb = Done "http://b"%string ∧
  ∃ url ws slot, rpc_client lb = Done url ∧ (url, ws) ∈ toy_servers ∧ stored !! ws = Some slot ∧
    ∀ ws' slot', stored !! ws' = Some slot' → slot' <= slot.
Proof.
  intros stored lb. assert (Hdom : dom stored = dom (server_to_slot (LoadBalancer_new id toy_servers)))
    by (vm_refl).
  split; [done|]. split; [exact Hdom|]. split; [vm_refl|].
  exact (rpc_client_highest _ id toy_servers stored ltac:(discriminate) Hdom).
Defined.

Definition toy_threads := threads_init string id toy_servers.

Definition toy_shared : Shared :=
  {| slots := ∅; highest_slot := 4; slots_sent := []; downstream_alive := true |}.
Definition toy_silence : list Z := map (λ k, 100 + Z.of_nat k * RECV_TIMEOUT) (seq 1 300).

(** A refused connection, one that is lost, and one that repeats old slots. *)
Lemma subscription_thread_sends_witness :
  let inputs := [Some {| con_started := 0; con_answer := None |};
    Some {| con_started := 5; con_answer :=
      Some [(6, SlotUpdate 9); (7, SlotUpdate 8); (8, Disconnected)] |};
    Some {| con_started := 9; con_answer := Some [(10, SlotUpdate 9); (11, SlotUpdate 12)] |}; None] in
  let received := live_inputs inputs ≫= connection_slots in
  received = [9; 8; 9; 12] ∧ records 4 received = [9; 12] ∧
  ∃ r, subscription_thread "ws://a" inputs toy_shared = (Done r, after_slots "ws://a" received toy_shared).
Proof.
  intros inputs received. split; [vm_refl|]. split; [vm_refl|].
  apply (subscription_thread_sends "ws://a" inputs toy_shared eq_refl).
Defined.

Lemma silent_connection_dropped_witness :
  spaced 100 toy_silence ∧
  message_loop "ws://a" ([(100, SlotUpdate 3)] ++ map (λ now, (now, Timeout)) toy_silence ++ [])
    (7, toy_shared) =
    (Done Break, (100, {toy_shared with slots := {["ws://a"%string := 3]}})).
Proof.
  assert (Hsp : spaced 100 toy_silence).
  { apply (bool_decide_unpack (spaced 100 toy_silence)). vm_compute. exact I. }
  split; [exact Hsp|].
  apply (silent_connection_dropped "ws://a" [(100, SlotUpdate 3)] toy_silence []); [vm_refl|exact Hsp|].
  apply (bool_decide_unpack _). vm_compute. exact I.
Defined.

Lemma slots_sent_distinct_witness :
  let t1 := {toy_threads with
      shared ::= (λ sh, {sh with slots ::= (λ m, <["ws://a"%string := 7]> m)});
      pcs ::= (λ l, <[0%nat := ("ws://a"%string, Stored 7)]> l)} in
  rtc lb_step toy_threads t1 ∧ NoDup (slots_sent (shared t1)).
Proof.
  intros t1. assert (Hrtc : rtc lb_step toy_threads t1).
  { apply rtc_once, (step_insert toy_threads 0 "ws://a"%string 7); [vm_refl|lia]. }
  split; [exact Hrtc|]. by apply (slots_sent_distinct string id toy_servers t1).
Defined.

Lemma slots_sent_can_regress_witness :
  ∃ t, rtc lb_step toy_threads t ∧ slots_sent (shared t) = [8; 7].
Proof.
  apply (slots_sent_can_regress string id toy_servers 0 1 "http://a" "ws://a" "http://b" "ws://b");
    [done|done|done|lia].
Defined.
