(* ===== verification/ScheduleCache.v ===== *)
(** * The leader-schedule cache ([relayer/src/schedule_cache.rs])

    The cache maps absolute slots to leaders.  [update_leader_cache] rebuilds it
    from the answers of the node the load balancer chooses; what each node answers is an
    input of the model.  The handle's queries read it. *)

From S2P Require Import Prelude External Instances LoadBalancer.
Local Open Scope Z_scope.

Abbreviation Slot := Z.

(** The fields of [EpochInfo] the code reads. *)
Record EpochInfo := { absolute_slot : Z; slot_index : Z }.

Section schedule_cache.
Context `{Sdk} `{!HashOrder string} `{!HashOrder Slot}.
Context {RpcClient : Type}.
Implicit Types (schedule : gmap Slot Pubkey).

Definition leader_for_slot schedule (slot : Slot) : option Pubkey := schedule !! slot.

Definition leaders_for_slots schedule (slots : list Slot) : gset Pubkey :=
  list_to_set (omap (λ s, schedule !! s) slots).

Definition is_scheduled_validator schedule (pubkey : Pubkey) : bool :=
  existsb (λ kv, bool_decide (kv.2 = pubkey)) (map_iter schedule).

(** The pairs the two nested loops insert, in their order. *)
Definition schedule_entries (epoch_offset : Z) (leader_schedule : gmap string (list Z))
    : list (Slot * Pubkey) :=
  flat_map (λ '(pk_str, slots),
    match pubkey_from_str pk_str with
    | Some pubkey => map (λ slot, (u64_add slot epoch_offset, pubkey)) slots
    | None => []
    end) (map_iter leader_schedule).

(** What the node of each client answers, [None] for an error; the schedule itself may be
    absent. *)
Record LeaderAnswers := {
  get_epoch_info : RpcClient → option EpochInfo;
  get_leader_schedule : RpcClient → option (option (gmap string (list Z))) }.

Definition update_leader_cache (load_balancer : LoadBalancer RpcClient) (rpc : LeaderAnswers)
    : Prog (gmap Slot Pubkey) Empty_set bool :=
  client ← call (rpc_client load_balancer);
  match get_epoch_info rpc client with
  | Some epoch_info =>
      match get_leader_schedule rpc client with
      | Some (Some leader_schedule) =>
          let epoch_offset := u64_sub (absolute_slot epoch_info) (slot_index epoch_info) in
          let new_schedule := collect_map (schedule_entries epoch_offset leader_schedule) in
          modify (λ _, new_schedule) ;;
          mret true
      | _ => mret false
      end
  | None => mret false
  end.

(** One turn of the refresh thread: the counters and the length it reports. *)
Record RefreshReport := {
  update_ok_count : Z;
  update_fail_count : Z;
  slots_in_schedule : nat }.
Definition refresh_iteration (i : LoadBalancer RpcClient * LeaderAnswers)
    : Prog (gmap Slot Pubkey * list RefreshReport) Empty_set unit :=
  λ '(schedule, reports),
    match update_leader_cache i.1 i.2 schedule with
    | (Done ok, schedule') =>
        (Done tt, (schedule', reports ++ [
          {| update_ok_count := if ok then 1 else 0;
             update_fail_count := if ok then 0 else 1;
             slots_in_schedule := size schedule' |}]))
    | (Fail e, _) => match e with end
    | (Panicked why, schedule') => (Panicked why, (schedule', reports))
    end.
Definition refresh_thread := run_loop refresh_iteration.
End schedule_cache.

Arguments LeaderAnswers : clear implicits.

Section schedule_cache_theorems.
Context `{Sdk} `{!HashOrder string} `{!HashOrder Slot}.
Context `{!HashOrderLaws string} `{!HashOrderLaws Slot}.
Context {RpcClient : Type}.
Implicit Types (schedule : gmap Slot Pubkey) (lb : LoadBalancer RpcClient).

Lemma elem_of_schedule_entries off ls slot pk :
  (slot, pk) ∈ schedule_entries off ls ↔
  ∃ pk_str slots rel, ls !! pk_str = Some slots ∧ pubkey_from_str pk_str = Some pk ∧
    rel ∈ slots ∧ slot = u64_add rel off.
Proof.
  unfold schedule_entries. rewrite list_elem_of_In, in_flat_map. split.
  - intros ([pk_str slots] & Hin & Hm).
    apply list_elem_of_In, elem_of_map_iter in Hin.
    destruct (pubkey_from_str pk_str) as [pk'|] eqn:Hpk; [|by destruct Hm].
    apply in_map_iff in Hm as (rel & [= <- <-] & Hrel). apply list_elem_of_In in Hrel.
    eauto 10.
  - intros (pk_str & slots & rel & Hls & Hpk & Hrel & ->).
    exists (pk_str, slots). split.
    + by apply list_elem_of_In, elem_of_map_iter.
    + rewrite Hpk. apply in_map_iff. exists rel. split; [done|]. by apply list_elem_of_In.
Qed.

(** By the answers [ei] and [ls] some validator that parses has [slot], counted from the
    first slot of the epoch, and it is [pk]. *)
Definition listed (ei : EpochInfo) (ls : gmap string (list Z)) (slot : Slot) (pk : Pubkey) : Prop :=
  ∃ pk_str slots rel, ls !! pk_str = Some slots ∧ pubkey_from_str pk_str = Some pk ∧
    rel ∈ slots ∧ slot = u64_add rel (u64_sub (absolute_slot ei) (slot_index ei)).

Lemma new_schedule_listed ei ls slot :
  let schedule := collect_map (schedule_entries (u64_sub (absolute_slot ei) (slot_index ei)) ls) in
  (∀ pk, leader_for_slot schedule slot = Some pk → listed ei ls slot pk) ∧
  (is_Some (leader_for_slot schedule slot) ↔ ∃ pk, listed ei ls slot pk).
Proof.
  intros schedule. unfold leader_for_slot, schedule. set (off := u64_sub _ _).
  assert (∀ pk, collect_map (schedule_entries off ls) !! slot = Some pk → listed ei ls slot pk) as Hsound.
  { intros pk Hpk%elem_of_collect_map. by apply elem_of_schedule_entries. }
  split; [done|]. split; [intros [pk ?]; eauto|]. intros [pk Hpk%elem_of_schedule_entries].
  apply collect_map_is_Some, list_elem_of_fmap. by exists (slot, pk).
Qed.

(** What a refresh leaves: after the answers [ei] and [ls] of the node it asked, the cache
    it builds from them, and otherwise the one it found. *)
Definition refreshed (rpc : LeaderAnswers RpcClient) (client : RpcClient) schedule : bool * gmap Slot Pubkey :=
  match get_epoch_info rpc client, get_leader_schedule rpc client with
  | Some ei, Some (Some ls) =>
      (true, collect_map (schedule_entries (u64_sub (absolute_slot ei) (slot_index ei)) ls))
  | _, _ => (false, schedule)
  end.

Lemma update_leader_cache_refreshed lb rpc client schedule :
  rpc_client lb = Done client →
  update_leader_cache lb rpc schedule =
    (Done (refreshed rpc client schedule).1, (refreshed rpc client schedule).2).
Proof.
  intros Hc. unfold update_leader_cache, refreshed. rewrite Hc, (prog_bind_done _ _ _ client schedule) by done.
  destruct (get_epoch_info rpc client) as [ei|]; [|done].
  by destruct (get_leader_schedule rpc client) as [[ls|]|].
Qed.

(** C26: A refresh asks a node that no other is known to be ahead of, and panics only when
    there is none.  It succeeds exactly when that node gives both the epoch and a
    schedule; then the cache answers with a leader of that schedule: a slot has a leader
    exactly when some parseable validator lists it, shifted by the epoch's first slot; the
    leader is one that lists it, hence the one that does when the schedule gives each slot
    to one validator.  The answer does not depend on the order the maps are iterated in.
    After any failure the cache is as it was. *)
Theorem update_leader_cache_spec lb rpc schedule :
  lb_wf lb →
  (server_to_slot lb = ∅ → ∃ why, update_leader_cache lb rpc schedule = (Panicked why, schedule)) ∧
  (server_to_slot lb ≠ ∅ → ∃ client, most_current lb client ∧
    match get_epoch_info rpc client, get_leader_schedule rpc client with
    | Some ei, Some (Some ls) =>
        ∃ schedule', update_leader_cache lb rpc schedule = (Done true, schedule') ∧
        ∀ slot,
          (∀ pk, leader_for_slot schedule' slot = Some pk → listed ei ls slot pk) ∧
          (is_Some (leader_for_slot schedule' slot) ↔ ∃ pk, listed ei ls slot pk) ∧
          (∀ pk, listed ei ls slot pk → (∀ pk', listed ei ls slot pk' → pk' = pk) →
            leader_for_slot schedule' slot = Some pk)
    | _, _ => update_leader_cache lb rpc schedule = (Done false, schedule)
    end).
Proof.
  intros Hwf. split.
  - intros Hnone. unfold update_leader_cache. rewrite (rpc_client_none _ _ Hnone). by eexists.
  - intros Hne. destruct (rpc_client_current _ lb Hwf Hne) as (client & Hc & Hcur).
    exists client. split; [done|]. rewrite (update_leader_cache_refreshed _ _ _ _ Hc). unfold refreshed.
    destruct (get_epoch_info rpc client) as [ei|]; [|done].
    destruct (get_leader_schedule rpc client) as [[ls|]|]; [|done..].
    cbn [fst snd]. eexists. split; [reflexivity|]. intros slot.
    destruct (new_schedule_listed ei ls slot) as [Hsound Hsome]. split; [done|]. split; [done|].
    intros pk Hpk Huniq. destruct (proj2 Hsome (ex_intro _ pk Hpk)) as [pk' Hpk'].
    rewrite Hpk'. f_equal. eauto.
Qed.

(** A failed refresh, of any kind, reports failure and leaves the cache as it
    was; over a whole run of the thread the cache is the one of the last refresh
    that succeeded, and every turn is reported. *)
Theorem refresh_thread_spec inputs clients schedule reports :
  Forall2 (λ i client, rpc_client i.1 = Done client) inputs clients →
  ∃ schedule' reports',
    refresh_thread (Some <$> inputs) (schedule, reports) = (Done Running, (schedule', reports')) ∧
    length reports' = (length reports + length inputs)%nat ∧
    schedule' = default schedule
      (last (omap (λ '(i, client),
         match refreshed i.2 client ∅ with
         | (true, m) => Some m
         | (false, _) => None
         end) (zip inputs clients))).
Proof.
  intros Hall. revert schedule reports.
  induction Hall as [|[lb rpc] client inputs clients Hc _ IH]; intros schedule reports.
  { exists schedule, reports. split_and!; [done|cbn; lia|done]. }
  cbn in *. unfold mbind, Prog_bind. cbn. rewrite (update_leader_cache_refreshed _ _ _ schedule Hc).
  set (r := Build_RefreshReport _ _ _).
  destruct (IH (refreshed rpc client schedule).2 (reports ++ [r])) as (schedule' & reports' & Hrun & Hlen & Hlast).
  exists schedule', reports'. split_and!; [done|rewrite Hlen, length_app; cbn; lia|].
  rewrite Hlast. unfold refreshed. destruct (get_epoch_info rpc client) as [ei|]; [|done].
  destruct (get_leader_schedule rpc client) as [[ls|]|]; cbn; [|done..].
  rewrite last_cons. by destruct (last _).
Qed.

Lemma elem_of_leaders_for_slots schedule slots pk :
  pk ∈ leaders_for_slots schedule slots ↔ ∃ s, s ∈ slots ∧ schedule !! s = Some pk.
Proof. unfold leaders_for_slots. rewrite elem_of_list_to_set, list_elem_of_omap. naive_solver. Qed.

(** A validator is scheduled exactly when some slot is its own. *)
Lemma is_scheduled_validator_iff schedule pk :
  is_scheduled_validator schedule pk = true ↔ ∃ s, leader_for_slot schedule s = Some pk.
Proof.
  unfold is_scheduled_validator, leader_for_slot.
  rewrite existsb_elem. setoid_rewrite bool_decide_eq_true. split.
  - intros ([s pk'] & Hin%elem_of_map_iter & Heq). cbn in Heq. subst. eauto.
  - intros (s & Hs). exists (s, pk). by rewrite elem_of_map_iter.
Qed.

Lemma leaders_for_slots_nil schedule : leaders_for_slots schedule [] = ∅.
Proof. done. Qed.
End schedule_cache_theorems.

(** ** Concrete inputs *)

(** Validator [K1] leads slots 0 and 1 of an epoch that starts at slot 100, [K2] slot 2;
    the key [bad] does not parse. *)
Definition toy_schedule : gmap string (list Z) :=
  {["K1" := [0; 1]; "K2" := [2]; "bad" := [3]]}.
Definition toy_epoch : EpochInfo := {| absolute_slot := 107; slot_index := 7 |}.

(** The first of two nodes is ahead, and the other does not answer. *)
Definition toy_balancer : LoadBalancer string :=
  {| server_to_slot := {["ws://a"%string := 107; "ws://b"%string := 90]};
     server_to_rpc_client := {["ws://a"%string := "http://a"%string; "ws://b"%string := "http://b"%string]} |}.
Definition toy_answers : LeaderAnswers string :=
  {| get_epoch_info url := if bool_decide (url = "http://a"%string) then Some toy_epoch else None;
     get_leader_schedule _ := Some (Some toy_schedule) |}.

Lemma update_leader_cache_spec_witness :
  let schedule := (update_leader_cache toy_balancer toy_answers ∅).2 in
  (update_leader_cache toy_balancer toy_answers ∅).1 = Done true ∧
  leader_for_slot schedule 102 = Some "2"%char ∧
  ∃ client, most_current toy_balancer client.
Proof.
  intros schedule. split; [vm_refl|]. split; [vm_refl|].
  destruct (update_leader_cache_spec toy_balancer toy_answers ∅) as [_ Hspec]; [unfold lb_wf; vm_refl|].
  destruct Hspec as (client & Hcur & _); [discriminate|]. by exists client.
Defined.

Lemma refresh_thread_spec_witness :
  let mute : LeaderAnswers string := {| get_epoch_info _ := None; get_leader_schedule _ := None |} in
  let inputs := [(toy_balancer, toy_answers); (toy_balancer, mute)] in
  ∃ schedule reports,
    refresh_thread (Some <$> inputs) (∅, []) = (Done Running, (schedule, reports)) ∧
    length reports = 2%nat ∧ schedule !! 101 = Some "1"%char.
Proof.
  intros mute inputs.
  destruct (refresh_thread_spec inputs ["http://a"; "http://a"]%string ∅ []) as (schedule & reports & Hr & Hlen & ->).
  { repeat constructor. }
  eexists _, reports. split; [exact Hr|]. split; [exact Hlen|]. vm_refl.
Defined.
