(* ===== verification/HealthManager.v ===== *)
(** * Health monitoring ([relayer/src/health_manager.rs])

    The manager thread as a state machine over the three channels it selects on,
    and the specification of the shared health state: it is decided at the last
    check tick, by the age of the last slot at that time. *)

From S2P Require Import Prelude External Instances.
Local Open Scope Z_scope.

Inductive HealthState := Unhealthy | Healthy.
#[global] Instance HealthState_eq_dec : EqDecision HealthState.
Proof. solve_decision. Defined.

(** [HealthState as i64], for the metrics *)
Definition health_state_i64 (s : HealthState) : Z :=
  match s with Unhealthy => 0 | Healthy => 1 end.

(** The shared state, the thread's locals, the slots forwarded downstream and the
    datapoints reported.  Times are [Instant]s in nanoseconds. *)
Record HealthManager := {
  state : HealthState;
  last_update : Z;
  slot_sender_max_len : Z;
  slots_forwarded : list Z;
  health_reports : list Z;
  channel_reports : list Z }.

(** What the [select!] of one iteration receives: a check tick with the clock it
    then reads; a slot ([None]: the channel is disconnected), whether the
    downstream channel accepts it, and the clock; a metrics tick.  Each comes
    with the length of the downstream channel read at the end of the iteration. *)
Inductive HealthEvent :=
| CheckTick (now : Z)
| SlotReceived (maybe_slot : option Z) (downstream_alive : bool) (now : Z)
| ChannelTick.

Definition check_health_at (missing_slot_unhealthy_threshold last now : Z) : HealthState :=
  if now - last <=? missing_slot_unhealthy_threshold then Healthy else Unhealthy.

Section health_manager.
Variable missing_slot_unhealthy_threshold : Z.

(** [HealthManager::new] at time [now]. *)
Definition HealthManager_new (now : Z) : HealthManager :=
  {| state := Unhealthy; last_update := now; slot_sender_max_len := 0;
     slots_forwarded := []; health_reports := []; channel_reports := [] |}.

Definition health_select (ev : HealthEvent) : Prog HealthManager Empty_set unit :=
  match ev with
  | CheckTick now =>
      modify (λ h,
        let new_health_state :=
          check_health_at missing_slot_unhealthy_threshold (last_update h) now in
        {h with state := new_health_state;
                health_reports ::= (λ l, l ++ [health_state_i64 new_health_state])})
  | SlotReceived maybe_slot downstream_alive now =>
      slot ← unwrap "error receiving slot, exiting" maybe_slot;
      assert downstream_alive "error forwarding slot, exiting" ;;
      modify (λ h, {h with slots_forwarded ::= (λ l, l ++ [slot]); last_update := now})
  | ChannelTick =>
      modify (λ h, {h with channel_reports ::= (λ l, l ++ [slot_sender_max_len h]);
                           slot_sender_max_len := 0})
  end.

Definition health_iteration (i : HealthEvent * Z) : Prog HealthManager Empty_set unit :=
  health_select i.1 ;;
  modify (λ h, {h with slot_sender_max_len ::= (λ m, Z.max m i.2)}).

Definition manager_thread := run_loop health_iteration.

(** ** Specification *)

(** The time of the last slot among the events, [start] when there is none. *)
Definition last_slot_time (start : Z) (evs : list HealthEvent) : Z :=
  default start (last (omap (λ ev,
    match ev with SlotReceived (Some _) true now => Some now | _ => None end) evs)).

(** The state the shared variable must hold after the events. *)
Fixpoint health_spec (start : Z) (cur : HealthState) (evs : list HealthEvent) : HealthState :=
  match evs with
  | [] => cur
  | CheckTick now :: evs' =>
      health_spec start (check_health_at missing_slot_unhealthy_threshold start now) evs'
  | SlotReceived _ _ now :: evs' => health_spec now cur evs'
  | ChannelTick :: evs' => health_spec start cur evs'
  end.

(** No event makes the thread panic. *)
Definition channels_alive (evs : list HealthEvent) : Prop :=
  ∀ s alive now, SlotReceived s alive now ∈ evs → is_Some s ∧ alive = true.

Definition slots_of (evs : list HealthEvent) : list Z :=
  omap (λ ev, match ev with SlotReceived s _ _ => s | _ => None end) evs.

(** ** Theorems *)

Lemma channels_alive_cons ev evs :
  channels_alive (ev :: evs) → channels_alive evs.
Proof. unfold channels_alive. set_solver. Qed.

Lemma manager_thread_refines evs lens h :
  channels_alive evs → length lens = length evs →
  ∃ h', manager_thread (Some <$> zip evs lens) h = (Done Running, h') ∧
    state h' = health_spec (last_update h) (state h) evs ∧
    last_update h' = last_slot_time (last_update h) evs ∧
    slots_forwarded h' = slots_forwarded h ++ slots_of evs.
Proof.
  revert lens h; induction evs as [|ev evs IH]; intros [|len lens] h Halive Hlen;
    try done.
  { exists h. cbn. by rewrite app_nil_r. }
  assert (Hev : ∃ h1, health_iteration (ev, len) h = (Done tt, h1) ∧
    health_spec (last_update h1) (state h1) evs
      = health_spec (last_update h) (state h) (ev :: evs) ∧
    last_slot_time (last_update h1) evs = last_slot_time (last_update h) (ev :: evs) ∧
    slots_forwarded h1 ++ slots_of evs = slots_forwarded h ++ slots_of (ev :: evs)).
  { destruct h as [st lu ml fw hr cr]. destruct ev as [now|s alive now|].
    - eexists. split; [reflexivity|]. done.
    - destruct (Halive s alive now) as [[slot ->] ->]; [set_solver|].
      eexists. split; [reflexivity|]. unfold last_slot_time. cbn. rewrite last_cons.
      split_and!; [done|by destruct (last _)|by rewrite <-app_assoc].
    - eexists. split; [reflexivity|]. done. }
  destruct Hev as (h1 & Hit & <- & <- & <-).
  change (manager_thread (Some <$> zip (ev :: evs) (len :: lens)) h) with
    ((health_iteration (ev, len) ;; manager_thread (Some <$> zip evs lens)) h).
  rewrite (prog_bind_done _ _ _ _ _ Hit).
  apply IH; [by eapply channels_alive_cons|by injection Hlen].
Qed.

Lemma health_spec_snoc start cur evs ev :
  health_spec start cur (evs ++ [ev]) =
  match ev with
  | CheckTick now => check_health_at missing_slot_unhealthy_threshold
      (default start (last (omap (λ e, match e with SlotReceived _ _ t => Some t | _ => None end) evs))) now
  | _ => health_spec start cur evs
  end.
Proof.
  revert start cur; induction evs as [|[now|s al now|] evs IH]; intros start cur; cbn.
  - by destruct ev.
  - by rewrite IH.
  - rewrite IH. destruct ev; try done. rewrite last_cons. by destruct (last _).
  - by rewrite IH.
Qed.

Lemma last_slot_time_alive start evs :
  channels_alive evs →
  default start (last (omap (λ e, match e with SlotReceived _ _ t => Some t | _ => None end) evs))
  = last_slot_time start evs.
Proof.
  intros Halive. unfold last_slot_time. do 2 f_equal.
  induction evs as [|[now|s al now|] evs IH]; cbn.
  - done.
  - apply IH. by eapply channels_alive_cons.
  - destruct (Halive s al now) as [[x ->] ->]; [set_solver|].
    f_equal. apply IH. by eapply channels_alive_cons.
  - apply IH. by eapply channels_alive_cons.
Qed.

(** A check tick decides, until the next one. *)
Lemma health_spec_after_check start cur evs now quiet :
  channels_alive evs → (∀ t, CheckTick t ∉ quiet) →
  health_spec start cur (evs ++ CheckTick now :: quiet) =
    check_health_at missing_slot_unhealthy_threshold (last_slot_time start evs) now.
Proof.
  intros Hevs Hquiet. rewrite <-(last_slot_time_alive start evs Hevs).
  rewrite <-(health_spec_snoc start cur evs (CheckTick now)).
  induction quiet as [|ev quiet IH] using rev_ind; [done|].
  rewrite app_comm_cons, app_assoc, health_spec_snoc.
  destruct ev as [t| |]; [exfalso; apply (Hquiet t); set_solver|..]; apply IH; set_solver.
Qed.

(** C25: A manager started at [start] forwards every slot it receives downstream,
    in order, and after a check tick at [now] the shared state is Healthy exactly
    when the last slot (the start, if there was none) is at most the threshold
    old; until the next check tick it keeps that value, whatever arrives. *)
Theorem health_after_check start evs lens now quiet qlens :
  channels_alive (evs ++ CheckTick now :: quiet) →
  length lens = S (length evs) → length qlens = length quiet →
  (∀ t, CheckTick t ∉ quiet) →
  ∃ h, manager_thread (Some <$> zip (evs ++ CheckTick now :: quiet) (lens ++ qlens))
         (HealthManager_new start) = (Done Running, h) ∧
    state h = check_health_at missing_slot_unhealthy_threshold (last_slot_time start evs) now ∧
    slots_forwarded h = slots_of (evs ++ quiet).
Proof.
  intros Halive Hlens Hqlens Hquiet.
  destruct (manager_thread_refines (evs ++ CheckTick now :: quiet) (lens ++ qlens)
    (HealthManager_new start) Halive) as (h & Hrun & Hst & _ & Hfw).
  { rewrite !length_app. cbn. lia. }
  exists h. split_and!; [done| |].
  - rewrite Hst. cbn [HealthManager_new last_update state].
    apply health_spec_after_check; [unfold channels_alive in *; set_solver|done].
  - rewrite Hfw. cbn. unfold slots_of. by rewrite !omap_app.
Qed.

(** A manager that has not received a single slot reports Healthy at its first
    check tick when that comes within the threshold, as its ticks every half
    threshold do. *)
Theorem healthy_without_slots start now len :
  now - start <= missing_slot_unhealthy_threshold →
  ∃ h, manager_thread [Some (CheckTick now, len)] (HealthManager_new start)
         = (Done Running, h) ∧
    state h = Healthy ∧ slots_forwarded h = [].
Proof.
  intros Hle. eexists. split; [reflexivity|]. cbn. split; [|done].
  unfold constant, check_health_at. by rewrite (proj2 (Z.leb_le _ _) Hle).
Qed.

(** The thread never outlives its channels: a disconnected slot channel or a
    gone downstream receiver makes it panic at that iteration. *)
Theorem health_iteration_panics s alive now len h :
  (∃ why h', health_iteration (SlotReceived s alive now, len) h = (Panicked why, h')) ↔
  s = None ∨ alive = false.
Proof.
  unfold health_iteration, health_select. prog_unfold.
  destruct s as [s|], alive; cbn; (split; [|intros []]); intros; try naive_solver;
    destruct_and?; try (by left); try (by right); eauto.
Qed.
End health_manager.

(** ** Concrete inputs *)

Lemma health_after_check_witness :
  let evs := [SlotReceived (Some 7) true 5; SlotReceived (Some 8) true 9] in
  channels_alive (evs ++ [CheckTick 12; SlotReceived (Some 9) true 30]) ∧
  ∃ h, manager_thread 10 (Some <$> zip (evs ++ [CheckTick 12; SlotReceived (Some 9) true 30])
        ([1; 1; 1] ++ [1])) (HealthManager_new 0) = (Done Running, h) ∧
    state h = Healthy ∧ slots_forwarded h = [7; 8; 9].
Proof.
  intros evs.
  assert (Halive : channels_alive (evs ++ [CheckTick 12; SlotReceived (Some 9) true 30])).
  { intros s alive now Hin. cbn in Hin. rewrite !elem_of_cons in Hin.
    destruct Hin as [[= -> -> ->]|[[= -> -> ->]|[[=]|[[= -> -> ->]|[]%not_elem_of_nil]]]]; by split. }
  split; [exact Halive|].
  destruct (health_after_check 10 0 evs [1; 1; 1] 12 [SlotReceived (Some 9) true 30] [1])
    as (h & Hr & Hs & Hf); [exact Halive|done|done| |by exists h].
  intros t Hin%list_elem_of_singleton. discriminate Hin.
Defined.
