(* ===== verification/Refreshers.v ===== *)
(** * The background refreshers

    [core/src/staked_nodes_updater_service.rs]: the stake map of the QUIC servers.
    [transaction-relayer/src/main.rs], [refresh_address_lookup_table] and its
    thread: the cache of address lookup tables the packet filters read.  Both ask the node
    that the load balancer chooses; what each node answers is an input. *)

From S2P Require Import Prelude External Instances Ofac LoadBalancer ScheduleCache.
Local Open Scope Z_scope.

(** ** Stakes *)

(** The fields of [RpcVoteAccountInfo] and [RpcVoteAccountStatus] the code reads. *)
Record VoteAccount := { node_pubkey : string; activated_stake : Z }.
Record VoteAccounts := { current : list VoteAccount; delinquent : list VoteAccount }.

Definition PK_TO_STAKE_REFRESH_DURATION : Z := 5 * nanos_per_sec.

Section staked_nodes.
Context `{Sdk} `{!HashOrder string}.
(** [RpcClient] *)
Variable RpcClient : Type.
(** [solana_streamer::StakedNodes] and its constructor from stakes and overrides *)
Variable StakedNodes : Type.
Variable StakedNodes_new : gmap Pubkey Z → gmap Pubkey Z → StakedNodes.

(** [client_error::ClientError] *)
Inductive ClientError := RpcError.

(** The pairs collected into the stake map. *)
Definition stake_entries (vote_accounts : VoteAccounts) : list (Pubkey * Z) :=
  omap (λ vote_account,
    pk ← pubkey_from_str (node_pubkey vote_account);
    Some (pk, activated_stake vote_account))
    (current vote_accounts ++ delinquent vote_accounts).

(** The two variables the function writes through, [last_stakes] and
    [pubkey_stake_map]; [now] and [now'] are its clock readings, [get_vote_accounts] what
    the node of each client answers. *)
Definition try_refresh_pk_to_stake (now now' : Z) (rpc_load_balancer : LoadBalancer RpcClient)
    (get_vote_accounts : RpcClient → option VoteAccounts)
    : Prog (Z * gmap Pubkey Z) ClientError bool :=
  '(last_stakes, _) ← gets id;
  if PK_TO_STAKE_REFRESH_DURATION <? elapsed now last_stakes then
    client ← call (rpc_client rpc_load_balancer);
    vote_accounts ← ok_or RpcError (get_vote_accounts client);
    modify (λ _, (now', collect_map (stake_entries vote_accounts))) ;;
    mret true
  else mret false.

(** The service thread: its [last_stakes] and the map shared with the servers. *)
Record StakeService := {
  last_stakes : Z;
  shared_staked_nodes : StakedNodes }.

Record StakeInput := {
  si_now : Z;
  si_now' : Z;
  si_balancer : LoadBalancer RpcClient;
  si_vote_accounts : RpcClient → option VoteAccounts }.

Definition staked_nodes_iteration (staked_nodes_overrides : gmap Pubkey Z) (i : StakeInput)
    : Prog StakeService Empty_set unit :=
  λ st,
    let '(r, (ls, stake_map)) :=
      try_refresh_pk_to_stake (si_now i) (si_now' i) (si_balancer i) (si_vote_accounts i)
        (last_stakes st, ∅) in
    match r with
    | Done true =>
        (Done tt, {| last_stakes := ls;
                     shared_staked_nodes := StakedNodes_new stake_map staked_nodes_overrides |})
    | Done false | Fail _ =>
        (Done tt, {| last_stakes := ls; shared_staked_nodes := shared_staked_nodes st |})
    | Panicked why =>
        (Panicked why, {| last_stakes := ls; shared_staked_nodes := shared_staked_nodes st |})
    end.

Definition staked_nodes_thread (staked_nodes_overrides : gmap Pubkey Z) :=
  run_loop (staked_nodes_iteration staked_nodes_overrides).
End staked_nodes.

Arguments last_stakes {StakedNodes}.
Arguments shared_staked_nodes {StakedNodes}.
Arguments Build_StakeService {StakedNodes}.
Arguments si_now {RpcClient}.
Arguments si_now' {RpcClient}.
Arguments si_balancer {RpcClient}.
Arguments si_vote_accounts {RpcClient}.
Arguments staked_nodes_iteration {_ _ RpcClient StakedNodes}.
Arguments staked_nodes_thread {_ _ RpcClient StakedNodes}.

(** ** Lookup tables *)

Section lookup_tables.
Context `{Sdk} `{!HashOrder string}.
(** [RpcClient] *)
Variable RpcClient : Type.
(** [Account.data] and [AddressLookupTable::deserialize], the addresses of the table *)
Variable AccountData : Type.
Variable deserialize : AccountData → option (list Pubkey).

Abbreviation TableCache := (gmap Pubkey (AddressLookupTableAccount Pubkey)).

(** The insertion loop, as the successive states of the shared map, each visible
    to the readers; the last is the state the loop ends in. *)
Fixpoint insert_tables (accounts : list (Pubkey * AccountData)) (lookup_table : TableCache)
    : list TableCache * TableCache :=
  match accounts with
  | [] => ([], lookup_table)
  | (pubkey, data) :: accounts' =>
      match deserialize data with
      | None => insert_tables accounts' lookup_table
      | Some addrs =>
          let lookup_table' :=
            <[pubkey := {| key := pubkey; addresses := addrs |}]> lookup_table in
          let '(states, final) := insert_tables accounts' lookup_table' in
          (lookup_table' :: states, final)
      end
  end.

Definition new_pubkeys (accounts : list (Pubkey * AccountData)) : gset Pubkey :=
  list_to_set (omap (λ '(pubkey, data), deserialize data ≫= λ _, Some pubkey) accounts).

(** [retain] deletes the other keys one at a time, in an order of its own. *)
Fixpoint delete_tables (closed : list Pubkey) (lookup_table : TableCache)
    : list TableCache * TableCache :=
  match closed with
  | [] => ([], lookup_table)
  | pubkey :: closed' =>
      let lookup_table' := delete pubkey lookup_table in
      let '(states, final) := delete_tables closed' lookup_table' in
      (lookup_table' :: states, final)
  end.

(** What the node of each client answers to [get_program_accounts], [None] for an error. *)
Abbreviation AccountsAnswer := (RpcClient → option (list (Pubkey * AccountData))).

(** The result, the states the shared map goes through, and the one it ends in. *)
Definition refresh_address_lookup_table `{!HashOrder Pubkey}
    (rpc_load_balancer : LoadBalancer RpcClient) (get_program_accounts : AccountsAnswer)
    (lookup_table : TableCache) : Outcome unit unit * list TableCache * TableCache :=
  match rpc_client rpc_load_balancer with
  | Done client =>
      match get_program_accounts client with
      | None => (Fail tt, [], lookup_table)
      | Some accounts =>
          let '(states, inserted) := insert_tables accounts lookup_table in
          let closed := filter (λ pk, pk ∉ new_pubkeys accounts) (map_iter inserted).*1 in
          let '(states', final) := delete_tables closed inserted in
          (Done tt, states ++ states', final)
      end
  | Fail e => match e with end
  | Panicked why => (Panicked why, [], lookup_table)
  end.

(** The refresher thread: one refresh at the start, then one per elapsed
    [refresh_duration], checked at every tick; an error is logged. *)
Record Refresher := { last_refresh : Z; table_cache : TableCache }.

Definition refresh_logged `{!HashOrder Pubkey} (rpc_load_balancer : LoadBalancer RpcClient)
    (get_program_accounts : AccountsAnswer) : Prog Refresher Empty_set unit :=
  λ st,
    let '(r, _, lookup_table) :=
      refresh_address_lookup_table rpc_load_balancer get_program_accounts (table_cache st) in
    (match r with Panicked why => Panicked why | Done _ | Fail _ => Done tt end,
     {st with table_cache := lookup_table}).

Record RefreshInput := {
  fr_now : Z;
  fr_now' : Z;
  fr_balancer : LoadBalancer RpcClient;
  fr_accounts : AccountsAnswer }.

Definition refresher_iteration `{!HashOrder Pubkey} (refresh_duration : Z) (i : RefreshInput)
    : Prog Refresher Empty_set unit :=
  refreshed_at ← gets last_refresh;
  if elapsed (fr_now i) refreshed_at <? refresh_duration then mret tt
  else
    refresh_logged (fr_balancer i) (fr_accounts i) ;;
    modify (λ st, {st with last_refresh := fr_now' i}).

(** The thread from its start: the balancer and the answers of the seeding refresh, and the
    clock after it. *)
Definition lookup_table_refresher `{!HashOrder Pubkey} (refresh_duration : Z)
    (rpc_load_balancer : LoadBalancer RpcClient) (seed : AccountsAnswer) (start : Z)
    (inputs : list (option RefreshInput)) : Prog Refresher Empty_set LoopStatus :=
  refresh_logged rpc_load_balancer seed ;;
  modify (λ st, {st with last_refresh := start}) ;;
  run_loop (refresher_iteration refresh_duration) inputs.

(** What the cache must hold after a refresh: the tables that deserialize. *)
Definition tables_of (accounts : list (Pubkey * AccountData)) : TableCache :=
  collect_map (omap (λ '(pubkey, data),
    addrs ← deserialize data; Some (pubkey, {| key := pubkey; addresses := addrs |})) accounts).
End lookup_tables.

Arguments refresh_address_lookup_table {_ _ RpcClient AccountData} _ {_}.
Arguments insert_tables {_ AccountData}.
Arguments new_pubkeys {_ AccountData}.
Arguments tables_of {_ AccountData}.
Arguments fr_now {_ RpcClient AccountData}.
Arguments fr_now' {_ RpcClient AccountData}.
Arguments fr_balancer {_ RpcClient AccountData}.
Arguments fr_accounts {_ RpcClient AccountData}.
Arguments refresh_logged {_ _ RpcClient AccountData} _ {_}.
Arguments refresher_iteration {_ _ RpcClient AccountData} _ {_}.
Arguments lookup_table_refresher {_ _ RpcClient AccountData} _ {_}.

(** ** Theorems: stakes *)

Section staked_nodes_theorems.
Context `{Sdk} `{!HashOrder string} `{!HashOrderLaws string}.
Variable RpcClient StakedNodes : Type.
Variable StakedNodes_new : gmap Pubkey Z → gmap Pubkey Z → StakedNodes.
Implicit Types (st : StakeService StakedNodes) (i : StakeInput RpcClient).

(** One turn replaces the shared stakes only when more than five seconds have
    passed since the last success and the node it asks, one that no other is known to be
    ahead of, answered; then they are the answer's, and the timer restarts.  Otherwise, an
    error included, stakes and timer are unchanged, so an error is retried.  A validator's
    stake is the one of its last vote account, current ones before delinquent ones. *)
Theorem staked_nodes_iteration_spec overrides i st :
  lb_wf (si_balancer i) → server_to_slot (si_balancer i) ≠ ∅ →
  ∃ client st', most_current (si_balancer i) client ∧
    staked_nodes_iteration StakedNodes_new overrides i st = (Done tt, st') ∧
    match si_vote_accounts i client with
    | Some va =>
        if PK_TO_STAKE_REFRESH_DURATION <? elapsed (si_now i) (last_stakes st) then
          ∃ stakes, st' = {| last_stakes := si_now' i;
                             shared_staked_nodes := StakedNodes_new stakes overrides |} ∧
            ∀ pk z, stakes !! pk = Some z ↔
              ∃ l1 l2, stake_entries va = l1 ++ (pk, z) :: l2 ∧ pk ∉ l2.*1
        else st' = st
    | None => st' = st
    end.
Proof.
  intros Hwf Hne. destruct (rpc_client_current _ _ Hwf Hne) as (client & Hc & Hcur).
  unfold staked_nodes_iteration, try_refresh_pk_to_stake. destruct st as [ls shared].
  cbn [last_stakes]. unfold gets, mbind at 1, Prog_bind at 1. cbn beta iota delta [id].
  exists client. destruct (PK_TO_STAKE_REFRESH_DURATION <? elapsed (si_now i) ls).
  - rewrite Hc. unfold call, ok_or, mbind, Prog_bind, mret, Prog_ret, modify, throw. cbn beta iota.
    destruct (si_vote_accounts i client) as [va|]; eexists; (split; [done|]; split; [reflexivity|]); [|done].
    eexists. split; [reflexivity|]. intros pk z. apply lookup_collect_map.
  - eexists. split; [done|]. split; [reflexivity|]. by destruct (si_vote_accounts i client).
Qed.
End staked_nodes_theorems.

(** ** Theorems: lookup tables *)

Section lookup_table_theorems.
Context `{Sdk} `{!HashOrder string} `{!HashOrderLaws string} `{!HashOrder Pubkey} `{!HashOrderLaws Pubkey}.
Variable RpcClient AccountData : Type.
Variable deserialize : AccountData → option (list Pubkey).
Implicit Types (m : gmap Pubkey (AddressLookupTableAccount Pubkey))
  (accounts : list (Pubkey * AccountData)).

Abbreviation insert_tables := (insert_tables deserialize).
Abbreviation new_pubkeys := (new_pubkeys deserialize).
Abbreviation tables_of := (tables_of deserialize).

Lemma delete_tables_spec closed m :
  (delete_tables closed m).2 = foldl (λ m k, delete k m) m closed ∧
  ∀ s pk, s ∈ (delete_tables closed m).1 → pk ∉ closed → s !! pk = m !! pk.
Proof.
  revert m; induction closed as [|k closed IH]; intros m; cbn.
  { split; [done|]. by intros s pk ?%not_elem_of_nil. }
  destruct (IH (delete k m)) as [Hfin Hst].
  destruct (delete_tables closed (delete k m)) as [states final]. cbn in *. split; [done|].
  intros s pk Hs Hpk. apply not_elem_of_cons in Hpk as [Hne Hpk].
  apply elem_of_cons in Hs as [->|Hs]; [|rewrite (Hst s pk) by done];
    by rewrite lookup_delete_ne.
Qed.

Lemma lookup_foldl_delete m (closed : list Pubkey) pk :
  foldl (λ m k, delete k m) m closed !! pk = if decide (pk ∈ closed) then None else m !! pk.
Proof.
  revert m; induction closed as [|k closed IH]; intros m; cbn.
  { case_decide; [by set_solver|done]. }
  rewrite IH, lookup_delete. repeat case_decide; set_solver.
Qed.

Lemma tables_of_cons pk data accounts :
  tables_of ((pk, data) :: accounts) =
  match deserialize data with
  | Some addrs => tables_of accounts ∪ {[pk := {| key := pk; addresses := addrs |}]}
  | None => tables_of accounts
  end.
Proof.
  unfold Refreshers.tables_of. cbn. destruct (deserialize data) as [addrs|]; cbn; [|done].
  unfold collect_map. cbn.
  assert (Hgen : ∀ (l : list (Pubkey * AddressLookupTableAccount Pubkey)) m0,
    foldl (λ m kv, <[kv.1:=kv.2]> m) m0 l = foldl (λ m kv, <[kv.1:=kv.2]> m) ∅ l ∪ m0).
  { intros l. induction l as [|kv l IH] using rev_ind; intros m0; cbn.
    - by rewrite (left_id_L ∅ (∪)).
    - rewrite !foldl_app. cbn. by rewrite IH, insert_union_l. }
  rewrite Hgen. done.
Qed.

Lemma insert_tables_spec accounts m :
  (insert_tables accounts m).2 = tables_of accounts ∪ m ∧
  ∀ s pk, s ∈ (insert_tables accounts m).1 → is_Some (m !! pk) → is_Some (s !! pk).
Proof.
  revert m; induction accounts as [|[k data] accounts IH]; intros m.
  { cbn. split; [by rewrite (left_id_L ∅ (∪))|]. by intros s pk ?%not_elem_of_nil. }
  rewrite tables_of_cons. cbn. destruct (deserialize data) as [addrs|]; [|apply IH].
  set (t := Build_AddressLookupTableAccount k addrs).
  destruct (IH (<[k := t]> m)) as [Hfin Hst].
  destruct (Refreshers.insert_tables deserialize accounts (<[k := t]> m)) as [states final].
  cbn in *. split.
  - rewrite Hfin, <-(assoc_L (∪)). by rewrite insert_union_singleton_l.
  - intros s pk Hs Hpk. assert (Hpk' : is_Some (<[k:=t]> m !! pk))
      by (rewrite lookup_insert_is_Some'; by right).
    apply elem_of_cons in Hs as [->|Hs]; [done|]. by apply Hst.
Qed.

Lemma dom_tables_of accounts : dom (tables_of accounts) = new_pubkeys accounts.
Proof.
  unfold Refreshers.new_pubkeys.
  induction accounts as [|[k data] accounts IH]; [apply dom_empty_L|].
  rewrite tables_of_cons. cbn. destruct (deserialize data) as [addrs|]; cbn; [|done].
  rewrite dom_union_L, dom_singleton_L, IH. set_solver.
Qed.

(** What the insertions and the [retain] do to the cache, given the node's tables. *)
Lemma refreshed_tables accounts m :
  let '(states, inserted) := insert_tables accounts m in
  let closed := filter (λ pk, pk ∉ new_pubkeys accounts) (map_iter inserted).*1 in
  let '(states', final) := delete_tables closed inserted in
  final = tables_of accounts ∧
  ∀ s pk, s ∈ states ++ states' → is_Some (m !! pk) → pk ∈ new_pubkeys accounts → is_Some (s !! pk).
Proof.
  pose proof (insert_tables_spec accounts m) as [Hins Hinst].
  destruct (insert_tables accounts m) as [states inserted] eqn:Ei. cbn in Hins, Hinst.
  intros closed.
  pose proof (delete_tables_spec closed inserted) as [Hdel Hdelst].
  destruct (delete_tables closed inserted) as [states' final] eqn:Ed. cbn in Hdel, Hdelst.
  assert (Hclosed : ∀ pk, pk ∈ closed ↔ pk ∉ new_pubkeys accounts ∧ is_Some (inserted !! pk)).
  { intros pk. unfold closed. rewrite list_elem_of_filter. f_equiv.
    rewrite list_elem_of_fmap. split.
    - intros ([k v] & -> & Hkv%elem_of_map_iter). by exists v.
    - intros [v Hv]. exists (pk, v). by rewrite elem_of_map_iter. }
  split.
  - subst final. apply map_eq. intros pk. rewrite lookup_foldl_delete.
    case_decide as Hc; rewrite Hclosed, <-dom_tables_of in Hc.
    + destruct Hc as [Hc _]. symmetry. by apply not_elem_of_dom.
    + subst inserted. rewrite lookup_union.
      destruct (tables_of accounts !! pk) as [t|] eqn:Ht; [by rewrite union_Some_l|].
      destruct (m !! pk) as [t|] eqn:Hm; [|done]. destruct Hc. split.
      * by apply not_elem_of_dom.
      * rewrite lookup_union, Ht, Hm. by eexists.
  - intros s pk Hs Hm Hnew. apply elem_of_app in Hs as [Hs|Hs]; [by apply Hinst|].
    rewrite (Hdelst s pk) by (done || (rewrite Hclosed; by intros [? _])).
    subst inserted. rewrite lookup_union_is_Some. by right.
Qed.

Lemma refresh_address_lookup_table_ends lb (answer : RpcClient → option (list (Pubkey * AccountData))) m :
  lb_wf lb → server_to_slot lb ≠ ∅ →
  match (refresh_address_lookup_table deserialize lb answer m).1.1 with Panicked _ => False | _ => True end.
Proof.
  intros Hwf Hne. destruct (rpc_client_current _ _ Hwf Hne) as (client & Hc & _).
  unfold refresh_address_lookup_table. rewrite Hc. destruct (answer client) as [accounts|]; [|done].
  destruct (insert_tables accounts m) as [states inserted]. by destruct (delete_tables _ _).
Qed.

(** C38: A refresh asks a node that no other is known to be ahead of.  After its answer
    the cache holds exactly its tables that deserialize, closed ones removed; a failed RPC
    call leaves it as it was.  In every state the readers can see on the way, a table that
    was cached and is still open is present.  Without a server the refresh panics before
    it touches the cache. *)
Theorem refresh_address_lookup_table_spec lb (answer : RpcClient → option (list (Pubkey * AccountData))) m :
  lb_wf lb →
  let '(r, states, final) := refresh_address_lookup_table deserialize lb answer m in
  (server_to_slot lb = ∅ → states = [] ∧ final = m ∧ ∃ why, r = Panicked why) ∧
  (server_to_slot lb ≠ ∅ → ∃ client, most_current lb client ∧
    match answer client with
    | Some accounts =>
        r = Done tt ∧ final = tables_of accounts ∧
        ∀ s pk, s ∈ states → is_Some (m !! pk) → pk ∈ new_pubkeys accounts → is_Some (s !! pk)
    | None => r = Fail tt ∧ states = [] ∧ final = m
    end).
Proof.
  intros Hwf. unfold refresh_address_lookup_table.
  destruct (decide (server_to_slot lb = ∅)) as [Hnone|Hne].
  { rewrite (rpc_client_none _ _ Hnone). split; [by eauto|done]. }
  destruct (rpc_client_current _ _ Hwf Hne) as (client & -> & Hcur).
  destruct (answer client) as [accounts|] eqn:Ha.
  - pose proof (refreshed_tables accounts m) as Hspec. destruct (insert_tables accounts m) as [states inserted].
    cbv zeta in *. destruct (delete_tables _ _) as [states' final].
    split; [done|]. intros _. exists client. by rewrite Ha.
  - split; [done|]. intros _. exists client. by rewrite Ha.
Qed.

(** A refresh with servers to ask never panics, and neither does a turn of the thread. *)
Lemma refresh_logged_done lb (answer : RpcClient → option (list (Pubkey * AccountData))) st :
  lb_wf lb → server_to_slot lb ≠ ∅ → ∃ st', refresh_logged deserialize lb answer st = (Done tt, st').
Proof.
  intros Hwf Hne. unfold refresh_logged.
  pose proof (refresh_address_lookup_table_ends lb answer (table_cache st) Hwf Hne) as Hends.
  destruct (refresh_address_lookup_table _ _ _ _) as [[[u|e|w] states] final]; [by eexists..|done].
Qed.

Lemma refresher_iteration_done refresh_duration (i : RefreshInput RpcClient AccountData) st :
  lb_wf (fr_balancer i) → server_to_slot (fr_balancer i) ≠ ∅ →
  ∃ st', refresher_iteration deserialize refresh_duration i st = (Done tt, st').
Proof.
  intros Hwf Hne. unfold refresher_iteration. rewrite (prog_bind_done (gets _) _ _ _ _ eq_refl).
  destruct (_ <? _); [by eexists|].
  destruct (refresh_logged_done (fr_balancer i) (fr_accounts i) st Hwf Hne) as [st1 Hr].
  rewrite (prog_bind_done _ _ _ _ _ Hr). by eexists.
Qed.

(** The thread goes on whatever the nodes answer, as long as there are some: it panics only
    when a refresh that is due finds no server. *)
Theorem lookup_table_refresher_runs refresh_duration lb (seed : RpcClient → option (list (Pubkey * AccountData)))
    start inputs st :
  lb_wf lb → server_to_slot lb ≠ ∅ →
  Forall (λ i, lb_wf (fr_balancer i) ∧ server_to_slot (fr_balancer i) ≠ ∅) (live_inputs inputs) →
  ∃ r st', lookup_table_refresher deserialize refresh_duration lb seed start inputs st = (Done r, st').
Proof.
  intros Hwf Hne Hall. unfold lookup_table_refresher.
  destruct (refresh_logged_done lb seed st Hwf Hne) as [st1 Hseed].
  rewrite (prog_bind_done _ _ _ _ _ Hseed), (prog_bind_done (modify _) _ _ tt _ eq_refl).
  match goal with |- context [run_loop _ _ ?s] => generalize s end.
  induction inputs as [|[i|] inputs IH]; intros st2; [by eexists _, _| |by eexists _, _].
  apply Forall_cons in Hall as [[Hwfi Hnei] Hall]. cbn [run_loop].
  destruct (refresher_iteration_done refresh_duration i st2 Hwfi Hnei) as [st3 Hturn].
  rewrite (prog_bind_done _ _ _ _ _ Hturn). by apply IH.
Qed.
End lookup_table_theorems.

(** ** Theorems: the servers they ask *)

Section servers.
Context `{Sdk} `{!HashOrder string} `{!HashOrderLaws string} `{!HashOrder Slot}.
Context `{!HashOrder Pubkey} `{!HashOrderLaws Pubkey}.
Variable RpcClient StakedNodes AccountData : Type.
Variable rpc_client_new : string → RpcClient.

(** With a server in the arguments the three background threads go on for ever: whatever
    slots the subscription threads have stored in between, however the nodes answer, no
    refresh panics. *)
Theorem refreshers_never_panic servers t :
  rtc lb_step (threads_init RpcClient rpc_client_new servers) t → servers ≠ [] →
  let lb := balancer_of rpc_client_new servers t in
  (∀ rpc st, ∃ st', refresh_iteration (lb, rpc) st = (Done tt, st')) ∧
  (∀ (new : gmap Pubkey Z → gmap Pubkey Z → StakedNodes) overrides i st, si_balancer i = lb →
    ∃ st', staked_nodes_iteration new overrides i st = (Done tt, st')) ∧
  (∀ (deserialize : AccountData → option (list Pubkey)) refresh_duration i st, fr_balancer i = lb →
    ∃ st', refresher_iteration deserialize refresh_duration i st = (Done tt, st')).
Proof.
  intros Hrtc Hne lb. destruct (balancer_of_wf _ _ _ _ Hrtc) as [Hwf Hsome]. specialize (Hsome Hne).
  fold lb in Hwf, Hsome. split_and!.
  - intros rpc [schedule reports]. destruct (rpc_client_current _ lb Hwf Hsome) as (client & Hc & _).
    unfold refresh_iteration. cbn [fst snd]. rewrite (update_leader_cache_refreshed _ _ _ _ Hc). by eexists.
  - intros new overrides i st Hi. rewrite <-Hi in Hwf, Hsome.
    destruct (staked_nodes_iteration_spec _ _ new overrides i st Hwf Hsome) as (client & st' & _ & Hr & _).
    by exists st'.
  - intros deserialize refresh_duration i st Hi. rewrite <-Hi in Hwf, Hsome.
    by apply refresher_iteration_done.
Qed.
End servers.

(** ** Concrete inputs *)

Lemma refresh_address_lookup_table_spec_witness :
  let accounts : list (Pubkey * option (list Pubkey)) := [("a"%char, Some ["x"%char]); ("b"%char, None)] in
  let stale : AddressLookupTableAccount Pubkey := {| key := "c"%char; addresses := [] |} in
  let lb : LoadBalancer string := {| server_to_slot := {["ws://a"%string := 3]};
    server_to_rpc_client := {["ws://a"%string := "http://a"%string]} |} in
  (refresh_address_lookup_table id lb (λ _, Some accounts) {["c"%char := stale]}).2
    = {["a"%char := {| key := "a"%char; addresses := ["x"%char] |}]}.
Proof.
  intros accounts stale lb.
  pose proof (refresh_address_lookup_table_spec string _ id lb (λ _, Some accounts) {["c"%char := stale]}) as Hspec.
  destruct (refresh_address_lookup_table id lb _ _) as [[r states] final].
  destruct Hspec as [_ Hspec]; [unfold lb_wf; vm_refl|].
  destruct Hspec as (client & _ & _ & -> & _); [discriminate|]. vm_refl.
Defined.

Lemma refreshers_never_panic_witness :
  let lb := balancer_of id toy_servers toy_threads in
  ∀ rpc st, ∃ st', refresh_iteration (H := toy_sdk) (lb, rpc) st = (Done tt, st').
Proof.
  destruct (refreshers_never_panic string unit unit id toy_servers toy_threads (rtc_refl _ _)) as [Hr _];
    [discriminate|]. exact Hr.
Defined.
