(* ===== verification/AuthInterceptor.v ===== *)
(** * Claims and the token interceptor ([relayer/src/auth_interceptor.rs])

    The claims a JWT carries, their serialized form, and the gRPC interceptor that
    lets a request through when its [authorization] header holds a verified
    token. *)

From S2P Require Import Prelude External Instances.
Local Open Scope Z_scope.

(** ** [str::starts_with] and [str::split] *)

(** [Some rest] when [s] is [sep] followed by [rest]. *)
Fixpoint strip_prefix (sep s : string) : option string :=
  match sep, s with
  | EmptyString, _ => Some s
  | String c sep', String c' s' => if Ascii.eqb c c' then strip_prefix sep' s' else None
  | String _ _, EmptyString => None
  end.

(** [s.split(sep)] for a non-empty [sep]; the length of [s] is enough fuel. *)
Fixpoint split_fuel (fuel : nat) (sep s : string) : list string :=
  match fuel with
  | O => [s]
  | S fuel' =>
      match strip_prefix sep s with
      | Some rest => EmptyString :: split_fuel fuel' sep rest
      | None =>
          match s with
          | EmptyString => [EmptyString]
          | String c s' =>
              match split_fuel fuel' sep s' with
              | p :: ps => String c p :: ps
              | [] => [String c EmptyString]
              end
          end
      end
  end.
Definition split (sep s : string) : list string := split_fuel (S (String.length s)) sep s.

Definition contains (sep s : string) : Prop := ∃ s1 s2, s = (s1 +:+ sep +:+ s2)%string.

Section auth_interceptor.
Context `{Sdk} `{!IpText} `{!Chrono}.

Record Claims := {
  client_ip : IpAddr;
  client_pubkey : Pubkey;
  expires_at_utc : NaiveDateTime }.

Record DeSerClaims := {
  ds_client_ip : string;
  ds_client_pubkey : string;
  expires_at_unix_ts : Z }.

Definition claims_is_expired (now : NaiveDateTime) (c : Claims) : bool :=
  expires_at_utc c <=? now.

(** [impl From<&DeSerClaims> for Claims], with its three unwraps *)
Definition Claims_from {S} (d : DeSerClaims) : Prog S Status Claims :=
  ip ← unwrap "AddrParseError" (ip_from_str (ds_client_ip d));
  pubkey ← unwrap "ParsePubkeyError" (pubkey_from_str (ds_client_pubkey d));
  expires ← unwrap "called `Option::unwrap()` on a `None` value"
    (from_timestamp (expires_at_unix_ts d));
  mret {| client_ip := ip; client_pubkey := pubkey; expires_at_utc := expires |}.

(** [impl From<Claims> for DeSerClaims] *)
Definition DeSerClaims_from (c : Claims) : DeSerClaims :=
  {| ds_client_ip := ip_to_string (client_ip c);
     ds_client_pubkey := pubkey_to_string (client_pubkey c);
     expires_at_unix_ts := timestamp (expires_at_utc c) |}.

#[global] Instance DeSerClaims_eq_dec : EqDecision DeSerClaims.
Proof. solve_decision. Defined.
#[global] Instance DeSerClaims_countable : Countable DeSerClaims.
Proof.
  refine (inj_countable'
    (λ d, (ds_client_ip d, ds_client_pubkey d, expires_at_unix_ts d))
    (λ x, {| ds_client_ip := x.1.1; ds_client_pubkey := x.1.2; expires_at_unix_ts := x.2 |}) _).
  by intros [].
Defined.

Context `{!Jwt DeSerClaims}.

Record AuthInterceptor := {
  verifying_key : VerifyingKey;
  expected_signing_algo : AlgorithmType }.

Definition BEARER : string := "Bearer ".

Definition permission_denied (m : string) : Status := {| code := PermissionDenied; message := m |}.
Definition invalid_argument (m : string) : Status := {| code := InvalidArgument; message := m |}.
Definition internal (m : string) : Status := {| code := Internal; message := m |}.
Definition resource_exhausted (m : string) : Status :=
  {| code := ResourceExhausted; message := m |}.

(** The value of the [authorization] header: [None] when it is absent,
    [Some None] when it is not a visible ASCII string. *)
Definition AuthHeader : Type := option (option string).

(** The interceptor keeps no state: [S] is whatever the server holds. *)
Definition jwt_from_header {S} (self : AuthInterceptor) (meta : AuthHeader)
    : Prog S Status (AlgorithmType * DeSerClaims) :=
  match meta with
  | Some auth_header =>
      auth_header ← ok_or (invalid_argument "Failed to parse authorization header.") auth_header;
      fail_if (if strip_prefix BEARER auth_header then false else true)
        (permission_denied "Invalid authorization header format. Must conform to `Authorization: Bearer ${token}`.") ;;
      let split := split BEARER auth_header in
      fail_if (negb (length split =? 2)%nat) (permission_denied "Missing jwt token.") ;;
      token ← unwrap "index out of bounds" (split !! 1%nat);
      jwt_token ← ok_or (permission_denied "Token failed verification.")
        (verify_with_key (verifying_key self) token);
      assert (bool_decide (jwt_token.1 = expected_signing_algo self)) "assertion failed" ;;
      mret jwt_token
  | None => throw (permission_denied "The authorization header is missing.")
  end.

(** [Interceptor::call]: the result is the extension added to the request. *)
Definition interceptor_call {S} (self : AuthInterceptor) (meta : AuthHeader)
    : Prog S Status Pubkey :=
  jwt_token ← jwt_from_header self meta;
  claims ← Claims_from jwt_token.2;
  mret (client_pubkey claims).
End auth_interceptor.

(** ** Lemmas on strings *)

Lemma string_app_cons c s1 s2 : (String c s1 +:+ s2)%string = String c (s1 +:+ s2).
Proof. done. Qed.
Lemma string_app_nil s : (EmptyString +:+ s)%string = s.
Proof. done. Qed.

Lemma strip_prefix_spec sep s rest : strip_prefix sep s = Some rest ↔ s = (sep +:+ rest)%string.
Proof.
  revert s; induction sep as [|c sep IH]; intros s; cbn.
  { rewrite string_app_nil. naive_solver. }
  rewrite string_app_cons.
  destruct s as [|c' s]; [done|].
  destruct (Ascii.eqb_spec c c'); [rewrite IH|]; naive_solver.
Qed.

Lemma split_fuel_nonempty fuel sep s : split_fuel fuel sep s ≠ [].
Proof.
  destruct fuel; cbn; [done|]. destruct (strip_prefix sep s); [done|].
  destruct s; [done|]. by destruct (split_fuel _ _ _).
Qed.

Lemma split_fuel_absent fuel sep s : ¬ contains sep s → split_fuel fuel sep s = [s].
Proof.
  revert s; induction fuel as [|fuel IH]; intros s Hno; cbn; [done|].
  destruct (strip_prefix sep s) as [rest|] eqn:E.
  { apply strip_prefix_spec in E. destruct Hno. by exists EmptyString, rest. }
  destruct s as [|c s]; [done|]. rewrite IH; [done|].
  intros (s1 & s2 & ->). apply Hno. by exists (String c s1), s2.
Qed.

Lemma string_app_length s1 s2 :
  String.length (s1 +:+ s2)%string = (String.length s1 + String.length s2)%nat.
Proof. induction s1 as [|c s1 IH]; [done|]. rewrite string_app_cons. cbn. lia. Qed.

Lemma split_fuel_present fuel sep s :
  sep ≠ EmptyString → (String.length s < fuel)%nat → contains sep s →
  (2 ≤ length (split_fuel fuel sep s))%nat.
Proof.
  intros Hsep. revert s; induction fuel as [|fuel IH]; intros s Hlen Hc; [lia|]. cbn.
  destruct (strip_prefix sep s) as [rest|] eqn:E.
  { cbn. pose proof (split_fuel_nonempty fuel sep rest). destruct (split_fuel _ _ _); cbn; [done|lia]. }
  destruct Hc as ([|c s1] & s2 & ->).
  { by rewrite string_app_nil, (proj2 (strip_prefix_spec sep (sep +:+ s2) s2) eq_refl) in E. }
  rewrite string_app_cons in *. cbn in Hlen |- *.
  assert (Hge : (2 ≤ length (split_fuel fuel sep (s1 +:+ sep +:+ s2)))%nat).
  { apply IH; [lia|by exists s1, s2]. }
  destruct (split_fuel _ _ _); cbn in *; lia.
Qed.

(** The header parser finds the token of [Bearer <token>] exactly. *)
Lemma split_bearer token :
  (length (split BEARER (BEARER +:+ token)) = 2%nat ↔ ¬ contains BEARER token) ∧
  (¬ contains BEARER token → split BEARER (BEARER +:+ token) = [EmptyString; token]).
Proof.
  assert (Hsplit : split BEARER (BEARER +:+ token) =
    EmptyString :: split_fuel (String.length (BEARER +:+ token)) BEARER token).
  { unfold split. cbn [split_fuel].
    by rewrite (proj2 (strip_prefix_spec BEARER (BEARER +:+ token) token) eq_refl). }
  rewrite Hsplit. split; [split|].
  - intros Hlen Hc.
    pose proof (split_fuel_present (String.length (BEARER +:+ token)) BEARER token) as Hp.
    cbn [length] in Hlen. specialize (Hp ltac:(done) ltac:(rewrite string_app_length; cbn; lia) Hc). lia.
  - intros Hno. by rewrite split_fuel_absent.
  - intros Hno. by rewrite split_fuel_absent.
Qed.

Lemma list_ascii_of_string_app s1 s2 :
  String.list_ascii_of_string (s1 +:+ s2)%string = String.list_ascii_of_string s1 ++ String.list_ascii_of_string s2.
Proof. induction s1 as [|c s1 IH]; [done|]. rewrite string_app_cons. cbn. by rewrite IH. Qed.

Lemma bearer_inj s t :
  Some (Some (BEARER +:+ s)%string) = Some (Some (BEARER +:+ t)%string) → s = t.
Proof. intros Heq. by injection Heq. Qed.

(** ** Theorems *)

Section auth_interceptor_theorems.
Context `{Sdk} `{!IpText} `{!Chrono} `{!Jwt DeSerClaims}.

Lemma Claims_from_done {S} d (s : S) c s' :
  Claims_from d s = (Done c, s') ↔
  s' = s ∧ ip_from_str (ds_client_ip d) = Some (client_ip c) ∧
  pubkey_from_str (ds_client_pubkey d) = Some (client_pubkey c) ∧
  from_timestamp (expires_at_unix_ts d) = Some (expires_at_utc c).
Proof.
  unfold Claims_from. prog_unfold.
  destruct (ip_from_str (ds_client_ip d)), (pubkey_from_str (ds_client_pubkey d)),
    (from_timestamp (expires_at_unix_ts d)); cbn; destruct c; naive_solver.
Qed.

Lemma Claims_from_no_fail {S} d (s : S) e s' : Claims_from d s ≠ (Fail e, s').
Proof.
  unfold Claims_from. prog_unfold.
  by destruct (ip_from_str (ds_client_ip d)), (pubkey_from_str (ds_client_pubkey d)),
    (from_timestamp (expires_at_unix_ts d)).
Qed.

Lemma jwt_from_header_done {S} self meta (s : S) jwt s' :
  jwt_from_header self meta s = (Done jwt, s') ↔
  s' = s ∧ ∃ token, meta = Some (Some (BEARER +:+ token)%string) ∧ ¬ contains BEARER token ∧
    verify_with_key (verifying_key self) token = Some jwt ∧
    jwt.1 = expected_signing_algo self.
Proof.
  unfold jwt_from_header. destruct meta as [[h|]|]; prog_unfold; [|naive_solver..].
  destruct (strip_prefix BEARER h) as [token|] eqn:E; cycle 1.
  { split; [done|]. intros (_ & token & [= ->] & _).
    by rewrite (proj2 (strip_prefix_spec BEARER (BEARER +:+ token) token) eq_refl) in E. }
  apply strip_prefix_spec in E as ->.
  destruct (split_bearer token) as [Hlen Hsplit].
  destruct (Nat.eqb_spec (length (split BEARER (BEARER +:+ token))) 2) as [H2|H2]; cbn [negb].
  - apply Hlen in H2. rewrite (Hsplit H2). cbn.
    destruct (verify_with_key (verifying_key self) token) as [jwt'|] eqn:Ev; cycle 1.
    { split; [done|]. intros (_ & t & ?%bearer_inj & _ & Hv & _). congruence. }
    case_bool_decide as Halg; cbn; split; try done.
    + intros [= <- <-]. split; [done|]. by exists token.
    + intros (-> & t & ?%bearer_inj & _ & Hv & _). congruence.
    + intros (-> & t & ?%bearer_inj & _ & Hv & Halg'). congruence.
  - split; [done|]. intros (_ & t & <-%bearer_inj & Hno & _). by apply Hlen in Hno.
Qed.

(** C30: A request passes the interceptor, tagged with a key, exactly when its
    header is [Bearer <token>], the token verifies under the service's key with
    the expected algorithm, its claims parse, and the key is theirs; nothing
    else, state included, is looked at or changed. *)
Theorem interceptor_call_iff {S} self meta (s : S) pk s' :
  interceptor_call self meta s = (Done pk, s') ↔
  s' = s ∧ ∃ token d c,
    meta = Some (Some (BEARER +:+ token)%string) ∧ ¬ contains BEARER token ∧
    verify_with_key (verifying_key self) token = Some (expected_signing_algo self, d) ∧
    Claims_from d s = (Done c, s) ∧ client_pubkey c = pk.
Proof.
  unfold interceptor_call. split.
  - intros ([alg d] & s1 & Hj & Hr)%prog_bind_inv.
    apply jwt_from_header_done in Hj as (-> & token & -> & Hno & Hv & Halg). cbn in Halg. subst.
    apply prog_bind_inv in Hr as (c & s2 & Hc & [= <- <-]). cbn in Hc.
    pose proof Hc as (-> & _)%Claims_from_done. split; [done|].
    by exists token, d, c.
  - intros (-> & token & d & c & -> & Hno & Hv & Hc & <-).
    assert (Hj : jwt_from_header self (Some (Some (BEARER +:+ token)%string)) s =
      (Done (expected_signing_algo self, d), s)).
    { apply jwt_from_header_done. split; [done|]. by exists token. }
    rewrite (prog_bind_done _ _ _ _ _ Hj), (prog_bind_done _ _ _ _ _ Hc). done.
Qed.

Context `{!SdkLaws} `{!IpTextLaws} `{!ChronoLaws}.

Lemma claims_roundtrip_done {S} c (s : S) base ttl :
  datetime_add base ttl = Some (expires_at_utc c) →
  Claims_from (DeSerClaims_from c) s =
    (Done {| client_ip := client_ip c; client_pubkey := client_pubkey c;
             expires_at_utc := timestamp (expires_at_utc c) * nanos_per_sec |}, s).
Proof.
  intros Hadd. pose proof (from_timestamp_timestamp _ _ _ Hadd) as Hts.
  apply Claims_from_done. cbn. by rewrite ip_text_roundtrip, pubkey_text_roundtrip, Hts.
Qed.

Lemma timestamp_bounds t :
  timestamp t * nanos_per_sec <= t < timestamp t * nanos_per_sec + nanos_per_sec.
Proof.
  unfold timestamp, nanos_per_sec.
  pose proof (Z.div_mod t 1000000000 ltac:(lia)).
  pose proof (Z.mod_pos_bound t 1000000000 ltac:(lia)). lia.
Qed.

Lemma signed_no_bearer sk vk alg d token :
  JwtKeyPair sk vk → sign_with_key sk alg d = Some token → ¬ contains BEARER token.
Proof.
  intros Hpair Hsign (s1 & s2 & ->). eapply jwt_compact; [done|].
  rewrite !list_ascii_of_string_app. set_solver.
Qed.

(** What the service signs, the interceptor accepts. *)
Lemma interceptor_accepts_signed {S} sk self c token (s : S) base ttl :
  JwtKeyPair sk (verifying_key self) →
  datetime_add base ttl = Some (expires_at_utc c) →
  sign_with_key sk (expected_signing_algo self) (DeSerClaims_from c) = Some token →
  interceptor_call self (Some (Some (BEARER +:+ token)%string)) s = (Done (client_pubkey c), s).
Proof.
  intros Hpair Hadd Hsign.
  assert (Hj : jwt_from_header self (Some (Some (BEARER +:+ token)%string)) s =
    (Done (expected_signing_algo self, DeSerClaims_from c), s)).
  { apply jwt_from_header_done. split; [done|]. exists token.
    split_and!; [done|by eapply signed_no_bearer|by eapply jwt_sign_verify|done]. }
  unfold interceptor_call. rewrite (prog_bind_done _ _ _ _ _ Hj). cbn [snd].
  by rewrite (prog_bind_done _ _ _ _ _ (claims_roundtrip_done c s base ttl Hadd)).
Qed.

(** Claims survive serialization: address and key exactly, the expiry rounded
    down to its second, so a parsed token never expires later than the claims it
    was made from, nor a second or more earlier. *)
Theorem claims_roundtrip {S} c (s : S) base ttl :
  datetime_add base ttl = Some (expires_at_utc c) →
  ∃ c', Claims_from (DeSerClaims_from c) s = (Done c', s) ∧
    client_ip c' = client_ip c ∧ client_pubkey c' = client_pubkey c ∧
    expires_at_utc c' <= expires_at_utc c < expires_at_utc c' + nanos_per_sec.
Proof.
  intros Hadd. pose proof (timestamp_bounds (expires_at_utc c)).
  eexists. split; [by eapply claims_roundtrip_done|]. cbn. split_and!; try done; lia.
Qed.

(** A token signed for any claims with the service's key pair passes the
    interceptor at any time and from any address: neither the expiry nor the
    client address in the claims is compared with anything. *)
Theorem interceptor_ignores_expiry_and_ip {S} sk self c token (s : S) base ttl now :
  JwtKeyPair sk (verifying_key self) →
  datetime_add base ttl = Some (expires_at_utc c) →
  sign_with_key sk (expected_signing_algo self) (DeSerClaims_from c) = Some token →
  claims_is_expired now c = true →
  interceptor_call self (Some (Some (BEARER +:+ token)%string)) s = (Done (client_pubkey c), s).
Proof.
  intros Hpair Hadd Hsign _. by eapply interceptor_accepts_signed.
Qed.
End auth_interceptor_theorems.

(** ** Concrete inputs *)

(** Claims of the key ["a"] that expire after a thousand seconds, and its token. *)
Definition toy_claims : Claims :=
  {| client_ip := IpV4 1 2 3 4; client_pubkey := "a"%char; expires_at_utc := 1000 * nanos_per_sec |}.
Definition toy_token : string :=
  String "k"%char (countable_text (Rs256, DeSerClaims_from toy_claims)).
Definition toy_interceptor : AuthInterceptor :=
  {| verifying_key := "k"%char; expected_signing_algo := Rs256 |}.

Lemma interceptor_ignores_expiry_and_ip_witness :
  claims_is_expired (2000 * nanos_per_sec) toy_claims = true ∧
  interceptor_call toy_interceptor (Some (Some (BEARER +:+ toy_token)%string)) tt
    = (Done "a"%char, tt).
Proof.
  split; [reflexivity|].
  apply (interceptor_ignores_expiry_and_ip ("k"%char : SigningKey (Jwt := toy_jwt DeSerClaims)) toy_interceptor toy_claims toy_token tt
    0 (1000 * nanos_per_sec) (2000 * nanos_per_sec)); [apply toy_key_pair|reflexivity..].
Defined.
