(* ===== verification/AuthChallenges.v ===== *)
(** * Pending authentication challenges ([relayer/src/auth_challenges.rs])

    A priority queue keyed by client address, at most one challenge for each,
    whose front is the challenge that expires first. *)

From S2P Require Import Prelude External Instances AuthInterceptor.
Local Open Scope Z_scope.

Record AuthChallenge `{Sdk} := {
  challenge : string;
  access_claims : Claims;
  refresh_claims : Claims;
  challenge_expires_at_utc : NaiveDateTime }.

Section auth_challenge_order.
Context `{Sdk}.

(** [AuthChallenge::is_expired], with [Utc::now()] as an argument *)
Definition challenge_is_expired (now : NaiveDateTime) (c : AuthChallenge) : bool :=
  challenge_expires_at_utc c <=? now.

(** [impl Ord for AuthChallenge], and the order of [Reverse<AuthChallenge>] *)
Definition challenge_cmp (c1 c2 : AuthChallenge) : comparison :=
  Z.compare (challenge_expires_at_utc c1) (challenge_expires_at_utc c2).
Definition reverse_cmp (c1 c2 : AuthChallenge) : comparison := challenge_cmp c2 c1.
End auth_challenge_order.

Section auth_challenges.
Context `{Sdk} `{Q : !KeyedPriorityQueue IpAddr AuthChallenge reverse_cmp}.

(** The contents of [AuthChallenges]: each operation below holds its lock. *)
Abbreviation AuthChallenges := (kpq (KeyedPriorityQueue := Q)).

(** The [while let] of [remove_all_expired]; [clock n] is the time its [n]-th
    turn reads.  [None] means the fuel ran out. *)
Fixpoint remove_expired_loop (fuel : nat) (clock : nat → NaiveDateTime) (n : nat)
    (inner : AuthChallenges) : option AuthChallenges :=
  match fuel with
  | O => None
  | S fuel' =>
      match kpq_peek inner with
      | Some (_, auth_challenge) =>
          if challenge_is_expired (clock n) auth_challenge
          then remove_expired_loop fuel' clock (S n) (kpq_pop inner)
          else Some inner
      | None => Some inner
      end
  end.

Definition challenges_remove_all_expired {E} (clock : nat → NaiveDateTime)
    : Prog AuthChallenges E unit :=
  λ inner,
    match remove_expired_loop (S (kpq_len inner)) clock 0 inner with
    | Some inner' => (Done tt, inner')
    | None => (Panicked "out of fuel", inner)
    end.
Definition challenges_push {E} (ip : IpAddr) (c : AuthChallenge) : Prog AuthChallenges E unit :=
  modify (kpq_push ip c).
Definition challenges_len {E} : Prog AuthChallenges E nat := gets kpq_len.
Definition challenges_get_priority {E} (ip : IpAddr)
    : Prog AuthChallenges E (option AuthChallenge) := gets (kpq_get_priority ip).
Definition challenges_remove {E} (ip : IpAddr) : Prog AuthChallenges E unit :=
  modify (kpq_remove ip).
End auth_challenges.

(** The challenges still valid at an instant. *)
Definition valid_at `{Sdk} (now : NaiveDateTime) (m : gmap IpAddr AuthChallenge)
    : gmap IpAddr AuthChallenge :=
  filter (λ kv, challenge_is_expired now kv.2 = false) m.

Section auth_challenges_theorems.
Context `{Sdk} `{Q : !KeyedPriorityQueue IpAddr AuthChallenge reverse_cmp}
  `{!KeyedPriorityQueueLaws (K := IpAddr) (P := AuthChallenge)}.

Lemma challenge_is_expired_mono now now' c :
  now <= now' → challenge_is_expired now c = true → challenge_is_expired now' c = true.
Proof. unfold challenge_is_expired. rewrite !Z.leb_le. lia. Qed.

Lemma valid_at_delete now k c m :
  m !! k = Some c → challenge_is_expired now c = true →
  valid_at now (delete k m) = valid_at now m.
Proof.
  intros Hm Hexp. unfold valid_at. rewrite map_filter_delete_not; [done|].
  intros c' Hc'. cbn. congruence.
Qed.

Lemma valid_at_front now q k c :
  kpq_peek q = Some (k, c) → challenge_is_expired now c = false →
  valid_at now (kpq_view q) = kpq_view q.
Proof.
  intros [_ Hmax]%kpq_peek_some Hexp. apply map_filter_id. intros k' c' Hc'. cbn.
  specialize (Hmax _ _ Hc').
  unfold reverse_cmp, challenge_cmp, challenge_is_expired in *.
  rewrite Z.leb_gt in *. rewrite Z.compare_gt_iff in Hmax. lia.
Qed.

Lemma remove_expired_loop_spec fuel clock n q :
  (∀ i j, (i ≤ j)%nat → clock i <= clock j) →
  (kpq_len q < fuel)%nat →
  ∃ m q', (n ≤ m ≤ n + kpq_len q)%nat ∧ remove_expired_loop fuel clock n q = Some q' ∧
    kpq_view q' = valid_at (clock m) (kpq_view q).
Proof.
  intros Hclock. revert n q; induction fuel as [|fuel IH]; intros n q Hlen; [lia|]. cbn.
  destruct (kpq_peek q) as [[k c]|] eqn:Hpeek.
  - destruct (challenge_is_expired (clock n) c) eqn:Hexp.
    + pose proof (kpq_peek_some _ _ _ Hpeek) as [Hc _].
      pose proof (kpq_pop_view _ _ _ Hpeek) as Hpop.
      assert (Hsize : kpq_len q = S (kpq_len (kpq_pop q))).
      { rewrite !kpq_len_view, Hpop, map_size_delete_Some by eauto.
        assert (size (kpq_view q) ≠ 0%nat); [|lia].
        intros Hz%map_size_empty_iff. by rewrite Hz in Hc. }
      destruct (IH (S n) (kpq_pop q)) as (m & q' & Hm & Hq' & Hview); [lia|].
      exists m, q'. split_and!; [lia..|done|].
      rewrite Hview, Hpop. apply (valid_at_delete _ _ c); [done|].
      eapply challenge_is_expired_mono; [|done]. apply Hclock. lia.
    + exists n, q. split_and!; [lia..|done|]. symmetry. by eapply valid_at_front.
  - exists n, q. split_and!; [lia..|done|].
    apply kpq_peek_none in Hpeek as ->. symmetry. apply map_filter_empty.
Qed.

Lemma challenges_remove_all_expired_done {E} clock q :
  (∀ i j, (i ≤ j)%nat → clock i <= clock j) →
  ∃ m q', (m ≤ kpq_len q)%nat ∧
    challenges_remove_all_expired (E := E) clock q = (Done tt, q') ∧
    kpq_view q' = valid_at (clock m) (kpq_view q).
Proof.
  intros Hclock.
  destruct (remove_expired_loop_spec (S (kpq_len q)) clock 0 q Hclock) as (m & q' & Hm & Hq' & Hv);
    [lia|].
  exists m, q'. split_and!; [lia| |done]. unfold challenges_remove_all_expired. by rewrite Hq'.
Qed.

(** C37: With a clock that does not go back, the cleanup loop always ends, after at
    most one turn for each challenge held, and what it leaves is exactly the
    challenges not expired at the last time it read: popping from the front is
    as good as a scan of the whole queue. *)
Theorem remove_all_expired_spec {E} clock q :
  (∀ i j, (i ≤ j)%nat → clock i <= clock j) →
  ∃ m q', (m ≤ kpq_len q)%nat ∧
    challenges_remove_all_expired (E := E) clock q = (Done tt, q') ∧
    (∀ ip c, kpq_get_priority ip q' = Some c ↔
      kpq_get_priority ip q = Some c ∧ clock m < challenge_expires_at_utc c).
Proof.
  intros Hclock. destruct (challenges_remove_all_expired_done (E := E) clock q Hclock)
    as (m & q' & Hm & Hr & Hv).
  exists m, q'. split_and!; [done..|]. intros ip c.
  rewrite !kpq_get_priority_view, Hv. unfold valid_at, challenge_is_expired.
  rewrite map_lookup_filter_Some. cbn. by rewrite Z.leb_gt.
Qed.

(** The operations, on the map the queue holds. *)
Lemma challenges_push_view {E} ip c q :
  kpq_view (challenges_push (E := E) ip c q).2 = <[ip := c]> (kpq_view q).
Proof. apply kpq_push_view. Qed.
Lemma challenges_remove_view {E} ip q :
  kpq_view (challenges_remove (E := E) ip q).2 = delete ip (kpq_view q).
Proof. apply kpq_remove_view. Qed.
End auth_challenges_theorems.

(** ** The laws hold of map-based queues, and a concrete run *)

Lemma reverse_cmp_antisym `{Sdk} c1 c2 : reverse_cmp c1 c2 = CompOpp (reverse_cmp c2 c1).
Proof. apply Z.compare_antisym. Qed.
Lemma reverse_cmp_trans `{Sdk} c1 c2 c3 :
  reverse_cmp c1 c2 ≠ Gt → reverse_cmp c2 c3 ≠ Gt → reverse_cmp c1 c3 ≠ Gt.
Proof. unfold reverse_cmp, challenge_cmp. rewrite !Z.compare_gt_iff. lia. Qed.
#[global] Instance challenge_queue_laws `{Sdk} :
  @KeyedPriorityQueueLaws IpAddr AuthChallenge _ _ reverse_cmp (map_kpq reverse_cmp).
Proof. apply map_kpq_laws; [apply reverse_cmp_antisym|apply reverse_cmp_trans]. Qed.

(** ** Concrete inputs *)

(** Two challenges, expiring at 100 and at 300. *)
Definition toy_challenge (expires : Z) : AuthChallenge :=
  {| challenge := "123456789"; access_claims := toy_claims; refresh_claims := toy_claims;
     challenge_expires_at_utc := expires |}.
Definition toy_queue : gmap IpAddr AuthChallenge :=
  {[IpV4 1 2 3 4 := toy_challenge 100; IpV4 5 6 7 8 := toy_challenge 300]}.

Lemma remove_all_expired_spec_witness :
  let clock n := 200 + Z.of_nat n in
  (∀ i j, (i ≤ j)%nat → clock i <= clock j) ∧
  ∃ q', challenges_remove_all_expired (E := Empty_set) (Q := map_kpq reverse_cmp) clock toy_queue
      = (Done tt, q') ∧
    q' = {[IpV4 5 6 7 8 := toy_challenge 300]}.
Proof.
  intros clock. assert (Hclock : ∀ i j, (i ≤ j)%nat → clock i <= clock j) by (subst clock; cbn; lia).
  split; [exact Hclock|].
  destruct (remove_all_expired_spec (Q := map_kpq reverse_cmp) (E := Empty_set) clock toy_queue Hclock)
    as (m & q' & _ & Hr & _).
  exists q'. split; [exact Hr|].
  assert (Hrun : challenges_remove_all_expired (E := Empty_set) (Q := map_kpq reverse_cmp) clock toy_queue
    = (Done tt, {[IpV4 5 6 7 8 := toy_challenge 300]})) by (vm_refl).
  rewrite Hrun in Hr. by injection Hr.
Defined.
