(* ===== verification/AuthService.v ===== *)
(** * The authentication service ([relayer/src/auth_service.rs])

    The three gRPC handlers over the shared challenge queue, the policies of
    [transaction-relayer/src/main.rs] behind [ValidatorAuther], and the
    interleavings of concurrent handlers: each access to the queue takes its lock
    anew, so a handler is a sequence of atomic steps. *)

From S2P Require Import Prelude External Instances ScheduleCache HealthManager.
From S2P Require Import AuthInterceptor AuthChallenges.
Local Open Scope Z_scope.

(** [trait ValidatorAuther] *)
Class ValidatorAuther `{Sdk} (V : Type) := { is_authorized : V → Pubkey → bool }.

(** [main.rs]: the policies of the running relayer; the handle of the leader
    schedule is the schedule it holds when it is asked. *)
Inductive ValidatorStore `{Sdk} :=
| LeaderSchedule (cache : gmap Slot Pubkey)
| UserDefined (pubkeys : gset Pubkey).

#[global] Instance ValidatorAutherImpl `{Sdk} `{!HashOrder Slot} : ValidatorAuther ValidatorStore := {
  is_authorized store pubkey :=
    match store with
    | LeaderSchedule cache => is_scheduled_validator cache pubkey
    | UserDefined pubkeys => bool_decide (pubkey ∈ pubkeys)
    end }.

Definition AUTH_CHALLENGES_CAPACITY : Z := 100000.

(** [check_health] on the value read behind the shared lock *)
Definition check_health {S} (health_state : HealthState) : Prog S Status unit :=
  fail_if (negb (bool_decide (health_state = Healthy))) (internal "relayer is unhealthy").

(** [client_ip] on [req.remote_addr()] *)
Definition get_client_ip {S} (remote_addr : option IpAddr) : Prog S Status IpAddr :=
  ok_or (internal "request is missing IP address") remote_addr.

(** [generate_challenge_token]: nine samples of the generator *)
Definition generate_challenge_token (samples : nat → Ascii.ascii) : string :=
  String.string_of_list_ascii (map samples (seq 0 9)).

Record PbToken := { value : string; pb_expires_at_utc : Z }.

Section auth_service.
Context `{Sdk} `{!IpText} `{!Chrono} `{!Ed25519} `{!ProtoRoles} `{J : !Jwt DeSerClaims}.
Context `{Q : !KeyedPriorityQueue IpAddr AuthChallenge reverse_cmp}.
Context {V : Type} `{!ValidatorAuther V}.

(** The shared state, and the service's own fields. *)
Abbreviation Store := (kpq (KeyedPriorityQueue := Q)).
Record AuthServiceImpl := {
  validator_auther : V;
  signing_key : SigningKey (Jwt := J);
  service_verifying_key : VerifyingKey (Jwt := J);
  access_token_ttl : Z;
  refresh_token_ttl : Z;
  challenge_ttl : Z }.

Definition AuthServiceImpl_new {S} (auther : V) sk vk (access refresh challenge : Z)
    : Prog S Status (AuthServiceImpl * Store) :=
  access ← unwrap "access_token_ttl" (duration_from_std access);
  refresh ← unwrap "refresh_token_ttl" (duration_from_std refresh);
  challenge ← unwrap "challenge_ttl" (duration_from_std challenge);
  mret ({| validator_auther := auther; signing_key := sk; service_verifying_key := vk;
           access_token_ttl := access; refresh_token_ttl := refresh;
           challenge_ttl := challenge |}, kpq_default).

(** The task of [start_challenge_expiration_task]: a tick, then a cleanup, whose
    turns read the clock. *)
Definition challenge_expiration_task :=
  run_loop (E := Empty_set) (challenges_remove_all_expired (Q := Q)).

(** *** [generate_auth_challenge] *)

(** A request and what its handler reads besides the queue: the health state, the
    four times it reads the clock, the samples of the generator. *)
Record ChallengeRequest := {
  cr_health : HealthState;
  cr_remote_addr : option IpAddr;
  cr_role : Z;
  cr_pubkey : list Byte.byte;
  cr_now_expired : NaiveDateTime;
  cr_now_access : NaiveDateTime;
  cr_now_refresh : NaiveDateTime;
  cr_now_challenge : NaiveDateTime;
  cr_samples : nat → Ascii.ascii }.

(** Up to and including the capacity test: one access to the queue. *)
Definition challenge_begin (req : ChallengeRequest) : Prog Store Status IpAddr :=
  check_health (cr_health req) ;;
  len ← challenges_len;
  fail_if (AUTH_CHALLENGES_CAPACITY <=? Z.of_nat len) (resource_exhausted "System overloaded.") ;;
  get_client_ip (cr_remote_addr req).

(** The pubkey checks of a request for a new challenge. *)
Definition challenge_pubkey (self : AuthServiceImpl) (req : ChallengeRequest)
    : Prog Store Status Pubkey :=
  fail_if (negb (cr_role req =? role_validator)) (invalid_argument "Role must be validator.") ;;
  fail_if (negb (length (cr_pubkey req) =? PUBKEY_BYTES)%nat)
    (invalid_argument "Pubkey must be 32 bytes in length") ;;
  pubkey ← ok_or (invalid_argument "Invalid pubkey supplied.") (pubkey_try_from (cr_pubkey req));
  fail_if (negb (is_authorized (validator_auther self) pubkey))
    (permission_denied "The supplied pubkey is not authorized to generate a challenge.") ;;
  mret pubkey.

Definition utc_now_add (now ttl : Z) : Prog Store Status NaiveDateTime :=
  unwrap "overflow when adding a duration to a date" (datetime_add now ttl).

Definition new_challenge (self : AuthServiceImpl) (req : ChallengeRequest) (ip : IpAddr)
    (pubkey : Pubkey) : Prog Store Status AuthChallenge :=
  let challenge := generate_challenge_token (cr_samples req) in
  access ← utc_now_add (cr_now_access req) (access_token_ttl self);
  refresh ← utc_now_add (cr_now_refresh req) (refresh_token_ttl self);
  expires ← utc_now_add (cr_now_challenge req) (challenge_ttl self);
  mret {| challenge := challenge;
          access_claims :=
            {| client_ip := ip; client_pubkey := pubkey; expires_at_utc := access |};
          refresh_claims :=
            {| client_ip := ip; client_pubkey := pubkey; expires_at_utc := refresh |};
          challenge_expires_at_utc := expires |}.

(** From the lookup to the push: a second access to the queue.  The result is the
    challenge to answer with, or the new one to push. *)
Definition challenge_prepare (self : AuthServiceImpl) (req : ChallengeRequest) (ip : IpAddr)
    : Prog Store Status (string + AuthChallenge) :=
  let validate :=
    pubkey ← challenge_pubkey self req;
    c ← new_challenge self req ip pubkey;
    mret (inr c) in
  found ← challenges_get_priority ip;
  match found with
  | Some auth_challenge =>
      if negb (challenge_is_expired (cr_now_expired req) auth_challenge)
      then mret (inl (challenge auth_challenge))
      else validate
  | None => validate
  end.

Definition generate_auth_challenge (self : AuthServiceImpl) (req : ChallengeRequest)
    : Prog Store Status string :=
  ip ← challenge_begin req;
  r ← challenge_prepare self req ip;
  match r with
  | inl challenge => mret challenge
  | inr c => challenges_push ip c ;; mret (challenge c)
  end.

(** *** [generate_auth_tokens] *)

Record TokensRequest := {
  tr_health : HealthState;
  tr_remote_addr : option IpAddr;
  tr_client_pubkey : list Byte.byte;
  tr_challenge : string;
  tr_signed_challenge : list Byte.byte }.
Record TokensResponse := { access_token : PbToken; refresh_token : PbToken }.

Definition expected_challenge (pubkey : Pubkey) (c : AuthChallenge) : string :=
  (pubkey_to_string pubkey +:+ "-" +:+ challenge c)%string.

(** [Token::new(header, claims).sign_with_key(&self.signing_key)] *)
Definition sign_claims {S} (self : AuthServiceImpl) (c : Claims) (e : Status)
    : Prog S Status string :=
  ok_or e (sign_with_key (signing_key self) Rs256 (DeSerClaims_from c)).

Definition pb_token (token : string) (c : Claims) : PbToken :=
  {| value := token; pb_expires_at_utc := timestamp (expires_at_utc c) |}.

(** Everything before the removal: one access to the queue. *)
Definition tokens_prepare (self : AuthServiceImpl) (req : TokensRequest)
    : Prog Store Status (IpAddr * TokensResponse) :=
  check_health (tr_health req) ;;
  client_ip ← get_client_ip (tr_remote_addr req);
  client_key ← ok_or (invalid_argument "Invalid pubkey supplied.")
    (publickey_from_bytes (tr_client_pubkey req));
  solana_pubkey ← ok_or (invalid_argument "Invalid pubkey supplied.")
    (pubkey_try_from (publickey_to_bytes client_key));
  found ← challenges_get_priority client_ip;
  auth_challenge ← ok_or (permission_denied
    "Must invoke the GenerateAuthChallenge method before calling any method.") found;
  fail_if (negb (bool_decide (client_pubkey (access_claims auth_challenge) = solana_pubkey)))
    (permission_denied
      "The pubkey provided does not match the pubkey that generated the challenge.") ;;
  let expected := expected_challenge solana_pubkey auth_challenge in
  fail_if (negb (bool_decide (expected = tr_challenge req)))
    (invalid_argument
      ("The provided challenge does not match the expected challenge: " +:+ expected)) ;;
  fail_if (negb (length (tr_signed_challenge req) =? SIGNATURE_BYTES)%nat)
    (invalid_argument "Signature must be 64 bytes.") ;;
  fail_if (negb (length (tr_signed_challenge req) =? 64)%nat)
    (invalid_argument "Invalid signature.") ;;
  signed_challenge ← ok_or (invalid_argument "Invalid signature.")
    (signature_from_bytes (tr_signed_challenge req));
  fail_if (negb (ed25519_verify client_key
      (String.list_byte_of_string (tr_challenge req)) signed_challenge))
    (invalid_argument "Failed challenge verification. Did you sign with the supplied pubkey's corresponding private key?") ;;
  access ← sign_claims self (access_claims auth_challenge) (internal "Error signing access_token.");
  refresh ← sign_claims self (refresh_claims auth_challenge) (internal "Error signing refresh_token.");
  mret (client_ip,
    {| access_token := pb_token access (access_claims auth_challenge);
       refresh_token := pb_token refresh (refresh_claims auth_challenge) |}).

Definition generate_auth_tokens (self : AuthServiceImpl) (req : TokensRequest)
    : Prog Store Status TokensResponse :=
  '(client_ip, response) ← tokens_prepare self req;
  challenges_remove client_ip ;;
  mret response.

(** *** [refresh_access_token] *)

Record RefreshRequest := {
  rr_health : HealthState;
  rr_refresh_token : string;
  rr_now_expired : NaiveDateTime;
  rr_now_access : NaiveDateTime }.

Definition refresh_access_token (self : AuthServiceImpl) (req : RefreshRequest)
    : Prog Store Status PbToken :=
  check_health (rr_health req) ;;
  verified ← ok_or (permission_denied "Invalid refresh_token supplied")
    (verify_with_key (service_verifying_key self) (rr_refresh_token req));
  refresh_claims ← Claims_from verified.2;
  fail_if (claims_is_expired (rr_now_expired req) refresh_claims)
    (permission_denied "Client refresh_token has expired, please generate a new auth challenge to obtain a set of new access tokens.") ;;
  expires ← utc_now_add (rr_now_access req) (access_token_ttl self);
  let access_claims :=
    {| client_ip := client_ip refresh_claims; client_pubkey := client_pubkey refresh_claims;
       expires_at_utc := expires |} in
  access ← sign_claims self access_claims (internal "Error signing access_token.");
  mret (pb_token access access_claims).

(** *** Concurrent handlers *)

(** Where a handler is between two accesses to the queue. *)
Inductive HandlerPc :=
| Idle
| Looking (req : ChallengeRequest) (ip : IpAddr)
| Pushing (ip : IpAddr) (c : AuthChallenge)
| Removing (ip : IpAddr).

(** [policy v]: the policy may be [v] when it is asked (the leader schedule is
    replaced while the service runs). *)
Variable policy : V → Prop.

(** One access to the queue by one of the handlers, or one cleanup.  A handler
    that answers, fails or panics is [Idle] and can serve another request. *)
Inductive auth_step : relation (Store * list HandlerPc) :=
| step_challenge_begin i req ip q pcs :
    pcs !! i = Some Idle →
    challenge_begin req q = (Done ip, q) →
    auth_step (q, pcs) (q, <[i := Looking req ip]> pcs)
| step_challenge_answer i req ip self q pcs r :
    pcs !! i = Some (Looking req ip) →
    policy (validator_auther self) →
    challenge_prepare self req ip q = (r, q) →
    (∀ c, r ≠ Done (inr c)) →
    auth_step (q, pcs) (q, <[i := Idle]> pcs)
| step_challenge_new i req ip self c q pcs :
    pcs !! i = Some (Looking req ip) →
    policy (validator_auther self) →
    challenge_prepare self req ip q = (Done (inr c), q) →
    auth_step (q, pcs) (q, <[i := Pushing ip c]> pcs)
| step_challenge_push i ip c q q' pcs :
    pcs !! i = Some (Pushing ip c) →
    challenges_push (E := Status) ip c q = (Done tt, q') →
    auth_step (q, pcs) (q', <[i := Idle]> pcs)
| step_tokens_prepare i self req ip resp q pcs :
    pcs !! i = Some Idle →
    tokens_prepare self req q = (Done (ip, resp), q) →
    auth_step (q, pcs) (q, <[i := Removing ip]> pcs)
| step_tokens_remove i ip q q' pcs :
    pcs !! i = Some (Removing ip) →
    challenges_remove (E := Status) ip q = (Done tt, q') →
    auth_step (q, pcs) (q', <[i := Idle]> pcs)
| step_cleanup clock q q' pcs :
    (∀ i j, (i ≤ j)%nat → clock i <= clock j) →
    challenges_remove_all_expired (E := Empty_set) clock q = (Done tt, q') →
    auth_step (q, pcs) (q', pcs).

(** What every challenge ever pushed satisfies. *)
Definition representable (t : NaiveDateTime) : Prop := ∃ base ttl, datetime_add base ttl = Some t.
Definition challenge_ok (ip : IpAddr) (c : AuthChallenge) : Prop :=
  representable (expires_at_utc (access_claims c)) ∧
  representable (expires_at_utc (refresh_claims c)) ∧
  client_ip (access_claims c) = ip ∧ client_ip (refresh_claims c) = ip ∧
  client_pubkey (access_claims c) = client_pubkey (refresh_claims c) ∧
  ∃ v, policy v ∧ is_authorized v (client_pubkey (access_claims c)) = true.

(** Handlers past the capacity test that may still push. *)
Definition may_push (pc : HandlerPc) : bool :=
  match pc with Looking _ _ | Pushing _ _ => true | Idle | Removing _ => false end.
Definition pushers (pcs : list HandlerPc) : Z :=
  Z.of_nat (length (List.filter may_push pcs)).
End auth_service.

(** ** Theorems *)

Lemma pushers_insert `{Sdk} pcs i old new :
  pcs !! i = Some old →
  pushers (<[i := new]> pcs) = pushers pcs - Z.b2z (may_push old) + Z.b2z (may_push new).
Proof. apply length_filter_insert. Qed.
Lemma pushers_idle `{Sdk} k : pushers (replicate k Idle) = 0.
Proof. unfold pushers. by rewrite filter_replicate_none. Qed.
Lemma pushers_bound `{Sdk} pcs : 0 <= pushers pcs <= Z.of_nat (length pcs).
Proof. unfold pushers. pose proof (List.filter_length_le may_push pcs). lia. Qed.

Section auth_service_theorems.
Context `{Sdk} `{!IpText} `{!Chrono} `{!Ed25519} `{!ProtoRoles} `{J : !Jwt DeSerClaims}.
Context `{Q : !KeyedPriorityQueue IpAddr AuthChallenge reverse_cmp}.
Context {V : Type} `{!ValidatorAuther V}.
Implicit Types (self : AuthServiceImpl (J := J) (V := V)).

Lemma check_health_done {S} h u (s s' : S) :
  check_health h s = (Done u, s') ↔ h = Healthy ∧ s' = s.
Proof.
  unfold check_health. rewrite fail_if_done, negb_false_iff, bool_decide_eq_true. done.
Qed.
Lemma check_health_reads_only {S} h : reads_only (check_health (S := S) h).
Proof. apply reads_only_fail_if. Qed.
Lemma get_client_ip_reads_only {S} a : reads_only (get_client_ip (S := S) a).
Proof. apply reads_only_ok_or. Qed.
Local Hint Resolve check_health_reads_only get_client_ip_reads_only : relayer.

Lemma challenge_begin_reads_only req : reads_only (challenge_begin (Q := Q) req).
Proof. unfold challenge_begin, challenges_len. eauto 10 with relayer. Qed.
Lemma challenge_pubkey_reads_only self req : reads_only (challenge_pubkey (Q := Q) self req).
Proof. unfold challenge_pubkey. eauto 10 with relayer. Qed.
Lemma new_challenge_reads_only self req ip pk :
  reads_only (new_challenge (Q := Q) self req ip pk).
Proof. unfold new_challenge, utc_now_add. eauto 10 with relayer. Qed.
Local Hint Resolve challenge_begin_reads_only challenge_pubkey_reads_only
  new_challenge_reads_only : relayer.
Lemma challenge_prepare_reads_only self req ip :
  reads_only (challenge_prepare (Q := Q) self req ip).
Proof.
  unfold challenge_prepare, challenges_get_priority. apply reads_only_bind; [auto with relayer|].
  intros [c|]; [destruct (negb _)|]; eauto 10 with relayer.
Qed.
Lemma tokens_prepare_reads_only self req : reads_only (tokens_prepare (Q := Q) self req).
Proof.
  unfold tokens_prepare, sign_claims, challenges_get_priority.
  repeat (apply reads_only_bind; [auto with relayer|intros ?]). auto with relayer.
Qed.
Lemma Claims_from_reads_only {S} d : reads_only (Claims_from (S := S) d).
Proof. unfold Claims_from. eauto 10 with relayer. Qed.
Local Hint Resolve challenge_prepare_reads_only tokens_prepare_reads_only
  Claims_from_reads_only : relayer.

(** A handler that does not succeed, whether it answers with an error or
    panics, leaves the challenges as they were; a refresh leaves them so in any
    case. *)
Theorem auth_failures_keep_challenges self q :
  (∀ req r q', generate_auth_challenge self req q = (r, q') →
    (∀ text, r ≠ Done text) → q' = q) ∧
  (∀ req r q', generate_auth_tokens self req q = (r, q') →
    (∀ resp, r ≠ Done resp) → q' = q) ∧
  (∀ req, (refresh_access_token self req q).2 = q).
Proof.
  split_and!.
  - intros req r q'. unfold generate_auth_challenge, mbind, Prog_bind.
    destruct (challenge_begin req q) as [[ip|e|w] q1] eqn:E1;
      apply reads_only_elim in E1 as ->; auto with relayer; try naive_solver.
    destruct (challenge_prepare self req ip q) as [[[text|c]|e|w] q2] eqn:E2;
      apply reads_only_elim in E2 as ->; auto with relayer; try naive_solver.
    + by intros [= _ <-].
    + intros [= <- _] Hr. by destruct (Hr (challenge c)).
  - intros req r q'. unfold generate_auth_tokens, mbind, Prog_bind.
    destruct (tokens_prepare self req q) as [[[ip resp]|e|w] q1] eqn:E1;
      apply reads_only_elim in E1 as ->; auto with relayer; try naive_solver.
    intros [= <- _] Hr. by destruct (Hr resp).
  - intros req. revert q.
    change (reads_only (refresh_access_token (Q := Q) self req)).
    unfold refresh_access_token, sign_claims, utc_now_add.
    repeat (apply reads_only_bind; [auto with relayer|intros ?]). auto with relayer.
Qed.

Lemma challenge_begin_done req q ip q' :
  challenge_begin req q = (Done ip, q') ↔
  q' = q ∧ cr_health req = Healthy ∧ Z.of_nat (kpq_len q) < AUTH_CHALLENGES_CAPACITY ∧
  cr_remote_addr req = Some ip.
Proof.
  unfold challenge_begin, challenges_len, get_client_ip. split.
  - intros Hr. unfold check_health in Hr. prog_inv Hr.
    autorewrite with bool_facts in *. naive_solver.
  - intros (-> & Hh & Hlen & Hip).
    rewrite (prog_bind_done _ _ _ tt q) by (by apply check_health_done).
    apply Z.leb_gt in Hlen. prog_run. by apply ok_or_done.
Qed.

(** What a new challenge for [ip] is. *)
Definition fresh_challenge self (req : ChallengeRequest) (ip : IpAddr) (c : AuthChallenge) : Prop :=
  cr_role req = role_validator ∧ length (cr_pubkey req) = PUBKEY_BYTES ∧
  challenge c = generate_challenge_token (cr_samples req) ∧
  client_ip (access_claims c) = ip ∧ client_ip (refresh_claims c) = ip ∧
  pubkey_try_from (cr_pubkey req) = Some (client_pubkey (access_claims c)) ∧
  client_pubkey (refresh_claims c) = client_pubkey (access_claims c) ∧
  is_authorized (validator_auther self) (client_pubkey (access_claims c)) = true ∧
  datetime_add (cr_now_access req) (access_token_ttl self) =
    Some (expires_at_utc (access_claims c)) ∧
  datetime_add (cr_now_refresh req) (refresh_token_ttl self) =
    Some (expires_at_utc (refresh_claims c)) ∧
  datetime_add (cr_now_challenge req) (challenge_ttl self) =
    Some (challenge_expires_at_utc c).

Lemma fresh_challenge_done self req ip q c q' :
  (pubkey ← challenge_pubkey self req; new_challenge self req ip pubkey) q = (Done c, q') ↔
  q' = q ∧ fresh_challenge self req ip c.
Proof.
  unfold fresh_challenge. split.
  - intros Hr. unfold challenge_pubkey, new_challenge, utc_now_add in Hr. prog_inv Hr. cbn.
    autorewrite with bool_facts in *. naive_solver.
  - destruct c as [text [ip1 pk1 e1] [ip2 pk2 e2] e]. cbn.
    intros (-> & Hrole & Hlen & -> & -> & -> & Hpk & -> & Hauth & Ha & Hr & He).
    rewrite (prog_bind_done _ _ _ pk1 q).
    + unfold new_challenge, utc_now_add. by prog_run.
    + unfold challenge_pubkey. rewrite Hrole, Hlen, Z.eqb_refl, Nat.eqb_refl.
      cbn [negb]. unfold fail_if at 1 2, mbind, Prog_bind, mret, Prog_ret.
      rewrite Hpk. cbn. by rewrite Hauth.
Qed.

Lemma challenge_prepare_done self req ip q r q' :
  challenge_prepare self req ip q = (Done r, q') ↔
  q' = q ∧
  match r with
  | inl text => ∃ c, kpq_get_priority ip q = Some c ∧
      challenge_is_expired (cr_now_expired req) c = false ∧ challenge c = text
  | inr c => fresh_challenge self req ip c ∧
      ∀ c', kpq_get_priority ip q = Some c' →
        challenge_is_expired (cr_now_expired req) c' = true
  end.
Proof.
  unfold challenge_prepare, challenges_get_priority.
  assert (Hnew : (pubkey ← challenge_pubkey self req;
      c ← new_challenge self req ip pubkey; mret (inr c)) q = (Done r, q') ↔
    q' = q ∧ match r with inl _ => False | inr c => fresh_challenge self req ip c end).
  { split.
    - intros (pk & s1 & Hm1 & (c & s2 & Hm2 & Hm3)%prog_bind_inv)%prog_bind_inv.
      apply mret_done in Hm3 as [<- <-]. apply (fresh_challenge_done self req ip q c).
      apply bind_done. by exists pk, s1.
    - destruct r as [text|c]; [by intros [_ []]|]. intros Hf.
      apply fresh_challenge_done, bind_done in Hf as (pk & s1 & Hm1 & Hm2).
      rewrite (prog_bind_done _ _ _ _ _ Hm1), (prog_bind_done _ _ _ _ _ Hm2). done. }
  unfold gets at 1, mbind at 1, Prog_bind at 1.
  destruct (kpq_get_priority ip q) as [c|]; [destruct (challenge_is_expired _ c) eqn:Hexp|];
    cbn [negb].
  - rewrite Hnew. destruct r as [text|c']; (split; intros [-> Hr]; (split; [done|])).
    + done.
    + destruct Hr as (c' & [= <-] & ? & _). congruence.
    + split; [done|]. by intros ? [= <-].
    + by destruct Hr.
  - rewrite mret_done. destruct r as [text|c']; split.
    + intros [[= <-] ->]. split; [done|]. by exists c.
    + by intros (-> & c' & [= <-] & _ & <-).
    + by intros [? _].
    + intros (_ & _ & Hold). specialize (Hold c eq_refl). congruence.
  - rewrite Hnew. destruct r as [text|c']; (split; intros [-> Hr]; (split; [done|])).
    + done.
    + by destruct Hr as (c' & ? & _).
    + by split.
    + by destruct Hr.
Qed.

(** C19: A challenge request succeeds exactly when the relayer is healthy, the
    queue is under its capacity and the address is known, and then: an unexpired
    challenge of that address is answered again, unchanged and without another
    look at the role, key or policy; otherwise the role, the key and the policy
    must pass and a new challenge, its claims bound to the address and key and
    dated by the three ttls, replaces any the address had. *)
Theorem generate_auth_challenge_iff self req q text q' :
  generate_auth_challenge self req q = (Done text, q') ↔
  cr_health req = Healthy ∧ Z.of_nat (kpq_len q) < AUTH_CHALLENGES_CAPACITY ∧
  ∃ ip, cr_remote_addr req = Some ip ∧
    ((q' = q ∧ ∃ c, kpq_get_priority ip q = Some c ∧
        challenge_is_expired (cr_now_expired req) c = false ∧ challenge c = text) ∨
     (∃ c, (∀ c', kpq_get_priority ip q = Some c' →
          challenge_is_expired (cr_now_expired req) c' = true) ∧
        fresh_challenge self req ip c ∧ challenge c = text ∧ q' = kpq_push ip c q)).
Proof.
  unfold generate_auth_challenge, challenges_push. split.
  - intros (ip & q1 & Hb & (r & q2 & Hp & Hfin)%prog_bind_inv)%prog_bind_inv.
    apply challenge_begin_done in Hb as (-> & Hh & Hlen & Hip).
    apply challenge_prepare_done in Hp as [-> Hp].
    do 2 (split; [done|]). exists ip. split; [done|]. destruct r as [t|c].
    + apply mret_done in Hfin as [<- ->]. by left.
    + prog_inv Hfin. right. exists c. naive_solver.
  - intros (Hh & Hlen & ip & Hip & Hcase).
    rewrite (prog_bind_done _ _ _ ip q) by (by apply challenge_begin_done).
    destruct Hcase as [(-> & c & Hc & Hexp & <-)|(c & Hold & Hf & <- & ->)].
    + rewrite (prog_bind_done _ _ _ (inl (challenge c)) q); [done|].
      apply challenge_prepare_done. eauto 10.
    + rewrite (prog_bind_done _ _ _ (inr c) q); [by prog_unfold|].
      by apply challenge_prepare_done.
Qed.

(** What makes a request for tokens valid: it redeems [c] with the signature of
    the key [pk] that asked for it. *)
Definition valid_submission (req : TokensRequest) (c : AuthChallenge) (pk : Pubkey) : Prop :=
  ∃ key sig,
    publickey_from_bytes (tr_client_pubkey req) = Some key ∧
    pubkey_try_from (publickey_to_bytes key) = Some pk ∧
    client_pubkey (access_claims c) = pk ∧
    tr_challenge req = expected_challenge pk c ∧
    length (tr_signed_challenge req) = SIGNATURE_BYTES ∧
    length (tr_signed_challenge req) = 64%nat ∧
    signature_from_bytes (tr_signed_challenge req) = Some sig ∧
    ed25519_verify key (String.list_byte_of_string (expected_challenge pk c)) sig = true.

Definition tokens_for self (c : AuthChallenge) (resp : TokensResponse) : Prop :=
  ∃ access refresh,
    sign_with_key (signing_key self) Rs256 (DeSerClaims_from (access_claims c)) = Some access ∧
    sign_with_key (signing_key self) Rs256 (DeSerClaims_from (refresh_claims c)) = Some refresh ∧
    resp = {| access_token := pb_token access (access_claims c);
              refresh_token := pb_token refresh (refresh_claims c) |}.

Lemma tokens_prepare_done self req q ip resp q' :
  tokens_prepare self req q = (Done (ip, resp), q') ↔
  q' = q ∧ tr_health req = Healthy ∧ tr_remote_addr req = Some ip ∧
  ∃ c pk, kpq_get_priority ip q = Some c ∧ valid_submission req c pk ∧ tokens_for self c resp.
Proof.
  unfold tokens_prepare, get_client_ip, challenges_get_priority, sign_claims. split.
  - intros Hr. unfold check_health in Hr. prog_inv Hr.
    autorewrite with bool_facts in *. subst. split_and!; [done..|].
    match goal with Htxt : expected_challenge _ _ = tr_challenge req |- _ =>
      rewrite <-Htxt in *; symmetry in Htxt end.
    eexists _, _. split; [done|]. split.
    + eexists _, _. split_and!; done.
    + eexists _, _. split_and!; done.
  - intros (-> & Hh & Hip & c & pk & Hc & (key & sig & Hkey & Hpk & <- & Htxt & Hl1 & Hl2 & Hsig & Hv)
      & (access & refresh & Ha & Hr & ->)).
    rewrite (prog_bind_done _ _ _ tt q) by (by apply check_health_done).
    apply Nat.eqb_eq in Hl1, Hl2. rewrite Htxt, Hl1, Hl2, Hsig.
    prog_run. rewrite !bool_decide_eq_true_2 by done. cbn [negb].
    prog_unfold. cbv beta iota. rewrite Hv. cbv beta iota. by rewrite Ha, Hr.
Qed.

(** C18: Tokens are issued exactly when the relayer is healthy, the address has a
    pending challenge, and the request carries that challenge after the key that
    asked for it, signed by that key; they are signed with the service's key over
    the claims fixed when the challenge was made, and the challenge is used up. *)
Theorem generate_auth_tokens_iff self req q resp q' :
  generate_auth_tokens self req q = (Done resp, q') ↔
  tr_health req = Healthy ∧ ∃ ip c pk, tr_remote_addr req = Some ip ∧
    kpq_get_priority ip q = Some c ∧ valid_submission req c pk ∧
    tokens_for self c resp ∧ q' = kpq_remove ip q.
Proof.
  unfold generate_auth_tokens, challenges_remove. rewrite bind_done. split.
  - intros ([ip resp'] & q1 & Hp & Hr). prog_inv Hr.
    apply tokens_prepare_done in Hp as (-> & Hh & Hip & c & pk & Hc & Hv & Ht).
    split; [done|]. by exists ip, c, pk.
  - intros (Hh & ip & c & pk & Hip & Hc & Hv & Ht & ->). exists (ip, resp), q. split.
    + apply tokens_prepare_done. eauto 10.
    + by prog_unfold.
Qed.

Lemma valid_submission_tokens self req q ip c pk :
  tr_health req = Healthy → tr_remote_addr req = Some ip →
  kpq_get_priority ip q = Some c → valid_submission req c pk →
  is_Some (sign_with_key (signing_key self) Rs256 (DeSerClaims_from (access_claims c))) →
  is_Some (sign_with_key (signing_key self) Rs256 (DeSerClaims_from (refresh_claims c))) →
  ∃ resp, tokens_for self c resp ∧
    generate_auth_tokens self req q = (Done resp, kpq_remove ip q).
Proof.
  intros Hh Hip Hc Hv [access Ha] [refresh Hr].
  set (resp := {| access_token := pb_token access (access_claims c);
                  refresh_token := pb_token refresh (refresh_claims c) |}).
  assert (Ht : tokens_for self c resp) by (by exists access, refresh).
  exists resp. split; [done|]. unfold generate_auth_tokens, challenges_remove.
  rewrite (prog_bind_done _ _ _ (ip, resp) q); [by prog_unfold|].
  apply tokens_prepare_done. eauto 10.
Qed.

(** The two handlers disagree on an expired challenge the cleanup has not reached
    yet: at the instant it counts as expired a challenge request never answers with it,
    but makes a fresh one in its place, while a submission signed by the key that asked
    for it still redeems it for its tokens. *)
Theorem expired_challenge_redeemed self req q ip c pk now :
  kpq_get_priority ip q = Some c → challenge_is_expired now c = true →
  tr_health req = Healthy → tr_remote_addr req = Some ip → valid_submission req c pk →
  is_Some (sign_with_key (signing_key self) Rs256 (DeSerClaims_from (access_claims c))) →
  is_Some (sign_with_key (signing_key self) Rs256 (DeSerClaims_from (refresh_claims c))) →
  (∀ creq text q', cr_remote_addr creq = Some ip → cr_now_expired creq = now →
    generate_auth_challenge self creq q = (Done text, q') →
    ∃ c', fresh_challenge self creq ip c' ∧ text = challenge c' ∧ q' = kpq_push ip c' q) ∧
  ∃ resp, tokens_for self c resp ∧
    generate_auth_tokens self req q = (Done resp, kpq_remove ip q).
Proof.
  intros Hc Hexp Hh Hip Hv Ha Hr. split; [|by eapply valid_submission_tokens].
  intros creq text q' Hcip Hnow. unfold generate_auth_challenge, challenges_push.
  intros (ip' & q1 & Hb & (r & q2 & Hp & Hfin)%prog_bind_inv)%prog_bind_inv.
  apply challenge_begin_done in Hb as (-> & _ & _ & Hip'). assert (ip' = ip) as -> by congruence.
  apply challenge_prepare_done in Hp as [-> Hp]. destruct r as [t|c'].
  - destruct Hp as (c' & Hc' & Hfresh & _). congruence.
  - prog_inv Hfin. destruct Hp as [Hf _]. by exists c'.
Qed.

(** A refresh succeeds exactly when the relayer is healthy and the token
    verifies under the service's key, parses and has not expired; the new access
    token carries its address and key and expires one access ttl from now. *)
Theorem refresh_access_token_iff self req q tok q' :
  refresh_access_token self req q = (Done tok, q') ↔
  q' = q ∧ rr_health req = Healthy ∧ ∃ alg d c c' token,
    verify_with_key (service_verifying_key self) (rr_refresh_token req) = Some (alg, d) ∧
    Claims_from d q = (Done c, q) ∧
    claims_is_expired (rr_now_expired req) c = false ∧
    client_ip c' = client_ip c ∧ client_pubkey c' = client_pubkey c ∧
    datetime_add (rr_now_access req) (access_token_ttl self) = Some (expires_at_utc c') ∧
    sign_with_key (signing_key self) Rs256 (DeSerClaims_from c') = Some token ∧
    tok = pb_token token c'.
Proof.
  unfold refresh_access_token, utc_now_add, sign_claims. split.
  - intros Hr. unfold check_health in Hr. prog_inv Hr.
    match goal with Hc : Claims_from _ _ = _ |- _ =>
      pose proof (reads_only_elim _ _ _ _ (Claims_from_reads_only _) Hc) as -> end.
    autorewrite with bool_facts in *. do 2 (split; [done|]).
    eexists _, _, _, {| client_ip := _; client_pubkey := _; expires_at_utc := _ |}, _. cbn.
    split_and!; [by rewrite <-surjective_pairing| |..]; done.
  - intros (-> & Hh & alg & d & c & [ip pk e] & token & Hv & Hc & Hexp & Hip & Hpk & Hadd & Hs & ->).
    cbn in Hip, Hpk, Hadd. subst ip pk.
    rewrite (prog_bind_done _ _ _ tt q) by (by apply check_health_done).
    rewrite (prog_bind_done _ _ _ (alg, d) q) by (by apply ok_or_done).
    cbn [snd]. rewrite (prog_bind_done _ _ _ _ _ Hc). by prog_run.
Qed.

(** *** Interleavings *)

Context `{!KeyedPriorityQueueLaws (K := IpAddr) (P := AuthChallenge)}.
Variable policy : V → Prop.

(** A challenge is redeemed once: after the tokens are issued, the same request
    and any other from that address fail until a new challenge is made, while
    the challenges of other addresses are untouched. *)
Theorem challenge_single_use self req q resp q' :
  generate_auth_tokens self req q = (Done resp, q') →
  (∀ ip, tr_remote_addr req ≠ Some ip → kpq_get_priority ip q' = kpq_get_priority ip q) ∧
  ∀ req', tr_remote_addr req' = tr_remote_addr req →
    ∀ resp' q'', generate_auth_tokens self req' q' ≠ (Done resp', q'').
Proof.
  intros (_ & ip & c & pk & Hip & Hc & _ & _ & ->)%generate_auth_tokens_iff. split.
  - intros ip' Hne. rewrite !kpq_get_priority_view, kpq_remove_view.
    rewrite lookup_delete_ne; [done|]. congruence.
  - intros req' Heq resp' q'' (_ & ip' & c' & pk' & Hip' & Hc' & _)%generate_auth_tokens_iff.
    assert (ip' = ip) as -> by congruence.
    by rewrite kpq_get_priority_view, kpq_remove_view, lookup_delete_eq in Hc'.
Qed.

Definition queue_ok (q : kpq (KeyedPriorityQueue := Q)) : Prop :=
  ∀ ip c, kpq_view q !! ip = Some c → challenge_ok policy ip c.
Definition auth_inv (st : kpq (KeyedPriorityQueue := Q) * list HandlerPc) : Prop :=
  queue_ok st.1 ∧ (∀ i ip c, st.2 !! i = Some (Pushing ip c) → challenge_ok policy ip c).

Lemma fresh_challenge_ok self req ip c :
  policy (validator_auther self) → fresh_challenge self req ip c → challenge_ok policy ip c.
Proof. unfold fresh_challenge, challenge_ok, representable. naive_solver. Qed.

Lemma not_pushing_insert (pcs : list HandlerPc) i pc :
  (∀ ip c, pc ≠ Pushing ip c) →
  (∀ j ip c, pcs !! j = Some (Pushing ip c) → challenge_ok policy ip c) →
  ∀ j ip c, <[i := pc]> pcs !! j = Some (Pushing ip c) → challenge_ok policy ip c.
Proof.
  intros Hpc Hok j ip c [(_ & Heq & _)|[_ Hj]]%list_lookup_insert_Some; [|eauto].
  by destruct (Hpc ip c).
Qed.

Lemma auth_step_inv st st' :
  auth_inv st → auth_step (Q := Q) (J := J) policy st st' → auth_inv st'.
Proof.
  intros [Hq Hpcs] Hstep. destruct Hstep as
    [i req ip q pcs Hi _|i req ip self q pcs r Hi _ _ _|i req ip self c q pcs Hi Hpol Hp
    |i ip c q q' pcs Hi Hp|i self req ip resp q pcs Hi _|i ip q q' pcs Hi Hr|clock q q' pcs Hc Hr];
    (split; cbn in *); try (by eapply not_pushing_insert); try done.
  - apply challenge_prepare_done in Hp as (_ & Hf & _).
    intros j ip' c' [(_ & [= <- <-] & _)|[_ Hj]]%list_lookup_insert_Some; [|eauto].
    by eapply fresh_challenge_ok.
  - injection Hp as <-. intros ip' c'. rewrite kpq_push_view.
    intros [[<- <-]|[_ ?]]%lookup_insert_Some; eauto.
  - injection Hr as <-. intros ip' c'. rewrite kpq_remove_view.
    intros [_ ?]%lookup_delete_Some. eauto.
  - destruct (challenges_remove_all_expired_done (E := Empty_set) clock q Hc)
      as (m & q2 & _ & Hr2 & Hv).
    assert (q' = q2) as -> by congruence.
    intros ip c. rewrite Hv. unfold valid_at. intros [? _]%map_lookup_filter_Some. eauto.
Qed.

Lemma auth_inv_init k : auth_inv (kpq_default, replicate k Idle).
Proof.
  split; cbn.
  - intros ip c. by rewrite kpq_default_view.
  - intros i ip c [? _]%lookup_replicate. done.
Qed.

Lemma queue_ok_tokens self req q ip resp q' :
  queue_ok q → JwtKeyPair (signing_key self) (service_verifying_key self) →
  tokens_prepare self req q = (Done (ip, resp), q') →
  ∃ c pk v, challenge_ok policy ip c ∧ kpq_get_priority ip q = Some c ∧
    valid_submission req c pk ∧ client_pubkey (access_claims c) = pk ∧
    policy v ∧ is_authorized v pk = true ∧ tokens_for self c resp.
Proof.
  intros Hq _ (_ & _ & _ & c & pk & Hc & Hv & Ht)%tokens_prepare_done.
  rewrite kpq_get_priority_view in Hc. pose proof (Hq _ _ Hc) as Hok.
  pose proof Hok as (_ & _ & _ & _ & _ & v & Hp & Ha).
  pose proof Hv as (key & sig & _ & _ & <- & _).
  exists c, (client_pubkey (access_claims c)), v. rewrite kpq_get_priority_view.
  by split_and!.
Qed.

Context `{!SdkLaws} `{!IpTextLaws} `{!ChronoLaws}.

(** C17: Whatever the interleaving of handlers and cleanups, and while the policy
    changes, both tokens of every response are accepted by the relayer's
    interceptor, as the key of a validator that proved it holds it (its signature
    over the challenge made for that address verified) and that the policy
    authorized when the challenge was made. *)
Theorem issued_tokens_accepted {S} k q pcs self req ip resp q' (s : S) :
  rtc (auth_step (Q := Q) (J := J) policy) (kpq_default, replicate k Idle) (q, pcs) →
  JwtKeyPair (signing_key self) (service_verifying_key self) →
  tokens_prepare self req q = (Done (ip, resp), q') →
  ∃ c pk v, kpq_get_priority ip q = Some c ∧ valid_submission req c pk ∧
    policy v ∧ is_authorized v pk = true ∧
    ∀ tok, tok = access_token resp ∨ tok = refresh_token resp →
      interceptor_call
        {| verifying_key := service_verifying_key self; expected_signing_algo := Rs256 |}
        (Some (Some (BEARER +:+ value tok)%string)) s = (Done pk, s).
Proof.
  intros Hrtc Hpair Hprep.
  assert (Hq : queue_ok q).
  { refine (proj1 (rtc_invariant _ auth_inv _ _ auth_step_inv _ Hrtc)). apply auth_inv_init. }
  destruct (queue_ok_tokens _ _ _ _ _ _ Hq Hpair Hprep)
    as (c & pk & v & Hok & Hc & Hv & <- & Hp & Ha & (access & refresh & Hacc & Href & ->)).
  exists c, (client_pubkey (access_claims c)), v. split_and!; try done.
  destruct Hok as ((b1 & t1 & Hr1) & (b2 & t2 & Hr2) & _ & _ & Hpk & _).
  intros tok [->| ->]; cbn.
  - by eapply (interceptor_accepts_signed _
      {| verifying_key := _; expected_signing_algo := Rs256 |}).
  - rewrite Hpk. by eapply (interceptor_accepts_signed _
      {| verifying_key := _; expected_signing_algo := Rs256 |}).
Qed.

Local Abbreviation step := (auth_step (Q := Q) (J := J) policy).

(** C40: Reading a challenge and removing it are two accesses, and the removal goes by
    address alone.  When two handlers work on the same submission (a client that
    retries), both issue the tokens; and if in between the address asks for a new
    challenge, the later removal deletes that one: the client is left with a challenge
    it was just given and can no longer redeem. *)
Theorem late_removal_drops_challenge self req req' q ip c c' pk pcs i j :
  let q0 := kpq_remove ip q in
  let both := <[j := Removing ip]> (<[i := Removing ip]> pcs) in
  i ≠ j → pcs !! i = Some Idle → pcs !! j = Some Idle → policy (validator_auther self) →
  tr_health req = Healthy → tr_remote_addr req = Some ip →
  kpq_get_priority ip q = Some c → valid_submission req c pk →
  is_Some (sign_with_key (signing_key self) Rs256 (DeSerClaims_from (access_claims c))) →
  is_Some (sign_with_key (signing_key self) Rs256 (DeSerClaims_from (refresh_claims c))) →
  challenge_begin req' q0 = (Done ip, q0) →
  challenge_prepare self req' ip q0 = (Done (inr c'), q0) →
  ∃ resp q1 q2, tokens_prepare self req q = (Done (ip, resp), q) ∧ tokens_for self c resp ∧
    rtc step (q, pcs) (q, both) ∧
    rtc step (q, both) (q1, <[j := Removing ip]> pcs) ∧ kpq_get_priority ip q1 = Some c' ∧
    step (q1, <[j := Removing ip]> pcs) (q2, pcs) ∧
    ∀ req'' resp'' q'', tr_remote_addr req'' = Some ip →
      generate_auth_tokens self req'' q2 ≠ (Done resp'', q'').
Proof.
  intros q0 both Hij Hi Hj Hpol Hh Hip Hc Hv [access Ha] [refresh Hr] Hbegin Hprep.
  assert (Hli : (i < length pcs)%nat) by (by eapply lookup_lt_Some).
  assert (Hlj : (j < length pcs)%nat) by (by eapply lookup_lt_Some).
  set (resp := {| access_token := pb_token access (access_claims c);
                  refresh_token := pb_token refresh (refresh_claims c) |}).
  assert (Ht : tokens_for self c resp) by (by exists access, refresh).
  assert (Hissue : tokens_prepare self req q = (Done (ip, resp), q))
    by (apply tokens_prepare_done; eauto 10).
  assert (Hmid : ∀ pc, <[j := Removing ip]> (<[i := pc]> pcs) !! i = Some pc)
    by (intros; by rewrite list_lookup_insert_ne, list_lookup_insert_eq).
  assert (Hnext : ∀ pc pc', <[i := pc']> (<[j := Removing ip]> (<[i := pc]> pcs))
    = <[j := Removing ip]> (<[i := pc']> pcs))
    by (intros; by rewrite list_insert_insert_ne, list_insert_insert_eq).
  exists resp, (kpq_push ip c' q0), (kpq_remove ip (kpq_push ip c' q0)).
  split; [done|]. split; [done|]. split.
  { eapply rtc_l; [by apply (step_tokens_prepare _ i self req ip resp)|].
    apply rtc_once. apply (step_tokens_prepare _ j self req ip resp); [|done].
    by rewrite list_lookup_insert_ne. }
  split.
  { unfold both. eapply rtc_l; [apply (step_tokens_remove _ i ip q q0); [apply Hmid|done]|]. rewrite Hnext.
    eapply rtc_l; [apply (step_challenge_begin _ i req' ip); [apply Hmid|done]|]. rewrite Hnext.
    eapply rtc_l; [apply (step_challenge_new _ i req' ip self c'); [apply Hmid|done..]|].
    rewrite Hnext. eapply rtc_l; [apply (step_challenge_push _ i ip c' q0); [apply Hmid|done]|].
    rewrite Hnext.
    by rewrite (list_insert_id pcs i). }
  split; [by rewrite kpq_get_priority_view, kpq_push_view, lookup_insert_eq|]. split.
  { replace pcs with (<[j := Idle]> (<[j := Removing ip]> pcs)) at 2
      by (by rewrite list_insert_insert_eq, list_insert_id).
    apply (step_tokens_remove _ j ip); [by rewrite list_lookup_insert_eq|done]. }
  intros req'' resp'' q'' Hip''. unfold generate_auth_tokens. rewrite bind_done.
  intros ([ip' resp'] & q3 & (_ & _ & Haddr & c'' & _ & Hc'' & _)%tokens_prepare_done & _).
  assert (ip' = ip) as -> by congruence.
  by rewrite kpq_get_priority_view, kpq_remove_view, lookup_delete_eq in Hc''.
Qed.

(** Nothing in the claims tells an access token from a refresh token: any token
    the service signed, the short-lived access token included, is taken as a
    refresh token while it has not expired and yields a token that expires one
    access ttl from now, so an access token renews itself without the refresh
    token. *)
Theorem access_token_refreshes self req q c token base ttl :
  JwtKeyPair (signing_key self) (service_verifying_key self) →
  datetime_add base ttl = Some (expires_at_utc c) →
  sign_with_key (signing_key self) Rs256 (DeSerClaims_from c) = Some token →
  rr_health req = Healthy → rr_refresh_token req = token →
  rr_now_expired req < timestamp (expires_at_utc c) * nanos_per_sec →
  is_Some (datetime_add (rr_now_access req) (access_token_ttl self)) →
  (∀ d, is_Some (sign_with_key (signing_key self) Rs256 d)) →
  ∃ tok, refresh_access_token self req q = (Done tok, q) ∧
    pb_expires_at_utc tok = timestamp (rr_now_access req + access_token_ttl self).
Proof.
  intros Hpair Hadd Hsign Hh Htok Hexp [e He] Hsig.
  set (c' := {| client_ip := client_ip c; client_pubkey := client_pubkey c; expires_at_utc := e |}).
  destruct (Hsig (DeSerClaims_from c')) as [token' Hs']. exists (pb_token token' c'). split.
  - apply refresh_access_token_iff. split; [done|]. split; [done|].
    eexists Rs256, (DeSerClaims_from c), _, c', token'. rewrite Htok.
    split; [by eapply jwt_sign_verify|].
    split; [by eapply claims_roundtrip_done|].
    split; [unfold claims_is_expired; cbn; by apply Z.leb_gt|]. done.
  - cbn. by rewrite (datetime_add_spec _ _ _ He).
Qed.

Lemma kpq_len_shrinks (q q' : kpq (KeyedPriorityQueue := Q)) :
  kpq_view q' ⊆ kpq_view q → (kpq_len q' ≤ kpq_len q)%nat.
Proof. rewrite !kpq_len_view. apply map_subseteq_size. Qed.

Lemma capacity_step k st st' :
  length st.2 = k ∧ Z.of_nat (kpq_len st.1) + pushers st.2
    <= AUTH_CHALLENGES_CAPACITY - 1 + Z.of_nat k →
  auth_step (Q := Q) (J := J) policy st st' →
  length st'.2 = k ∧ Z.of_nat (kpq_len st'.1) + pushers st'.2
    <= AUTH_CHALLENGES_CAPACITY - 1 + Z.of_nat k.
Proof.
  intros [Hk Hcap] Hstep. destruct Hstep as
    [i req ip q pcs Hi Hb|i req ip self q pcs r Hi _ _ _|i req ip self c q pcs Hi _ _
    |i ip c q q' pcs Hi Hp|i self req ip resp q pcs Hi _|i ip q q' pcs Hi Hr|clock q q' pcs Hc Hr];
    cbn in *; rewrite ?length_insert; (split; [done|]);
    try (rewrite (pushers_insert _ _ _ _ Hi); cbn [may_push Z.b2z]); try lia.
  - apply challenge_begin_done in Hb as (_ & _ & Hlen & _).
    pose proof (pushers_bound (<[i := Looking req ip]> pcs)) as Hb.
    rewrite (pushers_insert _ _ _ _ Hi), length_insert in Hb. cbn in Hb. lia.
  - injection Hp as <-. rewrite kpq_len_view in *. rewrite kpq_push_view.
    assert (size (<[ip := c]> (kpq_view q)) ≤ S (size (kpq_view q)))%nat; [|lia].
    rewrite map_size_insert. destruct (kpq_view q !! ip); cbn [id]; unfold id; lia.
  - injection Hr as <-. pose proof (kpq_len_shrinks q (kpq_remove ip q)) as Hs.
    rewrite kpq_remove_view in Hs. specialize (Hs (delete_subseteq _ _)). lia.
  - destruct (challenges_remove_all_expired_done (E := Empty_set) clock q Hc)
      as (m & q2 & _ & Hr2 & Hv).
    assert (q' = q2) as -> by congruence. pose proof (kpq_len_shrinks q q2) as Hs. rewrite Hv in Hs.
    specialize (Hs (map_filter_subseteq _ _)). lia.
Qed.

(** C34: The capacity test and the push are separate accesses, so concurrent handlers
    can overrun the capacity, but by less than one challenge for each handler:
    with [k] handlers the queue never holds more than [capacity - 1 + k]. *)
Theorem challenges_capacity k q pcs :
  rtc (auth_step (Q := Q) (J := J) policy) (kpq_default, replicate k Idle) (q, pcs) →
  Z.of_nat (kpq_len q) <= AUTH_CHALLENGES_CAPACITY - 1 + Z.of_nat k.
Proof.
  intros Hrtc.
  enough (Hinv : length pcs = k ∧
    Z.of_nat (kpq_len q) + pushers pcs <= AUTH_CHALLENGES_CAPACITY - 1 + Z.of_nat k).
  { pose proof (pushers_bound pcs). lia. }
  refine (rtc_invariant _ (λ st, length st.2 = k ∧ Z.of_nat (kpq_len st.1) + pushers st.2
    <= AUTH_CHALLENGES_CAPACITY - 1 + Z.of_nat k) _ _ _ _ Hrtc).
  - apply capacity_step.
  - cbn. rewrite length_replicate, kpq_len_view, kpq_default_view, map_size_empty.
    rewrite pushers_idle. split; [done|]. unfold AUTH_CHALLENGES_CAPACITY. lia.
Qed.
End auth_service_theorems.

(** ** Concrete inputs *)

Definition toy_service : AuthServiceImpl (J := toy_jwt DeSerClaims) (V := ValidatorStore) :=
  {| validator_auther := UserDefined {["a"%char]}; signing_key := "k"%char;
     service_verifying_key := "k"%char; access_token_ttl := 1000 * nanos_per_sec;
     refresh_token_ttl := 5000 * nanos_per_sec; challenge_ttl := 300 * nanos_per_sec |}.
Definition toy_ip : IpAddr := IpV4 1 2 3 4.

(** A validator asks for a challenge at time zero and redeems it. *)
Definition toy_challenge_request : ChallengeRequest :=
  {| cr_health := Healthy; cr_remote_addr := Some toy_ip; cr_role := 1;
     cr_pubkey := pubkey_to_bytes ("a"%char : Pubkey);
     cr_now_expired := 0; cr_now_access := 0; cr_now_refresh := 0; cr_now_challenge := 0;
     cr_samples _ := "7"%char |}.
Definition toy_issued : AuthChallenge :=
  {| challenge := "777777777";
     access_claims := {| client_ip := toy_ip; client_pubkey := "a"%char;
                         expires_at_utc := 1000 * nanos_per_sec |};
     refresh_claims := {| client_ip := toy_ip; client_pubkey := "a"%char;
                          expires_at_utc := 5000 * nanos_per_sec |};
     challenge_expires_at_utc := 300 * nanos_per_sec |}.
Definition toy_store : gmap IpAddr AuthChallenge := {[toy_ip := toy_issued]}.
Definition toy_tokens_request : TokensRequest :=
  {| tr_health := Healthy; tr_remote_addr := Some toy_ip;
     tr_client_pubkey := pubkey_to_bytes ("a"%char : Pubkey);
     tr_challenge := "Ka-777777777";
     tr_signed_challenge := sign_message ("a"%char : Keypair)
       (String.list_byte_of_string "Ka-777777777") |}.
Definition toy_response : TokensResponse :=
  {| access_token := pb_token (String "k"%char (countable_text
       (Rs256, DeSerClaims_from (access_claims toy_issued)))) (access_claims toy_issued);
     refresh_token := pb_token (String "k"%char (countable_text
       (Rs256, DeSerClaims_from (refresh_claims toy_issued)))) (refresh_claims toy_issued) |}.
Local Abbreviation toy_q := (map_kpq reverse_cmp).
Local Abbreviation toy_step :=
  (auth_step (Q := toy_q) (J := toy_jwt DeSerClaims) (λ v : ValidatorStore, v = UserDefined {["a"%char]})).

Lemma toy_run : rtc toy_step (kpq_default, replicate 1 Idle) (toy_store, [Idle]).
Proof.
  eapply rtc_l; [apply (step_challenge_begin _ 0 toy_challenge_request toy_ip); reflexivity|].
  eapply rtc_l.
  { apply (step_challenge_new _ 0 toy_challenge_request toy_ip toy_service toy_issued);
      [reflexivity|reflexivity|vm_refl]. }
  apply rtc_once.
  exact (step_challenge_push _ 0 toy_ip toy_issued kpq_default toy_store [Pushing toy_ip toy_issued]
    eq_refl eq_refl).
Defined.

Lemma toy_prepare :
  tokens_prepare (Q := toy_q) toy_service toy_tokens_request toy_store
    = (Done (toy_ip, toy_response), toy_store).
Proof. vm_refl. Qed.

Lemma issued_tokens_accepted_witness :
  rtc toy_step (kpq_default, replicate 1 Idle) (toy_store, [Idle]) ∧
  interceptor_call toy_interceptor
    (Some (Some (BEARER +:+ value (access_token toy_response))%string)) tt = (Done "a"%char, tt).
Proof.
  split; [exact toy_run|].
  destruct (issued_tokens_accepted (Q := toy_q) (J := toy_jwt DeSerClaims)
    (λ v : ValidatorStore, v = UserDefined {["a"%char]}) 1 toy_store [Idle] toy_service
    toy_tokens_request toy_ip toy_response toy_store tt toy_run (toy_key_pair DeSerClaims) toy_prepare)
    as (c & pk & v & _ & _ & -> & Ha & Hacc).
  apply bool_decide_eq_true, elem_of_singleton in Ha. subst pk. apply Hacc. by left.
Defined.

Lemma challenges_capacity_witness :
  rtc toy_step (kpq_default, replicate 1 Idle) (toy_store, [Idle]) ∧
  Z.of_nat (kpq_len (KeyedPriorityQueue := toy_q) toy_store) <= 100000.
Proof.
  split; [exact toy_run|].
  apply (challenges_capacity (Q := toy_q) (J := toy_jwt DeSerClaims)
    (λ v : ValidatorStore, v = UserDefined {["a"%char]}) 1 toy_store [Idle] toy_run).
Defined.

Lemma challenge_single_use_witness :
  generate_auth_tokens (Q := toy_q) toy_service toy_tokens_request toy_store = (Done toy_response, ∅) ∧
  ∀ resp q, generate_auth_tokens (Q := toy_q) toy_service toy_tokens_request ∅ ≠ (Done resp, q).
Proof.
  assert (Hr : generate_auth_tokens (Q := toy_q) toy_service toy_tokens_request toy_store
    = (Done toy_response, ∅)) by (vm_refl).
  split; [exact Hr|].
  destruct (challenge_single_use (Q := toy_q) toy_service toy_tokens_request toy_store
    toy_response ∅ Hr) as [_ Hno].
  exact (Hno toy_tokens_request eq_refl).
Defined.

Lemma toy_submission : valid_submission toy_tokens_request toy_issued "a"%char.
Proof. eexists _, _. split_and!; [reflexivity..|vm_refl]. Qed.

Lemma expired_challenge_redeemed_witness :
  let later := {toy_challenge_request with cr_now_expired := 301 * nanos_per_sec;
                                           cr_samples := (λ _, "8"%char)} in
  challenge_is_expired (301 * nanos_per_sec) toy_issued = true ∧
  (∃ c' q', generate_auth_challenge (Q := toy_q) toy_service later toy_store = (Done "888888888"%string, q') ∧
    fresh_challenge toy_service later toy_ip c') ∧
  ∃ resp, generate_auth_tokens (Q := toy_q) toy_service toy_tokens_request toy_store = (Done resp, ∅).
Proof.
  intros later. split; [reflexivity|].
  destruct (expired_challenge_redeemed (Q := toy_q) toy_service toy_tokens_request toy_store toy_ip
    toy_issued "a"%char (301 * nanos_per_sec)) as (Hnew & resp & _ & Hr);
    [vm_refl|reflexivity|reflexivity|reflexivity|exact toy_submission|by eexists|by eexists|].
  split; [|exists resp; rewrite Hr; vm_refl].
  set (q' := (generate_auth_challenge (Q := toy_q) toy_service later toy_store).2).
  assert (Hq : generate_auth_challenge (Q := toy_q) toy_service later toy_store
    = (Done "888888888"%string, q')) by vm_refl.
  destruct (Hnew later "888888888"%string q' eq_refl eq_refl Hq) as (c' & Hf & _).
  exists c', q'. by split.
Defined.

Lemma access_token_refreshes_witness :
  let req := {| rr_health := Healthy; rr_refresh_token := value (access_token toy_response);
                rr_now_expired := 900 * nanos_per_sec; rr_now_access := 900 * nanos_per_sec |} in
  ∃ tok, refresh_access_token (Q := toy_q) toy_service req ∅ = (Done tok, ∅) ∧
    pb_expires_at_utc tok = 1900.
Proof.
  intros req.
  destruct (access_token_refreshes (Q := toy_q) toy_service req ∅ (access_claims toy_issued)
    (rr_refresh_token req) 0 (1000 * nanos_per_sec)) as (tok & Hr & Hexp);
    [apply toy_key_pair|reflexivity|reflexivity|reflexivity|reflexivity|reflexivity|by eexists
    |by eexists|].
  exists tok. split; [exact Hr|]. by rewrite Hexp.
Defined.

(** The validator retries while its first submission is being handled, and asks again. *)
Lemma late_removal_drops_challenge_witness :
  let again := {toy_challenge_request with cr_samples := (λ _, "8"%char)} in
  ∃ q1 q2 c', challenge c' = "888888888"%string ∧
    rtc toy_step (toy_store, [Idle; Idle]) (toy_store, [Removing toy_ip; Removing toy_ip]) ∧
    rtc toy_step (toy_store, [Removing toy_ip; Removing toy_ip]) (q1, [Idle; Removing toy_ip]) ∧
    kpq_get_priority (KeyedPriorityQueue := toy_q) toy_ip q1 = Some c' ∧
    toy_step (q1, [Idle; Removing toy_ip]) (q2, [Idle; Idle]).
Proof.
  intros again.
  set (c' := {| challenge := "888888888"; access_claims := access_claims toy_issued;
    refresh_claims := refresh_claims toy_issued;
    challenge_expires_at_utc := challenge_expires_at_utc toy_issued |}).
  destruct (late_removal_drops_challenge (Q := toy_q) (J := toy_jwt DeSerClaims)
    (λ v : ValidatorStore, v = UserDefined {["a"%char]}) toy_service toy_tokens_request again
    toy_store toy_ip toy_issued c' "a"%char [Idle; Idle] 0 1)
    as (resp & q1 & q2 & _ & _ & H1 & H2 & H3 & H4 & _);
    [done|reflexivity|reflexivity|reflexivity|reflexivity|reflexivity|vm_refl|exact toy_submission
    |by eexists|by eexists|vm_refl|vm_refl|].
  exists q1, q2, c'. split; [reflexivity|]. split; [exact H1|]. split; [exact H2|].
  split; [exact H3|exact H4].
Defined.
