(* ===== verification/Redemptions.v ===== *)
(** * How often a challenge is redeemed

    [generate_auth_tokens] reads the challenge of an address and removes it in two accesses
    to the queue, so concurrent handlers can redeem one challenge more than once
    ([AuthService.late_removal_drops_challenge]).  Here is how much more: once for each
    handler. *)

From S2P Require Import Prelude External Instances AuthInterceptor AuthChallenges AuthService.
Local Open Scope Z_scope.

Section redemptions.
Context `{Sdk} `{!IpText} `{!Chrono} `{!Ed25519} `{!ProtoRoles} `{J : !Jwt DeSerClaims}.
Context `{Q : !KeyedPriorityQueue IpAddr AuthChallenge reverse_cmp} `{!KeyedPriorityQueueLaws}.
Context {V : Type} `{!ValidatorAuther V}.
Variable policy : V → Prop.
Variable ip : IpAddr.
Local Abbreviation Handlers := (kpq (KeyedPriorityQueue := Q) * list HandlerPc)%type.
Local Abbreviation step := (auth_step (Q := Q) (J := J) policy).
Implicit Types (pcs : list HandlerPc) (q : kpq (KeyedPriorityQueue := Q)) (st : Handlers).
Implicit Types (self : AuthServiceImpl (J := J) (V := V)).

(** The handlers that have issued tokens to [ip] and have yet to remove the challenge, and
    those that hold a new challenge for it and have yet to push it. *)
Definition is_removing (pc : HandlerPc) : bool :=
  match pc with Removing ip' => bool_decide (ip' = ip) | _ => false end.
Definition is_pushing (pc : HandlerPc) : bool :=
  match pc with Pushing ip' _ => bool_decide (ip' = ip) | _ => false end.
Definition count_pcs (f : HandlerPc → bool) pcs : Z := Z.of_nat (length (List.filter f pcs)).

(** A step that issues tokens to [ip] is the one that adds to the former, a push for [ip]
    the one that takes from the latter. *)
Definition tokens_issued st st' : Z := Z.max 0 (count_pcs is_removing st'.2 - count_pcs is_removing st.2).
Definition challenges_pushed st st' : Z := Z.max 0 (count_pcs is_pushing st.2 - count_pcs is_pushing st'.2).

(** A run in which tokens were issued to [ip] [n] times and challenges pushed for it [p]
    times. *)
Inductive auth_run : Z → Z → relation Handlers :=
| auth_run_refl st : auth_run 0 0 st st
| auth_run_step n p st st1 st2 :
    auth_run n p st st1 → step st1 st2 →
    auth_run (n + tokens_issued st1 st2) (p + challenges_pushed st1 st2) st st2.

(** How often the pending challenge of [ip], if any, may still be redeemed: once by each
    handler that is not about to remove it. *)
Definition redeemable st : Z :=
  if kpq_get_priority ip st.1 then Z.of_nat (length st.2) - count_pcs is_removing st.2 else 0.

Lemma count_bounds f pcs : 0 <= count_pcs f pcs <= Z.of_nat (length pcs).
Proof. unfold count_pcs. pose proof (List.filter_length_le f pcs). lia. Qed.
Lemma redeemable_nonneg st : 0 <= redeemable st.
Proof. unfold redeemable. pose proof (count_bounds is_removing st.2). case_match; lia. Qed.
Lemma redeemable_at_most st : redeemable st <= Z.of_nat (length st.2).
Proof. unfold redeemable. pose proof (count_bounds is_removing st.2). case_match; lia. Qed.

Lemma auth_step_length st st' : step st st' → length st'.2 = length st.2.
Proof. by intros []; cbn; rewrite ?length_insert. Qed.

(** Between two pushes the sum of what was issued and what may still be never grows. *)
Lemma redeemable_step st st' :
  step st st' →
  tokens_issued st st' + redeemable st' <=
    redeemable st + Z.of_nat (length st.2) * challenges_pushed st st'.
Proof.
  intros Hstep. pose proof (redeemable_nonneg st) as Hpos. pose proof (redeemable_at_most st') as Hmax.
  rewrite (auth_step_length _ _ Hstep) in Hmax.
  unfold tokens_issued, challenges_pushed, redeemable, count_pcs in *. revert Hpos Hmax.
  destruct Hstep as
    [i req ip' q pcs Hi _|i req ip' self q pcs r Hi _ _ _|i req ip' self c q pcs Hi _ _
    |i ip' c q q' pcs Hi Hp|i self req ip' resp q pcs Hi Ht|i ip' q q' pcs Hi Hr|clock q q' pcs Hc Hr];
    cbn [fst snd]; rewrite ?length_insert, ?(length_filter_insert is_removing _ _ _ _ Hi),
      ?(length_filter_insert is_pushing _ _ _ _ Hi); cbn [is_removing is_pushing Z.b2z].
  - intros ??. case_match; lia.
  - intros ??. case_match; lia.
  - intros ??. case_bool_decide; cbn; case_match; lia.
  - injection Hp as <-. intros ?. case_bool_decide as Hip; cbn [Z.b2z]; [intros; nia|].
    rewrite !kpq_get_priority_view, kpq_push_view, lookup_insert_ne by done. intros ?. case_match; lia.
  - apply tokens_prepare_done in Ht as (_ & _ & _ & c & _ & Hc & _).
    case_bool_decide as Hip; cbn [Z.b2z]; [subst ip'; rewrite Hc; lia|].
    intros ??. case_match; lia.
  - injection Hr as <-. rewrite !kpq_get_priority_view, kpq_remove_view.
    case_bool_decide as Hip; cbn [Z.b2z].
    + subst ip'. rewrite lookup_delete_eq. lia.
    + rewrite lookup_delete_ne by done. intros ??. case_match; lia.
  - destruct (challenges_remove_all_expired_done (E := Empty_set) clock q Hc) as (m & q2 & _ & Hr2 & Hv).
    assert (q' = q2) as -> by congruence. rewrite !kpq_get_priority_view, Hv. unfold valid_at.
    destruct (filter _ _ !! ip) as [c|] eqn:Hf; [|intros; lia].
    apply map_lookup_filter_Some in Hf as [-> _]. intros; lia.
Qed.

Lemma auth_run_bound n p st st' :
  auth_run n p st st' → length st'.2 = length st.2 ∧
  n + redeemable st' <= redeemable st + Z.of_nat (length st.2) * p.
Proof.
  induction 1 as [st|n p st st1 st2 _ [Hlen IH] Hstep]; [split; [done|lia]|].
  rewrite (auth_step_length _ _ Hstep). split; [done|].
  pose proof (redeemable_step _ _ Hstep). rewrite Hlen in *. lia.
Qed.

(** The step in which an idle handler issues tokens counts as one. *)
Lemma issuing_counts q q' pcs i :
  pcs !! i = Some Idle →
  tokens_issued (q, pcs) (q', <[i := Removing ip]> pcs) = 1 ∧
  challenges_pushed (q, pcs) (q', <[i := Removing ip]> pcs) = 0.
Proof.
  intros Hi. unfold tokens_issued, challenges_pushed, count_pcs. cbn [snd].
  rewrite !(length_filter_insert _ _ _ _ _ Hi). cbn [is_removing is_pushing Z.b2z].
  rewrite bool_decide_true by done. cbn [Z.b2z]. lia.
Qed.

(** While the challenge stays, one idle handler after the other issues tokens. *)
Lemma all_handlers_issue self req resp q m k :
  tokens_prepare self req q = (Done (ip, resp), q) →
  auth_run (Z.of_nat m) 0 (q, replicate (m + k) Idle) (q, replicate m (Removing ip) ++ replicate k Idle).
Proof.
  intros Hissue. revert k. induction m as [|m IH]; intros k; [apply auth_run_refl|].
  set (pcs := replicate m (Removing ip) ++ replicate (S k) Idle).
  assert (pcs !! m = Some Idle) as Hm.
  { unfold pcs. rewrite lookup_app_r by (by rewrite length_replicate).
    by rewrite length_replicate, Nat.sub_diag. }
  assert (<[m := Removing ip]> pcs = replicate (S m) (Removing ip) ++ replicate k Idle) as <-.
  { unfold pcs. rewrite insert_app_r_alt by (by rewrite length_replicate).
    rewrite length_replicate, Nat.sub_diag. cbn. by rewrite app_comm_cons, replicate_cons_app, <-app_assoc. }
  assert (step (q, pcs) (q, <[m := Removing ip]> pcs)) as Hstep by (by eapply step_tokens_prepare).
  pose proof (auth_run_step _ _ _ _ _ (IH (S k)) Hstep) as Hrun.
  destruct (issuing_counts q q pcs m Hm) as [Hone Hnone]. fold pcs in Hrun.
  rewrite Hone, Hnone in Hrun. replace (m + S k)%nat with (S m + k)%nat in Hrun by lia.
  by replace (Z.of_nat (S m)) with (Z.of_nat m + 1) by lia.
Qed.

(** C35: With [k] handlers tokens are issued to an address at most [k] times for each
    challenge pushed for it, whatever the interleaving of handlers and cleanups; counted
    from any point, at most as often as there are handlers that are not about to remove
    the pending challenge, plus [k] times for each later push.  And all [k] can be had from
    one challenge: while the first to issue have yet to remove it, every idle handler
    accepts the same submission. *)
Theorem redemptions_bounded k n p q pcs st' :
  length pcs = k → auth_run n p (q, pcs) st' →
  n + redeemable st' <= redeemable (q, pcs) + Z.of_nat k * p ∧
  redeemable (q, pcs) <= Z.of_nat k ∧
  (kpq_get_priority ip q = None → n <= Z.of_nat k * p) ∧
  ∀ self req resp q1, tokens_prepare self req q1 = (Done (ip, resp), q1) →
    auth_run (Z.of_nat k) 0 (q1, replicate k Idle) (q1, replicate k (Removing ip)).
Proof.
  intros <- Hrun. destruct (auth_run_bound _ _ _ _ Hrun) as [_ Hbound]. cbn in Hbound.
  pose proof (redeemable_nonneg st'). split_and!; [done|apply (redeemable_at_most (q, pcs))| |].
  - intros Hnone. unfold redeemable at 2 in Hbound. cbn in Hbound. rewrite Hnone in Hbound. lia.
  - intros self req resp q1 Hissue. pose proof (all_handlers_issue self req resp q1 (length pcs) 0 Hissue) as Hall.
    by rewrite Nat.add_0_r, app_nil_r in Hall.
Qed.
End redemptions.

(** ** Concrete inputs *)

Local Abbreviation toy_auth_run := (auth_run (Q := map_kpq reverse_cmp) (J := toy_jwt DeSerClaims)
  (λ v : ValidatorStore, v = UserDefined {["a"%char]}) toy_ip).

(** The three handlers of a service can all redeem the one challenge of the toy store. *)
Lemma redemptions_bounded_witness :
  toy_auth_run 3 0 (toy_store, [Idle; Idle; Idle])
    (toy_store, [Removing toy_ip; Removing toy_ip; Removing toy_ip]) ∧
  redeemable (Q := map_kpq reverse_cmp) toy_ip (toy_store, [Idle; Idle; Idle]) = 3.
Proof.
  destruct (redemptions_bounded (Q := map_kpq reverse_cmp) (J := toy_jwt DeSerClaims)
    (λ v : ValidatorStore, v = UserDefined {["a"%char]}) toy_ip 3 0 0 toy_store [Idle; Idle; Idle]
    (toy_store, [Idle; Idle; Idle]) eq_refl (auth_run_refl _ _ _)) as (_ & _ & _ & Hall).
  split; [|vm_refl]. exact (Hall _ _ _ _ toy_prepare).
Defined.
