(* ===== verification/Forwarder.v ===== *)
(** * The forward-and-delay thread ([transaction-relayer/src/forwarder.rs])

    Each verified batch is offered to the block engine at once and held back for
    [packet_delay] before it goes to the relayer. *)

From S2P Require Import Prelude External Instances Packets.
Local Open Scope Z_scope.

Definition BLOCK_ENGINE_FORWARDER_QUEUE_CAPACITY : Z := 5000.
Definition metrics_interval : Z := nanos_per_sec.

Record ForwarderMetrics := {
  num_batches_received : Z;
  num_packets_received : Z;
  num_be_packets_forwarded : Z;
  num_be_packets_dropped : Z;
  num_be_sender_full : Z;
  num_relayer_packets_forwarded : Z;
  buffered_packet_batches_max_len : Z;
  buffered_packet_batches_capacity : Z;
  verified_receiver_max_len : Z;
  verified_receiver_capacity : Z;
  block_engine_sender_max_len : Z;
  block_engine_sender_capacity : Z }.

Definition ForwarderMetrics_new (buffered_cap receiver_cap be_cap : Z) : ForwarderMetrics :=
  {| num_batches_received := 0; num_packets_received := 0;
     num_be_packets_forwarded := 0; num_be_packets_dropped := 0; num_be_sender_full := 0;
     num_relayer_packets_forwarded := 0;
     buffered_packet_batches_max_len := 0; buffered_packet_batches_capacity := buffered_cap;
     verified_receiver_max_len := 0; verified_receiver_capacity := receiver_cap;
     block_engine_sender_max_len := 0; block_engine_sender_capacity := be_cap |}.

Definition update_queue_lengths (buffered_len buffered_cap receiver_len be_len : Z)
    (m : ForwarderMetrics) : ForwarderMetrics :=
  {m with buffered_packet_batches_max_len ::= (λ x, Z.max x buffered_len);
          buffered_packet_batches_capacity ::= (λ x, Z.max x buffered_cap);
          verified_receiver_max_len ::= (λ x, Z.max x receiver_len);
          block_engine_sender_max_len ::= (λ x, Z.max x be_len)}.

(** The fields of the datapoint, each cast to [i64]. *)
Definition forwarder_report (thread_id delay : Z) (m : ForwarderMetrics) : list (string * Z) :=
  map (prod_map id as_i64)
   [("thread_id", thread_id); ("delay", delay);
    ("num_batches_received", num_batches_received m);
    ("num_packets_received", num_packets_received m);
    ("num_be_packets_forwarded", num_be_packets_forwarded m);
    ("num_be_packets_dropped", num_be_packets_dropped m);
    ("num_be_sender_full", num_be_sender_full m);
    ("num_relayer_packets_forwarded", num_relayer_packets_forwarded m);
    ("buffered_packet_batches_len", buffered_packet_batches_max_len m);
    ("buffered_packet_batches_capacity", buffered_packet_batches_capacity m);
    ("verified_receiver_len", verified_receiver_max_len m);
    ("verified_receiver_capacity", verified_receiver_capacity m);
    ("block_engine_sender_len", block_engine_sender_max_len m);
    ("block_engine_sender_capacity", block_engine_sender_capacity m)].

Section forwarder.
Context `{Sdk}.
(** The thread's parameters; [packet_delay_ms] is a [u32]. *)
Variables (thread_id packet_delay_ms : Z) (disable_mempool : bool).
Definition packet_delay : Z := packet_delay_ms * 1000000.

(** The locals of the thread, what it has sent, and how many more sends on the
    delay channel succeed before its receiver is gone ([None]: it stays). *)
Record Forwarder := {
  buffered_packet_batches : list RelayerPacketBatches;
  forwarder_metrics : ForwarderMetrics;
  last_metrics_upload : Z;
  be_sent : list BlockEnginePackets;
  delay_sent : list RelayerPacketBatches;
  delay_accepts : option nat;
  reports : list (list (string * Z)) }.

Inductive RecvTimeoutResult :=
| RecvOk (banking_packet_batch : BankingPacketBatch)
| RecvTimeoutErr
| RecvDisconnected.

(** What one iteration reads, in this order; [fi_clock n] is the clock of the
    [n]-th turn of the drain loop. *)
Record ForwarderInput := {
  fi_upload_elapsed_now : Z;
  fi_capacities : Z * Z * Z;
  fi_upload_now : Z;
  fi_recv : RecvTimeoutResult;
  fi_instant : Z;
  fi_system_time : Z;
  fi_be_answer : option TrySendError;
  fi_clock : nat → Z;
  fi_buffered_capacity : Z;
  fi_receiver_len : Z;
  fi_be_capacity : Z }.

Definition upload_metrics (i : ForwarderInput) (st : Forwarder) : Forwarder :=
  if metrics_interval <=? elapsed (fi_upload_elapsed_now i) (last_metrics_upload st) then
    let '(buffered_cap, receiver_cap, be_cap) := fi_capacities i in
    {st with reports ::= (λ l,
               l ++ [forwarder_report thread_id packet_delay_ms (forwarder_metrics st)]);
             forwarder_metrics := ForwarderMetrics_new buffered_cap receiver_cap be_cap;
             last_metrics_upload := fi_upload_now i}
  else st.

Definition with_metrics (f : ForwarderMetrics → ForwarderMetrics) : Prog Forwarder Empty_set unit :=
  modify (λ st, {st with forwarder_metrics ::= f}).

(** [block_engine_sender.try_send(..)], whose answer is an input *)
Definition offer_block_engine (i : ForwarderInput) (batch : BankingPacketBatch)
    (num_packets : Z) : Prog Forwarder Empty_set unit :=
  match fi_be_answer i with
  | None =>
      modify (λ st, {st with be_sent ::= (λ l, l ++ [
        {| be_banking_packet_batch := batch; be_stamp := fi_system_time i;
           expiration := packet_delay_ms |}])}) ;;
      with_metrics (λ m, {m with num_be_packets_forwarded ::= (λ x, u64_add x num_packets)})
  | Some Closed => panic "error sending packet batch to block engine handler"
  | Some Full =>
      with_metrics (λ m, {m with num_be_packets_dropped ::= (λ x, u64_add x num_packets);
                                 num_be_sender_full ::= (λ x, u64_add x 1)})
  end.

Definition receive_batch (i : ForwarderInput) : Prog Forwarder Empty_set unit :=
  match fi_recv i with
  | RecvOk batch =>
      let num_packets := count_packets batch in
      with_metrics (λ m, {m with num_batches_received ::= (λ x, u64_add x 1);
                                 num_packets_received ::= (λ x, u64_add x num_packets)}) ;;
      (if negb disable_mempool then offer_block_engine i batch num_packets else mret tt) ;;
      modify (λ st, {st with buffered_packet_batches ::= (λ l, l ++ [
        {| stamp := fi_instant i; banking_packet_batch := batch |}])})
  | RecvTimeoutErr => mret tt
  | RecvDisconnected => panic "packet receiver disconnected"
  end.

(** [delay_packet_sender.send(batch).expect(..)] *)
Definition send_delayed (batch : RelayerPacketBatches) : Prog Forwarder Empty_set unit :=
  room ← gets delay_accepts;
  match room with
  | Some O => panic "exiting forwarding delayed packets"
  | _ => modify (λ st, {st with delay_sent ::= (λ l, l ++ [batch]); delay_accepts := pred <$> room})
  end.

(** The [while let Some(..) = front()] loop, on the buffer it finds. *)
Fixpoint drain_buffer (clock : nat → Z) (n : nat) (buffered : list RelayerPacketBatches)
    : Prog Forwarder Empty_set unit :=
  match buffered with
  | [] => mret tt
  | batch :: rest =>
      if elapsed (clock n) (stamp batch) <? packet_delay then mret tt
      else
        modify (λ st, {st with buffered_packet_batches := rest}) ;;
        with_metrics (λ m, {m with num_relayer_packets_forwarded ::=
          (λ x, u64_add x (count_packets (banking_packet_batch batch)))}) ;;
        send_delayed batch ;;
        drain_buffer clock (S n) rest
  end.

Definition forwarder_iteration (i : ForwarderInput) : Prog Forwarder Empty_set unit :=
  modify (upload_metrics i) ;;
  receive_batch i ;;
  buffered ← gets buffered_packet_batches;
  drain_buffer (fi_clock i) 0 buffered ;;
  buffered ← gets buffered_packet_batches;
  with_metrics (update_queue_lengths (Z.of_nat (length buffered)) (fi_buffered_capacity i)
    (fi_receiver_len i) (u64_sub BLOCK_ENGINE_FORWARDER_QUEUE_CAPACITY (fi_be_capacity i))).

Definition forwarder_thread := run_loop forwarder_iteration.

Definition Forwarder_new (capacities : Z * Z * Z) (now : Z) (accepts : option nat) : Forwarder :=
  let '(buffered_cap, receiver_cap, be_cap) := capacities in
  {| buffered_packet_batches := [];
     forwarder_metrics := ForwarderMetrics_new buffered_cap receiver_cap be_cap;
     last_metrics_upload := now; be_sent := []; delay_sent := [];
     delay_accepts := accepts; reports := [] |}.

(** The batch an iteration receives, as it buffers it and as it offers it. *)
Definition received (i : ForwarderInput) : list RelayerPacketBatches :=
  match fi_recv i with
  | RecvOk batch => [{| stamp := fi_instant i; banking_packet_batch := batch |}]
  | _ => []
  end.
Definition offered (i : ForwarderInput) : list BlockEnginePackets :=
  match fi_recv i, disable_mempool, fi_be_answer i with
  | RecvOk batch, false, None =>
      [{| be_banking_packet_batch := batch; be_stamp := fi_system_time i;
          expiration := packet_delay_ms |}]
  | _, _, _ => []
  end.

(** [released clock n sent buffered rest]: the loop sends [sent], a prefix of
    [buffered], each batch held back long enough by the clock of its turn, and
    stops at [rest], empty or headed by a batch not old enough. *)
Inductive released (clock : nat → Z)
    : nat → list RelayerPacketBatches → list RelayerPacketBatches → list RelayerPacketBatches → Prop :=
| released_empty n : released clock n [] [] []
| released_young n batch rest :
    elapsed (clock n) (stamp batch) < packet_delay → released clock n [] (batch :: rest) (batch :: rest)
| released_old n batch sent buffered rest :
    packet_delay <= elapsed (clock n) (stamp batch) →
    released clock (S n) sent buffered rest →
    released clock n (batch :: sent) (batch :: buffered) rest.
End forwarder.

(** ** Theorems *)

Section forwarder_theorems.
Context `{Sdk}.
Variables (thread_id packet_delay_ms : Z) (disable_mempool : bool).
Local Abbreviation iteration := (forwarder_iteration thread_id packet_delay_ms disable_mempool).
Local Abbreviation thread := (forwarder_thread thread_id packet_delay_ms disable_mempool).
Local Abbreviation drain := (drain_buffer packet_delay_ms).

(** What the counters of the block engine have in common with the packets received. *)
Definition be_accounted (m : ForwarderMetrics) : Prop :=
  if disable_mempool then num_be_packets_forwarded m = 0 ∧ num_be_packets_dropped m = 0
  else u64_add (num_be_packets_forwarded m) (num_be_packets_dropped m) = num_packets_received m.

Lemma upload_metrics_keeps i st :
  let st' := upload_metrics thread_id packet_delay_ms i st in
  buffered_packet_batches st' = buffered_packet_batches st ∧ delay_sent st' = delay_sent st ∧
  be_sent st' = be_sent st ∧ delay_accepts st' = delay_accepts st ∧
  (be_accounted (forwarder_metrics st) → be_accounted (forwarder_metrics st')).
Proof.
  unfold upload_metrics, be_accounted. destruct st as [buf m up be sent acc rep].
  destruct (_ <=? _); [|by destruct disable_mempool].
  destruct (fi_capacities i) as [[c1 c2] c3]. cbn. by destruct disable_mempool.
Qed.

Lemma drain_buffer_done clock n buffered st st' :
  buffered_packet_batches st = buffered →
  drain clock n buffered st = (Done tt, st') →
  ∃ sent, released packet_delay_ms clock n sent buffered (buffered_packet_batches st') ∧
    delay_sent st' = delay_sent st ++ sent ∧ be_sent st' = be_sent st ∧
    (be_accounted (forwarder_metrics st) → be_accounted (forwarder_metrics st')).
Proof.
  revert n st; induction buffered as [|b rest IH]; intros n st Hbuf; cbn [drain_buffer].
  { intros [= <-]. exists []. rewrite Hbuf, app_nil_r. by split; [constructor|]. }
  destruct (Z.ltb_spec (elapsed (clock n) (stamp b)) (packet_delay packet_delay_ms)).
  { intros [= <-]. exists []. rewrite Hbuf, app_nil_r. by split; [constructor|]. }
  intros Hd. unfold with_metrics, send_delayed in Hd.
  destruct st as [buf [] up be sent acc rep]. prog_unfold. cbn in *.
  destruct acc as [[|k]|]; [done| |];
    (apply IH in Hd as (sent' & Hrel & Hsent & Hbe & Hacc); [|done]);
    (exists (b :: sent'); cbn in Hsent; rewrite <-app_assoc in Hsent;
     by split; [constructor|]).
Qed.

Lemma drain_buffer_runs clock n buffered st :
  delay_accepts st = None → ∃ st', drain clock n buffered st = (Done tt, st').
Proof.
  revert n st; induction buffered as [|b rest IH]; intros n st Hacc; cbn [drain_buffer].
  { by exists st. }
  destruct (_ <? _); [by exists st|]. unfold with_metrics, send_delayed.
  destruct st as [buf m up be sent acc rep]. prog_unfold. cbn in *. subst.
  by apply IH.
Qed.

Lemma drain_buffer_accepts clock n buffered st :
  delay_accepts st = None → delay_accepts (drain clock n buffered st).2 = None.
Proof.
  revert n st; induction buffered as [|b rest IH]; intros n st Hacc; cbn [drain_buffer]; [done|].
  destruct (_ <? _); [done|]. unfold with_metrics, send_delayed.
  destruct st as [buf m up be sent acc rep]. prog_unfold. cbn in *. subst. by apply IH.
Qed.

(** A relayer that is there stays, as far as the thread can tell. *)
Lemma forwarder_iteration_accepts i st :
  delay_accepts st = None → delay_accepts (iteration i st).2 = None.
Proof.
  apply (keeps_bind (λ st, delay_accepts st = None)).
  { apply keeps_modify. intros s Hs. destruct (upload_metrics_keeps i s) as (_ & _ & _ & Ha & _). congruence. }
  intros _. apply keeps_bind; [|intros _].
  { intros s. unfold receive_batch, offer_block_engine, with_metrics.
    destruct s as [buf m up be sent acc rep], (fi_recv i); [|done..].
    by destruct disable_mempool, (fi_be_answer i) as [[]|]. }
  apply keeps_bind; [auto with keeps|intros buffered].
  apply keeps_bind; [intros s; apply drain_buffer_accepts|intros _].
  apply keeps_bind; [auto with keeps|intros b]. by intros [].
Qed.

(** The receivers an iteration needs are there. *)
Definition forwarder_alive (i : ForwarderInput) : Prop :=
  fi_recv i ≠ RecvDisconnected ∧
  (disable_mempool = true ∨ fi_be_answer i ≠ Some Closed).

Lemma receive_batch_done i st st' :
  receive_batch packet_delay_ms disable_mempool i st = (Done tt, st') →
  buffered_packet_batches st' = buffered_packet_batches st ++ received i ∧
  delay_sent st' = delay_sent st ∧ delay_accepts st' = delay_accepts st ∧
  be_sent st' = be_sent st ++ offered packet_delay_ms disable_mempool i ∧
  (be_accounted (forwarder_metrics st) → be_accounted (forwarder_metrics st')).
Proof.
  unfold receive_batch, offer_block_engine, received, offered, with_metrics, be_accounted.
  destruct st as [buf [] up be sent acc rep].
  destruct (fi_recv i) as [batch| |]; [|intros [= <-]; by rewrite !app_nil_r|done].
  destruct disable_mempool; [intros [= <-]; by rewrite !app_nil_r|].
  destruct (fi_be_answer i) as [[]|]; [done| |]; intros [= <-]; cbn;
    rewrite ?app_nil_r; split_and!; try done.
  - intros <-. by rewrite u64_add_assoc.
  - intros <-. by rewrite u64_add_swap.
Qed.

Lemma receive_batch_runs i st :
  forwarder_alive i → ∃ st', receive_batch packet_delay_ms disable_mempool i st = (Done tt, st').
Proof.
  unfold forwarder_alive, receive_batch, offer_block_engine, with_metrics. intros [Hr Hbe].
  destruct (fi_recv i); [|by eexists|done].
  destruct disable_mempool; [by eexists|]. destruct Hbe as [?|Hbe]; [done|].
  by destruct (fi_be_answer i) as [[]|]; [done|eexists..].
Qed.

Lemma forwarder_iteration_done i st u st' :
  iteration i st = (Done u, st') →
  ∃ sent,
    released packet_delay_ms (fi_clock i) 0 sent (buffered_packet_batches st ++ received i)
      (buffered_packet_batches st') ∧
    delay_sent st' = delay_sent st ++ sent ∧
    be_sent st' = be_sent st ++ offered packet_delay_ms disable_mempool i ∧
    (be_accounted (forwarder_metrics st) → be_accounted (forwarder_metrics st')).
Proof.
  unfold forwarder_iteration, with_metrics. intros Hi. prog_inv Hi.
  destruct (upload_metrics_keeps i st) as (Hb1 & Hd1 & He1 & _ & Hm1).
  match goal with Hr : receive_batch _ _ _ _ = (Done ?u, _) |- _ =>
    destruct u; apply receive_batch_done in Hr as (Hb2 & Hd2 & _ & He2 & Hm2) end.
  match goal with Hr : drain_buffer _ _ _ _ _ = (Done ?u, ?s) |- _ =>
    destruct u, s as [buf [] up be dl acc rep];
    apply drain_buffer_done in Hr as (sent & Hrel & Hd3 & He3 & Hm3); [|done] end.
  exists sent. cbn in *. rewrite Hb2, Hb1 in Hrel. split_and!; [done|congruence..|].
  intros Hm. specialize (Hm3 (Hm2 (Hm1 Hm))). unfold be_accounted in *.
  by destruct disable_mempool.
Qed.

Lemma released_app clock n sent buffered rest :
  released packet_delay_ms clock n sent buffered rest → buffered = sent ++ rest.
Proof. induction 1; cbn; congruence. Qed.

(** While the channels live an iteration completes; it releases to the relayer,
    oldest first, a prefix of the batches buffered, the one just received
    included, each only once it has been held for the packet delay, and it stops
    releasing only at a batch still too young. *)
Theorem forwarder_iteration_spec i st :
  forwarder_alive i → delay_accepts st = None →
  ∃ sent st', iteration i st = (Done tt, st') ∧
    delay_sent st' = delay_sent st ++ sent ∧
    released packet_delay_ms (fi_clock i) 0 sent (buffered_packet_batches st ++ received i)
      (buffered_packet_batches st').
Proof.
  intros Halive Hacc.
  enough (∃ st', iteration i st = (Done tt, st')) as [st' Hi].
  { pose proof (forwarder_iteration_done _ _ _ _ Hi) as (sent & ? & ? & _). eauto. }
  destruct (upload_metrics_keeps i st) as (_ & _ & _ & Ha1 & _).
  destruct (receive_batch_runs i (upload_metrics thread_id packet_delay_ms i st) Halive)
    as [st2 H2].
  pose proof (receive_batch_done _ _ _ H2) as (_ & _ & Ha2 & _).
  destruct (drain_buffer_runs (fi_clock i) 0 (buffered_packet_batches st2) st2) as [st3 H3];
    [congruence|].
  unfold forwarder_iteration, with_metrics. eexists.
  rewrite (prog_bind_done (modify _) _ _ _ _ eq_refl), (prog_bind_done _ _ _ _ _ H2).
  rewrite (prog_bind_done (gets _) _ _ _ _ eq_refl), (prog_bind_done _ _ _ _ _ H3).
  done.
Qed.

(** The [n]-th batch of [turn] was old enough by the reading of [clock] made for it, where
    the first reading is the [k]-th. *)
Definition on_time (clock : nat → Z) (k : nat) (turn : list RelayerPacketBatches) : Prop :=
  ∀ n batch, turn !! n = Some batch →
    packet_delay packet_delay_ms <= elapsed (clock (k + n)%nat) (stamp batch).

Lemma on_time_nil clock k : on_time clock k [].
Proof. intros n b. by rewrite lookup_nil. Qed.
Lemma on_time_cons clock k b turn :
  packet_delay packet_delay_ms <= elapsed (clock k) (stamp b) → on_time clock (S k) turn →
  on_time clock k (b :: turn).
Proof.
  intros Hb Hturn [|n] b'; cbn.
  - intros [= <-]. by rewrite Nat.add_0_r.
  - intros Hn%Hturn. by rewrite <-plus_n_Sm.
Qed.

Lemma released_on_time clock k sent buffered rest :
  released packet_delay_ms clock k sent buffered rest → on_time clock k sent.
Proof. induction 1; [apply on_time_nil..|by apply on_time_cons]. Qed.

(** Whatever the outcome, a turn of the drain loop only sends from the front of the
    buffer, batches held long enough. *)
Lemma drain_buffer_effect clock n buffered st r st' :
  drain clock n buffered st = (r, st') →
  ∃ sent, delay_sent st' = delay_sent st ++ sent ∧ sent `prefix_of` buffered ∧
    on_time clock n sent.
Proof.
  revert n st; induction buffered as [|b rest IH]; intros n st; cbn [drain_buffer].
  { intros [= _ <-]. exists []. rewrite app_nil_r. split_and!; [done..|apply on_time_nil]. }
  destruct (Z.ltb_spec (elapsed (clock n) (stamp b)) (packet_delay packet_delay_ms)) as [|Hold].
  { intros [= _ <-]. exists []. rewrite app_nil_r. split_and!; [done|apply prefix_nil|apply on_time_nil]. }
  intros Hd. unfold with_metrics, send_delayed in Hd.
  destruct st as [buf [] up be dl acc rep]. prog_unfold. cbn in *.
  destruct acc as [[|k]|].
  { injection Hd as _ <-. exists []. rewrite app_nil_r.
    split_and!; [done|apply prefix_nil|apply on_time_nil]. }
  all: apply IH in Hd as (sent & Hsent & Hpre & Hheld); exists (b :: sent); cbn in Hsent.
  all: rewrite <-app_assoc in Hsent; split_and!; [done|by apply prefix_cons|by apply on_time_cons].
Qed.

Lemma drain_buffer_be_sent i n buffered st :
  be_sent (drain (fi_clock i) n buffered st).2 = be_sent st.
Proof.
  revert n st; induction buffered as [|b rest IH]; intros n st; cbn [drain_buffer]; [done|].
  destruct (_ <? _); [done|]. unfold with_metrics, send_delayed.
  destruct st as [buf [] up be dl acc rep]. prog_unfold. cbn.
  by destruct acc as [[|k]|]; cbn; rewrite ?IH.
Qed.

Lemma receive_batch_delay_sent i st :
  delay_sent (receive_batch packet_delay_ms disable_mempool i st).2 = delay_sent st.
Proof.
  unfold receive_batch, offer_block_engine, with_metrics. destruct st as [buf [] up be dl acc rep].
  destruct (fi_recv i); [|done..]. by destruct disable_mempool, (fi_be_answer i) as [[]|].
Qed.

Lemma forwarder_iteration_effect i st r st' :
  iteration i st = (r, st') →
  ∃ sent, delay_sent st' = delay_sent st ++ sent ∧
    sent `prefix_of` buffered_packet_batches st ++ received i ∧ on_time (fi_clock i) 0 sent.
Proof.
  unfold forwarder_iteration. intros Hi.
  destruct (upload_metrics_keeps i st) as (Hb1 & Hd1 & _).
  pose proof (receive_batch_delay_sent i (upload_metrics thread_id packet_delay_ms i st)) as Hd2.
  unfold mbind, Prog_bind, modify, gets in Hi.
  destruct (receive_batch _ _ _ _) as [[[]|e|w] st2] eqn:Hr; [|done|];
    [|injection Hi as _ <-; cbn in Hd2; exists []; rewrite app_nil_r;
      split_and!; [congruence|apply prefix_nil|apply on_time_nil]].
  apply receive_batch_done in Hr as (Hb2 & _). rewrite Hb1 in Hb2. cbn in Hd2.
  destruct (drain _ _ _ _) as [r3 st3] eqn:Hd.
  apply drain_buffer_effect in Hd as (sent & Hd3 & Hpre & Hheld). rewrite Hb2 in Hpre.
  exists sent. split_and!; [|done..].
  destruct r3; [destruct st3|done|]; injection Hi as _ <-; cbn in *; congruence.
Qed.

(** Over any run, however it ends, what the relayer is sent is a prefix of what was
    received, in order, and comes in turns, one for each iteration, each on time by the
    clock of its iteration. *)
Definition in_turns (inputs : list ForwarderInput) (sent : list RelayerPacketBatches) : Prop :=
  ∃ turns, sent = concat turns ∧
    Forall2 (λ i turn, on_time (fi_clock i) 0 turn) (take (length turns) inputs) turns.

Lemma forwarder_thread_releases inputs st r st' :
  thread inputs st = (r, st') →
  ∃ sent, delay_sent st' = delay_sent st ++ sent ∧
    sent `prefix_of` buffered_packet_batches st ++ flat_map received (live_inputs inputs) ∧
    in_turns (live_inputs inputs) sent.
Proof.
  unfold forwarder_thread. revert st; induction inputs as [|[i|] inputs IH]; intros st; cbn.
  1, 3: intros [= _ <-]; exists []; rewrite app_nil_r; split_and!; [done|apply prefix_nil|by exists []].
  unfold mbind, Prog_bind. destruct (iteration i st) as [[u|e|w] st1] eqn:Hi; intros Hrun; [|done|].
  - apply forwarder_iteration_done in Hi as (sent & Hrel & Hd & _).
    apply IH in Hrun as (sent' & Hd' & Hpre & turns & -> & Hturns).
    exists (sent ++ concat turns). split_and!.
    + by rewrite Hd', Hd, app_assoc.
    + rewrite app_assoc, (released_app _ _ _ _ _ Hrel), <-app_assoc. by apply prefix_app.
    + exists (sent :: turns). split; [done|]. constructor; [by eapply released_on_time|done].
  - injection Hrun as _ <-. apply forwarder_iteration_effect in Hi as (sent & Hd & Hpre & Htime).
    exists sent. split_and!; [done|rewrite app_assoc; by apply prefix_app_r|].
    exists [sent]. cbn. rewrite app_nil_r, take_0. split; [done|]. by repeat constructor.
Qed.

(** Likewise for the block engine: it is offered, in order, batches the thread received,
    each with the time it came and the delay as expiry. *)
Lemma forwarder_iteration_offers i st r st' :
  iteration i st = (r, st') →
  ∃ sent, be_sent st' = be_sent st ++ sent ∧
    sent `prefix_of` offered packet_delay_ms disable_mempool i.
Proof.
  intros Hi. destruct r as [u|e|w]; [|done|].
  { apply forwarder_iteration_done in Hi as (_ & _ & _ & He & _). by eexists. }
  unfold forwarder_iteration, mbind, Prog_bind, modify, gets in Hi.
  destruct (upload_metrics_keeps i st) as (_ & _ & He1 & _). rewrite <-He1. clear He1.
  destruct (receive_batch _ _ _ _) as [[[]|e|w'] st2] eqn:Hr; [|done|].
  - apply receive_batch_done in Hr as (_ & _ & _ & He2 & _).
    destruct (drain _ _ _ _) as [r3 st3] eqn:Hd. exists (offered packet_delay_ms disable_mempool i).
    split; [|done]. rewrite <-He2. clear He2. revert Hd.
    pose proof (drain_buffer_be_sent i 0 (buffered_packet_batches st2) st2) as He3.
    intros Hd. rewrite Hd in He3. cbn in He3. rewrite <-He3.
    destruct r3; [by destruct st3|done|]; by injection Hi as _ <-.
  - exists []. injection Hi as _ <-. rewrite app_nil_r. split; [|apply prefix_nil].
    revert Hr. unfold receive_batch, offer_block_engine, with_metrics.
    destruct (upload_metrics _ _ _ _) as [buf [] up be dl acc rep].
    destruct (fi_recv i); [|done|by intros [= _ <-]].
    destruct disable_mempool; [done|].
    destruct (fi_be_answer i) as [[]|]; try done. by intros [= _ <-].
Qed.

Lemma forwarder_thread_offers inputs st r st' :
  thread inputs st = (r, st') →
  ∃ sent, be_sent st' = be_sent st ++ sent ∧
    sent `prefix_of` flat_map (offered packet_delay_ms disable_mempool) (live_inputs inputs).
Proof.
  unfold forwarder_thread. revert st; induction inputs as [|[i|] inputs IH]; intros st; cbn.
  1, 3: intros [= _ <-]; exists []; by rewrite app_nil_r.
  unfold mbind, Prog_bind. destruct (iteration i st) as [[u|e|w] st1] eqn:Hi; intros Hrun; [|done|].
  - apply forwarder_iteration_done in Hi as (_ & _ & _ & He & _).
    apply IH in Hrun as (sent & He' & Hpre).
    exists (offered packet_delay_ms disable_mempool i ++ sent). split; [|by apply prefix_app].
    by rewrite He', He, app_assoc.
  - injection Hrun as _ <-. apply forwarder_iteration_offers in Hi as (sent & He & Hpre).
    exists sent. split; [done|]. by apply prefix_app_r.
Qed.

Lemma forwarder_thread_log inputs capacities now accepts r st :
  thread inputs (Forwarder_new capacities now accepts) = (Done r, st) →
  delay_sent st ++ buffered_packet_batches st = flat_map received (live_inputs inputs).
Proof.
  destruct capacities as [[c1 c2] c3]. intros Hrun.
  pose proof (run_loop_log (λ st, delay_sent st ++ buffered_packet_batches st) received
    iteration) as Hlog. eapply Hlog in Hrun; [exact Hrun|].
  intros i s u s' (sent & Hrel & Hd & _)%forwarder_iteration_done.
  apply released_app in Hrel. by rewrite Hd, <-app_assoc, <-Hrel, app_assoc.
Qed.

(** Over any run the thread neither loses, duplicates nor reorders: what it has
    sent to the relayer followed by what it still holds is exactly what it
    received, in order; and the block engine was sent exactly the batches
    received whose offer its queue took, none when the mempool is disabled. *)
Theorem forwarder_thread_fifo inputs capacities now accepts r st :
  thread inputs (Forwarder_new capacities now accepts) = (Done r, st) →
  delay_sent st ++ buffered_packet_batches st = flat_map received (live_inputs inputs) ∧
  be_sent st = flat_map (offered packet_delay_ms disable_mempool) (live_inputs inputs).
Proof.
  intros Hrun. split; [by eapply forwarder_thread_log|].
  destruct capacities as [[c1 c2] c3]. eapply (run_loop_log be_sent) in Hrun; [exact Hrun|].
  by intros i s u s' (sent & _ & _ & He & _)%forwarder_iteration_done.
Qed.

(** In every reporting interval the packets offered to the block engine are
    counted once, as forwarded or as dropped: the two counters add up to the
    packets received (as [u64]s), and are both zero when the mempool is
    disabled. *)
Theorem forwarder_thread_accounting inputs capacities now accepts r st :
  thread inputs (Forwarder_new capacities now accepts) = (Done r, st) →
  be_accounted (forwarder_metrics st).
Proof.
  apply (run_loop_done_invariant (λ st, be_accounted (forwarder_metrics st))).
  - intros i s u s' Hs (sent & _ & _ & _ & Hm)%forwarder_iteration_done. auto.
  - destruct capacities as [[c1 c2] c3]. unfold be_accounted. cbn. by destruct disable_mempool.
Qed.
End forwarder_theorems.

(** ** Concrete inputs *)

Definition toy_input (recv : RecvTimeoutResult) (now : Z) : ForwarderInput :=
  {| fi_upload_elapsed_now := now; fi_capacities := (8, 8, 8); fi_upload_now := now; fi_recv := recv;
     fi_instant := now; fi_system_time := 1000 + now; fi_be_answer := None; fi_clock _ := now + 1;
     fi_buffered_capacity := 8; fi_receiver_len := 0; fi_be_capacity := 5000 |}.

(** A batch received at time zero is held at time one and sent after 300 milliseconds. *)
Lemma forwarder_thread_fifo_witness :
  let batch : BankingPacketBatch := [[toy_packet 0 None]] in
  let inputs := [Some (toy_input (RecvOk batch) 0); Some (toy_input RecvTimeoutErr 300000000)] in
  ∃ st, forwarder_thread 0 200 false inputs (Forwarder_new (8, 8, 8) 0 None) = (Done Running, st) ∧
    delay_sent st ++ buffered_packet_batches st = [{| stamp := 0; banking_packet_batch := batch |}] ∧
    be_sent st = [{| be_banking_packet_batch := batch; be_stamp := 1000; expiration := 200 |}] ∧
    buffered_packet_batches st = [].
Proof.
  intros batch inputs. eexists. split; [reflexivity|].
  destruct (forwarder_thread_fifo 0 200 false inputs (8, 8, 8) 0 None Running _ eq_refl) as [H1 H2].
  split; [exact H1|]. split; [exact H2|]. reflexivity.
Defined.
