(* ===== verification/Relayer.v ===== *)
(** * The relayer service ([relayer/src/relayer.rs])

    The event loop that filters, batches and routes packets to the subscribed
    validators, its metrics, and the two gRPC handlers. *)

From S2P Require Import Prelude External Instances Ofac Packets ScheduleCache HealthManager.
From S2P Require Import AuthInterceptor AuthService.
Local Open Scope Z_scope.

(** ** Metrics *)

Record PacketForwardStats := { num_packets_forwarded : Z; num_packets_dropped : Z }.

Section relayer_metrics.
Context `{Sdk} `{!Histograms} `{!HashOrder Pubkey}.

Record RelayerMetrics := {
  rm_highest_slot : Z;
  num_added_connections : Z;
  num_removed_connections : Z;
  num_current_connections : Z;
  num_heartbeats : Z;
  max_heartbeat_tick_latency_us : Z;
  metrics_latency_us : Z;
  num_try_send_channel_full : Z;
  packet_latencies_us : Histogram;
  crossbeam_slot_receiver_processing_us : Histogram;
  crossbeam_delay_packet_receiver_processing_us : Histogram;
  crossbeam_subscription_receiver_processing_us : Histogram;
  crossbeam_heartbeat_tick_processing_us : Histogram;
  crossbeam_metrics_tick_processing_us : Histogram;
  slot_receiver_max_len : Z;
  slot_receiver_capacity : Z;
  subscription_receiver_max_len : Z;
  subscription_receiver_capacity : Z;
  delay_packet_receiver_max_len : Z;
  delay_packet_receiver_capacity : Z;
  packet_subscriptions_total_queued : Z;
  packet_stats_per_validator : gmap Pubkey PacketForwardStats }.

Definition RelayerMetrics_new (slot_cap subscription_cap delay_packet_cap : Z) : RelayerMetrics :=
  {| rm_highest_slot := 0;
     num_added_connections := 0; num_removed_connections := 0; num_current_connections := 0;
     num_heartbeats := 0; max_heartbeat_tick_latency_us := 0; metrics_latency_us := 0;
     num_try_send_channel_full := 0; packet_latencies_us := histogram_default;
     crossbeam_slot_receiver_processing_us := histogram_default;
     crossbeam_delay_packet_receiver_processing_us := histogram_default;
     crossbeam_subscription_receiver_processing_us := histogram_default;
     crossbeam_heartbeat_tick_processing_us := histogram_default;
     crossbeam_metrics_tick_processing_us := histogram_default;
     slot_receiver_max_len := 0; slot_receiver_capacity := slot_cap;
     subscription_receiver_max_len := 0; subscription_receiver_capacity := subscription_cap;
     delay_packet_receiver_max_len := 0; delay_packet_receiver_capacity := delay_packet_cap;
     packet_subscriptions_total_queued := 0; packet_stats_per_validator := ∅ |}.

Definition update_max_len (slot_len subscription_len delay_packet_len : Z)
    (m : RelayerMetrics) : RelayerMetrics :=
  {m with slot_receiver_max_len ::= (λ x, Z.max x slot_len);
          subscription_receiver_max_len ::= (λ x, Z.max x subscription_len);
          delay_packet_receiver_max_len ::= (λ x, Z.max x delay_packet_len)}.

(** [entry(id).and_modify(..).or_insert(..)] *)
Definition increment_packets_forwarded (validator_id : Pubkey) (num_packets : Z)
    (m : RelayerMetrics) : RelayerMetrics :=
  let stats :=
    match packet_stats_per_validator m !! validator_id with
    | Some entry => {entry with num_packets_forwarded ::= (λ x, u64_sat_add x num_packets)}
    | None => {| num_packets_forwarded := num_packets; num_packets_dropped := 0 |}
    end in
  {m with packet_stats_per_validator ::= (λ s, <[validator_id := stats]> s)}.
Definition increment_packets_dropped (validator_id : Pubkey) (num_packets : Z)
    (m : RelayerMetrics) : RelayerMetrics :=
  let stats :=
    match packet_stats_per_validator m !! validator_id with
    | Some entry => {entry with num_packets_dropped ::= (λ x, u64_sat_add x num_packets)}
    | None => {| num_packets_forwarded := 0; num_packets_dropped := num_packets |}
    end in
  {m with packet_stats_per_validator ::= (λ s, <[validator_id := stats]> s)}.

(** The three percentiles of one event-loop arm. *)
Definition report_percentiles (name : string) (h : Histogram) : list (string * Z) :=
  [((name +:+ "_p50")%string, default 0 (histogram_percentile 50 h));
   ((name +:+ "_p90")%string, default 0 (histogram_percentile 90 h));
   ((name +:+ "_p99")%string, default 0 (histogram_percentile 99 h))].

(** The datapoints of [report]: one for each validator, then the relayer's, every
    value cast to [i64]. *)
Definition report_validators (m : RelayerMetrics) : list (string * list (string * Z)) :=
  map (λ '(pubkey, stats), (pubkey_to_string pubkey,
    map (prod_map id as_i64)
      [("num_packets_forwarded", num_packets_forwarded stats);
       ("num_packets_dropped", num_packets_dropped stats)]))
    (map_iter (packet_stats_per_validator m)).
Definition report_relayer (m : RelayerMetrics) : list (string * Z) :=
  map (prod_map id as_i64) (
    [("highest_slot", rm_highest_slot m);
     ("num_added_connections", num_added_connections m);
     ("num_removed_connections", num_removed_connections m);
     ("num_current_connections", num_current_connections m);
     ("num_heartbeats", num_heartbeats m);
     ("num_try_send_channel_full", num_try_send_channel_full m);
     ("metrics_latency_us", metrics_latency_us m);
     ("max_heartbeat_tick_latency_us", max_heartbeat_tick_latency_us m);
     ("packet_latencies_us_min", default 0 (histogram_minimum (packet_latencies_us m)));
     ("packet_latencies_us_max", default 0 (histogram_maximum (packet_latencies_us m)))]
    ++ report_percentiles "packet_latencies_us" (packet_latencies_us m)
    ++ report_percentiles "crossbeam_subscription_receiver_processing_us"
         (crossbeam_subscription_receiver_processing_us m)
    ++ report_percentiles "crossbeam_slot_receiver_processing_us"
         (crossbeam_slot_receiver_processing_us m)
    ++ report_percentiles "crossbeam_metrics_tick_processing_us"
         (crossbeam_metrics_tick_processing_us m)
    ++ report_percentiles "crossbeam_delay_packet_receiver_processing_us"
         (crossbeam_delay_packet_receiver_processing_us m)
    ++ report_percentiles "crossbeam_heartbeat_tick_processing_us"
         (crossbeam_heartbeat_tick_processing_us m)
    ++ [("slot_receiver_len", slot_receiver_max_len m);
        ("slot_receiver_capacity", slot_receiver_capacity m);
        ("subscription_receiver_len", subscription_receiver_max_len m);
        ("subscription_receiver_capacity", subscription_receiver_capacity m);
        ("delay_packet_receiver_len", delay_packet_receiver_max_len m);
        ("delay_packet_receiver_capacity", delay_packet_receiver_capacity m);
        ("packet_subscriptions_total_queued", packet_subscriptions_total_queued m)]).
Definition report (m : RelayerMetrics) : list (string * list (string * Z)) :=
  report_validators m ++ [("relayer_metrics", report_relayer m)].
End relayer_metrics.

(** ** The event loop *)

(** The generated message types the code builds. *)
Inductive SubscribePacketsMsg := Batch (batch : ProtoPacketBatch) | Heartbeat (count : Z).
Record SubscribePacketsResponse := {
  header_ts : option Z;
  msg : option SubscribePacketsMsg }.

(** The variants of [RelayerError]. *)
Inductive RelayerError := Shutdown.

Definition SUBSCRIBER_QUEUE_CAPACITY : nat := N.to_nat 50000.

Section relayer.
Context `{Sdk} `{!IpText} `{!Channels} `{!Histograms} `{!HashOrder Pubkey} `{!HashOrder Slot}.

(** The queue to one validator, and the map of the connected ones.  Each sender is
    held by this map only; its receiver is the validator's gRPC stream. *)
Abbreviation Sender := (chan (Outcome Status SubscribePacketsResponse)).
Abbreviation PacketSubscriptions := (gmap Pubkey Sender).

(** What the event loop shares or owns. *)
Record Relayer := {
  packet_subscriptions : PacketSubscriptions;
  highest_slot : Z;
  slot_leaders : gset Pubkey;
  relayer_metrics : RelayerMetrics;
  reported : list (string * list (string * Z)) }.

Definition with_relayer_metrics {E} (f : RelayerMetrics → RelayerMetrics) : Prog Relayer E unit :=
  modify (λ st, {st with relayer_metrics ::= f}).

(** [maybe?] on a message received: a disconnected channel shuts the loop down. *)
Definition received_or_shutdown {A} (maybe : option A) : Prog Relayer RelayerError A :=
  ok_or Shutdown maybe.

Definition connected_validators (st : Relayer) : list Pubkey :=
  (map_iter (packet_subscriptions st)).*1.

Definition update_packet_subscription_total_capacity (subs : PacketSubscriptions)
    (m : RelayerMetrics) : RelayerMetrics :=
  let queued := u64_sum (map (λ '(_, sender),
    u64_sub (Z.of_nat SUBSCRIBER_QUEUE_CAPACITY) (Z.of_nat (capacity sender))) (map_iter subs)) in
  {m with packet_subscriptions_total_queued := queued}.

(** [sender.try_send(Ok(response))] on the sender of [pubkey] *)
Definition try_send_to {E} (pubkey : Pubkey) (sender : Sender) (response : SubscribePacketsResponse)
    : Prog Relayer E (option TrySendError) :=
  λ st,
    let '(answer, sender') := try_send (Done response) sender in
    (Done answer, {st with packet_subscriptions ::= (λ subs, <[pubkey := sender']> subs)}).

Definition drop_connections {E} (disconnected_pubkeys : list Pubkey) : Prog Relayer E unit :=
  with_relayer_metrics (λ m, {m with num_removed_connections ::=
    (λ x, u64_add x (Z.of_nat (length disconnected_pubkeys)))}) ;;
  for_each (λ disconnected,
    modify (λ st, {st with packet_subscriptions ::= (λ subs, delete disconnected subs)}))
    disconnected_pubkeys.

(** [handle_heartbeat]: the validators whose stream is gone *)
Fixpoint heartbeat_each {E} (senders : list (Pubkey * Sender)) : Prog Relayer E (list Pubkey) :=
  match senders with
  | [] => mret []
  | (pubkey, sender) :: senders' =>
      count ← gets (λ st, num_heartbeats (relayer_metrics st));
      answer ← try_send_to pubkey sender {| header_ts := None; msg := Some (Heartbeat count) |};
      match answer with
      | None => heartbeat_each senders'
      | Some Closed =>
          failed ← heartbeat_each senders';
          mret (pubkey :: failed)
      | Some Full =>
          with_relayer_metrics (λ m,
            {m with num_try_send_channel_full ::= (λ x, u64_add x 1)}) ;;
          heartbeat_each senders'
      end
  end.
Definition handle_heartbeat {E} : Prog Relayer E (list Pubkey) :=
  senders ← gets (λ st, map_iter (packet_subscriptions st));
  failed ← heartbeat_each senders;
  with_relayer_metrics (λ m, {m with num_heartbeats ::= (λ x, u64_add x 1)}) ;;
  mret failed.

(** The closures of [forward_packets] that select the packets to forward. *)
Definition passes_ofac (ofac_addresses : gset Pubkey)
    (cache : gmap Pubkey (AddressLookupTableAccount Pubkey)) (packet : Packet) : option Packet :=
  if negb (bool_decide (ofac_addresses = ∅)) then
    tx ← deserialize_slice packet;
    if negb (is_tx_ofac_related tx ofac_addresses cache) then Some packet else None
  else Some packet.
Definition forwardable (ofac_addresses : gset Pubkey)
    (cache : gmap Pubkey (AddressLookupTableAccount Pubkey)) (batches : BankingPacketBatch)
    : list ProtoPacket :=
  flat_map (λ batch,
    omap packet_to_proto_packet
      (omap (passes_ofac ofac_addresses cache)
        (List.filter (λ p, negb (discard (packet_meta p))) batch))) batches.

(** The senders of one call, in the order of the maps they come from. *)
Definition select_senders (forward_all : bool) (leaders : gset Pubkey)
    (subs : PacketSubscriptions) : list Pubkey :=
  if forward_all then (map_iter subs).*1
  else List.filter (λ pubkey, bool_decide (is_Some (subs !! pubkey))) (set_iter leaders).

(** The inner loop, for one batch; [ts pubkey] is the time stamped on the message to
    [pubkey].  A closed sender is pushed on [failed_forwards] and ends the loop. *)
Fixpoint send_batch {E} (ts : Pubkey → Z) (batch : ProtoPacketBatch) (senders : list Pubkey)
    : Prog Relayer E (list Pubkey) :=
  match senders with
  | [] => mret []
  | pubkey :: senders' =>
      sender ← gets (λ st, packet_subscriptions st !! pubkey);
      sender ← unwrap "a reference into the map" sender;
      answer ← try_send_to pubkey sender
        {| header_ts := Some (ts pubkey); msg := Some (Batch batch) |};
      let num_packets := Z.of_nat (length (packets batch)) in
      match answer with
      | None =>
          with_relayer_metrics (increment_packets_forwarded pubkey num_packets) ;;
          send_batch ts batch senders'
      | Some Full =>
          with_relayer_metrics (increment_packets_dropped pubkey num_packets) ;;
          send_batch ts batch senders'
      | Some Closed => mret [pubkey]
      end
  end.

(** The outer loop over the batches; [ts n] are the clocks of the [n]-th. *)
Fixpoint send_batches {E} (ts : nat → Pubkey → Z) (n : nat) (batches : list ProtoPacketBatch)
    (senders : list Pubkey) : Prog Relayer E (list Pubkey) :=
  match batches with
  | [] => mret []
  | batch :: batches' =>
      if bool_decide (packets batch = []) then send_batches ts (S n) batches' senders
      else
        failed ← send_batch (ts n) batch senders;
        failed' ← send_batches ts (S n) batches' senders;
        mret (failed ++ failed')
  end.

(** The parameters of [RelayerImpl::new] the loop keeps. *)
Record RelayerConfig := {
  ofac_addresses : gset Pubkey;
  validator_packet_batch_size : nat;
  forward_all : bool;
  slot_lookahead : Z }.
Variable config : RelayerConfig.

Definition forward_packets (maybe_packet_batches : option RelayerPacketBatches)
    (elapsed_us : Z) (ts : nat → Pubkey → Z)
    (address_lookup_table_cache : gmap Pubkey (AddressLookupTableAccount Pubkey))
    : Prog Relayer RelayerError (list Pubkey) :=
  packet_batches ← received_or_shutdown maybe_packet_batches;
  with_relayer_metrics (λ m, {m with packet_latencies_us ::= histogram_increment elapsed_us}) ;;
  let packets := forwardable (ofac_addresses config) address_lookup_table_cache
    (banking_packet_batch packet_batches) in
  assert (negb (validator_packet_batch_size config =? 0)%nat) "attempt to divide by zero" ;;
  let proto_packet_batches :=
    map Build_ProtoPacketBatch (chunks (validator_packet_batch_size config) packets) in
  leaders ← gets slot_leaders;
  subs ← gets packet_subscriptions;
  send_batches ts 0 proto_packet_batches (select_senders (forward_all config) leaders subs).

(** [handle_subscription] *)
Definition handle_subscription (maybe_subscription : option (Pubkey * Sender))
    : Prog Relayer RelayerError unit :=
  '(pubkey, sender) ← received_or_shutdown maybe_subscription;
  old ← gets (λ st, packet_subscriptions st !! pubkey);
  modify (λ st, {st with packet_subscriptions ::= (λ subs, <[pubkey := sender]> subs)}) ;;
  match old with
  | None => with_relayer_metrics (λ m, {m with num_added_connections ::= (λ x, u64_add x 1)})
  | Some _ => mret tt
  end.

Definition update_highest_slot (maybe_slot : option Z) : Prog Relayer RelayerError unit :=
  slot ← received_or_shutdown maybe_slot;
  modify (λ st, {st with highest_slot := slot}) ;;
  with_relayer_metrics (λ m, {m with rm_highest_slot := slot}).

(** What the [select!] of one iteration takes, with what the arm then reads;
    [us] is the time the arm took. *)
Inductive RelayerEvent :=
| SlotArm (maybe_slot : option Z) (schedule : gmap Slot Pubkey) (us : Z)
| PacketArm (maybe_packet_batches : option RelayerPacketBatches) (elapsed_us : Z)
    (ts : nat → Pubkey → Z) (cache : gmap Pubkey (AddressLookupTableAccount Pubkey)) (us : Z)
| SubscriptionArm (maybe_subscription : option (Pubkey * Sender)) (us : Z)
| HeartbeatArm (tick_latency_us : option Z) (health_state : HealthState) (us : Z)
| MetricsArm (tick_latency_us : option Z) (us : Z).

Definition capacities : Type := Z * Z * Z.

Definition relayer_select (caps : capacities) (ev : RelayerEvent) : Prog Relayer RelayerError unit :=
  match ev with
  | SlotArm maybe_slot schedule us =>
      update_highest_slot maybe_slot ;;
      highest ← gets highest_slot;
      let slots := z_range highest (u64_add highest (slot_lookahead config)) in
      modify (λ st, {st with slot_leaders := leaders_for_slots schedule slots}) ;;
      with_relayer_metrics (λ m,
        {m with crossbeam_slot_receiver_processing_us ::= histogram_increment us})
  | PacketArm maybe_packet_batches elapsed_us ts cache us =>
      failed_forwards ← forward_packets maybe_packet_batches elapsed_us ts cache;
      drop_connections failed_forwards ;;
      with_relayer_metrics (λ m,
        {m with crossbeam_delay_packet_receiver_processing_us ::= histogram_increment us})
  | SubscriptionArm maybe_subscription us =>
      handle_subscription maybe_subscription ;;
      with_relayer_metrics (λ m,
        {m with crossbeam_subscription_receiver_processing_us ::= histogram_increment us})
  | HeartbeatArm tick_latency_us health_state us =>
      match tick_latency_us with
      | Some latency => with_relayer_metrics (λ m,
          {m with max_heartbeat_tick_latency_us ::= (λ x, Z.max x latency)})
      | None => mret tt
      end ;;
      pubkeys_to_drop ←
        match health_state with
        | Healthy => handle_heartbeat
        | Unhealthy => gets connected_validators
        end;
      drop_connections pubkeys_to_drop ;;
      with_relayer_metrics (λ m,
        {m with crossbeam_heartbeat_tick_processing_us ::= histogram_increment us})
  | MetricsArm tick_latency_us us =>
      modify (λ st, {st with relayer_metrics ::= (λ m,
        update_packet_subscription_total_capacity (packet_subscriptions st)
          {m with num_current_connections := Z.of_nat (size (packet_subscriptions st))})}) ;;
      match tick_latency_us with
      | Some latency => with_relayer_metrics (λ m, {m with metrics_latency_us := latency})
      | None => mret tt
      end ;;
      with_relayer_metrics (λ m,
        {m with crossbeam_metrics_tick_processing_us ::= histogram_increment us}) ;;
      let '(slot_cap, subscription_cap, delay_packet_cap) := caps in
      modify (λ st, {st with reported ::= (λ l, l ++ report (relayer_metrics st));
        relayer_metrics := RelayerMetrics_new slot_cap subscription_cap delay_packet_cap})
  end.

(** The input of an iteration: what the validators did to their streams since the
    last one, the event, the channels' capacities and lengths. *)
Record RelayerInput := {
  ri_receivers : Pubkey → Sender → Sender;
  ri_event : RelayerEvent;
  ri_capacities : capacities;
  ri_lens : Z * Z * Z }.

Definition relayer_iteration (i : RelayerInput) : Prog Relayer RelayerError unit :=
  modify (λ st, {st with packet_subscriptions ::= map_imap (λ pk c, Some (ri_receivers i pk c))}) ;;
  relayer_select (ri_capacities i) (ri_event i) ;;
  let '(slot_len, subscription_len, delay_packet_len) := ri_lens i in
  with_relayer_metrics (update_max_len slot_len subscription_len delay_packet_len).

Definition run_event_loop := run_loop relayer_iteration.

Definition Relayer_new (caps : capacities) : Relayer :=
  let '(slot_cap, subscription_cap, delay_packet_cap) := caps in
  {| packet_subscriptions := ∅; highest_slot := 0; slot_leaders := ∅;
     relayer_metrics := RelayerMetrics_new slot_cap subscription_cap delay_packet_cap;
     reported := [] |}.

(** ** The gRPC handlers *)

(** The fields of [RelayerImpl] they use: the subscriptions sent to the event loop,
    and whether it still receives them. *)
Record RelayerImpl := {
  tpu_quic_ports : list Z;
  tpu_fwd_quic_ports : list Z;
  public_ip : IpAddr;
  relayer_seq : Z;
  subscription_queue : list (Pubkey * Sender);
  event_loop_alive : bool }.

Record Socket := { socket_ip : string; socket_port : Z }.
Record GetTpuConfigsResponse := { tpu : Socket; tpu_forward : Socket }.

(** [ports[seq as usize % ports.len()]], which panics when there are none *)
Definition nth_port {S} (ports : list Z) (seq : Z) : Prog S Status Z :=
  assert (negb (length ports =? 0)%nat)
    "attempt to calculate the remainder with a divisor of zero" ;;
  unwrap "index out of bounds" (ports !! Z.to_nat (seq mod Z.of_nat (length ports))).

Definition get_tpu_configs : Prog RelayerImpl Status GetTpuConfigsResponse :=
  seq ← gets relayer_seq;
  modify (λ st, {st with relayer_seq ::= (λ x, u64_add x 1)}) ;;
  st ← gets id;
  tpu_port ← nth_port (tpu_quic_ports st) seq;
  fwd_port ← nth_port (tpu_fwd_quic_ports st) seq;
  mret {| tpu := {| socket_ip := ip_to_string (public_ip st); socket_port := u16_sub tpu_port 6 |};
          tpu_forward := {| socket_ip := ip_to_string (public_ip st);
                            socket_port := u16_sub fwd_port 6 |} |}.

(** [extension] is what the interceptor put on the request; the stream handed back
    is the receiving end of the queue of [pubkey]. *)
Definition subscribe_packets (health_state : HealthState) (extension : option Pubkey)
    : Prog RelayerImpl Status Sender :=
  check_health health_state ;;
  pubkey ← ok_or (internal "internal error fetching public key") extension;
  let sender := channel SUBSCRIBER_QUEUE_CAPACITY in
  alive ← gets event_loop_alive;
  fail_if (negb alive) (internal "internal error adding subscription") ;;
  modify (λ st, {st with subscription_queue ::= (λ l, l ++ [(pubkey, sender)])}) ;;
  mret sender.
End relayer.

(** ** What an operation did to the queues *)

Section deliveries.
Context `{Sdk} `{!Channels} `{!ChannelsLaws}.
Context {M : Type}.
Implicit Types (subs : gmap Pubkey (chan M)).

(** [c'] is [c] with [msgs] added. *)
Definition chan_adds (c : chan M) (msgs : list M) (c' : chan M) : Prop :=
  chan_view c' = (chan_queue c ++ msgs, chan_bound c, chan_closed c).

(** What an open queue keeps of the messages sent to it with no receive between. *)
Definition accepted (c : chan M) (msgs : list M) : list M :=
  take (chan_bound c - length (chan_queue c)) msgs.

(** Each validator's queue has grown by messages that satisfy [ok]. *)
Definition only_adds (ok : Pubkey → M → Prop) subs subs' : Prop :=
  ∀ pk c', subs' !! pk = Some c' →
    ∃ c msgs, subs !! pk = Some c ∧ chan_adds c msgs c' ∧ Forall (ok pk) msgs.

(** Each validator's queue got what it could take of [msgs pk]. *)
Definition delivered (msgs : Pubkey → list M) subs subs' : Prop :=
  dom subs' = dom subs ∧
  ∀ pk c c', subs !! pk = Some c → subs' !! pk = Some c' →
    chan_adds c (accepted c (msgs pk)) c'.

Definition all_open subs : Prop := ∀ pk c, subs !! pk = Some c → chan_closed c = false.

Lemma chan_adds_refl c : chan_adds c [] c.
Proof. unfold chan_adds, chan_view. by rewrite app_nil_r. Qed.
Lemma chan_adds_trans c1 l1 c2 l2 c3 :
  chan_adds c1 l1 c2 → chan_adds c2 l2 c3 → chan_adds c1 (l1 ++ l2) c3.
Proof. unfold chan_adds, chan_view. intros [= -> -> ->] [= -> -> ->]. by rewrite app_assoc. Qed.

Lemma try_send_adds m c answer c' :
  try_send m c = (answer, c') →
  ∃ msgs, chan_adds c msgs c' ∧
    match answer with
    | None => msgs = [m]
    | Some _ => msgs = []
    end.
Proof.
  intros Hs. destruct (chan_closed c) eqn:Hc.
  { rewrite try_send_closed in Hs by done. simplify_eq. exists []. split; [apply chan_adds_refl|done]. }
  destruct (decide (chan_bound c ≤ length (chan_queue c))%nat).
  { rewrite try_send_full in Hs by done. simplify_eq. exists []. split; [apply chan_adds_refl|done]. }
  destruct (try_send_ok _ m c Hc) as [Ha Hv]; [lia|]. rewrite Hs in Ha, Hv. cbn in *. subst.
  exists [m]. unfold chan_adds. by rewrite Hc.
Qed.

Lemma try_send_open m c answer c' :
  chan_closed c = false → try_send m c = (answer, c') →
  answer ≠ Some Closed ∧ chan_adds c (accepted c [m]) c'.
Proof.
  intros Hc Hs. unfold accepted.
  destruct (decide (chan_bound c ≤ length (chan_queue c))%nat).
  { rewrite try_send_full in Hs by done. simplify_eq. split; [done|].
    replace (_ - _)%nat with 0%nat by lia. apply chan_adds_refl. }
  destruct (try_send_ok _ m c Hc) as [Ha Hv]; [lia|]. rewrite Hs in Ha, Hv. cbn in *. subst.
  split; [done|]. destruct (_ - _)%nat eqn:E; [lia|]. cbn. rewrite take_nil.
  unfold chan_adds. by rewrite Hc.
Qed.

Lemma only_adds_refl ok subs : only_adds ok subs subs.
Proof. intros pk c Hc. exists c, []. split; [done|]. split; [apply chan_adds_refl|by constructor]. Qed.
Lemma only_adds_trans ok subs1 subs2 subs3 :
  only_adds ok subs1 subs2 → only_adds ok subs2 subs3 → only_adds ok subs1 subs3.
Proof.
  intros H12 H23 pk c3 (c2 & l2 & Hc2 & Ha2 & Hl2)%H23.
  destruct (H12 _ _ Hc2) as (c1 & l1 & Hc1 & Ha1 & Hl1).
  exists c1, (l1 ++ l2). split; [done|]. split; [by eapply chan_adds_trans|by apply Forall_app].
Qed.
Lemma only_adds_send ok subs pk c m answer c' :
  subs !! pk = Some c → try_send m c = (answer, c') → ok pk m →
  only_adds ok subs (<[pk := c']> subs).
Proof.
  intros Hc (msgs & Ha & Hm)%try_send_adds Hok pk' c2.
  intros [[<- <-]|[Hne Hc2]]%lookup_insert_Some; [|by apply only_adds_refl].
  exists c, msgs. split; [done|]. split; [done|].
  destruct answer; subst; repeat constructor; done.
Qed.
Lemma only_adds_weaken (ok ok' : Pubkey → M → Prop) subs subs' :
  (∀ pk m, ok pk m → ok' pk m) → only_adds ok subs subs' → only_adds ok' subs subs'.
Proof.
  intros Hw Ho pk c (c0 & l & ? & ? & Hl)%Ho. exists c0, l.
  split_and!; [done..|]. eapply Forall_impl; [done|]. eauto.
Qed.
Lemma only_adds_delete ok subs subs' pk :
  only_adds ok subs subs' → only_adds ok subs (delete pk subs').
Proof. intros Ho pk' c [_ Hc]%lookup_delete_Some. eauto. Qed.

Lemma delivered_refl subs : delivered (λ _, []) subs subs.
Proof.
  split; [done|]. intros pk c c' Hc Hc'. simplify_eq. unfold accepted. rewrite take_nil.
  apply chan_adds_refl.
Qed.
Lemma accepted_app c l1 l2 c' :
  chan_adds c (accepted c l1) c' → accepted c l1 ++ accepted c' l2 = accepted c (l1 ++ l2).
Proof.
  unfold chan_adds, accepted, chan_view. intros [= -> -> _].
  rewrite take_app, length_app, length_take. f_equal. f_equal. lia.
Qed.
Lemma delivered_trans l1 l2 subs1 subs2 subs3 :
  delivered l1 subs1 subs2 → delivered l2 subs2 subs3 →
  delivered (λ pk, l1 pk ++ l2 pk) subs1 subs3.
Proof.
  intros [Hd1 Hv1] [Hd2 Hv2]. split; [congruence|]. intros pk c c3 Hc Hc3.
  assert (is_Some (subs2 !! pk)) as [c2 Hc2].
  { rewrite <-elem_of_dom, Hd1, elem_of_dom. by exists c. }
  specialize (Hv1 _ _ _ Hc Hc2). specialize (Hv2 _ _ _ Hc2 Hc3).
  rewrite <-(accepted_app _ _ _ _ Hv1). by eapply chan_adds_trans.
Qed.
Lemma delivered_send subs pk c m answer c' :
  subs !! pk = Some c → chan_closed c = false → try_send m c = (answer, c') →
  delivered (λ pk', if decide (pk' = pk) then [m] else []) subs (<[pk := c']> subs).
Proof.
  intros Hc Hopen Hs. split; [apply dom_insert_lookup_L; by exists c|].
  intros pk' c1 c2 Hc1 [[<- <-]|[Hne Hc2]]%lookup_insert_Some.
  - rewrite decide_True by done. simplify_eq. by eapply try_send_open.
  - rewrite decide_False by done. eapply delivered_refl; [done|]. congruence.
Qed.
Lemma delivered_ext l l' subs subs' :
  (∀ pk, l pk = l' pk) → delivered l subs subs' → delivered l' subs subs'.
Proof. intros Hl [Hd Ha]. split; [done|]. intros pk. rewrite <-Hl. apply Ha. Qed.
Lemma delivered_open l subs subs' : delivered l subs subs' → all_open subs → all_open subs'.
Proof.
  intros [Hd Ha] Hopen pk c' Hc'.
  assert (is_Some (subs !! pk)) as [c Hc] by (rewrite <-elem_of_dom, <-Hd, elem_of_dom; by exists c').
  specialize (Ha _ _ _ Hc Hc'). unfold chan_adds, chan_view in Ha.
  injection Ha as _ _ ->. by eapply Hopen.
Qed.
End deliveries.

(** ** Theorems *)

Section relayer_theorems.
Context `{Sdk} `{!IpText} `{!Channels} `{!Histograms} `{!HashOrder Pubkey} `{!HashOrder Slot}.
Context `{!ChannelsLaws} `{!HashOrderLaws Pubkey}.
Implicit Types (st : Relayer) (config : RelayerConfig).

(** The message [send_batch] sends to [pubkey]. *)
Definition batch_msg (ts : Pubkey → Z) (batch : ProtoPacketBatch) (pubkey : Pubkey)
    : Outcome Status SubscribePacketsResponse :=
  Done {| header_ts := Some (ts pubkey); msg := Some (Batch batch) |}.
Fixpoint batch_msgs (ts : nat → Pubkey → Z) (n : nat) (batches : list ProtoPacketBatch)
    (pubkey : Pubkey) : list (Outcome Status SubscribePacketsResponse) :=
  match batches with
  | [] => []
  | batch :: batches' => batch_msg (ts n) batch pubkey :: batch_msgs ts (S n) batches' pubkey
  end.

(** The state after a try_send to [pk] that left its queue as [c'] and was counted
    by [count]. *)
Definition after_send st pk c' (count : RelayerMetrics → RelayerMetrics) : Relayer :=
  {| packet_subscriptions := <[pk := c']> (packet_subscriptions st);
     highest_slot := highest_slot st; slot_leaders := slot_leaders st;
     relayer_metrics := count (relayer_metrics st); reported := reported st |}.

Lemma send_batch_cons {E} ts batch pk senders st c answer c' :
  packet_subscriptions st !! pk = Some c →
  try_send (batch_msg ts batch pk) c = (answer, c') →
  send_batch (E := E) ts batch (pk :: senders) st =
  let n := Z.of_nat (length (packets batch)) in
  match answer with
  | None => send_batch ts batch senders (after_send st pk c' (increment_packets_forwarded pk n))
  | Some Full => send_batch ts batch senders (after_send st pk c' (increment_packets_dropped pk n))
  | Some Closed => (Done [pk], after_send st pk c' id)
  end.
Proof.
  intros Hc Hs. destruct st as [subs h l m r]. cbn in Hc. unfold batch_msg in Hs.
  cbn [send_batch]. unfold try_send_to, with_relayer_metrics, after_send. prog_unfold. cbn.
  rewrite Hc. cbn. rewrite Hs. by destruct answer as [[]|].
Qed.

(** One send of one batch, by cases on what became of it. *)
Lemma send_batch_adds {E} ts batch senders st (ok : Pubkey → _ → Prop) :
  (∀ pk, pk ∈ senders → ok pk (batch_msg ts batch pk)) →
  only_adds ok (packet_subscriptions st)
    (packet_subscriptions (send_batch (E := E) ts batch senders st).2) ∧
  slot_leaders (send_batch (E := E) ts batch senders st).2 = slot_leaders st.
Proof.
  revert st; induction senders as [|pk senders IH]; intros st Hok.
  { split; [apply only_adds_refl|done]. }
  destruct (packet_subscriptions st !! pk) as [c|] eqn:Hc; cycle 1.
  { destruct st; cbn [send_batch] in *. prog_unfold. cbn in *. rewrite Hc.
    split; [apply only_adds_refl|done]. }
  destruct (try_send (batch_msg ts batch pk) c) as [answer c'] eqn:Hs.
  rewrite (send_batch_cons _ _ _ _ _ _ _ _ Hc Hs).
  assert (Hsend : only_adds ok (packet_subscriptions st) (<[pk := c']> (packet_subscriptions st))).
  { eapply only_adds_send; [done..|]. apply Hok. set_solver. }
  destruct answer as [[]|]; cbn; [done| |];
    (edestruct IH as [Ha Hl]; [intros; apply Hok; set_solver|];
     split; [eapply only_adds_trans; [exact Hsend|exact Ha]|exact Hl]).
Qed.

Lemma send_batches_adds {E} ts n batches senders st (ok : Pubkey → _ → Prop) :
  (∀ k pk batch, pk ∈ senders → batch ∈ batches → packets batch ≠ [] →
    ok pk (batch_msg (ts k) batch pk)) →
  only_adds ok (packet_subscriptions st)
    (packet_subscriptions (send_batches (E := E) ts n batches senders st).2) ∧
  slot_leaders (send_batches (E := E) ts n batches senders st).2 = slot_leaders st.
Proof.
  revert n st; induction batches as [|batch batches IH]; intros n st Hok; cbn [send_batches].
  { split; [apply only_adds_refl|done]. }
  case_bool_decide as Hempty.
  { apply IH. intros. apply Hok; set_solver. }
  unfold mbind, Prog_bind.
  destruct (send_batch_adds (E := E) (ts n) batch senders st ok) as [Ha Hl].
  { intros pk Hpk. apply Hok; set_solver. }
  destruct (send_batch (ts n) batch senders st) as [[failed|e|w] st1]; cbn in *; [|done..].
  edestruct (IH (S n) st1) as [Ha2 Hl2]; [intros; apply Hok; set_solver|].
  destruct (send_batches ts (S n) batches senders st1) as [[]?]; cbn in *;
    (split; [by eapply only_adds_trans|congruence]).
Qed.

Lemma select_senders_spec all leaders (subs : gmap Pubkey (chan (Outcome Status SubscribePacketsResponse))) pk :
  pk ∈ select_senders all leaders subs ↔
  is_Some (subs !! pk) ∧ (all = true ∨ pk ∈ leaders).
Proof.
  unfold select_senders. destruct all.
  - rewrite list_elem_of_fmap. split.
    + intros ([k c] & -> & ?%elem_of_map_iter). split; [by exists c|by left].
    + intros [[c Hc] _]. exists (pk, c). by rewrite elem_of_map_iter.
  - rewrite list_elem_of_In, filter_In, <-list_elem_of_In, elem_of_set_iter, bool_decide_eq_true.
    naive_solver.
Qed.
Lemma select_senders_NoDup all leaders (subs : gmap Pubkey (chan (Outcome Status SubscribePacketsResponse))) :
  NoDup (select_senders all leaders subs).
Proof.
  unfold select_senders. destruct all; [apply NoDup_map_iter|].
  apply NoDup_ListNoDup, List.NoDup_filter, NoDup_ListNoDup, NoDup_set_iter.
Qed.

Lemma forwardable_may_forward ofac cache batches p :
  p ∈ forwardable ofac cache batches → may_forward ofac cache batches p.
Proof.
  unfold forwardable. rewrite list_elem_of_In, in_flat_map. intros (batch & Hbatch & Hp).
  apply list_elem_of_In in Hbatch.
  apply list_elem_of_In, list_elem_of_omap in Hp as (packet & Hp & Hproto).
  apply list_elem_of_omap in Hp as (packet' & Hp & Hofac).
  apply list_elem_of_In, filter_In in Hp as [Hin Hd]. apply negb_true_iff in Hd.
  apply list_elem_of_In in Hin.
  unfold passes_ofac in Hofac. case_bool_decide as He; cbn in Hofac.
  { simplify_eq. by exists batch, packet. }
  destruct (deserialize_slice packet') as [tx|] eqn:Htx; [|done]. cbn in Hofac.
  destruct (is_tx_ofac_related tx ofac cache) eqn:Hrel; [done|]. cbn in Hofac. simplify_eq.
  exists batch, packet. split_and!; [done..|]. intros _. exists tx. split; [done|].
  intros acc. by apply unrelated_mentions.
Qed.

(** A message that carries a batch of packets out of [batches] that may leave. *)
Definition batch_of config cache (batches : RelayerPacketBatches)
    (m : Outcome Status SubscribePacketsResponse) : Prop :=
  ∃ t batch, m = Done {| header_ts := Some t; msg := Some (Batch batch) |} ∧
    (0 < length (packets batch) ≤ validator_packet_batch_size config)%nat ∧
    Forall (may_forward (ofac_addresses config) cache (banking_packet_batch batches)) (packets batch).

(** What [forward_packets] may add to the queue of [pk]. *)
Definition safe_forward config (leaders : gset Pubkey) cache (batches : RelayerPacketBatches)
    (pk : Pubkey) (m : Outcome Status SubscribePacketsResponse) : Prop :=
  (forward_all config = true ∨ pk ∈ leaders) ∧ batch_of config cache batches m.

(** The batches one call makes. *)
Definition made_batches config cache (batches : RelayerPacketBatches) : list ProtoPacketBatch :=
  map Build_ProtoPacketBatch (chunks (validator_packet_batch_size config)
    (forwardable (ofac_addresses config) cache (banking_packet_batch batches))).

Lemma made_batches_bounds config cache batches b :
  (0 < validator_packet_batch_size config)%nat → b ∈ made_batches config cache batches →
  (0 < length (packets b) ≤ validator_packet_batch_size config)%nat.
Proof.
  intros Hsize Hb. apply list_elem_of_In, in_map_iff in Hb as (c & <- & Hc).
  apply list_elem_of_In in Hc. by eapply chunks_size.
Qed.

Lemma made_batches_nonempty config cache batches :
  (0 < validator_packet_batch_size config)%nat →
  Forall (λ b, packets b ≠ []) (made_batches config cache batches).
Proof.
  intros Hsize. apply Forall_forall. intros b Hb%made_batches_bounds; [|done].
  destruct (packets b); cbn in *; [lia|done].
Qed.

Lemma made_batches_concat config cache batches :
  (0 < validator_packet_batch_size config)%nat →
  concat (map packets (made_batches config cache batches)) =
    forwardable (ofac_addresses config) cache (banking_packet_batch batches).
Proof. intros Hsize. unfold made_batches. rewrite map_map. cbn. by rewrite map_id, chunks_concat. Qed.

Lemma forward_packets_unfold config batches us ts cache st :
  (0 < validator_packet_batch_size config)%nat →
  forward_packets config (Some batches) us ts cache st =
  send_batches ts 0 (made_batches config cache batches)
    (select_senders (forward_all config) (slot_leaders st) (packet_subscriptions st))
    {st with relayer_metrics ::= (λ m, {m with packet_latencies_us ::= histogram_increment us})}.
Proof.
  intros Hsize. unfold forward_packets, received_or_shutdown, with_relayer_metrics, made_batches.
  destruct st as [subs h leaders m r]. prog_unfold. cbn.
  destruct (validator_packet_batch_size config =? 0)%nat eqn:Hz; [|done].
  apply Nat.eqb_eq in Hz. lia.
Qed.

(** A call that has nothing to do, or that divides by zero, touches no queue. *)
Lemma forward_packets_keeps config us ts cache st batches :
  batches = None ∨ validator_packet_batch_size config = 0%nat →
  packet_subscriptions (forward_packets config batches us ts cache st).2 = packet_subscriptions st ∧
  slot_leaders (forward_packets config batches us ts cache st).2 = slot_leaders st ∧
  ∀ l, (forward_packets config batches us ts cache st).1 ≠ Done l.
Proof.
  unfold forward_packets, received_or_shutdown, with_relayer_metrics.
  destruct st as [subs h leaders m r]. intros [->|Hz]; [done|].
  destruct batches as [batches|]; [|done]. prog_unfold. cbn. by rewrite Hz.
Qed.

Lemma send_made_batches_safe config batches ts cache st st0 :
  (0 < validator_packet_batch_size config)%nat →
  packet_subscriptions st0 = packet_subscriptions st → slot_leaders st0 = slot_leaders st →
  let st' := (send_batches (E := RelayerError) ts 0 (made_batches config cache batches)
    (select_senders (forward_all config) (slot_leaders st) (packet_subscriptions st)) st0).2 in
  only_adds (safe_forward config (slot_leaders st) cache batches) (packet_subscriptions st)
    (packet_subscriptions st') ∧ slot_leaders st' = slot_leaders st.
Proof.
  intros Hsize <- <-. apply send_batches_adds. intros k pk batch Hpk Hb Hne.
  apply select_senders_spec in Hpk as [_ Hpk]. split; [done|]. eexists _, _. split; [done|].
  split; [by eapply made_batches_bounds|]. apply Forall_forall. intros p Hp.
  apply (forwardable_may_forward _ _ (banking_packet_batch batches)).
  rewrite <-(made_batches_concat config cache batches Hsize). apply list_elem_of_In, in_concat.
  exists (packets batch). split; [|by apply list_elem_of_In].
  apply in_map. by apply list_elem_of_In.
Qed.

(** Whatever becomes of the sends, all that [forward_packets] does to the
    queues is to add to them, and only to those of the connected slot leaders
    unless everything is forwarded to all; and all it adds is batches, neither
    empty nor over the configured size, of packets that were not discarded and
    that mention no listed address. *)
Theorem forward_packets_safe config batches us ts cache st :
  only_adds (λ pk m, ∃ received, batches = Some received ∧
      safe_forward config (slot_leaders st) cache received pk m) (packet_subscriptions st)
    (packet_subscriptions (forward_packets config batches us ts cache st).2) ∧
  slot_leaders (forward_packets config batches us ts cache st).2 = slot_leaders st.
Proof.
  destruct (decide (batches = None ∨ validator_packet_batch_size config = 0%nat)) as [Hno|Hok].
  { destruct (forward_packets_keeps config us ts cache st batches Hno) as (-> & -> & _).
    split; [apply only_adds_refl|done]. }
  destruct batches as [batches|]; [|naive_solver].
  assert (0 < validator_packet_batch_size config)%nat by lia.
  rewrite forward_packets_unfold by done.
  edestruct send_made_batches_safe as [Hadds Hl]; [done| | |split; [|exact Hl]]; [by destruct st..|].
  eapply only_adds_weaken, Hadds. cbn. eauto.
Qed.

(** *** Delivery *)

(** The messages of a run of batches, as far as they concern [pk]. *)
Definition to_senders {M} (senders : list Pubkey) (msgs : Pubkey → list M) (pk : Pubkey) : list M :=
  if decide (pk ∈ senders) then msgs pk else [].

Lemma send_batch_delivers {E} ts batch senders st :
  NoDup senders → (∀ pk, pk ∈ senders → is_Some (packet_subscriptions st !! pk)) →
  all_open (packet_subscriptions st) →
  ∃ st', send_batch (E := E) ts batch senders st = (Done [], st') ∧
    delivered (to_senders senders (λ pk, [batch_msg ts batch pk]))
      (packet_subscriptions st) (packet_subscriptions st') ∧
    num_removed_connections (relayer_metrics st') = num_removed_connections (relayer_metrics st).
Proof.
  revert st; induction senders as [|pk senders IH]; intros st Hnodup Hsub Hopen.
  { exists st. split; [done|]. split; [|done]. by eapply delivered_ext, delivered_refl. }
  apply NoDup_cons in Hnodup as [Hnin Hnodup].
  destruct (Hsub pk) as [c Hc]; [set_solver|].
  destruct (try_send (batch_msg ts batch pk) c) as [answer c'] eqn:Hs.
  rewrite (send_batch_cons _ _ _ _ _ _ _ _ Hc Hs).
  pose proof (try_send_open _ _ _ _ (Hopen _ _ Hc) Hs) as [Hans _].
  pose proof (delivered_send _ _ _ _ _ _ Hc (Hopen _ _ Hc) Hs) as Hdel.
  assert (Hgo : ∀ count,
    (∀ m, num_removed_connections (count m) = num_removed_connections m) →
    ∃ st', send_batch (E := E) ts batch senders (after_send st pk c' count) = (Done [], st') ∧
      delivered (to_senders (pk :: senders) (λ pk, [batch_msg ts batch pk]))
        (packet_subscriptions st) (packet_subscriptions st') ∧
      num_removed_connections (relayer_metrics st') = num_removed_connections (relayer_metrics st)).
  { intros count Hcount. destruct (IH (after_send st pk c' count)) as (st' & Hr & Hd & Hm); cbn.
    - done.
    - intros pk' Hpk'. apply lookup_insert_is_Some'. right. apply Hsub. set_solver.
    - by eapply delivered_open.
    - exists st'. split; [done|]. cbn in Hm. split; [|congruence].
      eapply delivered_ext, (delivered_trans _ _ _ _ _ Hdel Hd).
      intros pk'. unfold to_senders. repeat case_decide; set_solver. }
  destruct answer as [[]|]; [done| |]; apply Hgo; by intros [].
Qed.

Lemma delivered_is_Some {M} msgs (subs subs' : gmap Pubkey (chan M)) pk :
  delivered msgs subs subs' → is_Some (subs !! pk) → is_Some (subs' !! pk).
Proof. intros [Hd _]. by rewrite <-!elem_of_dom, Hd. Qed.

Lemma send_batches_delivers {E} ts n batches senders st :
  Forall (λ b, packets b ≠ []) batches →
  NoDup senders → (∀ pk, pk ∈ senders → is_Some (packet_subscriptions st !! pk)) →
  all_open (packet_subscriptions st) →
  ∃ st', send_batches (E := E) ts n batches senders st = (Done [], st') ∧
    delivered (to_senders senders (batch_msgs ts n batches))
      (packet_subscriptions st) (packet_subscriptions st') ∧
    num_removed_connections (relayer_metrics st') = num_removed_connections (relayer_metrics st).
Proof.
  revert n st; induction batches as [|batch batches IH]; intros n st Hne Hnodup Hsub Hopen;
    cbn [send_batches].
  { exists st. split; [done|]. split; [|done]. eapply delivered_ext, delivered_refl.
    intros pk. unfold to_senders. by case_decide. }
  apply Forall_cons in Hne as [Hb Hne]. rewrite bool_decide_eq_false_2 by done.
  destruct (send_batch_delivers (E := E) (ts n) batch senders st Hnodup Hsub Hopen)
    as (st1 & Hr1 & Hd1 & Hm1).
  destruct (IH (S n) st1) as (st2 & Hr2 & Hd2 & Hm2);
    [done|done|intros pk Hpk; eapply delivered_is_Some; eauto|by eapply delivered_open|].
  exists st2. rewrite (prog_bind_done _ _ _ _ _ Hr1), (prog_bind_done _ _ _ _ _ Hr2).
  split; [done|]. split; [|congruence].
  eapply delivered_ext, (delivered_trans _ _ _ _ _ Hd1 Hd2).
  intros pk. unfold to_senders. by case_decide.
Qed.

(** What a call does when no stream is closed. *)
Lemma forward_packets_delivered config batches us ts cache st :
  (0 < validator_packet_batch_size config)%nat →
  all_open (packet_subscriptions st) →
  ∃ st', forward_packets config (Some batches) us ts cache st = (Done [], st') ∧
    ∀ pk c, packet_subscriptions st !! pk = Some c →
      ∃ c', packet_subscriptions st' !! pk = Some c' ∧
        chan_adds c
          (if decide (forward_all config = true ∨ pk ∈ slot_leaders st)
           then accepted c (batch_msgs ts 0 (made_batches config cache batches) pk) else []) c'.
Proof.
  intros Hsize Hopen.
  rewrite forward_packets_unfold by done.
  destruct (send_batches_delivers (E := RelayerError) ts 0 (made_batches config cache batches)
    (select_senders (forward_all config) (slot_leaders st) (packet_subscriptions st))
    {st with relayer_metrics ::= (λ m, {m with packet_latencies_us ::= histogram_increment us})})
    as (st' & Hr & Hd & _).
  { by apply made_batches_nonempty. }
  { apply select_senders_NoDup. }
  { by intros pk [? _]%select_senders_spec; destruct st. }
  { by destruct st. }
  exists st'. split; [done|]. intros pk c Hc.
  assert (Hsubs : ∀ f, packet_subscriptions {st with relayer_metrics ::= f} = packet_subscriptions st)
    by (by destruct st).
  rewrite Hsubs in Hd.
  destruct (delivered_is_Some _ _ _ pk Hd) as [c' Hc']; [by exists c|].
  exists c'. split; [done|]. destruct Hd as [_ Ha]. specialize (Ha _ _ _ Hc Hc').
  unfold to_senders in Ha. case_decide as Hin; case_decide as Hrecv.
  - done.
  - apply select_senders_spec in Hin as [_ ?]. done.
  - destruct Hin. apply select_senders_spec. split; [by exists c|done].
  - unfold accepted in Ha. by rewrite take_nil in Ha.
Qed.

(** C20: When no stream is closed nothing fails, and every packet that passes the
    filters reaches every receiver: concatenated, the batches are the packets that
    pass, in order, and each connected slot leader (each connected validator, when
    everything is forwarded to all) gets the batches in order, as many as its queue
    has room for, and no one else gets anything. *)
Theorem forward_packets_delivers config batches us ts cache st :
  (0 < validator_packet_batch_size config)%nat →
  all_open (packet_subscriptions st) →
  concat (map packets (made_batches config cache batches)) =
    forwardable (ofac_addresses config) cache (banking_packet_batch batches) ∧
  ∃ st', forward_packets config (Some batches) us ts cache st = (Done [], st') ∧
    ∀ pk c, packet_subscriptions st !! pk = Some c →
      ∃ c', packet_subscriptions st' !! pk = Some c' ∧
        chan_adds c
          (if decide (forward_all config = true ∨ pk ∈ slot_leaders st)
           then accepted c (batch_msgs ts 0 (made_batches config cache batches) pk) else []) c'.
Proof.
  intros Hsize Hopen. split; [by apply made_batches_concat|by apply forward_packets_delivered].
Qed.

(** *** A closed stream *)

Lemma send_batch_closed {E} ts batch l1 pk l2 st c :
  NoDup (l1 ++ pk :: l2) →
  (∀ p, p ∈ l1 → ∃ c, packet_subscriptions st !! p = Some c ∧ chan_closed c = false) →
  packet_subscriptions st !! pk = Some c → chan_closed c = true →
  ∃ st', send_batch (E := E) ts batch (l1 ++ pk :: l2) st = (Done [pk], st') ∧
    (∀ p, p ∉ l1 → packet_subscriptions st' !! p = packet_subscriptions st !! p) ∧
    (∀ p, p ∈ l1 → ∃ c, packet_subscriptions st' !! p = Some c ∧ chan_closed c = false) ∧
    num_removed_connections (relayer_metrics st') = num_removed_connections (relayer_metrics st).
Proof.
  revert st; induction l1 as [|p l1 IH]; intros st Hnodup Hopen Hc Hclosed; cbn [app] in *.
  { pose proof (try_send_closed _ (batch_msg ts batch pk) c Hclosed) as Hs.
    rewrite (send_batch_cons _ _ _ _ _ _ _ _ Hc Hs).
    eexists. split; [done|]. cbn. split_and!; [|set_solver|done].
    intros p _. by rewrite insert_id. }
  apply NoDup_cons in Hnodup as [Hnin Hnodup].
  destruct (Hopen p) as (cp & Hcp & Hop); [set_solver|].
  destruct (try_send (batch_msg ts batch p) cp) as [answer c'] eqn:Hs.
  rewrite (send_batch_cons _ _ _ _ _ _ _ _ Hcp Hs).
  pose proof (try_send_open _ _ _ _ Hop Hs) as [Hans Hadd].
  assert (Hop' : chan_closed c' = false).
  { unfold chan_adds, chan_view in Hadd. injection Hadd as _ _ ->. done. }
  assert (Hgo : ∀ count,
    (∀ m, num_removed_connections (count m) = num_removed_connections m) →
    ∃ st', send_batch (E := E) ts batch (l1 ++ pk :: l2) (after_send st p c' count) = (Done [pk], st') ∧
      (∀ q, q ∉ p :: l1 → packet_subscriptions st' !! q = packet_subscriptions st !! q) ∧
      (∀ q, q ∈ p :: l1 → ∃ c, packet_subscriptions st' !! q = Some c ∧ chan_closed c = false) ∧
      num_removed_connections (relayer_metrics st') = num_removed_connections (relayer_metrics st)).
  { intros count Hcount. assert (p ∉ l1 ∧ p ≠ pk) as [Hp1 Hp2] by set_solver.
    destruct (IH (after_send st p c' count)) as (st' & Hr & Hkeep & Hopen' & Hm); cbn in *.
    - done.
    - intros q Hq. rewrite lookup_insert_ne by set_solver. apply Hopen. set_solver.
    - by rewrite lookup_insert_ne.
    - done.
    - exists st'. split_and!; [done| |  |congruence].
      + intros q Hq. rewrite Hkeep by set_solver. by rewrite lookup_insert_ne by set_solver.
      + intros q [->|Hq]%elem_of_cons; [|eauto].
        exists c'. by rewrite Hkeep, lookup_insert_eq. }
  destruct answer as [[]|]; [done| |]; apply Hgo; by intros [].
Qed.

Lemma send_batches_closed {E} ts n batches l1 pk l2 st c :
  Forall (λ b, packets b ≠ []) batches →
  NoDup (l1 ++ pk :: l2) →
  (∀ p, p ∈ l1 → ∃ c, packet_subscriptions st !! p = Some c ∧ chan_closed c = false) →
  packet_subscriptions st !! pk = Some c → chan_closed c = true →
  ∃ st', send_batches (E := E) ts n batches (l1 ++ pk :: l2) st =
      (Done (replicate (length batches) pk), st') ∧
    (∀ p, p ∉ l1 → packet_subscriptions st' !! p = packet_subscriptions st !! p) ∧
    num_removed_connections (relayer_metrics st') = num_removed_connections (relayer_metrics st).
Proof.
  intros Hne Hnodup. revert n st; induction batches as [|batch batches IH];
    intros n st Hopen Hc Hclosed; cbn [send_batches].
  { by exists st. }
  apply Forall_cons in Hne as [Hb Hne]. rewrite bool_decide_eq_false_2 by done.
  destruct (send_batch_closed (E := E) (ts n) batch l1 pk l2 st c Hnodup Hopen Hc Hclosed)
    as (st1 & Hr1 & Hkeep1 & Hopen1 & Hm1).
  assert (Hpk : pk ∉ l1) by (apply NoDup_app in Hnodup; set_solver).
  destruct (IH Hne (S n) st1) as (st2 & Hr2 & Hkeep2 & Hm2); [done|by rewrite Hkeep1|done|].
  exists st2. rewrite (prog_bind_done _ _ _ _ _ Hr1), (prog_bind_done _ _ _ _ _ Hr2).
  split_and!; [done| |congruence]. intros p Hp. by rewrite Hkeep2, Hkeep1.
Qed.

Lemma drop_connections_done {E} pks st :
  ∃ st', drop_connections (E := E) pks st = (Done tt, st') ∧
    (∀ p, packet_subscriptions st' !! p =
      if decide (p ∈ pks) then None else packet_subscriptions st !! p) ∧
    num_removed_connections (relayer_metrics st') =
      u64_add (num_removed_connections (relayer_metrics st)) (Z.of_nat (length pks)) ∧
    num_heartbeats (relayer_metrics st') = num_heartbeats (relayer_metrics st) ∧
    slot_leaders st' = slot_leaders st.
Proof.
  unfold drop_connections, with_relayer_metrics. destruct st as [subs h leaders m r].
  assert (Hgo : ∀ subs m, ∃ subs',
    for_each (λ disconnected, modify (λ st,
        {st with packet_subscriptions ::= (λ subs, delete disconnected subs)})) pks
      {| packet_subscriptions := subs; highest_slot := h; slot_leaders := leaders;
         relayer_metrics := m; reported := r |} = (Done tt : Outcome E unit,
        {| packet_subscriptions := subs'; highest_slot := h; slot_leaders := leaders;
           relayer_metrics := m; reported := r |}) ∧
    ∀ p, subs' !! p = if decide (p ∈ pks) then None else subs !! p).
  { clear. intros subs m. revert subs; induction pks as [|pk pks IH]; intros subs; cbn.
    - by exists subs.
    - unfold mbind, Prog_bind. cbn. destruct (IH (delete pk subs)) as (subs' & Hr & Hl).
      exists subs'. split; [exact Hr|]. intros p. rewrite Hl.
      destruct (decide (p = pk)) as [->|Hne].
      + rewrite lookup_delete_eq. rewrite (decide_True (P := pk ∈ pk :: pks)) by set_solver.
        by case_decide.
      + rewrite lookup_delete_ne by done. repeat case_decide; set_solver. }
  destruct m as []. unfold mbind at 1, Prog_bind at 1, modify at 1.
  edestruct Hgo as (subs' & Hr & Hl). cbn.
  eexists. split; [exact Hr|]. by split_and!.
Qed.

(** Dropping every connected validator leaves none. *)
Lemma drop_all_done {E} st :
  ∃ st', drop_connections (E := E) (connected_validators st) st = (Done tt, st') ∧
    packet_subscriptions st' = ∅.
Proof.
  destruct (drop_connections_done (E := E) (connected_validators st) st) as (st' & Hr & Hl & _).
  exists st'. split; [done|]. apply map_empty. intros pk. rewrite Hl. case_decide as Hin; [done|].
  destruct (packet_subscriptions st !! pk) as [c|] eqn:Hc; [|done].
  destruct Hin. apply list_elem_of_fmap. exists (pk, c). by rewrite elem_of_map_iter.
Qed.

(** C33: A closed stream ends the round for its batch: the receivers after it in the
    iteration order get nothing of any batch of the call, though their streams are
    open; and its key is reported once for each batch, so the connection that is
    removed is counted that many times. *)
Theorem closed_stream_starves_others config caps batches us ts cache us' st l1 pk l2 c :
  (0 < validator_packet_batch_size config)%nat →
  select_senders (forward_all config) (slot_leaders st) (packet_subscriptions st) = l1 ++ pk :: l2 →
  (∀ p, p ∈ l1 → ∃ c, packet_subscriptions st !! p = Some c ∧ chan_closed c = false) →
  packet_subscriptions st !! pk = Some c → chan_closed c = true →
  made_batches config cache batches ≠ [] →
  ∃ st', relayer_select config caps (PacketArm (Some batches) us ts cache us') st = (Done tt, st') ∧
    (∀ p, p ∈ l2 → packet_subscriptions st' !! p = packet_subscriptions st !! p) ∧
    packet_subscriptions st' !! pk = None ∧
    num_removed_connections (relayer_metrics st') =
      u64_add (num_removed_connections (relayer_metrics st))
        (Z.of_nat (length (made_batches config cache batches))).
Proof.
  intros Hsize Hsel Hopen Hc Hclosed Hsome.
  pose proof (select_senders_NoDup (forward_all config) (slot_leaders st) (packet_subscriptions st))
    as Hnodup. rewrite Hsel in Hnodup.
  assert (Hsubs : ∀ f, packet_subscriptions {st with relayer_metrics ::= f} = packet_subscriptions st)
    by (by destruct st).
  destruct (send_batches_closed (E := RelayerError) ts 0 (made_batches config cache batches) l1 pk l2
    {st with relayer_metrics ::= (λ m, {m with packet_latencies_us ::= histogram_increment us})} c)
    as (st1 & Hr1 & Hkeep1 & Hm1); [by apply made_batches_nonempty|done| | |done|]; rewrite ?Hsubs; [done..|].
  destruct (drop_connections_done (E := RelayerError)
    (replicate (length (made_batches config cache batches)) pk) st1)
    as (st2 & Hr2 & Hl2 & Hm2 & _ & _).
  cbn [relayer_select]. unfold with_relayer_metrics.
  assert (Hf : forward_packets config (Some batches) us ts cache st =
    (Done (replicate (length (made_batches config cache batches)) pk), st1)).
  { by rewrite forward_packets_unfold, Hsel. }
  rewrite (prog_bind_done _ _ _ _ _ Hf), (prog_bind_done _ _ _ _ _ Hr2).
  destruct st2 as [subs2 h2 leaders2 [] r2], st as [subs h leaders [] r]. eexists. split; [done|].
  cbn in *. apply NoDup_app in Hnodup as (Hn1 & Hdisj & Hn2). apply NoDup_cons in Hn2 as [Hnin _].
  split_and!.
  - intros p Hp. rewrite Hl2, decide_False, Hkeep1; [done| |].
    + intros Hp1. eapply Hdisj; [done|]. set_solver.
    + intros [-> _]%elem_of_replicate. done.
  - rewrite Hl2, decide_True; [done|]. apply elem_of_replicate. split; [done|].
    destruct (made_batches config cache batches); [done|]. cbn. lia.
  - rewrite Hm2, Hm1, length_replicate. done.
Qed.

(** *** Heartbeats *)

Definition heartbeat_msg (count : Z) : Outcome Status SubscribePacketsResponse :=
  Done {| header_ts := None; msg := Some (Heartbeat count) |}.

(** What a round of heartbeats does, given the senders it goes through. *)
Record heartbeat_result st (senders : list (Pubkey * chan (Outcome Status SubscribePacketsResponse)))
    (failed : list Pubkey) (st' : Relayer) : Prop := {
  hr_failed : ∀ pk, pk ∈ failed ↔ ∃ c, (pk, c) ∈ senders ∧ chan_closed c = true;
  hr_others : ∀ pk, pk ∉ senders.*1 →
    packet_subscriptions st' !! pk = packet_subscriptions st !! pk;
  hr_open : ∀ pk c, (pk, c) ∈ senders → chan_closed c = false → ∃ c',
    packet_subscriptions st' !! pk = Some c' ∧
    chan_adds c (accepted c [heartbeat_msg (num_heartbeats (relayer_metrics st))]) c';
  hr_count : num_heartbeats (relayer_metrics st') = num_heartbeats (relayer_metrics st);
  hr_removed : num_removed_connections (relayer_metrics st') =
    num_removed_connections (relayer_metrics st) }.

Lemma heartbeat_result_cons st st1 pk c c' senders failed st' :
  pk ∉ senders.*1 →
  packet_subscriptions st1 = <[pk := c']> (packet_subscriptions st) →
  num_heartbeats (relayer_metrics st1) = num_heartbeats (relayer_metrics st) →
  num_removed_connections (relayer_metrics st1) = num_removed_connections (relayer_metrics st) →
  (chan_closed c = false →
    chan_adds c (accepted c [heartbeat_msg (num_heartbeats (relayer_metrics st))]) c') →
  heartbeat_result st1 senders failed st' →
  heartbeat_result st ((pk, c) :: senders) (if chan_closed c then pk :: failed else failed) st'.
Proof.
  intros Hnin Hsub Hhb Hrm Hadd [Hf Ho Hop Hc Hr]. rewrite Hhb in *. split; try congruence.
  - intros p. destruct (chan_closed c) eqn:Hcl; rewrite ?elem_of_cons, Hf.
    + split; [intros [->|(cp & ? & ?)]; [exists c|exists cp]; set_solver|].
      intros (cp & [[= -> ->]|?]%elem_of_cons & ?); eauto.
    + split; [intros (cp & ? & ?); exists cp; set_solver|].
      intros (cp & [[= -> ->]|?]%elem_of_cons & ?); [congruence|eauto].
  - cbn. intros p Hp. rewrite Ho, Hsub by set_solver. by rewrite lookup_insert_ne by set_solver.
  - intros p cp [[= -> ->]|?]%elem_of_cons Hcl; [|eauto].
    exists c'. split; [|by apply Hadd]. by rewrite Ho, Hsub, lookup_insert_eq.
Qed.

Lemma heartbeat_each_cons {E} pk c senders st answer c' :
  try_send (heartbeat_msg (num_heartbeats (relayer_metrics st))) c = (answer, c') →
  heartbeat_each (E := E) ((pk, c) :: senders) st =
  match answer with
  | None => heartbeat_each senders (after_send st pk c' id)
  | Some Closed => (failed ← heartbeat_each senders; mret (pk :: failed)) (after_send st pk c' id)
  | Some Full => heartbeat_each senders (after_send st pk c'
      (λ m, {m with num_try_send_channel_full ::= (λ x, u64_add x 1)}))
  end.
Proof.
  intros Hs. destruct st as [subs h leaders m r]. cbn [heartbeat_each]. unfold heartbeat_msg in Hs.
  unfold try_send_to, with_relayer_metrics, after_send. prog_unfold. cbn in *.
  rewrite Hs. by destruct answer as [[]|].
Qed.

Lemma heartbeat_each_spec {E} senders st :
  NoDup senders.*1 →
  ∃ failed st', heartbeat_each (E := E) senders st = (Done failed, st') ∧
    heartbeat_result st senders failed st'.
Proof.
  revert st; induction senders as [|[pk c] senders IH]; intros st Hnodup.
  { exists [], st. split; [done|]. split; set_solver. }
  apply NoDup_cons in Hnodup as [Hnin Hnodup].
  destruct (try_send (heartbeat_msg (num_heartbeats (relayer_metrics st))) c) as [answer c'] eqn:Hs.
  rewrite (heartbeat_each_cons _ _ _ _ _ _ Hs).
  destruct (chan_closed c) eqn:Hcl.
  - rewrite try_send_closed in Hs by done. injection Hs as <- <-.
    destruct (IH (after_send st pk c id) Hnodup) as (failed & st' & Hr & Hres).
    exists (pk :: failed), st'. rewrite (prog_bind_done _ _ _ _ _ Hr). split; [done|].
    eapply (heartbeat_result_cons st _ pk c c) in Hres; [|done..|congruence].
    by rewrite Hcl in Hres.
  - pose proof (try_send_open _ _ _ _ Hcl Hs) as [Hans Hadd].
    assert (Hgo : ∀ count,
      (∀ m, num_heartbeats (count m) = num_heartbeats m) →
      (∀ m, num_removed_connections (count m) = num_removed_connections m) →
      ∃ failed st', heartbeat_each (E := E) senders (after_send st pk c' count) = (Done failed, st') ∧
        heartbeat_result st ((pk, c) :: senders) failed st').
    { intros count H1' H2'. destruct (IH (after_send st pk c' count) Hnodup) as (failed & st' & Hr & Hres).
      exists failed, st'. split; [done|].
      eapply (heartbeat_result_cons st _ pk c c') in Hres; cbn; [|done..].
      by rewrite Hcl in Hres. }
    destruct answer as [[]|]; [done| |]; apply Hgo; by intros [].
Qed.

(** C28: On a heartbeat tick an unhealthy relayer drops every connection, and a healthy
    one drops exactly those whose stream is closed and sends every other validator
    the count of the heartbeats so far, if its queue has room; nothing else is
    sent and no tick fails. *)
Theorem heartbeat_spec config caps latency health us st :
  ∃ st', relayer_select config caps (HeartbeatArm latency health us) st = (Done tt, st') ∧
    match health with
    | Unhealthy => packet_subscriptions st' = ∅
    | Healthy =>
        num_heartbeats (relayer_metrics st') = u64_add (num_heartbeats (relayer_metrics st)) 1 ∧
        ∀ pk, match packet_subscriptions st !! pk with
              | None => packet_subscriptions st' !! pk = None
              | Some c =>
                  if chan_closed c then packet_subscriptions st' !! pk = None
                  else ∃ c', packet_subscriptions st' !! pk = Some c' ∧
                    chan_adds c (accepted c [heartbeat_msg (num_heartbeats (relayer_metrics st))]) c'
              end
    end.
Proof.
  cbn [relayer_select]. unfold with_relayer_metrics.
  set (first := match latency with Some _ => _ | None => _ end).
  assert (∃ st1, first st = (Done tt, st1) ∧
    packet_subscriptions st1 = packet_subscriptions st ∧
    num_heartbeats (relayer_metrics st1) = num_heartbeats (relayer_metrics st)) as (st1 & Hr1 & Hs1 & Hh1).
  { unfold first. destruct st as [subs h leaders [] r], latency; by eexists. }
  rewrite (prog_bind_done _ _ _ _ _ Hr1). clear first Hr1.
  destruct health.
  - destruct (drop_all_done (E := RelayerError) st1) as (st2 & Hr2 & Hl2).
    rewrite (prog_bind_done (gets _) _ _ _ _ eq_refl), (prog_bind_done _ _ _ _ _ Hr2).
    destruct st2 as [subs2 h2 leaders2 m2 r2]. by eexists.
  - destruct (heartbeat_each_spec (E := RelayerError) (map_iter (packet_subscriptions st1)) st1)
      as (failed & st2 & Hr2 & [Hf Ho Hop Hc _]); [apply NoDup_map_iter|].
    destruct (drop_connections_done (E := RelayerError) failed
      {st2 with relayer_metrics ::= (λ m, {m with num_heartbeats ::= (λ x, u64_add x 1)})})
      as (st3 & Hr3 & Hl3 & _ & Hc3 & _).
    unfold handle_heartbeat, with_relayer_metrics.
    rewrite (prog_bind_done _ _ _ failed
      {st2 with relayer_metrics ::= (λ m, {m with num_heartbeats ::= (λ x, u64_add x 1)})}); cycle 1.
    { rewrite (prog_bind_done (gets _) _ _ _ _ eq_refl). by rewrite (prog_bind_done _ _ _ _ _ Hr2). }
    rewrite (prog_bind_done _ _ _ _ _ Hr3).
    destruct st2 as [subs2 h2 leaders2 [] r2], st3 as [subs3 h3 leaders3 [] r3].
    eexists. split; [done|]. cbn in *. split; [congruence|]. rewrite <-Hs1, <-Hh1.
    intros pk. rewrite Hl3.
    destruct (packet_subscriptions st1 !! pk) as [c|] eqn:Hpk.
    + destruct (chan_closed c) eqn:Hcl.
      * rewrite decide_True; [done|]. apply Hf. exists c. by rewrite elem_of_map_iter.
      * rewrite decide_False; [apply Hop; by rewrite ?elem_of_map_iter|].
        intros (c' & ?%elem_of_map_iter & ?)%Hf. congruence.
    + case_decide; [done|]. rewrite Ho; [done|].
      intros ([k c] & -> & ?%elem_of_map_iter)%list_elem_of_fmap. cbn in *. congruence.
Qed.

(** *** Slots, subscriptions, the gRPC handlers *)

(** Whatever slot the loop knew, a slot message replaces it, an older one too, so
    [highest_slot] can go back; the leaders to forward to are then exactly the
    scheduled leaders of the [slot_lookahead] slots from that one on (none when the
    range overflows [u64]). *)
Theorem slot_arm_spec config caps slot schedule us st :
  ∃ st', relayer_select config caps (SlotArm (Some slot) schedule us) st = (Done tt, st') ∧
    highest_slot st' = slot ∧ rm_highest_slot (relayer_metrics st') = slot ∧
    packet_subscriptions st' = packet_subscriptions st ∧
    (∀ pk, pk ∈ slot_leaders st' ↔
      ∃ s, slot <= s < u64_add slot (slot_lookahead config) ∧ leader_for_slot schedule s = Some pk).
Proof.
  destruct st as [subs h leaders [] r]. cbn [relayer_select].
  unfold update_highest_slot, received_or_shutdown, with_relayer_metrics. prog_unfold. cbn.
  eexists. split; [reflexivity|]. cbn.
  split_and!; [done..|]. intros pk. rewrite elem_of_leaders_for_slots.
  by setoid_rewrite elem_of_z_range.
Qed.

(** A subscription makes its stream the one and only of its validator, replacing
    any it had; other validators keep theirs, and only a validator not connected
    before counts as an added connection. *)
Theorem subscription_arm_spec config caps pk sender us st :
  ∃ st', relayer_select config caps (SubscriptionArm (Some (pk, sender)) us) st = (Done tt, st') ∧
    packet_subscriptions st' = <[pk := sender]> (packet_subscriptions st) ∧
    num_added_connections (relayer_metrics st') =
      (if decide (pk ∈ connected_validators st) then num_added_connections (relayer_metrics st)
       else u64_add (num_added_connections (relayer_metrics st)) 1) ∧
    (∀ p, p ∈ connected_validators st' ↔ p = pk ∨ p ∈ connected_validators st).
Proof.
  assert (Hconn : ∀ st p, p ∈ connected_validators st ↔ is_Some (packet_subscriptions st !! p)).
  { intros s p. unfold connected_validators. rewrite list_elem_of_fmap. split.
    - intros ([k c] & -> & ?%elem_of_map_iter). by exists c.
    - intros [c Hc]. exists (p, c). by rewrite elem_of_map_iter. }
  destruct (packet_subscriptions st !! pk) as [old|] eqn:Hold;
    destruct st as [subs h leaders [] r]; cbn in Hold; cbn [relayer_select];
    unfold handle_subscription, received_or_shutdown, with_relayer_metrics; prog_unfold; cbn;
    rewrite Hold; (eexists; split; [done|]; split; [done|]; split; [|intros p; rewrite !Hconn; cbn]).
  - rewrite decide_True; [done|]. apply Hconn. by exists old.
  - rewrite lookup_insert_is_Some'. naive_solver.
  - rewrite decide_False; [done|]. rewrite Hconn. cbn. rewrite Hold. by intros [].
  - rewrite lookup_insert_is_Some'. naive_solver.
Qed.

(** [get_tpu_configs] answers exactly when both port lists are nonempty, with the
    relayer's address and the ports at the position of the sequence number, taken
    modulo each list's length and lowered by six (modulo [2^16]), and moves on to
    the next number: callers are spread over the ports in turn. *)
Theorem get_tpu_configs_iff (st st' : RelayerImpl) r :
  get_tpu_configs st = (Done r, st') ↔
  ∃ port fwd,
    let at_seq ports := ports !! Z.to_nat (relayer_seq st mod Z.of_nat (length ports)) in
    at_seq (tpu_quic_ports st) = Some port ∧ at_seq (tpu_fwd_quic_ports st) = Some fwd ∧
    r = {| tpu := {| socket_ip := ip_to_string (public_ip st); socket_port := u16_sub port 6 |};
           tpu_forward := {| socket_ip := ip_to_string (public_ip st); socket_port := u16_sub fwd 6 |} |} ∧
    st' = {st with relayer_seq ::= (λ x, u64_add x 1)}.
Proof.
  destruct st as [tpus fwds ip seq q alive]. cbn. unfold get_tpu_configs, nth_port. split.
  - intros Hr. prog_inv Hr. eauto 10.
  - intros (port & fwd & Hp & Hf & -> & ->).
    destruct tpus as [|t tpus]; [by rewrite lookup_nil in Hp|].
    destruct fwds as [|f fwds]; [by rewrite lookup_nil in Hf|].
    unfold assert, gets, modify. prog_unfold.
    cbn -[Z.modulo lookup Z.to_nat Z.of_nat] in *. by rewrite Hp, Hf.
Qed.

(** A subscription is accepted exactly when the relayer is healthy, the interceptor
    has put a key on the request and the event loop runs; it then queues a new empty
    stream for that key alone, and a refused one changes nothing. *)
Theorem subscribe_packets_iff health extension (st : RelayerImpl) :
  (∀ sender (st' : RelayerImpl), subscribe_packets health extension st = (Done sender, st') ↔
    health = Healthy ∧ event_loop_alive st = true ∧
    ∃ pk, extension = Some pk ∧ sender = channel SUBSCRIBER_QUEUE_CAPACITY ∧
      st' = {st with subscription_queue ::= (λ l, l ++ [(pk, sender)])}) ∧
  (∀ e (st' : RelayerImpl), subscribe_packets health extension st = (Fail e, st') → st' = st) ∧
  (∀ w (st' : RelayerImpl), subscribe_packets health extension st ≠ (Panicked w, st')).
Proof.
  unfold subscribe_packets, check_health. generalize SUBSCRIBER_QUEUE_CAPACITY as cap. intros cap.
  destruct st as [tpus fwds ip seq q alive], health, extension as [pk|], alive; prog_unfold; cbn;
    naive_solver.
Qed.

(** *** The whole loop *)

(** What may sit in any queue after the events [evs]: heartbeats, and batches of packets
    received by one of them that may leave. *)
Definition msg_ok config (evs : list RelayerEvent) (m : Outcome Status SubscribePacketsResponse) : Prop :=
  (∃ count, m = heartbeat_msg count) ∨
  ∃ batches elapsed_us ts cache us, PacketArm (Some batches) elapsed_us ts cache us ∈ evs ∧
    batch_of config cache batches m.
Definition queues_ok config evs (subs : gmap Pubkey (chan (Outcome Status SubscribePacketsResponse))) : Prop :=
  ∀ pk c, subs !! pk = Some c → Forall (msg_ok config evs) (chan_queue c).

(** The rest of the system plays by the rules: a stream only takes messages out of its
    queue, and a new subscription comes with an empty one. *)
Definition input_ok (i : RelayerInput) : Prop :=
  (∀ pk c, chan_queue (ri_receivers i pk c) ⊆ chan_queue c) ∧
  match ri_event i with
  | SubscriptionArm (Some (_, sender)) _ => chan_queue sender = []
  | _ => True
  end.

Lemma only_adds_queues_ok config evs (ok : Pubkey → _ → Prop) subs subs' :
  (∀ pk m, ok pk m → msg_ok config evs m) →
  only_adds ok subs subs' → queues_ok config evs subs → queues_ok config evs subs'.
Proof.
  intros Hok Hadds Hq pk c' Hc'. destruct (Hadds _ _ Hc') as (c & msgs & Hc & Ha & Hm).
  unfold chan_adds, chan_view in Ha. injection Ha as -> _ _. apply Forall_app. split; [by eapply Hq|].
  eapply Forall_impl; [done|]. eauto.
Qed.

Lemma heartbeat_each_adds {E} senders st :
  NoDup senders.*1 →
  (∀ pk c, (pk, c) ∈ senders → packet_subscriptions st !! pk = Some c) →
  only_adds (λ _ m, ∃ count, m = heartbeat_msg count) (packet_subscriptions st)
    (packet_subscriptions (heartbeat_each (E := E) senders st).2).
Proof.
  revert st; induction senders as [|[pk c] senders IH]; intros st Hnodup Hsub.
  { apply only_adds_refl. }
  apply NoDup_cons in Hnodup as [Hnin Hnodup].
  pose proof (Hsub pk c ltac:(set_solver)) as Hc.
  destruct (try_send (heartbeat_msg (num_heartbeats (relayer_metrics st))) c) as [answer c'] eqn:Hs.
  rewrite (heartbeat_each_cons _ _ _ _ _ _ Hs).
  assert (Hgo : ∀ count, only_adds (λ _ m, ∃ count, m = heartbeat_msg count) (packet_subscriptions st)
    (packet_subscriptions (heartbeat_each (E := E) senders (after_send st pk c' count)).2)).
  { intros count. eapply only_adds_trans; [eapply only_adds_send; [done|done|by eexists]|].
    apply (IH (after_send st pk c' count)); [done|]. cbn. intros p cp Hp.
    rewrite lookup_insert_ne; [apply Hsub; set_solver|].
    intros ->. apply Hnin, list_elem_of_fmap. by exists (p, cp). }
  destruct answer as [[]|]; [|apply Hgo..].
  specialize (Hgo id). unfold mbind, Prog_bind.
  by destruct (heartbeat_each senders (after_send st pk c' id)) as [[]?].
Qed.

Lemma drop_connections_ok {E} config evs pks st :
  queues_ok config evs (packet_subscriptions st) →
  queues_ok config evs (packet_subscriptions (drop_connections (E := E) pks st).2).
Proof.
  intros Hq. destruct (drop_connections_done (E := E) pks st) as (st' & -> & Hl & _). cbn.
  intros pk c. rewrite Hl. case_decide; [done|]. apply Hq.
Qed.

Lemma packet_arm_ok config evs batches us ts cache us' st :
  PacketArm batches us ts cache us' ∈ evs →
  queues_ok config evs (packet_subscriptions st) →
  queues_ok config evs (packet_subscriptions (forward_packets config batches us ts cache st).2).
Proof.
  intros Hev Hq.
  destruct (decide (batches = None ∨ validator_packet_batch_size config = 0%nat)) as [Hno|Hok].
  { by destruct (forward_packets_keeps config us ts cache st batches Hno) as (-> & _). }
  destruct batches as [batches|]; [|naive_solver].
  assert (0 < validator_packet_batch_size config)%nat by lia.
  rewrite forward_packets_unfold by done.
  eapply only_adds_queues_ok, Hq; [|apply send_made_batches_safe; [done|by destruct st..]].
  intros pk m [_ Hm]. right. eauto 10.
Qed.

Lemma heartbeat_arm_ok {E} config evs st :
  queues_ok config evs (packet_subscriptions st) →
  queues_ok config evs (packet_subscriptions (handle_heartbeat (E := E) st).2).
Proof.
  intros Hq. unfold handle_heartbeat, with_relayer_metrics, gets, mbind, Prog_bind.
  assert (Hq1 : queues_ok config evs
    (packet_subscriptions (heartbeat_each (E := E) (map_iter (packet_subscriptions st)) st).2)).
  { eapply only_adds_queues_ok; [|apply heartbeat_each_adds|exact Hq].
    - by left.
    - apply NoDup_map_iter.
    - intros pk c. by rewrite elem_of_map_iter. }
  destruct (heartbeat_each (map_iter (packet_subscriptions st)) st) as [[] st1]; [|done..].
  by destruct st1.
Qed.

(** The metrics are no queue. *)
Lemma with_metrics_ok {E} config evs f st :
  queues_ok config evs (packet_subscriptions st) →
  queues_ok config evs (packet_subscriptions (with_relayer_metrics (E := E) f st).2).
Proof. by destruct st. Qed.

(** A sequence keeps the queues in order when both parts do. *)
Lemma queues_ok_bind {E A B} config evs (m : Prog Relayer E A) (f : A → Prog Relayer E B) st :
  (∀ st, queues_ok config evs (packet_subscriptions st) → queues_ok config evs (packet_subscriptions (m st).2)) →
  (∀ a st, queues_ok config evs (packet_subscriptions st) → queues_ok config evs (packet_subscriptions (f a st).2)) →
  queues_ok config evs (packet_subscriptions st) →
  queues_ok config evs (packet_subscriptions ((m ≫= f) st).2).
Proof. intros Hm Hf. exact (keeps_bind (λ st, queues_ok config evs (packet_subscriptions st)) m f Hm Hf st). Qed.

Lemma relayer_select_ok config evs caps ev st :
  ev ∈ evs →
  match ev with
  | SubscriptionArm (Some (_, sender)) _ => chan_queue sender = []
  | _ => True
  end →
  queues_ok config evs (packet_subscriptions st) →
  queues_ok config evs (packet_subscriptions (relayer_select config caps ev st).2).
Proof.
  intros Hin Hev. destruct ev as [slot schedule us|batches us ts cache us'|[[pk sender]|] us
    |latency health us|latency us]; cbn [relayer_select].
  - unfold update_highest_slot, received_or_shutdown, with_relayer_metrics.
    by destruct slot, st.
  - apply queues_ok_bind; [intros st1; by eapply packet_arm_ok|]. intros failed st1.
    apply queues_ok_bind; [apply drop_connections_ok|]. intros _ st2. apply with_metrics_ok.
  - unfold handle_subscription, received_or_shutdown, with_relayer_metrics. intros Hq.
    assert (Hq' : queues_ok config evs (<[pk := sender]> (packet_subscriptions st))).
    { intros p c [[<- <-]|[_ ?]]%lookup_insert_Some; [by rewrite Hev|by eapply Hq]. }
    destruct st as [subs h l m r]. prog_unfold. cbn in *. by destruct (subs !! pk).
  - done.
  - apply queues_ok_bind; [intros st1; destruct latency; [apply with_metrics_ok|done]|]. intros _ st1.
    apply queues_ok_bind; [intros st2; destruct health; [done|apply heartbeat_arm_ok]|].
    intros pks st2. apply queues_ok_bind; [apply drop_connections_ok|]. intros _ st3.
    apply with_metrics_ok.
  - unfold with_relayer_metrics. destruct caps as [[c1 c2] c3], st as [subs h l m r], latency;
      prog_unfold; cbn; done.
Qed.

Lemma run_event_loop_queues_ok config caps inputs :
  Forall input_ok (live_inputs inputs) →
  queues_ok config (ri_event <$> live_inputs inputs)
    (packet_subscriptions (run_event_loop config inputs (Relayer_new caps)).2).
Proof.
  intros Hin. set (evs := ri_event <$> live_inputs inputs).
  apply (run_loop_invariant_inputs (λ i, input_ok i ∧ ri_event i ∈ evs)
    (λ st, queues_ok config evs (packet_subscriptions st))).
  - intros i st [[Hrecv Hev] Hmem] Hq. unfold relayer_iteration.
    apply queues_ok_bind; [intros st1|intros _ st1|done].
    + intros Hq1 pk c'. destruct st1 as [subs h l m r]. cbn in *. rewrite map_lookup_imap.
      intros (c & Hc & [= <-])%bind_Some. apply Forall_forall. intros x Hx.
      eapply Forall_forall; [by eapply Hq1|]. by eapply Hrecv.
    + apply queues_ok_bind; [intros st2; by apply relayer_select_ok|]. intros _ st2.
      destruct (ri_lens i) as [[n1 n2] n3]. apply with_metrics_ok.
  - apply Forall_forall. intros i Hi. split; [by eapply Forall_forall in Hin|].
    by apply list_elem_of_fmap_2.
  - destruct caps as [[c1 c2] c3]. intros pk c Hc. cbn in Hc. by rewrite lookup_empty in Hc.
Qed.

(** Over any run of the event loop, whatever it receives and however it ends, no
    queue to any validator ever holds anything but heartbeats and batches, neither
    empty nor over the configured size; and each batch is made of packets out of one
    of the deliveries the loop received, packets that were not discarded and that,
    with the lookup tables cached when it was handled, mention no listed address. *)
Theorem event_loop_queues_safe config caps inputs :
  Forall input_ok (live_inputs inputs) →
  queues_ok config (ri_event <$> live_inputs inputs)
    (packet_subscriptions (run_event_loop config inputs (Relayer_new caps)).2).
Proof. apply run_event_loop_queues_ok. Qed.
(** *** The event loop ends with [Shutdown] only when a channel is gone *)

Lemma try_send_to_never_fails {E} pk c r :
  never_fails (try_send_to pk c r : Prog Relayer E (option TrySendError)).
Proof. intros st e st'. unfold try_send_to. by destruct (try_send _ _). Qed.
Hint Resolve try_send_to_never_fails : never_fails.

Lemma send_batch_never_fails {E} ts batch senders :
  never_fails (send_batch ts batch senders : Prog Relayer E (list Pubkey)).
Proof. induction senders; cbn; unfold with_relayer_metrics; auto 12 with never_fails. Qed.
Hint Resolve send_batch_never_fails : never_fails.
Lemma send_batches_never_fails {E} ts n batches senders :
  never_fails (send_batches ts n batches senders : Prog Relayer E (list Pubkey)).
Proof. revert n; induction batches; intros n; cbn; auto with never_fails. Qed.
Lemma heartbeat_each_never_fails {E} senders :
  never_fails (heartbeat_each senders : Prog Relayer E (list Pubkey)).
Proof.
  induction senders as [|[pk c] senders IH]; cbn; unfold with_relayer_metrics; auto 12 with never_fails.
Qed.
Hint Resolve send_batches_never_fails heartbeat_each_never_fails : never_fails.

(** What an arm receives when all the senders of its channel are gone. *)
Definition channel_gone (ev : RelayerEvent) : Prop :=
  match ev with
  | SlotArm None _ _ | PacketArm None _ _ _ _ | SubscriptionArm None _ => True
  | _ => False
  end.

Lemma relayer_iteration_fails config i st e st' :
  relayer_iteration config i st = (Fail e, st') → channel_gone (ri_event i).
Proof.
  destruct (ri_event i) as [[|] ? ?|[|] ? ? ? ?|[|] ?|? [] ?|? ?] eqn:Hev; try done;
    intros Hi; exfalso; revert st e st' Hi;
    change (never_fails (relayer_iteration config i)); unfold relayer_iteration; rewrite Hev;
    unfold relayer_select, update_highest_slot, handle_subscription, forward_packets,
      received_or_shutdown, drop_connections, handle_heartbeat, with_relayer_metrics, ok_or;
    auto 20 with never_fails.
Qed.

(** *** A turn of the event loop completes while its channels are there *)

Lemma try_send_to_completes {E} pk c r :
  completes (try_send_to pk c r : Prog Relayer E (option TrySendError)).
Proof. intros st. unfold try_send_to. destruct (try_send _ _). by eexists _, _. Qed.
Hint Resolve try_send_to_completes : completes.

Lemma heartbeat_each_completes {E} senders :
  completes (heartbeat_each senders : Prog Relayer E (list Pubkey)).
Proof.
  induction senders as [|[pk c] senders IH]; cbn; unfold with_relayer_metrics; auto 12 with completes.
Qed.
Lemma drop_connections_completes {E} pks : completes (drop_connections pks : Prog Relayer E unit).
Proof. unfold drop_connections, with_relayer_metrics. auto 12 with completes. Qed.
Hint Resolve heartbeat_each_completes drop_connections_completes : completes.

(** The senders of a call are in the map throughout. *)
Lemma send_batch_completes {E} ts batch senders st :
  (∀ pk, pk ∈ senders → is_Some (packet_subscriptions st !! pk)) →
  ∃ failed st', send_batch (E := E) ts batch senders st = (Done failed, st') ∧
    dom (packet_subscriptions st') = dom (packet_subscriptions st).
Proof.
  revert st; induction senders as [|pk senders IH]; intros st Hin; [by eexists [], _|].
  destruct (Hin pk) as [c Hc]; [by left|].
  destruct (try_send (batch_msg ts batch pk) c) as [answer c'] eqn:Hs.
  rewrite (send_batch_cons _ _ _ _ _ _ _ _ Hc Hs).
  assert (∀ count, dom (packet_subscriptions (after_send st pk c' count)) = dom (packet_subscriptions st))
    as Hdom by (intros count; cbn; by apply dom_insert_lookup_L; exists c).
  assert (∀ count, ∃ failed st', send_batch (E := E) ts batch senders (after_send st pk c' count)
    = (Done failed, st') ∧ dom (packet_subscriptions st') = dom (packet_subscriptions st)) as Hgo.
  { intros count. destruct (IH (after_send st pk c' count)) as (failed & st' & Hr & Hd).
    - intros p Hp. rewrite <-elem_of_dom, Hdom, elem_of_dom. apply Hin. by right.
    - exists failed, st'. by rewrite Hd, Hdom. }
  destruct answer as [[]|]; [|apply Hgo..]. eexists _, _. split; [done|]. apply Hdom.
Qed.

Lemma send_batches_completes {E} ts n batches senders st :
  (∀ pk, pk ∈ senders → is_Some (packet_subscriptions st !! pk)) →
  ∃ failed st', send_batches (E := E) ts n batches senders st = (Done failed, st').
Proof.
  revert n st; induction batches as [|batch batches IH]; intros n st Hin; cbn [send_batches];
    [by eexists _, _|].
  case_bool_decide; [by apply IH|].
  destruct (send_batch_completes (E := E) (ts n) batch senders st Hin) as (failed & st1 & Hr & Hdom).
  destruct (IH (S n) st1) as (failed' & st2 & Hr').
  { intros pk. rewrite <-elem_of_dom, Hdom, elem_of_dom. apply Hin. }
  rewrite (prog_bind_done _ _ _ _ _ Hr), (prog_bind_done _ _ _ _ _ Hr'). by eexists _, _.
Qed.

Lemma forward_packets_completes config batches us ts cache :
  (0 < validator_packet_batch_size config)%nat →
  completes (forward_packets config (Some batches) us ts cache).
Proof.
  intros Hsize st. rewrite forward_packets_unfold by done. apply send_batches_completes.
  intros pk [Hpk _]%select_senders_spec. by destruct st.
Qed.

Lemma relayer_iteration_completes config i :
  (0 < validator_packet_batch_size config)%nat → ¬ channel_gone (ri_event i) →
  completes (relayer_iteration config i).
Proof.
  intros Hsize Hev. pose proof (forward_packets_completes config) as Hfwd.
  unfold relayer_iteration. apply completes_bind; [auto with completes|intros _].
  apply completes_bind; [|intros _; unfold with_relayer_metrics; auto with completes].
  destruct (ri_event i) as [[slot|] schedule us|[batches|] us ts cache us'|[[pk sender]|] us
    |latency health us|latency us]; try by destruct Hev.
  all: unfold relayer_select, update_highest_slot, handle_subscription, received_or_shutdown,
    handle_heartbeat, with_relayer_metrics; auto 20 with completes.
Qed.

End relayer_theorems.

(** ** Concrete inputs *)

(** Batches of at most two packets, to every validator; the key ["x"] is listed. *)
Definition toy_config : RelayerConfig :=
  {| ofac_addresses := {["x"%char]}; validator_packet_batch_size := 2; forward_all := true;
     slot_lookahead := 5 |}.
Definition toy_packets : RelayerPacketBatches :=
  {| stamp := 0; banking_packet_batch :=
       [[toy_packet 0 (Some (toy_transaction "pq")); toy_packet 0 (Some (toy_transaction "px"));
         toy_packet 1 (Some (toy_transaction "pr"))]] |}.
Definition toy_sender (closed : bool) : chan (Outcome Status SubscribePacketsResponse) :=
  Build_ToyChan [] 4 closed.
Definition toy_relayer (subs : gmap Pubkey (chan (Outcome Status SubscribePacketsResponse))) : Relayer :=
  {| packet_subscriptions := subs; highest_slot := 7; slot_leaders := ∅;
     relayer_metrics := RelayerMetrics_new 1 1 1; reported := [] |}.

Lemma forward_packets_delivers_witness :
  let st := toy_relayer {["a"%char := toy_sender false]} in
  (0 < validator_packet_batch_size toy_config)%nat ∧ all_open (packet_subscriptions st) ∧
  ∃ st' c, forward_packets toy_config (Some toy_packets) 9 (λ _ _, 3) ∅ st = (Done [], st') ∧
    packet_subscriptions st' !! "a"%char = Some c ∧
    chan_adds (toy_sender false)
      (accepted (toy_sender false) (batch_msgs (λ _ _, 3) 0 (made_batches toy_config ∅ toy_packets) "a"%char)) c.
Proof.
  intros st.
  assert (Hopen : all_open (packet_subscriptions st)).
  { intros pk c Hc. unfold st, toy_relayer in Hc. cbn [packet_subscriptions] in Hc.
    apply lookup_singleton_Some in Hc as [_ <-]. reflexivity. }
  assert (Hsize : (0 < validator_packet_batch_size toy_config)%nat) by (cbn; lia).
  split; [exact Hsize|]. split; [exact Hopen|].
  destruct (forward_packets_delivers toy_config toy_packets 9 (λ _ _, 3) ∅ st Hsize Hopen)
    as (_ & st' & Hr & Hd).
  destruct (Hd "a"%char (toy_sender false)) as (c & Hc & Ha); [vm_refl|].
  exists st', c. split; [exact Hr|]. split; [exact Hc|exact Ha].
Defined.

Lemma closed_stream_starves_others_witness :
  let st := toy_relayer {["a"%char := toy_sender true; "b"%char := toy_sender false]} in
  ∃ l2 st', (map_iter (packet_subscriptions st)).*1 = "a"%char :: l2 ∧ l2 = ["b"%char] ∧
    relayer_select toy_config (1, 1, 1) (PacketArm (Some toy_packets) 9 (λ _ _, 3) ∅ 5) st
      = (Done tt, st') ∧
    packet_subscriptions st' !! "b"%char = Some (toy_sender false).
Proof.
  intros st.
  destruct (closed_stream_starves_others toy_config (1, 1, 1) toy_packets 9 (λ _ _, 3) ∅ 5 st
    [] "a"%char ["b"%char] (toy_sender true)) as (st' & Hr & Hkeep & _);
    [cbn; lia|vm_refl|by intros p []%not_elem_of_nil|vm_refl|reflexivity|discriminate|].
  exists ["b"%char], st'. split_and!; [vm_refl|reflexivity|exact Hr|].
  rewrite Hkeep by (by apply list_elem_of_singleton). vm_refl.
Defined.

Lemma heartbeat_spec_witness :
  let st := toy_relayer {["a"%char := toy_sender true; "b"%char := toy_sender false]} in
  ∃ st' c, relayer_select toy_config (1, 1, 1) (HeartbeatArm None Healthy 5) st = (Done tt, st') ∧
    packet_subscriptions st' !! "a"%char = None ∧ packet_subscriptions st' !! "b"%char = Some c ∧
    chan_queue c = [heartbeat_msg 0].
Proof.
  intros st. destruct (heartbeat_spec toy_config (1, 1, 1) None Healthy 5 st) as (st' & Hr & _ & Hpk).
  pose proof (Hpk "a"%char) as Ha. pose proof (Hpk "b"%char) as Hb.
  replace (packet_subscriptions st !! "a"%char) with (Some (toy_sender true)) in Ha by vm_refl.
  replace (packet_subscriptions st !! "b"%char) with (Some (toy_sender false)) in Hb by vm_refl.
  destruct Hb as (c & Hc & Hadds). exists st', c. split_and!; [exact Hr|exact Ha|exact Hc|].
  by injection Hadds.
Defined.

Lemma event_loop_queues_safe_witness :
  let input ev := {| ri_receivers _ c := c; ri_event := ev; ri_capacities := (1, 1, 1);
                     ri_lens := (0, 0, 0) |} in
  let inputs := [Some (input (SubscriptionArm (Some ("a"%char, toy_sender false)) 1));
                 Some (input (PacketArm (Some toy_packets) 9 (λ _ _, 3) ∅ 5))] in
  let final := (run_event_loop toy_config inputs (Relayer_new (1, 1, 1))).2 in
  Forall input_ok (live_inputs inputs) ∧ queues_ok toy_config (ri_event <$> live_inputs inputs) (packet_subscriptions final) ∧
  (length ∘ chan_queue <$> packet_subscriptions final !! "a"%char) = Some 1%nat.
Proof.
  intros input inputs final.
  assert (Hok : Forall input_ok (live_inputs inputs)).
  { repeat constructor; cbn; try done; by intros ?. }
  split; [exact Hok|].
  split; [exact (event_loop_queues_safe toy_config (1, 1, 1) inputs Hok)|]. vm_refl.
Defined.
