(* ===== verification/RelayerMetrics.v ===== *)
(** * The counters of the event loop ([relayer/src/relayer.rs], [RelayerMetrics])

    What the counters of the metrics say about the turns of the loop since the last report:
    the slots received, the validators that connected, the heartbeats, the latency of their
    ticks, and the lengths of the channels; and that each report carries them.  The packet
    counts are in RelayerAccounting.v. *)

From S2P Require Import Prelude External Instances Ofac Packets ScheduleCache HealthManager Relayer.
Local Open Scope Z_scope.

Lemma u64_0 : is_u64 0.
Proof. by unfold is_u64. Qed.

Section relayer_metrics.
Context `{Sdk} `{!IpText} `{!Channels} `{!Histograms} `{!HashOrder Pubkey} `{!HashOrder Slot}.
Implicit Types (st : Relayer) (config : RelayerConfig) (i : RelayerInput) (log : list RelayerInput).

(** ** The turns since the last report *)

Definition is_report i : bool := match ri_event i with MetricsArm _ _ => true | _ => false end.
(** The turns from the last report on, that turn included: the lengths of the channels are
    noted after the counters have been reset. *)
Definition period log : list RelayerInput :=
  fold_left (λ l i, if is_report i then [i] else l ++ [i]) log [].

Definition slot_of_turn i : option Z :=
  match ri_event i with SlotArm maybe_slot _ _ => maybe_slot | _ => None end.
Definition is_heartbeat i : bool :=
  match ri_event i with HeartbeatArm _ Healthy _ => true | _ => false end.
Definition tick_latency i : option Z :=
  match ri_event i with HeartbeatArm latency _ _ => latency | _ => None end.
(** The turn connects a validator that was not connected in [st]. *)
Definition connects i st : bool :=
  match ri_event i with
  | SubscriptionArm (Some (pk, _)) _ => bool_decide (packet_subscriptions st !! pk = None)
  | _ => false
  end.
(** So does the turn [n] of a run from the start. *)
Definition connects_at config caps log (n : nat) : bool :=
  match log !! n with
  | Some i => connects i (run_event_loop config (Some <$> take n log) (Relayer_new caps)).2
  | None => false
  end.
Definition maximum (l : list Z) : Z := foldr Z.max 0 l.

(** The counters say what happened since the last report. *)
Record counts_of config caps log (m : RelayerMetrics) : Prop := {
  counts_slot : rm_highest_slot m = default 0 (last (omap slot_of_turn (period log)));
  counts_added : num_added_connections m =
    Z.of_nat (length (List.filter (connects_at config caps log)
      (seq (length log - length (period log)) (length (period log)))));
  counts_heartbeats : num_heartbeats m = Z.of_nat (length (List.filter is_heartbeat (period log)));
  counts_latency : max_heartbeat_tick_latency_us m = maximum (omap tick_latency (period log));
  counts_lens :
    slot_receiver_max_len m = maximum (map (λ i, (ri_lens i).1.1) (period log)) ∧
    subscription_receiver_max_len m = maximum (map (λ i, (ri_lens i).1.2) (period log)) ∧
    delay_packet_receiver_max_len m = maximum (map (λ i, (ri_lens i).2) (period log)) }.

(** ** What a turn does to the counters *)

Record Gauges := { g_slot : Z; g_added : Z; g_heartbeats : Z; g_latency : Z; g_lens : Z * Z * Z }.
Definition gauges (m : RelayerMetrics) : Gauges :=
  {| g_slot := rm_highest_slot m; g_added := num_added_connections m;
     g_heartbeats := num_heartbeats m; g_latency := max_heartbeat_tick_latency_us m;
     g_lens := (slot_receiver_max_len m, subscription_receiver_max_len m, delay_packet_receiver_max_len m) |}.
Definition no_gauges : Gauges :=
  {| g_slot := 0; g_added := 0; g_heartbeats := 0; g_latency := 0; g_lens := (0, 0, 0) |}.
Definition max_lens (a b : Z * Z * Z) : Z * Z * Z :=
  (Z.max a.1.1 b.1.1, Z.max a.1.2 b.1.2, Z.max a.2 b.2).
Definition arm_gauges i (joins : bool) (g : Gauges) : Gauges :=
  if is_report i then no_gauges
  else {| g_slot := default (g_slot g) (slot_of_turn i);
          g_added := if joins then u64_add (g_added g) 1 else g_added g;
          g_heartbeats := if is_heartbeat i then u64_add (g_heartbeats g) 1 else g_heartbeats g;
          g_latency := from_option (Z.max (g_latency g)) (g_latency g) (tick_latency i);
          g_lens := g_lens g |}.

Definition gauges_are (g : Gauges) st : Prop := gauges (relayer_metrics st) = g.
Lemma metrics_keep_gauges {E} g f :
  (∀ m, gauges (f m) = gauges m) → keeps (gauges_are g) (with_relayer_metrics f : Prog Relayer E unit).
Proof. intros Hf [subs h l m r]. unfold gauges_are. cbn. by rewrite Hf. Qed.
Lemma increments_keep_gauges pk n m :
  gauges (increment_packets_forwarded pk n m) = gauges m ∧ gauges (increment_packets_dropped pk n m) = gauges m.
Proof. by destruct m. Qed.
Lemma try_send_to_keep_gauges {E} g pk c r :
  keeps (gauges_are g) (try_send_to pk c r : Prog Relayer E (option TrySendError)).
Proof. intros st. unfold try_send_to. destruct (try_send _ _), st. done. Qed.

Lemma send_batch_keep_gauges {E} g ts batch senders :
  keeps (gauges_are g) (send_batch ts batch senders : Prog Relayer E (list Pubkey)).
Proof.
  induction senders as [|pk senders IH]; cbn [send_batch]; [auto with keeps|].
  apply keeps_bind; [auto with keeps|intros c]. apply keeps_bind; [auto with keeps|intros c'].
  apply keeps_bind; [apply try_send_to_keep_gauges|intros [[]|]]; [auto with keeps|..];
    (apply keeps_bind; [|done]); apply metrics_keep_gauges; intros m; by apply increments_keep_gauges.
Qed.
Lemma send_batches_keep_gauges {E} g ts n batches senders :
  keeps (gauges_are g) (send_batches ts n batches senders : Prog Relayer E (list Pubkey)).
Proof.
  revert n; induction batches as [|batch batches IH]; intros n; cbn [send_batches]; [auto with keeps|].
  case_bool_decide; [done|]. apply keeps_bind; [apply send_batch_keep_gauges|intros failed].
  apply keeps_bind; [done|auto with keeps].
Qed.
Lemma forward_packets_keep_gauges g config batches us ts cache :
  keeps (gauges_are g) (forward_packets config batches us ts cache).
Proof.
  unfold forward_packets, received_or_shutdown. apply keeps_bind; [auto with keeps|intros received].
  apply keeps_bind; [apply metrics_keep_gauges; by intros []|intros _].
  apply keeps_bind; [auto with keeps|intros _].
  apply keeps_bind; [auto with keeps|intros leaders]. apply keeps_bind; [auto with keeps|intros subs].
  apply send_batches_keep_gauges.
Qed.
Lemma drop_connections_keep_gauges {E} g pks :
  keeps (gauges_are g) (drop_connections pks : Prog Relayer E unit).
Proof.
  apply keeps_bind; [apply metrics_keep_gauges; by intros []|intros _].
  induction pks as [|pk pks IH]; cbn [for_each]; [auto with keeps|]. apply keeps_bind; [by intros []|done].
Qed.
Lemma heartbeat_each_keep_gauges {E} g senders :
  keeps (gauges_are g) (heartbeat_each senders : Prog Relayer E (list Pubkey)).
Proof.
  induction senders as [|[pk c] senders IH]; cbn [heartbeat_each]; [auto with keeps|].
  apply keeps_bind; [auto with keeps|intros count]. apply keeps_bind; [apply try_send_to_keep_gauges|].
  intros [[]|]; [auto with keeps| |done]. apply keeps_bind; [apply metrics_keep_gauges; by intros []|done].
Qed.

(** A part of a turn that, when it completes, has done [f] to the counters. *)
Definition turns_gauges {E A} (f : Gauges → Gauges) (m : Prog Relayer E A) : Prop :=
  ∀ st a st', m st = (Done a, st') → gauges (relayer_metrics st') = f (gauges (relayer_metrics st)).
Lemma turns_bind {E A B} f g (m : Prog Relayer E A) (k : A → Prog Relayer E B) :
  turns_gauges f m → (∀ a, turns_gauges g (k a)) → turns_gauges (λ x, g (f x)) (m ≫= k).
Proof.
  intros Hm Hk st b st' (a & st1 & H1' & H2')%bind_done. by rewrite (Hk _ _ _ _ H2'), (Hm _ _ _ H1').
Qed.
Lemma turns_keeps {E A} (m : Prog Relayer E A) : (∀ g, keeps (gauges_are g) m) → turns_gauges id m.
Proof. intros Hm st a st' Hr. pose proof (Hm _ st eq_refl) as Hk. by rewrite Hr in Hk. Qed.
Lemma turns_metrics {E} f F :
  (∀ m, gauges (f m) = F (gauges m)) → turns_gauges F (with_relayer_metrics f : Prog Relayer E unit).
Proof. intros Hf [subs h l m r] [] st' [= <-]. apply Hf. Qed.
Lemma turns_eq {E A} f g (m : Prog Relayer E A) :
  (∀ x, f x = g x) → turns_gauges f m → turns_gauges g m.
Proof. intros Heq Hm st a st' Hr. by rewrite (Hm _ _ _ Hr). Qed.

Ltac keeps_gauges :=
  apply turns_keeps; intros g; first
    [by apply metrics_keep_gauges; intros []|apply drop_connections_keep_gauges
    |apply forward_packets_keep_gauges|apply heartbeat_each_keep_gauges|by auto with keeps].

Lemma heartbeat_arm_gauges config caps latency health us :
  turns_gauges (λ g, {| g_slot := g_slot g; g_added := g_added g;
      g_heartbeats := match health with Healthy => u64_add (g_heartbeats g) 1 | _ => g_heartbeats g end;
      g_latency := from_option (Z.max (g_latency g)) (g_latency g) latency; g_lens := g_lens g |})
    (relayer_select config caps (HeartbeatArm latency health us)).
Proof.
  cbn [relayer_select]. eapply turns_eq; [|apply (turns_bind
    (λ g, {| g_slot := g_slot g; g_added := g_added g; g_heartbeats := g_heartbeats g;
             g_latency := from_option (Z.max (g_latency g)) (g_latency g) latency; g_lens := g_lens g |}));
    [|intros _; apply (turns_bind (λ g, {| g_slot := g_slot g; g_added := g_added g;
      g_heartbeats := match health with Healthy => u64_add (g_heartbeats g) 1 | _ => g_heartbeats g end;
      g_latency := g_latency g; g_lens := g_lens g |}));
      [|intros pks; apply (turns_bind id); [keeps_gauges|intros _; keeps_gauges]]]].
  - done.
  - destruct latency; [by apply turns_metrics; intros []|].
    eapply turns_eq; [|apply turns_keeps; intros; by auto with keeps]. by intros [].
  - destruct health; [eapply turns_eq; [|apply turns_keeps; intros; by auto with keeps]; by intros []|].
    eapply turns_eq; [|apply (turns_bind id); [keeps_gauges|intros senders;
      apply (turns_bind id); [keeps_gauges|intros failed; apply (turns_bind (λ g, {| g_slot := g_slot g;
        g_added := g_added g; g_heartbeats := u64_add (g_heartbeats g) 1; g_latency := g_latency g;
        g_lens := g_lens g |})); [by apply turns_metrics; intros []|intros _; keeps_gauges]]]].
    done.
Qed.

Lemma relayer_select_gauges config i st u st' :
  relayer_select config (ri_capacities i) (ri_event i) st = (Done u, st') →
  gauges (relayer_metrics st') = arm_gauges i (connects i st) (gauges (relayer_metrics st)).
Proof.
  unfold arm_gauges, is_report, slot_of_turn, is_heartbeat, tick_latency, connects.
  destruct (ri_event i) as [slot schedule us|batches us ts cache us'|sub us|latency health us|latency us]; intros Hr.
  - destruct slot as [slot|]; [|done]. destruct st as [subs h l [] r].
    unfold relayer_select, update_highest_slot, received_or_shutdown, with_relayer_metrics in Hr.
    by injection Hr as _ <-.
  - cbn [relayer_select] in Hr. eapply (turns_bind id id) in Hr; [|keeps_gauges|intros failed].
    + rewrite Hr. by destruct st as [? ? ? [] ?].
    + apply (turns_bind id id); [keeps_gauges|intros _; keeps_gauges].
  - destruct sub as [[pk sender]|]; [|done]. destruct st as [subs h l [] r]. cbn [relayer_select] in Hr.
    unfold handle_subscription, received_or_shutdown, with_relayer_metrics in Hr. prog_unfold. cbn in *.
    destruct (subs !! pk); by injection Hr as _ <-.
  - rewrite (heartbeat_arm_gauges _ _ _ _ _ _ _ _ Hr). by destruct health.
  - destruct st as [subs h l [] r], (ri_capacities i) as [[c1 c2] c3]. cbn [relayer_select] in Hr.
    unfold with_relayer_metrics in Hr. prog_unfold. by destruct latency; injection Hr as _ <-.
Qed.

(** A report carries the counters as they are, and the number of validators connected. *)
Lemma relayer_select_reports config i st u st' :
  is_report i = true → relayer_select config (ri_capacities i) (ri_event i) st = (Done u, st') →
  ∃ m, gauges m = gauges (relayer_metrics st) ∧
    num_current_connections m = Z.of_nat (size (packet_subscriptions st')) ∧
    reported st' = reported st ++ report m.
Proof.
  unfold is_report. destruct (ri_event i) as [| | | |latency us]; try done. intros _ Hr.
  destruct st as [subs h l [] r], (ri_capacities i) as [[c1 c2] c3]. cbn [relayer_select] in Hr.
  unfold with_relayer_metrics in Hr. prog_unfold.
  destruct latency; injection Hr as _ <-; eexists; (refine (conj _ (conj _ eq_refl)); done).
Qed.

Definition after_turn i (joins : bool) (g : Gauges) : Gauges :=
  let g' := arm_gauges i joins g in
  {| g_slot := g_slot g'; g_added := g_added g'; g_heartbeats := g_heartbeats g';
     g_latency := g_latency g'; g_lens := max_lens (g_lens g') (ri_lens i) |}.

Lemma relayer_iteration_gauges config i st u st' :
  relayer_iteration config i st = (Done u, st') →
  gauges (relayer_metrics st') = after_turn i (connects i st) (gauges (relayer_metrics st)) ∧
  (is_report i = true → ∃ m, gauges m = gauges (relayer_metrics st) ∧
    num_current_connections m = Z.of_nat (size (packet_subscriptions st')) ∧
    reported st' = reported st ++ report m).
Proof.
  unfold relayer_iteration. intros (u1 & st1 & Hm & (u2 & st2 & Hsel & Hend)%bind_done)%bind_done.
  injection Hm as _ <-. set (st1 := {st with packet_subscriptions ::= map_imap (λ pk c, Some (ri_receivers i pk c))}).
  change (relayer_select config (ri_capacities i) (ri_event i) st1 = (Done u2, st2)) in Hsel.
  assert (connects i st1 = connects i st) as Hc.
  { unfold connects. destruct (ri_event i) as [| |[[pk sender]|]| |]; try done. subst st1. destruct st as [subs ? ? ? ?].
    cbn. apply bool_decide_ext. rewrite map_lookup_imap. by destruct (subs !! pk). }
  assert (relayer_metrics st1 = relayer_metrics st ∧ reported st1 = reported st) as [Hm1 Hr1] by (by destruct st).
  pose proof (relayer_select_gauges _ _ _ _ _ Hsel) as Hg. rewrite Hc, Hm1 in Hg.
  destruct (ri_lens i) as [[l1 l2] l3] eqn:Hl. unfold with_relayer_metrics in Hend. injection Hend as _ <-. split.
  - unfold after_turn. rewrite <-Hg, Hl. by destruct st2 as [? ? ? [] ?].
  - intros Hrep. destruct (relayer_select_reports _ _ _ _ _ Hrep Hsel) as (m & Hgm & Hsize & Hrep').
    exists m. rewrite <-Hm1, <-Hr1, <-Hrep'. split; [done|]. rewrite Hsize. by destruct st2.
Qed.

(** ** One more turn *)

Lemma period_snoc log i : period (log ++ [i]) = if is_report i then [i] else period log ++ [i].
Proof. unfold period. by rewrite fold_left_app. Qed.
Lemma length_period log : (length (period log) ≤ length log)%nat.
Proof.
  induction log as [|i log IH] using rev_ind; [cbn; lia|]. rewrite period_snoc.
  destruct (is_report i); rewrite !length_app; cbn; lia.
Qed.

Lemma connects_at_snoc config caps log i n :
  (n < length log)%nat → connects_at config caps (log ++ [i]) n = connects_at config caps log n.
Proof. intros Hn. unfold connects_at. by rewrite lookup_app_l, take_app_le by lia. Qed.
Lemma connects_at_last config caps log i st :
  run_event_loop config (Some <$> log) (Relayer_new caps) = (Done Running, st) →
  connects_at config caps (log ++ [i]) (length log) = connects i st.
Proof.
  intros Hrun. unfold connects_at. rewrite lookup_app_r, Nat.sub_diag, take_app_length by lia. cbn. by rewrite Hrun.
Qed.

Lemma maximum_snoc l x : 0 <= x → maximum (l ++ [x]) = Z.max (maximum l) x.
Proof. intros Hx. unfold maximum. induction l as [|y l IH]; cbn; [lia|]. rewrite IH. lia. Qed.
Lemma omap_snoc {A B} (f : A → option B) l x :
  omap f (l ++ [x]) = omap f l ++ match f x with Some y => [y] | None => [] end.
Proof. rewrite omap_app. cbn. by destruct (f x). Qed.
Lemma filter_snoc_length {A} (f : A → bool) l x :
  Z.of_nat (length (List.filter f (l ++ [x]))) =
    if f x then Z.of_nat (length (List.filter f l)) + 1 else Z.of_nat (length (List.filter f l)).
Proof. rewrite List.filter_app, length_app. cbn. destruct (f x); cbn; lia. Qed.
Lemma filter_le {A} (f : A → bool) l : (length (List.filter f l) ≤ length l)%nat.
Proof. induction l as [|x l IH]; cbn; [lia|]. destruct (f x); cbn; lia. Qed.

(** Latencies and lengths are unsigned. *)
Definition unsigned i : Prop :=
  from_option (Z.le 0) True (tick_latency i) ∧ 0 <= (ri_lens i).1.1 ∧ 0 <= (ri_lens i).1.2 ∧ 0 <= (ri_lens i).2.

Lemma u64_succ_exact (n : nat) k : (n < k)%nat → Z.of_nat k < 2 ^ 64 → u64_add (Z.of_nat n) 1 = Z.of_nat n + 1.
Proof. intros Hn Hk. unfold u64_add, u64_wrap. apply Z.mod_small. lia. Qed.

Lemma counts_of_snoc config caps log i st m m' :
  run_event_loop config (Some <$> log) (Relayer_new caps) = (Done Running, st) →
  unsigned i → Z.of_nat (length (log ++ [i])) < 2 ^ 64 →
  counts_of config caps log m → gauges m' = after_turn i (connects i st) (gauges m) →
  counts_of config caps (log ++ [i]) m'.
Proof.
  intros Hrun (Hlat & Hl1 & Hl2 & Hl3) Hlen [Hs Ha Hh Hl (Hm1 & Hm2 & Hm3)] Hg.
  pose proof (length_period log) as Hper. rewrite length_app in Hlen. cbn in Hlen.
  unfold after_turn, arm_gauges in Hg. pose proof (connects_at_last config caps log i st Hrun) as Hlast.
  destruct m, m'. unfold gauges in Hg. cbn in *.
  destruct (is_report i) eqn:Hrep; injection Hg as -> -> -> -> -> -> ->; split; cbn;
    rewrite ?period_snoc, ?Hrep, ?length_app; cbn.
  - unfold slot_of_turn, is_report in *. by destruct (ri_event i).
  - replace (length log + 1 - 1)%nat with (length log) by lia. rewrite Hlast.
    unfold connects, is_report in *. by destruct (ri_event i).
  - unfold is_heartbeat, is_report in *. by destruct (ri_event i).
  - unfold tick_latency, is_report in *. by destruct (ri_event i).
  - lia.
  - rewrite omap_snoc. destruct (slot_of_turn i); cbn; [by rewrite last_snoc|by rewrite app_nil_r].
  - replace (length log + 1 - (length (period log) + 1))%nat with (length log - length (period log))%nat by lia.
    rewrite Nat.add_1_r, seq_S, filter_snoc_length.
    replace (length log - length (period log) + length (period log))%nat with (length log) by lia.
    rewrite Hlast, (List.filter_ext_in _ (connects_at config caps log)).
    + rewrite Ha. destruct (connects i st); [|done]. apply (u64_succ_exact _ (length log + 1)); [|lia].
      pose proof (filter_le (connects_at config caps log) (seq (length log - length (period log)) (length (period log)))).
      rewrite length_seq in *. lia.
    + intros n Hn%in_seq. apply connects_at_snoc. lia.
  - rewrite filter_snoc_length, Hh. destruct (is_heartbeat i); [|done].
    apply (u64_succ_exact _ (length log + 1)); [|lia].
    pose proof (filter_le is_heartbeat (period log)). lia.
  - rewrite omap_snoc, Hl. destruct (tick_latency i); cbn; [by rewrite maximum_snoc|by rewrite app_nil_r].
  - rewrite !map_app. cbn. rewrite !maximum_snoc by done. rewrite Hm1, Hm2, Hm3. done.
Qed.

Lemma run_counts config caps log st :
  run_event_loop config (Some <$> log) (Relayer_new caps) = (Done Running, st) →
  Forall unsigned log → Z.of_nat (length log) < 2 ^ 64 → counts_of config caps log (relayer_metrics st).
Proof.
  revert st. induction log as [|i log IH] using rev_ind; intros st Hrun Hall Hlen.
  { destruct caps as [[c1 c2] c3]. injection Hrun as <-. split; done. }
  destruct (run_loop_split _ _ _ _ _ _ Hrun) as (st1 & st2 & Hrun1 & Hi & Hend).
  injection Hend as <-. apply Forall_app in Hall as [Hall [Hu _]%Forall_cons].
  eapply counts_of_snoc; [exact Hrun1|exact Hu|exact Hlen| |by eapply relayer_iteration_gauges].
  apply IH; [done..|]. rewrite length_app in Hlen. lia.
Qed.

End relayer_metrics.

(** ** Concrete inputs *)

Definition toy_typed_input (ev : RelayerEvent) : RelayerInput :=
  {| ri_receivers := λ _ c, c; ri_capacities := (1, 1, 1); ri_event := ev; ri_lens := (0, 2, 1) |}.

(** A validator connects twice, is sent a heartbeat, and a report is made. *)
Definition toy_period : list RelayerInput :=
  [toy_typed_input (SubscriptionArm (Some ("a"%char, toy_sender false)) 3);
   toy_typed_input (SlotArm (Some 9) ∅ 1);
   toy_typed_input (SubscriptionArm (Some ("a"%char, toy_sender false)) 3);
   toy_typed_input (HeartbeatArm (Some 7) Healthy 5)].
Definition toy_counted : Relayer := (run_event_loop toy_config (Some <$> toy_period) (Relayer_new (1, 1, 1))).2.

