(* ===== verification/RelayerAccounting.v ===== *)
(** * The packet counters of the event loop ([relayer/src/relayer.rs])

    What [num_packets_forwarded] and [num_packets_dropped] of a validator say about its
    queue: the theorem follows them from one report to the next. *)

From S2P Require Import Prelude External Instances Ofac Packets ScheduleCache HealthManager.
From S2P Require Import Relayer RelayerMetrics.
Local Open Scope Z_scope.

Section accounting.
Context `{Sdk} `{!IpText} `{!Channels} `{!Histograms} `{!HashOrder Pubkey} `{!HashOrder Slot}.
Context `{!ChannelsLaws} `{!HashOrderLaws Pubkey}.
Implicit Types (st : Relayer) (config : RelayerConfig) (m : RelayerMetrics).
Abbreviation Message := (Outcome Status SubscribePacketsResponse).
Implicit Types (subs : gmap Pubkey (chan Message)).

(** ** What is counted *)

Definition forwarded m (pk : Pubkey) : Z :=
  from_option num_packets_forwarded 0 (packet_stats_per_validator m !! pk).
Definition dropped m (pk : Pubkey) : Z :=
  from_option num_packets_dropped 0 (packet_stats_per_validator m !! pk).
Definition counts_ok m pk : Prop := is_u64 (forwarded m pk) ∧ is_u64 (dropped m pk).

(** The packets a message carries, and those of a batch. *)
Definition batch_len (batch : ProtoPacketBatch) : Z := Z.of_nat (length (packets batch)).
Definition msg_packets (m : Message) : Z :=
  match m with
  | Done {| msg := Some (Batch batch) |} => batch_len batch
  | _ => 0
  end.
Definition packets_in (msgs : list Message) : Z := foldr Z.add 0 (map msg_packets msgs).

(** The packets that arrived at the end of the queue of [pk]. *)
Definition arrived (pk : Pubkey) subs subs' : Z :=
  match subs !! pk, subs' !! pk with
  | Some c, Some c' => packets_in (drop (length (chan_queue c)) (chan_queue c'))
  | _, _ => 0
  end.

(** The packets an event brings for [pk]: those of the delivery that may leave, when it
    is one of the receivers. *)
Definition offered config (ev : RelayerEvent) st (pk : Pubkey) : Z :=
  match ev with
  | PacketArm (Some batches) _ _ cache _ =>
      if decide (pk ∈ select_senders (forward_all config) (slot_leaders st) (packet_subscriptions st))
      then Z.of_nat (length (forwardable (ofac_addresses config) cache (banking_packet_batch batches)))
      else 0
  | _ => 0
  end.

Definition closed_in subs (pk : Pubkey) : Prop := ∃ c, subs !! pk = Some c ∧ chan_closed c = true.
Definition none_closed subs : bool := bool_decide (map_Forall (λ _ c, chan_closed c = false) subs).

(** The state the [select!] of an iteration finds. *)
Definition after_receivers (i : RelayerInput) st : Relayer :=
  {st with packet_subscriptions ::= map_imap (λ pk c, Some (ri_receivers i pk c))}.

(** What a run does to the queue of [pk]: the packets that arrived there, those offered
    to it while no stream was closed, and all that were offered to it. *)
Record Totals := { t_arrived : Z; t_offered_open : Z; t_offered : Z }.
Definition no_totals : Totals := {| t_arrived := 0; t_offered_open := 0; t_offered := 0 |}.
Definition add_totals (a b : Totals) : Totals :=
  {| t_arrived := t_arrived a + t_arrived b;
     t_offered_open := t_offered_open a + t_offered_open b;
     t_offered := t_offered a + t_offered b |}.
Definition turn_totals config (i : RelayerInput) st (pk : Pubkey) : Totals :=
  let st0 := after_receivers i st in
  let offers := offered config (ri_event i) st0 pk in
  {| t_arrived := arrived pk (packet_subscriptions st0)
       (packet_subscriptions (relayer_iteration config i st).2);
     t_offered_open := if none_closed (packet_subscriptions st0) then offers else 0;
     t_offered := offers |}.
Fixpoint totals config (inputs : list (option RelayerInput)) st (pk : Pubkey) : Totals :=
  match inputs with
  | Some i :: rest =>
      add_totals (turn_totals config i st pk)
        (match relayer_iteration config i st with
         | (Done _, st') => totals config rest st' pk
         | _ => no_totals
         end)
  | _ => no_totals
  end.

(** ** One send *)

(** From [st] to [st'], [F] packets for [pk] were counted as forwarded and arrived in
    its queue, and [D] were counted as dropped. *)
Record accounted (pk : Pubkey) st st' (F D : Z) : Prop := {
  acc_nonneg : 0 <= F ∧ 0 <= D;
  acc_forwarded : forwarded (relayer_metrics st') pk = u64_sat_add (forwarded (relayer_metrics st) pk) F;
  acc_dropped : dropped (relayer_metrics st') pk = u64_sat_add (dropped (relayer_metrics st) pk) D;
  acc_closed : ∀ p, closed_in (packet_subscriptions st') p ↔ closed_in (packet_subscriptions st) p;
  acc_dom : dom (packet_subscriptions st') = dom (packet_subscriptions st);
  acc_leaders : slot_leaders st' = slot_leaders st;
  acc_queue : ∀ c, packet_subscriptions st !! pk = Some c → ∃ c' msgs,
    packet_subscriptions st' !! pk = Some c' ∧ chan_adds c msgs c' ∧ packets_in msgs = F ∧
    (chan_closed c = true → msgs = []) }.

Lemma counts_sat m pk m' F D :
  0 <= F → 0 <= D → counts_ok m pk →
  forwarded m' pk = u64_sat_add (forwarded m pk) F → dropped m' pk = u64_sat_add (dropped m pk) D →
  counts_ok m' pk.
Proof.
  unfold counts_ok, is_u64, u64_sat_add, u64_max. lia.
Qed.
Lemma accounted_counts_ok pk st st' F D :
  accounted pk st st' F D → counts_ok (relayer_metrics st) pk → counts_ok (relayer_metrics st') pk.
Proof. intros [[HF HD] Hf Hd] Hok. eapply counts_sat; [exact HF|exact HD|done..]. Qed.

Lemma packets_in_app l1 l2 : packets_in (l1 ++ l2) = packets_in l1 + packets_in l2.
Proof. unfold packets_in. induction l1; cbn; lia. Qed.

Lemma sat_add_0 x : is_u64 x → u64_sat_add x 0 = x.
Proof. unfold is_u64, u64_sat_add, u64_max. lia. Qed.
Lemma sat_add_assoc x y z : 0 <= y → 0 <= z → u64_sat_add (u64_sat_add x y) z = u64_sat_add x (y + z).
Proof. unfold u64_sat_add. lia. Qed.

Lemma accounted_refl pk st : counts_ok (relayer_metrics st) pk → accounted pk st st 0 0.
Proof.
  intros [Hf Hd]. split; [lia|by rewrite sat_add_0..|done|done|done|].
  intros c Hc. exists c, []. split_and!; [done|apply chan_adds_refl|done..].
Qed.

Lemma accounted_trans pk st1 st2 st3 F D F' D' :
  accounted pk st1 st2 F D → accounted pk st2 st3 F' D' → accounted pk st1 st3 (F + F') (D + D').
Proof.
  intros [[HF HD] Hf Hd Hc Hdom Hl Hq] [[HF' HD'] Hf' Hd' Hc' Hdom' Hl' Hq']. split.
  - lia.
  - by rewrite Hf', Hf, sat_add_assoc.
  - by rewrite Hd', Hd, sat_add_assoc.
  - intros p. by rewrite Hc', Hc.
  - congruence.
  - congruence.
  - intros c (c2 & l & Hc2 & Ha & HFl & Hcl)%Hq.
    destruct (Hq' c2 Hc2) as (c3 & l' & Hc3 & Ha' & HFl' & Hcl').
    exists c3, (l ++ l'). split_and!; [done|by eapply chan_adds_trans|rewrite packets_in_app; lia|].
    intros Hclosed. rewrite Hcl, Hcl'; [done| |done].
    unfold chan_adds, chan_view in Ha. by injection Ha as _ _ ->.
Qed.

Lemma increment_counts pk p n m :
  is_u64 n → counts_ok m pk →
  let own := if decide (p = pk) then n else 0 in
  (forwarded (increment_packets_forwarded p n m) pk = u64_sat_add (forwarded m pk) own ∧
   dropped (increment_packets_forwarded p n m) pk = dropped m pk) ∧
  (forwarded (increment_packets_dropped p n m) pk = forwarded m pk ∧
   dropped (increment_packets_dropped p n m) pk = u64_sat_add (dropped m pk) own).
Proof.
  intros Hn [Hf Hd]. unfold forwarded, dropped in *. destruct m.
  unfold increment_packets_forwarded, increment_packets_dropped. cbn in *.
  destruct (decide (p = pk)) as [->|Hne]; cbn.
  - rewrite !lookup_insert_eq. destruct (_ !! pk) as [[f d]|]; cbn in *; [done|].
    unfold is_u64, u64_sat_add, u64_max in *. split_and!; lia.
  - rewrite !lookup_insert_ne by done. by rewrite !sat_add_0.
Qed.

Lemma closed_in_insert subs p c msgs c' q :
  subs !! p = Some c → chan_adds c msgs c' → closed_in (<[p := c']> subs) q ↔ closed_in subs q.
Proof.
  unfold chan_adds, chan_view, closed_in. intros Hc [= _ _ Hcl].
  destruct (decide (p = q)) as [->|Hne].
  - rewrite lookup_insert_eq, Hc. naive_solver congruence.
  - by rewrite lookup_insert_ne.
Qed.

Lemma packets_in_batch_msg ts batch p : packets_in [batch_msg ts batch p] = batch_len batch.
Proof. unfold packets_in. cbn. lia. Qed.

(** How [send_batch] counts an answer, and what it counts for [pk]. *)
Definition count_answer (answer : option TrySendError) (p : Pubkey) (n : Z)
    : RelayerMetrics → RelayerMetrics :=
  match answer with
  | None => increment_packets_forwarded p n
  | Some Full => increment_packets_dropped p n
  | Some Closed => id
  end.
Definition counted (pk p : Pubkey) (hit : bool) (n : Z) : Z :=
  if decide (p = pk) then if hit then n else 0 else 0.
Definition is_forwarded (answer : option TrySendError) : bool :=
  match answer with None => true | _ => false end.
Definition is_full (answer : option TrySendError) : bool :=
  match answer with Some Full => true | _ => false end.

Lemma counted_nonneg pk p hit n : 0 <= n → 0 <= counted pk p hit n.
Proof. unfold counted. intros. repeat case_match; lia. Qed.

Lemma count_answer_counts pk p n answer m :
  is_u64 n → counts_ok m pk →
  forwarded (count_answer answer p n m) pk =
    u64_sat_add (forwarded m pk) (counted pk p (is_forwarded answer) n) ∧
  dropped (count_answer answer p n m) pk =
    u64_sat_add (dropped m pk) (counted pk p (is_full answer) n).
Proof.
  intros Hn Hok. destruct (increment_counts pk p n m Hn Hok) as [[Hf Hfd] [Hdf Hd]].
  destruct Hok as [Hf0 Hd0]. destruct answer as [[]|]; cbn [count_answer is_forwarded is_full] in *;
    unfold counted, id in *; destruct (decide (p = pk));
    rewrite ?Hf, ?Hfd, ?Hdf, ?Hd; split; first [done|by rewrite ?sat_add_0].
Qed.

Lemma accounted_send pk p ts batch answer c c' st :
  packet_subscriptions st !! p = Some c → try_send (batch_msg ts batch p) c = (answer, c') →
  is_u64 (batch_len batch) → counts_ok (relayer_metrics st) pk →
  accounted pk st (after_send st p c' (count_answer answer p (batch_len batch)))
    (counted pk p (is_forwarded answer) (batch_len batch))
    (counted pk p (is_full answer) (batch_len batch)).
Proof.
  intros Hc Hs Hn Hok. pose proof Hs as (msgs & Ha & Hm)%try_send_adds.
  destruct (count_answer_counts pk p (batch_len batch) answer (relayer_metrics st) Hn Hok) as [Hf Hd].
  assert (0 <= batch_len batch) by (unfold batch_len; lia).
  split; cbn [after_send relayer_metrics packet_subscriptions slot_leaders]; try done.
  - auto using counted_nonneg.
  - intros q. by eapply closed_in_insert.
  - apply dom_insert_lookup_L. by exists c.
  - intros cp Hcp. unfold counted. destruct (decide (p = pk)) as [->|Hne].
    + exists c', msgs. rewrite lookup_insert_eq. simplify_eq. split_and!; [done..| |].
      * destruct answer as [[]|]; subst; [done..|apply packets_in_batch_msg].
      * intros Hcl. rewrite try_send_closed in Hs by done. by simplify_eq.
    + exists cp, []. rewrite lookup_insert_ne by done. split_and!; [done|apply chan_adds_refl|done..].
Qed.

(** ** The two loops *)

(** [pk] is offered [n] packets if it is one of the [senders]; they are all counted, one
    way or the other, unless a stream is closed. *)
Definition offered_among (pk : Pubkey) (senders : list Pubkey) (n : Z) : Z :=
  if decide (pk ∈ senders) then n else 0.
Lemma offered_among_cons pk p senders n :
  p ∉ senders →
  offered_among pk (p :: senders) n = (if decide (p = pk) then n else 0) + offered_among pk senders n.
Proof.
  intros Hnin. unfold offered_among. destruct (decide (p = pk)) as [->|Hne].
  - rewrite decide_True by set_solver. rewrite decide_False by done. lia.
  - by rewrite (decide_ext (pk ∈ p :: senders) (pk ∈ senders)) by set_solver.
Qed.
Definition split_of (offers : Z) subs (F D : Z) : Prop :=
  F + D <= offers ∧ ((∀ p, ¬ closed_in subs p) → F + D = offers).

(** What a loop over senders did: it answers some of the closed ones. *)
Definition sends_accounted {E} (pk : Pubkey) (offers : Z) (m : Prog Relayer E (list Pubkey)) st : Prop :=
  ∃ failed st' F D, m st = (Done failed, st') ∧ accounted pk st st' F D ∧
    split_of offers (packet_subscriptions st) F D ∧
    (∀ p, p ∈ failed → closed_in (packet_subscriptions st) p).

Lemma send_batch_accounted {E} pk ts batch senders st :
  is_u64 (batch_len batch) → counts_ok (relayer_metrics st) pk →
  NoDup senders → (∀ p, p ∈ senders → p ∈ dom (packet_subscriptions st)) →
  sends_accounted (E := E) pk (offered_among pk senders (batch_len batch)) (send_batch ts batch senders) st.
Proof.
  intros Hn. assert (0 <= batch_len batch) as Hpos by (unfold batch_len; lia).
  revert st; induction senders as [|p senders IH]; intros st Hok Hnodup Hin.
  { exists [], st, 0, 0. split_and!; [done|by apply accounted_refl|split; done|by intros ? ?%not_elem_of_nil]. }
  apply NoDup_cons in Hnodup as [Hnin Hnodup].
  destruct (packet_subscriptions st !! p) as [c|] eqn:Hc; cycle 1.
  { apply not_elem_of_dom in Hc. destruct Hc. apply Hin. set_solver. }
  destruct (try_send (batch_msg ts batch p) c) as [answer c'] eqn:Hs.
  pose proof (accounted_send pk p ts batch answer c c' st Hc Hs Hn Hok) as Hsend.
  unfold sends_accounted. rewrite (send_batch_cons _ _ _ _ _ _ _ _ Hc Hs).
  assert (answer = Some Closed ∨ answer ≠ Some Closed) as [->|Hans]
    by (destruct answer as [[]|]; auto).
  - assert (closed_in (packet_subscriptions st) p) as Hcl.
    { exists c. split; [done|]. destruct (chan_closed c) eqn:Hopen; [done|].
      by destruct (try_send_open _ _ _ _ Hopen Hs). }
    exists [p]. eexists _, _, _. split_and!; [done|exact Hsend| |by intros q ->%list_elem_of_singleton].
    unfold counted, offered_among, split_of. cbn [is_forwarded is_full].
    split; [repeat case_decide; lia|]. intros Hno. by destruct (Hno p).
  - destruct (IH (after_send st p c' (count_answer answer p (batch_len batch))))
      as (failed & st' & F & D & Hr & Hacc & [Hle Heq] & Hfail).
    { by eapply accounted_counts_ok. }
    { done. }
    { intros q Hq. rewrite (acc_dom _ _ _ _ _ Hsend). apply Hin. set_solver. }
    setoid_rewrite (acc_closed _ _ _ _ _ Hsend) in Heq.
    setoid_rewrite (acc_closed _ _ _ _ _ Hsend) in Hfail.
    exists failed, st'. eexists _, _. split_and!; [|by eapply accounted_trans| |done].
    + by destruct answer as [[]|].
    + assert (counted pk p (is_forwarded answer) (batch_len batch) +
        counted pk p (is_full answer) (batch_len batch) = if decide (p = pk) then batch_len batch else 0)
        as Hone by (unfold counted; destruct answer as [[]|]; cbn; repeat case_decide; done || lia).
      unfold split_of. enough (offered_among pk (p :: senders) (batch_len batch) =
        (if decide (p = pk) then batch_len batch else 0) + offered_among pk senders (batch_len batch))
        as -> by (split; [|intros Hno; specialize (Heq Hno)]; lia).
      by apply offered_among_cons.
Qed.

Definition batches_len (batches : list ProtoPacketBatch) : Z := foldr Z.add 0 (map batch_len batches).
Lemma batches_len_concat batches :
  batches_len batches = Z.of_nat (length (concat (map packets batches))).
Proof.
  unfold batches_len, batch_len. induction batches as [|b batches IH]; cbn; [done|].
  rewrite length_app, IH. lia.
Qed.

Lemma send_batches_accounted {E} pk ts n batches senders st :
  Forall (λ b, is_u64 (batch_len b)) batches → counts_ok (relayer_metrics st) pk →
  NoDup senders → (∀ p, p ∈ senders → p ∈ dom (packet_subscriptions st)) →
  sends_accounted (E := E) pk (offered_among pk senders (batches_len batches))
    (send_batches ts n batches senders) st.
Proof.
  revert n st; induction batches as [|batch batches IH]; intros n st Hlen Hok Hnodup Hin;
    cbn [send_batches].
  { exists [], st, 0, 0. split_and!; [done|by apply accounted_refl| |by intros ? ?%not_elem_of_nil].
    unfold offered_among, batches_len, split_of. cbn. case_decide; lia. }
  apply Forall_cons in Hlen as [Hb Hlen]. case_bool_decide as Hempty.
  { replace (batches_len (batch :: batches)) with (batches_len batches); [by apply IH|].
    unfold batches_len, batch_len. cbn. by rewrite Hempty. }
  destruct (send_batch_accounted (E := E) pk (ts n) batch senders st Hb Hok Hnodup Hin)
    as (failed1 & st1 & F1 & D1 & Hr1 & Hacc1 & [Hle1 Heq1] & Hfail1).
  destruct (IH (S n) st1) as (failed2 & st2 & F2 & D2 & Hr2 & Hacc2 & [Hle2 Heq2] & Hfail2);
    [done|by eapply accounted_counts_ok|done|by rewrite (acc_dom _ _ _ _ _ Hacc1)|].
  setoid_rewrite (acc_closed _ _ _ _ _ Hacc1) in Heq2.
  setoid_rewrite (acc_closed _ _ _ _ _ Hacc1) in Hfail2.
  exists (failed1 ++ failed2), st2. eexists _, _. split_and!; [|by eapply accounted_trans| |].
  - by rewrite (prog_bind_done _ _ _ _ _ Hr1), (prog_bind_done _ _ _ _ _ Hr2).
  - replace (offered_among pk senders (batches_len (batch :: batches))) with
      (offered_among pk senders (batch_len batch) + offered_among pk senders (batches_len batches))
      by (unfold offered_among, batches_len; cbn; case_decide; lia).
    split; [lia|]. intros Hno. specialize (Heq1 Hno). specialize (Heq2 Hno). lia.
  - intros p [|]%elem_of_app; auto.
Qed.

(** ** The arms *)

(** The counters of [pk] and the packets that arrive for it agree, from [st] to [st']. *)
Definition arm_accounted config ev pk st st' : Prop :=
  ∃ D, let F := arrived pk (packet_subscriptions st) (packet_subscriptions st') in
    0 <= F ∧ 0 <= D ∧
    forwarded (relayer_metrics st') pk = u64_sat_add (forwarded (relayer_metrics st) pk) F ∧
    dropped (relayer_metrics st') pk = u64_sat_add (dropped (relayer_metrics st) pk) D ∧
    split_of (offered config ev st pk) (packet_subscriptions st) F D.

Lemma packets_in_nonneg l : 0 <= packets_in l.
Proof.
  unfold packets_in. induction l as [|m l IH]; cbn; [lia|].
  enough (0 <= msg_packets m) by lia. unfold msg_packets, batch_len. repeat case_match; lia.
Qed.

Lemma arrived_adds pk subs subs' c c' msgs :
  subs !! pk = Some c → subs' !! pk = Some c' → chan_adds c msgs c' →
  arrived pk subs subs' = packets_in msgs.
Proof.
  unfold arrived, chan_adds, chan_view. intros -> -> [= -> _ _]. by rewrite drop_app_length.
Qed.

Lemma arrived_none pk subs subs' :
  only_adds (λ _ x, msg_packets x = 0) subs subs' → arrived pk subs subs' = 0.
Proof.
  intros Hadds. destruct (subs' !! pk) as [c'|] eqn:Hc'; [|unfold arrived; rewrite Hc'; by destruct (subs !! pk)].
  destruct (Hadds pk c' Hc') as (c & msgs & Hc & Ha & Hm). rewrite (arrived_adds _ _ _ _ _ _ Hc Hc' Ha).
  clear Ha. unfold packets_in. induction Hm as [|m msgs Hm _ IH]; [done|]. cbn. rewrite Hm. exact IH.
Qed.

(** The arms that send no packets and leave the counters alone. *)
Lemma arm_accounted_idle config ev pk st st' :
  counts_ok (relayer_metrics st) pk →
  offered config ev st pk = 0 → arrived pk (packet_subscriptions st) (packet_subscriptions st') = 0 →
  packet_stats_per_validator (relayer_metrics st') = packet_stats_per_validator (relayer_metrics st) →
  arm_accounted config ev pk st st'.
Proof.
  intros [Hf Hd] Ho Ha Hs. exists 0. rewrite Ha, Ho. unfold forwarded, dropped in *. rewrite Hs.
  rewrite !sat_add_0 by done. split_and!; done.
Qed.

Lemma forward_packets_accounted config received us ts cache pk st :
  (0 < validator_packet_batch_size config)%nat →
  is_u64 (Z.of_nat (validator_packet_batch_size config)) → counts_ok (relayer_metrics st) pk →
  sends_accounted pk (offered config (PacketArm (Some received) us ts cache 0) st pk)
    (forward_packets config (Some received) us ts cache) st.
Proof.
  intros Hsize Hu Hok.
  set (st0 := {st with relayer_metrics ::= (λ m, {m with packet_latencies_us ::= histogram_increment us})}).
  destruct (send_batches_accounted (E := RelayerError) pk ts 0 (made_batches config cache received)
    (select_senders (forward_all config) (slot_leaders st) (packet_subscriptions st)) st0)
    as (failed & st' & F & D & Hr & [HFD Hf Hd Hcl Hdom Hl Hq] & Hsplit & Hfail).
  - apply Forall_forall. intros b Hb%made_batches_bounds; [|done]. unfold is_u64, batch_len in *. lia.
  - unfold st0. by destruct st as [subs h l [] r].
  - apply select_senders_NoDup.
  - intros p [Hp _]%select_senders_spec. apply elem_of_dom. by destruct st.
  - rewrite batches_len_concat, made_batches_concat in Hsplit by done.
    exists failed, st', F, D. rewrite forward_packets_unfold by done.
    unfold st0 in *. destruct st as [subs h l [] r]. by split_and!.
Qed.

(** The counters of the packets stay [s]. *)
Definition stats_are s st : Prop := packet_stats_per_validator (relayer_metrics st) = s.

Lemma metrics_keep_stats {E} s f :
  (∀ m, packet_stats_per_validator (f m) = packet_stats_per_validator m) →
  keeps (stats_are s) (with_relayer_metrics f : Prog Relayer E unit).
Proof. intros Hf [subs h l m r]. unfold stats_are. cbn. by rewrite Hf. Qed.

Lemma drop_connections_keep_stats {E} s pks :
  keeps (stats_are s) (drop_connections pks : Prog Relayer E unit).
Proof.
  apply keeps_bind; [apply metrics_keep_stats; by intros []|intros _].
  induction pks as [|pk pks IH]; cbn [for_each]; [auto with keeps|].
  apply keeps_bind; [by intros []|done].
Qed.

(** From [st0] to [st] nothing was counted and no queue got packets. *)
Definition idle st0 st : Prop :=
  only_adds (λ _ x, msg_packets x = 0) (packet_subscriptions st0) (packet_subscriptions st) ∧
  stats_are (packet_stats_per_validator (relayer_metrics st0)) st.

Lemma idle_arm config ev pk st st' :
  counts_ok (relayer_metrics st) pk → offered config ev st pk = 0 → idle st st' →
  arm_accounted config ev pk st st'.
Proof. intros Hok Ho [Ha Hs]. apply arm_accounted_idle; [done..|by apply arrived_none|exact Hs]. Qed.

Lemma metrics_keep_idle {E} st0 f :
  (∀ m, packet_stats_per_validator (f m) = packet_stats_per_validator m) →
  keeps (idle st0) (with_relayer_metrics f : Prog Relayer E unit).
Proof. intros Hf st [Ha Hs]. split; [by destruct st|]. by apply (metrics_keep_stats (E := E)). Qed.

Lemma drop_connections_keep_idle {E} st0 pks :
  keeps (idle st0) (drop_connections pks : Prog Relayer E unit).
Proof.
  intros st [Ha Hs]. split; [|by apply drop_connections_keep_stats].
  destruct (drop_connections_done (E := E) pks st) as (st' & -> & Hl & _). cbn.
  intros p c. rewrite Hl. case_decide; [done|]. apply Ha.
Qed.

Lemma heartbeat_each_keep_stats {E} s senders :
  keeps (stats_are s) (heartbeat_each senders : Prog Relayer E (list Pubkey)).
Proof.
  induction senders as [|[pk c] senders IH]; cbn [heartbeat_each]; [auto with keeps|].
  apply keeps_bind; [auto with keeps|intros count]. apply keeps_bind.
  { intros st. unfold try_send_to. destruct (try_send _ _), st. done. }
  intros [[]|]; [auto with keeps| |done].
  apply keeps_bind; [apply metrics_keep_stats; by intros []|done].
Qed.

Lemma handle_heartbeat_keep_idle {E} st0 :
  keeps (idle st0) (handle_heartbeat : Prog Relayer E (list Pubkey)).
Proof.
  intros st [Ha Hs]. unfold handle_heartbeat. unfold mbind at 1, Prog_bind at 1, gets at 1.
  set (each := heartbeat_each (E := E) (map_iter (packet_subscriptions st))).
  assert (idle st0 (each st).2) as Hidle.
  { split; [|by apply heartbeat_each_keep_stats]. eapply only_adds_trans; [exact Ha|].
    eapply only_adds_weaken; [|apply heartbeat_each_adds]; [by intros pk x [count ->]|apply NoDup_map_iter|].
    intros pk c. by rewrite elem_of_map_iter. }
  unfold mbind at 1, Prog_bind at 1. destruct (each st) as [[failed|e|w] st1]; [|exact Hidle..].
  refine (keeps_bind (idle st0) _ _ _ _ st1 Hidle); [apply metrics_keep_idle; by intros []|auto with keeps].
Qed.

Lemma idle_refl st : idle st st.
Proof. split; [apply only_adds_refl|done]. Qed.

Lemma subscription_arm_idle config caps pk p sender us st :
  chan_queue sender = [] →
  let st' := (relayer_select config caps (SubscriptionArm (Some (p, sender)) us) st).2 in
  arrived pk (packet_subscriptions st) (packet_subscriptions st') = 0 ∧
  stats_are (packet_stats_per_validator (relayer_metrics st)) st'.
Proof.
  intros Hq st'. enough (packet_subscriptions st' = <[p := sender]> (packet_subscriptions st) ∧
    stats_are (packet_stats_per_validator (relayer_metrics st)) st') as [-> Hs].
  { split; [|done]. unfold arrived. destruct (packet_subscriptions st !! pk) as [c|] eqn:Hc; [|done].
    destruct (decide (p = pk)) as [->|Hne].
    - rewrite lookup_insert_eq, Hq, drop_nil. done.
    - rewrite lookup_insert_ne, Hc by done. by rewrite drop_all. }
  subst st'. destruct st as [subs h l [] r]. cbn [relayer_select].
  unfold handle_subscription, received_or_shutdown, with_relayer_metrics, stats_are. prog_unfold. cbn.
  by destruct (subs !! p).
Qed.

Lemma packet_arm_accounted config caps received us ts cache us' pk st :
  (0 < validator_packet_batch_size config)%nat →
  is_u64 (Z.of_nat (validator_packet_batch_size config)) → counts_ok (relayer_metrics st) pk →
  let ev := PacketArm (Some received) us ts cache us' in
  arm_accounted config ev pk st (relayer_select config caps ev st).2.
Proof.
  intros Hsize Hu Hok ev.
  destruct (forward_packets_accounted config received us ts cache pk st Hsize Hu Hok)
    as (failed & st1 & F & D & Hr1 & Hacc & Hsplit & Hfail).
  destruct (drop_connections_done (E := RelayerError) failed st1) as (st2 & Hr2 & Hl2 & _).
  pose proof (drop_connections_keep_stats (E := RelayerError) _ failed st1 eq_refl) as Hs2.
  rewrite Hr2 in Hs2. unfold ev at 2. cbn [relayer_select].
  rewrite (prog_bind_done _ _ _ _ _ Hr1), (prog_bind_done _ _ _ _ _ Hr2).
  pose proof (acc_nonneg _ _ _ _ _ Hacc) as [HF HD].
  assert (arrived pk (packet_subscriptions st) (packet_subscriptions st2) = F) as Harr.
  { destruct (packet_subscriptions st !! pk) as [c|] eqn:Hc; cycle 1.
    { unfold arrived. rewrite Hc. destruct Hsplit as [Hle _]. cbn in Hle. rewrite decide_False in Hle; [lia|].
      intros [[c Hc'] _]%select_senders_spec. congruence. }
    destruct (acc_queue _ _ _ _ _ Hacc c Hc) as (c' & msgs & Hc' & Ha & HFl & Hcl).
    destruct (decide (pk ∈ failed)) as [Hin|Hnin].
    - unfold arrived. rewrite Hc, Hl2, decide_True by done.
      destruct (Hfail pk Hin) as (c0 & ? & ?). simplify_eq. by rewrite Hcl.
    - rewrite <-HFl. apply (arrived_adds _ _ _ c c'); [done| |done]. by rewrite Hl2, decide_False. }
  destruct Hacc as [_ Hf Hd _ _ _ _]. exists D.
  unfold stats_are in Hs2. unfold forwarded, dropped in *.
  destruct st2 as [subs2 h2 l2 [] r2]. cbn in *. rewrite Harr, Hs2. done.
Qed.

(** ** The run *)

(** No report is made, and a new subscription comes with an empty queue, as
    [subscribe_packets] makes it. *)
Definition between_reports (i : RelayerInput) : Prop :=
  match ri_event i with
  | MetricsArm _ _ => False
  | SubscriptionArm (Some (_, sender)) _ => chan_queue sender = []
  | _ => True
  end.

Lemma relayer_select_accounted config caps ev pk st :
  (0 < validator_packet_batch_size config)%nat →
  is_u64 (Z.of_nat (validator_packet_batch_size config)) → counts_ok (relayer_metrics st) pk →
  match ev with
  | MetricsArm _ _ => False
  | SubscriptionArm (Some (_, sender)) _ => chan_queue sender = []
  | _ => True
  end →
  arm_accounted config ev pk st (relayer_select config caps ev st).2.
Proof.
  intros Hsize Hu Hok Hev.
  destruct ev as [slot schedule us|[received|] us ts cache us'|[[p sender]|] us|latency health us|];
    [|by apply packet_arm_accounted|by apply idle_arm, idle_refl| |by apply idle_arm, idle_refl| |done].
  - apply idle_arm; [done..|]. destruct slot as [slot|]; [|apply idle_refl].
    unfold relayer_select, update_highest_slot, received_or_shutdown, with_relayer_metrics.
    destruct st as [subs h l [] r]. split; [apply only_adds_refl|done].
  - destruct (subscription_arm_idle config caps pk p sender us st Hev). by apply arm_accounted_idle.
  - apply idle_arm; [done..|]. cbn [relayer_select].
    refine ((_ : keeps (idle st) _) st (idle_refl st)).
    apply keeps_bind; [destruct latency; [apply metrics_keep_idle; by intros []|auto with keeps]|intros _].
    apply keeps_bind; [destruct health; [auto with keeps|apply handle_heartbeat_keep_idle]|intros pks].
    apply keeps_bind; [apply drop_connections_keep_idle|intros _].
    apply metrics_keep_idle; by intros [].
Qed.

(** The lengths read at the end of an iteration are other counters. *)
Lemma relayer_iteration_select config i st :
  let st1 := (relayer_select config (ri_capacities i) (ri_event i) (after_receivers i st)).2 in
  let st' := (relayer_iteration config i st).2 in
  packet_subscriptions st' = packet_subscriptions st1 ∧
  packet_stats_per_validator (relayer_metrics st') = packet_stats_per_validator (relayer_metrics st1).
Proof.
  unfold relayer_iteration.
  rewrite (prog_bind_done (modify _) _ _ tt (after_receivers i st) eq_refl). unfold mbind, Prog_bind.
  destruct (relayer_select _ _ _ (after_receivers i st)) as [[u|e|w] [subs h l [] r]]; [|done..].
  by destruct (ri_lens i) as [[l1 l2] l3].
Qed.

Lemma none_closed_true subs : none_closed subs = true ↔ ∀ p, ¬ closed_in subs p.
Proof.
  unfold none_closed, closed_in. rewrite bool_decide_eq_true. split.
  - intros Hall p (c & Hc & Hcl). specialize (Hall p c Hc). cbn in Hall. congruence.
  - intros Hno p c Hc. destruct (chan_closed c) eqn:Hcl; [|done]. destruct (Hno p). by exists c.
Qed.

(** The counters of [pk] went up by the packets that arrived, and by some [D]. *)
Definition run_accounted (pk : Pubkey) st st' (t : Totals) : Prop :=
  ∃ D, 0 <= t_arrived t ∧ 0 <= D ∧
    forwarded (relayer_metrics st') pk = u64_sat_add (forwarded (relayer_metrics st) pk) (t_arrived t) ∧
    dropped (relayer_metrics st') pk = u64_sat_add (dropped (relayer_metrics st) pk) D ∧
    t_offered_open t <= t_arrived t + D <= t_offered t.

Lemma offered_nonneg config ev st pk : 0 <= offered config ev st pk.
Proof. unfold offered. repeat case_match; lia. Qed.

Lemma run_accounted_refl pk st : counts_ok (relayer_metrics st) pk → run_accounted pk st st no_totals.
Proof. intros [Hf Hd]. exists 0. cbn. rewrite !sat_add_0 by done. lia. Qed.

Lemma run_accounted_trans pk st1 st2 st3 t t' :
  run_accounted pk st1 st2 t → run_accounted pk st2 st3 t' →
  run_accounted pk st1 st3 (add_totals t t').
Proof.
  intros (D & HF & HD & Hf & Hd & Ht) (D' & HF' & HD' & Hf' & Hd' & Ht'). exists (D + D'). cbn.
  rewrite Hf', Hf, Hd', Hd, !sat_add_assoc by done. lia.
Qed.

Lemma relayer_iteration_accounted config i pk st :
  (0 < validator_packet_batch_size config)%nat →
  is_u64 (Z.of_nat (validator_packet_batch_size config)) → counts_ok (relayer_metrics st) pk →
  between_reports i →
  run_accounted pk st (relayer_iteration config i st).2 (turn_totals config i st pk).
Proof.
  intros Hsize Hu Hok Hi. destruct (relayer_iteration_select config i st) as [Hsubs Hstats].
  assert (relayer_metrics (after_receivers i st) = relayer_metrics st) as Hm by (by destruct st).
  destruct (relayer_select_accounted config (ri_capacities i) (ri_event i) pk (after_receivers i st))
    as (D & HF & HD & Hf & Hd & Hle & Heq); [done..|by rewrite Hm|exact Hi|].
  rewrite Hm in Hf, Hd. exists D. unfold turn_totals. cbn [t_arrived t_offered_open t_offered].
  rewrite Hsubs.
  unfold forwarded, dropped in *. rewrite Hstats. split_and!; [done..| |done].
  destruct (none_closed _) eqn:Hopen.
  - rewrite (Heq (proj1 (none_closed_true _) Hopen)). lia.
  - lia.
Qed.

Lemma run_event_loop_accounted config inputs pk st :
  (0 < validator_packet_batch_size config)%nat →
  is_u64 (Z.of_nat (validator_packet_batch_size config)) → counts_ok (relayer_metrics st) pk →
  Forall between_reports (live_inputs inputs) →
  run_accounted pk st (run_event_loop config inputs st).2 (totals config inputs st pk).
Proof.
  intros Hsize Hu. revert st; induction inputs as [|[i|] inputs IH]; intros st Hok Hin;
    [by apply run_accounted_refl| |by apply run_accounted_refl].
  apply Forall_cons in Hin as [Hi Hin].
  pose proof (relayer_iteration_accounted config i pk st Hsize Hu Hok Hi) as Hturn.
  cbn [totals]. unfold run_event_loop. cbn [run_loop]. unfold mbind at 1, Prog_bind at 1.
  assert (counts_ok (relayer_metrics (relayer_iteration config i st).2) pk) as Hok'.
  { destruct Hturn as (D & HF & HD & Hf & Hd & _). exact (counts_sat _ _ _ _ _ HF HD Hok Hf Hd). }
  destruct (relayer_iteration config i st) as [[u|e|w] st1];
    (eapply run_accounted_trans; [exact Hturn|]);
    [by apply IH|by apply run_accounted_refl..].
Qed.

(** C21: From one report to the next, whatever the event loop handles and however it
    ends, the count of packets forwarded to a validator is the number of packets that
    were put in its queue (capped at the largest [u64]); and the packets counted as
    forwarded or as dropped are together at most those offered to it, packets of
    deliveries that may leave while it is one of the receivers, and at least those
    offered while no stream was closed, when none goes uncounted.  (The fields are
    documented as counts of batches; the code adds the packets of each batch.) *)
Theorem event_loop_accounting config inputs st pk :
  (0 < validator_packet_batch_size config)%nat →
  is_u64 (Z.of_nat (validator_packet_batch_size config)) →
  packet_stats_per_validator (relayer_metrics st) = ∅ →
  Forall between_reports (live_inputs inputs) →
  let m := relayer_metrics (run_event_loop config inputs st).2 in
  let t := totals config inputs st pk in
  forwarded m pk = Z.min (t_arrived t) u64_max ∧
  ∃ D, dropped m pk = Z.min D u64_max ∧ 0 <= D ∧
    t_offered_open t <= t_arrived t + D <= t_offered t.
Proof.
  intros Hsize Hu Hstats Hin m t.
  assert (forwarded (relayer_metrics st) pk = 0 ∧ dropped (relayer_metrics st) pk = 0) as [Hf0 Hd0]
    by (unfold forwarded, dropped; by rewrite Hstats, lookup_empty).
  destruct (run_event_loop_accounted config inputs pk st Hsize Hu) as (D & HF & HD & Hf & Hd & Ht).
  - split; [rewrite Hf0|rewrite Hd0]; apply u64_0.
  - exact Hin.
  - rewrite Hf0 in Hf. rewrite Hd0 in Hd. split; [exact Hf|]. by exists D.
Qed.
End accounting.

(** ** Concrete inputs *)

(** The validator [a] has room in its queue, [b] none. *)
Definition toy_two_validators : Relayer :=
  toy_relayer {["a"%char := toy_sender false; "b"%char := Build_ToyChan [] 0 false]}.
Definition toy_delivery : RelayerInput :=
  toy_typed_input (PacketArm (Some toy_packets) 9 (λ _ _, 3) ∅ 5).

Lemma event_loop_accounting_witness :
  let inputs := [Some toy_delivery; Some (toy_typed_input (HeartbeatArm None Healthy 5)); Some toy_delivery] in
  let m := relayer_metrics (run_event_loop toy_config inputs toy_two_validators).2 in
  let a := totals toy_config inputs toy_two_validators "a"%char in
  let b := totals toy_config inputs toy_two_validators "b"%char in
  (t_arrived a, forwarded m "a"%char, t_arrived b, dropped m "b"%char) = (2, 2, 0, 2) ∧
  ∃ D, dropped m "b"%char = Z.min D u64_max ∧ 0 <= D ∧
    t_offered_open b <= t_arrived b + D <= t_offered b.
Proof.
  intros inputs m a b. split; [vm_refl|].
  destruct (event_loop_accounting toy_config inputs toy_two_validators "b"%char) as [_ HD];
    [cbn; lia|unfold is_u64; cbn; lia|reflexivity|repeat constructor|exact HD].
Defined.
