(* ===== verification/ControlPath.v ===== *)
(** * The composed control path

    The subscription threads (LoadBalancer.v) send slots to the health manager
    (HealthManager.v), which passes them on to the event loop (Relayer.v) and decides the
    health state the event loop and the gRPC handlers (Relayer.v, AuthService.v) read.
    The theorems here put them together: whom packets go to in terms of the slots the RPC
    servers reported, and what becomes of the validators when the slots stop. *)

From S2P Require Import Prelude External Instances Packets ScheduleCache HealthManager LoadBalancer.
From S2P Require Import AuthInterceptor AuthChallenges AuthService Relayer RelayerAccounting.
Local Open Scope Z_scope.

(** ** The slots the manager passes on *)

Section slots.
Variable threshold : Z.

(** The slots the manager receives. *)
Definition manager_slots (inputs : list (option (HealthEvent * Z))) : list Z :=
  slots_of (live_inputs inputs).*1.

Lemma health_iteration_forwards i h :
  ∃ l, slots_forwarded (health_iteration threshold i h).2 = slots_forwarded h ++ l ∧
    l `prefix_of` slots_of [i.1] ∧
    (∀ u, (health_iteration threshold i h).1 = Done u → l = slots_of [i.1]).
Proof.
  destruct i as [[now|[slot|] [] now|] len], h as [s lu ml fw hr cr]; cbn;
    first [by exists [slot]|exists []; rewrite ?app_nil_r; split_and!; [done|apply prefix_nil|done]].
Qed.

Lemma manager_thread_forwards inputs h :
  ∃ l, slots_forwarded (manager_thread threshold inputs h).2 = slots_forwarded h ++ l ∧
    l `prefix_of` manager_slots inputs.
Proof.
  revert h; induction inputs as [|[i|] inputs IH]; intros h;
    [exists []; by rewrite app_nil_r| |exists []; by rewrite app_nil_r].
  destruct (health_iteration_forwards i h) as (l & Hl & Hpre & Hdone).
  unfold manager_thread. cbn [run_loop]. unfold mbind, Prog_bind.
  assert (manager_slots (Some i :: inputs) = slots_of [i.1] ++ manager_slots inputs) as ->
    by (unfold manager_slots, slots_of; cbn; by destruct i as [[?|[]|] ?]).
  destruct (health_iteration threshold i h) as [[u|e|w] h1]; cbn [fst snd] in *;
    [|exists l; split; [done|]; by apply prefix_app_r..].
  destruct (IH h1) as (l' & Hl' & Hpre'). exists (l ++ l').
  unfold manager_thread in Hl'. rewrite Hl', Hl, (Hdone u eq_refl), app_assoc. split; [done|].
  by apply prefix_app.
Qed.
End slots.

(** ** The leaders of the event loop *)

Section leaders.
Context `{Sdk} `{!IpText} `{!Channels} `{!Histograms} `{!HashOrder Pubkey} `{!HashOrder Slot}.
Context `{!ChannelsLaws} `{!HashOrderLaws Pubkey}.
Implicit Types (st : Relayer) (config : RelayerConfig).

(** The slots the event loop receives, each with the leader schedule it then reads. *)
Definition loop_slots (inputs : list (option RelayerInput)) : list (Z * gmap Slot Pubkey) :=
  omap (λ i, match ri_event i with
             | SlotArm (Some slot) schedule _ => Some (slot, schedule)
             | _ => None
             end) (live_inputs inputs).

Definition upcoming_leaders config (x : Z * gmap Slot Pubkey) : gset Pubkey :=
  leaders_for_slots x.2 (z_range x.1 (u64_add x.1 (slot_lookahead config))).

Definition leaders_are (L : gset Pubkey) st : Prop := slot_leaders st = L.

Lemma metrics_keep_leaders {E} L f : keeps (leaders_are L) (with_relayer_metrics f : Prog Relayer E unit).
Proof. by intros []. Qed.
Lemma drop_connections_keep_leaders {E} L pks :
  keeps (leaders_are L) (drop_connections pks : Prog Relayer E unit).
Proof.
  intros st Hst. unfold leaders_are.
  destruct (drop_connections_done (E := E) pks st) as (st' & -> & _ & _ & _ & Hl). cbn. by rewrite Hl.
Qed.
Lemma heartbeat_each_keep_leaders {E} L senders :
  keeps (leaders_are L) (heartbeat_each senders : Prog Relayer E (list Pubkey)).
Proof.
  induction senders as [|[pk c] senders IH]; cbn [heartbeat_each]; [auto with keeps|].
  apply keeps_bind; [auto with keeps|intros count]. apply keeps_bind.
  { intros st. unfold try_send_to. destruct (try_send _ _), st. done. }
  intros [[]|]; [auto with keeps| |done].
  apply keeps_bind; [apply metrics_keep_leaders|done].
Qed.
Lemma handle_heartbeat_keep_leaders {E} L :
  keeps (leaders_are L) (handle_heartbeat : Prog Relayer E (list Pubkey)).
Proof.
  apply keeps_bind; [auto with keeps|intros senders].
  apply keeps_bind; [apply heartbeat_each_keep_leaders|intros failed].
  apply keeps_bind; [apply metrics_keep_leaders|auto with keeps].
Qed.
Lemma forward_packets_keep_leaders L config batches us ts cache :
  keeps (leaders_are L) (forward_packets config batches us ts cache).
Proof.
  unfold forward_packets, received_or_shutdown. apply keeps_bind; [auto with keeps|intros received].
  apply keeps_bind; [apply metrics_keep_leaders|intros _].
  apply keeps_bind; [auto with keeps|intros _].
  apply keeps_bind; [auto with keeps|intros leaders]. apply keeps_bind; [auto with keeps|intros subs].
  intros st Hst. unfold leaders_are.
  by rewrite (proj2 (send_batches_adds ts 0 _ _ st (λ _ _, True) (λ _ _ _ _ _ _, I))).
Qed.

(** An arm other than the slots' leaves the leaders alone. *)
Lemma relayer_select_keep_leaders L config caps ev :
  match ev with SlotArm (Some _) _ _ => False | _ => True end →
  keeps (leaders_are L) (relayer_select config caps ev).
Proof.
  destruct ev as [[slot|] schedule us|batches us ts cache us'|[[pk sender]|] us|latency health us|latency us];
    intros Hev; [done|by intros st|..|by intros st| |]; cbn [relayer_select].
  - apply keeps_bind; [apply forward_packets_keep_leaders|intros failed].
    apply keeps_bind; [apply drop_connections_keep_leaders|intros _]. apply metrics_keep_leaders.
  - apply keeps_bind; [|intros _; apply metrics_keep_leaders].
    unfold handle_subscription, received_or_shutdown. apply keeps_bind; [auto with keeps|intros [p c]].
    apply keeps_bind; [auto with keeps|intros old]. apply keeps_bind; [by intros []|intros _].
    destruct old; [auto with keeps|apply metrics_keep_leaders].
  - apply keeps_bind; [destruct latency; [apply metrics_keep_leaders|auto with keeps]|intros _].
    apply keeps_bind; [destruct health; [auto with keeps|apply handle_heartbeat_keep_leaders]|intros pks].
    apply keeps_bind; [apply drop_connections_keep_leaders|intros _]. apply metrics_keep_leaders.
  - apply keeps_bind; [by intros []|intros _].
    apply keeps_bind; [destruct latency; [apply metrics_keep_leaders|auto with keeps]|intros _].
    apply keeps_bind; [apply metrics_keep_leaders|intros _]. destruct caps as [[]]. by intros [].
Qed.

Lemma relayer_iteration_leaders config i st u st' :
  relayer_iteration config i st = (Done u, st') →
  slot_leaders st' = from_option (upcoming_leaders config) (slot_leaders st) (last (loop_slots [Some i])).
Proof.
  unfold relayer_iteration. intros (u1 & st1 & Hm & Hb)%prog_bind_inv. injection Hm as _ Hst1.
  assert (slot_leaders st1 = slot_leaders st) as Hl1 by (subst st1; by destruct st).
  apply prog_bind_inv in Hb as (u2 & st2 & Hsel & Hend).
  assert (slot_leaders st' = slot_leaders st2) as ->.
  { destruct (ri_lens i) as [[l1 l2] l3]. injection Hend as _ <-. by destruct st2. }
  assert (match ri_event i with SlotArm (Some _) _ _ => False | _ => True end →
    slot_leaders st2 = slot_leaders st) as Hkeep.
  { intros Hev. pose proof (relayer_select_keep_leaders _ config (ri_capacities i) _ Hev st1 Hl1) as Hl2.
    by rewrite Hsel in Hl2. }
  unfold loop_slots. cbn.
  destruct (ri_event i) as [[slot|] schedule us| | | |] eqn:Hev; cbn [last from_option];
    try exact (Hkeep I).
  unfold relayer_select, update_highest_slot, received_or_shutdown, with_relayer_metrics in Hsel.
  destruct st1 as [subs h l [] r]. by injection Hsel as _ <-.
Qed.

Lemma run_event_loop_leaders config inputs st r st' :
  run_event_loop config inputs st = (Done r, st') →
  slot_leaders st' = from_option (upcoming_leaders config) (slot_leaders st) (last (loop_slots inputs)).
Proof.
  revert st; induction inputs as [|[i|] inputs IH]; intros st Hr.
  - by injection Hr as _ <-.
  - unfold run_event_loop in Hr. cbn [run_loop] in Hr.
    apply prog_bind_inv in Hr as (u & st1 & Hi & Hr).
    rewrite (IH st1 Hr), (relayer_iteration_leaders _ _ _ _ _ Hi).
    assert (loop_slots (Some i :: inputs) = loop_slots [Some i] ++ loop_slots inputs) as ->
      by (unfold loop_slots; cbn; by destruct (ri_event i) as [[] | | | |]).
    rewrite last_app. by destruct (last (loop_slots inputs)).
  - by injection Hr as _ <-.
Qed.
End leaders.

(** ** Whom packets go to *)

Section receivers.
Context `{Sdk} `{!IpText} `{!Channels} `{!Histograms} `{!HashOrder Pubkey} `{!HashOrder Slot}.
Context `{!ChannelsLaws} `{!HashOrderLaws Pubkey}.
Implicit Types (config : RelayerConfig) (st : Relayer).

(** The validators due after the turns [inputs] of the loop: all of them, or those who lead
    a slot between the last one received and the lookahead, by the schedule then read. *)
Definition due config (inputs : list (option RelayerInput)) (pk : Pubkey) : Prop :=
  forward_all config = true ∨
  ∃ slot schedule s, last (loop_slots inputs) = Some (slot, schedule) ∧
    slot <= s < u64_add slot (slot_lookahead config) ∧ leader_for_slot schedule s = Some pk.

Lemma due_leaders config caps inputs r st pk :
  run_event_loop config inputs (Relayer_new caps) = (Done r, st) →
  forward_all config = true ∨ pk ∈ slot_leaders st ↔ due config inputs pk.
Proof.
  intros Hrun. rewrite (run_event_loop_leaders _ _ _ _ _ Hrun). unfold due. f_equiv.
  destruct (last (loop_slots inputs)) as [[slot schedule]|]; cbn.
  - unfold upcoming_leaders. rewrite elem_of_leaders_for_slots. cbn. setoid_rewrite elem_of_z_range.
    unfold leader_for_slot. naive_solver.
  - destruct caps as [[c1 c2] c3]. cbn. set_solver.
Qed.

Lemma packet_arm_done config caps batches us ts cache us' st :
  (0 < validator_packet_batch_size config)%nat → all_open (packet_subscriptions st) →
  ∃ st', relayer_select config caps (PacketArm (Some batches) us ts cache us') st = (Done tt, st') ∧
    ∀ pk c, packet_subscriptions st !! pk = Some c →
      ∃ c', packet_subscriptions st' !! pk = Some c' ∧
        chan_adds c
          (if decide (forward_all config = true ∨ pk ∈ slot_leaders st)
           then accepted c (batch_msgs ts 0 (made_batches config cache batches) pk) else []) c'.
Proof.
  intros Hsize Hopen.
  destruct (forward_packets_delivered config batches us ts cache st Hsize Hopen) as (st1 & Hr1 & Hd).
  destruct (drop_connections_done (E := RelayerError) [] st1) as (st2 & Hr2 & Hl2 & _).
  cbn [relayer_select]. rewrite (prog_bind_done _ _ _ _ _ Hr1), (prog_bind_done _ _ _ _ _ Hr2).
  destruct st2 as [subs2 h2 l2 [] r2]. eexists. split; [done|]. intros pk c Hc.
  destruct (Hd pk c Hc) as (c' & Hc' & Ha). exists c'. split; [|done]. cbn in *.
  by rewrite Hl2, decide_False by apply not_elem_of_nil.
Qed.

(** Streams closed or not, no one else gets anything. *)
Lemma packet_arm_only config caps batches us ts cache us' st :
  (0 < validator_packet_batch_size config)%nat →
  only_adds (λ pk _, forward_all config = true ∨ pk ∈ slot_leaders st) (packet_subscriptions st)
    (packet_subscriptions (relayer_select config caps (PacketArm (Some batches) us ts cache us') st).2).
Proof.
  intros Hsize. cbn [relayer_select]. unfold mbind, Prog_bind. rewrite forward_packets_unfold by done.
  set (st0 := {st with relayer_metrics ::= _}).
  destruct (send_batches_adds (E := RelayerError) ts 0 (made_batches config cache batches)
    (select_senders (forward_all config) (slot_leaders st) (packet_subscriptions st)) st0
    (λ pk _, forward_all config = true ∨ pk ∈ slot_leaders st)) as [Hadds _];
    [by intros k pk batch [_ Hpk]%select_senders_spec|].
  assert (packet_subscriptions st0 = packet_subscriptions st) as Hst0 by (by destruct st).
  rewrite Hst0 in Hadds. destruct (send_batches _ _ _ _ st0) as [[failed|e|w] st1]; cbn in Hadds; [|done..].
  destruct (drop_connections_done (E := RelayerError) failed st1) as (st2 & -> & Hl & _).
  destruct st2 as [subs2 h2 l2 [] r2]. intros pk c. cbn in *. rewrite Hl. case_decide; [done|]. apply Hadds.
Qed.
(** From [subs] to [subs'] a delivery of [msgs] went to those of [P], as far as their queues
    had room and while no stream was closed, and to no one else. *)
Definition delivered_to (P : Pubkey → Prop) (msgs : Pubkey → list (Outcome Status SubscribePacketsResponse))
    (subs subs' : gmap Pubkey (chan (Outcome Status SubscribePacketsResponse))) : Prop :=
  (∀ pk c', subs' !! pk = Some c' → ¬ P pk → ∃ c, subs !! pk = Some c ∧ chan_adds c [] c') ∧
  (all_open subs → ∀ pk c, subs !! pk = Some c → P pk →
    ∃ c', subs' !! pk = Some c' ∧ chan_adds c (accepted c (msgs pk)) c').

Lemma packet_turn config caps inputs r st i batches us ts cache us' :
  (0 < validator_packet_batch_size config)%nat →
  run_event_loop config inputs (Relayer_new caps) = (Done r, st) →
  ri_event i = PacketArm (Some batches) us ts cache us' →
  delivered_to (due config inputs) (batch_msgs ts 0 (made_batches config cache batches))
    (packet_subscriptions (after_receivers i st)) (packet_subscriptions (relayer_iteration config i st).2).
Proof.
  intros Hsize Hrun Hev. rewrite (proj1 (relayer_iteration_select config i st)), Hev.
  assert (slot_leaders (after_receivers i st) = slot_leaders st) as Hlead by (by destruct st).
  pose proof (λ pk, due_leaders config caps inputs r st pk Hrun) as Hdue. rewrite <-Hlead in Hdue. split.
  - intros pk c' Hc' Hnot. destruct (packet_arm_only config (ri_capacities i) batches us ts cache us'
      (after_receivers i st) Hsize pk c' Hc') as (c & msgs & Hc & Ha & Hall).
    exists c. split; [done|]. destruct msgs; [done|]. apply Forall_cons in Hall as [Hpk _].
    destruct Hnot. by apply Hdue.
  - intros Hopen pk c Hc Hpk. destruct (packet_arm_done config (ri_capacities i) batches us ts cache us'
      (after_receivers i st) Hsize Hopen) as (st2 & -> & Hd).
    destruct (Hd pk c Hc) as (c' & Hc' & Ha). exists c'. split; [done|]. by rewrite decide_True in Ha by by apply Hdue.
Qed.
End receivers.

Section control_path.
Context `{Sdk} `{!IpText} `{!Channels} `{!Histograms} `{!HashOrder Pubkey} `{!HashOrder Slot}.
Context `{!ChannelsLaws} `{!HashOrderLaws Pubkey} `{!HashOrder string} `{!HashOrderLaws string}.
Implicit Types (config : RelayerConfig).

(** C7: Packets follow the slots of the RPC servers.  With the health manager fed by the
    subscription threads, however these interleave, and the event loop fed by the
    manager, however it ends, no slot reaches the event loop twice and each is one the
    threads' counter has reached; and when the loop then takes a delivery, nothing is
    queued for a validator that is not due: one that leads no slot from the last one
    received on within the lookahead, in the schedule read with that slot, unless
    everything is forwarded to all.  While no stream is closed, every connected validator
    that is due gets all the batches its queue has room for. *)
Theorem packets_follow_slots RpcClient rpc_client_new servers t threshold start hinputs config caps
    inputs r st :
  rtc lb_step (threads_init RpcClient rpc_client_new servers) t →
  manager_slots hinputs `prefix_of` slots_sent (shared t) →
  (loop_slots inputs).*1
    `prefix_of` slots_forwarded (manager_thread threshold hinputs (HealthManager_new start)).2 →
  run_event_loop config inputs (Relayer_new caps) = (Done r, st) →
  (0 < validator_packet_batch_size config)%nat →
  NoDup (loop_slots inputs).*1 ∧
  (∀ slot, slot ∈ (loop_slots inputs).*1 → 0 < slot <= LoadBalancer.highest_slot (shared t)) ∧
  ∀ i batches us ts cache us', ri_event i = PacketArm (Some batches) us ts cache us' →
    delivered_to (due config inputs) (batch_msgs ts 0 (made_batches config cache batches))
      (packet_subscriptions (after_receivers i st)) (packet_subscriptions (relayer_iteration config i st).2).
Proof.
  intros Hlb Hmanager Hloop Hrun Hsize.
  destruct (rtc_invariant lb_step lb_inv _ t lb_inv_step
    (lb_inv_init _ _ servers) Hlb) as [Hnodup Hle _ _ _ _].
  destruct (manager_thread_forwards threshold hinputs (HealthManager_new start)) as (l & Hl & Hpre).
  assert ((loop_slots inputs).*1 `prefix_of` slots_sent (shared t)) as [rest Hsent].
  { rewrite Hl in Hloop. cbn in Hloop. by do 2 (etrans; [eassumption|]). }
  rewrite Hsent in Hnodup. apply NoDup_app in Hnodup as (Hnodup & _ & _).
  split; [done|]. split; [intros slot Hslot; apply Hle; rewrite Hsent; set_solver|].
  intros i batches us ts cache us' Hev. by eapply packet_turn.
Qed.
End control_path.

(** ** When the slots stop *)

Section unhealthy.
Context `{Sdk} `{!IpText} `{!Channels} `{!Histograms} `{!HashOrder Pubkey} `{!HashOrder Slot}.
Context `{!ChannelsLaws} `{!HashOrderLaws Pubkey}.
Implicit Types (st : Relayer) (config : RelayerConfig).

(** Only validators with [P] are connected. *)
Definition among (P : Pubkey → Prop) st : Prop :=
  ∀ pk c, packet_subscriptions st !! pk = Some c → P pk.
Definition nobody st : Prop := packet_subscriptions st = ∅.

Lemma nobody_among st : nobody st ↔ among (λ _, False) st.
Proof.
  split; [by intros Hst pk c; rewrite Hst|]. intros Hst. apply map_empty. intros pk.
  destruct (packet_subscriptions st !! pk) as [c|] eqn:Hc; [by destruct (Hst pk c Hc)|done].
Qed.

Section among.
Context (P : Pubkey → Prop).

Lemma among_adds ok st st' :
  only_adds ok (packet_subscriptions st) (packet_subscriptions st') → among P st → among P st'.
Proof. intros Hadds Hst pk c Hc. destruct (Hadds pk c Hc) as (c0 & msgs & Hc0 & _). by eapply Hst. Qed.

Lemma metrics_keep_among {E} f : keeps (among P) (with_relayer_metrics f : Prog Relayer E unit).
Proof. by intros []. Qed.
Lemma drop_connections_keep_among {E} pks :
  keeps (among P) (drop_connections pks : Prog Relayer E unit).
Proof.
  intros st. eapply among_adds. exact (proj1 (drop_connections_keep_idle (E := E) st pks st (idle_refl st))).
Qed.
Lemma handle_heartbeat_keep_among {E} :
  keeps (among P) (handle_heartbeat : Prog Relayer E (list Pubkey)).
Proof. intros st. eapply among_adds. exact (proj1 (handle_heartbeat_keep_idle (E := E) st st (idle_refl st))). Qed.

(** Only a subscription adds a validator. *)
Lemma relayer_select_among config caps ev :
  match ev with SubscriptionArm (Some (pk, _)) _ => P pk | _ => True end →
  keeps (among P) (relayer_select config caps ev).
Proof.
  destruct ev as [[slot|] schedule us|batches us ts cache us'|[[pk sender]|] us|latency health us|latency us];
    intros Hev; [|by intros st| | |by intros st|..]; cbn [relayer_select].
  - apply keeps_bind; [|intros _; apply keeps_bind; [auto with keeps|intros highest];
      apply keeps_bind; [by intros []|intros _; apply metrics_keep_among]].
    unfold update_highest_slot, received_or_shutdown. apply keeps_bind; [auto with keeps|intros s].
    apply keeps_bind; [by intros []|intros _; apply metrics_keep_among].
  - apply keeps_bind; [|intros failed; apply keeps_bind;
      [apply drop_connections_keep_among|intros _; apply metrics_keep_among]].
    intros st. eapply among_adds, forward_packets_safe.
  - unfold handle_subscription, received_or_shutdown, with_relayer_metrics. intros [subs h l m r] Hst.
    prog_unfold. cbn. assert (among P {| packet_subscriptions := <[pk := sender]> subs; highest_slot := h;
      slot_leaders := l; relayer_metrics := m; reported := r |}) as Hin.
    { intros p c Hp. cbn in Hp. apply lookup_insert_Some in Hp as [[<- _]|[_ Hp]]; [done|by apply (Hst p c)]. }
    by destruct (subs !! pk).
  - apply keeps_bind; [destruct latency; [apply metrics_keep_among|auto with keeps]|intros _].
    apply keeps_bind; [destruct health; [auto with keeps|apply handle_heartbeat_keep_among]|intros pks].
    apply keeps_bind; [apply drop_connections_keep_among|intros _]. apply metrics_keep_among.
  - apply keeps_bind; [by intros []|intros _].
    apply keeps_bind; [destruct latency; [apply metrics_keep_among|auto with keeps]|intros _].
    apply keeps_bind; [apply metrics_keep_among|intros _]. destruct caps as [[]]. by intros [].
Qed.

Lemma after_receivers_among i st : among P st → among P (after_receivers i st).
Proof.
  destruct st as [subs h l m r]. intros Hst pk c. cbn. rewrite map_lookup_imap.
  intros (c0 & Hc0 & _)%bind_Some. by apply (Hst pk c0).
Qed.

Lemma relayer_iteration_among config i :
  match ri_event i with SubscriptionArm (Some (pk, _)) _ => P pk | _ => True end →
  keeps (among P) (relayer_iteration config i).
Proof.
  intros Hi st Hst pk c. rewrite (proj1 (relayer_iteration_select config i st)).
  apply relayer_select_among; [done|]. by apply after_receivers_among.
Qed.
End among.

(** While nobody is connected only a subscription changes that. *)
Definition no_subscription (i : RelayerInput) : Prop :=
  match ri_event i with SubscriptionArm (Some _) _ => False | _ => True end.

Lemma relayer_iteration_nobody config i st :
  (no_subscription i ∧ nobody st) ∨ (∃ latency us, ri_event i = HeartbeatArm latency Unhealthy us) →
  nobody (relayer_iteration config i st).2.
Proof.
  intros [[Hi Hst]|(latency & us & Hev)].
  - apply nobody_among, relayer_iteration_among; [|by apply nobody_among].
    unfold no_subscription in Hi. by destruct (ri_event i) as [| |[[]|]| |].
  - unfold nobody. rewrite (proj1 (relayer_iteration_select config i st)), Hev. cbn [relayer_select]. set (st0 := after_receivers i st).
    set (first := match latency with Some _ => _ | None => _ end).
    assert (∃ st1, first st0 = (Done tt, st1)) as [st1 Hr1]
      by (unfold first; destruct latency; by eexists).
    rewrite (prog_bind_done _ _ _ _ _ Hr1).
    destruct (drop_all_done (E := RelayerError) st1) as (st2 & Hr2 & Hl2).
    rewrite (prog_bind_done (gets _) _ _ _ _ eq_refl), (prog_bind_done _ _ _ _ _ Hr2).
    by destruct st2.
Qed.

(** From an unhealthy heartbeat tick on, until a subscription comes. *)
Lemma run_event_loop_nobody config i inputs st :
  (∃ latency us, ri_event i = HeartbeatArm latency Unhealthy us) →
  Forall no_subscription (live_inputs inputs) →
  nobody (run_event_loop config (Some i :: inputs) st).2.
Proof.
  intros Hi Hin. unfold run_event_loop. cbn [run_loop]. unfold mbind, Prog_bind.
  pose proof (relayer_iteration_nobody config i st (or_intror Hi)) as Hst.
  destruct (relayer_iteration config i st) as [[u|e|w] st1]; [|done..].
  refine (run_loop_invariant_inputs no_subscription nobody _ inputs st1 _ Hin Hst).
  intros i' st' Hi' Hst'. apply relayer_iteration_nobody. by left.
Qed.
End unhealthy.

Section stale_slots.
Context `{Sdk} `{!IpText} `{!Channels} `{!Histograms} `{!HashOrder Pubkey} `{!HashOrder Slot}.
Context `{!ChannelsLaws} `{!HashOrderLaws Pubkey}.
Context `{!Chrono} `{!Ed25519} `{!ProtoRoles} `{J : !Jwt DeSerClaims}.
Context `{Q : !KeyedPriorityQueue IpAddr AuthChallenge reverse_cmp}.
Context {V : Type} `{!ValidatorAuther V}.
Implicit Types (self : AuthServiceImpl (J := J) (V := V)) (q : kpq (KeyedPriorityQueue := Q)).

(** What the gRPC handlers do when they read [health]. *)
Definition handlers_refuse (health : HealthState) : Prop :=
  (∀ extension impl, ∃ e, subscribe_packets health extension impl = (Fail e, impl)) ∧
  (∀ self req q, cr_health req = health → ∃ e, generate_auth_challenge self req q = (Fail e, q)) ∧
  (∀ self req q, tr_health req = health → ∃ e, generate_auth_tokens self req q = (Fail e, q)) ∧
  (∀ self req q, rr_health req = health → ∃ e, refresh_access_token self req q = (Fail e, q)).

Lemma unhealthy_handlers_refuse : handlers_refuse Unhealthy.
Proof.
  split_and!; [by intros extension []; eexists|..]; intros self req q Hh; eexists.
  - unfold generate_auth_challenge, challenge_begin. by rewrite Hh.
  - unfold generate_auth_tokens, tokens_prepare. by rewrite Hh.
  - unfold refresh_access_token. by rewrite Hh.
Qed.

(** C6: When the slots stop, so does the service.  After a check tick that comes more
    than the threshold after the last slot, and until the next check tick, whatever
    arrives: any heartbeat tick of the event loop leaves no validator connected, and
    none is, whatever else the loop handles, until a subscription comes; and every
    request for a subscription, a challenge, tokens or a renewal is refused and changes
    nothing.  (The fifth handler, [get_tpu_configs], reads no health.) *)
Theorem stale_slots_stop_service threshold start evs lens now quiet qlens :
  channels_alive (evs ++ CheckTick now :: quiet) →
  length lens = S (length evs) → length qlens = length quiet →
  (∀ t, CheckTick t ∉ quiet) →
  threshold < now - last_slot_time start evs →
  ∃ h, manager_thread threshold (Some <$> zip (evs ++ CheckTick now :: quiet) (lens ++ qlens))
         (HealthManager_new start) = (Done Running, h) ∧
    (∀ config i latency us inputs st,
      ri_event i = HeartbeatArm latency (state h) us → Forall no_subscription (live_inputs inputs) →
      packet_subscriptions (run_event_loop config (Some i :: inputs) st).2 = ∅) ∧
    handlers_refuse (state h).
Proof.
  intros Halive Hlens Hqlens Hquiet Hstale.
  destruct (manager_thread_refines threshold (evs ++ CheckTick now :: quiet) (lens ++ qlens)
    (HealthManager_new start) Halive) as (h & Hrun & Hst & _); [rewrite !length_app; cbn; lia|].
  rewrite health_spec_after_check in Hst; [|unfold channels_alive in *; set_solver|done].
  unfold check_health_at in Hst. cbn [HealthManager_new last_update] in Hst.
  rewrite (proj2 (Z.leb_gt _ _) Hstale) in Hst.
  exists h. rewrite Hst. split; [done|]. split; [|apply unhealthy_handlers_refuse].
  intros config i latency us inputs st Hi Hin. apply run_event_loop_nobody; [by eauto|done].
Qed.
End stale_slots.

(** ** Concrete inputs *)

(** One server reports slot 7, which its thread sends downstream. *)
Definition toy_seven : Threads :=
  {| shared := {| slots := <["ws://a"%string := 7]> (slots (shared toy_threads));
                  LoadBalancer.highest_slot := 7; slots_sent := [7]; downstream_alive := true |};
     pcs := pcs toy_threads |}.
Lemma toy_seven_reachable : rtc lb_step toy_threads toy_seven.
Proof.
  eapply rtc_l; [apply (step_insert toy_threads 0 "ws://a" 7); [vm_refl|lia]|].
  eapply rtc_l; [apply (step_fetch_max _ 0 "ws://a" 7); vm_refl|].
  eapply rtc_l; [apply (step_send _ 0 "ws://a" 7); vm_refl|].
  match goal with |- rtc _ ?t _ => replace t with toy_seven by vm_refl end. reflexivity.
Qed.

(** The manager passes it on; the event loop has two validators, of which [a] leads slot
    nine. *)
Definition toy_leaders_config : RelayerConfig :=
  {| ofac_addresses := ∅; validator_packet_batch_size := 2; forward_all := false; slot_lookahead := 5 |}.
Definition toy_leaders_input (ev : RelayerEvent) : RelayerInput :=
  {| ri_receivers _ c := c; ri_event := ev; ri_capacities := (1, 1, 1); ri_lens := (0, 0, 0) |}.
Definition toy_leaders_inputs : list (option RelayerInput) :=
  [Some (toy_leaders_input (SubscriptionArm (Some ("a"%char, toy_sender false)) 1));
   Some (toy_leaders_input (SubscriptionArm (Some ("b"%char, toy_sender false)) 1));
   Some (toy_leaders_input (SlotArm (Some 7) {[9 := "a"%char; 30 := "b"%char]} 1))].

Lemma packets_follow_slots_witness :
  let st := (run_event_loop toy_leaders_config toy_leaders_inputs (Relayer_new (1, 1, 1))).2 in
  let i := toy_leaders_input (PacketArm (Some toy_packets) 9 (λ _ _, 3) ∅ 5) in
  let st' := (relayer_iteration toy_leaders_config i st).2 in
  (∃ c', packet_subscriptions st' !! "a"%char = Some c' ∧
    chan_queue c' = batch_msgs (λ _ _, 3) 0 (made_batches toy_leaders_config ∅ toy_packets) "a"%char ∧
    chan_queue c' ≠ []) ∧
  chan_queue <$> packet_subscriptions st' !! "b"%char = Some [].
Proof.
  intros st i st'. split; [|vm_refl].
  destruct (packets_follow_slots string id toy_servers toy_seven 10 0
    [Some (SlotReceived (Some 7) true 3, 0)] toy_leaders_config (1, 1, 1) toy_leaders_inputs Running st
    toy_seven_reachable) as (_ & _ & Hturn); [by exists []|by exists []|vm_refl|cbn; lia|].
  destruct (Hturn i toy_packets 9 (λ _ _, 3) ∅ 5 eq_refl) as [_ Hdue].
  assert (Hc : packet_subscriptions (after_receivers i st) !! "a"%char = Some (toy_sender false)) by vm_refl.
  destruct (Hdue ltac:(apply map_Forall_lookup; apply (bool_decide_unpack _); vm_compute; exact I) "a"%char _ Hc)
    as (c' & Hc' & Ha).
  { right. exists 7, {[9 := "a"%char; 30 := "b"%char]}, 9. split; [vm_refl|]. split; [split; by vm_compute|vm_refl]. }
  exists c'. split; [exact Hc'|]. injection Ha as Hq _ _.
  split; [etransitivity; [exact Hq|vm_refl]|].
  intros Hnil. pose proof (eq_trans (eq_sym Hnil) Hq) as Hno. vm_compute in Hno. discriminate Hno.
Defined.

Lemma stale_slots_stop_service_witness :
  let evs := [SlotReceived (Some 7) true 5] in
  let quiet := [SlotReceived (Some 8) true 30] in
  ∃ h, manager_thread 10 (Some <$> zip (evs ++ CheckTick 20 :: quiet) ([1; 1] ++ [1]))
         (HealthManager_new 0) = (Done Running, h) ∧
    packet_subscriptions (run_event_loop toy_leaders_config
      (toy_leaders_inputs ++ [Some (toy_leaders_input (HeartbeatArm None (state h) 3))])
      (Relayer_new (1, 1, 1))).2 = ∅.
Proof.
  intros evs quiet.
  destruct (stale_slots_stop_service (J := toy_jwt DeSerClaims)
    (Q := map_kpq reverse_cmp) (V := ValidatorStore) 10 0 evs [1; 1] 20 quiet [1])
    as (h & Hrun & Hloop & _); [|done|done| |vm_compute; reflexivity|].
  - intros s alive t Hin. subst evs quiet. cbn in Hin. rewrite !elem_of_cons in Hin.
    destruct Hin as [[= -> -> ->]|[[=]|[[= -> -> ->]|[]%not_elem_of_nil]]]; by split.
  - intros t Hin%list_elem_of_singleton. discriminate Hin.
  - exists h. split; [exact Hrun|]. unfold run_event_loop.
    set (st := (run_event_loop toy_leaders_config toy_leaders_inputs (Relayer_new (1, 1, 1))).2).
    rewrite (run_loop_app (relayer_iteration toy_leaders_config) toy_leaders_inputs _ _ st) by (vm_refl).
    eapply Hloop; [reflexivity|constructor].
Defined.
