(* ===== verification/BlockEngine.v ===== *)
(** * The block-engine client ([block_engine/src/block_engine.rs], [block_engine_stats.rs])

    The relayer's connection to a block engine: authentication and its renewal,
    the accounts and programs of interest, the packet filter, and the event loop
    that feeds the packet stream. *)

From S2P Require Import Prelude External Instances Ofac Packets AuthInterceptor.
From S2P Require Import HealthManager AuthChallenges AuthService.
Local Open Scope Z_scope.

(** ** Statistics *)

Record BlockEngineStats := {
  stat_heartbeat_count : Z; stat_heartbeat_elapsed_us : Z;
  aoi_update_count : Z; aoi_update_elapsed_us : Z; aoi_accounts_received : Z;
  poi_update_count : Z; poi_update_elapsed_us : Z; poi_accounts_received : Z;
  stat_num_packets_received : Z;
  packet_filter_elapsed_us : Z; packet_forward_elapsed_us : Z;
  block_engine_packet_sender_len : Z;
  auth_refresh_count : Z; refresh_auth_elapsed_us : Z;
  packet_forward_count : Z;
  metrics_delay_us : Z;
  accounts_of_interest_len : Z; programs_of_interest_len : Z; flush_elapsed_us : Z }.

Definition BlockEngineStats_default : BlockEngineStats :=
  {| stat_heartbeat_count := 0; stat_heartbeat_elapsed_us := 0;
     aoi_update_count := 0; aoi_update_elapsed_us := 0; aoi_accounts_received := 0;
     poi_update_count := 0; poi_update_elapsed_us := 0; poi_accounts_received := 0;
     stat_num_packets_received := 0;
     packet_filter_elapsed_us := 0; packet_forward_elapsed_us := 0;
     block_engine_packet_sender_len := 0;
     auth_refresh_count := 0; refresh_auth_elapsed_us := 0;
     packet_forward_count := 0; metrics_delay_us := 0;
     accounts_of_interest_len := 0; programs_of_interest_len := 0; flush_elapsed_us := 0 |}.

(** One definition for each method: [saturating_add], or [max] for the queue length. *)
Definition increment_heartbeat_count (n : Z) (s : BlockEngineStats) : BlockEngineStats := {s with stat_heartbeat_count ::= (λ x, u64_sat_add x n)}.
Definition increment_heartbeat_elapsed_us (n : Z) (s : BlockEngineStats) : BlockEngineStats := {s with stat_heartbeat_elapsed_us ::= (λ x, u64_sat_add x n)}.
Definition increment_aoi_update_count (n : Z) (s : BlockEngineStats) : BlockEngineStats := {s with aoi_update_count ::= (λ x, u64_sat_add x n)}.
Definition increment_aoi_update_elapsed_us (n : Z) (s : BlockEngineStats) : BlockEngineStats := {s with aoi_update_elapsed_us ::= (λ x, u64_sat_add x n)}.
Definition increment_aoi_accounts_received (n : Z) (s : BlockEngineStats) : BlockEngineStats := {s with aoi_accounts_received ::= (λ x, u64_sat_add x n)}.
Definition increment_poi_update_count (n : Z) (s : BlockEngineStats) : BlockEngineStats := {s with poi_update_count ::= (λ x, u64_sat_add x n)}.
Definition increment_poi_update_elapsed_us (n : Z) (s : BlockEngineStats) : BlockEngineStats := {s with poi_update_elapsed_us ::= (λ x, u64_sat_add x n)}.
Definition increment_poi_accounts_received (n : Z) (s : BlockEngineStats) : BlockEngineStats := {s with poi_accounts_received ::= (λ x, u64_sat_add x n)}.
Definition increment_num_packets_received (n : Z) (s : BlockEngineStats) : BlockEngineStats := {s with stat_num_packets_received ::= (λ x, u64_sat_add x n)}.
Definition increment_packet_filter_elapsed_us (n : Z) (s : BlockEngineStats) : BlockEngineStats := {s with packet_filter_elapsed_us ::= (λ x, u64_sat_add x n)}.
Definition increment_packet_forward_elapsed_us (n : Z) (s : BlockEngineStats) : BlockEngineStats := {s with packet_forward_elapsed_us ::= (λ x, u64_sat_add x n)}.
Definition update_block_engine_packet_sender_len (n : Z) (s : BlockEngineStats) : BlockEngineStats := {s with block_engine_packet_sender_len ::= (λ x, Z.max x n)}.
Definition increment_auth_refresh_count (n : Z) (s : BlockEngineStats) : BlockEngineStats := {s with auth_refresh_count ::= (λ x, u64_sat_add x n)}.
Definition increment_refresh_auth_elapsed_us (n : Z) (s : BlockEngineStats) : BlockEngineStats := {s with refresh_auth_elapsed_us ::= (λ x, u64_sat_add x n)}.
Definition increment_packet_forward_count (n : Z) (s : BlockEngineStats) : BlockEngineStats := {s with packet_forward_count ::= (λ x, u64_sat_add x n)}.
Definition increment_metrics_delay_us (n : Z) (s : BlockEngineStats) : BlockEngineStats := {s with metrics_delay_us ::= (λ x, u64_sat_add x n)}.
Definition increment_accounts_of_interest_len (n : Z) (s : BlockEngineStats) : BlockEngineStats := {s with accounts_of_interest_len ::= (λ x, u64_sat_add x n)}.
Definition increment_programs_of_interest_len (n : Z) (s : BlockEngineStats) : BlockEngineStats := {s with programs_of_interest_len ::= (λ x, u64_sat_add x n)}.
Definition increment_flush_elapsed_us (n : Z) (s : BlockEngineStats) : BlockEngineStats := {s with flush_elapsed_us ::= (λ x, u64_sat_add x n)}.

(** The fields of the datapoint, each cast to [i64]. *)
Definition stats_report (s : BlockEngineStats) : list (string * Z) :=
  map (prod_map id as_i64)
    [("heartbeat_count", stat_heartbeat_count s);
     ("heartbeat_elapsed_us", stat_heartbeat_elapsed_us s);
     ("aoi_update_count", aoi_update_count s);
     ("aoi_update_elapsed_us", aoi_update_elapsed_us s);
     ("aoi_accounts_received", aoi_accounts_received s);
     ("poi_update_count", poi_update_count s);
     ("poi_update_elapsed_us", poi_update_elapsed_us s);
     ("poi_accounts_received", poi_accounts_received s);
     ("num_packets_received", stat_num_packets_received s);
     ("packet_filter_elapsed_us", packet_filter_elapsed_us s);
     ("packet_forward_elapsed_us", packet_forward_elapsed_us s);
     ("block_engine_packet_sender_len", block_engine_packet_sender_len s);
     ("auth_refresh_count", auth_refresh_count s);
     ("refresh_auth_elapsed_us", refresh_auth_elapsed_us s);
     ("packet_forward_count", packet_forward_count s);
     ("metrics_delay_us", metrics_delay_us s);
     ("accounts_of_interest_len", accounts_of_interest_len s);
     ("programs_of_interest_len", programs_of_interest_len s);
     ("flush_elapsed_us", flush_elapsed_us s)].

(** ** Messages and errors *)

Inductive BlockEngineError :=
| AuthServiceFailure (why : string)
| BlockEngineFailure (why : string).

(** The generated messages the code builds or reads. *)
Record Token := { token_value : string; token_expires_at_utc : option Timestamp }.
Record ExpiringPacketBatch := {
  epb_header_ts : option Z;
  epb_batch : option ProtoPacketBatch;
  epb_expiry_ms : Z }.
Inductive PacketBatchUpdateMsg := Batches (batch : ExpiringPacketBatch) | BeHeartbeat (count : Z).
Record PacketBatchUpdate := { update_msg : option PacketBatchUpdateMsg }.

(** A short-circuiting [||] and [iter().any(..)] on effectful tests *)
Definition or_else {S E} (m1 m2 : Prog S E bool) : Prog S E bool :=
  m1 ≫= λ b : bool, if b then mret true else m2.
Fixpoint any_m {S E A} (f : A → Prog S E bool) (l : list A) : Prog S E bool :=
  match l with
  | [] => mret false
  | a :: l' => or_else (f a) (any_m f l')
  end.

(** ** Accounts and programs of interest *)

Section interest.
Context `{Sdk} `{!IpText} `{TC : !TimedCaches Pubkey}.

(** The two caches, and how many times the clock has been read by them. *)
Record Interest := {
  accounts_of_interest : TimedCache (TimedCaches := TC);
  programs_of_interest : TimedCache (TimedCaches := TC);
  reads : nat }.

(** [clock n] is the time of the [n]-th read. *)
Variable clock : nat → Z.

Definition get_aoi {E} (acc : Pubkey) : Prog Interest E bool :=
  λ st, let '(hit, c) := cache_get (clock (reads st)) acc (accounts_of_interest st) in
    (Done hit, {st with accounts_of_interest := c; reads ::= S}).
Definition get_poi {E} (acc : Pubkey) : Prog Interest E bool :=
  λ st, let '(hit, c) := cache_get (clock (reads st)) acc (programs_of_interest st) in
    (Done hit, {st with programs_of_interest := c; reads ::= S}).

Definition is_aoi_in_static_keys {E} (tx : VersionedTransaction) : Prog Interest E bool :=
  any_m (λ '(idx, acc),
      or_else (if is_maybe_writable tx idx then get_aoi acc else mret false) (get_poi acc))
    (imap pair (static_account_keys tx)).

Definition is_aoi_in_lookup_table {E} (tx : VersionedTransaction)
    (address_lookup_table_cache : gmap Pubkey (AddressLookupTableAccount Pubkey))
    : Prog Interest E bool :=
  match address_table_lookups tx with
  | Some lookup_tables =>
      any_m (λ table,
        match address_lookup_table_cache !! account_key table with
        | Some lookup_info =>
            or_else
              (any_m (λ idx,
                match addresses lookup_info !! Z.to_nat idx with
                | Some writable_account => or_else (get_aoi writable_account) (get_poi writable_account)
                | None => mret false
                end) (writable_indexes table))
              (any_m (λ idx,
                match addresses lookup_info !! Z.to_nat idx with
                | Some readonly_account => get_poi readonly_account
                | None => mret false
                end) (readonly_indexes table))
        | None => mret false
        end) lookup_tables
  | None => mret false
  end.

(** The test of one packet, and what it puts on [filtered_packets]. *)
Definition is_forwardable {E} (tx : VersionedTransaction)
    (cache : gmap Pubkey (AddressLookupTableAccount Pubkey)) (ofac_addresses : gset Pubkey)
    : Prog Interest E bool :=
  let of_interest := or_else (is_aoi_in_static_keys tx) (is_aoi_in_lookup_table tx cache) in
  if bool_decide (ofac_addresses = ∅) then of_interest
  else if negb (is_tx_ofac_related tx ofac_addresses cache) then of_interest else mret false.

Fixpoint filter_each {E} (cache : gmap Pubkey (AddressLookupTableAccount Pubkey))
    (ofac_addresses : gset Pubkey) (batch : list Packet) : Prog Interest E (list ProtoPacket) :=
  match batch with
  | [] => mret []
  | packet :: batch' =>
      if discard (packet_meta packet) then filter_each cache ofac_addresses batch'
      else
        match deserialize_slice packet with
        | None => filter_each cache ofac_addresses batch'
        | Some tx =>
            forward ← is_forwardable tx cache ofac_addresses;
            rest ← filter_each cache ofac_addresses batch';
            mret (if (forward : bool) then option_list (packet_to_proto_packet packet) ++ rest else rest)
        end
  end.

Definition filter_packets {E} (block_engine_batches : BlockEnginePackets)
    (cache : gmap Pubkey (AddressLookupTableAccount Pubkey)) (ofac_addresses : gset Pubkey)
    : Prog Interest E (option ExpiringPacketBatch) :=
  filtered_packets ←
    filter_each cache ofac_addresses (concat (be_banking_packet_batch block_engine_batches));
  mret (if negb (bool_decide (filtered_packets = [])) then
    Some {| epb_header_ts := Some (be_stamp block_engine_batches);
            epb_batch := Some {| packets := filtered_packets |};
            epb_expiry_ms := expiration block_engine_batches |}
  else None).

(** [handle_aoi] and [handle_poi] on a stream message: [inl] is an error status as
    text, [inr None] the end of the stream.  The updates read the clock one by one. *)
Definition parse_pubkeys (texts : list string) : list Pubkey := omap pubkey_from_str texts.

Definition handle_aoi (maybe_msg : string + option (list string))
    : Prog Interest BlockEngineError nat :=
  match maybe_msg with
  | inr (Some accounts) =>
      let pubkeys := parse_pubkeys accounts in
      for_each (λ pubkey, modify (λ st,
        {st with accounts_of_interest ::= cache_set (clock (reads st)) pubkey; reads ::= S})) pubkeys ;;
      mret (length pubkeys)
  | inr None => throw (BlockEngineFailure "aoi updates disconnected")
  | inl e => throw (BlockEngineFailure e)
  end.
Definition handle_poi (maybe_msg : string + option (list string))
    : Prog Interest BlockEngineError nat :=
  match maybe_msg with
  | inr (Some programs) =>
      let pubkeys := parse_pubkeys programs in
      for_each (λ pubkey, modify (λ st,
        {st with programs_of_interest ::= cache_set (clock (reads st)) pubkey; reads ::= S})) pubkeys ;;
      mret (length pubkeys)
  | inr None => throw (BlockEngineFailure "poi disconnected")
  | inl e => throw (BlockEngineFailure e)
  end.
End interest.

(** ** Authentication with the block engine *)

Section client.
Context `{Sdk} `{!IpText} `{!ProtoRoles} `{!ProstTime} `{!Keypairs} `{TC : !TimedCaches Pubkey}.

(** The [authorization] header the client's interceptor adds to each request; [None] is
    the panic of [parse().unwrap()] on a value that is no header, judged by
    [header_parses]. *)
Definition client_interceptor_call (header_parses : string → bool) (access_token : Token)
    : option string :=
  let header := (BEARER +:+ token_value access_token)%string in
  if header_parses header then Some header else None.

(** What [auth] sends. *)
Definition auth_challenge_request (keypair : Keypair) : Z * list Byte.byte :=
  (role_relayer, pubkey_to_bytes (keypair_pubkey keypair)).
Record AuthTokensRequest := {
  atr_challenge : string;
  atr_client_pubkey : list Byte.byte;
  atr_signed_challenge : list Byte.byte }.
Definition auth_tokens_request (keypair : Keypair) (challenge : string) : AuthTokensRequest :=
  let challenge := (pubkey_to_string (keypair_pubkey keypair) +:+ "-" +:+ challenge)%string in
  {| atr_challenge := challenge;
     atr_client_pubkey := pubkey_to_bytes (keypair_pubkey keypair);
     atr_signed_challenge := sign_message keypair (String.list_byte_of_string challenge) |}.

(** The server's answers: an error status as text, or the message. *)
Record AuthAnswers := {
  answer_challenge : string + string;
  answer_tokens : string + (option Token * option Token) }.

(** [e.map_err(|e| AuthServiceFailure(e.to_string()))?] *)
Definition auth_answer {S A} (answer : string + A) : Prog S BlockEngineError A :=
  match answer with inr a => mret a | inl e => throw (AuthServiceFailure e) end.

Definition auth {S} (answers : AuthAnswers) : Prog S BlockEngineError (Token * Token) :=
  _ ← auth_answer (answer_challenge answers);
  '(maybe_access_token, maybe_refresh_token) ← auth_answer (answer_tokens answers);
  match maybe_access_token, maybe_refresh_token with
  | Some access_token, Some refresh_token =>
      match token_expires_at_utc access_token, token_expires_at_utc refresh_token with
      | Some _, Some _ => mret (access_token, refresh_token)
      | _, _ => throw (AuthServiceFailure "auth tokens don't have valid expiration time")
      end
  | _, _ => throw (AuthServiceFailure "failed to get valid auth tokens")
  end.

(** [SystemTime::duration_since]: [None] when [t] is before [now] *)
Definition duration_since (t now : Z) : option Z := if now <=? t then Some (t - now) else None.
Definition expiring_soon (t now : Z) : bool :=
  match duration_since t now with
  | Some dur => dur <? 5 * 60 * nanos_per_sec
  | None => true
  end.
(** [SystemTime::try_from(token.expires_at_utc.as_ref().unwrap().clone()).unwrap()] *)
Definition expiration_time {S} (token : Token) : Prog S BlockEngineError Z :=
  ts ← unwrap "called `Option::unwrap()` on a `None` value" (token_expires_at_utc token);
  unwrap "TimestampError" (systemtime_try_from ts).

(** ** The event loop *)

Definition BLOCK_ENGINE_PACKET_QUEUE_CAPACITY : Z := 1000.

(** The state of the handler: its queue of batches, the flag it shares, its tokens, the
    locals of [handle_packet_stream], the updates sent, and how many more sends
    succeed before the stream's receiver is gone ([None]: it stays). *)
Record BlockEngine := {
  block_engine_receiver : list BlockEnginePackets;
  is_connected_to_block_engine : bool;
  shared_access_token : Token;
  refresh_token_held : Token;
  interest : Interest;
  heartbeat_count : Z;
  block_engine_stats : BlockEngineStats;
  updates_sent : list PacketBatchUpdate;
  sender_accepts : option nat;
  stats_reports : list (list (string * Z)) }.

Definition with_stats (f : BlockEngineStats → BlockEngineStats)
    : Prog BlockEngine BlockEngineError unit :=
  modify (λ st, {st with block_engine_stats ::= f}).

(** Run code that works on the two caches. *)
Definition on_interest {A} (m : Prog Interest BlockEngineError A)
    : Prog BlockEngine BlockEngineError A :=
  λ st, let '(r, i) := m (interest st) in (r, {st with interest := i}).

(** [block_engine_packet_sender.send(update).await] *)
Definition send_update (update : PacketBatchUpdate) (failure : string)
    : Prog BlockEngine BlockEngineError unit :=
  λ st,
    match sender_accepts st with
    | Some O => (Fail (BlockEngineFailure failure), st)
    | room => (Done tt, {st with updates_sent ::= (λ l, l ++ [update]);
                                 sender_accepts := pred <$> room})
    end.

Definition check_and_send_heartbeat (heartbeat_count : Z) : Prog BlockEngine BlockEngineError unit :=
  send_update {| update_msg := Some (BeHeartbeat heartbeat_count) |} "error sending heartbeat".

Definition be_forward_packets (batch : ExpiringPacketBatch) : Prog BlockEngine BlockEngineError Z :=
  packets_batch ← unwrap "called `Option::unwrap()` on a `None` value" (epb_batch batch);
  send_update {| update_msg := Some (Batches batch) |} "error forwarding packets" ;;
  mret (Z.of_nat (length (packets packets_batch))).

(** [now_access] and [now_refresh] are the two readings of the clock; [answers] and
    [answer_refresh] what the server answers if it is asked. *)
Record RefreshInput := {
  rf_now_access : Z;
  rf_now_refresh : Z;
  rf_auth : AuthAnswers;
  rf_refresh : string + option Token }.

Definition maybe_refresh_auth (i : RefreshInput) : Prog BlockEngine BlockEngineError bool :=
  st ← gets id;
  access_token_expiration_time ← expiration_time (shared_access_token st);
  refresh_token_expiration_time ← expiration_time (refresh_token_held st);
  match expiring_soon refresh_token_expiration_time (rf_now_refresh i),
        expiring_soon access_token_expiration_time (rf_now_access i) with
  | true, _ =>
      '(access_token, new_refresh_token) ← auth (rf_auth i);
      modify (λ st, {st with refresh_token_held := new_refresh_token;
                             shared_access_token := access_token}) ;;
      mret true
  | false, true =>
      maybe_access_token ← auth_answer (rf_refresh i);
      access_token ← ok_or (AuthServiceFailure "missing access token") maybe_access_token;
      modify (λ st, {st with shared_access_token := access_token}) ;;
      mret true
  | false, false => mret false
  end.

(** What the [select!] of one iteration takes, with what its arm then reads; the [us]
    are the durations it measures, [clock] the times the caches read. *)
Inductive StreamEvent :=
| HeartbeatTick (us : Z)
| AoiMessage (maybe_aoi : string + option (list string)) (us : Z)
| PoiMessage (maybe_poi : string + option (list string)) (us : Z)
| BatchesReceived (batches : option BlockEnginePackets)
    (cache : gmap Pubkey (AddressLookupTableAccount Pubkey)) (filter_us forward_us : Z)
| AuthRefreshTick (i : RefreshInput) (us : Z)
| MetricsTick (delay_us : Z) (now_aoi now_poi : Z) (flush_us : Z).

Variable ofac_addresses : gset Pubkey.

Definition handle_stream_event (clock : nat → Z) (ev : StreamEvent)
    : Prog BlockEngine BlockEngineError unit :=
  match ev with
  | HeartbeatTick us =>
      count ← gets heartbeat_count;
      check_and_send_heartbeat count ;;
      with_stats (increment_heartbeat_elapsed_us us) ;;
      with_stats (increment_heartbeat_count 1) ;;
      modify (λ st, {st with heartbeat_count ::= (λ x, u64_add x 1)})
  | AoiMessage maybe_aoi us =>
      num_pubkeys ← on_interest (handle_aoi clock maybe_aoi);
      with_stats (increment_aoi_update_elapsed_us us) ;;
      with_stats (increment_aoi_update_count 1) ;;
      with_stats (increment_aoi_accounts_received (Z.of_nat num_pubkeys))
  | PoiMessage maybe_poi us =>
      num_pubkeys ← on_interest (handle_poi clock maybe_poi);
      with_stats (increment_poi_update_elapsed_us us) ;;
      with_stats (increment_poi_update_count 1) ;;
      with_stats (increment_poi_accounts_received (Z.of_nat num_pubkeys))
  | BatchesReceived batches cache filter_us forward_us =>
      batches ← ok_or (BlockEngineFailure "block engine packet receiver disconnected") batches;
      with_stats (increment_num_packets_received (count_packets (be_banking_packet_batch batches))) ;;
      filtered ← on_interest (filter_packets clock batches cache ofac_addresses);
      with_stats (increment_packet_filter_elapsed_us filter_us) ;;
      match filtered with
      | Some filtered_packets =>
          n ← be_forward_packets filtered_packets;
          with_stats (increment_packet_forward_count n) ;;
          with_stats (increment_packet_forward_elapsed_us forward_us)
      | None => mret tt
      end
  | AuthRefreshTick i us =>
      did_refresh ← maybe_refresh_auth i;
      (if (did_refresh : bool) then with_stats (increment_auth_refresh_count 1) else mret tt) ;;
      with_stats (increment_refresh_auth_elapsed_us us)
  | MetricsTick delay_us now_aoi now_poi flush_us =>
      with_stats (increment_metrics_delay_us delay_us) ;;
      on_interest (modify (λ st, {st with accounts_of_interest ::= cache_flush now_aoi;
                                          programs_of_interest ::= cache_flush now_poi})) ;;
      with_stats (increment_flush_elapsed_us flush_us) ;;
      i ← gets interest;
      with_stats (increment_accounts_of_interest_len (Z.of_nat (cache_size (accounts_of_interest i)))) ;;
      with_stats (increment_programs_of_interest_len (Z.of_nat (cache_size (programs_of_interest i)))) ;;
      modify (λ st, {st with stats_reports ::= (λ l, l ++ [stats_report (block_engine_stats st)]);
                             block_engine_stats := BlockEngineStats_default})
  end.

(** One turn of the loop, with the sender's capacity read at its end. *)
Definition stream_iteration (clock : nat → Z) (i : StreamEvent * Z)
    : Prog BlockEngine BlockEngineError unit :=
  handle_stream_event clock i.1 ;;
  with_stats (update_block_engine_packet_sender_len
    (u64_sub BLOCK_ENGINE_PACKET_QUEUE_CAPACITY i.2)).

(** [handle_packet_stream]: the batches already queued are dropped, the connection is
    announced, and the locals start afresh. *)
Definition handle_packet_stream (aoi_cache_ttl_s : Z) (accepts : option nat) (clock : nat → Z)
    (events : list (option (StreamEvent * Z))) : Prog BlockEngine BlockEngineError LoopStatus :=
  modify (λ st, {st with
    block_engine_receiver := [];
    is_connected_to_block_engine := true;
    interest := {| accounts_of_interest := with_lifespan_and_capacity aoi_cache_ttl_s 1000000;
                   programs_of_interest := with_lifespan_and_capacity aoi_cache_ttl_s 1000000;
                   reads := 0 |};
    heartbeat_count := 0;
    block_engine_stats := BlockEngineStats_default;
    sender_accepts := accepts}) ;;
  run_loop (stream_iteration clock) events.

(** ** One connection, and the thread *)

(** What one connection meets on its way: the validity of the URLs and of the TLS
    configuration, the answers to the connections, subscriptions and authentication
    (an error as text), the clock, whether info is logged, and the stream. *)
Record SessionInput := {
  se_auth_url : string;
  se_block_engine_url : string;
  se_url_valid : string → bool;
  se_tls_valid : string → bool;
  se_auth_connect : string + unit;
  se_auth : AuthAnswers;
  se_info_enabled : bool;
  se_now_access : Z;
  se_now_refresh : Z;
  se_block_engine_connect : string + unit;
  se_subscribe_aoi : string + unit;
  se_subscribe_poi : string + unit;
  se_packet_stream : string + unit;
  se_accepts : option nat;
  se_clock : nat → Z;
  se_events : list (option (StreamEvent * Z)) }.

(** [url.contains("https")] *)
Fixpoint contains_https (s : string) : bool :=
  match strip_prefix "https" s, s with
  | Some _, _ => true
  | None, String _ s' => contains_https s'
  | None, EmptyString => false
  end.

(** [Endpoint::from_str(url)], TLS when the URL asks for it, [connect()] *)
Definition connect_endpoint (i : SessionInput) (url : string) (connect : string + unit)
    (valid : string) (failure : string → BlockEngineError) : Prog BlockEngine BlockEngineError unit :=
  assert (se_url_valid i url) valid ;;
  (if contains_https url then assert (se_tls_valid i url) "invalid tls config" else mret tt) ;;
  match connect with inr _ => mret tt | inl e => throw (failure e) end.

Definition block_engine_answer {A} (answer : string + A) : Prog BlockEngine BlockEngineError A :=
  match answer with inr a => mret a | inl e => throw (BlockEngineFailure e) end.

Definition start_event_loop (aoi_cache_ttl_s : Z) (i : SessionInput)
    : Prog BlockEngine BlockEngineError LoopStatus :=
  block_engine_answer (se_subscribe_aoi i) ;;
  block_engine_answer (se_subscribe_poi i) ;;
  block_engine_answer (se_packet_stream i) ;;
  handle_packet_stream aoi_cache_ttl_s (se_accepts i) (se_clock i) (se_events i).

Definition auth_and_connect (aoi_cache_ttl_s : Z) (i : SessionInput)
    : Prog BlockEngine BlockEngineError LoopStatus :=
  connect_endpoint i (se_auth_url i) (se_auth_connect i) "valid auth url" AuthServiceFailure ;;
  '(access_token, refresh_token) ← auth (se_auth i);
  access_token_expiration ← expiration_time access_token;
  refresh_token_expiration ← expiration_time refresh_token;
  (if se_info_enabled i then
     unwrap "SystemTimeError" (duration_since access_token_expiration (se_now_access i)) ;;
     unwrap "SystemTimeError" (duration_since refresh_token_expiration (se_now_refresh i)) ;;
     mret tt
   else mret tt) ;;
  modify (λ st, {st with shared_access_token := access_token;
                         refresh_token_held := refresh_token}) ;;
  connect_endpoint i (se_block_engine_url i) (se_block_engine_connect i) "valid block engine url"
    BlockEngineFailure ;;
  start_event_loop aoi_cache_ttl_s i.

(** The handler thread: one connection after the other until the exit flag is read as
    set.  [Running] when the inputs end in the middle of a connection. *)
Fixpoint block_engine_thread (aoi_cache_ttl_s : Z) (sessions : list (option SessionInput))
    : Prog BlockEngine Empty_set LoopStatus :=
  match sessions with
  | [] => mret Running
  | None :: _ => mret Exited
  | Some i :: rest => λ st,
      match auth_and_connect aoi_cache_ttl_s i st with
      | (Done Running, st') => (Done Running, st')
      | (Panicked w, st') => (Panicked w, st')
      | (Done Exited, st') | (Fail _, st') =>
          block_engine_thread aoi_cache_ttl_s rest {st' with is_connected_to_block_engine := false}
      end
  end.
End client.

(** ** The handler *)

Record BlockEngineConfig := { block_engine_url : string; auth_service_url : string }.

Section handler.
Context `{Sdk} `{!IpText} `{!ProtoRoles} `{!ProstTime} `{!Keypairs} `{TC : !TimedCaches Pubkey}.
Context `{!Channels}.

(** [BlockEngineRelayerHandler::new]: a configuration starts the thread, which takes the
    receiving end of the forwarder's channel; without one there is no thread, and the
    receiver is dropped when [new] returns. *)
Definition BlockEngineRelayerHandler_new (block_engine_config : option BlockEngineConfig)
    (block_engine_sender : chan BlockEnginePackets)
    : option BlockEngineConfig * chan BlockEnginePackets :=
  match block_engine_config with
  | Some config => (Some config, block_engine_sender)
  | None => (None, drop_receiver block_engine_sender)
  end.

(** What the handler's thread, if there is one, does to the state: its connections are
    made to the configured URLs. *)
Definition block_engine_handler (handler : option BlockEngineConfig) (ofac_addresses : gset Pubkey)
    (aoi_cache_ttl_s : Z) (sessions : list (option SessionInput)) (st : BlockEngine) : BlockEngine :=
  match handler with
  | Some config =>
      (block_engine_thread ofac_addresses aoi_cache_ttl_s
        (map (option_map (λ i, {i with se_auth_url := auth_service_url config;
                                       se_block_engine_url := block_engine_url config}))
           sessions) st).2
  | None => st
  end.
End handler.

(** ** Theorems: the filter *)

Section filter_theorems.
Context `{Sdk} `{!IpText} `{TC : !TimedCaches Pubkey} `{!TimedCachesLaws Pubkey}.
Implicit Types (cache : gmap Pubkey (AddressLookupTableAccount Pubkey)).

(** The reference: which transactions are of interest, given which accounts and
    programs are. *)
Definition of_interest (account program : Pubkey → bool) cache (tx : VersionedTransaction) : bool :=
  existsb (λ '(idx, acc), (is_maybe_writable tx idx && account acc) || program acc)
    (imap pair (static_account_keys tx)) ||
  match address_table_lookups tx with
  | None => false
  | Some tables =>
      existsb (λ table,
        match cache !! account_key table with
        | None => false
        | Some info =>
            existsb (λ idx, match addresses info !! Z.to_nat idx with
                            | Some acc => account acc || program acc | None => false end)
              (writable_indexes table) ||
            existsb (λ idx, match addresses info !! Z.to_nat idx with
                            | Some acc => program acc | None => false end)
              (readonly_indexes table)
        end) tables
  end.

Definition forwards (account program : Pubkey → bool) cache ofac (packet : Packet) : option ProtoPacket :=
  if discard (packet_meta packet) then None
  else
    tx ← deserialize_slice packet;
    if (bool_decide (ofac = ∅) || negb (is_tx_ofac_related tx ofac cache))
       && of_interest account program cache tx
    then packet_to_proto_packet packet else None.

Lemma forwards_unfold account program cache ofac packet :
  forwards account program cache ofac packet =
  if discard (packet_meta packet) then None
  else
    tx ← deserialize_slice packet;
    if (bool_decide (ofac = ∅) || negb (is_tx_ofac_related tx ofac cache))
       && of_interest account program cache tx
    then packet_to_proto_packet packet else None.
Proof. done. Qed.

Variables (clock : nat → Z) (lo hi : Z).
Hypothesis clock_mono : ∀ i j, (i ≤ j)%nat → clock i <= clock j.
Hypothesis clock_range : ∀ n, lo <= clock n <= hi.
Variables (a0 p0 : TimedCache (TimedCaches := TC)).

(** The caches answer as they did at the start, from the next reading on. *)
Definition unchanged_since (st : Interest) : Prop :=
  ∀ t k, clock (reads st) <= t →
    cache_live (accounts_of_interest st) t k = cache_live a0 t k ∧
    cache_live (programs_of_interest st) t k = cache_live p0 t k.

(** The test [m] succeeds when [at_end] does and only if [at_start] does. *)
Definition between {E} (m : Prog Interest E bool) (at_end at_start : bool) : Prop :=
  ∀ st, unchanged_since st → ∃ b st', m st = (Done b, st') ∧ unchanged_since st' ∧
    (at_end = true → b = true) ∧ (b = true → at_start = true).

Lemma between_ret {E} b : between (E := E) (mret b) b b.
Proof. intros st Hst. by exists b, st. Qed.

Lemma between_or_else {E} (m1 m2 : Prog Interest E bool) y1 n1 y2 n2 :
  between m1 y1 n1 → between m2 y2 n2 → between (or_else m1 m2) (y1 || y2) (n1 || n2).
Proof.
  intros Hm1 Hm2 st Hst. destruct (Hm1 st Hst) as (b1 & st1 & Hr1 & Hst1 & Hy1 & Hn1).
  unfold or_else. rewrite (prog_bind_done _ _ _ _ _ Hr1). destruct b1.
  - exists true, st1. rewrite Hn1 by done. by split_and!.
  - destruct (Hm2 st1 Hst1) as (b2 & st2 & Hr2 & Hst2 & Hy2 & Hn2).
    exists b2, st2. split_and!; [done..| |].
    + intros [?|?]%orb_true_iff; [by specialize (Hy1 ltac:(done))|auto].
    + intros. apply orb_true_iff. auto.
Qed.

Lemma between_any {E A} (f : A → Prog Interest E bool) y n l :
  (∀ x, between (f x) (y x) (n x)) → between (any_m f l) (existsb y l) (existsb n l).
Proof.
  intros Hf. induction l as [|x l IH]; cbn; [apply between_ret|]. by apply between_or_else.
Qed.

Lemma clock_step st : clock (reads st) <= clock (S (reads st)).
Proof. apply clock_mono. lia. Qed.

Lemma between_get_aoi {E} acc :
  between (E := E) (get_aoi clock acc) (cache_live a0 hi acc) (cache_live a0 lo acc).
Proof.
  intros st Hst. unfold get_aoi.
  pose proof (cache_get_live (clock (reads st)) acc (accounts_of_interest st)) as Hhit.
  pose proof (λ t k Ht, cache_get_keeps (clock (reads st)) acc (accounts_of_interest st) t k Ht) as Hkeep.
  destruct (cache_get (clock (reads st)) acc (accounts_of_interest st)) as [hit c]. cbn in *.
  pose proof (clock_step st). pose proof (clock_range (reads st)).
  eexists hit, _. split; [done|]. rewrite (proj1 (Hst _ acc ltac:(reflexivity))) in Hhit.
  destruct st as [a p r]. cbn in *. split_and!.
  - intros t k Ht. cbn in *. rewrite Hkeep by lia. apply Hst. cbn. lia.
  - rewrite Hhit. apply cache_live_expires. lia.
  - rewrite Hhit. apply cache_live_expires. lia.
Qed.

Lemma between_get_poi {E} acc :
  between (E := E) (get_poi clock acc) (cache_live p0 hi acc) (cache_live p0 lo acc).
Proof.
  intros st Hst. unfold get_poi.
  pose proof (cache_get_live (clock (reads st)) acc (programs_of_interest st)) as Hhit.
  pose proof (λ t k Ht, cache_get_keeps (clock (reads st)) acc (programs_of_interest st) t k Ht) as Hkeep.
  destruct (cache_get (clock (reads st)) acc (programs_of_interest st)) as [hit c]. cbn in *.
  pose proof (clock_step st). pose proof (clock_range (reads st)).
  eexists hit, _. split; [done|]. rewrite (proj2 (Hst _ acc ltac:(reflexivity))) in Hhit.
  destruct st as [a p r]. cbn in *. split_and!.
  - intros t k Ht. cbn in *. rewrite Hkeep by lia. apply Hst. cbn. lia.
  - rewrite Hhit. apply cache_live_expires. lia.
  - rewrite Hhit. apply cache_live_expires. lia.
Qed.
Local Hint Resolve between_ret between_or_else between_any between_get_aoi between_get_poi : relayer.

Lemma between_of_interest {E} cache tx :
  between (E := E) (or_else (is_aoi_in_static_keys clock tx) (is_aoi_in_lookup_table clock tx cache))
    (of_interest (cache_live a0 hi) (cache_live p0 hi) cache tx)
    (of_interest (cache_live a0 lo) (cache_live p0 lo) cache tx).
Proof.
  unfold of_interest. apply between_or_else.
  - apply between_any. intros [idx acc]. apply between_or_else; [|auto with relayer].
    destruct (is_maybe_writable tx idx); cbn; auto with relayer.
  - unfold is_aoi_in_lookup_table. destruct (address_table_lookups tx); [|auto with relayer].
    apply between_any. intros table. destruct (cache !! account_key table); [|auto with relayer].
    apply between_or_else; apply between_any; intros idx;
      destruct (_ !! Z.to_nat idx); auto with relayer.
Qed.

Lemma filter_each_between {E} cache ofac batch st :
  unchanged_since st →
  ∃ out st', filter_each (E := E) clock cache ofac batch st = (Done out, st') ∧ unchanged_since st' ∧
    sublist (omap (forwards (cache_live a0 hi) (cache_live p0 hi) cache ofac) batch) out ∧
    sublist out (omap (forwards (cache_live a0 lo) (cache_live p0 lo) cache ofac) batch).
Proof.
  revert st; induction batch as [|packet batch IH]; intros st Hst; cbn [filter_each omap list_omap].
  { by exists [], st. }
  rewrite !forwards_unfold.
  destruct (discard (packet_meta packet)); [by apply IH|].
  destruct (deserialize_slice packet) as [tx|]; [|by apply IH]. cbn [mbind option_bind].
  assert (Hf : between (E := E) (is_forwardable clock tx cache ofac)
    ((bool_decide (ofac = ∅) || negb (is_tx_ofac_related tx ofac cache)) &&
      of_interest (cache_live a0 hi) (cache_live p0 hi) cache tx)
    ((bool_decide (ofac = ∅) || negb (is_tx_ofac_related tx ofac cache)) &&
      of_interest (cache_live a0 lo) (cache_live p0 lo) cache tx)).
  { unfold is_forwardable. destruct (bool_decide (ofac = ∅)); [apply between_of_interest|].
    destruct (is_tx_ofac_related tx ofac cache); cbn; [apply between_ret|apply between_of_interest]. }
  destruct (Hf st Hst) as (b & st1 & Hr1 & Hst1 & Hy & Hn).
  destruct (IH st1 Hst1) as (out & st2 & Hr2 & Hst2 & Hsub1 & Hsub2).
  rewrite (prog_bind_done _ _ _ _ _ Hr1), (prog_bind_done _ _ _ _ _ Hr2).
  eexists _, st2. split; [done|]. split; [done|].
  destruct (_ && of_interest (cache_live a0 hi) _ _ _); [rewrite Hy in * by done|];
    destruct (_ && of_interest (cache_live a0 lo) _ _ _); try (specialize (Hn ltac:(done)); done);
    destruct b; try (specialize (Hn ltac:(done)); done);
    destruct (packet_to_proto_packet packet); cbn; auto using sublist_cons, sublist_skip.
Qed.

(** C23: The filter forwards, in order, the undiscarded packets that parse as a
    transaction of interest which mentions no listed address: at least those whose
    interest lasts until the end of the call, at most those of interest at its
    start (entries may expire while it runs); it makes a batch exactly when some
    packet passes, stamped and expiring as received. *)
Theorem filter_packets_spec {E} batches cache ofac st :
  accounts_of_interest st = a0 → programs_of_interest st = p0 →
  ∃ out st', filter_packets (E := E) clock batches cache ofac st =
      (Done (if decide (out = []) then None
             else Some {| epb_header_ts := Some (be_stamp batches);
                          epb_batch := Some {| packets := out |};
                          epb_expiry_ms := expiration batches |}), st') ∧
    sublist (omap (forwards (cache_live a0 hi) (cache_live p0 hi) cache ofac)
      (concat (be_banking_packet_batch batches))) out ∧
    sublist out (omap (forwards (cache_live a0 lo) (cache_live p0 lo) cache ofac)
      (concat (be_banking_packet_batch batches))).
Proof.
  intros Ha Hp.
  destruct (filter_each_between (E := E) cache ofac (concat (be_banking_packet_batch batches)) st)
    as (out & st' & Hr & _ & Hsub1 & Hsub2); [intros t k _; by rewrite Ha, Hp|].
  exists out, st'. split_and!; [|done..]. unfold filter_packets.
  rewrite (prog_bind_done _ _ _ _ _ Hr). unfold mret, Prog_ret.
  case_bool_decide; cbn; [by rewrite decide_True|by rewrite decide_False].
Qed.
End filter_theorems.

(** Whatever the caches answer, only packets that may leave pass the filter. *)
Lemma filter_each_may_forward `{Sdk} `{!IpText} `{TC : !TimedCaches Pubkey} {E}
    clock cache ofac received batch st out st' :
  filter_each (E := E) (TC := TC) clock cache ofac batch st = (Done out, st') →
  batch ⊆ concat received →
  Forall (may_forward ofac cache received) out.
Proof.
  intros Hrun Hsub. revert st out Hrun; induction batch as [|packet batch IH]; intros st out; cbn [filter_each].
  { by intros [= <- _]. }
  assert (Hrest : batch ⊆ concat received) by set_solver. specialize (IH Hrest). clear Hrest.
  destruct (discard (packet_meta packet)) eqn:Hd; [by apply IH|].
  destruct (deserialize_slice packet) as [tx|] eqn:Htx; [|by apply IH].
  assert (packet ∈ concat received) as (b0 & Hin & Hb0)%list_elem_of_In%in_concat by set_solver.
  intros (b & st1 & Hf & (rest & st2 & Hrest & [= <- <-])%prog_bind_inv)%prog_bind_inv.
  apply IH in Hrest. destruct b; [|done]. apply Forall_app. split; [|done].
  destruct (packet_to_proto_packet packet) as [p|] eqn:Hp; [|done]. apply Forall_singleton.
  exists b0, packet. rewrite !list_elem_of_In. split_and!; [done..|]. intros Hne. exists tx. split; [done|].
  intros acc. apply unrelated_mentions. unfold is_forwardable in Hf.
  rewrite bool_decide_eq_false_2 in Hf by done.
  by destruct (is_tx_ofac_related tx ofac cache).
Qed.

(** ** Theorems: the connection *)

Section client_theorems.
Context `{Sdk} `{!IpText} `{!ProtoRoles} `{!ProstTime} `{!Keypairs} `{TC : !TimedCaches Pubkey}.
Implicit Types (st : BlockEngine).

(** What may be sent on the stream after the events [evs]: heartbeats, and batches with
    the stamp and the expiry of a delivery, made of packets of it that may leave. *)
Definition update_ok (ofac : gset Pubkey) (evs : list StreamEvent) (u : PacketBatchUpdate) : Prop :=
  match update_msg u with
  | Some (BeHeartbeat _) => True
  | Some (Batches b) => ∃ batches cache filter_us forward_us batch,
      BatchesReceived (Some batches) cache filter_us forward_us ∈ evs ∧
      b = {| epb_header_ts := Some (be_stamp batches); epb_batch := Some batch;
             epb_expiry_ms := expiration batches |} ∧
      packets batch ≠ [] ∧
      Forall (may_forward ofac cache (be_banking_packet_batch batches)) (packets batch)
  | None => False
  end.
Definition sent_ok ofac evs st : Prop := Forall (update_ok ofac evs) (updates_sent st).

(** The events of a run of the thread. *)
Definition session_events (sessions : list (option SessionInput)) : list StreamEvent :=
  flat_map (λ i, (live_inputs (se_events i)).*1) (live_inputs sessions).

(** [m] never sends anything but such updates. *)
Definition sends_ok {A} (ofac : gset Pubkey) (evs : list StreamEvent) (m : Prog BlockEngine BlockEngineError A) : Prop :=
  keeps (sent_ok ofac evs) m.

Lemma sends_ok_bind {A B} ofac evs (m : Prog BlockEngine BlockEngineError A)
    (f : A → Prog BlockEngine BlockEngineError B) :
  sends_ok ofac evs m → (∀ a, sends_ok ofac evs (f a)) → sends_ok ofac evs (m ≫= f).
Proof. apply keeps_bind. Qed.
Lemma sends_ok_modify ofac evs f :
  (∀ st, updates_sent (f st) = updates_sent st) → sends_ok ofac evs (modify f).
Proof. intros Hf. apply keeps_modify. intros st. unfold sent_ok. by rewrite Hf. Qed.
Lemma sends_ok_ok_or {A B} ofac evs e (a : A) (f : A → Prog BlockEngine BlockEngineError B) :
  sends_ok ofac evs (f a) → sends_ok ofac evs (ok_or e (Some a) ≫= f).
Proof. exact id. Qed.
Lemma sends_ok_stats ofac evs f : sends_ok ofac evs (with_stats f).
Proof. apply sends_ok_modify. by intros []. Qed.
Lemma sends_ok_on_interest {A} ofac evs (m : Prog Interest BlockEngineError A) : sends_ok ofac evs (on_interest m).
Proof. intros [] Hst. unfold on_interest. cbn. by destruct (m _) as [[] ?]. Qed.
Lemma sends_ok_send ofac evs u e : update_ok ofac evs u → sends_ok ofac evs (send_update u e).
Proof.
  intros Hu [] Hst. unfold send_update, sent_ok in *. cbn in *.
  destruct (sender_accepts0) as [[|n]|]; cbn; [done|..]; apply Forall_app; split; [done|by constructor|done|by constructor].
Qed.
Local Hint Resolve sends_ok_bind sends_ok_stats sends_ok_on_interest sends_ok_send : relayer.
Local Hint Extern 5 (sends_ok _ _ _) => apply keeps_reads_only; solve [auto with relayer] : relayer.

Lemma reads_only_auth {S} answers : reads_only (auth (S := S) answers).
Proof.
  unfold auth, auth_answer. apply reads_only_bind; [by destruct (answer_challenge answers)|intros _].
  apply reads_only_bind; [by destruct (answer_tokens answers)|].
  intros [[a|] [r|]]; [|done..]. by destruct (token_expires_at_utc a), (token_expires_at_utc r).
Qed.
Lemma reads_only_expiration_time {S} t : reads_only (expiration_time (S := S) t).
Proof. unfold expiration_time. auto with relayer. Qed.
Lemma reads_only_connect i url c v f : reads_only (connect_endpoint i url c v f).
Proof.
  unfold connect_endpoint. apply reads_only_bind; [auto with relayer|intros _].
  apply reads_only_bind; [destruct (contains_https url); auto with relayer|intros _]. by destruct c.
Qed.
Lemma reads_only_answer {A} (a : string + A) : reads_only (block_engine_answer a).
Proof. by destruct a. Qed.
Local Hint Resolve reads_only_auth reads_only_expiration_time reads_only_connect reads_only_answer
  : relayer.

(** The batch sent is made of packets of the delivery that is in hand. *)
Lemma sends_ok_forward ofac evs clock b cache filter_us forward_us :
  BatchesReceived (Some b) cache filter_us forward_us ∈ evs →
  sends_ok ofac evs (filtered ← on_interest (filter_packets clock b cache ofac);
    with_stats (increment_packet_filter_elapsed_us filter_us) ;;
    match filtered with
    | Some filtered_packets =>
        n ← be_forward_packets filtered_packets;
        with_stats (increment_packet_forward_count n) ;;
        with_stats (increment_packet_forward_elapsed_us forward_us)
    | None => mret tt
    end).
Proof.
  intros Hin st Hst. unfold mbind at 1, Prog_bind at 1.
  destruct (on_interest (filter_packets clock b cache ofac) st) as [r st1] eqn:Hf.
  assert (Hst1 : sent_ok ofac evs st1).
  { pose proof (sends_ok_on_interest ofac evs (filter_packets clock b cache ofac) st Hst) as Hs.
    by rewrite Hf in Hs. }
  destruct r as [filtered|e|w]; [|done..].
  unfold on_interest in Hf. destruct (filter_packets clock b cache ofac (interest st)) as [r i] eqn:Hfp.
  injection Hf as -> <-. unfold filter_packets in Hfp.
  apply prog_bind_inv in Hfp as (out & i1 & Hout & [= <- <-]).
  apply filter_each_may_forward with (received := be_banking_packet_batch b) in Hout; [|done].
  revert Hst1. generalize {st with interest := i1}. intros st2 Hst2.
  apply sends_ok_bind; [auto with relayer|intros _|done].
  case_bool_decide; cbn [negb]; [auto with relayer|].
  apply sends_ok_bind; [|auto with relayer]. unfold be_forward_packets. cbn [epb_batch].
  apply sends_ok_bind; [auto with relayer|]. intros pb st3 Hst3.
  apply sends_ok_bind; [|auto with relayer|done]. apply sends_ok_send. cbn.
  by exists b, cache, filter_us, forward_us, {| packets := out |}.
Qed.

Lemma sends_ok_event ofac evs clock ev : ev ∈ evs → sends_ok ofac evs (handle_stream_event ofac clock ev).
Proof.
  intros Hin. destruct ev as [us|msg us|msg us|[b|] cache us1 us2|i us|d n1 n2 us]; cbn [handle_stream_event].
  - apply sends_ok_bind; [auto with relayer|intros n].
    unfold check_and_send_heartbeat. apply sends_ok_bind; [by apply sends_ok_send|intros _].
    do 2 (apply sends_ok_bind; [auto with relayer|intros _]). apply sends_ok_modify. by intros [].
  - repeat (apply sends_ok_bind; [auto with relayer|intros ?]). auto with relayer.
  - repeat (apply sends_ok_bind; [auto with relayer|intros ?]). auto with relayer.
  - apply sends_ok_ok_or.
    apply sends_ok_bind; [auto with relayer|intros _]. by apply sends_ok_forward.
  - intros st. exact id.
  - apply sends_ok_bind; [|intros []; auto with relayer]. unfold maybe_refresh_auth, auth_answer.
    do 3 (apply sends_ok_bind; [auto with relayer|intros ?]).
    destruct (expiring_soon _ _); [|destruct (expiring_soon _ _); [|auto with relayer]].
    + apply sends_ok_bind; [auto with relayer|]. intros [new_access new_refresh].
      apply sends_ok_bind; [apply sends_ok_modify; by intros []|auto with relayer].
    + apply sends_ok_bind; [destruct (rf_refresh i); auto with relayer|intros m].
      apply sends_ok_bind; [auto with relayer|intros t].
      apply sends_ok_bind; [apply sends_ok_modify; by intros []|auto with relayer].
  - repeat (apply sends_ok_bind; [auto with relayer|intros ?]). apply sends_ok_modify. by intros [].
Qed.

Lemma sends_ok_session ofac evs ttl i :
  (live_inputs (se_events i)).*1 ⊆ evs → sends_ok ofac evs (auth_and_connect ofac ttl i).
Proof.
  intros Hevs.
  unfold auth_and_connect. apply sends_ok_bind; [auto with relayer|intros _].
  apply sends_ok_bind; [auto with relayer|]. intros [access refresh].
  do 2 (apply sends_ok_bind; [auto with relayer|intros ?]).
  apply sends_ok_bind; [destruct (se_info_enabled i); auto with relayer|intros _].
  apply sends_ok_bind; [apply sends_ok_modify; by intros []|intros _].
  apply sends_ok_bind; [auto with relayer|intros _].
  unfold start_event_loop. do 3 (apply sends_ok_bind; [auto with relayer|intros _]).
  unfold handle_packet_stream. apply sends_ok_bind; [apply sends_ok_modify; by intros []|intros _].
  apply keeps_run_loop_inputs. intros ev Hev. unfold stream_iteration.
  apply sends_ok_bind; [|auto with relayer]. apply sends_ok_event, Hevs.
  apply list_elem_of_fmap. by exists ev.
Qed.

Lemma sends_ok_thread ofac evs ttl sessions st :
  session_events sessions ⊆ evs →
  sent_ok ofac evs st → sent_ok ofac evs (block_engine_thread ofac ttl sessions st).2.
Proof.
  revert st; induction sessions as [|[i|] sessions IH]; intros st Hevs Hst; cbn [block_engine_thread];
    [done| |done].
  unfold session_events in Hevs. cbn [live_inputs flat_map] in Hevs.
  assert (Hi : (live_inputs (se_events i)).*1 ⊆ evs) by set_solver.
  assert (Hrest : session_events sessions ⊆ evs) by (unfold session_events; set_solver).
  pose proof (sends_ok_session ofac evs ttl i Hi st Hst) as Hs.
  destruct (auth_and_connect ofac ttl i st) as [[[]|e|w] st1]; cbn in *; [done| | |done];
    apply IH; by try destruct st1.
Qed.

(** Over all the connections of the thread, whatever the server and the relayer
    feed it and however they end, everything sent to the block engine is a heartbeat
    or a nonempty batch that carries the stamp and the expiry of one of the deliveries
    received, made of packets of that delivery which were not discarded and which, when
    addresses are listed, mention none of them. *)
Theorem block_engine_sends_safe ofac ttl sessions st :
  updates_sent st = [] →
  sent_ok ofac (session_events sessions) (block_engine_thread ofac ttl sessions st).2.
Proof.
  intros Hst. apply sends_ok_thread; [done|]. unfold sent_ok. rewrite Hst. constructor.
Qed.

(** The tokens can be dated, so that the next renewal can tell how long they last. *)
Definition dated (t : Token) (at_ : Z) : Prop :=
  ∃ ts, token_expires_at_utc t = Some ts ∧ systemtime_try_from ts = Some at_.

Lemma expiration_time_dated {S} t at_ (s : S) : dated t at_ → expiration_time t s = (Done at_, s).
Proof. intros (ts & Ht & Hs). unfold expiration_time. rewrite Ht. prog_unfold. by rewrite Hs. Qed.

(** Less than five minutes are left, or none. *)
Lemma expiring_soon_iff t now : expiring_soon t now = true ↔ t < now + 5 * 60 * nanos_per_sec.
Proof.
  unfold expiring_soon, duration_since. destruct (Z.leb_spec now t).
  - rewrite Z.ltb_lt. lia.
  - split; [|done]. unfold nanos_per_sec. lia.
Qed.

(** C31: The renewal, by what is left of the two tokens: within five minutes of the
    refresh token's end it authenticates afresh and replaces both; else within five
    minutes of the access token's end it replaces that one alone; else it does
    nothing.  An error of the server, or a token it leaves out, is an error and
    keeps the tokens. *)
Theorem maybe_refresh_auth_spec i st access refresh :
  dated (shared_access_token st) access → dated (refresh_token_held st) refresh →
  maybe_refresh_auth i st =
    if decide (refresh < rf_now_refresh i + 5 * 60 * nanos_per_sec) then
      match auth (rf_auth i) st with
      | (Done (a, r), _) => (Done true, {st with refresh_token_held := r; shared_access_token := a})
      | (Fail e, _) => (Fail e, st)
      | (Panicked w, _) => (Panicked w, st)
      end
    else if decide (access < rf_now_access i + 5 * 60 * nanos_per_sec) then
      match rf_refresh i with
      | inr (Some a) => (Done true, {st with shared_access_token := a})
      | inr None => (Fail (AuthServiceFailure "missing access token"), st)
      | inl e => (Fail (AuthServiceFailure e), st)
      end
    else (Done false, st).
Proof.
  intros Ha Hr. unfold maybe_refresh_auth, auth_answer.
  rewrite (prog_bind_done (gets id) _ _ _ _ eq_refl). unfold id.
  rewrite (prog_bind_done _ _ _ _ _ (expiration_time_dated _ _ _ Ha)).
  rewrite (prog_bind_done _ _ _ _ _ (expiration_time_dated _ _ _ Hr)).
  destruct (decide (refresh < _)) as [H1'%expiring_soon_iff|H1'].
  - rewrite H1'. unfold mbind, Prog_bind.
    pose proof (reads_only_auth (rf_auth i) st) as Hro.
    destruct (auth (rf_auth i) st) as [[[a r]|e|w] st1]; cbn in Hro; by subst.
  - rewrite <-expiring_soon_iff, not_true_iff_false in H1'. rewrite H1'.
    destruct (decide (access < _)) as [H2'%expiring_soon_iff|H2'].
    + rewrite H2'. by destruct (rf_refresh i) as [e|[a|]].
    + rewrite <-expiring_soon_iff, not_true_iff_false in H2'. by rewrite H2'.
Qed.

(** A renewed access token is taken without asking for its expiration: when the
    server's answer carries none the renewal succeeds, and the next one panics
    instead of failing. *)
Theorem refreshed_token_undated_panics i i' st access refresh tok :
  dated (shared_access_token st) access → dated (refresh_token_held st) refresh →
  rf_now_refresh i + 5 * 60 * nanos_per_sec <= refresh →
  access < rf_now_access i + 5 * 60 * nanos_per_sec →
  rf_refresh i = inr (Some tok) → token_expires_at_utc tok = None →
  ∃ st' w, maybe_refresh_auth i st = (Done true, st') ∧ maybe_refresh_auth i' st' = (Panicked w, st').
Proof.
  intros Ha Hr Hrefresh Haccess Hans Hnone.
  exists {st with shared_access_token := tok}, "called `Option::unwrap()` on a `None` value"%string. split.
  - unfold maybe_refresh_auth, auth_answer.
    rewrite (prog_bind_done (gets id) _ _ _ _ eq_refl). unfold id.
    rewrite (prog_bind_done _ _ _ _ _ (expiration_time_dated _ _ _ Ha)).
    rewrite (prog_bind_done _ _ _ _ _ (expiration_time_dated _ _ _ Hr)).
    apply expiring_soon_iff in Haccess. rewrite Haccess.
    destruct (expiring_soon refresh (rf_now_refresh i)) eqn:E;
      [apply expiring_soon_iff in E; lia|]. by rewrite Hans.
  - unfold maybe_refresh_auth. rewrite (prog_bind_done (gets id) _ _ _ _ eq_refl). unfold id.
    unfold expiration_time. destruct st. prog_unfold. cbn. by rewrite Hnone.
Qed.

Definition disconnected st : Prop := is_connected_to_block_engine st = false.

(** Nothing before [handle_packet_stream] announces a connection. *)
Lemma session_keeps_disconnected ofac ttl i :
  (∃ e, se_subscribe_aoi i = inl e ∨ se_subscribe_poi i = inl e ∨ se_packet_stream i = inl e) →
  keeps disconnected (auth_and_connect ofac ttl i).
Proof.
  intros [e He]. unfold auth_and_connect. apply keeps_bind; [auto with relayer|intros _].
  apply keeps_bind; [auto with relayer|]. intros [access refresh].
  do 2 (apply keeps_bind; [auto with relayer|intros ?]).
  apply keeps_bind; [destruct (se_info_enabled i); auto with relayer|intros _].
  apply keeps_bind; [apply keeps_modify; by intros []|intros _].
  apply keeps_bind; [auto with relayer|intros _]. unfold start_event_loop.
  destruct (se_subscribe_aoi i); [intros st; exact id|]. apply keeps_bind; [auto with relayer|intros _].
  destruct (se_subscribe_poi i); [intros st; exact id|]. apply keeps_bind; [auto with relayer|intros _].
  destruct (se_packet_stream i); [intros st; exact id|]. naive_solver.
Qed.

(** When the thread ends, or is between two connections, the flag says it is not
    connected, and a connection raises it only once the server has opened all three
    streams. *)
Theorem thread_disconnected ofac ttl :
  (∀ sessions st st', is_connected_to_block_engine st = false →
    block_engine_thread ofac ttl sessions st = (Done Exited, st') →
    is_connected_to_block_engine st' = false) ∧
  (∀ i st r st', is_connected_to_block_engine st = false →
    auth_and_connect ofac ttl i st = (r, st') → is_connected_to_block_engine st' = true →
    se_subscribe_aoi i = inr tt ∧ se_subscribe_poi i = inr tt ∧ se_packet_stream i = inr tt).
Proof.
  split.
  - intros sessions. induction sessions as [|[i|] sessions IH]; intros st st' Hst;
      cbn [block_engine_thread]; [done| |by intros [= <-]].
    destruct (auth_and_connect ofac ttl i st) as [[[]|e|w] st1]; try done; apply IH; by destruct st1.
  - intros i st r st' Hst Hr Hconn.
    destruct (se_subscribe_aoi i) as [e|[]] eqn:E1, (se_subscribe_poi i) as [e'|[]] eqn:E2,
      (se_packet_stream i) as [e''|[]] eqn:E3; [..|done]; exfalso;
      (assert (disconnected (auth_and_connect ofac ttl i st).2) as Hd
        by (apply session_keeps_disconnected; [naive_solver|done]);
       rewrite Hr in Hd; unfold disconnected in Hd; cbn in Hd; congruence).
Qed.
End client_theorems.

(** ** The two ends of the challenge protocol *)

Section protocol.
Context `{Sdk} `{!IpText} `{!Chrono} `{!Ed25519} `{!ProtoRoles} `{!Keypairs} `{J : !Jwt DeSerClaims}.
Context `{!SdkLaws} `{!KeypairsLaws}.

(** The client's answer to a challenge is one the relayer's own authentication
    service accepts: sent to a healthy service from the address the challenge [c] was
    made for, by the key it was made for, the request built by [auth] is a valid
    submission for [c]. *)
Theorem client_answers_challenge kp c health addr :
  client_pubkey (access_claims c) = keypair_pubkey kp →
  let req := auth_tokens_request kp (challenge c) in
  valid_submission
    {| tr_health := health; tr_remote_addr := addr;
       tr_client_pubkey := atr_client_pubkey req; tr_challenge := atr_challenge req;
       tr_signed_challenge := atr_signed_challenge req |}
    c (keypair_pubkey kp).
Proof.
  intros Hpk. destruct (keypair_publickey kp) as (key & Hkey & Hbytes & Hsig). cbn.
  unfold valid_submission, expected_challenge. cbn.
  set (text := (pubkey_to_string (keypair_pubkey kp) +:+ "-" +:+ challenge c)%string).
  destruct (Hsig (String.list_byte_of_string text)) as (sig & Hparse & Hverify).
  destruct (sign_message_length kp (String.list_byte_of_string text)) as [Hl1 Hl2].
  exists key, sig. rewrite Hbytes, pubkey_bytes_roundtrip. by split_and!.
Qed.
End protocol.

(** ** Concrete inputs *)

Local Abbreviation toy_caches := (map_timed_cache (@Pubkey toy_sdk)).
Definition toy_be_token (expires : Z) : Token :=
  {| token_value := "t"; token_expires_at_utc := Some {| seconds := expires; nanos := 0 |} |}.
Definition toy_interest (programs : gmap (@Pubkey toy_sdk) Z) : Interest (TC := toy_caches) :=
  {| accounts_of_interest := {| ttc_secs := 300; ttc_store := ∅ |};
     programs_of_interest := {| ttc_secs := 300; ttc_store := programs |}; reads := 0 |}.
Definition toy_engine (access refresh : Token) : BlockEngine (TC := toy_caches) :=
  {| block_engine_receiver := []; is_connected_to_block_engine := false;
     shared_access_token := access; refresh_token_held := refresh; interest := toy_interest ∅;
     heartbeat_count := 0; block_engine_stats := BlockEngineStats_default; updates_sent := [];
     sender_accepts := None; stats_reports := [] |}.

(** A block engine that answers everything, announces the program ["p"], and is fed two
    transactions that call it, one of which mentions the listed key ["x"]. *)
Definition toy_be_packets : BlockEnginePackets :=
  {| be_banking_packet_batch :=
       [[toy_packet 0 (Some (toy_transaction "qp")); toy_packet 0 (Some (toy_transaction "px"))];
        [toy_packet 0 (Some (toy_transaction "qr"))]];
     be_stamp := 1; expiration := 200 |}.
Definition toy_answers : AuthAnswers :=
  {| answer_challenge := inr "c"%string;
     answer_tokens := inr (Some (toy_be_token 1000), Some (toy_be_token 5000)) |}.
Definition toy_session : SessionInput :=
  {| se_auth_url := "http://auth"; se_block_engine_url := "http://engine";
     se_url_valid _ := true; se_tls_valid _ := true; se_auth_connect := inr tt; se_auth := toy_answers;
     se_info_enabled := false; se_now_access := 0; se_now_refresh := 0;
     se_block_engine_connect := inr tt; se_subscribe_aoi := inr tt; se_subscribe_poi := inr tt;
     se_packet_stream := inr tt; se_accepts := None; se_clock n := Z.of_nat n;
     se_events := [Some (PoiMessage (inr (Some ["Kp"; "bad"]%string)) 3, 1000);
                   Some (BatchesReceived (Some toy_be_packets) ∅ 3 3, 1000)] |}.

Lemma block_engine_sends_safe_witness :
  let st := toy_engine (toy_be_token 0) (toy_be_token 0) in
  let final := (block_engine_thread {["x"%char]} 300 [Some toy_session] st).2 in
  updates_sent st = [] ∧ sent_ok {["x"%char]} (session_events [Some toy_session]) final ∧
  length (updates_sent final) = 1%nat.
Proof.
  intros st final. split; [reflexivity|]. split; [|vm_refl].
  exact (block_engine_sends_safe {["x"%char]} 300 [Some toy_session] st eq_refl).
Defined.

Lemma filter_packets_spec_witness :
  let clock n := Z.min (Z.of_nat n) 100 in
  let st := toy_interest {["p"%char := 0]} in
  (∀ i j, (i ≤ j)%nat → clock i <= clock j) ∧ (∀ n, 0 <= clock n <= 100) ∧
  ∃ out st', filter_packets (E := BlockEngineError) clock toy_be_packets ∅ {["x"%char]} st
      = (Done (Some {| epb_header_ts := Some 1; epb_batch := Some {| packets := out |};
                       epb_expiry_ms := 200 |}), st') ∧ length out = 1%nat.
Proof.
  intros clock st.
  assert (Hmono : ∀ i j, (i ≤ j)%nat → clock i <= clock j) by (subst clock; cbn; lia).
  assert (Hrange : ∀ n, 0 <= clock n <= 100) by (subst clock; cbn; lia).
  split; [exact Hmono|]. split; [exact Hrange|].
  destruct (filter_packets_spec (TC := toy_caches) clock 0 100 Hmono Hrange
    (accounts_of_interest st) (programs_of_interest st) (E := BlockEngineError) toy_be_packets ∅
    {["x"%char]} st eq_refl eq_refl) as (out & st' & Hr & Hlo%sublist_length & Hhi%sublist_length).
  match type of Hlo with (?n ≤ _)%nat => replace n with 1%nat in Hlo by vm_refl end.
  match type of Hhi with (_ ≤ ?n)%nat => replace n with 1%nat in Hhi by vm_refl end.
  exists out, st'. split; [|lia]. rewrite Hr, decide_False; [reflexivity|]. by intros ->.
Defined.

Lemma maybe_refresh_auth_spec_witness :
  let st := toy_engine (toy_be_token 400) (toy_be_token 5000) in
  let i := {| rf_now_access := 200 * nanos_per_sec; rf_now_refresh := 200 * nanos_per_sec;
              rf_auth := toy_answers; rf_refresh := inr (Some (toy_be_token 2000)) |} in
  dated (shared_access_token st) (400 * nanos_per_sec) ∧
  dated (refresh_token_held st) (5000 * nanos_per_sec) ∧
  maybe_refresh_auth i st = (Done true, {st with shared_access_token := toy_be_token 2000}).
Proof.
  intros st i.
  assert (Ha : dated (shared_access_token st) (400 * nanos_per_sec)) by (eexists; by split).
  assert (Hr : dated (refresh_token_held st) (5000 * nanos_per_sec)) by (eexists; by split).
  split; [exact Ha|]. split; [exact Hr|].
  rewrite (maybe_refresh_auth_spec i st _ _ Ha Hr).
  rewrite decide_False by (cbn; unfold nanos_per_sec; lia).
  by rewrite decide_True by (cbn; unfold nanos_per_sec; lia).
Defined.

Lemma refreshed_token_undated_panics_witness :
  let st := toy_engine (toy_be_token 400) (toy_be_token 5000) in
  let i := {| rf_now_access := 200 * nanos_per_sec; rf_now_refresh := 200 * nanos_per_sec;
              rf_auth := toy_answers;
              rf_refresh := inr (Some {| token_value := "u"; token_expires_at_utc := None |}) |} in
  ∃ st' w, maybe_refresh_auth i st = (Done true, st') ∧ maybe_refresh_auth i st' = (Panicked w, st').
Proof.
  intros st i.
  apply (refreshed_token_undated_panics i i st (400 * nanos_per_sec) (5000 * nanos_per_sec)
    {| token_value := "u"; token_expires_at_utc := None |});
    [eexists; by split|eexists; by split|cbn; unfold nanos_per_sec; lia
    |cbn; unfold nanos_per_sec; lia|reflexivity|reflexivity].
Defined.

Lemma client_answers_challenge_witness :
  let req := auth_tokens_request ("a"%char : Keypair) (challenge toy_issued) in
  valid_submission
    {| tr_health := Healthy; tr_remote_addr := Some toy_ip;
       tr_client_pubkey := atr_client_pubkey req; tr_challenge := atr_challenge req;
       tr_signed_challenge := atr_signed_challenge req |}
    toy_issued "a"%char.
Proof.
  exact (client_answers_challenge ("a"%char : Keypair) toy_issued Healthy (Some toy_ip) eq_refl).
Defined.
