(* ===== verification/Tpu.v ===== *)
(** * The transaction processing unit ([core/src/tpu.rs])

    The QUIC servers and the stages they feed, joined by channels: packets for the TPU go
    straight to the signature stage, forwarded ones through the fetch stage (Packets.v)
    first.  Each stage is a step of the pipeline, which waits for room in the channel it
    sends on; the signature stage is a library, and the channel it sends on has no bound. *)

From S2P Require Import Prelude External Instances Packets.
Local Open Scope Z_scope.

Section tpu.
Context `{Sdk} `{!NetUtils} `{!SigVerifier}.

Record TpuSockets := {
  transactions_quic_sockets : list UdpSocket;
  transactions_forwards_quic_sockets : list UdpSocket }.

(** [Tpu::new]: the QUIC servers it spawns, one for each socket, and the channel each
    one feeds. *)
Inductive TpuQueue := TpuReceiver | TpuForwardsReceiver.
Record QuicServer := {
  quic_socket : UdpSocket;
  quic_queue : TpuQueue;
  max_staked_connections : Z;
  max_unstaked_connections : Z }.
Definition Tpu_new (sockets : TpuSockets)
    (max_unstaked_quic_connections max_staked_quic_connections : Z) : list QuicServer :=
  map (λ sock, {| quic_socket := sock; quic_queue := TpuReceiver;
                  max_staked_connections := max_staked_quic_connections;
                  max_unstaked_connections := max_unstaked_quic_connections |})
    (transactions_quic_sockets sockets) ++
  map (λ sock, {| quic_socket := sock; quic_queue := TpuForwardsReceiver;
                  max_staked_connections :=
                    u64_sat_add max_staked_quic_connections max_unstaked_quic_connections;
                  max_unstaked_connections := 0 |})
    (transactions_forwards_quic_sockets sockets).

(** [Tpu::TPU_QUEUE_CAPACITY], the capacity of the delay channel too *)
Definition TPU_QUEUE_CAPACITY : nat := N.to_nat 10000.

(** The channels of [Tpu::new], with all that was ever sent on the verified one, what each
    server sent, and the marked batches the fetch stage has in hand and still has to send. *)
Record TpuPipeline := {
  arrivals : list (QuicServer * PacketBatch);
  tpu_queue : list PacketBatch;
  tpu_forwards_queue : list PacketBatch;
  fetch_in_hand : list PacketBatch;
  verified_sent : list BankingPacketBatch }.
Definition TpuPipeline_new : TpuPipeline :=
  {| arrivals := []; tpu_queue := []; tpu_forwards_queue := []; fetch_in_hand := [];
     verified_sent := [] |}.

Definition has_room (queue : list PacketBatch) : Prop := (length queue < TPU_QUEUE_CAPACITY)%nat.

(** The server clones the sender of the channel it feeds. *)
Definition server_queue (server : QuicServer) (t : TpuPipeline) : list PacketBatch :=
  match quic_queue server with
  | TpuReceiver => tpu_queue t
  | TpuForwardsReceiver => tpu_forwards_queue t
  end.
Definition server_sends (server : QuicServer) (batch : PacketBatch) (t : TpuPipeline) : TpuPipeline :=
  let t := {t with arrivals ::= (λ l, l ++ [(server, batch)])} in
  match quic_queue server with
  | TpuReceiver => {t with tpu_queue ::= (λ l, l ++ [batch])}
  | TpuForwardsReceiver => {t with tpu_forwards_queue ::= (λ l, l ++ [batch])}
  end.

(** [FetchStage::new(tpu_forwards_receiver, tpu_sender, ..)]: one call of
    [handle_forwarded_packets] on a channel that holds a batch, up to its sends, ... *)
Definition fetch_stage_turn (t : TpuPipeline) : option TpuPipeline :=
  match fetch_in_hand t, tpu_forwards_queue t with
  | [], first :: available =>
      let '(r, ch) := handle_forwarded_packets (Some first)
        {| tpu_forwards := available; tpu_sent := []; tpu_accepts := None |} in
      match r with
      | Done _ => Some {t with tpu_forwards_queue := tpu_forwards ch; fetch_in_hand := tpu_sent ch}
      | _ => None
      end
  | _, _ => None
  end.
(** ... and one of these, which waits for room. *)
Definition fetch_stage_sends (t : TpuPipeline) : option TpuPipeline :=
  match fetch_in_hand t with
  | batch :: rest =>
      if decide (has_room (tpu_queue t)) then
        Some {t with fetch_in_hand := rest; tpu_queue ::= (λ l, l ++ [batch])}
      else None
  | [] => None
  end.

(** [SigVerifyStage::new(tpu_receiver, TransactionSigVerifier::new(banking_packet_sender), ..)]:
    a turn of the stage takes some batches off the TPU channel. *)
Definition sigverify_turn (taken : nat) (t : TpuPipeline) : TpuPipeline :=
  let batches := take taken (tpu_queue t) in
  {t with tpu_queue ::= drop taken; verified_sent ::= (λ l, l ++ [verify_batches batches])}.

Inductive tpu_step (servers : list QuicServer) : TpuPipeline → TpuPipeline → Prop :=
| step_server t server batch :
    server ∈ servers → has_room (server_queue server t) → tpu_step servers t (server_sends server batch t)
| step_fetch t t' : fetch_stage_turn t = Some t' → tpu_step servers t t'
| step_fetch_sends t t' : fetch_stage_sends t = Some t' → tpu_step servers t t'
| step_sigverify t taken : tpu_step servers t (sigverify_turn taken t).

(** ** Specification *)

(** The packet came in at one of the servers with the bytes it has, and carries the
    forwarded flag if that server is one for the forwards. *)
Definition arrived (t : TpuPipeline) (p' : Packet) : Prop :=
  ∃ server batch p, (server, batch) ∈ arrivals t ∧ p ∈ batch ∧ packet_data p' = packet_data p ∧
    (quic_queue server = TpuForwardsReceiver → forwarded (packet_meta p') = true).
Definition signed (p : Packet) : Prop :=
  ∀ bytes, packet_data p = Some bytes → signatures_valid bytes = true.

Record pipeline_inv (servers : list QuicServer) (t : TpuPipeline) : Prop := {
  inv_servers : ∀ server batch, (server, batch) ∈ arrivals t → server ∈ servers;
  inv_tpu : ∀ b p, b ∈ tpu_queue t ∨ b ∈ fetch_in_hand t → p ∈ b → arrived t p;
  inv_forwards : ∀ b, b ∈ tpu_forwards_queue t → ∃ server, (server, b) ∈ arrivals t;
  inv_verified : ∀ bs b p, bs ∈ verified_sent t → b ∈ bs → p ∈ b →
    discard (packet_meta p) = false → arrived t p ∧ signed p }.

(** Neither bounded channel holds more than its capacity. *)
Definition tpu_bounded (t : TpuPipeline) : Prop :=
  (length (tpu_queue t) ≤ TPU_QUEUE_CAPACITY)%nat ∧ (length (tpu_forwards_queue t) ≤ TPU_QUEUE_CAPACITY)%nat.
End tpu.

(** ** Theorems *)

(** A fetch stage with nothing in hand takes the first batch of the forwards channel, and a
    prefix of those behind it. *)
Lemma fetch_stage_turn_moves `{Sdk} `{!NetUtils} (t : TpuPipeline) first available :
  fetch_in_hand t = [] → tpu_forwards_queue t = first :: available →
  ∃ taken rest, available = taken ++ rest ∧
    fetch_stage_turn t = Some {t with tpu_forwards_queue := rest;
      fetch_in_hand := map (map mark_forwarded) (first :: taken)}.
Proof.
  intros Hh Hq. unfold fetch_stage_turn. rewrite Hh, Hq.
  destruct (handle_forwarded_packets_sends first
    {| tpu_forwards := available; tpu_sent := []; tpu_accepts := None |} eq_refl)
    as (taken & rest & Hav & ->). by exists taken, rest.
Qed.
Lemma fetch_stage_turn_inv_some `{Sdk} `{!NetUtils} (t t' : TpuPipeline) :
  fetch_stage_turn t = Some t' → ∃ first taken rest,
    fetch_in_hand t = [] ∧ tpu_forwards_queue t = first :: taken ++ rest ∧
    t' = {t with tpu_forwards_queue := rest; fetch_in_hand := map (map mark_forwarded) (first :: taken)}.
Proof.
  intros Ht. destruct (fetch_in_hand t) eqn:Hh, (tpu_forwards_queue t) as [|first available] eqn:Hq;
    try (unfold fetch_stage_turn in Ht; by rewrite Hh, ?Hq in Ht).
  destruct (fetch_stage_turn_moves _ _ _ Hh Hq) as (taken & rest & -> & Hd).
  rewrite Hd in Ht. injection Ht as <-. by exists first, taken, rest.
Qed.
Lemma fetch_stage_sends_some `{Sdk} `{!NetUtils} (t t' : TpuPipeline) :
  fetch_stage_sends t = Some t' ↔ ∃ batch rest,
    fetch_in_hand t = batch :: rest ∧ has_room (tpu_queue t) ∧
    t' = {t with fetch_in_hand := rest; tpu_queue ::= (λ l, l ++ [batch])}.
Proof.
  unfold fetch_stage_sends. split.
  - destruct (fetch_in_hand t) as [|batch rest]; [done|]. case_decide; [|done]. intros [= <-]. eauto.
  - intros (batch & rest & -> & Hr & ->). by rewrite decide_True.
Qed.

Lemma tpu_bounded_step `{Sdk} `{!NetUtils} `{!SigVerifier} servers (t t' : TpuPipeline) :
  tpu_step servers t t' → tpu_bounded t → tpu_bounded t'.
Proof.
  unfold tpu_bounded.
  intros [t0 server batch _ Hroom|t0 t1 Ht|t0 t1 Ht|t0 taken] [Hr1 Hr2].
  - unfold server_sends, server_queue, has_room in *. destruct t0, (quic_queue server); cbn in *;
      unfold constant in *; rewrite length_app; cbn; lia.
  - apply fetch_stage_turn_inv_some in Ht as (first & tk & rest & _ & Hq & ->). rewrite Hq in Hr2.
    destruct t0. cbn in *. unfold constant. rewrite length_app in Hr2. lia.
  - apply fetch_stage_sends_some in Ht as (batch & rest & _ & Hroom & ->). unfold has_room in Hroom.
    destruct t0. cbn in *. rewrite length_app. cbn. unfold constant. lia.
  - unfold sigverify_turn. destruct t0. cbn in *. unfold constant. rewrite length_drop. lia.
Qed.
Lemma pipeline_reachable_bounded `{Sdk} `{!NetUtils} `{!SigVerifier} servers (t : TpuPipeline) :
  rtc (tpu_step servers) TpuPipeline_new t → tpu_bounded t.
Proof.
  apply rtc_invariant; [intros t1 t2 Hb Hstep; by eapply tpu_bounded_step|]. split; cbn; lia.
Qed.

Section tpu_theorems.
Context `{SdkLaws} `{!NetUtils} `{!SigVerifier} `{!SigVerifierLaws}.
Implicit Types (t : TpuPipeline) (servers : list QuicServer).

Lemma arrived_mono t t' p :
  (∀ a, a ∈ arrivals t → a ∈ arrivals t') → arrived t p → arrived t' p.
Proof. intros Hsub (s & b & p0 & Hin & Hrest). exists s, b, p0. auto. Qed.

Lemma server_sends_inv servers server batch t :
  server ∈ servers → pipeline_inv servers t → pipeline_inv servers (server_sends server batch t).
Proof.
  intros Hs [Hserv Htpu Hfwd Hver].
  assert (∀ a, a ∈ arrivals (server_sends server batch t) ↔ a ∈ arrivals t ∨ a = (server, batch)) as Harr.
  { intros a. unfold server_sends. destruct t, (quic_queue server); cbn;
      rewrite elem_of_app, list_elem_of_singleton; done. }
  assert (∀ p, arrived t p → arrived (server_sends server batch t) p) as Hmono
    by (intros p; apply arrived_mono; intros a; rewrite Harr; auto).
  split.
  - intros s b [?|[= -> ->]]%Harr; eauto.
  - intros b p Hb Hp. unfold server_sends in Hb. destruct (quic_queue server) eqn:Hq, t; cbn in *.
    + destruct Hb as [[Hb| ->%list_elem_of_singleton]%elem_of_app|Hb]; [by eapply Hmono, Htpu; eauto| |by eapply Hmono, Htpu; eauto].
      exists server, batch, p. rewrite Harr. repeat split; [by right|done|congruence].
    + by eapply Hmono, Htpu.
  - intros b Hb. unfold server_sends in Hb. destruct (quic_queue server) eqn:Hq, t; cbn in *.
    + destruct (Hfwd b Hb) as [s Hin]. exists s. apply Harr. by left.
    + apply elem_of_app in Hb as [Hb| ->%list_elem_of_singleton]; [|exists server; apply Harr; by right].
      destruct (Hfwd b Hb) as [s Hin]. exists s. apply Harr. by left.
  - intros bs b p Hbs Hb Hp Hd. replace (verified_sent (server_sends server batch t))
      with (verified_sent t) in Hbs by (unfold server_sends; by destruct t, (quic_queue server)).
    destruct (Hver bs b p Hbs Hb Hp Hd). auto.
Qed.

Lemma fetch_stage_turn_inv servers t t' :
  fetch_stage_turn t = Some t' → pipeline_inv servers t → pipeline_inv servers t'.
Proof.
  intros (first & taken & rest & Hh & Hq & ->)%fetch_stage_turn_inv_some [Hserv Htpu Hfwd Hver].
  set (t' := {t with tpu_forwards_queue := rest; fetch_in_hand := _}).
  assert (∀ p, arrived t p → arrived t' p) as Hmono by (intros p; apply arrived_mono; by destruct t).
  destruct t as [arr tq fq fh vs]. subst t'. cbn -[map] in *. unfold constant in *. subst fq fh.
  split; cbn -[map]; [done| |intros b Hb; apply Hfwd; set_solver|].
  - intros b p [Hb|Hb] Hp; apply Hmono; [by eapply Htpu; eauto|].
    change (b ∈ map (map mark_forwarded) (first :: taken)) in Hb.
    apply list_elem_of_fmap in Hb as (b0 & -> & Hb0). apply list_elem_of_fmap in Hp as (p0 & -> & Hp0).
    destruct (Hfwd b0) as [server Hin]; [set_solver|]. exists server, b0, p0.
    repeat split; [done|done|apply packet_data_flags|intros _; apply mark_forwarded_forwarded].
  - intros bs b p Hbs Hb Hp Hdis. destruct (Hver bs b p Hbs Hb Hp Hdis). auto.
Qed.

Lemma fetch_stage_sends_inv servers t t' :
  fetch_stage_sends t = Some t' → pipeline_inv servers t → pipeline_inv servers t'.
Proof.
  intros (batch & rest & Hh & Hroom & ->)%fetch_stage_sends_some [Hserv Htpu Hfwd Hver].
  destruct t as [arr tq fq fh vs]. cbn in *. unfold constant, has_room in *. subst fh.
  split; cbn; [done| |done|done].
  intros b p Hb Hp. apply (Htpu b p); [|done]. set_solver.
Qed.

Lemma sigverify_turn_inv servers n t : pipeline_inv servers t → pipeline_inv servers (sigverify_turn n t).
Proof.
  intros [Hserv Htpu Hfwd Hver].
  assert (∀ p, arrived t p → arrived (sigverify_turn n t) p) as Hmono
    by (intros p; apply arrived_mono; by destruct t).
  unfold sigverify_turn in *. destruct t as [arr tq fq fh vs]. cbn in *. unfold constant in *.
  split; cbn; [done| |done|].
  - intros b p Hb Hp. apply Hmono. eapply Htpu; [|done]. destruct Hb as [Hb|Hb]; [left|by right].
    rewrite <-(take_drop n tq), elem_of_app; by right.
  - intros bs b p Hbs Hb Hp Hd. apply elem_of_app in Hbs as [Hbs| ->%list_elem_of_singleton].
    { destruct (Hver bs b p Hbs Hb Hp Hd). auto. }
    destruct (verify_batches_spec _ _ _ Hb Hp Hd) as (b0 & p0 & Hb0 & Hp0 & Hdata & Hflag & Hsig).
    assert (b0 ∈ tq) as Htq by (rewrite <-(take_drop n tq), elem_of_app; by left).
    split; [apply Hmono|intros bytes; rewrite Hdata; apply Hsig].
    destruct (Htpu b0 p0 (or_introl Htq) Hp0) as (s & b1 & p1 & ? & ? & ? & ?). exists s, b1, p1.
    repeat split; [done|done|congruence|rewrite Hflag; done].
Qed.

Lemma pipeline_reachable_inv servers t :
  rtc (tpu_step servers) TpuPipeline_new t → pipeline_inv servers t.
Proof.
  apply rtc_invariant.
  - intros t1 t2 Hinv Hstep. destruct Hstep; eauto using server_sends_inv, fetch_stage_turn_inv,
      fetch_stage_sends_inv, sigverify_turn_inv.
  - split; cbn; set_solver.
Qed.
End tpu_theorems.
