(* ===== verification/DataPath.v ===== *)
(** * The composed data path

    The forwarder thread (Forwarder.v) is connected to the event loop of the relayer
    (Relayer.v) and to the thread of the block engine (BlockEngine.v) by two channels.
    The theorems here put the three together: what validators and the block engine are
    sent, in terms of the batches the forwarder received from the signature stage; and
    with the stages of Tpu.v before it, in terms of what the QUIC servers received. *)

From S2P Require Import Prelude External Instances Packets ScheduleCache HealthManager.
From S2P Require Import Forwarder Relayer BlockEngine Tpu.
Local Open Scope Z_scope.

Section data_path.
Context `{Sdk} `{!IpText} `{!Channels} `{!Histograms} `{!HashOrder Pubkey} `{!HashOrder Slot}.
Context `{!ChannelsLaws} `{!HashOrderLaws Pubkey}.
Context `{!ProtoRoles} `{!ProstTime} `{!Keypairs} `{TC : !TimedCaches Pubkey}.

(** What the event loop takes from the delay channel, and what the connections take
    from the channel of the block engine. *)
Definition delay_received (inputs : list (option RelayerInput)) : list RelayerPacketBatches :=
  omap (λ i, match ri_event i with PacketArm batches _ _ _ _ => batches | _ => None end)
    (live_inputs inputs).
Definition be_received (sessions : list (option SessionInput)) : list BlockEnginePackets :=
  omap (λ ev, match ev with BatchesReceived batches _ _ _ => batches | _ => None end)
    (session_events sessions).

Lemma offered_inv delay_ms disable_mempool finputs b :
  b ∈ flat_map (offered delay_ms disable_mempool) (live_inputs finputs) →
  disable_mempool = false ∧ expiration b = delay_ms ∧
  ∃ i, i ∈ live_inputs finputs ∧ fi_recv i = RecvOk (be_banking_packet_batch b) ∧
    be_stamp b = fi_system_time i.
Proof.
  intros (i & Hi & Hb)%list_elem_of_In%in_flat_map. unfold offered in Hb.
  destruct (fi_recv i) eqn:Hr; [|done..]. destruct disable_mempool; [done|].
  destruct (fi_be_answer i); [done|]. destruct Hb as [<-|[]].
  split_and!; [done..|]. exists i. by rewrite list_elem_of_In.
Qed.

Lemma offered_of_received delay_ms disable_mempool l :
  be_banking_packet_batch <$> flat_map (offered delay_ms disable_mempool) l
    `sublist_of` banking_packet_batch <$> flat_map received l.
Proof.
  induction l as [|i l IH]; cbn; [done|]. rewrite !fmap_app. apply sublist_app; [|done].
  unfold offered, received. destruct (fi_recv i), disable_mempool, (fi_be_answer i); cbn;
    auto using sublist_nil_l.
Qed.

(** What the event loop takes was received by the forwarder, and so was what the
    connections of the block engine take. *)
Lemma delay_received_inv thread_id delay_ms disable_mempool finputs fcaps now accepts fr fwd inputs b :
  forwarder_thread thread_id delay_ms disable_mempool finputs (Forwarder_new fcaps now accepts)
    = (fr, fwd) →
  delay_received inputs `prefix_of` delay_sent fwd → b ∈ delay_received inputs →
  ∃ i, i ∈ live_inputs finputs ∧ fi_recv i = RecvOk (banking_packet_batch b).
Proof.
  intros Hf [rest Hchan] Hb. apply forwarder_thread_releases in Hf as (sent & Hsent & [rest' Hpre] & _).
  destruct fcaps as [[f1 f2] f3]. cbn in Hsent, Hpre. subst sent.
  assert (b ∈ flat_map received (live_inputs finputs)) as Hin.
  { rewrite Hpre, Hchan, !elem_of_app. auto. }
  apply list_elem_of_In, in_flat_map in Hin as (i & Hi%list_elem_of_In & Hr). exists i. split; [done|].
  unfold received in Hr. destruct (fi_recv i); [destruct Hr as [<-|[]]|..]; done.
Qed.

Lemma be_received_offered thread_id delay_ms disable_mempool finputs fcaps now accepts fr fwd sessions :
  forwarder_thread thread_id delay_ms disable_mempool finputs (Forwarder_new fcaps now accepts)
    = (fr, fwd) →
  be_received sessions `sublist_of` be_sent fwd →
  be_received sessions `sublist_of` flat_map (offered delay_ms disable_mempool) (live_inputs finputs).
Proof.
  intros Hf Hchan. apply forwarder_thread_offers in Hf as (sent & Hsent & [rest ->]).
  destruct fcaps as [[f1 f2] f3]. cbn in Hsent. subst sent.
  etrans; [exact Hchan|]. by apply sublist_inserts_r.
Qed.

(** Everything sent to the block engine is a heartbeat or made of one such batch. *)
Lemma block_engine_updates delay_ms disable_mempool finputs ofac ttl sessions st u :
  be_received sessions `sublist_of` flat_map (offered delay_ms disable_mempool) (live_inputs finputs) →
  updates_sent st = [] → u ∈ updates_sent (block_engine_thread ofac ttl sessions st).2 →
  (∃ count, update_msg u = Some (BeHeartbeat count)) ∨
  ∃ i batch cache us us' out, i ∈ live_inputs finputs ∧ fi_recv i = RecvOk batch ∧
    disable_mempool = false ∧
    BatchesReceived (Some {| be_banking_packet_batch := batch; be_stamp := fi_system_time i;
      expiration := delay_ms |}) cache us us' ∈ session_events sessions ∧
    update_msg u = Some (Batches {| epb_header_ts := Some (fi_system_time i);
      epb_batch := Some out; epb_expiry_ms := delay_ms |}) ∧
    packets out ≠ [] ∧ Forall (may_forward ofac cache batch) (packets out).
Proof.
  intros Hsub Hst Hu.
  assert (Hsafe : sent_ok ofac (session_events sessions) (block_engine_thread ofac ttl sessions st).2).
  { apply sends_ok_thread; [done|]. unfold sent_ok. by rewrite Hst. }
  eapply Forall_forall in Hsafe; [|exact Hu]. unfold update_ok in Hsafe.
  destruct (update_msg u) as [[b|count]|]; [|by left; eexists|done].
  destruct Hsafe as (d & cache & us1 & us2 & out & Hev & -> & Hne & Hall). right.
  assert (Hd : d ∈ be_received sessions) by (apply list_elem_of_omap; by eexists).
  eapply elem_of_sublist in Hd; [|exact Hsub].
  apply offered_inv in Hd as (-> & <- & i & Hi & Hr & Hstamp). destruct d as [batch ts exp].
  cbn in *. subst ts. by exists i, batch, cache, us1, us2, out.
Qed.

(** C4: Validators get what the forwarder received, in order and held back: the batches
    that reach their event loop are a prefix of those received; the forwarder released
    them turn by turn, each once the packet delay had passed since it came; and every
    message ever queued for a validator is a heartbeat or a batch, neither empty nor
    over the configured size, of packets out of one of those, packets that were not
    discarded and mention no listed address.  This holds however the forwarder and the
    loop run or end. *)
Theorem validators_data_path thread_id delay_ms disable_mempool finputs fcaps now accepts fr fwd
    config caps inputs :
  forwarder_thread thread_id delay_ms disable_mempool finputs (Forwarder_new fcaps now accepts)
    = (fr, fwd) →
  delay_received inputs `prefix_of` delay_sent fwd →
  Forall input_ok (live_inputs inputs) →
  delay_received inputs `prefix_of` flat_map received (live_inputs finputs) ∧
  in_turns delay_ms (live_inputs finputs) (delay_sent fwd) ∧
  ∀ pk c m,
    packet_subscriptions (run_event_loop config inputs (Relayer_new caps)).2 !! pk = Some c →
    m ∈ chan_queue c →
    (∃ count, m = heartbeat_msg count) ∨
    ∃ b us ts cache us' t out,
      PacketArm (Some b) us ts cache us' ∈ ri_event <$> live_inputs inputs ∧
      m = Done {| header_ts := Some t; msg := Some (Batch out) |} ∧
      (0 < length (packets out) ≤ validator_packet_batch_size config)%nat ∧
      Forall (may_forward (ofac_addresses config) cache (banking_packet_batch b)) (packets out).
Proof.
  intros Hf Hchan Hok.
  apply forwarder_thread_releases in Hf as (sent & Hsent & Hpre & Hturns).
  destruct fcaps as [[f1 f2] f3]. cbn in Hsent, Hpre. subst sent.
  split; [by etrans|]. split; [done|]. intros pk c m Hc Hm.
  pose proof (run_event_loop_queues_ok config caps inputs Hok pk c Hc) as Hq.
  eapply Forall_forall in Hq as [Hbeat|(b & us & ts & cache & us' & Hev & Hb)]; [by left| |done].
  right. destruct Hb as (t & out & Hb). by exists b, us, ts, cache, us', t, out.
Qed.

(** C5: What the block engine is sent, over all the connections of the thread, is
    heartbeats and, only with the mempool enabled, nonempty batches that carry the time
    the forwarder received one of its batches and the packet delay as expiry, made of
    packets of that batch which were not discarded and, when addresses are listed,
    mention none of them; and the deliveries come in the order the forwarder received
    the batches. *)
Theorem block_engine_data_path thread_id delay_ms disable_mempool finputs fcaps now accepts fr fwd
    ofac ttl sessions st :
  forwarder_thread thread_id delay_ms disable_mempool finputs (Forwarder_new fcaps now accepts)
    = (fr, fwd) →
  be_received sessions `sublist_of` be_sent fwd →
  updates_sent st = [] →
  be_banking_packet_batch <$> be_received sessions
    `sublist_of` banking_packet_batch <$> flat_map received (live_inputs finputs) ∧
  ∀ u, u ∈ updates_sent (block_engine_thread ofac ttl sessions st).2 →
    (∃ count, update_msg u = Some (BeHeartbeat count)) ∨
    ∃ i batch cache us us' out, i ∈ live_inputs finputs ∧ fi_recv i = RecvOk batch ∧
      disable_mempool = false ∧
      BatchesReceived (Some {| be_banking_packet_batch := batch; be_stamp := fi_system_time i;
        expiration := delay_ms |}) cache us us' ∈ session_events sessions ∧
      update_msg u = Some (Batches {| epb_header_ts := Some (fi_system_time i);
        epb_batch := Some out; epb_expiry_ms := delay_ms |}) ∧
      packets out ≠ [] ∧ Forall (may_forward ofac cache batch) (packets out).
Proof.
  intros Hf Hchan Hst. pose proof (be_received_offered _ _ _ _ _ _ _ _ _ _ Hf Hchan) as Hsub.
  split; [|intros u Hu; by eapply block_engine_updates].
  etrans; [by apply fmap_sublist|]. apply offered_of_received.
Qed.
End data_path.

(** ** From the QUIC servers on *)

Section whole_path.
Context `{SdkLaws} `{!IpText} `{!Channels} `{!Histograms} `{!HashOrder Pubkey} `{!HashOrder Slot}.
Context `{!ChannelsLaws} `{!HashOrderLaws Pubkey}.
Context `{!ProtoRoles} `{!ProstTime} `{!Keypairs} `{TC : !TimedCaches Pubkey}.
Context `{!NetUtils} `{!SigVerifier} `{!SigVerifierLaws}.

(** The bytes came in at one of the servers, their signatures are valid, and what a
    forwards server received is flagged as forwarded. *)
Definition genuine (servers : list QuicServer) (t : TpuPipeline) (pp : ProtoPacket) : Prop :=
  signatures_valid (pp_data pp) = true ∧
  ∃ server batch p, server ∈ servers ∧ (server, batch) ∈ arrivals t ∧ p ∈ batch ∧
    packet_data p = Some (pp_data pp) ∧
    (quic_queue server = TpuForwardsReceiver →
      ∃ m flags, pp_meta pp = Some m ∧ pm_flags m = Some flags ∧ pf_forwarded flags = true).

Lemma may_forward_genuine servers t ofac cache batch pp :
  pipeline_inv servers t → batch ∈ verified_sent t → may_forward ofac cache batch pp →
  genuine servers t pp.
Proof.
  intros [Hserv _ _ Hver] Hb (b & p & Hin & Hp & Hd & Hconv & _).
  destruct (Hver batch b p Hb Hin Hp Hd) as ((server & b0 & p0 & Harr & Hp0 & Hdata & Hfwd) & Hsig).
  unfold packet_to_proto_packet in Hconv. destruct (packet_data p) as [bytes|] eqn:Hbytes; [|done].
  cbn in Hconv. injection Hconv as <-. split; [by apply Hsig|].
  exists server, b0, p0. cbn. repeat split; [by eapply Hserv|done..|].
  intros Hq. eexists _, _. split; [reflexivity|]. split; [reflexivity|]. by apply Hfwd.
Qed.

(** The batches the event loop and the connections of the block engine took, each with the
    lookup tables read at that turn. *)
Abbreviation TablesRead := (gmap Pubkey (AddressLookupTableAccount Pubkey)).
Definition loop_deliveries (log : list RelayerInput) : list (BankingPacketBatch * TablesRead) :=
  omap (λ i, match ri_event i with
             | PacketArm (Some batches) _ _ cache _ => Some (banking_packet_batch batches, cache)
             | _ => None
             end) log.
Definition be_deliveries (sessions : list (option SessionInput)) : list (BankingPacketBatch * TablesRead) :=
  omap (λ ev, match ev with
              | BatchesReceived (Some batches) cache _ _ => Some (be_banking_packet_batch batches, cache)
              | _ => None
              end) (session_events sessions).

(** The packets are of one batch that the signature stage passed on, and by the lookup
    tables read at the turn that took it they may leave. *)
Definition passed_on (ofac : gset Pubkey) (t : TpuPipeline) (taken : list (BankingPacketBatch * TablesRead))
    (pps : list ProtoPacket) : Prop :=
  ∃ batch cache, (batch, cache) ∈ taken ∧ batch ∈ verified_sent t ∧ Forall (may_forward ofac cache batch) pps.

Lemma passed_on_genuine servers ofac t taken pps :
  rtc (tpu_step servers) TpuPipeline_new t → passed_on ofac t taken pps → Forall (genuine servers t) pps.
Proof.
  intros Ht%pipeline_reachable_inv (batch & cache & _ & Hb & Hall). eapply Forall_impl; [exact Hall|].
  intros pp. by eapply may_forward_genuine.
Qed.

(** What the event loop queues for validators, when it is fed from the forwarder. *)
Lemma queued_packets_passed_on t thread_id delay_ms disable_mempool finputs fcaps now
    accepts fr fwd config caps inputs pk c m :
  (∀ i batch, i ∈ live_inputs finputs → fi_recv i = RecvOk batch → batch ∈ verified_sent t) →
  forwarder_thread thread_id delay_ms disable_mempool finputs (Forwarder_new fcaps now accepts)
    = (fr, fwd) →
  delay_received inputs `prefix_of` delay_sent fwd → Forall input_ok (live_inputs inputs) →
  packet_subscriptions (run_event_loop config inputs (Relayer_new caps)).2 !! pk = Some c →
  m ∈ chan_queue c →
  (∃ count, m = heartbeat_msg count) ∨
  ∃ ts out, m = Done {| header_ts := Some ts; msg := Some (Batch out) |} ∧
    (0 < length (packets out) ≤ validator_packet_batch_size config)%nat ∧
    passed_on (ofac_addresses config) t (loop_deliveries (live_inputs inputs)) (packets out).
Proof.
  intros Hfed Hf Hdelay Hok Hc Hm.
  pose proof (run_event_loop_queues_ok config caps inputs Hok pk c Hc) as Hq.
  eapply Forall_forall in Hq; [|exact Hm].
  destruct Hq as [Hbeat|(b & us & ts' & cache & us' & Hev & Hb)]; [by left|right].
  destruct Hb as (t' & out & -> & Hlen & Hall). exists t', out. split; [done|]. split; [done|].
  apply list_elem_of_fmap in Hev as (ri & Hri & Hin).
  exists (banking_packet_batch b), cache. split; [apply list_elem_of_omap; exists ri; by rewrite <-Hri|].
  split; [|done].
  destruct (delay_received_inv _ _ _ _ _ _ _ _ _ inputs b Hf Hdelay) as (i & Hi & Hr); [|by apply (Hfed i)].
  apply list_elem_of_omap. exists ri. by rewrite <-Hri.
Qed.

(** What the block engine is sent, when its connections are fed from the forwarder. *)
Lemma sent_packets_passed_on t thread_id delay_ms disable_mempool finputs fcaps now
    accepts fr fwd ofac ttl sessions st u b out :
  (∀ i batch, i ∈ live_inputs finputs → fi_recv i = RecvOk batch → batch ∈ verified_sent t) →
  forwarder_thread thread_id delay_ms disable_mempool finputs (Forwarder_new fcaps now accepts)
    = (fr, fwd) →
  be_received sessions `sublist_of` be_sent fwd → updates_sent st = [] →
  u ∈ updates_sent (block_engine_thread ofac ttl sessions st).2 →
  update_msg u = Some (Batches b) → epb_batch b = Some out → passed_on ofac t (be_deliveries sessions) (packets out).
Proof.
  intros Hfed Hf Hbe Hst Hu Hmsg Hout.
  destruct (block_engine_updates _ _ _ _ _ _ _ u
    (be_received_offered _ _ _ _ _ _ _ _ _ _ Hf Hbe) Hst Hu) as [[count Hbeat]|Hb]; [congruence|].
  destruct Hb as (i & batch & cache & us & us' & out' & Hi & Hr & _ & Hev & Hmsg' & _ & Hall).
  rewrite Hmsg in Hmsg'. injection Hmsg' as ->. cbn in Hout. injection Hout as ->.
  exists batch, cache. split; [|split; [by apply (Hfed i)|done]].
  apply list_elem_of_omap. eexists. split; [exact Hev|done].
Qed.

(** C3: Only packets whose signatures were verified leave the relayer.  With the
    forwarder fed from the signature stage, and the event loop and the block engine's
    connections fed from the forwarder, every packet ever queued for a validator or sent
    to the block engine carries bytes that one of the QUIC servers received, with valid
    signatures, and is flagged as forwarded if a forwards server received it; whatever
    the servers receive, however the stages interleave, however each thread runs. *)
Theorem only_verified_packets_leave servers t thread_id delay_ms disable_mempool finputs fcaps now
    accepts fr fwd config caps inputs ofac ttl sessions st :
  rtc (tpu_step servers) TpuPipeline_new t →
  (∀ i batch, i ∈ live_inputs finputs → fi_recv i = RecvOk batch → batch ∈ verified_sent t) →
  forwarder_thread thread_id delay_ms disable_mempool finputs (Forwarder_new fcaps now accepts)
    = (fr, fwd) →
  delay_received inputs `prefix_of` delay_sent fwd → Forall input_ok (live_inputs inputs) →
  be_received sessions `sublist_of` be_sent fwd → updates_sent st = [] →
  (∀ pk c ts out,
    packet_subscriptions (run_event_loop config inputs (Relayer_new caps)).2 !! pk = Some c →
    Done {| header_ts := Some ts; msg := Some (Batch out) |} ∈ chan_queue c →
    Forall (genuine servers t) (packets out)) ∧
  (∀ u b out, u ∈ updates_sent (block_engine_thread ofac ttl sessions st).2 →
    update_msg u = Some (Batches b) → epb_batch b = Some out → Forall (genuine servers t) (packets out)).
Proof.
  intros Ht Hfed Hf Hdelay Hok Hbe Hst. split.
  - intros pk c ts out Hc Hm. eapply passed_on_genuine; [done|].
    eapply queued_packets_passed_on in Hm as [[count [=]]|(ts' & out' & [= _ <-] & _ & Hout)]; [exact Hout|done..].
  - intros u b out Hu Hmsg Hout. eapply passed_on_genuine, sent_packets_passed_on; done.
Qed.
End whole_path.

(** ** Concrete inputs *)

(** A batch comes at time zero, is offered to the block engine, and released after 300
    milliseconds. *)
Definition toy_batch : BankingPacketBatch :=
  [[toy_packet 0 (Some (toy_transaction "qp")); toy_packet 0 (Some (toy_transaction "px"))];
   [toy_packet 0 (Some (toy_transaction "qr"))]].
Definition toy_arrivals : list (option ForwarderInput) :=
  [Some (toy_input (RecvOk toy_batch) 0); Some (toy_input RecvTimeoutErr 300000000)].

Lemma validators_data_path_witness :
  let input ev := {| ri_receivers _ c := c; ri_event := ev; ri_capacities := (1, 1, 1);
                     ri_lens := (0, 0, 0) |} in
  let delivery := {| stamp := 0; banking_packet_batch := toy_batch |} in
  let inputs := [Some (input (SubscriptionArm (Some ("a"%char, toy_sender false)) 1));
                 Some (input (PacketArm (Some delivery) 9 (λ _ _, 3) ∅ 5))] in
  let fwd := (forwarder_thread 0 200 false toy_arrivals (Forwarder_new (8, 8, 8) 0 None)).2 in
  let st := (run_event_loop toy_config inputs (Relayer_new (1, 1, 1))).2 in
  delay_received inputs `prefix_of` delay_sent fwd ∧
  Forall input_ok (live_inputs inputs) ∧
  ∃ c m, packet_subscriptions st !! "a"%char = Some c ∧ m ∈ chan_queue c ∧
    ∃ t out, m = Done {| header_ts := Some t; msg := Some (Batch out) |} ∧
      Forall (may_forward {["x"%char]} ∅ toy_batch) (packets out).
Proof.
  intros input delivery inputs fwd st.
  assert (Hchan : delay_received inputs `prefix_of` delay_sent fwd) by (exists []; vm_refl).
  assert (Hok : Forall input_ok (live_inputs inputs)).
  { repeat constructor; cbn; try done; by intros ?. }
  split; [exact Hchan|]. split; [exact Hok|].
  destruct (validators_data_path 0 200 false toy_arrivals (8, 8, 8) 0 None (Done Running) fwd
    toy_config (1, 1, 1) inputs ltac:(vm_refl) Hchan Hok) as (_ & _ & Hsafe).
  assert (Hq : match chan_queue <$> packet_subscriptions st !! "a"%char with
    | Some [Done {| msg := Some (Batch _) |}] => True | _ => False end) by (vm_compute; exact I).
  destruct (packet_subscriptions st !! "a"%char) as [c|] eqn:Hc; [|by destruct Hq].
  cbn [fmap option_fmap option_map] in Hq.
  destruct (chan_queue c) as [|m []] eqn:Hcq; [by destruct Hq| |by destruct m as [[? [[]|]]| |]].
  assert (Hm : m ∈ chan_queue c) by (rewrite Hcq; by left).
  assert (Hne : ∀ count, m ≠ heartbeat_msg count) by (intros count ->; by destruct Hq).
  exists c, m. split; [reflexivity|]. split; [exact Hm|].
  destruct (Hsafe "a"%char c m Hc Hm) as [[count Hbeat]|Hb]; [by destruct (Hne count)|].
  destruct Hb as (b & us & ts & cache & us' & t & out & Hev & Hmsg & _ & Hall).
  exists t, out. split; [exact Hmsg|]. cbn in Hev. rewrite !elem_of_cons in Hev.
  destruct Hev as [?|[[= -> -> -> -> ->]|[]%not_elem_of_nil]]; [done|exact Hall].
Defined.

Lemma block_engine_data_path_witness :
  let fwd := (forwarder_thread 0 200 false toy_arrivals (Forwarder_new (8, 8, 8) 0 None)).2 in
  let delivery := {| be_banking_packet_batch := toy_batch; be_stamp := 1000; expiration := 200 |} in
  let events := [Some (PoiMessage (inr (Some ["Kp"; "bad"]%string)) 3, 1000);
                 Some (BatchesReceived (Some delivery) ∅ 3 3, 1000)] in
  let session := {toy_session with se_events := events} in
  let st := toy_engine (toy_be_token 0) (toy_be_token 0) in
  let final := (block_engine_thread {["x"%char]} 300 [Some session] st).2 in
  be_received [Some session] `sublist_of` be_sent fwd ∧
  ∃ u b, updates_sent final = [u] ∧ update_msg u = Some (Batches b) ∧ epb_header_ts b = Some 1000.
Proof.
  intros fwd delivery events session st final.
  assert (Hchan : be_received [Some session] `sublist_of` be_sent fwd).
  { replace (be_sent fwd) with (be_received [Some session]) by vm_refl. done. }
  split; [exact Hchan|].
  destruct (block_engine_data_path 0 200 false toy_arrivals (8, 8, 8) 0 None (Done Running) fwd
    {["x"%char]} 300 [Some session] st ltac:(vm_refl) Hchan eq_refl) as [_ Hsafe].
  assert (Hq : match map update_msg (updates_sent final) with
    | [Some (Batches _)] => True | _ => False end) by (vm_compute; exact I).
  destruct (updates_sent final) as [|u []] eqn:Hu; [by destruct Hq| |by destruct (update_msg u) as [[]|]].
  assert (Hne : ∀ count, update_msg u ≠ Some (BeHeartbeat count))
    by (cbn in Hq; intros count Hbeat; rewrite Hbeat in Hq; by destruct Hq).
  destruct (Hsafe u) as [[count Hbeat]|(i & b & _ & _ & _ & out & Hi & Hr & _ & _ & Hmsg & _)].
  { fold final. rewrite Hu. by left. }
  { by destruct (Hne count). }
  eexists u, _. split; [reflexivity|]. split; [exact Hmsg|]. cbn.
  unfold toy_arrivals in Hi. cbn in Hi. rewrite !elem_of_cons in Hi.
  destruct Hi as [->|[->|[]%not_elem_of_nil]]; [reflexivity|done].
Defined.

(** Three transaction servers and two forwards servers, on the default ports; the second
    packet of the first batch has no valid signature, the second batch is forwarded. *)
Definition toy_tpu_servers : list QuicServer :=
  Tpu_new {| transactions_quic_sockets := [11228; 11229; 11230];
             transactions_forwards_quic_sockets := [11239; 11240] |} 500 2000.
Definition toy_direct_server : QuicServer :=
  {| quic_socket := 11228; quic_queue := TpuReceiver; max_staked_connections := 2000;
     max_unstaked_connections := 500 |}.
Definition toy_forwards_server : QuicServer :=
  {| quic_socket := 11240; quic_queue := TpuForwardsReceiver; max_staked_connections := 2500;
     max_unstaked_connections := 0 |}.
Definition toy_forged : ToyPacket :=
  {| toy_meta := {| meta_size := 4; meta_addr := IpV4 1 2 3 4; meta_port := 1000; meta_flags := 0 |};
     toy_data := [Byte.x00]; toy_tx := Some (toy_transaction "q") |}.
Definition toy_forwarded : PacketBatch := [toy_packet 0 (Some (toy_transaction "qr"))].
Definition toy_direct : PacketBatch := [toy_packet 0 (Some (toy_transaction "qp")); toy_forged].
Definition toy_pipeline : TpuPipeline :=
  let t := server_sends toy_forwards_server toy_forwarded TpuPipeline_new in
  let t := server_sends toy_direct_server toy_direct t in
  let t := default t (fetch_stage_turn t) in
  sigverify_turn 2 (default t (fetch_stage_sends t)).
Definition toy_verified : BankingPacketBatch := default [] (last (verified_sent toy_pipeline)).

Lemma toy_pipeline_reachable : rtc (tpu_step toy_tpu_servers) TpuPipeline_new toy_pipeline.
Proof.
  eapply rtc_l; [apply (step_server _ _ toy_forwards_server toy_forwarded);
    [by do 4 right; left|apply Nat.ltb_lt; vm_refl]|].
  eapply rtc_l; [apply (step_server _ _ toy_direct_server toy_direct); [by left|apply Nat.ltb_lt; vm_refl]|].
  eapply rtc_l; [apply step_fetch; unfold fetch_stage_turn; reflexivity|].
  eapply rtc_l; [apply step_fetch_sends, fetch_stage_sends_some; eexists _, _;
    split_and!; [reflexivity|apply Nat.ltb_lt; vm_refl|reflexivity]|].
  match goal with |- rtc _ ?t _ =>
    replace toy_pipeline with (sigverify_turn 2 t) by vm_refl end.
  apply rtc_once, step_sigverify.
Qed.

Lemma toy_verified_sent : verified_sent toy_pipeline = [toy_verified].
Proof. vm_refl. Qed.

Definition toy_relayer_input (ev : RelayerEvent) : RelayerInput :=
  {| ri_receivers _ c := c; ri_event := ev; ri_capacities := (1, 1, 1); ri_lens := (0, 0, 0) |}.
Definition toy_finputs : list (option ForwarderInput) :=
  [Some (toy_input (RecvOk toy_verified) 0); Some (toy_input RecvTimeoutErr 300000000)].
Definition toy_fwd : Forwarder :=
  (forwarder_thread 0 200 false toy_finputs (Forwarder_new (8, 8, 8) 0 None)).2.
Definition toy_inputs : list (option RelayerInput) :=
  [Some (toy_relayer_input (SubscriptionArm (Some ("a"%char, toy_sender false)) 1));
   Some (toy_relayer_input (PacketArm
     (Some {| stamp := 0; banking_packet_batch := toy_verified |}) 9 (λ _ _, 3) ∅ 5))].
Definition toy_queue : option (list (Outcome Status SubscribePacketsResponse)) :=
  chan_queue <$> packet_subscriptions
    (run_event_loop toy_config toy_inputs (Relayer_new (1, 1, 1))).2 !! "a"%char.

Lemma toy_feeds i batch : i ∈ live_inputs toy_finputs → fi_recv i = RecvOk batch →
  batch ∈ verified_sent toy_pipeline.
Proof.
  intros Hi Hr. rewrite toy_verified_sent. unfold toy_finputs in Hi. cbn [live_inputs] in Hi.
  rewrite !elem_of_cons in Hi. destruct Hi as [->|[->|[]%not_elem_of_nil]]; [|done].
  injection Hr as <-. by left.
Qed.
Lemma toy_forwarded_run :
  forwarder_thread 0 200 false toy_finputs (Forwarder_new (8, 8, 8) 0 None) = (Done Running, toy_fwd) ∧
  delay_received toy_inputs = delay_sent toy_fwd ∧
  match toy_queue with
  | Some [Done {| header_ts := Some t; msg := Some (Batch out) |}] => length (packets out) = 2%nat
  | _ => False
  end.
Proof. split; [|split]; [vm_refl..|]. vm_compute. reflexivity. Qed.

Lemma only_verified_packets_leave_witness :
  ∃ t out, toy_queue = Some [Done {| header_ts := Some t; msg := Some (Batch out) |}] ∧
    length (packets out) = 2%nat ∧ Forall (genuine toy_tpu_servers toy_pipeline) (packets out).
Proof.
  destruct toy_forwarded_run as (Hrun & Hdelay & Hq).
  destruct (only_verified_packets_leave toy_tpu_servers toy_pipeline 0 200 false toy_finputs (8, 8, 8) 0
    None (Done Running) toy_fwd toy_config (1, 1, 1) toy_inputs ∅ 300 []
    (toy_engine (toy_be_token 0) (toy_be_token 0)) toy_pipeline_reachable toy_feeds Hrun)
    as [Hval _].
  - rewrite Hdelay. reflexivity.
  - repeat constructor; cbn; try done; by intros ?.
  - apply sublist_nil_l.
  - reflexivity.
  - unfold toy_queue in *. destruct (packet_subscriptions _ !! "a"%char) as [c|] eqn:Hc; [|by destruct Hq].
    cbn [fmap option_fmap option_map] in *.
    destruct (chan_queue c) as [|[[[t|] [[out|]|]]| |] []] eqn:Hcq; try by destruct Hq.
    exists t, out. split; [reflexivity|]. split; [exact Hq|].
    apply (Hval "a"%char c t out Hc). rewrite Hcq. by left.
Defined.
