(* ===== verification/System.v ===== *)
(** * The running relayer ([transaction-relayer/src/main.rs])

    The threads that [main] starts, joined by the channels it makes, as one transition
    system: the stages of the TPU (Tpu.v), the forwarder (Forwarder.v), the subscription
    threads (LoadBalancer.v), the health manager (HealthManager.v), the subscription
    handler and the event loop (Relayer.v).  Every step is a step of one component's own
    model.  A channel with a capacity blocks its sender: what a thread has handed to
    [send] and what has entered the channel are told apart.  The channel to the block
    engine refuses instead, and the client at its other end (BlockEngine.v) takes from it
    when it is connected.

    The invariant: the inputs each thread has gone through are those the others sent, in
    order, and no channel exceeds its capacity ([system_reachable]); so what the theorems
    of DataPath.v and ControlPath.v say holds in every reachable state. *)

From S2P Require Import Prelude External Instances Packets ScheduleCache HealthManager LoadBalancer.
From S2P Require Import AuthInterceptor AuthService Forwarder Relayer RelayerAccounting ControlPath.
From S2P Require Import BlockEngine Tpu DataPath.
Local Open Scope Z_scope.

(** A bounded channel over the sequence of messages its sender handed to [send]: how many
    entered the channel, and how many the receiver took. *)
Record Link := { pushed : nat; popped : nat }.
Definition in_flight (l : Link) : nat := (pushed l - popped l)%nat.
Definition Link_new : Link := {| pushed := 0; popped := 0 |}.
Definition push (l : Link) : Link := {| pushed := S (pushed l); popped := popped l |}.
Definition pop (l : Link) : Link := {| pushed := pushed l; popped := S (popped l) |}.

Section system.
Context `{Sdk} `{!IpText} `{!Channels} `{!Histograms} `{!HashOrder Pubkey} `{!HashOrder Slot}.
Context `{!NetUtils} `{!SigVerifier}.
Context `{!HashOrder string}.

(** What [main] hands to the threads, and the instants at which it starts them. *)
Record SystemConfig := {
  quic_servers : list QuicServer;
  rpc_servers : list (string * string);
  packet_delay_ms : Z;
  mempool_disabled : bool;
  health_threshold : Z;
  loop_config : RelayerConfig;
  forwarder_start : (Z * Z * Z) * Z;
  health_start : Z;
  loop_capacities : capacities;
  grpc_start : RelayerImpl }.
Variable cfg : SystemConfig.

(** The state of each thread, what each has gone through so far, and the channels. *)
Record System := {
  tpu_part : TpuPipeline;
  verified_taken : nat;
  fwd : Forwarder;
  fwd_log : list ForwarderInput;
  delay_link : Link;
  be_taken : nat;
  balancer : Threads;
  slots_taken : nat;
  health : HealthManager;
  health_log : list (HealthEvent * Z);
  slot_link : Link;
  grpc : RelayerImpl;
  subs_taken : nat;
  event_loop : Relayer;
  loop_log : list RelayerInput }.

Definition System_new : System :=
  {| tpu_part := TpuPipeline_new; verified_taken := 0;
     fwd := Forwarder_new (forwarder_start cfg).1 (forwarder_start cfg).2 None; fwd_log := []; delay_link := Link_new; be_taken := 0;
     balancer := threads_init unit (λ _, tt) (rpc_servers cfg); slots_taken := 0;
     health := HealthManager_new (health_start cfg); health_log := []; slot_link := Link_new;
     grpc := grpc_start cfg; subs_taken := 0;
     event_loop := Relayer_new (loop_capacities cfg); loop_log := [] |}.

(** A thread blocked in [send] makes no turn. *)
Definition forwarder_free (s : System) : Prop := pushed (delay_link s) = length (delay_sent (fwd s)).
Definition health_free (s : System) : Prop := pushed (slot_link s) = length (slots_forwarded (health s)).

Definition forwarder_turn (i : ForwarderInput) (fwd' : Forwarder) (s : System) : System :=
  {s with fwd := fwd'; fwd_log ::= (λ l, l ++ [i]);
          verified_taken ::= (λ n, match fi_recv i with RecvOk _ => S n | _ => n end)}.
Definition health_turn (i : HealthEvent * Z) (health' : HealthManager) (s : System) : System :=
  {s with health := health'; health_log ::= (λ l, l ++ [i]);
          slots_taken ::= (λ n, match i.1 with SlotReceived _ _ _ => S n | _ => n end)}.
Definition loop_turn (i : RelayerInput) (loop' : Relayer) (s : System) : System :=
  {s with event_loop := loop'; loop_log ::= (λ l, l ++ [i]);
          slot_link ::= (λ l, match ri_event i with SlotArm _ _ _ => pop l | _ => l end);
          delay_link ::= (λ l, match ri_event i with PacketArm _ _ _ _ _ => pop l | _ => l end);
          subs_taken ::= (λ n, match ri_event i with SubscriptionArm _ _ => S n | _ => n end)}.

(** The channel to the block engine refuses a batch exactly when it is full. *)
Definition be_queued (s : System) : Z := Z.of_nat (length (be_sent (fwd s)) - be_taken s).
Definition be_answers (answer : option TrySendError) (s : System) : Prop :=
  match answer with
  | None => be_queued s < BLOCK_ENGINE_FORWARDER_QUEUE_CAPACITY
  | Some Full => BLOCK_ENGINE_FORWARDER_QUEUE_CAPACITY <= be_queued s
  | Some Closed => False
  end.

(** What the forwarder and the health manager may find in their channels. *)
Definition forwarder_receives (i : ForwarderInput) (s : System) : Prop :=
  match fi_recv i with
  | RecvOk batch => verified_sent (tpu_part s) !! verified_taken s = Some batch ∧
      (mempool_disabled cfg = false → be_answers (fi_be_answer i) s)
  | RecvTimeoutErr => True
  | RecvDisconnected => False
  end.
Definition health_receives (ev : HealthEvent) (s : System) : Prop :=
  match ev with
  | SlotReceived maybe_slot alive _ =>
      alive = true ∧ ∃ slot, maybe_slot = Some slot ∧
        slots_sent (shared (balancer s)) !! slots_taken s = Some slot
  | _ => True
  end.

(** What the event loop may find: the first message in a channel, or a tick, and the
    health state as it is. *)
Definition loop_receives (ev : RelayerEvent) (s : System) : Prop :=
  match ev with
  | SlotArm maybe_slot _ _ => (popped (slot_link s) < pushed (slot_link s))%nat ∧
      ∃ slot, maybe_slot = Some slot ∧
        slots_forwarded (health s) !! popped (slot_link s) = Some slot
  | PacketArm maybe_batches _ _ _ _ => (popped (delay_link s) < pushed (delay_link s))%nat ∧
      ∃ batches, maybe_batches = Some batches ∧
        delay_sent (fwd s) !! popped (delay_link s) = Some batches
  | SubscriptionArm maybe_subscription _ =>
      ∃ subscription, maybe_subscription = Some subscription ∧
        subscription_queue (grpc s) !! subs_taken s = Some subscription
  | HeartbeatArm _ health_state _ => health_state = state (health s)
  | MetricsArm _ _ => True
  end.

(** The validators only take messages out of their streams. *)
Definition streams_shrink (i : RelayerInput) : Prop :=
  ∀ pk c, chan_queue (ri_receivers i pk c) ⊆ chan_queue c.

Local Abbreviation forwarder_body := (forwarder_iteration 0 (packet_delay_ms cfg) (mempool_disabled cfg)).
Local Abbreviation health_body := (health_iteration (health_threshold cfg)).
Local Abbreviation loop_body := (relayer_iteration (loop_config cfg)).

(** The steps that move on what is already inside: the turns that receive a message or
    release one, and the sends that find room. *)
Inductive moves : System → System → Prop :=
| move_fetch s tpu' :
    fetch_stage_turn (tpu_part s) = Some tpu' → moves s {s with tpu_part := tpu'}
| move_fetched s tpu' :
    fetch_stage_sends (tpu_part s) = Some tpu' → moves s {s with tpu_part := tpu'}
| move_sigverify s taken :
    (0 < taken ≤ length (tpu_queue (tpu_part s)))%nat →
    moves s {s with tpu_part := sigverify_turn taken (tpu_part s)}
| move_forwarder s i fwd' :
    forwarder_free s → forwarder_receives i s → forwarder_body i (fwd s) = (Done tt, fwd') →
    (fi_recv i ≠ RecvTimeoutErr ∨ delay_sent fwd' ≠ delay_sent (fwd s)) →
    moves s (forwarder_turn i fwd' s)
| move_delayed s :
    (pushed (delay_link s) < length (delay_sent (fwd s)))%nat →
    (in_flight (delay_link s) < TPU_QUEUE_CAPACITY)%nat →
    moves s {s with delay_link ::= push}
| move_health s maybe_slot alive now len health' :
    let i := (SlotReceived maybe_slot alive now, len) in
    health_free s → health_receives i.1 s → health_body i (health s) = (Done tt, health') →
    moves s (health_turn i health' s)
| move_slot s :
    (pushed (slot_link s) < length (slots_forwarded (health s)))%nat →
    (in_flight (slot_link s) < SLOT_QUEUE_CAPACITY)%nat →
    moves s {s with slot_link ::= push}
| move_loop s i loop' :
    streams_shrink i → loop_receives (ri_event i) s →
    match ri_event i with HeartbeatArm _ _ _ | MetricsArm _ _ => False | _ => True end →
    loop_body i (event_loop s) = (Done tt, loop') →
    moves s (loop_turn i loop' s).

(** Besides, packets, slots and subscriptions come in, the block engine takes batches while
    it is connected, and time passes.  A handler read the
    health state some time before its subscription finds room. *)
Inductive sys_step : System → System → Prop :=
| step_moves s s' : moves s s' → sys_step s s'
| step_tpu s tpu' :
    tpu_step (quic_servers cfg) (tpu_part s) tpu' → sys_step s {s with tpu_part := tpu'}
| step_balancer s balancer' :
    lb_step (balancer s) balancer' →
    slots_sent (shared balancer') = slots_sent (shared (balancer s)) ∨
      (length (slots_sent (shared (balancer s))) - slots_taken s < SLOT_QUEUE_CAPACITY)%nat →
    sys_step s {s with balancer := balancer'}
| step_forwarder_idle s i fwd' :
    forwarder_free s → fi_recv i = RecvTimeoutErr → forwarder_body i (fwd s) = (Done tt, fwd') →
    sys_step s (forwarder_turn i fwd' s)
| step_block_engine s :
    (be_taken s < length (be_sent (fwd s)))%nat → sys_step s {s with be_taken ::= S}
| step_health_tick s ev len health' :
    health_free s → match ev with SlotReceived _ _ _ => False | _ => True end →
    health_body (ev, len) (health s) = (Done tt, health') →
    sys_step s (health_turn (ev, len) health' s)
| step_subscribe s health_read extension sender grpc' :
    (length (subscription_queue (grpc s)) - subs_taken s < SLOT_QUEUE_CAPACITY)%nat →
    subscribe_packets health_read extension (grpc s) = (Done sender, grpc') →
    sys_step s {s with grpc := grpc'}
| step_loop_tick s i loop' :
    streams_shrink i → loop_receives (ri_event i) s →
    match ri_event i with HeartbeatArm _ _ _ | MetricsArm _ _ => True | _ => False end →
    loop_body i (event_loop s) = (Done tt, loop') →
    sys_step s (loop_turn i loop' s).

(** A step that is no subscription. *)
Definition quiet_step (s s' : System) : Prop :=
  sys_step s s' ∧ subscription_queue (grpc s') = subscription_queue (grpc s).
End system.

(** ** What holds in every reachable state *)

Section invariant.
Context `{SD : Sdk} `{IT : !IpText} `{!Channels} `{!Histograms} `{!HashOrder Pubkey} `{!HashOrder Slot}.
Context `{!NetUtils} `{!SigVerifier} `{!HashOrder string}.
Context `{!ChannelsLaws} `{!HashOrderLaws Pubkey}.
Variable cfg : SystemConfig.
Hypothesis no_subscription_yet : subscription_queue (grpc_start cfg) = [].
Implicit Types (s : System).

Local Abbreviation forwarder_run := (forwarder_thread 0 (packet_delay_ms cfg) (mempool_disabled cfg)).
Local Abbreviation health_run := (manager_thread (health_threshold cfg)).
Local Abbreviation loop_run := (run_event_loop (loop_config cfg)).
Local Abbreviation forwarder_body := (forwarder_iteration 0 (packet_delay_ms cfg) (mempool_disabled cfg)).
Local Abbreviation health_body := (health_iteration (health_threshold cfg)).
Local Abbreviation loop_body := (relayer_iteration (loop_config cfg)).

(** What the event loop took from the subscription handler. *)
Definition loop_subscriptions (log : list RelayerInput) :=
  omap (λ i, match ri_event i with SubscriptionArm subscription _ => subscription | _ => None end) log.

(** What the forwarder took from the verified channel. *)
Definition verified_received (log : list ForwarderInput) : list BankingPacketBatch :=
  omap (λ i, match fi_recv i with RecvOk batch => Some batch | _ => None end) log.

(** The forwarder has gone through its log, with what it took from the signature stage. *)
Record fwd_inv (t : TpuPipeline) (taken : nat) (log : list ForwarderInput) (f : Forwarder) : Prop := {
  fi_pipeline : rtc (tpu_step (quic_servers cfg)) TpuPipeline_new t;
  fi_run : forwarder_run (Some <$> log) (Forwarder_new (forwarder_start cfg).1 (forwarder_start cfg).2 None)
    = (Done Running, f);
  fi_taken : (taken ≤ length (verified_sent t))%nat;
  fi_received : verified_received log = take taken (verified_sent t);
  fi_accepts : delay_accepts f = None }.

(** The health manager has, with what it took from the subscription threads. *)
Record health_inv (t : Threads) (taken : nat) (log : list (HealthEvent * Z)) (h : HealthManager) : Prop := {
  hi_threads : rtc lb_step (threads_init unit (λ _, tt) (rpc_servers cfg)) t;
  hi_run : health_run (Some <$> log) (HealthManager_new (health_start cfg)) = (Done Running, h);
  hi_taken : (taken ≤ length (slots_sent (shared t)))%nat;
  hi_received : manager_slots (Some <$> log) = take taken (slots_sent (shared t)) }.

(** The event loop has, with what it took from both and from the subscription handler. *)
Record loop_inv (delayed : list RelayerPacketBatches) (slots : list Z) (g : RelayerImpl)
    (dl sl : Link) (subs : nat) (log : list RelayerInput) (r : Relayer) : Prop := {
  li_run : loop_run (Some <$> log) (Relayer_new (loop_capacities cfg)) = (Done Running, r);
  li_ok : Forall input_ok log;
  li_batches : delay_received (Some <$> log) = take (popped dl) delayed;
  li_slots : (loop_slots (Some <$> log)).*1 = take (popped sl) slots;
  li_subs : loop_subscriptions log = take subs (subscription_queue g);
  li_fresh : Forall (λ x, chan_queue x.2 = []) (subscription_queue g) }.

(** Messages enter a channel in order, leave it in order, and find room. *)
Record link_ok (cap sent : nat) (l : Link) : Prop := {
  lk_popped : (popped l ≤ pushed l)%nat;
  lk_pushed : (pushed l ≤ sent)%nat;
  lk_room : (in_flight l ≤ cap)%nat }.
Definition queue_ok (cap sent taken : nat) : Prop := (taken ≤ sent)%nat ∧ (sent - taken ≤ cap)%nat.

Record sys_inv s : Prop := {
  sys_fwd : fwd_inv (tpu_part s) (verified_taken s) (fwd_log s) (fwd s);
  sys_health : health_inv (balancer s) (slots_taken s) (health_log s) (health s);
  sys_loop : loop_inv (delay_sent (fwd s)) (slots_forwarded (health s)) (grpc s)
    (delay_link s) (slot_link s) (subs_taken s) (loop_log s) (event_loop s);
  sys_delayed : link_ok TPU_QUEUE_CAPACITY (length (delay_sent (fwd s))) (delay_link s);
  sys_slots : link_ok SLOT_QUEUE_CAPACITY (length (slots_forwarded (health s))) (slot_link s);
  sys_be : (be_taken s ≤ length (be_sent (fwd s)))%nat ∧
    be_queued s <= BLOCK_ENGINE_FORWARDER_QUEUE_CAPACITY;
  sys_balancer : queue_ok SLOT_QUEUE_CAPACITY (length (slots_sent (shared (balancer s)))) (slots_taken s);
  sys_subs : queue_ok SLOT_QUEUE_CAPACITY (length (subscription_queue (grpc s))) (subs_taken s) }.

#[local] Arguments health_iteration : simpl never.
#[local] Arguments relayer_iteration : simpl never.
#[local] Arguments forwarder_iteration : simpl never.
#[local] Arguments sigverify_turn : simpl never.

(** What a step leaves alone keeps its part of the invariant. *)
Local Ltac sys_split := split; cbn; unfold constant; try done.

(** *** Channels *)

Lemma link_ok_sent cap sent sent' l : (sent ≤ sent')%nat → link_ok cap sent l → link_ok cap sent' l.
Proof. intros Hs []. split; [done|lia|done]. Qed.
Lemma link_ok_push cap sent l :
  (pushed l < sent)%nat → (in_flight l < cap)%nat → link_ok cap sent l → link_ok cap sent (push l).
Proof. unfold in_flight. intros Hs Hr []. split; unfold in_flight in *; cbn; lia. Qed.
Lemma link_ok_pop cap sent l : (popped l < pushed l)%nat → link_ok cap sent l → link_ok cap sent (pop l).
Proof. intros Hp []. split; unfold in_flight in *; cbn; lia. Qed.

(** *** What the senders hand over only grows *)

Lemma lb_step_grows t t' : lb_step t t' → ∃ l, slots_sent (shared t') = slots_sent (shared t) ++ l ∧
  (length l ≤ 1)%nat.
Proof.
  intros Hstep. destruct Hstep as [[[] pcs] i url slot|[[] pcs] i url slot|[[sl hs sent alive] pcs] i url slot]; cbn.
  - exists []. rewrite app_nil_r. split; [done|cbn; lia].
  - exists []. rewrite app_nil_r. split; [done|cbn; lia].
  - destruct alive; cbn; [by exists [slot]|]. exists []. rewrite app_nil_r. split; [done|cbn; lia].
Qed.

Lemma tpu_step_grows t t' :
  tpu_step (quic_servers cfg) t t' → ∃ l, verified_sent t' = verified_sent t ++ l.
Proof.
  inversion 1 as [? server batch _ _ Heq|? ? Ht|? ? Ht|? taken Heq]; subst.
  - exists []. rewrite app_nil_r. unfold server_sends. by destruct (quic_queue server).
  - exists []. rewrite app_nil_r. by apply fetch_stage_turn_inv_some in Ht as (? & ? & ? & _ & _ & ->).
  - exists []. rewrite app_nil_r. by apply fetch_stage_sends_some in Ht as (? & ? & _ & _ & ->).
  - by eexists.
Qed.

(** *** The turns of the threads *)

Lemma forwarder_body_sent i st st' :
  forwarder_body i st = (Done tt, st') →
  (∃ l, delay_sent st' = delay_sent st ++ l) ∧
  be_sent st' = be_sent st ++ Forwarder.offered (packet_delay_ms cfg) (mempool_disabled cfg) i.
Proof. intros (sent & _ & Hsent & Hbe & _)%forwarder_iteration_done. split; [by exists sent|done]. Qed.
Lemma health_body_sent i st st' :
  health_body i st = (Done tt, st') → slots_forwarded st' = slots_forwarded st ++ slots_of [i.1].
Proof.
  intros Hi. destruct (health_iteration_forwards (health_threshold cfg) i st) as (l & Hl & _ & Hd).
  rewrite Hi in Hl, Hd. cbn in Hl. by rewrite Hl, (Hd tt).
Qed.

Lemma fwd_inv_turn t taken log f i f' :
  fwd_inv t taken log f →
  match fi_recv i with
  | RecvOk batch => verified_sent t !! taken = Some batch
  | RecvTimeoutErr => True
  | RecvDisconnected => False
  end →
  forwarder_body i f = (Done tt, f') →
  fwd_inv t (match fi_recv i with RecvOk _ => S taken | _ => taken end) (log ++ [i]) f'.
Proof.
  intros [Hp Hrun Ht Hr Hacc] Hrecv Hi. split; [done|by eapply run_loop_snoc|..].
  - destruct (fi_recv i); [|done..]. by apply lookup_lt_Some in Hrecv.
  - unfold verified_received in *. rewrite omap_app, Hr. cbn.
    destruct (fi_recv i); [|by rewrite app_nil_r..]. by rewrite (take_S_r _ _ _ Hrecv).
  - pose proof (forwarder_iteration_accepts 0 (packet_delay_ms cfg) (mempool_disabled cfg) i f Hacc) as Ha. by rewrite Hi in Ha.
Qed.

Lemma health_inv_turn t taken log h i h' :
  health_inv t taken log h →
  match i.1 with
  | SlotReceived maybe_slot _ _ => ∃ slot, maybe_slot = Some slot ∧ slots_sent (shared t) !! taken = Some slot
  | _ => True
  end →
  health_body i h = (Done tt, h') →
  health_inv t (match i.1 with SlotReceived _ _ _ => S taken | _ => taken end) (log ++ [i]) h'.
Proof.
  intros [Hp Hrun Ht Hr] Hrecv Hi. split; [done|by eapply run_loop_snoc|..].
  - destruct i.1; [done| |done]. destruct Hrecv as (slot & _ & Hslot). by apply lookup_lt_Some in Hslot.
  - unfold manager_slots, slots_of in *. rewrite live_inputs_some in *.
    rewrite fmap_app, omap_app, Hr. cbn.
    destruct i.1 as [|maybe alive now|]; [by rewrite app_nil_r| |by rewrite app_nil_r].
    destruct Hrecv as (slot & -> & Hslot). by rewrite (take_S_r _ _ _ Hslot).
Qed.

Lemma loop_inv_turn delayed slots g dl sl subs log r i r' :
  loop_inv delayed slots g dl sl subs log r → streams_shrink i →
  match ri_event i with
  | SlotArm maybe_slot _ _ => ∃ slot, maybe_slot = Some slot ∧ slots !! popped sl = Some slot
  | PacketArm maybe _ _ _ _ => ∃ batches, maybe = Some batches ∧ delayed !! popped dl = Some batches
  | SubscriptionArm maybe _ => ∃ sub, maybe = Some sub ∧ subscription_queue g !! subs = Some sub
  | _ => True
  end →
  loop_body i r = (Done tt, r') →
  loop_inv delayed slots g (match ri_event i with PacketArm _ _ _ _ _ => pop dl | _ => dl end)
    (match ri_event i with SlotArm _ _ _ => pop sl | _ => sl end)
    (match ri_event i with SubscriptionArm _ _ => S subs | _ => subs end) (log ++ [i]) r'.
Proof.
  intros [Hrun Hok Hb Hs Hsub Hfr] Hshrink Hrecv Hi. unfold delay_received, loop_slots in *.
  rewrite live_inputs_some in Hb, Hs.
  split; [by eapply run_loop_snoc|..|done]; unfold delay_received, loop_slots, loop_subscriptions;
    rewrite ?live_inputs_some, ?omap_app, ?fmap_app.
  - apply Forall_app. split; [done|]. apply Forall_singleton. split; [done|].
    destruct (ri_event i) as [| |[[pk sender]|]| |]; try done.
    destruct Hrecv as (x & [= <-] & Hx). exact (Forall_lookup_1 _ _ _ _ Hfr Hx).
  - rewrite Hb. cbn. destruct (ri_event i) as [|maybe| | |]; try by rewrite app_nil_r.
    destruct Hrecv as (batches & -> & Hx). cbn. by rewrite (take_S_r _ _ _ Hx).
  - rewrite Hs. cbn. destruct (ri_event i) as [maybe| | | |]; try by rewrite app_nil_r.
    destruct Hrecv as (slot & -> & Hx). cbn. by rewrite (take_S_r _ _ _ Hx).
  - unfold loop_subscriptions in Hsub. rewrite Hsub. cbn.
    destruct (ri_event i) as [| |maybe| |]; try by rewrite app_nil_r.
    destruct Hrecv as (sub & -> & Hx). by rewrite (take_S_r _ _ _ Hx).
Qed.

(** What the event loop may still find, it finds after more has been sent. *)
Lemma loop_inv_grows delayed slots g dl sl subs log r delayed' slots' :
  (popped dl ≤ length delayed)%nat → (popped sl ≤ length slots)%nat →
  loop_inv delayed slots g dl sl subs log r →
  loop_inv (delayed ++ delayed') (slots ++ slots') g dl sl subs log r.
Proof. intros Hd Hs []. split; rewrite ?take_app_le; done. Qed.

Lemma loop_inv_push delayed slots g dl sl subs log r :
  loop_inv delayed slots g dl sl subs log r →
  loop_inv delayed slots g (push dl) sl subs log r ∧ loop_inv delayed slots g dl (push sl) subs log r.
Proof. by intros []. Qed.

Lemma be_queued_turn i s f' :
  forwarder_receives cfg i s → be_queued s <= BLOCK_ENGINE_FORWARDER_QUEUE_CAPACITY →
  (be_taken s ≤ length (be_sent (fwd s)))%nat →
  be_sent f' = be_sent (fwd s) ++ Forwarder.offered (packet_delay_ms cfg) (mempool_disabled cfg) i →
  (be_taken s ≤ length (be_sent f'))%nat ∧
  Z.of_nat (length (be_sent f') - be_taken s) <= BLOCK_ENGINE_FORWARDER_QUEUE_CAPACITY.
Proof.
  unfold forwarder_receives, be_answers, be_queued. intros Hr Hle Ht ->. rewrite length_app.
  unfold Forwarder.offered. destruct (fi_recv i); [|cbn; lia..].
  destruct (mempool_disabled cfg); [cbn; lia|]. destruct Hr as [_ Hr]. specialize (Hr eq_refl).
  destruct (fi_be_answer i); cbn; lia.
Qed.

Lemma forwarder_turn_ok s i f' :
  sys_inv s → forwarder_receives cfg i s → forwarder_body i (fwd s) = (Done tt, f') →
  sys_inv (forwarder_turn i f' s).
Proof.
  intros [Hf Hh Hl Hd Hsl [Hbe1 Hbe2] Hb Hsub] Hrecv Hi.
  destruct (forwarder_body_sent _ _ _ Hi) as [[l Hsent] Hbe].
  pose proof (be_queued_turn _ _ _ Hrecv Hbe2 Hbe1 Hbe) as Hbe'.
  destruct s. unfold forwarder_receives, be_queued in *. cbn in *.
  split; cbn; unfold constant, be_queued; try done.
  - eapply fwd_inv_turn; [done| |done]. by destruct (fi_recv i); [destruct Hrecv|..].
  - rewrite Hsent, <-(app_nil_r (slots_forwarded _)). apply loop_inv_grows; [..|done].
    + destruct Hd; lia.
    + destruct Hsl; lia.
  - rewrite Hsent, length_app. eapply link_ok_sent; [|exact Hd]. lia.
Qed.

Lemma health_turn_ok s i h' :
  sys_inv s → health_receives i.1 s → health_body i (health s) = (Done tt, h') →
  sys_inv (health_turn i h' s).
Proof.
  destruct s. intros [Hf Hh Hl Hd Hsl Hbe Hb Hsub] Hrecv Hi. unfold health_receives in Hrecv. cbn in *.
  pose proof (health_body_sent _ _ _ Hi) as Hsent. sys_split.
  - eapply health_inv_turn; [done| |done]. destruct i.1; naive_solver.
  - rewrite Hsent, <-(app_nil_r (delay_sent _)). apply loop_inv_grows; [..|done].
    + destruct Hd; lia.
    + destruct Hsl; lia.
  - rewrite Hsent, length_app. eapply link_ok_sent; [|exact Hsl]. lia.
  - destruct i.1; [done| |done]. destruct Hrecv as (_ & slot & _ & Hslot%lookup_lt_Some), Hb.
    split; lia.
Qed.

Lemma loop_turn_ok s i r' :
  sys_inv s → streams_shrink i → loop_receives (ri_event i) s →
  loop_body i (event_loop s) = (Done tt, r') → sys_inv (loop_turn i r' s).
Proof.
  destruct s. intros [Hf Hh Hl Hd Hsl Hbe Hb Hsub] Hshrink Hrecv Hi. unfold loop_receives in Hrecv. cbn in *.
  sys_split.
  - eapply loop_inv_turn; [done..| |done]. destruct (ri_event i); naive_solver.
  - destruct (ri_event i); try done. apply link_ok_pop; naive_solver.
  - destruct (ri_event i); try done. apply link_ok_pop; naive_solver.
  - destruct (ri_event i); try done. destruct Hrecv as (sub & _ & Hx%lookup_lt_Some), Hsub. split; lia.
Qed.

Lemma fwd_inv_tpu t t' taken log f :
  tpu_step (quic_servers cfg) t t' → fwd_inv t taken log f → fwd_inv t' taken log f.
Proof.
  intros Hstep [Hp Hrun Ht Hr Hacc]. destruct (tpu_step_grows _ _ Hstep) as [l Hl].
  split; rewrite ?Hl, ?length_app, ?take_app_le; [by eapply rtc_r|done|lia|done..].
Qed.

Lemma tpu_turn_ok s t' :
  tpu_step (quic_servers cfg) (tpu_part s) t' → sys_inv s → sys_inv {s with tpu_part := t'}.
Proof.
  intros Ht Hinv. destruct s, Hinv. cbn in *. sys_split.
  by eapply fwd_inv_tpu.
Qed.

Lemma moves_ok s s' : moves cfg s s' → sys_inv s → sys_inv s'.
Proof.
  intros [s0 t' Ht|s0 t' Ht|s0 n Hn|s0 i f' _ Hr Hi _|s0 Hs Hr|s0 maybe alive now len h' i _ Hr Hi|s0 Hs Hr
    |s0 i r' Hsh Hr _ Hi] Hinv.
  - apply tpu_turn_ok; [by apply step_fetch|done].
  - apply tpu_turn_ok; [by apply step_fetch_sends|done].
  - apply tpu_turn_ok; [by apply step_sigverify|done].
  - by apply forwarder_turn_ok.
  - destruct s0, Hinv. cbn in *. sys_split; [by apply loop_inv_push|by apply link_ok_push].
  - by apply health_turn_ok.
  - destruct s0, Hinv. cbn in *. sys_split; [by apply loop_inv_push|by apply link_ok_push].
  - by apply loop_turn_ok.
Qed.

(** *** What comes in *)

Lemma health_inv_balancer t t' taken log h :
  lb_step t t' → health_inv t taken log h → health_inv t' taken log h.
Proof.
  intros Hstep [Hp Hrun Ht Hr]. destruct (lb_step_grows _ _ Hstep) as (l & Hl & _).
  split; rewrite ?Hl, ?length_app, ?take_app_le; [by eapply rtc_r|done|lia|done..].
Qed.

Lemma loop_inv_subscribe delayed slots g dl sl subs log r pk sender :
  chan_queue sender = [] → (subs ≤ length (subscription_queue g))%nat →
  loop_inv delayed slots g dl sl subs log r →
  loop_inv delayed slots {g with subscription_queue ::= (λ l, l ++ [(pk, sender)])} dl sl subs log r.
Proof.
  intros Hnew Hlen []. destruct g. split; cbn in *; try done.
  - by rewrite take_app_le.
  - apply Forall_app. split; [done|]. by apply Forall_singleton.
Qed.

Lemma sys_step_ok s s' : sys_step cfg s s' → sys_inv s → sys_inv s'.
Proof.
  intros [s0 s1 Hm|s0 t' Ht|s0 b' Hb Hroom|s0 i f' _ Hr Hi|s0 Hbe|s0 ev len h' _ Hev Hi|s0 hr ext sender g' Hroom Hs
    |s0 i r' Hsh Hr _ Hi] Hinv.
  - by eapply moves_ok.
  - by apply tpu_turn_ok.
  - destruct s0, Hinv as [Hf Hh Hl Hd Hsl Hbe [Hb1 Hb2] Hsub]. cbn in *.
    destruct (lb_step_grows _ _ Hb) as (l & Hsent & Hone).
    sys_split; [by eapply health_inv_balancer|].
    rewrite Hsent in *. rewrite length_app. destruct Hroom as [Hsame|Hroom]; [|split; lia].
    assert (l = []) as -> by (apply (app_inv_head (slots_sent (shared balancer0))); by rewrite app_nil_r).
    cbn. split; lia.
  - apply forwarder_turn_ok; [done| |done]. unfold forwarder_receives. by rewrite Hr.
  - destruct s0, Hinv. cbn in *. sys_split. unfold be_queued in *. cbn in *. lia.
  - apply health_turn_ok; [done| |done]. by destruct ev.
  - apply subscribe_packets_iff in Hs as (_ & _ & pk & _ & -> & ->).
    destruct s0, Hinv as [Hf Hh Hl Hd Hsl Hbe Hb [Hs1 Hs2]]. cbn in *.
    sys_split.
    + apply loop_inv_subscribe; [apply channel_empty|done..].
    + destruct grpc0. cbn in *. rewrite length_app. cbn. split; lia.
  - by apply loop_turn_ok.
Qed.

Lemma System_new_ok : sys_inv (System_new cfg).
Proof.
  unfold System_new. destruct (forwarder_start cfg) as [[[c1 c2] c3] now] eqn:Hs.
  split; cbn; rewrite ?no_subscription_yet.
  - split; rewrite ?Hs; cbn; first [done|apply rtc_refl|lia].
  - split; cbn; first [done|apply rtc_refl|lia].
  - split; cbn; rewrite ?no_subscription_yet; try done; by rewrite ?take_nil.
  - split; unfold in_flight; cbn; lia.
  - split; unfold in_flight; cbn; lia.
  - unfold be_queued, BLOCK_ENGINE_FORWARDER_QUEUE_CAPACITY. cbn. lia.
  - split; cbn; lia.
  - split; cbn; lia.
Qed.

Lemma system_reachable s : rtc (sys_step cfg) (System_new cfg) s → sys_inv s.
Proof.
  apply (rtc_invariant (sys_step cfg) sys_inv); [intros s1 s2 Hinv Hstep; by eapply sys_step_ok|].
  apply System_new_ok.
Qed.
End invariant.
