(* ===== verification/Running.v ===== *)
(** * What the running relayer promises

    Over the transition system of System.v: its behaviour is that of three unbounded
    queues, of batches, slots and subscriptions, whatever is buffered where; what it
    sends is genuine; and all that is inside arrives. *)

From S2P Require Import Prelude External Instances Packets ScheduleCache HealthManager LoadBalancer.
From S2P Require Import AuthInterceptor AuthService Forwarder Relayer RelayerAccounting ControlPath.
From S2P Require Import BlockEngine Tpu DataPath System.
Local Open Scope Z_scope.

(** ** The abstract relayer *)

(** What was put into a queue so far, and what was taken out. *)
Record Queue (A : Type) := { put : list A; got : list A }.
Arguments put {A} q.
Arguments got {A} q.
Arguments Build_Queue {A} put got.

Inductive queue_step {A} : Queue A → Queue A → Prop :=
| queue_put p g x : queue_step (Build_Queue p g) (Build_Queue (p ++ [x]) g)
| queue_get p g x : p !! length g = Some x → queue_step (Build_Queue p g) (Build_Queue p (g ++ [x])).

Section abstract.
Context `{Sdk} `{!Channels}.
Record Queues := {
  batch_queue : Queue BankingPacketBatch;
  slot_queue : Queue Z;
  subscriber_queue : Queue (Pubkey * chan (Outcome Status SubscribePacketsResponse)) }.

Inductive queues_step : Queues → Queues → Prop :=
| batches_step b b' s u : queue_step b b' → queues_step (Build_Queues b s u) (Build_Queues b' s u)
| slots_step b s s' u : queue_step s s' → queues_step (Build_Queues b s u) (Build_Queues b s' u)
| subscribers_step b s u u' : queue_step u u' → queues_step (Build_Queues b s u) (Build_Queues b s u').
End abstract.

(** ** Proofs over the invariant *)

Section running.
Context `{SD : Sdk} `{IT : !IpText} `{!Channels} `{!Histograms} `{!HashOrder Pubkey} `{!HashOrder Slot}.
Context `{!NetUtils} `{!SigVerifier} `{!HashOrder string}.
Context `{!ChannelsLaws} `{!HashOrderLaws Pubkey}.
Variable cfg : SystemConfig.
Implicit Types (s : System).

Local Abbreviation forwarder_body := (forwarder_iteration 0 (packet_delay_ms cfg) (mempool_disabled cfg)).
Local Abbreviation health_body := (health_iteration (health_threshold cfg)).
Local Abbreviation health_run := (manager_thread (health_threshold cfg)).
#[local] Arguments health_iteration : simpl never.
#[local] Arguments relayer_iteration : simpl never.
#[local] Arguments forwarder_iteration : simpl never.
#[local] Arguments sigverify_turn : simpl never.

(** *** How many moves are left *)

(** How many moves are left at most: a batch goes from the forwards channel through the
    hands of the fetch stage, the TPU channel, the verified channel, the forwarder's buffer and the delay channel to the event loop, a
    slot from the subscription threads through the manager's channel. *)
Definition untaken_batches s : nat := (length (verified_sent (tpu_part s)) - verified_taken s)%nat.
Definition untaken_slots s : nat := (length (slots_sent (shared (balancer s))) - slots_taken s)%nat.
Definition moves_left s : nat :=
  (7 * length (tpu_forwards_queue (tpu_part s)) + 6 * length (fetch_in_hand (tpu_part s))
   + 5 * length (tpu_queue (tpu_part s))
   + 4 * untaken_batches s + 3 * length (buffered_packet_batches (fwd s))
   + 2 * (length (delay_sent (fwd s)) - pushed (delay_link s)) + in_flight (delay_link s)
   + (3 * untaken_slots s + 2 * (length (slots_forwarded (health s)) - pushed (slot_link s))
      + in_flight (slot_link s))
   + (length (subscription_queue (grpc s)) - subs_taken s))%nat.

Lemma forwarder_body_balance i f f' :
  forwarder_body i f = (Done tt, f') →
  (length (delay_sent f) ≤ length (delay_sent f'))%nat ∧
  (length (buffered_packet_batches f') + length (delay_sent f') =
    length (buffered_packet_batches f) + length (delay_sent f) + length (received i))%nat ∧
  (length (delay_sent f') = length (delay_sent f) → delay_sent f' = delay_sent f).
Proof.
  intros (sent & Hrel%released_app & Hsent & _)%forwarder_iteration_done.
  apply (f_equal length) in Hrel. rewrite Hsent. rewrite !length_app in *.
  split_and!; [lia..|]. intros Hlen. destruct sent; [by rewrite app_nil_r|cbn in Hlen; lia].
Qed.

Lemma fetch_decreases t t' :
  fetch_stage_turn t = Some t' →
  (7 * length (tpu_forwards_queue t') + 6 * length (fetch_in_hand t') + 5 * length (tpu_queue t') <
    7 * length (tpu_forwards_queue t) + 6 * length (fetch_in_hand t) + 5 * length (tpu_queue t))%nat ∧
  verified_sent t' = verified_sent t.
Proof.
  intros (first & taken & rest & Hh & Hq & ->)%fetch_stage_turn_inv_some.
  destruct t. cbn -[map Nat.mul] in *. unfold constant. subst. split; [|done].
  rewrite length_map. cbn [length]. rewrite length_app. lia.
Qed.
Lemma fetched_decreases t t' :
  fetch_stage_sends t = Some t' →
  (6 * length (fetch_in_hand t') + 5 * length (tpu_queue t') <
    6 * length (fetch_in_hand t) + 5 * length (tpu_queue t))%nat ∧
  tpu_forwards_queue t' = tpu_forwards_queue t ∧ verified_sent t' = verified_sent t.
Proof.
  intros (batch & rest & Hh & _ & ->)%fetch_stage_sends_some.
  destruct t. cbn in *. unfold constant. subst. rewrite length_app. cbn. split; [lia|done].
Qed.

Lemma sigverify_decreases taken t :
  let t' := sigverify_turn taken t in
  tpu_forwards_queue t' = tpu_forwards_queue t ∧ fetch_in_hand t' = fetch_in_hand t ∧
  length (tpu_queue t') = (length (tpu_queue t) - taken)%nat ∧
  length (verified_sent t') = S (length (verified_sent t)).
Proof.
  unfold sigverify_turn. destruct t. cbn. rewrite length_drop, length_app. cbn. split_and!; [done..|lia].
Qed.

Lemma moves_decrease s s' : sys_inv cfg s → moves cfg s s' → (moves_left s' < moves_left s)%nat.
Proof.
  intros Hinv Hm. revert Hinv. unfold moves_left, untaken_batches, untaken_slots, in_flight.
  destruct Hm as [s t' Ht|s t' Ht|s n Hn|s i f' _ Hr Hi Hp|s Hs Hr|s maybe alive now len h' i _ Hr Hi|s Hs Hr
    |s i r' Hsh Hr Hev Hi];
    destruct s; intros [Hf Hh Hl [] [] [] []]; unfold forwarder_receives, health_receives, loop_receives, in_flight in *;
    cbn in *.
  - unfold constant. destruct (fetch_decreases _ _ Ht) as (Hlen & ->). lia.
  - unfold constant. destruct (fetched_decreases _ _ Ht) as (Hlen & -> & ->). lia.
  - unfold constant. destruct (sigverify_decreases n tpu_part) as (-> & -> & -> & ->). lia.
  - destruct (forwarder_body_balance _ _ _ Hi) as (Hle & Hbal & Hsame). unfold received, constant in *.
    destruct (fi_recv i) as [batch| |]; cbn in *; [|destruct Hp as [?|Hp]; [done|]|done].
    + destruct Hr as [Hr%lookup_lt_Some _]. lia.
    + destruct (decide (length (delay_sent f') = length (delay_sent fwd))); [by destruct Hp; auto|lia].
  - lia.
  - pose proof (health_body_sent cfg _ _ _ Hi) as Hsent. destruct Hr as (_ & slot & -> & Hslot%lookup_lt_Some).
    unfold constant. cbn in Hsent. rewrite Hsent, length_app. cbn. lia.
  - lia.
  - destruct (ri_event i); try done; cbn.
    + destruct Hr as [Hr _]. lia.
    + destruct Hr as [Hr _]. lia.
    + destruct Hr as (sub & _ & Hx%lookup_lt_Some). lia.
Qed.

(** *** When nothing is left to move *)

Lemma moves_inputs s s' :
  moves cfg s s' →
  arrivals (tpu_part s') = arrivals (tpu_part s) ∧ balancer s' = balancer s ∧ grpc s' = grpc s.
Proof.
  intros [[] t' Ht|[] t' Ht|[] n _|[]|[]|[]|[]|[]];
    [| |by cbn in *; unfold sigverify_turn; destruct tpu_part|done..]; cbn in *; unfold constant.
  - apply fetch_stage_turn_inv_some in Ht as (? & ? & ? & _ & _ & ->). by destruct tpu_part.
  - apply fetch_stage_sends_some in Ht as (? & ? & _ & _ & ->). by destruct tpu_part.
Qed.

Lemma runs_inputs s s' :
  rtc (moves cfg) s s' →
  arrivals (tpu_part s') = arrivals (tpu_part s) ∧ balancer s' = balancer s ∧ grpc s' = grpc s.
Proof.
  induction 1 as [|s1 s2 s3 Hm _ IH]; [done|]. destruct (moves_inputs _ _ Hm) as (H1' & H2' & H3').
  destruct IH as (-> & -> & ->). by rewrite H1', H2', H3'.
Qed.

Lemma moves_quiet s s' : rtc (moves cfg) s s' → rtc (quiet_step cfg) s s'.
Proof.
  apply rtc_subrel. intros s1 s2 Hm. split; [by apply step_moves|].
  by destruct (moves_inputs _ _ Hm) as (_ & _ & ->).
Qed.

Lemma runs_ok s s' : rtc (moves cfg) s s' → sys_inv cfg s → sys_inv cfg s'.
Proof. induction 1; [done|]. eauto using moves_ok. Qed.

Lemma sys_inv_sn s : sys_inv cfg s → sn (moves cfg) s.
Proof.
  remember (moves_left s) as n eqn:Hn. revert s Hn.
  induction (lt_wf n) as [n _ IH]. intros s -> Hinv. constructor. intros s' Hm.
  eapply IH; [by apply moves_decrease|done|by eapply moves_ok].
Qed.

Lemma received_batches log : banking_packet_batch <$> flat_map received log = verified_received log.
Proof.
  induction log as [|i log IH]; [done|]. cbn. rewrite fmap_app, IH. unfold received.
  by destruct (fi_recv i).
Qed.

Lemma manager_sent log h0 h :
  health_run (Some <$> log) h0 = (Done Running, h) →
  slots_forwarded h = slots_forwarded h0 ++ manager_slots (Some <$> log).
Proof.
  intros Hrun. eapply (run_loop_log slots_forwarded (λ i, slots_of [i.1])) in Hrun;
    [|intros i h1 [] h2; apply health_body_sent].
  rewrite Hrun. f_equal. unfold manager_slots. rewrite live_inputs_some.
  clear Hrun. induction log as [|[ev len] log IH]; [done|]. cbn in *. rewrite IH.
  by destruct ev as [|[]|].
Qed.

Lemma nothing_left s :
  sys_inv cfg s → moves_left s = 0%nat →
  tpu_forwards_queue (tpu_part s) = [] ∧ fetch_in_hand (tpu_part s) = [] ∧ tpu_queue (tpu_part s) = [] ∧
  banking_packet_batch <$> delay_received (Some <$> loop_log s) = verified_sent (tpu_part s) ∧
  (loop_slots (Some <$> loop_log s)).*1 = slots_sent (shared (balancer s)) ∧
  loop_subscriptions (loop_log s) = subscription_queue (grpc s).
Proof.
  intros [[_ Hfr _ Hrec _] [_ Hhr _ Hslots] [_ _ Hb Hs Hsubs _] [] [] [] []].
  unfold moves_left, untaken_batches, untaken_slots, in_flight in *. intros Hleft.
  assert (buffered_packet_batches (fwd s) = []) as Hbuf by (apply nil_length_inv; lia).
  apply forwarder_thread_log in Hfr. apply manager_sent in Hhr.
  rewrite Hbuf, app_nil_r, live_inputs_some in Hfr. cbn in Hhr.
  rewrite Hb, Hs, Hsubs, !firstn_all2 by lia.
  split_and!; [apply nil_length_inv; lia..| | |done].
  - rewrite Hfr, received_batches, Hrec. by rewrite firstn_all2 by lia.
  - rewrite Hhr, Hslots. by rewrite firstn_all2 by lia.
Qed.
(** *** The system behind three queues *)

Definition queues_of s : Queues :=
  {| batch_queue := {| put := verified_sent (tpu_part s);
       got := banking_packet_batch <$> delay_received (Some <$> loop_log s) |};
     slot_queue := {| put := slots_sent (shared (balancer s));
       got := (loop_slots (Some <$> loop_log s)).*1 |};
     subscriber_queue := {| put := subscription_queue (grpc s); got := loop_subscriptions (loop_log s) |} |}.

Lemma queue_puts {A} (p g l : list A) : rtc queue_step (Build_Queue p g) (Build_Queue (p ++ l) g).
Proof.
  induction l as [|x l IH] using rev_ind; [by rewrite app_nil_r|].
  eapply rtc_r; [exact IH|]. rewrite app_assoc. apply queue_put.
Qed.

(** The next delivery of the event loop is the next batch of the signature stage. *)
Lemma delayed_is_next t taken log f n batches :
  fwd_inv cfg t taken log f → delay_sent f !! n = Some batches →
  verified_sent t !! n = Some (banking_packet_batch batches).
Proof.
  intros [_ Hrun%forwarder_thread_log _ Hrec _] Hn. rewrite live_inputs_some in Hrun.
  apply (lookup_app_l_Some _ (buffered_packet_batches f)) in Hn. rewrite Hrun in Hn.
  assert (verified_received log !! n = Some (banking_packet_batch batches)) as Hv.
  { by rewrite <-received_batches, list_lookup_fmap, Hn. }
  rewrite Hrec in Hv. by apply lookup_take_Some in Hv as [Hv _].
Qed.
Lemma forwarded_is_next t taken log h n slot :
  health_inv cfg t taken log h → slots_forwarded h !! n = Some slot →
  slots_sent (shared t) !! n = Some slot.
Proof.
  intros [_ Hrun%manager_sent _ Hrec] Hn. rewrite Hrun, Hrec in Hn. cbn in Hn.
  by apply lookup_take_Some in Hn as [Hn _].
Qed.

Lemma loop_turn_simulated s i r' :
  sys_inv cfg s → loop_receives (ri_event i) s → rtc queues_step (queues_of s) (queues_of (loop_turn i r' s)).
Proof.
  intros Hinv. pose proof (sys_fwd _ _ Hinv) as Hf. pose proof (sys_health _ _ Hinv) as Hh.
  pose proof (sys_loop _ _ Hinv) as [_ _ Hb Hs Hsub _]. clear Hinv. revert Hf Hh Hb Hs Hsub.
  unfold loop_receives, queues_of. destruct s. cbn. intros Hf Hh Hb Hs Hsub.
  unfold delay_received, loop_slots, loop_subscriptions in *. rewrite live_inputs_some in Hb, Hs.
  rewrite !live_inputs_some, !omap_app, !fmap_app. cbn.
  destruct (ri_event i) as [maybe schedule us|maybe us ts cache us'|maybe us| |]; cbn;
    rewrite ?app_nil_r; [| | |intros _; apply rtc_refl..].
  - intros (_ & slot & -> & Hx). cbn. apply rtc_once.
    apply slots_step, queue_get.
    rewrite Hs, length_take_le; [by eapply forwarded_is_next|]. apply lookup_lt_Some in Hx. lia.
  - intros (_ & batches & -> & Hx). cbn. apply rtc_once.
    apply batches_step, queue_get.
    rewrite Hb, length_fmap, length_take_le; [by eapply delayed_is_next|].
    apply lookup_lt_Some in Hx. lia.
  - intros (sub & -> & Hx). cbn. apply rtc_once.
    apply subscribers_step, queue_get.
    rewrite Hsub, length_take_le; [done|]. apply lookup_lt_Some in Hx. lia.
Qed.

Lemma tpu_turn_simulated s t' :
  tpu_step (quic_servers cfg) (tpu_part s) t' →
  rtc queues_step (queues_of s) (queues_of {s with tpu_part := t'}).
Proof.
  intros [l Hl]%tpu_step_grows. destruct s. unfold queues_of. cbn in *. unfold constant. rewrite Hl.
  eapply (rtc_congruence (λ q, Build_Queues q _ _)), queue_puts. intros q q'. apply batches_step.
Qed.

Lemma moves_simulated s s' :
  moves cfg s s' → sys_inv cfg s → rtc queues_step (queues_of s) (queues_of s').
Proof.
  intros [s0 t' Ht|s0 t' Ht|s0 n Hn|s0 i f' _ _ _ _|s0 _ _|s0 maybe alive now len h' i _ _ _|s0 _ _
    |s0 i r' _ Hr _ _] Hinv.
  - by apply tpu_turn_simulated, step_fetch.
  - by apply tpu_turn_simulated, step_fetch_sends.
  - by apply tpu_turn_simulated, step_sigverify.
  - by destruct s0.
  - by destruct s0.
  - by destruct s0.
  - by destruct s0.
  - by apply loop_turn_simulated.
Qed.

Lemma sys_step_simulated s s' :
  sys_step cfg s s' → sys_inv cfg s → rtc queues_step (queues_of s) (queues_of s').
Proof.
  intros [s0 s1 Hm|s0 t' Ht|s0 b' Hb _|s0 i f' _ _ _|s0 _|s0 ev len h' _ _ _|s0 hr ext sender g' _ Hs
    |s0 i r' _ Hr _ _] Hinv.
  - by apply moves_simulated.
  - by apply tpu_turn_simulated.
  - destruct (lb_step_grows _ _ Hb) as (l & Hl & _). destruct s0. unfold queues_of. cbn in *.
    unfold constant. rewrite Hl.
    eapply (rtc_congruence (λ q, Build_Queues _ q _)), queue_puts. intros q q'. apply slots_step.
  - by destruct s0.
  - by destruct s0.
  - by destruct s0.
  - apply subscribe_packets_iff in Hs as (_ & _ & pk & _ & -> & ->). apply rtc_once.
    destruct s0 as [? ? ? ? ? ? ? ? ? ? ? []].
    apply subscribers_step, queue_put.
  - by apply loop_turn_simulated.
Qed.

(** *** What is left can move *)

Hypothesis batch_size_positive : (0 < validator_packet_batch_size (loop_config cfg))%nat.

(** The receivers of the channels: the event loop takes what is first, ... *)
Definition loop_input (ev : RelayerEvent) : RelayerInput :=
  {| ri_receivers _ c := c; ri_event := ev; ri_capacities := (0, 0, 0); ri_lens := (0, 0, 0) |}.

Lemma loop_moves s ev :
  loop_receives ev s → ¬ channel_gone ev →
  match ev with HeartbeatArm _ _ _ | MetricsArm _ _ => False | _ => True end →
  red (moves cfg) s.
Proof.
  intros Hr Hgone Hev.
  destruct (relayer_iteration_completes (loop_config cfg) (loop_input ev) batch_size_positive Hgone
    (event_loop s)) as ([] & r' & Hi).
  eexists. apply (move_loop cfg s (loop_input ev) r'); [by intros pk c|exact Hr|exact Hev|exact Hi].
Qed.

Lemma link_moves_on {A} cap (sent : list A) l :
  (0 < cap)%nat → link_ok cap (length sent) l → (popped l < length sent)%nat →
  ((pushed l < length sent)%nat ∧ (in_flight l < cap)%nat) ∨
  (popped l < pushed l)%nat ∧ ∃ x, sent !! popped l = Some x.
Proof.
  intros Hcap [Hp Hs Hr] Hlen. unfold in_flight in *.
  destruct (decide (popped l < pushed l)%nat); [right; split; [done|by apply lookup_lt_is_Some]|left; lia].
Qed.

Lemma TPU_QUEUE_CAPACITY_pos : (0 < TPU_QUEUE_CAPACITY)%nat.
Proof. apply Nat.ltb_lt. vm_refl. Qed.
Lemma SLOT_QUEUE_CAPACITY_pos : (0 < SLOT_QUEUE_CAPACITY)%nat.
Proof. apply Nat.ltb_lt. vm_refl. Qed.

Lemma delayed_moves s :
  sys_inv cfg s → (popped (delay_link s) < length (delay_sent (fwd s)))%nat → red (moves cfg) s.
Proof.
  intros [_ _ _ Hd _ _ _] Hlen.
  apply (link_moves_on _ _ _ TPU_QUEUE_CAPACITY_pos Hd) in Hlen
    as [[Hs Hroom]|[Hp [batches Hb]]].
  - eexists. by apply move_delayed.
  - apply (loop_moves s (PacketArm (Some batches) 0 (λ _ _, 0) ∅ 0)); [|by intros []|done].
    split; [done|]. by exists batches.
Qed.
Lemma slots_move s :
  sys_inv cfg s → (popped (slot_link s) < length (slots_forwarded (health s)))%nat → red (moves cfg) s.
Proof.
  intros [_ _ _ _ Hsl _ _] Hlen.
  apply (link_moves_on _ _ _ SLOT_QUEUE_CAPACITY_pos Hsl) in Hlen
    as [[Hs Hroom]|[Hp [slot Hb]]].
  - eexists. by apply move_slot.
  - apply (loop_moves s (SlotArm (Some slot) ∅ 0)); [|by intros []|done]. split; [done|]. by exists slot.
Qed.
Lemma subscriptions_move s :
  (subs_taken s < length (subscription_queue (grpc s)))%nat → red (moves cfg) s.
Proof.
  intros [sub Hsub]%lookup_lt_is_Some.
  apply (loop_moves s (SubscriptionArm (Some sub) 0)); [by exists sub|by intros []|done].
Qed.

(** ... the manager passes a slot on, ... *)
Lemma manager_moves s :
  health_free s → (slots_taken s < length (slots_sent (shared (balancer s))))%nat → red (moves cfg) s.
Proof.
  intros Hfree [slot Hslot]%lookup_lt_is_Some. eexists.
  eapply (move_health cfg s (Some slot) true 0 0); [done| |reflexivity].
  split; [done|]. by exists slot.
Qed.

(** ... the forwarder buffers a batch, or in time releases one. *)
Definition forwarder_input (recv : RecvTimeoutResult) (answer : option TrySendError) (now : Z)
    : ForwarderInput :=
  {| fi_upload_elapsed_now := now; fi_capacities := (0, 0, 0); fi_upload_now := now; fi_recv := recv;
     fi_instant := now; fi_system_time := now; fi_be_answer := answer; fi_clock _ := now;
     fi_buffered_capacity := 0; fi_receiver_len := 0; fi_be_capacity := 0 |}.

Lemma be_answers_some s : ∃ answer, answer ≠ Some Closed ∧ be_answers answer s.
Proof.
  destruct (decide (be_queued s < BLOCK_ENGINE_FORWARDER_QUEUE_CAPACITY)); [by exists None|].
  exists (Some Full). split; [done|]. cbn. lia.
Qed.

Lemma forwarder_moves s :
  sys_inv cfg s → forwarder_free s →
  (verified_taken s < length (verified_sent (tpu_part s)))%nat ∨ buffered_packet_batches (fwd s) ≠ [] →
  red (moves cfg) s.
Proof.
  intros [Hf _ _ _ _ _ _] Hfree Hmore. pose proof (fi_accepts _ _ _ _ _ Hf) as Hacc.
  destruct Hmore as [[batch Hb]%lookup_lt_is_Some|Hbuf].
  - destruct (be_answers_some s) as (answer & Hopen & Hanswer).
    set (i := forwarder_input (RecvOk batch) answer 0).
    destruct (forwarder_iteration_spec 0 (packet_delay_ms cfg) (mempool_disabled cfg) i (fwd s))
      as (sent & f' & Hi & _); [by split; [|right]|done|].
    eexists. apply (move_forwarder cfg s i f'); [done|by split|done|by left].
  - destruct (buffered_packet_batches (fwd s)) as [|b rest] eqn:Heq; [done|].
    set (i := forwarder_input RecvTimeoutErr None (stamp b + packet_delay (packet_delay_ms cfg))).
    destruct (forwarder_iteration_spec 0 (packet_delay_ms cfg) (mempool_disabled cfg) i (fwd s))
      as (sent & f' & Hi & Hsent & Hrel); [by split; [|right]|done|].
    eexists. apply (move_forwarder cfg s i f'); [done..|]. right. rewrite Hsent, Heq in *.
    inversion Hrel as [|? ? ? Hyoung|]; subst; [cbn in Hyoung; unfold elapsed in Hyoung; lia|].
    intros Happ. apply (f_equal length) in Happ. rewrite length_app in Happ. cbn in Happ. lia.
Qed.

(** What is left can move. *)
Lemma moves_left_red s : sys_inv cfg s → (0 < moves_left s)%nat → red (moves cfg) s.
Proof.
  intros Hinv Hleft. pose proof Hinv as [_ _ _ [Hd1 Hd2 _] [Hs1 Hs2 _] _ _].
  destruct (decide (popped (delay_link s) < length (delay_sent (fwd s)))%nat); [by apply delayed_moves|].
  destruct (decide (popped (slot_link s) < length (slots_forwarded (health s)))%nat); [by apply slots_move|].
  destruct (decide (subs_taken s < length (subscription_queue (grpc s)))%nat); [by apply subscriptions_move|].
  unfold moves_left, untaken_batches, untaken_slots, in_flight in Hleft.
  destruct (decide (slots_taken s < length (slots_sent (shared (balancer s))))%nat).
  { apply manager_moves; [unfold health_free; lia|done]. }
  destruct (decide (0 < length (tpu_queue (tpu_part s)))%nat).
  { eexists. apply (move_sigverify cfg s 1). lia. }
  destruct (fetch_in_hand (tpu_part s)) as [|batch rest] eqn:Hh; cycle 1.
  { eexists. apply move_fetched, fetch_stage_sends_some. exists batch, rest. split_and!; [done| |done].
    unfold has_room. pose proof TPU_QUEUE_CAPACITY_pos. lia. }
  destruct (tpu_forwards_queue (tpu_part s)) as [|first available] eqn:Hq; cycle 1.
  { destruct (fetch_stage_turn_moves _ _ _ Hh Hq) as (taken & rest & _ & Ht). eexists. by apply move_fetch. }
  apply forwarder_moves; [done|unfold forwarder_free; lia|].
  destruct (buffered_packet_batches (fwd s)); [left; cbn in Hleft; lia|by right].
Qed.
End running.

(** ** What the running relayer promises *)

Section promises.
Context `{SD : Sdk} `{IT : !IpText} `{!Channels} `{!Histograms} `{!HashOrder Pubkey} `{!HashOrder Slot}.
Context `{!NetUtils} `{!SigVerifier} `{!HashOrder string}.
Context `{!ChannelsLaws} `{!HashOrderLaws Pubkey}.
Variable cfg : SystemConfig.
Hypothesis no_subscription_yet : subscription_queue (grpc_start cfg) = [].
Implicit Types (s : System).

(** C8: The running relayer implements three unbounded queues, of batches, slots and
    subscriptions: every step from a reachable state puts messages into them, takes the
    next one out, or leaves them alone, so that nothing is lost, repeated or reordered,
    whatever is buffered where.  Inside, each thread is where its own model gets with the
    inputs it has taken, which are for each channel what the sender handed over so far,
    from the first message on; and no channel with a capacity ever holds more, those of the
    TPU included. *)
Theorem running_system_refines s :
  rtc (sys_step cfg) (System_new cfg) s →
  (∀ s', sys_step cfg s s' → rtc queues_step (queues_of s) (queues_of s')) ∧ sys_inv cfg s ∧
  tpu_bounded (tpu_part s).
Proof.
  intros Hinv%system_reachable; [|done]. split_and!; [|done|].
  - intros s' Hstep. by eapply sys_step_simulated.
  - destruct Hinv as [[Hp _ _ _ _] _ _ _ _ _ _ _]. by eapply pipeline_reachable_bounded.
Qed.

(** C9: The threads of the running relayer never wait for each other in a ring, though full
    channels block them.  From every reachable state, if nothing more comes in, every run
    of the threads is finite, whatever the order of their turns, and where it ends the
    channels of the TPU and the hands of its fetch stage are empty, and so are the three
    queues: every batch the signature
    stage ever passed on has reached the event loop, every slot the subscription threads
    sent, and every subscription. *)
Theorem running_system_drains s :
  (0 < validator_packet_batch_size (loop_config cfg))%nat →
  rtc (sys_step cfg) (System_new cfg) s →
  sn (moves cfg) s ∧
  ∀ s', rtc (moves cfg) s s' → nf (moves cfg) s' →
    let t := tpu_part s' in let qs := queues_of s' in
    arrivals t = arrivals (tpu_part s) ∧ tpu_forwards_queue t = [] ∧ fetch_in_hand t = [] ∧ tpu_queue t = [] ∧
    got (batch_queue qs) = put (batch_queue qs) ∧
    got (slot_queue qs) = put (slot_queue (queues_of s)) ∧
    got (subscriber_queue qs) = put (subscriber_queue (queues_of s)).
Proof.
  intros Hsize Hinv%system_reachable; [|done]. split; [by eapply sys_inv_sn|].
  intros s' Hruns Hnf. unfold queues_of. cbn [put got batch_queue slot_queue subscriber_queue].
  destruct (runs_inputs _ _ _ Hruns) as (<- & <- & <-). eapply runs_ok in Hinv; [|exact Hruns]. split; [done|]. eapply nothing_left; [exact Hinv|].
  destruct (decide (moves_left s' = 0%nat)); [done|].
  destruct Hnf. eapply moves_left_red; [exact Hsize|exact Hinv|lia].
Qed.
End promises.

Section whole_system.
Context `{SdkLaws} `{IT : !IpText} `{!Channels} `{!Histograms} `{!HashOrder Pubkey} `{!HashOrder Slot}.
Context `{!NetUtils} `{!SigVerifier} `{!SigVerifierLaws} `{!HashOrder string} `{!HashOrderLaws string}.
Context `{!ChannelsLaws} `{!HashOrderLaws Pubkey}.
Context `{!ProtoRoles} `{!ProstTime} `{!Keypairs} `{TC : !TimedCaches Pubkey}.
Variable cfg : SystemConfig.
Hypothesis no_subscription_yet : subscription_queue (grpc_start cfg) = [].
Implicit Types (s : System).

(** What the forwarder received was passed on by the signature stage. *)
Lemma fwd_inv_fed t taken log f i batch :
  fwd_inv cfg t taken log f → i ∈ live_inputs (Some <$> log) → fi_recv i = RecvOk batch →
  batch ∈ verified_sent t.
Proof.
  intros [_ _ _ Hrec _] Hi Hr. rewrite live_inputs_some in Hi.
  assert (batch ∈ verified_received log) as Hin.
  { apply list_elem_of_omap. exists i. by rewrite Hr. }
  rewrite Hrec in Hin. apply (elem_of_sublist _ _ _ Hin), sublist_take.
Qed.

(** The message is a heartbeat, or a batch of packets that may leave and came from the
    signature stage. *)
Definition message_ok s (m : Outcome Status SubscribePacketsResponse) : Prop :=
  (∃ count, m = heartbeat_msg count) ∨
  ∃ ts out, m = Done {| header_ts := Some ts; msg := Some (Batch out) |} ∧
    (0 < length (packets out) ≤ validator_packet_batch_size (loop_config cfg))%nat ∧
    passed_on (ofac_addresses (loop_config cfg)) (tpu_part s) (loop_deliveries (loop_log s)) (packets out).

Lemma running_messages_ok s :
  rtc (sys_step cfg) (System_new cfg) s →
  ∀ pk c m, packet_subscriptions (event_loop s) !! pk = Some c → m ∈ chan_queue c → message_ok s m.
Proof.
  intros [Hf _ [Hlr Hok Hb _ _ _] _ _ _ _ _]%system_reachable; [|done]. intros pk c m Hc Hm.
  unfold message_ok. rewrite <-(live_inputs_some (loop_log s)).
  eapply (queued_packets_passed_on _ _ _ _ _ _ _ _ _ _ (loop_config cfg) (loop_capacities cfg)
    (Some <$> loop_log s)); [intros i batch; by eapply fwd_inv_fed|exact (fi_run _ _ _ _ _ Hf)
    |rewrite Hb; apply prefix_take|by rewrite live_inputs_some|by rewrite Hlr|done].
Qed.

(** Likewise for the client of the block engine, whatever its connections, over the
    batches it took. *)
Lemma running_updates_ok s ttl sessions st u b out :
  rtc (sys_step cfg) (System_new cfg) s →
  be_received sessions = take (be_taken s) (be_sent (fwd s)) → updates_sent st = [] →
  u ∈ updates_sent (block_engine_thread (ofac_addresses (loop_config cfg)) ttl sessions st).2 →
  update_msg u = Some (Batches b) → epb_batch b = Some out →
  passed_on (ofac_addresses (loop_config cfg)) (tpu_part s) (be_deliveries sessions) (packets out).
Proof.
  intros [Hf _ _ _ _ _ _ _]%system_reachable Hrec Hst Hu Hmsg Hout; [|done].
  eapply sent_packets_passed_on; [intros i batch; by eapply fwd_inv_fed|exact (fi_run _ _ _ _ _ Hf)
    |rewrite Hrec; apply sublist_take|done..].
Qed.

Lemma running_pipeline s :
  rtc (sys_step cfg) (System_new cfg) s →
  rtc (tpu_step (quic_servers cfg)) TpuPipeline_new (tpu_part s).
Proof. by intros [[Hp _ _ _ _] _ _ _ _ _ _ _]%system_reachable. Qed.

Lemma running_slots_distinct s :
  rtc (sys_step cfg) (System_new cfg) s → NoDup (got (slot_queue (queues_of s))).
Proof.
  intros [_ [Hlb Hhr _ Hslots] [_ _ _ Hs _ _] _ _ _ _ _]%system_reachable; [|done].
  unfold queues_of. cbn [got slot_queue]. rewrite Hs. apply manager_sent in Hhr. cbn in Hhr. rewrite Hhr, Hslots.
  destruct (rtc_invariant lb_step lb_inv _ _ lb_inv_step (lb_inv_init _ _ _) Hlb)
    as [Hnodup _ _ _ _ _].
  eapply sublist_NoDup; [|apply sublist_take]. by eapply sublist_NoDup, sublist_take.
Qed.
End whole_system.

(** ** Concrete inputs *)

(** The batch of the pipeline of DataPath.v goes to a validator that subscribes once the
    relayer is healthy. *)
Definition toy_system_config : SystemConfig :=
  {| quic_servers := toy_tpu_servers; rpc_servers := [("http://a", "ws://a")]%string;
     packet_delay_ms := 200; mempool_disabled := false; health_threshold := 10 * nanos_per_sec;
     loop_config := toy_config; forwarder_start := (8, 8, 8, 0); health_start := 0;
     loop_capacities := (1, 1, 1);
     grpc_start := {| tpu_quic_ports := [11228; 11229; 11230]; tpu_fwd_quic_ports := [11239; 11240];
       public_ip := IpV4 8 8 8 8; relayer_seq := 0; subscription_queue := [];
       event_loop_alive := true |} |}.

Definition toy_new : System := System_new toy_system_config.
Definition toy_fed : System := {toy_new with tpu_part := toy_pipeline}.
Definition toy_healthy : System :=
  health_turn (CheckTick 5, 0) (health_iteration (10 * nanos_per_sec) (CheckTick 5, 0) (health toy_fed)).2 toy_fed.
Definition toy_subscribed : System :=
  {toy_healthy with grpc := (subscribe_packets Healthy (Some "a"%char) (grpc toy_healthy)).2}.

Definition toy_forwarder_turn (i : ForwarderInput) (s : System) : System :=
  forwarder_turn i (forwarder_iteration 0 200 false i (fwd s)).2 s.
Definition toy_loop_turn (ev : RelayerEvent) (s : System) : System :=
  loop_turn (toy_relayer_input ev) (relayer_iteration toy_config (toy_relayer_input ev) (event_loop s)).2 s.
Definition toy_subscription : RelayerEvent :=
  SubscriptionArm (Some ("a"%char, channel SUBSCRIBER_QUEUE_CAPACITY)) 1.
Definition toy_delivered : RelayerEvent :=
  PacketArm (Some {| stamp := 0; banking_packet_batch := toy_verified |}) 9 (λ _ _, 3) ∅ 5.

Definition toy_connected : System := toy_loop_turn toy_subscription toy_subscribed.
Definition toy_buffered : System := toy_forwarder_turn (toy_input (RecvOk toy_verified) 0) toy_connected.
Definition toy_released : System := toy_forwarder_turn (toy_input RecvTimeoutErr 300000000) toy_buffered.
Definition toy_pushed : System := {toy_released with delay_link ::= push}.
Definition toy_drained : System := toy_loop_turn toy_delivered toy_pushed.

Lemma tpu_quiet `{Sdk} `{!IpText} `{!Channels} `{!Histograms} `{!HashOrder Pubkey} `{!HashOrder Slot}
    `{!NetUtils} `{!SigVerifier} `{!HashOrder string} cfg s t' :
  rtc (tpu_step (quic_servers cfg)) (tpu_part s) t' → rtc (quiet_step cfg) s {s with tpu_part := t'}.
Proof.
  intros Ht. remember (tpu_part s) as t eqn:Heq. revert s Heq.
  induction Ht as [t|t t1 t2 Hstep _ IH]; intros s ->; [by destruct s|].
  eapply rtc_l; [split; [by eapply step_tpu|by destruct s]|]. specialize (IH {s with tpu_part := t1}).
  destruct s. by apply IH.
Qed.
Lemma quiet_runs `{Sdk} `{!IpText} `{!Channels} `{!Histograms} `{!HashOrder Pubkey} `{!HashOrder Slot}
    `{!NetUtils} `{!SigVerifier} `{!HashOrder string} cfg s s' :
  rtc (quiet_step cfg) s s' → rtc (sys_step cfg) s s'.
Proof. apply rtc_subrel. by intros s1 s2 [Hstep _]. Qed.

Lemma toy_healthy_quiet : rtc (quiet_step toy_system_config) toy_new toy_healthy.
Proof.
  etrans; [apply (tpu_quiet toy_system_config toy_new toy_pipeline), toy_pipeline_reachable|].
  apply rtc_once. split; [|reflexivity].
  apply (step_health_tick toy_system_config toy_fed (CheckTick 5) 0); [vm_compute; reflexivity|exact I|].
  vm_compute. reflexivity.
Qed.
Lemma toy_subscribed_reachable : rtc (sys_step toy_system_config) toy_new toy_subscribed.
Proof.
  eapply rtc_r; [exact (quiet_runs _ _ _ toy_healthy_quiet)|].
  apply (step_subscribe toy_system_config toy_healthy Healthy (Some "a"%char) (channel SUBSCRIBER_QUEUE_CAPACITY)).
  - apply Nat.ltb_lt. vm_refl.
  - vm_refl.
Qed.

Lemma toy_forwarder_moves i s :
  forwarder_free s → forwarder_receives toy_system_config i s →
  (forwarder_iteration 0 200 false i (fwd s)).1 = Done tt →
  fi_recv i ≠ RecvTimeoutErr ∨ delay_sent (forwarder_iteration 0 200 false i (fwd s)).2 ≠ delay_sent (fwd s) →
  moves toy_system_config s (toy_forwarder_turn i s).
Proof.
  intros Hfree Hr Hdone Hp. eapply (move_forwarder toy_system_config); [done..| |exact Hp].
  by rewrite <-Hdone, <-surjective_pairing.
Qed.
Lemma toy_loop_moves ev s :
  loop_receives ev s → match ev with HeartbeatArm _ _ _ | MetricsArm _ _ => False | _ => True end →
  (relayer_iteration toy_config (toy_relayer_input ev) (event_loop s)).1 = Done tt →
  moves toy_system_config s (toy_loop_turn ev s).
Proof.
  intros Hr Hev Hdone. apply (move_loop toy_system_config); [by intros pk c|done..|].
  by rewrite <-Hdone, <-surjective_pairing.
Qed.

Lemma toy_pushes : rtc (moves toy_system_config) toy_subscribed toy_pushed.
Proof.
  eapply rtc_l; [apply (toy_loop_moves toy_subscription toy_subscribed)|].
  { eexists. split; [reflexivity|vm_refl]. }
  { exact I. }
  { vm_compute. reflexivity. }
  eapply rtc_l; [apply (toy_forwarder_moves (toy_input (RecvOk toy_verified) 0) toy_connected)|].
  { vm_compute. reflexivity. }
  { split; [vm_refl|]. intros _. vm_compute. reflexivity. }
  { vm_compute. reflexivity. }
  { by left. }
  eapply rtc_l; [apply (toy_forwarder_moves (toy_input RecvTimeoutErr 300000000) toy_buffered)|].
  1, 3: vm_compute; reflexivity.
  { exact I. }
  { right. vm_compute. discriminate. }
  apply rtc_once, (move_delayed toy_system_config toy_released); apply Nat.ltb_lt; vm_refl.
Qed.
Lemma toy_delivery_moves : moves toy_system_config toy_pushed toy_drained.
Proof.
  apply (toy_loop_moves toy_delivered toy_pushed).
  - split; [apply Nat.ltb_lt; vm_refl|]. eexists. split; [reflexivity|vm_refl].
  - exact I.
  - vm_compute. reflexivity.
Qed.
Lemma toy_runs : rtc (moves toy_system_config) toy_subscribed toy_drained.
Proof. eapply rtc_r; [exact toy_pushes|exact toy_delivery_moves]. Qed.

Lemma toy_pushed_reachable : rtc (sys_step toy_system_config) toy_new toy_pushed.
Proof.
  etrans; [exact toy_subscribed_reachable|]. eapply rtc_subrel; [|exact toy_pushes].
  intros s s'. apply step_moves.
Qed.
Lemma toy_drained_reachable : rtc (sys_step toy_system_config) toy_new toy_drained.
Proof. eapply rtc_r; [exact toy_pushed_reachable|]. apply step_moves, toy_delivery_moves. Qed.
Lemma toy_drained_nf : nf (moves toy_system_config) toy_drained.
Proof.
  intros [s' Hm]. assert (sys_inv toy_system_config toy_drained) as Hinv.
  { apply system_reachable; [reflexivity|exact toy_drained_reachable]. }
  apply moves_decrease in Hm; [|exact Hinv].
  replace (moves_left toy_drained) with 0%nat in Hm by vm_refl. lia.
Qed.

Lemma running_system_drains_witness :
  sn (moves toy_system_config) toy_subscribed ∧
  got (batch_queue (queues_of toy_drained)) = [toy_verified] ∧
  (got (subscriber_queue (queues_of toy_drained))).*1 = ["a"%char].
Proof.
  destruct (running_system_drains toy_system_config eq_refl toy_subscribed ltac:(cbn; lia)
    toy_subscribed_reachable) as [Hsn Hend].
  split; [exact Hsn|].
  destruct (Hend toy_drained toy_runs toy_drained_nf) as (_ & _ & _ & _ & Hb & _ & Hs).
  split; [rewrite Hb; exact toy_verified_sent|]. rewrite Hs. vm_refl.
Defined.

Lemma running_system_refines_witness :
  rtc queues_step (queues_of toy_pushed) (queues_of toy_drained) ∧
  put (batch_queue (queues_of toy_pushed)) = [toy_verified] ∧
  got (batch_queue (queues_of toy_pushed)) = [] ∧
  got (batch_queue (queues_of toy_drained)) = [toy_verified].
Proof.
  destruct (running_system_refines toy_system_config eq_refl toy_pushed toy_pushed_reachable) as (Hsim & _ & _).
  split; [apply Hsim, step_moves, toy_delivery_moves|]. split_and!; vm_refl.
Defined.
