(* ===== verification/Service.v ===== *)
(** * The relayer behind its two services ([transaction-relayer/src/main.rs])

    The running relayer of System.v with the gRPC server in front of it: the
    authentication service and its concurrent handlers (AuthService.v), and the relayer
    service behind the interceptor (AuthInterceptor.v), so that a subscription comes only
    with a token.  Of the clients it is assumed that they cannot make a token that
    verifies; what they get, they may pass around and show as often as they like.

    Every connected validator was authorized when it asked for a challenge, and in this run
    redeemed, with its key, a challenge that was pending for its address
    ([service_admits]). *)

From S2P Require Import Prelude External Instances Packets ScheduleCache HealthManager LoadBalancer.
From S2P Require Import AuthInterceptor AuthChallenges AuthService Forwarder Relayer RelayerAccounting.
From S2P Require Import ControlPath BlockEngine Tpu DataPath System Running.
Local Open Scope Z_scope.

Section service.
Context `{Sdk} `{!IpText} `{!Chrono} `{!Ed25519} `{!ProtoRoles} `{J : !Jwt DeSerClaims}.
Context `{Q : !KeyedPriorityQueue IpAddr AuthChallenge reverse_cmp}.
Context {V : Type} `{!ValidatorAuther V}.
Context `{!Channels} `{!Histograms} `{!HashOrder Pubkey} `{!HashOrder Slot} `{!HashOrder string}.
Context `{!NetUtils} `{!SigVerifier}.

(** The configuration of the threads, the authentication service, the interceptor, and
    what the policy may be when it is asked. *)
Variable cfg : SystemConfig.
Variable auth_svc : AuthServiceImpl (J := J) (V := V).
Variable interceptor : AuthInterceptor (Jwt0 := J).
Variable policy : V → Prop.

(** The threads, the pending challenges, the handlers at work on them, and the tokens
    answered so far. *)
Record Service := {
  core : System;
  pending : kpq (KeyedPriorityQueue := Q);
  handlers : list HandlerPc;
  issued : list string }.
Definition Service_new (k : nat) : Service :=
  {| core := System_new cfg; pending := kpq_default; handlers := replicate k Idle; issued := [] |}.

(** The handler [i] has answered a submission with tokens, and goes on to remove the
    challenge. *)
Definition tokens_answered (i : nat) (ip : IpAddr) (resp : TokensResponse) (s : Service) : Service :=
  {s with handlers ::= <[i := Removing ip]>;
          issued ::= (λ l, l ++ [value (access_token resp); value (refresh_token resp)])}.

(** A token that verifies is one the service issued. *)
Definition presentable (token : string) (s : Service) : Prop :=
  is_Some (verify_with_key (verifying_key interceptor) token) → token ∈ issued s.

(** The threads run, the handlers of the authentication service work on the challenges (a
    response may be lost), tokens are issued for a challenge or for a token shown, and a
    subscription is let through by the interceptor. *)
Inductive service_step : Service → Service → Prop :=
| service_core s core' :
    quiet_step cfg (core s) core' → service_step s {s with core := core'}
| service_auth s pending' handlers' :
    auth_step (Q := Q) (J := J) policy (pending s, handlers s) (pending', handlers') →
    service_step s {s with pending := pending'; handlers := handlers'}
| service_tokens s i req ip resp :
    handlers s !! i = Some Idle →
    tokens_prepare auth_svc req (pending s) = (Done (ip, resp), pending s) →
    service_step s (tokens_answered i ip resp s)
| service_refresh s req token :
    presentable (rr_refresh_token req) s →
    refresh_access_token auth_svc req (pending s) = (Done token, pending s) →
    service_step s {s with issued ::= (λ l, l ++ [value token])}
| service_subscribe s header pk health_read sender grpc' :
    (length (subscription_queue (grpc (core s))) - subs_taken (core s) < SLOT_QUEUE_CAPACITY)%nat →
    (∀ token, header = Some (Some (BEARER +:+ token)%string) → presentable token s) →
    interceptor_call interceptor header (grpc (core s)) = (Done pk, grpc (core s)) →
    subscribe_packets health_read (Some pk) (grpc (core s)) = (Done sender, grpc') →
    service_step s {s with core := {core s with grpc := grpc'}}.
End service.

(** ** Who is admitted *)

Section admission.
Context `{SdkLaws} `{!IpText} `{!Chrono} `{!Ed25519} `{!ProtoRoles} `{J : !Jwt DeSerClaims}.
Context `{Q : !KeyedPriorityQueue IpAddr AuthChallenge reverse_cmp} `{!KeyedPriorityQueueLaws (K := IpAddr) (P := AuthChallenge)}.
Context {V : Type} `{!ValidatorAuther V}.
Context `{!Channels} `{!ChannelsLaws} `{!Histograms} `{!HashOrder Pubkey} `{!HashOrderLaws Pubkey}.
Context `{!HashOrder Slot} `{!HashOrder string} `{!NetUtils} `{!SigVerifier}.
Variable cfg : SystemConfig.
Variable auth_svc : AuthServiceImpl (J := J) (V := V).
Variable interceptor : AuthInterceptor (Jwt0 := J).
Variable policy : V → Prop.
Variable k : nat.
Hypothesis no_subscription_yet : subscription_queue (grpc_start cfg) = [].
Hypothesis same_key : service_verifying_key auth_svc = verifying_key interceptor.
Context `{!JwtKeyPair (signing_key auth_svc) (verifying_key interceptor)}.
Local Abbreviation step := (service_step (Q := Q) cfg auth_svc interceptor policy).
Implicit Types (s : Service (Q := Q)).

(** On the way to [s] the service issued tokens for a submission by [pk]: its signed answer
    to the challenge that was pending for its address then. *)
Definition redeemed s (pk : Pubkey) : Prop :=
  ∃ s1 i req ip resp c,
    rtc step (Service_new cfg k) s1 ∧ handlers s1 !! i = Some Idle ∧
    tokens_prepare auth_svc req (pending s1) = (Done (ip, resp), pending s1) ∧
    kpq_get_priority ip (pending s1) = Some c ∧ valid_submission req c pk ∧
    rtc step (tokens_answered i ip resp s1) s.

(** The policy let the key in at some time, and its holder redeemed a challenge. *)
Definition admitted s (pk : Pubkey) : Prop :=
  (∃ v, policy v ∧ is_authorized v pk = true) ∧ redeemed s pk.
Lemma admitted_stays s s' pk : step s s' → admitted s pk → admitted s' pk.
Proof.
  intros Hstep [Hpol (s1 & i & req & ip & resp & c & Hr1 & Hr2 & Hr3 & Hr4 & Hr5 & Hrun)]. split; [done|].
  exists s1, i, req, ip, resp, c. split_and!; [done..|by eapply rtc_r].
Qed.

(** The token is good for admitted keys only. *)
Definition vouched s (token : string) : Prop :=
  ∀ alg d, verify_with_key (verifying_key interceptor) token = Some (alg, d) →
    ∃ pk, pubkey_from_str (ds_client_pubkey d) = Some pk ∧ admitted s pk.
Lemma vouched_stays s s' token : step s s' → vouched s token → vouched s' token.
Proof.
  intros Hstep Hv alg d Ht. destruct (Hv alg d Ht) as (pk & Hpk & Hadm). exists pk.
  split; [done|by eapply admitted_stays].
Qed.

Lemma signed_vouched s c token :
  admitted s (client_pubkey c) →
  sign_with_key (signing_key auth_svc) Rs256 (DeSerClaims_from c) = Some token → vouched s token.
Proof.
  intros Hadm Hsign%jwt_sign_verify alg d Hv. rewrite Hsign in Hv. injection Hv as <- <-.
  exists (client_pubkey c). cbn. by rewrite pubkey_text_roundtrip.
Qed.

Lemma vouched_claims {A} s token alg d c (a a' : A) :
  vouched s token → verify_with_key (verifying_key interceptor) token = Some (alg, d) →
  Claims_from d a = (Done c, a') → admitted s (client_pubkey c).
Proof.
  intros Hvouch Hv (_ & _ & Hpk & _)%Claims_from_done. destruct (Hvouch _ _ Hv) as (pk & Hpk' & Hadm).
  rewrite Hpk in Hpk'. by injection Hpk' as ->.
Qed.

(** The threads are in a state they reach, the challenges are those of authorized keys,
    what was issued is vouched for, and who subscribed was admitted. *)
Record service_inv s : Prop := {
  sv_core : rtc (sys_step cfg) (System_new cfg) (core s);
  sv_pending : auth_inv policy (pending s, handlers s);
  sv_issued : Forall (vouched s) (issued s);
  sv_subscribed : Forall (admitted s) (subscription_queue (grpc (core s))).*1 }.

Lemma tokens_vouched s i req ip resp :
  rtc step (Service_new cfg k) s → AuthService.queue_ok policy (pending s) → handlers s !! i = Some Idle →
  tokens_prepare auth_svc req (pending s) = (Done (ip, resp), pending s) →
  let s' := tokens_answered i ip resp s in
  vouched s' (value (access_token resp)) ∧ vouched s' (value (refresh_token resp)).
Proof.
  intros Hrun Hq Hi Ht s'. pose proof Ht as (_ & _ & _ & c & pk & Hc & Hv & access & refresh & Ha & Hr & ->)%tokens_prepare_done.
  pose proof Hc as Hview. rewrite kpq_get_priority_view in Hview.
  destruct (Hq _ _ Hview) as (_ & _ & _ & _ & Hpk & Hpol).
  assert (admitted s' (client_pubkey (access_claims c))) as Hadm.
  { split; [done|]. pose proof Hv as (key & sig & _ & _ & <- & _). by eexists s, i, req, ip, _, c. }
  cbn. split; (eapply signed_vouched; [|done]); [done|by rewrite <-Hpk].
Qed.

Lemma refreshed_vouched s req token q' :
  Forall (vouched s) (issued s) → presentable interceptor (rr_refresh_token req) s →
  refresh_access_token auth_svc req (pending s) = (Done token, q') → vouched s (value token).
Proof.
  intros Hall Hpres (_ & _ & alg & d & c & c' & t & Hv & Hc & _ & _ & Hpk & _ & Hs & ->)%refresh_access_token_iff.
  rewrite same_key in Hv. cbn. eapply signed_vouched; [|exact Hs]. rewrite Hpk.
  eapply vouched_claims; [|exact Hv|exact Hc]. eapply Forall_forall; [exact Hall|]. apply Hpres. by rewrite Hv.
Qed.

Lemma intercepted_admitted {A} s header pk (a a' : A) :
  Forall (vouched s) (issued s) →
  (∀ token, header = Some (Some (BEARER +:+ token)%string) → presentable interceptor token s) →
  interceptor_call interceptor header a = (Done pk, a') → admitted s pk.
Proof.
  unfold interceptor_call. intros Hall Hpres ([alg d] & a1 & Hj & Hrest)%bind_done.
  apply bind_done in Hrest as (c & a2 & Hc & [<- _]%mret_done).
  apply jwt_from_header_done in Hj as (-> & token & -> & _ & Hv & _).
  eapply vouched_claims; [|exact Hv|exact Hc]. eapply Forall_forall; [exact Hall|].
  apply (Hpres token eq_refl). by rewrite Hv.
Qed.

(** What a step issues and whom it subscribes, beside what stays. *)
Lemma service_inv_grows s s' l l' :
  step s s' → service_inv s →
  rtc (sys_step cfg) (System_new cfg) (core s') → auth_inv policy (pending s', handlers s') →
  issued s' = issued s ++ l → Forall (vouched s') l →
  (subscription_queue (grpc (core s'))).*1 = (subscription_queue (grpc (core s))).*1 ++ l' →
  Forall (admitted s') l' → service_inv s'.
Proof.
  intros Hstep [_ _ Hiss Hsub] Hcore Hpend Hi Hl Hs Hl'. split; [done|done|..].
  - rewrite Hi. apply Forall_app. split; [|done]. eapply Forall_impl; [exact Hiss|].
    intros token. by apply vouched_stays.
  - rewrite Hs. apply Forall_app. split; [|done]. eapply Forall_impl; [exact Hsub|].
    intros pk. by apply admitted_stays.
Qed.

Lemma service_step_ok s s' :
  rtc step (Service_new cfg k) s → service_inv s → step s s' → service_inv s'.
Proof.
  intros Hrun Hinv Hstep. pose proof Hinv as [Hcore Hpend Hiss Hsub]. pose proof Hstep as Hstep'.
  destruct Hstep as
    [s core' [Hc Hq]|s p' h' Ha|s i req ip resp Hi Ht|s req token Hpres Hr|s header pk hr sender g' Hroom Hpres Hint Hs].
  - eapply (service_inv_grows _ _ [] [] Hstep' Hinv); destruct s; cbn in *; unfold constant;
      rewrite ?app_nil_r; [by eapply rtc_r|done..|by rewrite Hq|done].
  - eapply (service_inv_grows _ _ [] [] Hstep' Hinv); destruct s; cbn in *; unfold constant;
      rewrite ?app_nil_r; [done|by eapply auth_step_inv|done..].
  - destruct (tokens_vouched s i req ip resp Hrun (proj1 Hpend) Hi Ht) as [Ha Hr].
    eapply (service_inv_grows _ _ _ [] Hstep' Hinv); [by destruct s| |by destruct s|by repeat constructor
      |by destruct s; cbn; rewrite app_nil_r|done].
    eapply auth_step_inv; [exact Hpend|]. destruct s. by eapply step_tokens_prepare.
  - pose proof (refreshed_vouched s req token _ Hiss Hpres Hr) as Hv.
    eapply (service_inv_grows _ _ [value token] [] Hstep' Hinv); [by destruct s..| |by destruct s; cbn; rewrite app_nil_r|done].
    apply Forall_singleton. by eapply vouched_stays.
  - pose proof (intercepted_admitted s _ _ _ _ Hiss Hpres Hint) as Hadm. pose proof Hs as Hs'.
    apply subscribe_packets_iff in Hs' as (_ & _ & pk' & [= <-] & Hsd & Hg).
    eapply (service_inv_grows _ _ [] [pk] Hstep' Hinv); [..|apply Forall_singleton; by eapply admitted_stays].
    + destruct s. cbn in *. eapply rtc_r; [exact Hcore|]. by eapply step_subscribe.
    + by destruct s.
    + destruct s. cbn. by rewrite app_nil_r.
    + done.
    + subst. destruct s as [core ? ? ?], core as [? ? ? ? ? ? ? ? ? ? ? []]. cbn. by rewrite fmap_app.
Qed.

Lemma service_reachable s : rtc step (Service_new cfg k) s → service_inv s.
Proof.
  intros Hrun. enough (rtc step (Service_new cfg k) s ∧ service_inv s) as [_ Hinv] by done. revert Hrun.
  apply (rtc_invariant step (λ s, rtc step (Service_new cfg k) s ∧ service_inv s)).
  - intros s1 s2 [Hr Hinv] Hstep. split; [by eapply rtc_r|by eapply service_step_ok].
  - split; [apply rtc_refl|]. split; cbn; [apply rtc_refl|apply auth_inv_init|constructor|].
    rewrite no_subscription_yet. constructor.
Qed.

(** Who is connected has subscribed. *)
Lemma connected_subscribed (t : System) :
  sys_inv cfg t → among (λ pk, pk ∈ (subscription_queue (grpc t)).*1) (event_loop t).
Proof.
  intros [_ _ [Hrun _ _ _ Hsubs _] _ _ _ _ _]. set (P := λ pk, pk ∈ (subscription_queue (grpc t)).*1).
  assert (among P (run_event_loop (loop_config cfg) (Some <$> loop_log t)
    (Relayer_new (loop_capacities cfg))).2) as Hin; [|by rewrite Hrun in Hin].
  apply (run_loop_invariant_inputs
    (λ i, match ri_event i with SubscriptionArm (Some (pk, _)) _ => P pk | _ => True end) (among P)).
  - intros i st Hi. by apply relayer_iteration_among.
  - rewrite live_inputs_some. apply Forall_forall. intros i Hi.
    destruct (ri_event i) as [| |[[pk sender]|]| |] eqn:Hev; try done.
    assert ((pk, sender) ∈ loop_subscriptions (loop_log t)) as Hmem.
    { apply list_elem_of_omap. exists i. by rewrite Hev. }
    rewrite Hsubs in Hmem. apply list_elem_of_fmap. exists (pk, sender). split; [done|].
    apply (elem_of_sublist _ _ _ Hmem), sublist_take.
  - destruct (loop_capacities cfg) as [[c1 c2] c3]. intros pk c. cbn. by rewrite lookup_empty.
Qed.

Lemma service_admits s :
  rtc step (Service_new cfg k) s →
  rtc (sys_step cfg) (System_new cfg) (core s) ∧ among (admitted s) (event_loop (core s)).
Proof.
  intros [Hcore _ _ Hsub]%service_reachable. split; [done|]. intros pk c Hc.
  eapply Forall_forall; [exact Hsub|].
  eapply connected_subscribed; [|exact Hc]. by apply system_reachable.
Qed.
End admission.

(** ** Concrete inputs *)

(** The validator of Running.v asks for a challenge, redeems it, and shows its access token
    once the relayer is healthy. *)
Local Abbreviation toy_q := (map_kpq reverse_cmp).
Local Abbreviation toy_j := (toy_jwt DeSerClaims).
Definition toy_auth_svc : AuthServiceImpl (J := toy_j) (V := ValidatorStore) :=
  {| validator_auther := UserDefined {["a"%char]}; signing_key := "k"%char;
     service_verifying_key := "k"%char; access_token_ttl := 1800 * nanos_per_sec;
     refresh_token_ttl := 180000 * nanos_per_sec; challenge_ttl := 1800 * nanos_per_sec |}.
Definition toy_asked : AuthChallenge :=
  match (challenge_prepare (Q := toy_q) toy_auth_svc toy_challenge_request toy_ip kpq_default).1 with
  | Done (inr c) => c
  | _ => toy_issued
  end.
Definition toy_pending : gmap IpAddr AuthChallenge := {[toy_ip := toy_asked]}.
Definition toy_answered : TokensResponse :=
  match (tokens_prepare (Q := toy_q) toy_auth_svc toy_tokens_request toy_pending).1 with
  | Done (_, response) => response
  | _ => toy_response
  end.
Definition toy_issued_tokens : list string :=
  [value (access_token toy_answered); value (refresh_token toy_answered)].
Definition toy_holding (c : System) : Service (Q := toy_q) :=
  {| core := c; pending := toy_pending; handlers := [Removing toy_ip]; issued := toy_issued_tokens |}.

Section toy_session.
Variable policy : ValidatorStore → Prop.
Hypothesis lets_in : policy (UserDefined {["a"%char]}).
Local Abbreviation toy_step := (service_step (Q := toy_q) toy_system_config toy_auth_svc toy_interceptor policy).

Lemma toy_tokens_held : rtc toy_step (Service_new toy_system_config 1) (toy_holding toy_new).
Proof.
  eapply rtc_l; [eapply service_auth, (step_challenge_begin _ 0 toy_challenge_request toy_ip); reflexivity|].
  eapply rtc_l; [eapply service_auth, (step_challenge_new _ 0 toy_challenge_request toy_ip toy_auth_svc toy_asked);
    [reflexivity|exact lets_in|vm_refl]|].
  eapply rtc_l; [eapply service_auth, (step_challenge_push (Q := toy_q) _ 0 toy_ip toy_asked _ toy_pending); reflexivity|].
  eapply rtc_l; [eapply (service_tokens _ _ _ _ _ 0 toy_tokens_request toy_ip toy_answered); [reflexivity|vm_refl]|].
  apply rtc_refl.
Qed.

Lemma toy_core_runs c c' : rtc (quiet_step toy_system_config) c c' → rtc toy_step (toy_holding c) (toy_holding c').
Proof.
  apply (rtc_congruence toy_holding). intros c1 c2 Hstep.
  exact (service_core _ _ _ _ (toy_holding c1) c2 Hstep).
Qed.

Lemma toy_served : rtc toy_step (Service_new toy_system_config 1) (toy_holding toy_drained).
Proof.
  etrans; [exact toy_tokens_held|]. etrans; [apply toy_core_runs; exact toy_healthy_quiet|].
  eapply rtc_l; [|apply toy_core_runs, moves_quiet; exact toy_runs].
  apply (service_subscribe _ _ _ _ (toy_holding toy_healthy)
    (Some (Some (BEARER +:+ value (access_token toy_answered))%string)) "a"%char Healthy
    (channel SUBSCRIBER_QUEUE_CAPACITY)).
  - apply Nat.ltb_lt. vm_refl.
  - intros token <-%bearer_inj _. by left.
  - vm_refl.
  - vm_refl.
Qed.
End toy_session.
