(* ===== verification/AccessPath.v ===== *)
(** * The composed access path

    A validator asks for a challenge, signs it, is given tokens (AuthService.v), shows one
    to the interceptor (AuthInterceptor.v), subscribes and is sent packets (Relayer.v).
    The theorem here takes a validator through all of it; the client's side of the
    challenge is the one the repository has, that of BlockEngine.v. *)

From S2P Require Import Prelude External Instances Ofac Packets ScheduleCache HealthManager.
From S2P Require Import AuthInterceptor AuthChallenges AuthService Relayer RelayerAccounting ControlPath BlockEngine.
Local Open Scope Z_scope.

(** ** Getting a token *)

Section tokens.
Context `{SdkLaws} `{IT : !IpText} `{CH : !Chrono} `{ED : !Ed25519} `{!ProtoRoles}.
Context `{KP : !Keypairs} `{!KeypairsLaws} `{!IpTextLaws} `{!ChronoLaws}.
Context `{J : !Jwt DeSerClaims}.
Context `{Q : !KeyedPriorityQueue IpAddr AuthChallenge reverse_cmp} `{!KeyedPriorityQueueLaws}.
Context {V : Type} `{!ValidatorAuther V}.
Implicit Types (self : AuthServiceImpl (J := J) (V := V)) (q : kpq (KeyedPriorityQueue := Q)).

(** The service can sign, and dates stay in their range. *)
Record service_works self (req : ChallengeRequest) : Prop := {
  works_keys : JwtKeyPair (signing_key self) (service_verifying_key self);
  works_signs : ∀ c, is_Some (sign_with_key (signing_key self) Rs256 (DeSerClaims_from c));
  works_access : is_Some (datetime_add (cr_now_access req) (access_token_ttl self));
  works_refresh : is_Some (datetime_add (cr_now_refresh req) (refresh_token_ttl self));
  works_challenge : is_Some (datetime_add (cr_now_challenge req) (challenge_ttl self)) }.

(** The holder of [kp] asks for a challenge from the address [ip], which has no
    unexpired one, and may have it. *)
Record may_ask self (kp : Keypair) (ip : IpAddr) (req : ChallengeRequest) q : Prop := {
  ask_health : cr_health req = Healthy;
  ask_room : Z.of_nat (kpq_len q) < AUTH_CHALLENGES_CAPACITY;
  ask_addr : cr_remote_addr req = Some ip;
  ask_role : cr_role req = role_validator;
  ask_key : cr_pubkey req = pubkey_to_bytes (keypair_pubkey kp);
  ask_authorized : is_authorized (validator_auther self) (keypair_pubkey kp) = true;
  ask_new : ∀ c, kpq_get_priority ip q = Some c → challenge_is_expired (cr_now_expired req) c = true }.

(** The answer of the client to the challenge [text], sent from [ip]. *)
Definition answer (kp : Keypair) (ip : IpAddr) (text : string) : TokensRequest :=
  let req := auth_tokens_request kp text in
  {| tr_health := Healthy; tr_remote_addr := Some ip;
     tr_client_pubkey := atr_client_pubkey req; tr_challenge := atr_challenge req;
     tr_signed_challenge := atr_signed_challenge req |}.

Lemma ask_challenge self kp ip req q :
  service_works self req → may_ask self kp ip req q →
  ∃ c, fresh_challenge self req ip c ∧ client_pubkey (access_claims c) = keypair_pubkey kp ∧
    generate_auth_challenge self req q = (Done (challenge c), kpq_push ip c q).
Proof.
  intros [_ _ [a Ha] [r Hr] [e He]] [Hh Hroom Hip Hrole Hkey Hauth Hnew].
  set (c := {| challenge := generate_challenge_token (cr_samples req);
               access_claims := {| client_ip := ip; client_pubkey := keypair_pubkey kp; expires_at_utc := a |};
               refresh_claims := {| client_ip := ip; client_pubkey := keypair_pubkey kp; expires_at_utc := r |};
               challenge_expires_at_utc := e |}).
  assert (fresh_challenge self req ip c) as Hf.
  { unfold fresh_challenge. rewrite Hkey, pubkey_to_bytes_length, pubkey_bytes_roundtrip. by split_and!. }
  exists c. split; [done|]. split; [done|]. unfold generate_auth_challenge, challenges_push.
  rewrite (prog_bind_done _ _ _ ip q) by (by apply challenge_begin_done).
  rewrite (prog_bind_done _ _ _ (inr c) q); [done|]. by apply challenge_prepare_done.
Qed.

Lemma redeem_challenge self kp ip req c q :
  service_works self req → kpq_get_priority ip q = Some c →
  client_pubkey (access_claims c) = keypair_pubkey kp →
  ∃ resp, tokens_for self c resp ∧
    generate_auth_tokens self (answer kp ip (challenge c)) q = (Done resp, kpq_remove ip q).
Proof.
  intros Hw Hc Hpk. eapply valid_submission_tokens; [done|done|exact Hc| |apply (works_signs _ _ Hw)..].
  by apply client_answers_challenge.
Qed.

Lemma show_token {S} self req ip c resp (s : S) :
  service_works self req → fresh_challenge self req ip c → tokens_for self c resp →
  interceptor_call {| verifying_key := service_verifying_key self; expected_signing_algo := Rs256 |}
    (Some (Some (BEARER +:+ value (access_token resp))%string)) s
  = (Done (client_pubkey (access_claims c)), s).
Proof.
  intros Hw (_ & _ & _ & _ & _ & _ & _ & _ & Hacc & _) (access & refresh & Hsign & _ & ->). cbn.
  eapply (interceptor_accepts_signed _ {| verifying_key := _; expected_signing_algo := Rs256 |});
    [apply (works_keys _ _ Hw)|exact Hacc|exact Hsign].
Qed.
End tokens.

(** ** Getting packets *)

Section stream.
Context `{SD : Sdk} `{IT : !IpText} `{!Channels} `{!Histograms} `{!HashOrder Pubkey} `{!HashOrder Slot}.
Context `{!ChannelsLaws} `{!HashOrderLaws Pubkey}.

Lemma subscribe_accepted pk (impl : RelayerImpl) :
  event_loop_alive impl = true →
  subscribe_packets Healthy (Some pk) impl =
    (Done (channel SUBSCRIBER_QUEUE_CAPACITY),
     {impl with subscription_queue ::= (λ l, l ++ [(pk, channel SUBSCRIBER_QUEUE_CAPACITY)])}).
Proof. unfold subscribe_packets. destruct impl. cbn. by intros ->. Qed.

(** An iteration between two receives of the validators. *)
Definition no_receives (i : RelayerInput) : Prop := ∀ pk c, ri_receivers i pk c = c.

Lemma relayer_iteration_done config i st u st1 :
  no_receives i → relayer_select config (ri_capacities i) (ri_event i) st = (Done u, st1) →
  ∃ st', relayer_iteration config i st = (Done tt, st') ∧
    packet_subscriptions st' = packet_subscriptions st1 ∧ slot_leaders st' = slot_leaders st1.
Proof.
  intros Hrecv Hsel. unfold relayer_iteration.
  assert ({st with packet_subscriptions ::= map_imap (λ pk c, Some (ri_receivers i pk c))} = st) as Hst.
  { destruct st as [subs h l m r]. cbn. f_equal. apply map_eq. intros pk. rewrite map_lookup_imap.
    destruct (subs !! pk) as [c|]; cbn; [by rewrite Hrecv|done]. }
  rewrite (prog_bind_done (modify _) _ _ tt st) by (unfold modify; by rewrite Hst).
  rewrite (prog_bind_done _ _ _ _ _ Hsel). destruct (ri_lens i) as [[l1 l2] l3], st1 as [subs h l [] r].
  by eexists.
Qed.

Lemma subscription_arm_done config caps pk sender us st :
  ∃ st1, relayer_select config caps (SubscriptionArm (Some (pk, sender)) us) st = (Done tt, st1) ∧
    packet_subscriptions st1 = <[pk := sender]> (packet_subscriptions st) ∧
    slot_leaders st1 = slot_leaders st.
Proof.
  destruct st as [subs h l [] r]. cbn [relayer_select].
  unfold handle_subscription, received_or_shutdown, with_relayer_metrics. prog_unfold. cbn.
  destruct (subs !! pk); by eexists.
Qed.

(** A subscription, then a delivery. *)
Lemma subscribe_then_deliver config i1 i2 pk us1 batches us ts cache us2 st :
  let sender := channel SUBSCRIBER_QUEUE_CAPACITY in
  (0 < validator_packet_batch_size config)%nat → all_open (packet_subscriptions st) →
  no_receives i1 → no_receives i2 →
  ri_event i1 = SubscriptionArm (Some (pk, sender)) us1 →
  ri_event i2 = PacketArm (Some batches) us ts cache us2 →
  ∃ st' c, run_event_loop config [Some i1; Some i2] st = (Done Running, st') ∧
    packet_subscriptions st' !! pk = Some c ∧
    chan_queue c =
      if decide (forward_all config = true ∨ pk ∈ slot_leaders st)
      then take SUBSCRIBER_QUEUE_CAPACITY (batch_msgs ts 0 (made_batches config cache batches) pk)
      else [].
Proof.
  intros sender Hsize Hopen Hrecv1 Hrecv2 Hev1 Hev2. generalize dependent SUBSCRIBER_QUEUE_CAPACITY.
  intros cap sender Hev1. pose proof (channel_view (Outcome Status SubscribePacketsResponse) cap) as Hview.
  fold sender in Hview. unfold chan_view in Hview. injection Hview as Hqueue Hbound Hclosed.
  destruct (subscription_arm_done config (ri_capacities i1) pk sender us1 st) as (s1 & Hr1 & Hs1 & Hl1).
  rewrite <-Hev1 in Hr1.
  destruct (relayer_iteration_done config i1 st _ _ Hrecv1 Hr1) as (st1 & Hi1 & Hs1' & Hl1').
  assert (all_open (packet_subscriptions st1)) as Hopen1.
  { rewrite Hs1', Hs1. intros p c [[<- <-]|[_ Hc]]%lookup_insert_Some; [done|by eapply Hopen]. }
  destruct (packet_arm_done config (ri_capacities i2) batches us ts cache us2 st1 Hsize Hopen1)
    as (s2 & Hr2 & Hd). rewrite <-Hev2 in Hr2.
  destruct (relayer_iteration_done config i2 st1 _ _ Hrecv2 Hr2) as (st2 & Hi2 & Hs2' & _).
  destruct (Hd pk sender) as (c & Hc & Ha); [rewrite Hs1', Hs1; apply lookup_insert_eq|].
  exists st2, c. split_and!.
  - unfold run_event_loop. cbn [run_loop].
    by rewrite (prog_bind_done _ _ _ _ _ Hi1), (prog_bind_done _ _ _ _ _ Hi2).
  - by rewrite Hs2'.
  - unfold chan_adds, chan_view in Ha. injection Ha as -> _ _.
    rewrite Hl1', Hl1, Hqueue. unfold accepted. rewrite Hbound, Hqueue. cbn.
    by rewrite Nat.sub_0_r.
Qed.
End stream.

(** ** The session *)

Section session.
Context `{SdkLaws} `{IT : !IpText} `{CH : !Chrono} `{ED : !Ed25519} `{!ProtoRoles}.
Context `{KP : !Keypairs} `{!KeypairsLaws} `{!IpTextLaws} `{!ChronoLaws}.
Context `{J : !Jwt DeSerClaims}.
Context `{Q : !KeyedPriorityQueue IpAddr AuthChallenge reverse_cmp} `{!KeyedPriorityQueueLaws}.
Context {V : Type} `{!ValidatorAuther V}.
Context `{!Channels} `{!Histograms} `{!HashOrder Pubkey} `{!HashOrder Slot}.
Context `{!ChannelsLaws} `{!HashOrderLaws Pubkey}.
Implicit Types (self : AuthServiceImpl (J := J) (V := V)) (q : kpq (KeyedPriorityQueue := Q)).

(** C11: A validator that may connect gets its packets.  With a healthy relayer under its
    capacity, an authorized validator that asks for a challenge is given a new one; its
    answer, signed as the repository's own client signs, is exchanged for tokens, which
    uses the challenge up and touches no other; the access token passes the interceptor
    as the validator's key; the subscription is accepted; and once the event loop has
    taken it, the next delivery puts all its batches, as far as the queue has room, in
    the validator's stream if it leads one of the upcoming slots, or if everything is
    forwarded to all. *)
Theorem validator_session self kp ip req q (impl : RelayerImpl) config st :
  let pk := keypair_pubkey kp in
  service_works self req → may_ask self kp ip req q → event_loop_alive impl = true →
  (0 < validator_packet_batch_size config)%nat → all_open (packet_subscriptions st) →
  ∃ text q1 resp q2 sender impl',
    generate_auth_challenge self req q = (Done text, q1) ∧
    generate_auth_tokens self (answer kp ip text) q1 = (Done resp, q2) ∧
    kpq_view q2 = delete ip (kpq_view q) ∧
    interceptor_call {| verifying_key := service_verifying_key self; expected_signing_algo := Rs256 |}
      (Some (Some (BEARER +:+ value (access_token resp))%string)) impl = (Done pk, impl) ∧
    subscribe_packets Healthy (Some pk) impl = (Done sender, impl') ∧
    (pk, sender) ∈ subscription_queue impl' ∧
    ∀ i1 i2 us1 batches us ts cache us2,
      no_receives i1 → no_receives i2 →
      ri_event i1 = SubscriptionArm (Some (pk, sender)) us1 →
      ri_event i2 = PacketArm (Some batches) us ts cache us2 →
      ∃ st' c, run_event_loop config [Some i1; Some i2] st = (Done Running, st') ∧
        packet_subscriptions st' !! pk = Some c ∧
        chan_queue c =
          if decide (forward_all config = true ∨ pk ∈ slot_leaders st)
          then take SUBSCRIBER_QUEUE_CAPACITY (batch_msgs ts 0 (made_batches config cache batches) pk)
          else [].
Proof.
  intros pk Hworks Hask Halive Hsize Hopen.
  destruct (ask_challenge self kp ip req q Hworks Hask) as (c & Hfresh & Hpk & Hchallenge).
  destruct (redeem_challenge self kp ip req c (kpq_push ip c q) Hworks) as (resp & Htok & Htokens).
  { rewrite kpq_get_priority_view, kpq_push_view. apply lookup_insert_eq. }
  { done. }
  eexists _, _, resp, _, _, _. split_and!; [exact Hchallenge|exact Htokens| | | | |].
  - rewrite kpq_remove_view, kpq_push_view. apply delete_insert_eq.
  - rewrite (show_token self req ip c resp impl Hworks Hfresh Htok). by rewrite Hpk.
  - by apply subscribe_accepted.
  - destruct impl. cbn. set_solver.
  - intros. by eapply subscribe_then_deliver.
Qed.
End session.

(** ** Concrete inputs *)

Definition toy_impl : RelayerImpl :=
  {| tpu_quic_ports := [11228]; tpu_fwd_quic_ports := [11229]; public_ip := toy_ip; relayer_seq := 0;
     subscription_queue := []; event_loop_alive := true |}.

(** The validator [a] connects to a relayer with no other, and is sent one packet. *)
Lemma validator_session_witness :
  let st := toy_relayer ∅ in
  let q : kpq (KeyedPriorityQueue := map_kpq reverse_cmp) := ∅ in
  ∃ text q1 sender impl',
    generate_auth_challenge toy_service toy_challenge_request q = (Done text, q1) ∧
    text = "777777777"%string ∧
    subscribe_packets Healthy (Some "a"%char) toy_impl = (Done sender, impl') ∧
    ∀ i1 i2,
      no_receives i1 → no_receives i2 →
      ri_event i1 = SubscriptionArm (Some ("a"%char, sender)) 1 →
      ri_event i2 = PacketArm (Some toy_packets) 9 (λ _ _, 3) ∅ 5 →
      ∃ st' c, run_event_loop toy_config [Some i1; Some i2] st = (Done Running, st') ∧
        packet_subscriptions st' !! "a"%char = Some c ∧ length (chan_queue c) = 1%nat.
Proof.
  intros st q.
  destruct (validator_session (KP := toy_keypairs) (Q := map_kpq reverse_cmp)
    (J := toy_jwt DeSerClaims) toy_service "a"%char toy_ip toy_challenge_request q toy_impl
    toy_config st) as (text & q1 & resp & q2 & sender & impl' & Hc & _ & _ & _ & Hs & _ & Hloop).
  - split; [exact _|by eexists|by eexists..].
  - split; [vm_refl|vm_compute; reflexivity|vm_refl|vm_refl|vm_refl|vm_refl|]. intros c Hc. discriminate Hc.
  - reflexivity.
  - cbn. lia.
  - intros pk c Hc. discriminate Hc.
  - exists text, q1, sender, impl'. split; [exact Hc|].
    split; [|split; [exact Hs|]].
    + apply (f_equal fst) in Hc. vm_compute in Hc. by injection Hc.
    + intros i1 i2 H1 H2 He1 He2. destruct (Hloop i1 i2 _ _ _ _ _ _ H1 H2 He1 He2) as (st' & c & Hr & Hl & Hq).
      exists st', c. split; [exact Hr|]. split; [exact Hl|]. rewrite Hq. vm_refl.
Defined.
