(* ===== verification/Delivery.v ===== *)
(** * What reaches the validators

    Running.v shows that every batch the signature stage passes on arrives at the event
    loop of the running relayer, AccessPath.v what a turn of the loop does with one.  Here
    both are joined: once the threads have come to rest, every verified batch has had its
    turn, and all of it that may leave was sent to the validators that were due. *)

From S2P Require Import Prelude External Instances Ofac Packets ScheduleCache HealthManager LoadBalancer.
From S2P Require Import AuthInterceptor AuthService Forwarder Relayer RelayerAccounting ControlPath.
From S2P Require Import BlockEngine Tpu DataPath System Running AccessPath.
Local Open Scope Z_scope.

Section delivery.
Context `{SD : Sdk} `{IT : !IpText} `{!Channels} `{!Histograms} `{!HashOrder Pubkey} `{!HashOrder Slot}.
Context `{!ChannelsLaws} `{!HashOrderLaws Pubkey}.
Implicit Types (config : RelayerConfig) (log : list RelayerInput) (batch : BankingPacketBatch).

(** A turn that takes [batch] in the state [st], after those of [log], and leaves [st']: no
    packet of it is lost to the batching, and it goes to the validators due. *)
Definition delivers config log (i : RelayerInput) batch (st st' : Relayer) : Prop :=
  ∃ batches us ts cache us',
    let made := made_batches config cache batches in
    ri_event i = PacketArm (Some batches) us ts cache us' ∧ banking_packet_batch batches = batch ∧
    concat (map packets made) = forwardable (ofac_addresses config) cache batch ∧
    delivered_to (due config (Some <$> log)) (batch_msgs ts 0 made)
      (packet_subscriptions st) (packet_subscriptions st').

(** Among its turns [log] from the start, the loop delivered [batch] at the one with [n]
    packet turns before it. *)
Definition delivered_at config caps log (n : nat) batch : Prop :=
  ∃ l1 i l2 st st',
    log = l1 ++ i :: l2 ∧ length (delay_received (Some <$> l1)) = n ∧
    run_event_loop config (Some <$> l1) (Relayer_new caps) = (Done Running, st) ∧
    relayer_iteration config i st = (Done tt, st') ∧
    delivers config l1 i batch (after_receivers i st) st'.

(** Every packet turn the loop has gone through was a delivery. *)
Lemma packet_turns_deliver config caps log st n batch :
  (0 < validator_packet_batch_size config)%nat →
  run_event_loop config (Some <$> log) (Relayer_new caps) = (Done Running, st) →
  (banking_packet_batch <$> delay_received (Some <$> log)) !! n = Some batch →
  delivered_at config caps log n batch.
Proof.
  intros Hsize Hrun Hn. rewrite list_lookup_fmap in Hn. unfold delay_received in Hn.
  rewrite live_inputs_some in Hn. apply fmap_Some in Hn as (batches & Hn & ->).
  apply omap_lookup_split in Hn as (l1 & i & l2 & -> & Hi & Hlen).
  destruct (run_loop_split _ _ _ _ _ _ Hrun) as (st1 & st2 & Hrun1 & Hturn & _).
  exists l1, i, l2, st1, st2. unfold delay_received. rewrite live_inputs_some. split_and!; [done..|].
  destruct (ri_event i) as [|[b|] us ts cache us'| | |] eqn:Hev; try discriminate. injection Hi as ->.
  exists batches, us, ts, cache, us'. split_and!; [done..|by apply made_batches_concat|].
  pose proof (packet_turn config caps _ _ st1 i batches us ts cache us' Hsize Hrun1 Hev) as Ht.
  by rewrite Hturn in Ht.
Qed.
End delivery.

Section running_delivery.
Context `{SD : Sdk} `{IT : !IpText} `{!Channels} `{!Histograms} `{!HashOrder Pubkey} `{!HashOrder Slot}.
Context `{!NetUtils} `{!SigVerifier} `{!HashOrder string}.
Context `{!ChannelsLaws} `{!HashOrderLaws Pubkey}.
Variable cfg : SystemConfig.
Hypothesis no_subscription_yet : subscription_queue (grpc_start cfg) = [].

(** C10: What is verified is delivered.  Whatever the interleaving and however full the
    channels, from every reachable state the threads come to rest if nothing more comes
    in, and then every batch the signature stage ever passed on has been delivered, the
    n-th of them at the n-th packet turn of the event loop: cut in batches without loss
    of a packet that may leave; given to no validator that was not due by the last slot the
    loop had received, where everyone is due when everything is forwarded to all; and, if no
    stream was closed at that turn, given in full, as far as the queues had room, to every
    connected validator that was due. *)
Theorem running_system_delivers s :
  (0 < validator_packet_batch_size (loop_config cfg))%nat →
  rtc (sys_step cfg) (System_new cfg) s →
  sn (moves cfg) s ∧
  ∀ s', rtc (moves cfg) s s' → nf (moves cfg) s' →
    ∀ n batch, verified_sent (tpu_part s') !! n = Some batch →
      delivered_at (loop_config cfg) (loop_capacities cfg) (loop_log s') n batch.
Proof.
  intros Hsize Hinv%system_reachable; [|done]. split; [by eapply sys_inv_sn|].
  intros s' Hruns Hnf n batch Hn. eapply runs_ok in Hinv; [|exact Hruns].
  assert (moves_left s' = 0%nat) as Hleft.
  { destruct (decide (moves_left s' = 0%nat)); [done|].
    destruct Hnf. eapply moves_left_red; [exact Hsize|exact Hinv|lia]. }
  destruct (nothing_left cfg s' Hinv Hleft) as (_ & _ & _ & Hall & _).
  eapply packet_turns_deliver; [done|apply (li_run _ _ _ _ _ _ _ _ _ (sys_loop _ _ Hinv))|].
  by rewrite Hall.
Qed.
End running_delivery.

(** ** Concrete inputs *)

(** The batch that the toy relayer verified arrives with the validator [a] connected. *)
Lemma running_system_delivers_witness :
  sn (moves toy_system_config) toy_subscribed ∧
  delivered_at toy_config (1, 1, 1) (loop_log toy_drained) 0 toy_verified.
Proof.
  destruct (running_system_delivers toy_system_config eq_refl toy_subscribed ltac:(cbn; lia)
    toy_subscribed_reachable) as [Hsn Hend].
  split; [exact Hsn|]. apply (Hend toy_drained toy_runs toy_drained_nf).
  change (verified_sent toy_pipeline !! 0%nat = Some toy_verified). by rewrite toy_verified_sent.
Defined.
