(* ===== verification/PacketBlaster.v ===== *)
(** * The packet blaster ([packet_blaster/src/main.rs])

    A load generator beside the relayer: one thread for each key pair, which signs
    batches of ten transfers to itself and sends them to the relayer's TPU over one of
    three kinds of connection.  The thread is a loop over the answers of the network; a
    future over one QUIC stream is a program over what was written to that stream. *)

From S2P Require Import Prelude External Instances.
Local Open Scope Z_scope.

(** ** Arguments and source addresses *)

Inductive Mode :=
| Quic
| Quinn (spam_from_localhost : bool)
| SlowLoris (spam_from_localhost : bool) (chunk_size sleep_interval_ms num_connections
    num_streams_per_conn : Z).

(** [ip_port_offset] is a [u16]; addresses are texts. *)
Record BlasterArgs := {
  rpc_addr : string;
  keypair_path : string;
  tpu_addr : string;
  ip_port_offset : Z;
  loop_sleep_micros : option Z;
  connection_mode : Mode }.

(** [offset.to_be_bytes()], most significant byte first *)
Definition be_byte (k z : Z) : Z := Z.land (Z.shiftr z (8 * k)) 255.
Definition to_be_bytes (z : Z) : Z * Z * Z * Z :=
  (be_byte 3 z, be_byte 2 z, be_byte 1 z, be_byte 0 z).

Definition local_socket_addr (ip_port_offset thread_id : Z) (spam_from_localhost : bool)
    : IpAddr * Z :=
  let offset := u32_add ip_port_offset (u32_wrap thread_id) in
  let '(_, ip1, ip2, ip3) := to_be_bytes offset in
  let port := u16_add 1024 (u16_wrap offset) in
  if spam_from_localhost then (IpV4 127 ip1 ip2 ip3, port) else (IpV4 0 0 0 0, port).

(** The ports [main] says it sends on, both ends included. *)
Definition announced_ports (args : BlasterArgs) (num_pubkeys : Z) : Z * Z :=
  let starting_port := u16_add 1024 (ip_port_offset args) in
  (starting_port, u16_add starting_port (u16_wrap num_pubkeys)).

(** ** Connections *)

(** [quinn::ConnectError] and the other causes are the texts they print. *)
Inductive PacketBlasterError :=
| ConnectError (e : string)
| ConnectionError (e : string)
| WriteError (e : string)
| TransportError (e : string).

Record Connection := { conn_source : IpAddr * Z; conn_dest : string }.
Inductive TpuSender :=
| QuinnSender (connection : Connection)
| SlowLorisSender (connection : Connection) (chunk_size num_streams_per_conn sleep_interval : Z)
| QuicSender (client : string).

(** Whether the endpoint can be made (certificate, source socket), [connect] takes the
    address, and the handshake succeeds. *)
Record ConnectAnswers := { ca_endpoint : bool; ca_connect : bool; ca_handshake : bool }.

Definition setup_quinn_sender (dest_addr : string) (ip_port_offset thread_id : Z)
    (spam_from_localhost : bool) (ans : ConnectAnswers) : Outcome PacketBlasterError Connection :=
  let send_socket_addr := local_socket_addr ip_port_offset thread_id spam_from_localhost in
  if negb (ca_endpoint ans) then Panicked "create_endpoint"
  else if negb (ca_connect ans) then Panicked "called `Result::unwrap()` on an `Err` value"
  else if negb (ca_handshake ans) then Panicked "Failed to bind thread"
  else Done {| conn_source := send_socket_addr; conn_dest := dest_addr |}.

Definition TpuSender_new (args : BlasterArgs) (thread_id : Z) (ans : ConnectAnswers)
    : Outcome PacketBlasterError TpuSender :=
  match connection_mode args with
  | Quinn spam_from_localhost =>
      connection ← setup_quinn_sender (tpu_addr args) (ip_port_offset args) thread_id
        spam_from_localhost ans;
      mret (QuinnSender connection)
  | SlowLoris spam_from_localhost chunk_size sleep_interval_ms _ num_streams_per_conn =>
      connection ← setup_quinn_sender (tpu_addr args) (ip_port_offset args) thread_id
        spam_from_localhost ans;
      mret (SlowLorisSender connection chunk_size num_streams_per_conn
        (sleep_interval_ms * 1000000))
  | Quic => mret (QuicSender (tpu_addr args))
  end.

(** ** Sending *)

(** What one stream was given: whether it was opened, the buffers written whole, and
    whether it was finished. *)
Record StreamLog := { opened : bool; written : list (list Byte.byte); finished : bool }.
Definition StreamLog_new : StreamLog := {| opened := false; written := []; finished := false |}.

(** The errors of one stream, [None] for none: opening it, its [n]-th write, finishing it. *)
Record StreamAnswers := {
  sa_open : option string;
  sa_write : nat → option string;
  sa_finish : option string }.

Definition answer {S} (e : option string) (err : string → PacketBlasterError) (f : S → S)
    : Prog S PacketBlasterError unit :=
  match e with Some why => throw (err why) | None => modify f end.

Definition open_uni (ans : StreamAnswers) : Prog StreamLog PacketBlasterError unit :=
  answer (sa_open ans) ConnectionError (λ s, {s with opened := true}).
Definition write_all (ans : StreamAnswers) (n : nat) (buf : list Byte.byte)
    : Prog StreamLog PacketBlasterError unit :=
  answer (sa_write ans n) WriteError (λ s, {s with written ::= (λ l, l ++ [buf])}).
Definition finish (ans : StreamAnswers) : Prog StreamLog PacketBlasterError unit :=
  answer (sa_finish ans) WriteError (λ s, {s with finished := true}).

Definition quinn_stream (ans : StreamAnswers) (buf : list Byte.byte)
    : Prog StreamLog PacketBlasterError unit :=
  open_uni ans ;; write_all ans 0 buf ;; finish ans.

(** The loop over [txn.chunks(chunk_size)], from the [n]-th chunk on. *)
Fixpoint write_chunks (ans : StreamAnswers) (n : nat) (bufs : list (list Byte.byte))
    : Prog StreamLog PacketBlasterError unit :=
  match bufs with
  | [] => mret tt
  | chunk :: bufs' => write_all ans n chunk ;; write_chunks ans (S n) bufs'
  end.

Definition slow_loris_stream (chunk_size : Z) (ans : StreamAnswers) (txn : list Byte.byte)
    : Prog StreamLog PacketBlasterError unit :=
  open_uni ans ;;
  assert (negb (chunk_size =? 0)) "chunk size must be non-zero" ;;
  write_chunks ans 0 (chunks (Z.to_nat chunk_size) txn) ;;
  finish ans.

(** [join_all(futures).await]: the results in the order of the futures, [None] for
    [Ok(())]; a future that panics takes the thread with it. *)
Fixpoint join_all (futures : list (Prog StreamLog PacketBlasterError unit))
    : Outcome Empty_set (list (option PacketBlasterError) * list StreamLog) :=
  match futures with
  | [] => mret ([], [])
  | future :: futures' =>
      match future StreamLog_new with
      | (Panicked why, _) => Panicked why
      | (Fail e, log) => '(results, logs) ← join_all futures'; mret (Some e :: results, log :: logs)
      | (Done _, log) => '(results, logs) ← join_all futures'; mret (None :: results, log :: logs)
      end
  end.

(** [iter.cartesian_product(0..n)], without the numbers, which nothing uses *)
Definition with_streams (num_streams : Z) (txns : list (list Byte.byte)) : list (list Byte.byte) :=
  flat_map (λ txn, map (λ _, txn) (z_range 0 num_streams)) txns.

(** What [send] hears: the answers of the streams, by position, and of the QUIC client. *)
Record SendAnswers := {
  sd_stream : nat → StreamAnswers;
  sd_client : option string }.

Definition send (self : TpuSender) (ans : SendAnswers) (serialized_txns : list (list Byte.byte))
    : Outcome Empty_set (list (option PacketBlasterError) * list StreamLog) :=
  match self with
  | QuinnSender _ =>
      join_all (imap (λ j buf, quinn_stream (sd_stream ans j) buf) serialized_txns)
  | SlowLorisSender _ chunk_size num_streams_per_conn _ =>
      join_all (imap (λ j txn, slow_loris_stream chunk_size (sd_stream ans j) txn)
        (with_streams num_streams_per_conn serialized_txns))
  | QuicSender _ => mret ([TransportError <$> sd_client ans], [])
  end.

(** ** A sending thread *)

Definition TXN_BATCH_SIZE : Z := 10.
Definition blaster_metrics_interval : Z := 5 * nanos_per_sec.

Section blaster.
Context `{Sdk} `{!Keypairs} `{!Transfers}.

Section keys.
Context {SK VK : Type} `{!KeyFiles Keypair SK VK} `{!KeyDirs Keypair}.
Definition read_keypairs (path : string) : option (list Keypair) :=
  if is_dir (K := Keypair) path then
    match read_dir (K := Keypair) path with
    | Some entries =>
        Some (omap (λ entry : option string,
          match entry with
          | Some p => read_keypair_file (K := Keypair) (SK := SK) (VK := VK) p
          | None => None
          end) entries)
    | None => None
    end
  else
    match fs_read (K := Keypair) (SK := SK) (VK := VK) path with
    | Some bytes =>
        match keypair_from_bytes bytes with Some kp => Some [kp] | None => None end
    | None => None
    end.

(** [main] up to the threads: the key pair of each and the connection it makes. *)
Definition blaster_main (args : BlasterArgs) (answers : nat → ConnectAnswers)
    : Outcome Empty_set (list (Keypair * Outcome PacketBlasterError TpuSender)) :=
  match read_keypairs (keypair_path args) with
  | Some keypairs =>
      mret (imap (λ i kp, (kp, TpuSender_new args (Z.of_nat i) (answers i))) keypairs)
  | None => Panicked "Failed to read keypairs"
  end.
End keys.

(** The locals of a thread, the batches it has sent, and the counts it has logged:
    successes and failures since the last line, transactions in all. *)
Record BlasterThread := {
  last_blockhash_refresh : Z;
  latest_blockhash : Hash;
  curr_success_count : Z;
  curr_fail_count : Z;
  cumm_success_count : Z;
  cumm_fail_count : Z;
  batches_sent : list (list (list Byte.byte));
  infos : list (Z * Z * Z) }.

Definition BlasterThread_new (now : Z) (blockhash : Hash) : BlasterThread :=
  {| last_blockhash_refresh := now; latest_blockhash := blockhash;
     curr_success_count := 0; curr_fail_count := 0; cumm_success_count := 0;
     cumm_fail_count := 0; batches_sent := []; infos := [] |}.

(** What one turn reads: the clock, the blockhash when it asks for one, the answers. *)
Record BlasterInput := {
  bi_now : Z;
  bi_blockhash : option Hash;
  bi_answers : SendAnswers }.

Definition refresh_blockhash (i : BlasterInput) : Prog BlasterThread Empty_set unit :=
  st ← gets id;
  if blaster_metrics_interval <? elapsed (bi_now i) (last_blockhash_refresh st) then
    let cumm_success := u64_add (cumm_success_count st) (curr_success_count st) in
    let cumm_fail := u64_add (cumm_fail_count st) (curr_fail_count st) in
    modify (λ st, {st with
      cumm_success_count := cumm_success;
      cumm_fail_count := cumm_fail;
      infos ::= (λ l, l ++ [(curr_success_count st, curr_fail_count st,
                             u64_add cumm_success cumm_fail)]);
      last_blockhash_refresh := bi_now i;
      curr_success_count := 0;
      curr_fail_count := 0}) ;;
    blockhash ← unwrap "called `Result::unwrap()` on an `Err` value" (bi_blockhash i);
    modify (λ st, {st with latest_blockhash := blockhash})
  else mret tt.

Definition sent_count (st : BlasterThread) : Z :=
  u64_add (u64_add (u64_add (cumm_success_count st) (cumm_fail_count st))
    (curr_success_count st)) (curr_fail_count st).

(** The [filter_map] over [0..TXN_BATCH_SIZE]. *)
Definition serialized_txns (keypair : Keypair) (count : Z) (blockhash : Hash)
    : list (list Byte.byte) :=
  omap (λ i, serialize (transfer keypair (keypair_pubkey keypair) (u64_add count i) blockhash))
    (z_range 0 TXN_BATCH_SIZE).

Definition is_ok (r : option PacketBlasterError) : bool := bool_decide (r = None).

Definition blaster_iteration (keypair : Keypair) (tpu_sender : TpuSender) (i : BlasterInput)
    : Prog BlasterThread Empty_set unit :=
  refresh_blockhash i ;;
  st ← gets id;
  let txns := serialized_txns keypair (sent_count st) (latest_blockhash st) in
  match send tpu_sender (bi_answers i) txns with
  | Done (results, _) =>
      modify (λ st, {st with
        batches_sent ::= (λ l, l ++ [txns]);
        curr_success_count ::= (λ x, u64_add x (Z.of_nat (length (List.filter is_ok results))));
        curr_fail_count ::= (λ x, u64_add x (Z.of_nat (length
          (List.filter (λ r, negb (is_ok r)) results))))})
  | Panicked why => panic why
  | Fail e => throw e
  end.

(** The thread never looks at an exit flag: its inputs are all [Some]. *)
Definition blaster_thread (keypair : Keypair) (tpu_sender : TpuSender) (inputs : list BlasterInput)
    : Prog BlasterThread Empty_set LoopStatus :=
  run_loop (blaster_iteration keypair tpu_sender) (Some <$> inputs).
End blaster.

(** ** [request_and_confirm_airdrop], which nothing calls *)

Inductive ClientError := RpcError (e : string) | Custom (e : string).

(** The loop: each turn reads the time since the start and asks for the status of the
    signatures.  [None]: still polling when the answers run out. *)
Fixpoint poll_statuses (polls : list (Z * (ClientError + list (option string))))
    : option (ClientError + unit) :=
  match polls with
  | [] => None
  | (elapsed_now, answer) :: polls' =>
      if elapsed_now <? 20 * nanos_per_sec then
        match answer with
        | inl e => Some (inl e)
        | inr statuses =>
            if forallb (λ s, bool_decide (is_Some s)) statuses
            then Some (inl (Custom "signature error"))
            else poll_statuses polls'
        end
      else Some (inr tt)
  end.

(** [collect::<Result<Vec<_>>>()]: the first error, if any *)
Fixpoint collect_results {E A} (l : list (E + A)) : E + list A :=
  match l with
  | [] => inr []
  | inl e :: _ => inl e
  | inr a :: l' => match collect_results l' with inl e => inl e | inr rest => inr (a :: rest) end
  end.

Definition request_and_confirm_airdrop (requests : list (ClientError + string))
    (polls : list (Z * (ClientError + list (option string)))) : option (ClientError + unit) :=
  match collect_results requests with
  | inl e => Some (inl e)
  | inr _ => poll_statuses polls
  end.

(** ** Theorems: source addresses *)

Lemma be_byte_mod k z : 0 <= k → be_byte k z = (z / 256 ^ k) mod 256.
Proof.
  intros Hk. unfold be_byte. change 255 with (Z.ones 8). rewrite Z.land_ones by lia.
  rewrite Z.shiftr_div_pow2 by lia. f_equal. f_equal.
  rewrite (Z.pow_mul_r 2 8) by lia. done.
Qed.

(** The low bytes of a word, joined. *)
Lemma be_bytes_join z : 0 <= z →
  z mod 2 ^ 24 = be_byte 2 z * 2 ^ 16 + be_byte 1 z * 2 ^ 8 + be_byte 0 z.
Proof.
  intros Hz. rewrite !be_byte_mod by lia. change (256 ^ 2) with (2 ^ 16).
  change (256 ^ 1) with 256. change (256 ^ 0) with 1. rewrite Z.div_1_r.
  change (2 ^ 24) with 16777216. change (2 ^ 16) with 65536. change (2 ^ 8) with 256.
  pose proof (Z.div_mod z 256). pose proof (Z.div_mod (z / 256) 256).
  pose proof (Z.div_mod (z / 65536) 256).
  replace (z / 65536) with (z / 256 / 256) in * by (rewrite Z.div_div by lia; done).
  symmetry. apply (Z.mod_unique z 16777216 (z / 256 / 256 / 256)).
  - left. pose proof (Z.mod_pos_bound z 256). pose proof (Z.mod_pos_bound (z / 256) 256).
    pose proof (Z.mod_pos_bound (z / 256 / 256) 256). lia.
  - lia.
Qed.

Lemma be_bytes_inj z w : 0 <= z → 0 <= w →
  (be_byte 2 z = be_byte 2 w ∧ be_byte 1 z = be_byte 1 w ∧ be_byte 0 z = be_byte 0 w) ↔
  z mod 2 ^ 24 = w mod 2 ^ 24.
Proof.
  intros Hz Hw. rewrite !be_bytes_join by done. split; [by intros (-> & -> & ->)|].
  assert (Hb : ∀ k x, 0 <= k → 0 <= be_byte k x < 256).
  { intros k x Hk. rewrite be_byte_mod by done. by apply Z.mod_pos_bound. }
  pose proof (Hb 0 z). pose proof (Hb 1 z). pose proof (Hb 2 z).
  pose proof (Hb 0 w). pose proof (Hb 1 w). pose proof (Hb 2 w). lia.
Qed.

Lemma mod_add_cancel m a b c : 0 < m → (a + b) mod m = (a + c) mod m ↔ b mod m = c mod m.
Proof.
  intros Hm. split; intros He.
  - replace b with ((a + b) - a) by lia. replace c with ((a + c) - a) by lia.
    by rewrite (Zminus_mod (a + b)), (Zminus_mod (a + c)), He.
  - by rewrite (Zplus_mod a b), (Zplus_mod a c), He.
Qed.

(** The offset of a thread, up to a modulus that divides [2 ^ 32]. *)
Lemma thread_offset_mod off i n : (n | 2 ^ 32) →
  u32_add off (u32_wrap i) mod n = (off + i) mod n.
Proof.
  intros Hd. unfold u32_add, u32_wrap. rewrite Z.mod_mod_divide by done.
  rewrite (Zplus_mod off (i mod _)), Z.mod_mod_divide by done. by rewrite <-Zplus_mod.
Qed.

(** Two threads send from the same address exactly when their numbers agree modulo
    [2 ^ 24] on loopback, modulo [2 ^ 16] otherwise, whatever the offset: so the first
    [2 ^ 16] threads never clash.  On loopback every source is a loopback address; the
    port is the announced first port plus the number of the thread, in 16 bits, and
    falls below 1024, among the privileged ones, exactly when that sum passes [2 ^ 16]. *)
Theorem local_socket_addr_clash off i j spam :
  is_u16 off → 0 <= i → 0 <= j →
  (local_socket_addr off i spam = local_socket_addr off j spam ↔
    i mod (if spam then 2 ^ 24 else 2 ^ 16) = j mod (if spam then 2 ^ 24 else 2 ^ 16)) ∧
  (spam = true → is_loopback (local_socket_addr off i spam).1 = true) ∧
  (local_socket_addr off i spam).2 = u16_add (u16_add 1024 off) (u16_wrap i) ∧
  ((local_socket_addr off i spam).2 < 1024 ↔ 2 ^ 16 <= 1024 + (off + i) mod 2 ^ 16).
Proof.
  intros Hoff Hi Hj. unfold local_socket_addr, to_be_bytes.
  set (oi := u32_add off (u32_wrap i)). set (oj := u32_add off (u32_wrap j)).
  assert (Hoi : 0 <= oi) by (by apply Z.mod_pos_bound).
  assert (Hoj : 0 <= oj) by (by apply Z.mod_pos_bound).
  assert (Hm16 : ∀ k, u16_wrap (u32_add off (u32_wrap k)) = (off + k) mod 2 ^ 16).
  { intros k. apply thread_offset_mod. by exists (2 ^ 16). }
  assert (Hport : ∀ k, u16_add 1024 (u16_wrap (u32_add off (u32_wrap k))) = (1024 + off + k) mod 2 ^ 16).
  { intros k. unfold u16_add, u16_wrap at 1. rewrite Hm16. rewrite Zplus_mod_idemp_r. f_equal. lia. }
  assert (Hports : u16_add 1024 (u16_wrap oi) = u16_add 1024 (u16_wrap oj) ↔ i mod 2 ^ 16 = j mod 2 ^ 16).
  { unfold oi, oj. rewrite !Hport. by apply mod_add_cancel. }
  split_and!.
  - destruct spam.
    + transitivity (oi mod 2 ^ 24 = oj mod 2 ^ 24); [rewrite <-be_bytes_inj by done; split|].
      * intros [= -> -> -> _]. done.
      * intros (Hb2 & Hb1 & Hb0). rewrite Hb2, Hb1, Hb0. f_equal. apply Hports.
        assert (He : oi mod 2 ^ 24 = oj mod 2 ^ 24) by (by apply be_bytes_inj).
        unfold oi, oj in He. rewrite !thread_offset_mod in He by (by exists (2 ^ 8)).
        apply mod_add_cancel in He; [|done].
        rewrite <-(Z.mod_mod_divide i (2 ^ 24)), He by (by exists (2 ^ 8)).
        apply Z.mod_mod_divide. by exists (2 ^ 8).
      * unfold oi, oj. rewrite !thread_offset_mod by (by exists (2 ^ 8)).
        by apply mod_add_cancel.
    + rewrite <-Hports. split; [by intros [= ->]|by intros ->].
  - by intros ->.
  - destruct spam; cbn [snd]; unfold oi; rewrite Hport; unfold u16_add, u16_wrap;
      rewrite <-Zplus_mod; f_equal; lia.
  - destruct spam; cbn [snd]; unfold oi, u16_add, u16_wrap at 1; rewrite Hm16.
    all: pose proof (Z.mod_pos_bound (off + i) (2 ^ 16)); set (o := (off + i) mod 2 ^ 16) in *.
    all: destruct (decide (1024 + o < 2 ^ 16)).
    all: try (rewrite Z.mod_small by lia; lia).
    all: replace ((1024 + o) mod 2 ^ 16) with (1024 + o - 2 ^ 16);
      [lia|apply (Z.mod_unique _ _ 1); lia].
Qed.

(** ** Theorems: sending *)

Lemma write_chunks_effect ans n bufs s r s' :
  write_chunks ans n bufs s = (r, s') →
  opened s' = opened s ∧ finished s' = finished s ∧
  ∃ m, written s' = written s ++ take m bufs ∧
    ((r = Done tt ∧ take m bufs = bufs) ∨ ∃ e, r = Fail e).
Proof.
  revert n s; induction bufs as [|chunk bufs IH]; intros n s; cbn [write_chunks].
  { intros [= <- <-]. do 2 (split; [done|]). exists O. rewrite app_nil_r. eauto. }
  unfold write_all, answer. destruct (sa_write ans n) as [e|].
  { intros [= <- <-]. do 2 (split; [done|]). exists O. rewrite app_nil_r. eauto. }
  intros (Ho & Hf & m & Hw & Hr)%IH. destruct s. do 2 (split; [done|]).
  exists (S m). cbn in *. rewrite <-app_assoc in Hw. split; [done|].
  destruct Hr as [[-> ->]|]; eauto.
Qed.

(** What became of one stream that was to carry [txn] in pieces of at most [n] bytes. *)
Definition stream_outcome (n : nat) (txn : list Byte.byte) (r : option PacketBlasterError)
    (log : StreamLog) : Prop :=
  concat (written log) `prefix_of` txn ∧
  Forall (λ chunk, 0 < length chunk ≤ n)%nat (written log) ∧
  (r = None ↔ finished log = true) ∧
  (r = None → opened log = true ∧ concat (written log) = txn).

Lemma slow_loris_stream_effect chunk_size ans txn :
  0 < chunk_size →
  ∃ r log, slow_loris_stream chunk_size ans txn StreamLog_new =
      (match r with None => Done tt | Some e => Fail e end, log) ∧
    stream_outcome (Z.to_nat chunk_size) txn r log.
Proof.
  intros Hpos. unfold slow_loris_stream, open_uni, finish, answer, stream_outcome.
  destruct (sa_open ans) as [e|].
  { exists (Some (ConnectionError e)), StreamLog_new. split; [done|].
    split_and!; [apply prefix_nil|done..]. }
  rewrite (proj2 (Z.eqb_neq chunk_size 0)) by lia. cbn [negb assert].
  prog_unfold. cbv beta iota. 
  assert (Hcat : concat (chunks (Z.to_nat chunk_size) txn) = txn) by (apply chunks_concat; lia).
  assert (Hsize : ∀ c, c ∈ chunks (Z.to_nat chunk_size) txn → (0 < length c ≤ Z.to_nat chunk_size)%nat)
    by (intros c; apply chunks_size; lia).
  revert Hcat Hsize. generalize (chunks (Z.to_nat chunk_size) txn) as cs. intros cs Hcat Hsize.
  destruct (write_chunks _ _ _ _) as [r [o w f]] eqn:Hw.
  apply write_chunks_effect in Hw as (Ho & Hf & m & Hw & Hr). cbn in Ho, Hf, Hw. subst o f w.
  assert (Hpre : concat (take m cs) `prefix_of` txn).
  { exists (concat (drop m cs)). by rewrite <-concat_app, take_drop. }
  assert (Hlen : Forall (λ chunk, 0 < length chunk ≤ Z.to_nat chunk_size)%nat (take m cs)).
  { by apply Forall_take, Forall_forall. }
  destruct Hr as [[-> Hall]|[e ->]].
  - destruct (sa_finish ans) as [e|].
    + exists (Some (WriteError e)). eexists. by split_and!.
    + exists None. eexists. cbn. split; [done|]. split_and!; [done..|]. by rewrite Hall.
  - exists (Some e). eexists. by split_and!.
Qed.

(** When no future panics there is a result and a log for each, in order. *)
Lemma join_all_results (futures : list (Prog StreamLog PacketBlasterError unit))
    (P : nat → option PacketBlasterError → StreamLog → Prop) :
  (∀ j f, futures !! j = Some f → ∃ r log, f StreamLog_new =
      (match r with None => Done tt | Some e => Fail e end, log) ∧ P j r log) →
  ∃ results logs, join_all futures = Done (results, logs) ∧
    length results = length futures ∧
    ∀ j, (j < length futures)%nat → ∃ r log, results !! j = Some r ∧ logs !! j = Some log ∧ P j r log.
Proof.
  revert P; induction futures as [|f fs IH]; intros P Hf.
  { exists [], []. split_and!; [done..|cbn; lia]. }
  destruct (Hf 0%nat f eq_refl) as (r & log & Hr & HP).
  destruct (IH (λ j, P (S j))) as (results & logs & Hjoin & Hlen & Hall).
  { intros j g. apply (Hf (S j)). }
  exists (r :: results), (log :: logs). cbn [join_all]. rewrite Hr, Hjoin.
  split; [by destruct r|]. split; [cbn; congruence|].
  intros [|j] Hj; [by exists r, log|]. apply Hall. cbn in Hj. lia.
Qed.

Lemma with_streams_cons n txn txns :
  with_streams n (txn :: txns) = replicate (Z.to_nat n) txn ++ with_streams n txns.
Proof.
  unfold with_streams, z_range. rewrite Z.sub_0_r. cbn [flat_map]. f_equal.
  generalize 0%nat. induction (Z.to_nat n) as [|m IH]; intros k; [done|]. cbn. by rewrite IH.
Qed.

Lemma length_with_streams n txns :
  length (with_streams n txns) = (length txns * Z.to_nat n)%nat.
Proof.
  induction txns as [|txn txns IH]; [done|].
  rewrite with_streams_cons, length_app, length_replicate, IH. done.
Qed.

Lemma lookup_with_streams n txns k s :
  (s < Z.to_nat n)%nat → with_streams n txns !! (k * Z.to_nat n + s)%nat = txns !! k.
Proof.
  intros Hs. revert k; induction txns as [|txn txns IH]; intros k; [done|].
  rewrite with_streams_cons. destruct k as [|k].
  - rewrite lookup_app_l by (rewrite length_replicate; lia). by apply lookup_replicate_2.
  - rewrite lookup_app_r, length_replicate by (rewrite length_replicate; lia).
    replace (_ - _)%nat with (k * Z.to_nat n + s)%nat by lia. apply IH.
Qed.

(** C39: A slow-loris batch sends each transaction on every one of its streams.  Whatever
    the network answers there is one result for each transaction and stream; a stream
    carries its transaction from the start, in pieces of one to [chunk_size] bytes, and a
    result is [Ok] exactly when the stream was finished, having carried it all.  With a
    chunk size of zero the thread panics as soon as a stream opens. *)
Theorem slow_loris_send conn chunk_size n interval ans txns :
  0 <= chunk_size → 0 < n → txns ≠ [] →
  let sender := SlowLorisSender conn chunk_size n interval in
  if decide (chunk_size = 0) then
    (∀ j, sa_open (sd_stream ans j) = None) →
    send sender ans txns = Panicked "chunk size must be non-zero"
  else ∃ results logs, send sender ans txns = Done (results, logs) ∧
    length results = (length txns * Z.to_nat n)%nat ∧
    ∀ k s txn, txns !! k = Some txn → (s < Z.to_nat n)%nat →
      ∃ r log, results !! (k * Z.to_nat n + s)%nat = Some r ∧
        logs !! (k * Z.to_nat n + s)%nat = Some log ∧
        stream_outcome (Z.to_nat chunk_size) txn r log.
Proof.
  intros Hc Hn Hne. cbn [send]. case_decide as Hz.
  - intros Hopen. destruct txns as [|txn txns]; [done|]. subst.
    destruct (with_streams n (txn :: txns)) as [|t ts] eqn:Hw.
    { pose proof (length_with_streams n (txn :: txns)) as Hl. rewrite Hw in Hl. cbn in Hl. lia. }
    cbn [imap join_all]. unfold slow_loris_stream, open_uni, answer. by rewrite Hopen.
  - destruct (join_all_results (imap (λ j txn, slow_loris_stream chunk_size (sd_stream ans j) txn)
      (with_streams n txns)) (λ j r log, ∃ txn, with_streams n txns !! j = Some txn ∧
        stream_outcome (Z.to_nat chunk_size) txn r log)) as (results & logs & Hs & Hlen & Hall).
    { intros j f. rewrite list_lookup_imap. intros (txn & Htxn & ->)%fmap_Some.
      destruct (slow_loris_stream_effect chunk_size (sd_stream ans j) txn) as (r & log & Hr & Ho);
        [lia|]. eauto 10. }
    rewrite length_imap, length_with_streams in Hlen, Hall.
    exists results, logs. split; [done|]. split; [done|]. intros k s txn Htxn Hs'.
    destruct (Hall (k * Z.to_nat n + s)%nat) as (r & log & Hr & Hlog & txn' & Htxn' & Ho).
    { apply lookup_lt_Some in Htxn. nia. }
    rewrite lookup_with_streams in Htxn' by done. exists r, log. split_and!; [done..|]. congruence.
Qed.

Lemma join_all_length fs results logs :
  join_all fs = Done (results, logs) → length results = length fs.
Proof.
  revert results logs; induction fs as [|f fs IH]; intros results logs; cbn [join_all].
  { by intros [= <- <-]. }
  destruct (f StreamLog_new) as [[]  log]; [| |done];
    destruct (join_all fs) as [[rs ls]| |]; try done; intros [= <- <-]; cbn; by rewrite (IH rs ls).
Qed.

(** What each batch of ten adds to the counts. *)
Definition results_per_batch (sender : TpuSender) : Z :=
  match sender with
  | QuinnSender _ => TXN_BATCH_SIZE
  | SlowLorisSender _ _ num_streams _ => TXN_BATCH_SIZE * Z.max 0 num_streams
  | QuicSender _ => 1
  end.

Lemma send_results sender ans bufs results logs :
  Z.of_nat (length bufs) = TXN_BATCH_SIZE → send sender ans bufs = Done (results, logs) →
  Z.of_nat (length results) = results_per_batch sender.
Proof.
  intros Hlen. destruct sender as [c|c sz n iv|cl]; cbn [send results_per_batch].
  - intros Hl%join_all_length. by rewrite Hl, length_imap.
  - intros Hl%join_all_length. rewrite Hl, length_imap, length_with_streams. lia.
  - by intros [= <- <-].
Qed.

(** ** Theorems: a sending thread *)

Section blaster_theorems.
Context `{Sdk} `{!Keypairs} `{!Transfers} `{!TransfersLaws}.
Variables (kp : Keypair) (sender : TpuSender).
Local Abbreviation per := (results_per_batch sender).
Local Abbreviation iteration := (blaster_iteration kp sender).

(** The bytes of a transfer, which always serializes. *)
Definition transfer_bytes (amount : Z) (h : Hash) : list Byte.byte :=
  default [] (serialize (transfer kp (keypair_pubkey kp) amount h)).

Lemma serialized_txns_map c h :
  serialized_txns kp c h = map (λ i, transfer_bytes (u64_add c i) h) (z_range 0 TXN_BATCH_SIZE).
Proof.
  unfold serialized_txns, transfer_bytes. generalize (z_range 0 TXN_BATCH_SIZE) as l.
  induction l as [|i l IH]; cbn; [done|].
  destruct (transfer_serializes kp (keypair_pubkey kp) (u64_add c i) h) as [b ->].
  cbn. by rewrite IH.
Qed.

Lemma length_serialized_txns count h :
  Z.of_nat (length (serialized_txns kp count h)) = TXN_BATCH_SIZE.
Proof. by rewrite serialized_txns_map, length_map. Qed.

Lemma filter_partition (rs : list (option PacketBlasterError)) :
  (length (List.filter is_ok rs) + length (List.filter (λ r, negb (is_ok r)) rs))%nat = length rs.
Proof. induction rs as [|r rs IH]; [done|]. cbn. destruct (is_ok r); cbn; lia. Qed.

(** Refreshing the blockhash moves counts from the current to the cumulated ones. *)
Lemma refresh_blockhash_done i st u st' :
  refresh_blockhash i st = (Done u, st') →
  sent_count st' = sent_count st ∧ batches_sent st' = batches_sent st ∧
  (if blaster_metrics_interval <? elapsed (bi_now i) (last_blockhash_refresh st)
   then bi_blockhash i = Some (latest_blockhash st') ∧ last_blockhash_refresh st' = bi_now i
   else st' = st).
Proof.
  unfold refresh_blockhash. destruct st as [last h cs cf cus cuf sent infos].
  unfold gets at 1, mbind at 1, Prog_bind at 1. cbn [id last_blockhash_refresh].
  destruct (_ <? _); [|by intros [_ ->]%mret_done]. intros Hr. prog_inv Hr. cbn in *.
  split_and!; [|done..]. unfold sent_count, constant. cbn.
  u64_ring.
Qed.

Lemma blaster_iteration_done i st u st' :
  iteration i st = (Done u, st') →
  sent_count st' = u64_add (sent_count st) per ∧
  batches_sent st' = batches_sent st ++ [serialized_txns kp (sent_count st) (latest_blockhash st')] ∧
  (if blaster_metrics_interval <? elapsed (bi_now i) (last_blockhash_refresh st)
   then bi_blockhash i = Some (latest_blockhash st') ∧ last_blockhash_refresh st' = bi_now i
   else latest_blockhash st' = latest_blockhash st ∧
        last_blockhash_refresh st' = last_blockhash_refresh st).
Proof.
  unfold blaster_iteration. intros (u1 & st1 & Hr & Hi)%prog_bind_inv.
  apply refresh_blockhash_done in Hr as (Hc1 & Hb1 & Hcond). rewrite <-Hc1, <-Hb1.
  unfold gets, mbind, Prog_bind in Hi. cbn [id] in Hi.
  destruct (send _ _ _) as [[results logs]| |] eqn:Hs; [|done..]. injection Hi as _ <-.
  apply send_results in Hs; [|apply length_serialized_txns].
  split_and!.
  - rewrite <-Hs, <-(filter_partition results), Nat2Z.inj_add. destruct st1; unfold sent_count; cbn.
    u64_ring.
  - by destruct st1.
  - destruct (_ <? _); [by destruct st1|subst st1; by destruct st].
Qed.

(** The batches of a run: the [k]-th from the count that [k] batches reach, with the
    blockhash of its turn. *)
Definition batches_of (count : Z) (hashes : list Hash) : list (list (list Byte.byte)) :=
  imap (λ k h, serialized_txns kp (u64_add count (Z.of_nat k * per)) h) hashes.

Lemma blaster_thread_done inputs st r st' :
  blaster_thread kp sender inputs st = (Done r, st') →
  ∃ hashes, length hashes = length inputs ∧
    batches_sent st' = batches_sent st ++ batches_of (sent_count st) hashes ∧
    sent_count st' = u64_add (sent_count st) (Z.of_nat (length inputs) * per) ∧
    (Forall (λ i, elapsed (bi_now i) (last_blockhash_refresh st) <= blaster_metrics_interval) inputs →
     Forall (eq (latest_blockhash st)) hashes).
Proof.
  unfold blaster_thread. revert st; induction inputs as [|i inputs IH]; intros st; cbn [fmap list_fmap run_loop].
  { intros [= _ <-]. exists []. rewrite app_nil_r. split_and!; [done..| |done].
    cbn. unfold sent_count. u64_ring. }
  intros (u & st1 & Hi & Hrun)%prog_bind_inv.
  apply blaster_iteration_done in Hi as (Hc & Hb & Hcond).
  apply IH in Hrun as (hashes & Hlen & Hb' & Hc' & Hsame).
  exists (latest_blockhash st1 :: hashes). split_and!.
  - cbn. congruence.
  - rewrite Hb', Hb, <-app_assoc. f_equal. unfold batches_of. cbn. f_equal.
    + f_equal. unfold sent_count. u64_ring.
    + apply imap_ext. intros k h _. cbn [compose]. rewrite Hc. f_equal. u64_ring.
  - rewrite Hc', Hc. cbn [length]. u64_ring.
  - intros [Hi His]%Forall_cons. rewrite (proj2 (Z.ltb_ge _ _) Hi) in Hcond.
    destruct Hcond as [Hh Hl]. constructor; [done|]. rewrite Hl, Hh in Hsame. auto.
Qed.

(** Ten transfers from [c + 1] on start with the last nine from [c] on. *)
Lemma serialized_txns_shift c h :
  drop 1 (serialized_txns kp c h) = take 9 (serialized_txns kp (u64_add c 1) h).
Proof.
  rewrite !serialized_txns_map.
  change (z_range 0 TXN_BATCH_SIZE) with [0; 1; 2; 3; 4; 5; 6; 7; 8; 9]. cbn [map drop take].
  repeat (apply (f_equal2 cons); [f_equal; u64_ring|]). done.
Qed.

(** The amount a serialized transfer carries. *)
Definition carries (amount : Z) (bytes : list Byte.byte) : Prop :=
  ∃ h, serialize (transfer kp (keypair_pubkey kp) amount h) = Some bytes.

Lemma serialized_txns_carry count h :
  Forall2 carries (map (u64_add count) (z_range 0 TXN_BATCH_SIZE)) (serialized_txns kp count h).
Proof.
  unfold serialized_txns. generalize (z_range 0 TXN_BATCH_SIZE) as l.
  induction l as [|i l IH]; cbn; [constructor|].
  destruct (transfer_serializes kp (keypair_pubkey kp) (u64_add count i) h) as [b Hb].
  rewrite Hb. constructor; [by exists h|done].
Qed.

Lemma carries_NoDup amounts bytes :
  Forall2 carries amounts bytes → Forall is_u64 amounts → NoDup amounts → NoDup bytes.
Proof.
  induction 1 as [|a b amounts bytes Hab Hrest IH]; [constructor|].
  intros [Ha Hall]%Forall_cons [Hnin Hnd]%NoDup_cons. apply NoDup_cons. split; [|by apply IH].
  intros Hin. apply Hnin. apply list_elem_of_lookup in Hin as (j & Hj).
  destruct (Forall2_lookup_r _ _ _ _ _ Hrest Hj) as (a' & Ha' & (h' & Hs')).
  destruct Hab as (h & Hs). assert (a = a') as ->.
  { apply (transfer_lamports kp (keypair_pubkey kp) a h a' h'); [done| |congruence].
    by eapply Forall_lookup_1 in Hall. }
  by eapply list_elem_of_lookup_2.
Qed.

(** [n] runs of ten amounts, [per] apart. *)
Definition amounts (count : Z) (n : nat) : list Z :=
  flat_map (λ k, map (λ i, count + Z.of_nat k * per + i) (z_range 0 TXN_BATCH_SIZE)) (seq 0 n).

Lemma elem_of_amounts count n a : TXN_BATCH_SIZE <= per →
  a ∈ amounts count n → count <= a < count + Z.of_nat n * per.
Proof.
  intros Hper (k & Hk%in_seq & (i & <- & Hi%list_elem_of_In%elem_of_z_range)%in_map_iff)
    %list_elem_of_In%in_flat_map. nia.
Qed.

Lemma amounts_S count n :
  amounts count (S n) = amounts count n ++
    map (λ i, count + Z.of_nat n * per + i) (z_range 0 TXN_BATCH_SIZE).
Proof. unfold amounts. rewrite seq_S, flat_map_app. cbn [flat_map]. by rewrite app_nil_r. Qed.

Lemma amounts_NoDup count n : TXN_BATCH_SIZE <= per → NoDup (amounts count n).
Proof.
  intros Hper. induction n as [|n IH]; [constructor|]. rewrite amounts_S. apply NoDup_app.
  split_and!; [done| |].
  - intros a Ha%elem_of_amounts Hin%list_elem_of_In%in_map_iff; [|done].
    destruct Hin as (i & <- & Hi%list_elem_of_In%elem_of_z_range). lia.
  - apply (NoDup_fmap_2_strong (λ i, count + Z.of_nat n * per + i)); [lia|apply NoDup_z_range].
Qed.

Lemma batches_carry hashes :
  Z.of_nat (length hashes) * per <= 2 ^ 64 → TXN_BATCH_SIZE <= per →
  Forall2 carries (amounts 0 (length hashes)) (concat (batches_of 0 hashes)).
Proof.
  intros Hbound Hper. induction hashes as [|h hashes IH] using rev_ind; [constructor|].
  rewrite length_app, Nat.add_1_r in *. rewrite Nat2Z.inj_succ in Hbound.
  unfold batches_of. rewrite amounts_S, imap_app, concat_app.
  apply Forall2_app; [apply IH; unfold TXN_BATCH_SIZE in *; lia|]. cbn [imap concat compose]. rewrite app_nil_r, Nat.add_0_r.
  replace (map _ _) with (map (u64_add (u64_add 0 (Z.of_nat (length hashes) * per))) (z_range 0 TXN_BATCH_SIZE));
    [apply serialized_txns_carry|].
  apply map_ext_in. intros i Hi%list_elem_of_In%elem_of_z_range.
  unfold TXN_BATCH_SIZE in *.
  assert (0 <= Z.of_nat (length hashes) * per) by nia.
  unfold u64_add, u64_wrap.
  rewrite (Z.mod_small (0 + _ * _)) by lia. rewrite Z.mod_small by lia. lia.
Qed.

(** As long as each transaction answers with at least one result (QUIC streams opened
    by the blaster itself, one or more for each transaction), every batch has its ten
    transactions and no transaction is ever made twice, over any run short of [2 ^ 64]
    results, however the network and the blockhash behave; and the counts add up to the
    number of results. *)
Theorem streamed_transactions_distinct inputs now h r st :
  TXN_BATCH_SIZE <= per → Z.of_nat (length inputs) * per <= 2 ^ 64 →
  blaster_thread kp sender inputs (BlasterThread_new now h) = (Done r, st) →
  NoDup (concat (batches_sent st)) ∧
  length (concat (batches_sent st)) = (length inputs * Z.to_nat TXN_BATCH_SIZE)%nat ∧
  sent_count st = u64_wrap (Z.of_nat (length inputs) * per).
Proof.
  intros Hper Hbound (hashes & Hlen & Hb & Hc & _)%blaster_thread_done. cbn in Hb.
  rewrite Hc, Hb. change (sent_count _) with 0. rewrite <-Hlen in *. split_and!; [| |done].
  - eapply carries_NoDup; [by apply batches_carry| |by apply amounts_NoDup].
    apply Forall_forall. intros a [Hlo Hhi]%elem_of_amounts; [|done].
    split; [done|]. by eapply Z.lt_le_trans.
  - rewrite <-(Forall2_length _ _ _ (batches_carry hashes Hbound Hper)).
    clear. induction (length hashes) as [|n IH]; [done|].
    rewrite amounts_S, length_app, IH, length_map.
    change (length (z_range 0 TXN_BATCH_SIZE)) with 10%nat. change (Z.to_nat TXN_BATCH_SIZE) with 10%nat. lia.
Qed.

(** With the QUIC client a whole batch counts as one result, so the amounts move on
    by one where ten were used: until the blockhash is renewed each batch repeats the
    last nine transactions of the one before, byte for byte. *)
Theorem client_batches_overlap inputs now h r st k b b' :
  (∃ client, sender = QuicSender client) →
  Forall (λ i, elapsed (bi_now i) now <= blaster_metrics_interval) inputs →
  blaster_thread kp sender inputs (BlasterThread_new now h) = (Done r, st) →
  batches_sent st !! k = Some b → batches_sent st !! S k = Some b' →
  drop 1 b = take 9 b' ∧ length b = 10%nat.
Proof.
  intros (client & Hsender) Hnow (hashes & Hlen & Hb & _ & Hsame)%blaster_thread_done.
  specialize (Hsame Hnow). cbn in Hb, Hsame. change (sent_count _) with 0 in Hb.
  rewrite Hb. unfold batches_of. rewrite !list_lookup_imap.
  intros (h1 & Hh1 & ->)%fmap_Some (h2 & Hh2 & ->)%fmap_Some.
  pose proof (Forall_lookup_1 _ _ _ _ Hsame Hh1) as <-.
  pose proof (Forall_lookup_1 _ _ _ _ Hsame Hh2) as <-.
  split; [|apply Nat2Z.inj, length_serialized_txns].
  replace (u64_add 0 (Z.of_nat (S k) * per)) with (u64_add (u64_add 0 (Z.of_nat k * per)) 1)
    by (rewrite Hsender; cbn [results_per_batch]; u64_ring).
  generalize (u64_add 0 (Z.of_nat k * per)) as c. intros c.
  apply serialized_txns_shift.
Qed.
End blaster_theorems.

(** ** Theorems: the airdrop *)

(** A poll in time that finds a signature without a status. *)
Definition pending (poll : Z * (ClientError + list (option string))) : Prop :=
  poll.1 < 20 * nanos_per_sec ∧ ∃ statuses, poll.2 = inr statuses ∧ None ∈ statuses.

Lemma poll_statuses_pending before polls :
  Forall pending before → poll_statuses (before ++ polls) = poll_statuses polls.
Proof.
  induction 1 as [|[t a] before (Ht & statuses & Ha & Hin) _ IH]; [done|].
  cbn in *. subst a. rewrite (proj2 (Z.ltb_lt _ _) Ht).
  destruct (forallb _ statuses) eqn:Hf; [|done].
  rewrite forallb_forall in Hf. apply list_elem_of_In, Hf, bool_decide_eq_true in Hin.
  by destruct Hin.
Qed.

(** The airdrop is reported the wrong way round: as soon as every signature has a
    status the call returns an error, and it returns success only when the twenty seconds
    pass with some signature still without one. *)
Theorem airdrop_inverted requests sigs before t answer after :
  collect_results requests = inr sigs → Forall pending before →
  let result := request_and_confirm_airdrop requests (before ++ (t, answer) :: after) in
  (∀ statuses, t < 20 * nanos_per_sec → answer = inr statuses → None ∉ statuses →
    result = Some (inl (Custom "signature error"))) ∧
  (20 * nanos_per_sec <= t → result = Some (inr tt)) ∧
  (result = Some (inr tt) → 20 * nanos_per_sec <= t ∨ pending (t, answer)).
Proof.
  intros Hreq Hbefore result. subst result. unfold request_and_confirm_airdrop.
  rewrite Hreq, poll_statuses_pending by done. cbn [poll_statuses]. split_and!.
  - intros statuses Ht -> Hnone. rewrite (proj2 (Z.ltb_lt _ _) Ht).
    rewrite (proj2 (forallb_forall _ _)); [done|]. intros s Hs%list_elem_of_In.
    apply bool_decide_eq_true. destruct s; [by eexists|done].
  - intros Ht. by rewrite (proj2 (Z.ltb_ge _ _) Ht).
  - destruct (Z.ltb_spec t (20 * nanos_per_sec)) as [Ht|Ht]; [|by left].
    destruct answer as [e|statuses]; [done|]. destruct (forallb _ _) eqn:Hf; [done|].
    intros _. right. split; [done|]. exists statuses. split; [done|].
    apply not_true_iff_false in Hf. destruct (decide (None ∈ statuses)) as [|Hn]; [done|].
    destruct Hf. apply forallb_forall. intros s Hs%list_elem_of_In.
    apply bool_decide_eq_true. destruct s; [by eexists|done].
Qed.

(** ** Concrete inputs *)

Definition toy_stream_ok : StreamAnswers :=
  {| sa_open := None; sa_write _ := None; sa_finish := None |}.
Definition toy_sends : SendAnswers := {| sd_stream _ := toy_stream_ok; sd_client := None |}.
Definition toy_key : @Keypair toy_sdk toy_keypairs := "a"%char.
Definition toy_hash : @Hash toy_sdk toy_keypairs toy_transfers := 7.
Definition toy_turn (now : Z) : BlasterInput :=
  {| bi_now := now; bi_blockhash := Some 8; bi_answers := toy_sends |}.
Definition toy_connection : Connection :=
  {| conn_source := local_socket_addr 0 0 true; conn_dest := "127.0.0.1:8009" |}.

Lemma local_socket_addr_clash_witness :
  is_u16 60000 ∧ local_socket_addr 60000 5000 true = (IpV4 127 0 253 232, 488) ∧
  (local_socket_addr 60000 5000 false = local_socket_addr 60000 (5000 + 2 ^ 16) false).
Proof.
  assert (Ho : is_u16 60000) by (unfold is_u16; lia). split; [exact Ho|].
  split; [vm_refl|].
  apply (local_socket_addr_clash 60000 5000 (5000 + 2 ^ 16) false Ho); [lia|lia|reflexivity].
Defined.

Lemma slow_loris_send_witness :
  let txn := [Byte.x01; Byte.x02; Byte.x03; Byte.x04; Byte.x05] in
  ∃ results logs, send (SlowLorisSender toy_connection 2 3 50) toy_sends [txn] = Done (results, logs) ∧
    length results = 3%nat ∧
    written <$> logs !! 2%nat = Some [[Byte.x01; Byte.x02]; [Byte.x03; Byte.x04]; [Byte.x05]].
Proof.
  intros txn. pose proof (slow_loris_send toy_connection 2 3 50 toy_sends [txn]) as Hs.
  cbn zeta in Hs. rewrite decide_False in Hs by lia.
  destruct Hs as (results & logs & Hs & Hlen & _); [lia|lia|done|].
  exists results, logs. split; [exact Hs|]. split; [exact Hlen|].
  assert (Hv : send (SlowLorisSender toy_connection 2 3 50) toy_sends [txn] = Done (results, logs)) by exact Hs.
  vm_compute in Hv. injection Hv as <- <-. reflexivity.
Defined.

Lemma streamed_transactions_distinct_witness :
  ∃ st, blaster_thread toy_key (QuinnSender toy_connection)
      [toy_turn 0; toy_turn 6000000000] (BlasterThread_new 0 toy_hash) = (Done Running, st) ∧
    NoDup (concat (batches_sent st)) ∧ sent_count st = 20.
Proof.
  eexists. split; [reflexivity|].
  destruct (streamed_transactions_distinct toy_key (QuinnSender toy_connection)
    [toy_turn 0; toy_turn 6000000000] 0 toy_hash Running _ ltac:(by vm_compute) ltac:(by vm_compute) eq_refl)
    as (Hnd & _ & Hc).
  split; [exact Hnd|]. rewrite Hc. reflexivity.
Defined.

Lemma client_batches_overlap_witness :
  ∃ st b b', blaster_thread toy_key (QuicSender "client")
      [toy_turn 0; toy_turn 1] (BlasterThread_new 0 toy_hash) = (Done Running, st) ∧
    batches_sent st !! 0%nat = Some b ∧ batches_sent st !! 1%nat = Some b' ∧ drop 1 b = take 9 b'.
Proof.
  eexists _, _, _. split; [reflexivity|]. split; [reflexivity|]. split; [reflexivity|].
  refine (proj1 (client_batches_overlap toy_key (QuicSender "client")
    [toy_turn 0; toy_turn 1] 0 toy_hash Running _ 0 _ _ _ _ eq_refl eq_refl eq_refl)).
  - by exists "client"%string.
  - repeat constructor; vm_compute; discriminate.
Defined.

Lemma airdrop_inverted_witness :
  request_and_confirm_airdrop [inr "s1"%string; inr "s2"%string]
    [(1, inr [Some "ok"%string; None]); (2, inr [Some "ok"%string; Some "ok"%string])]
  = Some (inl (Custom "signature error")).
Proof.
  refine (proj1 (airdrop_inverted [inr "s1"%string; inr "s2"%string] ["s1"; "s2"]%string
    [(1, inr [Some "ok"%string; None])] 2 (inr [Some "ok"%string; Some "ok"%string]) [] eq_refl _)
    [Some "ok"%string; Some "ok"%string] _ eq_refl _).
  - constructor; [|constructor]. split; [cbn; unfold nanos_per_sec; lia|].
    eexists. split; [reflexivity|]. right. left.
  - unfold nanos_per_sec. lia.
  - intros Hin. rewrite !elem_of_cons in Hin. by destruct Hin as [?|[?|[]%not_elem_of_nil]].
Defined.
