(* ===== verification/Main.v ===== *)
(** * Start-up and the diagnostic server ([transaction-relayer/src/main.rs],
    [core/src/tpu.rs], [web/src/lib.rs])

    [main] as far as it decides anything: the checks on the arguments, the sockets
    it binds, and what it hands to each component; the QUIC servers of the TPU; the
    three pages of the web server. *)

From S2P Require Import Prelude External Instances Tpu Packets ScheduleCache HealthManager.
From S2P Require Import AuthInterceptor AuthChallenges AuthService Forwarder Relayer BlockEngine.
Local Open Scope Z_scope.

(** ** The sockets *)

(** The command-line arguments [main] reads.  A path is its text; [num] and port fields
    are [u16]. *)
Record Args `{Sdk} := {
  args_tpu_quic_port : Z;
  args_num_tpu_quic_servers : Z;
  args_tpu_quic_fwd_port : Z;
  args_num_tpu_fwd_quic_servers : Z;
  args_grpc_bind_ip : IpAddr;
  args_rpc_servers : list string;
  args_websocket_servers : list string;
  args_entrypoint_address : string;
  args_public_ip : option IpAddr;
  args_packet_delay_ms : Z;
  args_block_engine_url : option string;
  args_block_engine_auth_service_url : option string;
  args_keypair_path : string;
  args_allowed_validators : option (list Pubkey);
  args_signing_key_pem_path : string;
  args_verifying_key_pem_path : string;
  args_access_token_ttl_secs : Z;
  args_refresh_token_ttl_secs : Z;
  args_challenge_ttl_secs : Z;
  args_missing_slot_unhealthy_secs : Z;
  args_ofac_addresses : option (list Pubkey);
  args_max_unstaked_quic_connections : Z;
  args_max_staked_quic_connections : Z;
  args_validator_packet_batch_size : nat;
  args_disable_mempool : bool;
  args_forward_all : bool;
  args_slot_lookahead : Z;
  args_staked_nodes_overrides : option string;
  args_enable_lookup_table_refresh : bool;
  args_lookup_table_refresh_secs : Z;
  args_aoi_cache_ttl_secs : Z }.

Section sockets.
Context `{Sdk} `{!NetUtils}.

(** [multi_bind_in_range] on all interfaces, for one socket *)
Definition bind_range {E} (range : Z * Z) : Prog Host E (option (Z * list UdpSocket)) :=
  λ h, let '(r, h') := multi_bind_in_range (IpV4 0 0 0 0) range 1 h in (Done r, h').

(** [(0..num).map(|i| multi_bind_in_range(0.0.0.0, (start + i, start + 1 + i), 1) ..)] *)
Definition bind_server {E} (start i : Z) : Prog Host E (Z * UdpSocket) :=
  bound ← bind_range (u16_add start i, u16_add (u16_add start 1) i);
  '(port, sock) ← unwrap "called `Result::unwrap()` on an `Err` value" bound;
  sock ← unwrap "called `Option::unwrap()` on a `None` value" (last sock);
  mret (port, sock).
Definition bind_servers {E} (start num : Z) : Prog Host E (list (Z * UdpSocket)) :=
  mapM (bind_server start) (z_range 0 num).

(** [Range::contains] *)
Definition range_contains (lo hi x : Z) : bool := (lo <=? x) && (x <? hi).

Definition get_sockets {E} (args : Args) : Prog Host E TpuSockets :=
  assert (args_num_tpu_quic_servers args <? 2 ^ 16 - 1) "assertion failed" ;;
  assert (args_num_tpu_fwd_quic_servers args <? 2 ^ 16 - 1) "assertion failed" ;;
  tpu_end ← unwrap "called `Option::unwrap()` on a `None` value"
    (u16_checked_add (args_tpu_quic_port args) (args_num_tpu_quic_servers args));
  tpu_fwd_end ← unwrap "called `Option::unwrap()` on a `None` value"
    (u16_checked_add (args_tpu_quic_fwd_port args) (args_num_tpu_fwd_quic_servers args));
  let tpu_ports := z_range (args_tpu_quic_port args) tpu_end in
  let tpu_fwd_ports := z_range (args_tpu_quic_fwd_port args) tpu_fwd_end in
  for_each (λ tpu_port,
    assert (negb (range_contains (args_tpu_quic_fwd_port args) tpu_fwd_end tpu_port))
      "assertion failed") tpu_ports ;;
  tpu ← bind_servers (args_tpu_quic_port args) (args_num_tpu_quic_servers args);
  tpu_fwd ← bind_servers (args_tpu_quic_fwd_port args) (args_num_tpu_fwd_quic_servers args);
  assert (bool_decide (tpu_ports = tpu.*1)) "assertion `left == right` failed" ;;
  assert (bool_decide (tpu_fwd_ports = tpu_fwd.*1)) "assertion `left == right` failed" ;;
  mret {| transactions_quic_sockets := tpu.*2; transactions_forwards_quic_sockets := tpu_fwd.*2 |}.

End sockets.

(** ** [main] *)

Section main.
Context `{Sdk} `{!IpText} `{!Chrono} `{!Ed25519} `{!ProtoRoles} `{J : !Jwt DeSerClaims}.
Context `{Q : !KeyedPriorityQueue IpAddr AuthChallenge reverse_cmp}.
Context `{!HashOrder Slot} `{!HashOrder Pubkey} `{!Channels} `{!Histograms}.
Context `{!ProstTime} `{!Keypairs} `{TC : !TimedCaches Pubkey}.
Context `{!NetUtils} `{!KeyFiles Keypair (SigningKey (Jwt := J)) (VerifyingKey (Jwt := J))}.
Context `{!HostFiles}.

(** What [main] hands to each component. *)
Record Setup := {
  setup_public_ip : IpAddr;
  setup_servers : list (string * string);
  setup_lookup_table_refresher : option Z;
  setup_staked_nodes_overrides : gmap Pubkey Z;
  setup_quic_servers : list QuicServer;
  setup_health_threshold : Z;
  setup_keypair : Keypair;
  setup_handler : option BlockEngineConfig;
  setup_block_engine_channel : chan BlockEnginePackets;
  setup_aoi_cache_ttl_secs : Z;
  setup_relayer_config : RelayerConfig;
  setup_relayer : RelayerImpl;
  setup_auth : AuthServiceImpl (J := J) (V := ValidatorStore);
  setup_verifying_key : VerifyingKey (Jwt := J) }.

Definition block_engine_config (args : Args) : option BlockEngineConfig :=
  if negb (args_disable_mempool args) then
    block_engine_url ← args_block_engine_url args;
    let auth_service_url := default block_engine_url (args_block_engine_auth_service_url args) in
    Some {| block_engine_url := block_engine_url; auth_service_url := auth_service_url |}
  else None.

Definition RelayerImpl_new (public_ip : IpAddr) (tpu_quic_ports tpu_fwd_quic_ports : list Z)
    : RelayerImpl :=
  {| tpu_quic_ports := tpu_quic_ports; tpu_fwd_quic_ports := tpu_fwd_quic_ports;
     public_ip := public_ip; relayer_seq := 0; subscription_queue := []; event_loop_alive := true |}.

Definition validator_store (args : Args) (schedule : gmap Slot Pubkey) : ValidatorStore :=
  match args_allowed_validators args with
  | Some pubkeys => UserDefined (list_to_set pubkeys)
  | None => LeaderSchedule schedule
  end.

(** [s.local_addr().unwrap().port()] for each socket *)
Definition socket_ports (sockets : list UdpSocket) : Prog Host Status (list Z) :=
  mapM (λ s, unwrap "called `Result::unwrap()` on an `Err` value" (local_port s)) sockets.

(** The overrides of the stakes, by default none. *)
Definition staked_nodes_overrides (args : Args) : Prog Host Status (gmap Pubkey Z) :=
  match args_staked_nodes_overrides args with
  | None => mret ∅
  | Some p =>
      file ← unwrap "Failed to open staked nodes overrides file" (fs_read p);
      unwrap "Failed to read staked nodes overrides file" (staked_map_id_from_reader file)
  end.

(** Up to the call that serves; [schedule] is what the leader schedule's handle holds
    when the store is asked. *)
Definition main_setup (args : Args) (schedule : gmap Slot Pubkey) : Prog Host Status Setup :=
  public_ip ←
    match args_public_ip args with
    | Some ip => mret ip
    | None =>
        entrypoint ← unwrap "parse entrypoint" (parse_host_port (args_entrypoint_address args));
        unwrap "get public ip address" (get_public_ip_addr entrypoint)
    end;
  assert (is_ipv4 public_ip) "Your public IP address needs to be IPv4" ;;
  assert (negb (is_loopback public_ip)) "Your public IP can't be the loopback interface" ;;
  assert (is_ipv4 (args_grpc_bind_ip args)) "must bind to IPv4 address" ;;
  sockets ← get_sockets args;
  tpu_quic_ports ← socket_ports (transactions_quic_sockets sockets);
  tpu_quic_fwd_ports ← socket_ports (transactions_forwards_quic_sockets sockets);
  keypair ← unwrap "keypair file does not exist" (read_keypair_file (args_keypair_path args));
  unwrap "called `Option::unwrap()` on a `None` value" hostname_get ;;
  assert (length (args_rpc_servers args) =? length (args_websocket_servers args))%nat
    "number of rpc servers must match number of websocket servers" ;;
  let ofac_addresses : gset Pubkey := list_to_set (default [] (args_ofac_addresses args)) in
  overrides ← staked_nodes_overrides args;
  let '(handler, be_channel) := BlockEngineRelayerHandler_new (block_engine_config args)
    (channel (Z.to_nat BLOCK_ENGINE_FORWARDER_QUEUE_CAPACITY)) in
  priv_key ← unwrap "Failed to read signing key file" (fs_read (args_signing_key_pem_path args));
  signing_key ← unwrap "called `Result::unwrap()` on an `Err` value" (private_key_from_pem priv_key);
  pub_key ← unwrap "Failed to read verifying key file" (fs_read (args_verifying_key_pem_path args));
  verifying_key ← unwrap "called `Result::unwrap()` on an `Err` value" (public_key_from_pem pub_key);
  '(auth_svc, _) ← AuthServiceImpl_new (Q := Q) (validator_store args schedule) signing_key verifying_key
    (args_access_token_ttl_secs args) (args_refresh_token_ttl_secs args)
    (args_challenge_ttl_secs args);
  mret {| setup_public_ip := public_ip;
          setup_servers := zip (args_rpc_servers args) (args_websocket_servers args);
          setup_lookup_table_refresher :=
            if args_enable_lookup_table_refresh args
            then Some (args_lookup_table_refresh_secs args * nanos_per_sec) else None;
          setup_staked_nodes_overrides := overrides;
          setup_quic_servers := Tpu_new sockets (args_max_unstaked_quic_connections args)
            (args_max_staked_quic_connections args);
          setup_health_threshold := args_missing_slot_unhealthy_secs args * nanos_per_sec;
          setup_keypair := keypair;
          setup_handler := handler;
          setup_block_engine_channel := be_channel;
          setup_aoi_cache_ttl_secs := args_aoi_cache_ttl_secs args;
          setup_relayer_config :=
            {| ofac_addresses := ofac_addresses;
               validator_packet_batch_size := args_validator_packet_batch_size args;
               forward_all := args_forward_all args;
               slot_lookahead := args_slot_lookahead args |};
          setup_relayer := RelayerImpl_new public_ip tpu_quic_ports tpu_quic_fwd_ports;
          setup_auth := auth_svc;
          setup_verifying_key := verifying_key |}.

(** ** The web server ([build_relayer_router]) *)

(** [RelayerState], by the values its handles hold when a page is asked for. *)
Record RelayerState := {
  slot_health : HealthState;
  rs_is_connected_to_block_engine : bool;
  relayer_handle : Relayer }.
Record RelayerStatus := {
  slots_healthy : bool;
  status_is_connected : bool;
  validators_connected : list string }.

Definition homepage (state : RelayerState) : string := "jito relayer".
Definition get_health (state : RelayerState) : string :=
  let slots_healthy := bool_decide (slot_health state = Healthy) in
  if slots_healthy && rs_is_connected_to_block_engine state then "ok" else "unhealthy".
Definition get_status (state : RelayerState) : RelayerStatus :=
  {| slots_healthy := bool_decide (slot_health state = Healthy);
     status_is_connected := rs_is_connected_to_block_engine state;
     validators_connected := map pubkey_to_string (connected_validators (relayer_handle state)) |}.

(** A page is text or the [Json] of a status. *)
Inductive Page := Text (text : string) | Json (status : RelayerStatus).
Definition relayer_routes (state : RelayerState) : list (string * Page) :=
  [("/", Text (homepage state)); ("/health", Text (get_health state));
   ("/status", Json (get_status state))]%string.
Definition handle_error (err : string) : HttpAnswer Page :=
  {| http_status := 500; http_body := Text ("Unhandled error: " +:+ err) |}.

(** The answer to a request; [refusal] is the error of the buffer or of the rate limit. *)
Definition build_relayer_router `{!Axum} (state : RelayerState) (refusal : option string)
    (req : HttpRequest) : option (HttpAnswer Page) :=
  router_call (relayer_routes state) handle_error refusal req.
End main.

(** ** Theorems: the sockets *)

Section sockets_theorems.
Context `{Sdk} `{!NetUtils} `{!NetUtilsLaws}.

(** A server's port is one that can be asked for, and the end of its range does not wrap. *)
Definition fits (start i : Z) : Prop := 0 <= start ∧ 0 <= i ∧ 0 < start + i ∧ start + i + 1 < 2 ^ 16.

Lemma bind_range_fits start i :
  fits start i → (u16_add start i, u16_add (u16_add start 1) i) = (start + i, start + i + 1).
Proof.
  intros (? & ? & ? & ?). unfold u16_add, u16_wrap. rewrite Zplus_mod_idemp_l.
  rewrite !Z.mod_small by lia. f_equal. lia.
Qed.

Lemma bind_server_done {E} start i h port sock h' :
  fits start i → bind_server (E := E) start i h = (Done (port, sock), h') →
  port = start + i ∧ local_port sock = Some port ∧ bindable h port = true ∧
  ∀ q, q ≠ port → bindable h' q = bindable h q.
Proof.
  intros Hfits Hb. assert (0 < start + i) as Hpos by apply Hfits. unfold bind_server in Hb. rewrite bind_range_fits in Hb by done.
  apply bind_done in Hb as (bound & h1 & Hr & Hb).
  unfold bind_range in Hr. destruct (multi_bind_in_range _ _ _ h) as [r h2] eqn:Hm.
  injection Hr as -> ->.
  apply bind_done in Hb as ([p socks] & h2 & [-> ->]%unwrap_done & Hb).
  apply bind_done in Hb as (s0 & h3 & [Hlast ->]%unwrap_done & [[= -> ->] ->]%mret_done).
  destruct (multi_bind_ok _ _ _ _ _ _ _ _ Hpos Hm) as (Hp & Hlen & Hports).
  assert (port = start + i) as -> by lia. split_and!; [done| | |].
  - apply last_Some_elem_of in Hlast. by eapply Forall_forall in Hports.
  - apply (multi_bind_one (IpV4 0 0 0 0)); [done|]. rewrite Hm. by eexists.
  - intros q Hq. pose proof (multi_bind_others (IpV4 0 0 0 0) (start + i) h q Hpos Hq) as Ho.
    by rewrite Hm in Ho.
Qed.

Lemma bind_server_runs {E} start i h :
  fits start i → bindable h (start + i) = true →
  ∃ port sock h', bind_server (E := E) start i h = (Done (port, sock), h').
Proof.
  intros Hfits Hb. assert (0 < start + i) as Hpos by apply Hfits. unfold bind_server, bind_range. rewrite bind_range_fits by done.
  apply (multi_bind_one (IpV4 0 0 0 0)) in Hb as [[port socks] Hm]; [|done].
  destruct (multi_bind_in_range _ _ _ h) as [r h'] eqn:E1. cbn in Hm. subst r.
  destruct (multi_bind_ok _ _ _ _ _ _ _ _ Hpos E1) as (_ & Hlen & _).
  destruct socks as [|s0 [|]]; [done| |done]. exists port, s0, h'.
  prog_unfold. by rewrite E1.
Qed.

Lemma bind_all_done {E} start l h r h' :
  (∀ i, i ∈ l → fits start i) → NoDup l →
  mapM (bind_server (E := E) start) l h = (Done r, h') →
  r.*1 = map (Z.add start) l ∧ Forall (λ ps, local_port ps.2 = Some ps.1) r ∧
  (∀ i, i ∈ l → bindable h (start + i) = true) ∧
  (∀ q, q ∉ map (Z.add start) l → bindable h' q = bindable h q).
Proof.
  revert h r; induction l as [|i l IH]; intros h r Hfits Hnodup.
  { intros [= <- <-]. split_and!; [done|constructor|set_solver|done]. }
  intros ([port sock] & r' & h1 & Hb & Hr & ->)%map_m_cons.
  apply NoDup_cons in Hnodup as [Hnin Hnodup].
  destruct (bind_server_done _ _ _ _ _ _ (Hfits i ltac:(set_solver)) Hb) as (-> & Hport & Hfree & Hothers).
  destruct (IH _ _ ltac:(set_solver) Hnodup Hr) as (Hfst & Hports & Hfrees & Hkeep). split_and!.
  - cbn. by rewrite Hfst.
  - by constructor.
  - intros j [->|Hj]%elem_of_cons; [done|]. rewrite <-Hothers; [auto|].
    intros ?. assert (j = i) as -> by lia. done.
  - cbn. intros q Hq. rewrite Hkeep, Hothers; set_solver.
Qed.

Lemma bind_all_runs {E} start l h :
  (∀ i, i ∈ l → fits start i) → NoDup l →
  (∀ i, i ∈ l → bindable h (start + i) = true) →
  ∃ r h', mapM (bind_server (E := E) start) l h = (Done r, h').
Proof.
  revert h; induction l as [|i l IH]; intros h Hfits Hnodup Hfree; [by eexists _, _|].
  apply NoDup_cons in Hnodup as [Hnin Hnodup].
  destruct (bind_server_runs (E := E) start i h) as (port & sock & h1 & Hb);
    [apply Hfits; set_solver|apply Hfree; set_solver|].
  destruct (bind_server_done _ _ _ _ _ _ (Hfits i ltac:(set_solver)) Hb) as (-> & _ & _ & Ho).
  destruct (IH h1) as (r & h' & Hr); [set_solver|done| |].
  { intros j Hj. rewrite Ho; [apply Hfree; set_solver|].
    intros ?. assert (j = i) as -> by lia. done. }
  exists ((start + i, sock) :: r), h'. apply map_m_cons. eauto 10.
Qed.

Lemma range_contains_iff lo hi x : range_contains lo hi x = true ↔ lo <= x < hi.
Proof. unfold range_contains. rewrite andb_true_iff, Z.leb_le, Z.ltb_lt. done. Qed.

Definition on_ports (ports : list Z) (sockets : list UdpSocket) : Prop :=
  Forall2 (λ p s, local_port s = Some p) ports sockets.
Definition all_free (h : Host) (start num : Z) : Prop :=
  ∀ p, start <= p < start + num → 0 < p ∧ bindable h p = true.

Lemma on_ports_unzip (r : list (Z * UdpSocket)) :
  Forall (λ ps, local_port ps.2 = Some ps.1) r → on_ports r.*1 r.*2.
Proof. induction 1 as [|[p s] r Hp Hr IH]; constructor; done. Qed.

(** Port zero is not the first. *)
Definition ports_positive (start num : Z) : Prop := 0 < start ∨ num <= 0.

Lemma servers_fit start num :
  is_u16 start → ports_positive start num → start + num < 2 ^ 16 →
  ∀ i, i ∈ z_range 0 num → fits start i.
Proof. intros ??? i ?%elem_of_z_range. unfold fits, is_u16, ports_positive in *. lia. Qed.

(** A server asked for on port zero gets another. *)
Lemma bind_servers_positive {E} start num h r h' :
  is_u16 start → bind_servers (E := E) start num h = (Done r, h') →
  r.*1 = z_range start (start + num) → ports_positive start num.
Proof.
  intros Hs Hb Hr. unfold ports_positive. destruct (decide (start = 0)) as [->|]; [|unfold is_u16 in *; lia].
  destruct (decide (num <= 0)) as [|Hnum]; [by right|]. exfalso. unfold bind_servers in Hb.
  assert (∀ n, 0 < n → ∃ l, z_range 0 n = 0 :: l) as Hcons.
  { intros n Hn. unfold z_range. replace (Z.to_nat (n - 0)) with (S (Z.to_nat n - 1)) by lia. by eexists. }
  destruct (Hcons num ltac:(lia)) as [l Hl]. rewrite Z.add_0_l in Hr. rewrite Hl in Hb, Hr.
  apply map_m_cons in Hb as ([port sock] & r' & h1 & Hb & _ & ->). injection Hr as Hport _.
  unfold bind_server in Hb. apply bind_done in Hb as (bound & h2 & Hbr & Hb).
  unfold bind_range in Hbr. destruct (multi_bind_in_range _ _ _ h) as [o h3] eqn:Hm. injection Hbr as -> ->.
  apply bind_done in Hb as ([p socks] & h4 & [-> ->]%unwrap_done & Hb).
  apply bind_done in Hb as (s0 & h5 & _ & [[= -> ->] _]%mret_done).
  by apply (multi_bind_zero _ _ _ _ _ _ _ Hm).
Qed.

Lemma bind_servers_done {E} start num h r h' :
  is_u16 start → ports_positive start num → start + num < 2 ^ 16 → bind_servers (E := E) start num h = (Done r, h') →
  r.*1 = z_range start (start + num) ∧ on_ports (z_range start (start + num)) r.*2 ∧
  all_free h start num ∧
  ∀ q, ¬ start <= q < start + num → bindable h' q = bindable h q.
Proof.
  intros Hs Hpos Hn Hb.
  destruct (bind_all_done _ _ _ _ _ (servers_fit _ _ Hs Hpos Hn) (NoDup_z_range _ _) Hb)
    as (Hfst & Hports & Hfree & Hkeep). rewrite map_add_z_range in *. split_and!; [done| | |].
  - rewrite <-Hfst. by apply on_ports_unzip.
  - intros p Hp. split; [unfold is_u16, ports_positive in *; lia|].
    replace p with (start + (p - start)) by lia. apply Hfree, elem_of_z_range. lia.
  - intros q Hq. apply Hkeep. by rewrite elem_of_z_range.
Qed.

Lemma all_free_positive h start num : all_free h start num → ports_positive start num.
Proof.
  intros Hfree. unfold ports_positive. destruct (decide (num <= 0)); [by right|left].
  apply (Hfree start). lia.
Qed.

Lemma bind_servers_runs {E} start num h :
  is_u16 start → start + num < 2 ^ 16 → all_free h start num →
  ∃ r h', bind_servers (E := E) start num h = (Done r, h').
Proof.
  intros Hs Hn Hfree. apply bind_all_runs; [apply servers_fit; [done|by eapply all_free_positive|done]
    |apply NoDup_z_range|].
  intros i ?%elem_of_z_range. apply Hfree. lia.
Qed.

(** What the arguments must satisfy for the sockets to be bound on the machine [h]: fewer
    than 65535 servers, ports that exist, disjoint ranges, and ports that are free and not
    zero. *)
Definition bindable_args (args : Args) (h : Host) : Prop :=
  let tpu := args_tpu_quic_port args in let n := args_num_tpu_quic_servers args in
  let fwd := args_tpu_quic_fwd_port args in let m := args_num_tpu_fwd_quic_servers args in
  (n < 2 ^ 16 - 1 ∧ m < 2 ^ 16 - 1) ∧ (tpu + n < 2 ^ 16 ∧ fwd + m < 2 ^ 16) ∧
  (∀ p, tpu <= p < tpu + n → ¬ fwd <= p < fwd + m) ∧ all_free h tpu n ∧ all_free h fwd m.

Definition args_u16 (args : Args) : Prop :=
  is_u16 (args_tpu_quic_port args) ∧ is_u16 (args_num_tpu_quic_servers args) ∧
  is_u16 (args_tpu_quic_fwd_port args) ∧ is_u16 (args_num_tpu_fwd_quic_servers args).

(** The sockets are on the ports the arguments ask for, in order. *)
Definition sockets_as_asked (args : Args) (s : TpuSockets) : Prop :=
  on_ports (z_range (args_tpu_quic_port args)
      (args_tpu_quic_port args + args_num_tpu_quic_servers args)) (transactions_quic_sockets s) ∧
  on_ports (z_range (args_tpu_quic_fwd_port args)
      (args_tpu_quic_fwd_port args + args_num_tpu_fwd_quic_servers args))
    (transactions_forwards_quic_sockets s).

Lemma get_sockets_done {E} args h s h' :
  args_u16 args → get_sockets (E := E) args h = (Done s, h') →
  bindable_args args h ∧ sockets_as_asked args s.
Proof.
  intros (Hp & Hn & Hfp & Hfn) Hrun. unfold get_sockets in Hrun. prog_inv Hrun.
  repeat match goal with
  | H : u16_checked_add _ _ = Some _ |- _ => apply u16_checked_add_done in H as [-> ?]
  | H : for_each _ _ _ = (Done _, _) |- _ => apply for_each_assert_done in H as [-> Hdisj]
  | H : (_ <? _) = true |- _ => apply Z.ltb_lt in H
  end.
  repeat match goal with H : bool_decide (_ = _) = true |- _ => apply bool_decide_eq_true in H end.
  match goal with H1 : bind_servers _ _ h = _, H2 : bind_servers _ _ _ = _ |- _ =>
    pose proof (bind_servers_positive _ _ _ _ _ Hp H1 ltac:(done)) as Hpos1;
    pose proof (bind_servers_positive _ _ _ _ _ Hfp H2 ltac:(done)) as Hpos2;
    apply bind_servers_done in H1 as (_ & Hs1 & Hf1 & Hk1); [|done..];
    apply bind_servers_done in H2 as (_ & Hs2 & Hf2 & Hk2); [|done..] end.
  assert (Hdis : ∀ p, args_tpu_quic_port args <= p < args_tpu_quic_port args + args_num_tpu_quic_servers args →
    ¬ args_tpu_quic_fwd_port args <= p <
      args_tpu_quic_fwd_port args + args_num_tpu_fwd_quic_servers args).
  { intros p Hin%elem_of_z_range Hin2%range_contains_iff. apply Hdisj in Hin. by rewrite Hin2 in Hin. }
  split; [|by split]. split_and!; try done.
  intros p Hin. rewrite <-Hk1; [by apply Hf2|]. intros Hin1. by apply (Hdis p).
Qed.

Lemma get_sockets_runs {E} args h :
  args_u16 args → bindable_args args h → ∃ s h', get_sockets (E := E) args h = (Done s, h').
Proof.
  intros (Hp & Hn & Hfp & Hfn) ([Hn1 Hm1] & [Hn2 Hm2] & Hdis & Hf1 & Hf2). unfold get_sockets.
  destruct (bind_servers_runs (E := E) _ _ _ Hp Hn2 Hf1) as (r1 & h1 & Hb1).
  destruct (bind_servers_done _ _ _ _ _ Hp (all_free_positive _ _ _ Hf1) Hn2 Hb1) as (Hr1 & _ & _ & Hk1).
  destruct (bind_servers_runs (E := E) (args_tpu_quic_fwd_port args)
    (args_num_tpu_fwd_quic_servers args) h1) as (r2 & h2 & Hb2); [done..| |].
  { intros p Hin. rewrite Hk1; [by apply Hf2|]. intros Hin1. by apply (Hdis p). }
  destruct (bind_servers_done _ _ _ _ _ Hfp (all_free_positive _ _ _ Hf2) Hm2 Hb2) as (Hr2 & _ & _ & _).
  assert (He1 : u16_checked_add (args_tpu_quic_port args) (args_num_tpu_quic_servers args)
    = Some (args_tpu_quic_port args + args_num_tpu_quic_servers args)) by by apply u16_checked_add_done.
  assert (He2 : u16_checked_add (args_tpu_quic_fwd_port args) (args_num_tpu_fwd_quic_servers args)
    = Some (args_tpu_quic_fwd_port args + args_num_tpu_fwd_quic_servers args))
    by by apply u16_checked_add_done.
  apply Z.ltb_lt in Hn1, Hm1. eexists _, h2. prog_run.
  erewrite prog_bind_done; cycle 1.
  { apply (for_each_assert_done _ _ _ _ tt). split; [done|].
    intros p Hin%elem_of_z_range. apply negb_true_iff, not_true_is_false.
    intros Hin2%range_contains_iff. by apply (Hdis p). }
  prog_run. rewrite Hr1, Hr2, !bool_decide_eq_true_2 by done. done.
Qed.

(** C32: Binding the QUIC sockets either panics or gives one socket on each port of the
    two ranges asked for, in order; it succeeds exactly when the server counts are below
    65535, the ranges exist, are disjoint and all their ports are free and none is zero (a
    server asked for on port zero gets a port of the system's choice, and the comparison
    with the ports asked for panics). *)
Theorem get_sockets_spec {E} args h :
  args_u16 args →
  ((∃ s h', get_sockets (E := E) args h = (Done s, h')) ↔ bindable_args args h) ∧
  (∀ s h', get_sockets (E := E) args h = (Done s, h') → sockets_as_asked args s).
Proof.
  intros Hu. split; [split|].
  - intros (s & h' & Hs). by eapply get_sockets_done.
  - by apply get_sockets_runs.
  - intros s h' Hs. by eapply get_sockets_done.
Qed.
End sockets_theorems.

(** ** Theorems: [main] and the web server *)

Lemma length_z_range lo hi : Z.of_nat (length (z_range lo hi)) = Z.max 0 (hi - lo).
Proof. unfold z_range. rewrite length_map, length_seq. lia. Qed.

Lemma lookup_z_range lo hi i :
  0 <= i < hi - lo → z_range lo hi !! Z.to_nat i = Some (lo + i).
Proof.
  intros Hi. unfold z_range. rewrite list_lookup_fmap, lookup_seq_lt by lia. cbn. f_equal. lia.
Qed.

(** Port selection on a range of ports. *)
Lemma nth_port_range {S} lo num seq (s : S) :
  0 < num → nth_port (z_range lo (lo + num)) seq s = (Done (lo + seq mod num), s).
Proof.
  intros Hnum. unfold nth_port.
  pose proof (length_z_range lo (lo + num)) as Hlen.
  rewrite (prog_bind_done _ _ s tt s).
  - rewrite Hlen. replace (Z.max 0 (lo + num - lo)) with num by lia.
    rewrite lookup_z_range; [done|]. pose proof (Z.mod_pos_bound seq num Hnum). lia.
  - apply assert_done. split; [|done]. apply negb_true_iff, Nat.eqb_neq. lia.
Qed.
Lemma nth_port_empty {S} lo seq :
  ∃ why, ∀ s : S, nth_port (z_range lo (lo + 0)) seq s = (Panicked why, s).
Proof. unfold nth_port, z_range. rewrite Z.add_0_r, Z.sub_diag. cbn. by eexists. Qed.

Section main_theorems.
Context `{Sdk} `{!IpText} `{!Chrono} `{!Ed25519} `{!ProtoRoles} `{J : !Jwt DeSerClaims}.
Context `{Q : !KeyedPriorityQueue IpAddr AuthChallenge reverse_cmp}.
Context `{!HashOrder Slot} `{!HashOrder Pubkey} `{!HashOrderLaws Slot} `{!HashOrderLaws Pubkey}.
Context `{!Channels} `{!ChannelsLaws} `{!Histograms}.
Context `{!ProstTime} `{!Keypairs} `{TC : !TimedCaches Pubkey}.
Context `{!NetUtils} `{!NetUtilsLaws}.
Context `{KF : !KeyFiles Keypair (SigningKey (Jwt := J)) (VerifyingKey (Jwt := J))} `{!HostFiles}.
Local Abbreviation setup_of := (main_setup (Q := Q) (J := J) (KeyFiles0 := KF)).

Lemma socket_ports_done sockets ports h :
  on_ports ports sockets → socket_ports sockets h = (Done ports, h).
Proof.
  induction 1 as [|p s ports sockets Hp Hs IH]; [done|]. apply map_m_cons.
  exists p, ports, h. rewrite Hp. by split.
Qed.

(** The ports of the two ranges the arguments ask for. *)
Definition tpu_range (args : Args) : list Z :=
  z_range (args_tpu_quic_port args) (args_tpu_quic_port args + args_num_tpu_quic_servers args).
Definition fwd_range (args : Args) : list Z :=
  z_range (args_tpu_quic_fwd_port args)
    (args_tpu_quic_fwd_port args + args_num_tpu_fwd_quic_servers args).

(** What a completed start-up looks like. *)
Record started (args : Args) (schedule : gmap Slot Pubkey) (h : Host) (s : Setup) : Prop := {
  st_bound : bindable_args args h;
  st_ip : is_ipv4 (setup_public_ip s) = true ∧ is_loopback (setup_public_ip s) = false ∧
    (∀ ip, args_public_ip args = Some ip → setup_public_ip s = ip);
  st_grpc : is_ipv4 (args_grpc_bind_ip args) = true;
  st_quic : ∃ sockets, sockets_as_asked args sockets ∧
    setup_quic_servers s = Tpu_new sockets (args_max_unstaked_quic_connections args)
      (args_max_staked_quic_connections args);
  st_relayer : setup_relayer s = RelayerImpl_new (setup_public_ip s) (tpu_range args) (fwd_range args);
  st_servers : (setup_servers s).*1 = args_rpc_servers args ∧
    (setup_servers s).*2 = args_websocket_servers args;
  st_refresher : setup_lookup_table_refresher s =
    if args_enable_lookup_table_refresh args
    then Some (args_lookup_table_refresh_secs args * nanos_per_sec) else None;
  st_overrides : match args_staked_nodes_overrides args with
    | None => setup_staked_nodes_overrides s = ∅
    | Some p => ∃ file, fs_read p = Some file ∧
        staked_map_id_from_reader file = Some (setup_staked_nodes_overrides s)
    end;
  st_block_engine : (setup_handler s, setup_block_engine_channel s) =
    BlockEngineRelayerHandler_new (block_engine_config args)
      (channel (Z.to_nat BLOCK_ENGINE_FORWARDER_QUEUE_CAPACITY));
  st_config : setup_relayer_config s =
    {| ofac_addresses := list_to_set (default [] (args_ofac_addresses args));
       validator_packet_batch_size := args_validator_packet_batch_size args;
       forward_all := args_forward_all args; slot_lookahead := args_slot_lookahead args |};
  st_auther : validator_auther (setup_auth s) = validator_store args schedule;
  st_key : service_verifying_key (setup_auth s) = setup_verifying_key s }.

Lemma staked_nodes_overrides_done args m h h' :
  staked_nodes_overrides args h = (Done m, h') →
  match args_staked_nodes_overrides args with
  | None => m = ∅
  | Some p => ∃ file, fs_read p = Some file ∧ staked_map_id_from_reader file = Some m
  end ∧ h' = h.
Proof.
  unfold staked_nodes_overrides. destruct (args_staked_nodes_overrides args) as [p|]; [|by intros [= <- <-]].
  intros (file & h1 & [Hfile ->]%unwrap_done & [Hm ->]%unwrap_done)%bind_done. by eauto.
Qed.

Lemma main_setup_started args schedule h s h' :
  args_u16 args → setup_of args schedule h = (Done s, h') → started args schedule h s.
Proof.
  intros Hu Hrun. unfold main_setup in Hrun.
  apply bind_done in Hrun as (ip & h0 & Hip & Hrun).
  assert (h0 = h ∧ ∀ ip', args_public_ip args = Some ip' → ip = ip') as [-> Hpub].
  { destruct (args_public_ip args); prog_inv Hip; by split; [|intros ? [=]]. }
  do 3 (apply bind_done in Hrun as (? & ? & [? ->]%assert_done & Hrun)).
  apply bind_done in Hrun as (sockets & h1 & Hsock & Hrun).
  destruct (get_sockets_done _ _ _ _ Hu Hsock) as [Hbound [Hs1 Hs2]].
  rewrite (prog_bind_done _ _ _ _ _ (socket_ports_done _ _ _ Hs1)),
    (prog_bind_done _ _ _ _ _ (socket_ports_done _ _ _ Hs2)) in Hrun.
  apply bind_done in Hrun as (kp & h2 & [Hkp ->]%unwrap_done & Hrun).
  apply bind_done in Hrun as (? & h2 & [Hname ->]%unwrap_done & Hrun).
  apply bind_done in Hrun as (? & h2 & [Hlen%Nat.eqb_eq ->]%assert_done & Hrun).
  apply bind_done in Hrun as (overrides & h2 & [Hover ->]%staked_nodes_overrides_done & Hrun).
  destruct (BlockEngineRelayerHandler_new _ _) as [handler be_channel] eqn:Hbe.
  do 4 (apply bind_done in Hrun as (? & ? & [? ->]%unwrap_done & Hrun)).
  apply bind_done in Hrun as ([auth_svc q] & h3 & Hauth & Hrun).
  apply mret_done in Hrun as [<- ->]. unfold AuthServiceImpl_new in Hauth.
  do 3 (apply bind_done in Hauth as (? & ? & [? ->]%unwrap_done & Hauth)).
  apply mret_done in Hauth as [[= <- <-] ->].
  split; cbn; try done.
  - split_and!; [done|by apply negb_true_iff|done].
  - by exists sockets.
  - by rewrite fst_zip, snd_zip by lia.
Qed.

(** The policy lets in the validators listed, or those scheduled when none are. *)
Lemma validator_store_iff args schedule pk :
  is_authorized (validator_store args schedule) pk = true ↔
  match args_allowed_validators args with
  | Some l => pk ∈ l
  | None => ∃ slot, schedule !! slot = Some pk
  end.
Proof.
  unfold validator_store. destruct (args_allowed_validators args); cbn.
  - by rewrite bool_decide_eq_true, elem_of_list_to_set.
  - apply is_scheduled_validator_iff.
Qed.

(** A start-up that succeeds has bound every port it will advertise, on an IPv4
    address that is not the loopback; pairs each RPC server with the websocket
    server at its position; screens for exactly the listed addresses; authorizes
    exactly the allowed validators, or the scheduled ones when none are listed;
    lets no unstaked node forward; and has a block-engine thread exactly when the
    mempool is enabled and a URL is given. *)
Theorem main_setup_spec args schedule h s h' :
  args_u16 args → setup_of args schedule h = (Done s, h') →
  started args schedule h s ∧
  (∀ pk, pk ∈ ofac_addresses (setup_relayer_config s) ↔
    ∃ l, args_ofac_addresses args = Some l ∧ pk ∈ l) ∧
  (∀ pk, is_authorized (validator_auther (setup_auth s)) pk = true ↔
    match args_allowed_validators args with
    | Some l => pk ∈ l
    | None => ∃ slot, schedule !! slot = Some pk
    end) ∧
  (∀ q, q ∈ setup_quic_servers s → quic_queue q = TpuForwardsReceiver →
    max_unstaked_connections q = 0) ∧
  (is_Some (setup_handler s) ↔
    args_disable_mempool args = false ∧ is_Some (args_block_engine_url args)).
Proof.
  intros Hu Hrun. pose proof (main_setup_started _ _ _ _ _ Hu Hrun) as Hst.
  pose proof Hst as [_ _ _ (sockets & _ & Hquic) _ _ _ _ Hbe Hcfg Hauther]. split_and!; [done|..].
  - intros pk. rewrite Hcfg. cbn. rewrite elem_of_list_to_set.
    destruct (args_ofac_addresses args); cbn; set_solver.
  - intros pk. rewrite Hauther. apply validator_store_iff.
  - intros q. rewrite Hquic. unfold Tpu_new.
    intros [(? & -> & _)%list_elem_of_fmap|(? & -> & _)%list_elem_of_fmap]%elem_of_app; done.
  - unfold block_engine_config in Hbe.
    destruct (args_disable_mempool args), (args_block_engine_url args); cbn in Hbe;
      injection Hbe as -> _; (split; [intros []|intros [? []]]); try done; by split.
Qed.
(** [k] calls of [get_tpu_configs], whatever they answer. *)
Definition after_calls (k : nat) (st : RelayerImpl) : RelayerImpl :=
  Nat.iter k (λ st, (get_tpu_configs st).2) st.

Lemma get_tpu_configs_moves st :
  (get_tpu_configs st).2 = {st with relayer_seq ::= (λ x, u64_add x 1)}.
Proof.
  unfold get_tpu_configs.
  rewrite (prog_bind_done (gets _) _ _ _ _ eq_refl), (prog_bind_done (modify _) _ _ _ _ eq_refl).
  match goal with |- (?m _).2 = _ => enough (Hm : reads_only m) by apply Hm end.
  unfold nth_port. auto 10 with relayer.
Qed.

Lemma after_calls_spec k ip tpus fwds :
  after_calls k (RelayerImpl_new ip tpus fwds) =
  {RelayerImpl_new ip tpus fwds with relayer_seq := u64_wrap (Z.of_nat k)}.
Proof.
  unfold after_calls. induction k as [|k IH]; [done|]. rewrite Nat.iter_succ, IH.
  rewrite get_tpu_configs_moves. cbn. do 2 f_equal.
  unfold constant. rewrite u64_add_wrap_l. f_equal. lia.
Qed.
(** Once started, the relayer spreads its validators over its ports: the [k]-th call
    of [get_tpu_configs] answers with the public address and the port of the server
    at position [k] (as a 64-bit counter) modulo the number of servers, lowered by
    six, for both kinds of servers; with no server of one kind every call panics. *)
Theorem advertised_ports args schedule h s h' k :
  args_u16 args → setup_of args schedule h = (Done s, h') →
  let n := args_num_tpu_quic_servers args in let m := args_num_tpu_fwd_quic_servers args in
  let seq := u64_wrap (Z.of_nat k) in
  6 <= args_tpu_quic_port args → 6 <= args_tpu_quic_fwd_port args →
  (0 < n → 0 < m →
    (get_tpu_configs (after_calls k (setup_relayer s))).1 = Done
      {| tpu := {| socket_ip := ip_to_string (setup_public_ip s);
                   socket_port := args_tpu_quic_port args + seq mod n - 6 |};
         tpu_forward := {| socket_ip := ip_to_string (setup_public_ip s);
                           socket_port := args_tpu_quic_fwd_port args + seq mod m - 6 |} |}) ∧
  (n = 0 ∨ m = 0 → ∃ why, (get_tpu_configs (after_calls k (setup_relayer s))).1 = Panicked why).
Proof.
  intros Hu Hrun n m seq Htpu Hfwd.
  destruct (main_setup_started _ _ _ _ _ Hu Hrun) as [Hb _ _ _ Hrel _ _ _ _ _ _].
  destruct Hu as (Hp & Hn & Hfp & Hfn). rewrite Hrel, after_calls_spec. unfold get_tpu_configs.
  rewrite (prog_bind_done (gets _) _ _ _ _ eq_refl), (prog_bind_done (modify _) _ _ _ _ eq_refl).
  rewrite (prog_bind_done (gets _) _ _ _ _ eq_refl). unfold id. cbn.
  unfold constant. fold seq. unfold tpu_range, fwd_range. fold n m.
  destruct Hb as (_ & [Hend1 Hend2] & _). fold n m in Hend1, Hend2, Hn, Hfn.
  assert (Hport : ∀ port num, is_u16 num → 0 < num → 6 <= port → port + num < 2 ^ 16 →
    u16_sub (port + seq mod num) 6 = port + seq mod num - 6).
  { intros port num ? Hnum ? ?. pose proof (Z.mod_pos_bound seq num Hnum). unfold u16_sub, u16_wrap.
    apply Z.mod_small. lia. }
  split.
  - intros Hn0 Hm0. rewrite (prog_bind_done _ _ _ _ _ (nth_port_range _ _ _ _ Hn0)).
    rewrite (prog_bind_done _ _ _ _ _ (nth_port_range _ _ _ _ Hm0)).
    unfold mret, Prog_ret. cbn. by rewrite !Hport.
  - intros Hempty. destruct (decide (n = 0)) as [->|Hn0].
    + destruct (nth_port_empty (S := RelayerImpl) (args_tpu_quic_port args) seq) as [why Hw].
      exists why. by rewrite (prog_bind_panicked _ _ _ _ _ (Hw _)).
    + destruct Hempty as [Hz|Hz]; [done|]; rewrite Hz.
      destruct (nth_port_empty (S := RelayerImpl) (args_tpu_quic_fwd_port args) seq) as [why Hw].
      exists why. unfold is_u16 in Hn.
      rewrite (prog_bind_done _ _ _ _ _ (nth_port_range _ _ _ _ (ltac:(lia) : 0 < n))).
      by rewrite (prog_bind_panicked _ _ _ _ _ (Hw _)).
Qed.

(** C16: With the mempool enabled and no block-engine URL, which the arguments allow, the
    start-up drops the receiver the forwarder offers its batches to: the forwarding
    thread panics on the first batch it receives and forwards it to no one. *)
Theorem no_block_engine_url_panics args schedule h s h' thread_id delay i batch st :
  args_u16 args → setup_of args schedule h = (Done s, h') →
  args_disable_mempool args = false → args_block_engine_url args = None →
  (∀ offered, fi_be_answer i = (try_send offered (setup_block_engine_channel s)).1) →
  fi_recv i = RecvOk batch →
  ∃ st', forwarder_iteration thread_id delay (args_disable_mempool args) i st =
      (Panicked "error sending packet batch to block engine handler", st') ∧
    delay_sent st' = delay_sent st ∧ be_sent st' = be_sent st.
Proof.
  intros Hu Hrun Hmem Hurl Hans Hrecv.
  pose proof (st_block_engine _ _ _ _ (main_setup_started _ _ _ _ _ Hu Hrun)) as Hbe.
  unfold block_engine_config in Hbe. rewrite Hmem, Hurl in Hbe. injection Hbe as _ Hchan.
  assert (Hclosed : fi_be_answer i = Some Closed).
  { rewrite (Hans {| be_banking_packet_batch := batch; be_stamp := 0; expiration := 0 |}), Hchan.
    by rewrite try_send_closed by apply drop_receiver_closes. }
  rewrite Hmem. unfold forwarder_iteration.
  rewrite (prog_bind_done (modify _) _ _ _ _ eq_refl).
  destruct (upload_metrics_keeps thread_id delay false i st) as (_ & <- & <- & _).
  destruct (upload_metrics thread_id delay i st) as [buf [] up be sent acc rep].
  unfold receive_batch, with_metrics, offer_block_engine. rewrite Hrecv, Hclosed. by eexists.
Qed.

(** What [/health] answers to a relayer without a block engine: its thread does not
    exist, so whatever happens to it the flag stays down and the page says
    "unhealthy", however healthy the slots are; with one, the page says "ok"
    exactly when the slots are healthy and the connection is up. *)
Theorem health_page_spec args schedule h s h' ofac ttl sessions be health relayer :
  args_u16 args → setup_of args schedule h = (Done s, h') →
  is_connected_to_block_engine be = false →
  let be' := block_engine_handler (setup_handler s) ofac ttl sessions be in
  let page := get_health {| slot_health := health;
    rs_is_connected_to_block_engine := is_connected_to_block_engine be'; relayer_handle := relayer |} in
  (page = "ok"%string ↔ health = Healthy ∧ is_connected_to_block_engine be' = true) ∧
  (args_disable_mempool args = true ∨ args_block_engine_url args = None →
    page = "unhealthy"%string).
Proof.
  intros Hu Hrun Hbe be' page.
  pose proof (st_block_engine _ _ _ _ (main_setup_started _ _ _ _ _ Hu Hrun)) as Hh.
  subst page. unfold get_health. cbn. split.
  - destruct (is_connected_to_block_engine be'), health; cbn; naive_solver.
  - intros Hno. assert (Hnone : setup_handler s = None).
    { unfold block_engine_config in Hh.
      destruct Hno as [Hno|Hno]; rewrite Hno in Hh; [|destruct (args_disable_mempool args)];
        cbn in Hh; by injection Hh. }
    subst be'. rewrite Hnone. cbn. rewrite Hbe. by destruct health.
Qed.

(** What the web server answers: the three pages under their paths, the health as above,
    and in the status the validators that are connected and no others; a request that the
    buffer or the rate limit refuses gets the error. *)
Theorem router_pages `{!AxumLaws} state refusal req :
  let page path := build_relayer_router state None (http_get path) in
  page "/"%string = Some {| http_status := 200; http_body := Text "jito relayer" |} ∧
  (page "/health"%string = Some {| http_status := 200; http_body := Text "ok" |} ↔
    slot_health state = Healthy ∧ rs_is_connected_to_block_engine state = true) ∧
  (∃ status, page "/status"%string = Some {| http_status := 200; http_body := Json status |} ∧
    (slots_healthy status = true ↔ slot_health state = Healthy) ∧
    status_is_connected status = rs_is_connected_to_block_engine state ∧
    ∀ text, text ∈ validators_connected status ↔
      ∃ pk, text = pubkey_to_string pk ∧ is_Some (packet_subscriptions (relayer_handle state) !! pk)) ∧
  build_relayer_router state (Some refusal) req =
    Some {| http_status := 500; http_body := Text ("Unhandled error: " +:+ refusal) |}.
Proof.
  intros page. unfold page, build_relayer_router.
  assert (NoDup (relayer_routes state).*1) as Hnodup.
  { cbn. repeat constructor; set_solver. }
  assert (∀ path body, (path, body) ∈ relayer_routes state →
    router_call (relayer_routes state) handle_error None (http_get path) =
      Some {| http_status := 200; http_body := body |}) as Hget by (intros; by apply router_get).
  rewrite (Hget "/"%string (Text (homepage state))), (Hget "/health"%string (Text (get_health state))),
    (Hget "/status"%string (Json (get_status state))) by (unfold relayer_routes; set_solver).
  split_and!; [done| | |by apply router_refused].
  - unfold get_health. destruct (slot_health state), (rs_is_connected_to_block_engine state); cbn; naive_solver.
  - eexists. split; [reflexivity|]. cbn. split_and!; [apply bool_decide_eq_true|done|].
    intros text. unfold connected_validators. rewrite list_elem_of_fmap. setoid_rewrite list_elem_of_fmap.
    split.
    + intros (pk & -> & ([k c] & -> & Hc%elem_of_map_iter)). exists k. split; [done|]. by exists c.
    + intros (pk & -> & [c Hc]). exists pk. split; [done|]. exists (pk, c). split; [done|].
      by apply elem_of_map_iter.
Qed.
End main_theorems.

(** ** Concrete inputs *)

(** The default ports with three and two servers, no block-engine URL; [url] sets one. *)
Definition toy_args (url : option string) : Args :=
  {| args_tpu_quic_port := 11228; args_num_tpu_quic_servers := 3;
     args_tpu_quic_fwd_port := 11239; args_num_tpu_fwd_quic_servers := 2;
     args_grpc_bind_ip := IpV4 0 0 0 0; args_rpc_servers := ["http://a"];
     args_websocket_servers := ["ws://a"]; args_entrypoint_address := "entry:8001";
     args_public_ip := None; args_packet_delay_ms := 200; args_block_engine_url := url;
     args_block_engine_auth_service_url := None; args_keypair_path := "id.json";
     args_allowed_validators := Some ["a"%char]; args_signing_key_pem_path := "sk.pem";
     args_verifying_key_pem_path := "vk.pem"; args_access_token_ttl_secs := 1800;
     args_refresh_token_ttl_secs := 180000; args_challenge_ttl_secs := 1800;
     args_missing_slot_unhealthy_secs := 10; args_ofac_addresses := Some ["x"%char];
     args_max_unstaked_quic_connections := 500; args_max_staked_quic_connections := 2000;
     args_validator_packet_batch_size := 4; args_disable_mempool := false;
     args_forward_all := false; args_slot_lookahead := 5;
     args_staked_nodes_overrides := Some "overrides.yaml"; args_enable_lookup_table_refresh := false;
     args_lookup_table_refresh_secs := 600; args_aoi_cache_ttl_secs := 300 |}%string.
Local Abbreviation toy_q := (map_kpq reverse_cmp).
Local Abbreviation toy_j := (toy_jwt DeSerClaims).
Definition toy_setup (args : Args) :=
  main_setup (Q := toy_q) (J := toy_j)
    (KeyFiles0 := (toy_files : KeyFiles (@Keypair toy_sdk toy_keypairs) (SigningKey (Jwt := toy_j))
      (VerifyingKey (Jwt := toy_j)))) args ∅ (∅ : Host).

Lemma toy_args_u16 url : args_u16 (toy_args url).
Proof. unfold args_u16, is_u16. cbn. lia. Qed.

Lemma toy_starts : ∃ s h, toy_setup (toy_args None) = (Done s, h).
Proof.
  assert (Hdone : match toy_setup (toy_args None) with (Done _, _) => true | _ => false end = true)
    by vm_refl.
  destruct (toy_setup (toy_args None)) as [[s|e|w] h]; [by exists s, h|discriminate..].
Qed.

Lemma get_sockets_spec_witness :
  args_u16 (toy_args None) ∧
  ∃ s h, get_sockets (E := Status) (toy_args None) (∅ : Host) = (Done s, h) ∧
    sockets_as_asked (toy_args None) s.
Proof.
  split; [apply toy_args_u16|].
  destruct (get_sockets_spec (E := Status) (toy_args None) (∅ : Host) (toy_args_u16 None)) as [Hiff Hports].
  assert (Hb : bindable_args (toy_args None) (∅ : Host)).
  { assert (Hfree : ∀ start num, 1024 <= start → all_free (∅ : Host) start num).
    { intros start num ? p ?. split; [lia|]. cbn. rewrite bool_decide_eq_true_2 by set_solver.
      rewrite andb_true_r. apply Z.leb_le. lia. }
    split_and!; cbn; [lia..| |]; apply Hfree; lia. }
  apply Hiff in Hb as (s & h & Hs). exists s, h. split; [exact Hs|]. by apply (Hports s h).
Defined.

Lemma main_setup_spec_witness :
  ∃ s h, toy_setup (toy_args None) = (Done s, h) ∧
    "x"%char ∈ ofac_addresses (setup_relayer_config s) ∧
    is_authorized (validator_auther (setup_auth s)) "a"%char = true ∧ ¬ is_Some (setup_handler s).
Proof.
  destruct toy_starts as (s & h & Hs). exists s, h. split; [exact Hs|].
  destruct (main_setup_spec (toy_args None) ∅ (∅ : Host) s h (toy_args_u16 None) Hs)
    as (_ & Hofac & Hauth & _ & Hbe).
  split; [apply Hofac; exists ["x"%char]; split; [reflexivity|by apply list_elem_of_singleton]|].
  split; [apply Hauth; by apply list_elem_of_singleton|]. rewrite Hbe. by intros [_ []].
Defined.

Lemma advertised_ports_witness :
  ∃ s h, toy_setup (toy_args None) = (Done s, h) ∧
    (get_tpu_configs (after_calls 4 (setup_relayer s))).1 = Done
      {| tpu := {| socket_ip := ip_to_string (setup_public_ip s); socket_port := 11223 |};
         tpu_forward := {| socket_ip := ip_to_string (setup_public_ip s); socket_port := 11233 |} |}.
Proof.
  destruct toy_starts as (s & h & Hs). exists s, h. split; [exact Hs|].
  exact (proj1 (advertised_ports (toy_args None) ∅ (∅ : Host) s h 4 (toy_args_u16 None) Hs
    ltac:(cbn; lia) ltac:(cbn; lia)) ltac:(cbn; lia) ltac:(cbn; lia)).
Defined.

Lemma no_block_engine_url_panics_witness :
  let batch : BankingPacketBatch := [[toy_packet 0 None]] in
  ∃ s h i st', toy_setup (toy_args None) = (Done s, h) ∧ fi_recv i = RecvOk batch ∧
    forwarder_iteration 0 200 false i (Forwarder_new (8, 8, 8) 0 None)
      = (Panicked "error sending packet batch to block engine handler", st') ∧
    delay_sent st' = [].
Proof.
  intros batch. destruct toy_starts as (s & h & Hs).
  set (i := {toy_input (RecvOk batch) 5 with fi_be_answer := (try_send
    {| be_banking_packet_batch := batch; be_stamp := 0; expiration := 0 |}
    (setup_block_engine_channel s)).1}).
  destruct (no_block_engine_url_panics (toy_args None) ∅ (∅ : Host) s h 0 200 i batch
    (Forwarder_new (8, 8, 8) 0 None) (toy_args_u16 None) Hs) as (st' & Hr & Hd & _);
    [reflexivity|reflexivity| |reflexivity|].
  - intros offered. cbn. unfold constant. by destruct (tc_closed _); [|case_decide].
  - exists s, h, i, st'. split; [exact Hs|]. split; [reflexivity|]. by split.
Defined.

Lemma health_page_spec_witness :
  ∃ s h, toy_setup (toy_args None) = (Done s, h) ∧
    get_health {| slot_health := Healthy;
      rs_is_connected_to_block_engine := is_connected_to_block_engine
        (block_engine_handler (setup_handler s) {["x"%char]} 300 [Some toy_session]
          (toy_engine (toy_be_token 0) (toy_be_token 0)));
      relayer_handle := toy_relayer ∅ |} = "unhealthy"%string.
Proof.
  destruct toy_starts as (s & h & Hs). exists s, h. split; [exact Hs|].
  apply (health_page_spec (toy_args None) ∅ (∅ : Host) s h {["x"%char]} 300 [Some toy_session]
    (toy_engine (toy_be_token 0) (toy_be_token 0)) Healthy (toy_relayer ∅) (toy_args_u16 None) Hs eq_refl).
  by right.
Defined.

Lemma router_pages_witness :
  let state := {| slot_health := Healthy; rs_is_connected_to_block_engine := true;
                  relayer_handle := toy_relayer ∅ |} in
  build_relayer_router state None (http_get "/health") =
    Some {| http_status := 200; http_body := Text "ok" |}.
Proof.
  intros state. destruct (router_pages state "buffer full"%string "/"%string) as (_ & Hhealth & _).
  apply Hhealth. by split.
Defined.
