(* ===== verification/Deployment.v ===== *)
(** * From the arguments to what leaves ([transaction-relayer/src/main.rs])

    The start-up of Main.v composed with the running relayer of System.v and the services
    of Service.v: [main] hands what it set up to the threads and services it starts, and
    what they send, and to whom, is then stated in terms of the command line alone. *)

From S2P Require Import Prelude External Instances Ofac Packets ScheduleCache HealthManager LoadBalancer.
From S2P Require Import AuthInterceptor AuthChallenges AuthService Forwarder Relayer RelayerAccounting.
From S2P Require Import ControlPath BlockEngine Tpu DataPath System Running Service Main.
Local Open Scope Z_scope.

Section deployment.
Context `{SdkLaws} `{IT : !IpText} `{!Chrono} `{!Ed25519} `{!ProtoRoles} `{J : !Jwt DeSerClaims}.
Context `{Q : !KeyedPriorityQueue IpAddr AuthChallenge reverse_cmp}.
Context `{!HashOrder Slot} `{!HashOrder Pubkey} `{!HashOrder string}.
Context `{!HashOrderLaws Slot} `{!HashOrderLaws Pubkey} `{!HashOrderLaws string}.
Context `{!Channels} `{!ChannelsLaws} `{!Histograms}.
Context `{!ProstTime} `{!Keypairs} `{TC : !TimedCaches Pubkey}.
Context `{!NetUtils} `{!NetUtilsLaws} `{!SigVerifier} `{!SigVerifierLaws}.
Context `{KF : !KeyFiles Keypair (SigningKey (Jwt := J)) (VerifyingKey (Jwt := J))} `{!HostFiles}.
Local Abbreviation setup_of := (main_setup (Q := Q) (J := J) (KeyFiles0 := KF)).
Local Abbreviation Setup := (Setup (J := J)).

(** When the threads start, and the capacities of the buffers they make. *)
Record Starts := {
  start_forwarder : (Z * Z * Z) * Z;
  start_health : Z;
  start_loop : capacities }.

(** What [main] hands to the threads. *)
Definition running_config (args : Args) (s : Setup) (start : Starts) : SystemConfig :=
  {| quic_servers := setup_quic_servers s;
     rpc_servers := setup_servers s;
     packet_delay_ms := args_packet_delay_ms args;
     mempool_disabled := args_disable_mempool args;
     health_threshold := setup_health_threshold s;
     loop_config := setup_relayer_config s;
     forwarder_start := start_forwarder start;
     health_start := start_health start;
     loop_capacities := start_loop start;
     grpc_start := setup_relayer s |}.

(** ** What the arguments promise of a packet that leaves *)

(** Its bytes came in at a port of one of the two ranges, and it is flagged as forwarded
    if that was the second. *)
Definition came_in (args : Args) (t : TpuPipeline) (pp : ProtoPacket) : Prop :=
  ∃ port server batch p, port ∈ tpu_range args ++ fwd_range args ∧
    local_port (quic_socket server) = Some port ∧ (server, batch) ∈ arrivals t ∧ p ∈ batch ∧
    packet_data p = Some (pp_data pp) ∧
    (port ∈ fwd_range args →
      ∃ m flags, pp_meta pp = Some m ∧ pm_flags m = Some flags ∧ pf_forwarded flags = true).

(** It is of the batch, not discarded, and was parsed as a transaction which, by the lookup
    tables [cache], mentions none of the addresses given, if any are. *)
Definition cleared (args : Args) (batch : BankingPacketBatch)
    (cache : gmap Pubkey (AddressLookupTableAccount Pubkey)) (pp : ProtoPacket) : Prop :=
  ∃ b packet, b ∈ batch ∧ packet ∈ b ∧
    packet_to_proto_packet packet = Some pp ∧ discard (packet_meta packet) = false ∧
    ∀ l pk, args_ofac_addresses args = Some l → pk ∈ l →
      ∃ tx, deserialize_slice packet = Some tx ∧ ¬ mentions cache tx pk.

Definition sendable (args : Args) (t : TpuPipeline) (batch : BankingPacketBatch)
    (cache : gmap Pubkey (AddressLookupTableAccount Pubkey)) (pp : ProtoPacket) : Prop :=
  signatures_valid (pp_data pp) = true ∧ came_in args t pp ∧ cleared args batch cache pp.

(** A server's socket is on a port of the range its queue is for, and of no other. *)
Lemma server_port args sockets max_unstaked max_staked server :
  sockets_as_asked args sockets → server ∈ Tpu_new sockets max_unstaked max_staked →
  ∃ port, local_port (quic_socket server) = Some port ∧
    (quic_queue server = TpuReceiver ∧ port ∈ tpu_range args ∨
     quic_queue server = TpuForwardsReceiver ∧ port ∈ fwd_range args).
Proof.
  intros [Ht Hf]. unfold Tpu_new.
  intros [(sock & -> & Hin)%list_elem_of_fmap|(sock & -> & Hin)%list_elem_of_fmap]%elem_of_app; cbn.
  - apply list_elem_of_lookup in Hin as [i Hi]. eapply Forall2_lookup_r in Ht as (port & Hp & Hl); [|exact Hi].
    exists port. split; [done|left]. split; [done|]. by apply list_elem_of_lookup_2 in Hp.
  - apply list_elem_of_lookup in Hin as [i Hi]. eapply Forall2_lookup_r in Hf as (port & Hp & Hl); [|exact Hi].
    exists port. split; [done|right]. split; [done|]. by apply list_elem_of_lookup_2 in Hp.
Qed.
Lemma ranges_disjoint args h port :
  bindable_args args h → port ∈ tpu_range args → port ∉ fwd_range args.
Proof.
  intros (_ & _ & Hdis & _). unfold tpu_range, fwd_range. rewrite !elem_of_z_range. apply Hdis.
Qed.

(** What the data path promises of a packet is, after the start-up, what the arguments do. *)
Lemma passed_on_sendable args schedule h s t taken pps :
  started args schedule h s → rtc (tpu_step (setup_quic_servers s)) TpuPipeline_new t →
  passed_on (ofac_addresses (setup_relayer_config s)) t taken pps →
  ∃ batch cache, (batch, cache) ∈ taken ∧ Forall (sendable args t batch cache) pps.
Proof.
  intros Hst Ht Hp. pose proof (passed_on_genuine _ _ _ _ _ Ht Hp) as Hgen.
  destruct Hp as (batch & cache & Htaken & Hb & Hall). exists batch, cache. split; [done|]. destruct (st_quic _ _ _ _ Hst) as (sockets & Hasked & Hquic).
  pose proof (st_bound _ _ _ _ Hst) as Hbound. pose proof (st_config _ _ _ _ Hst) as Hcfg.
  apply Forall_forall. intros pp Hin. eapply Forall_forall in Hgen, Hall; [|exact Hin..].
  destruct Hgen as (Hsig & server & b & p & Hserver & Harr & Hpb & Hdata & Hfwd).
  destruct Hall as (b' & packet & Hb' & Hpk' & Hdis & Hconv & Hofac). split; [done|split].
  - rewrite Hquic in Hserver. destruct (server_port _ _ _ _ _ Hasked Hserver) as (port & Hlocal & Hport).
    exists port, server, b, p. split_and!; [|done..|].
    + rewrite elem_of_app. naive_solver.
    + intros Hin'. destruct Hport as [[_ Hr]|[Hq _]]; [|by apply Hfwd].
      by destruct (ranges_disjoint _ _ _ Hbound Hr).
  - exists b', packet. split_and!; [done..|]. intros l pk Hl Hpk. rewrite Hcfg, Hl in Hofac. cbn in Hofac.
    destruct Hofac as (tx & Hde & Hm); [set_solver|]. exists tx. split; [done|]. intros Hment.
    destruct (Hm _ Hment). by apply elem_of_list_to_set.
Qed.

(** The URLs of the connections do not change what they take. *)
Lemma session_events_urls (f : SessionInput → SessionInput) sessions :
  (∀ i, se_events (f i) = se_events i) →
  session_events (map (option_map f) sessions) = session_events sessions.
Proof.
  intros Hf. unfold session_events.
  induction sessions as [|[i|] sessions IH]; cbn; [done| |done]. by rewrite Hf, IH.
Qed.

(** A relayer that [main] started: the threads run on what the start-up made, and the
    channel to the block engine has its receiver, or is not used. *)
Record deployed (args : Args) (schedule : gmap Slot Pubkey) (h : Host) (s : Setup) (cfg : SystemConfig)
    (t : System) : Prop := {
  dp_args : args_u16 args;
  dp_setup : ∃ h', setup_of args schedule h = (Done s, h');
  dp_receiver : is_Some (setup_handler s) ∨ args_disable_mempool args = true;
  dp_config : ∃ start, cfg = running_config args s start;
  dp_runs : rtc (sys_step cfg) (System_new cfg) t }.

Lemma deployed_started args schedule h s cfg t :
  deployed args schedule h s cfg t →
  started args schedule h s ∧ subscription_queue (grpc_start cfg) = [] ∧
  rtc (tpu_step (setup_quic_servers s)) TpuPipeline_new (tpu_part t) ∧
  loop_config cfg = setup_relayer_config s.
Proof.
  intros [Hu [h' Hs] _ [start ->] Hrun]. pose proof (main_setup_started _ _ _ _ _ Hu Hs) as Hst.
  assert (Hq : subscription_queue (grpc_start (running_config args s start)) = [])
    by (cbn; by rewrite (st_relayer _ _ _ _ Hst)).
  split_and!; [done..| |done]. by apply (running_pipeline _ Hq t Hrun).
Qed.

(** C1: What leaves a relayer started with given arguments answers to them.  In every state
    its threads reach, whatever their interleaving and however full their channels, a
    message queued for a validator is a heartbeat or a batch, neither empty nor over the
    size given, of sendable packets: their bytes came in at a port of one of the two
    ranges given, flagged as forwarded if it was the forwards range, their signatures are
    valid, they are of one batch that the loop took at a turn, were not discarded, and as
    transactions mention no address given, neither among their own keys nor through a
    lookup table as cached at that turn.  So is every packet the client of the block engine
    has sent, through whatever connections, out of the batches it took; and no slot has
    reached the event loop twice. *)
Theorem deployed_relayer_safe args schedule h s cfg t :
  deployed args schedule h s cfg t →
  (∀ pk c m,
    packet_subscriptions (event_loop t) !! pk = Some c → m ∈ chan_queue c →
    (∃ count, m = heartbeat_msg count) ∨
    ∃ ts out batch cache, m = Done {| header_ts := Some ts; msg := Some (Batch out) |} ∧
      (0 < length (packets out) ≤ args_validator_packet_batch_size args)%nat ∧
      (batch, cache) ∈ loop_deliveries (loop_log t) ∧
      Forall (sendable args (tpu_part t) batch cache) (packets out)) ∧
  (∀ ttl sessions st u b out,
    be_received sessions = take (be_taken t) (be_sent (fwd t)) → updates_sent st = [] →
    u ∈ updates_sent (block_engine_handler (setup_handler s)
      (ofac_addresses (setup_relayer_config s)) ttl sessions st) →
    update_msg u = Some (Batches b) → epb_batch b = Some out →
    ∃ batch cache, (batch, cache) ∈ be_deliveries sessions ∧
      Forall (sendable args (tpu_part t) batch cache) (packets out)) ∧
  NoDup (got (slot_queue (queues_of t))).
Proof.
  intros Hdep. destruct (deployed_started _ _ _ _ _ _ Hdep) as (Hst & Hq & Ht & Hcfg).
  destruct Hdep as [_ _ _ _ Hrun]. split_and!.
  - intros pk c m Hc Hm. pose proof (running_messages_ok _ Hq t Hrun pk c m Hc Hm) as [Hbeat|Hb]; [by left|right].
    destruct Hb as (ts & out & -> & Hlen & Hp). rewrite Hcfg in *.
    eapply passed_on_sendable in Hp as (batch & cache & Htaken & Hall); [|done..].
    exists ts, out, batch, cache. split; [done|]. split; [|done].
    by rewrite (st_config _ _ _ _ Hst) in Hlen.
  - intros ttl sessions st u b out Hrec Hnone Hu Hmsg Hout.
    unfold block_engine_handler in Hu. destruct (setup_handler s) as [config|]; [|rewrite Hnone in Hu; by apply elem_of_nil in Hu].
    eapply passed_on_sendable; [done..|]. rewrite <-Hcfg in *.
    set (f := λ i : SessionInput, _) in Hu. pose proof (session_events_urls f sessions (λ _, eq_refl)) as Hev.
    unfold be_received, be_deliveries in *. rewrite <-Hev in Hrec |- *. by eapply running_updates_ok.
  - by apply (running_slots_distinct _ Hq).
Qed.

(** ** Whom it is sent to *)

(** [AuthInterceptor::new(verifying_key.clone(), AlgorithmType::Rs256)] *)
Definition running_interceptor (s : Setup) : AuthInterceptor (Jwt0 := J) :=
  {| verifying_key := setup_verifying_key s; expected_signing_algo := Rs256 |}.

(** What the policy may be: the list given, or a schedule the cache held. *)
Definition running_policy (args : Args) (held : gmap Slot Pubkey → Prop) (v : ValidatorStore) : Prop :=
  ∃ schedule, held schedule ∧ v = validator_store args schedule.

Definition allowed (args : Args) (held : gmap Slot Pubkey → Prop) (pk : Pubkey) : Prop :=
  match args_allowed_validators args with
  | Some l => pk ∈ l
  | None => ∃ schedule slot, held schedule ∧ schedule !! slot = Some pk
  end.

Context `{!KeyedPriorityQueueLaws (K := IpAddr) (P := AuthChallenge)}.

(** C2: Only validators that may connect are served.  Started with given arguments and the
    two halves of one key pair, and with any number of handlers of the authentication
    service at work beside the threads, the relayer is in each state one whose packets
    are as the arguments say, and every validator connected is one of those listed, or
    was in a leader schedule the relayer held when none are listed, and at some point of
    this run was issued tokens for its signed answer to the challenge pending for its
    address; as long as no client makes a token that verifies. *)
Theorem deployed_relayer_serves args schedule h h' s start held k srv :
  args_u16 args → setup_of args schedule h = (Done s, h') →
  is_Some (setup_handler s) ∨ args_disable_mempool args = true →
  JwtKeyPair (signing_key (setup_auth s)) (setup_verifying_key s) →
  let cfg := running_config args s start in
  rtc (service_step (Q := Q) cfg (setup_auth s) (running_interceptor s) (running_policy args held))
    (Service_new cfg k) srv →
  deployed args schedule h s cfg (core srv) ∧
  ∀ pk c, packet_subscriptions (event_loop (core srv)) !! pk = Some c →
    allowed args held pk ∧
    redeemed (Q := Q) cfg (setup_auth s) (running_interceptor s) (running_policy args held) k srv pk.
Proof.
  intros Hu Hs Hh Hpair cfg Hrun. pose proof (main_setup_started _ _ _ _ _ Hu Hs) as Hst.
  assert (subscription_queue (grpc_start cfg) = []) as Hq by (cbn; by rewrite (st_relayer _ _ _ _ Hst)).
  eapply service_admits in Hrun as [Hcore Hadm]; [|exact Hq|exact (st_key _ _ _ _ Hst)|exact Hpair].
  split; [split; [done|by eexists|done|by eexists|done]|]. intros pk c Hc.
  destruct (Hadm pk c Hc) as ((v & (schedule' & Hheld & ->) & Hv%validator_store_iff) & Hsub).
  split; [|done]. unfold allowed. destruct (args_allowed_validators args); [done|].
  destruct Hv as [slot Hslot]. by exists schedule', slot.
Qed.
End deployment.

(** ** Concrete inputs *)

(** The default ports; the validator of Running.v gets its batch of two packets. *)
Definition toy_deployed_args : Args :=
  {toy_args (Some "http://be"%string) with
     args_validator_packet_batch_size := 2%nat; args_forward_all := true}.
Definition toy_starts_at : Starts :=
  {| start_forwarder := (8, 8, 8, 0); start_health := 0; start_loop := (1, 1, 1) |}.

Local Abbreviation toy_q := (map_kpq reverse_cmp).
Local Abbreviation toy_j := (toy_jwt DeSerClaims).
Local Abbreviation toy_keys := (toy_files : KeyFiles (@Keypair toy_sdk toy_keypairs)
  (SigningKey (Jwt := toy_j)) (VerifyingKey (Jwt := toy_j))).

(** What [main] sets up is what the runs of Running.v and Service.v start from. *)
Lemma toy_main :
  ∃ s h, toy_setup toy_deployed_args = (Done s, h) ∧ is_Some (setup_handler s) ∧
    running_config toy_deployed_args s toy_starts_at = toy_system_config ∧
    setup_auth s = toy_auth_svc ∧ running_interceptor s = toy_interceptor.
Proof.
  assert (Hdone : (match (toy_setup toy_deployed_args).1 with
    | Done s => if setup_handler s
        then Some (running_config toy_deployed_args s toy_starts_at, (setup_auth s, running_interceptor s))
        else None
    | _ => None
    end) = Some (toy_system_config, (toy_auth_svc, toy_interceptor))) by vm_refl.
  destruct (toy_setup toy_deployed_args) as [[s|e|w] h]; cbn in Hdone; [|done..].
  destruct (setup_handler s) as [config|] eqn:Hh; [apply (inj Some) in Hdone|done].
  apply pair_equal_spec in Hdone as [Hcfg Hdone]. apply pair_equal_spec in Hdone as [Hauth Hint].
  exists s, h. rewrite Hh. by split_and!.
Qed.

Lemma toy_deployed :
  ∃ s, deployed (Q := toy_q) (J := toy_j) (KF := toy_keys)
    toy_deployed_args ∅ (∅ : Host) s toy_system_config toy_drained.
Proof.
  destruct toy_main as (s & h & Hs & Hh & Hcfg & _). exists s. split.
  - exact (toy_args_u16 (Some "http://be"%string)).
  - by exists h.
  - by left.
  - by exists toy_starts_at.
  - exact toy_drained_reachable.
Qed.

Lemma deployed_relayer_safe_witness :
  ∃ c t out, packet_subscriptions (event_loop toy_drained) !! "a"%char = Some c ∧
    chan_queue c = [Done {| header_ts := Some t; msg := Some (Batch out) |}] ∧
    length (packets out) = 2%nat ∧ Forall (sendable toy_deployed_args toy_pipeline toy_verified ∅) (packets out).
Proof.
  destruct toy_deployed as (s & Hdep).
  destruct (deployed_relayer_safe toy_deployed_args ∅ (∅ : Host) s toy_system_config toy_drained Hdep)
    as [Hsafe _].
  assert (Hq : match chan_queue <$> packet_subscriptions (event_loop toy_drained) !! "a"%char with
    | Some [Done {| header_ts := Some t; msg := Some (Batch out) |}] => length (packets out) = 2%nat
    | _ => False
    end) by (vm_compute; reflexivity).
  destruct (packet_subscriptions _ !! "a"%char) as [c|] eqn:Hc; [|by destruct Hq].
  cbn [fmap option_fmap option_map] in Hq.
  destruct (chan_queue c) as [|[[[t|] [[out|]|]]| |] []] eqn:Hcq; try by destruct Hq.
  exists c, t, out. split; [reflexivity|]. split; [exact Hcq|]. split; [exact Hq|].
  assert (Hm : Done {| header_ts := Some t; msg := Some (Batch out) |} ∈ chan_queue c) by (rewrite Hcq; by left).
  destruct (Hsafe "a"%char c _ Hc Hm) as [[count [=]]|(ts & out' & batch & cache & [= <- <-] & _ & Htaken & Hall)].
  assert (loop_deliveries (loop_log toy_drained) = [(toy_verified, ∅)]) as Hone by (vm_compute; reflexivity).
  rewrite Hone in Htaken. apply list_elem_of_singleton in Htaken. injection Htaken as -> ->. exact Hall.
Defined.

(** The validator of Service.v, which the arguments list. *)
Lemma deployed_relayer_serves_witness :
  ∃ c, packet_subscriptions (event_loop toy_drained) !! "a"%char = Some c ∧
    allowed toy_deployed_args (λ schedule, schedule = ∅) "a"%char ∧
    redeemed (Q := toy_q) toy_system_config toy_auth_svc toy_interceptor
      (running_policy toy_deployed_args (λ schedule, schedule = ∅)) 1 (toy_holding toy_drained) "a"%char.
Proof.
  destruct toy_main as (s & h & Hs & Hh & Hcfg & Hauth & Hint).
  destruct (deployed_relayer_serves (Q := toy_q) (J := toy_j) (KF := toy_keys)
    toy_deployed_args ∅ (∅ : Host) h s toy_starts_at (λ schedule, schedule = ∅) 1 (toy_holding toy_drained))
    as [_ Hserves].
  - exact (toy_args_u16 (Some "http://be"%string)).
  - exact Hs.
  - by left.
  - rewrite Hauth. apply (f_equal verifying_key) in Hint. cbn in Hint. rewrite Hint. apply toy_key_pair.
  - rewrite Hcfg, Hauth, Hint. apply toy_served. by exists ∅.
  - assert (Hc : (if packet_subscriptions (event_loop toy_drained) !! "a"%char then true else false) = true)
      by vm_refl.
    destruct (packet_subscriptions (event_loop toy_drained) !! "a"%char) as [c|] eqn:Hsub; [|discriminate Hc].
    exists c. split; [reflexivity|]. specialize (Hserves "a"%char c Hsub).
    rewrite Hcfg, Hauth, Hint in Hserves. exact Hserves.
Defined.
