(* ===== verification/Shutdown.v ===== *)
(** * Shutdown ([core/src/lib.rs], [transaction-relayer/src/main.rs], [core/src/tpu.rs])

    The process as a transition system over the status of its threads: each polls the
    exit flag at the head of its loop, blocks or works in the body, and ends, panics or
    goes round; a send waits while the channel is full.  A panic runs the hook of
    [graceful_panic], which raises the flag, waits and ends the process; a signal raises
    the flag, [main] waits until the server has no open stream left, and joins its threads
    in order.  A channel is gone when every thread that holds its other end has ended; the
    queues of the validators are held by the server too, so that their streams do not end
    with the event loop. *)

From S2P Require Import Prelude External Instances Packets ScheduleCache HealthManager.
From S2P Require Import AuthInterceptor AuthChallenges AuthService Forwarder Relayer BlockEngine Tpu Main.
From stdpp Require Import functions.

Inductive ThreadId :=
| FetchStageT | StakedNodesT | SigVerifyT | TpuQuicT (i : nat) | FwdQuicT (i : nat)
| HealthManagerT | LeaderScheduleT | ForwarderT | LookupTableT | BlockEngineT
| EventLoopT | SubscriptionT (i : nat).
#[global] Instance ThreadId_eq_dec : EqDecision ThreadId.
Proof. solve_decision. Defined.

(** About to read the exit flag; in the body of the loop; waiting in a send of the body on
    a full channel, with at most [again] more such sends to come; in the panic hook, its
    stack and so its channels still there; returned, everything it owned dropped. *)
Inductive ThreadStatus := AtLoop | InBody | InSend (again : nat) | InHook | Ended.
#[global] Instance ThreadStatus_eq_dec : EqDecision ThreadStatus.
Proof. solve_decision. Defined.

(** What the arguments decide about the threads. *)
Record ProcessConfig := {
  num_tpu_servers : nat;
  num_fwd_servers : nat;
  num_subscriptions : nat;
  lookup_table_refresh : bool;
  mempool_enabled : bool;
  block_engine_connected : bool }.

Definition process_config `{Sdk} (args : Args) : ProcessConfig :=
  {| num_tpu_servers := Z.to_nat (args_num_tpu_quic_servers args);
     num_fwd_servers := Z.to_nat (args_num_tpu_fwd_quic_servers args);
     num_subscriptions := length (zip (args_rpc_servers args) (args_websocket_servers args));
     lookup_table_refresh := args_enable_lookup_table_refresh args;
     mempool_enabled := negb (args_disable_mempool args);
     block_engine_connected := bool_decide (is_Some (block_engine_config args)) |}.

(** [main] serves; waits for the open requests of the server; joins; or is itself in the
    panic hook. *)
Inductive MainPc := Serving | Draining | Joining (rest : list ThreadId) | MainInHook.
#[global] Instance MainPc_eq_dec : EqDecision MainPc.
Proof. solve_decision. Defined.

(** Besides, the streams of packets open in the server, and how many subscriptions its
    clients will still make. *)
Record Process := {
  exit_flag : bool;
  main_pc : MainPc;
  status : ThreadId → ThreadStatus;
  streams : nat;
  callers : nat;
  exit_code : option Z }.

Section process.
Variable cfg : ProcessConfig.

(** [Tpu::join], then the joins of [main] after it; the event loop and the slot
    subscriptions are never joined. *)
Definition Tpu_join : list ThreadId :=
  [FetchStageT; StakedNodesT; SigVerifyT] ++
  (TpuQuicT <$> seq 0 (num_tpu_servers cfg)) ++ (FwdQuicT <$> seq 0 (num_fwd_servers cfg)).
Definition main_joins : list ThreadId :=
  Tpu_join ++ [HealthManagerT; LeaderScheduleT; ForwarderT] ++
  (if lookup_table_refresh cfg then [LookupTableT] else []) ++
  (if block_engine_connected cfg then [BlockEngineT] else []).
Definition threads : list ThreadId :=
  main_joins ++ [EventLoopT] ++ (SubscriptionT <$> seq 0 (num_subscriptions cfg)).

Definition Process_new (callers : nat) : Process :=
  {| exit_flag := false; main_pc := Serving; status _ := AtLoop; streams := 0; callers := callers;
     exit_code := None |}.

(** *** Which ends of the channels are gone *)

Definition ended (p : Process) (t : ThreadId) : Prop := status p t = Ended.
(** the senders of the forwards channel, of the TPU channel, of the slot channel *)
Definition fwd_senders_gone p : Prop := Forall (ended p) (FwdQuicT <$> seq 0 (num_fwd_servers cfg)).
Definition tpu_senders_gone p : Prop :=
  Forall (ended p) (FetchStageT :: (TpuQuicT <$> seq 0 (num_tpu_servers cfg))).
Definition slot_senders_gone p : Prop :=
  Forall (ended p) (SubscriptionT <$> seq 0 (num_subscriptions cfg)).
(** the receiver of the block engine's channel *)
Definition be_receiver_gone p : Prop := block_engine_connected cfg = false ∨ ended p BlockEngineT.

(** *** What the body of a thread can do *)

(** [while !exit.load(..)]; the QUIC servers and the signature stage are libraries. *)
Definition polls_exit (t : ThreadId) : bool :=
  match t with SigVerifyT | TpuQuicT _ | FwdQuicT _ => false | _ => true end.

(** The body panics because an end of a channel is gone: the fetch stage receives from
    the forwards servers and sends to the signature stage; ... *)
Definition fetch_stage_can_panic (p : Process) : Prop := fwd_senders_gone p ∨ ended p SigVerifyT.
(** ... the health manager passes slots from the subscriptions on to the event loop; ... *)
Definition health_manager_can_panic (p : Process) : Prop := slot_senders_gone p ∨ ended p EventLoopT.
(** ... the forwarder receives from the signature stage, offers to the block engine and
    sends to the event loop. *)
Definition forwarder_can_panic (p : Process) : Prop :=
  ended p SigVerifyT ∨ ended p EventLoopT ∨ (mempool_enabled cfg = true ∧ be_receiver_gone p).
Definition can_panic (p : Process) (t : ThreadId) : Prop :=
  match t with
  | FetchStageT => fetch_stage_can_panic p
  | HealthManagerT => health_manager_can_panic p
  | ForwarderT => forwarder_can_panic p
  | _ => False
  end.

(** The body comes to its end: at the latest when a tick or a timeout fires, except the
    fetch stage's, which waits for a batch from a forwards server. *)
Definition can_complete (p : Process) (t : ThreadId) : Prop :=
  polls_exit t = true ∧ (t = FetchStageT → ¬ fwd_senders_gone p).

(** The thread at the other end of the channel a body sends on and waits for room in: the
    TPU channel, the slot channels and the delay channel have capacities; what is offered
    to the block engine and to the validators never waits. *)
Definition receiver (t : ThreadId) : option ThreadId :=
  match t with
  | FetchStageT => Some SigVerifyT
  | SubscriptionT _ => Some HealthManagerT
  | HealthManagerT | ForwarderT => Some EventLoopT
  | _ => None
  end.
(** A send fails when the receiver is gone.  A subscription then starts its loop again, and
    the others panic. *)
Definition send_failure_panics (t : ThreadId) : bool :=
  match t with SubscriptionT _ => false | _ => true end.

(** The event loop returns [RelayerError::Shutdown] when the health manager, the
    forwarder, or the gRPC service with its sender of subscriptions is gone. *)
Definition event_loop_can_return (p : Process) : Prop :=
  ended p HealthManagerT ∨ ended p ForwarderT ∨ ∃ rest, main_pc p = Joining rest.
(** The thread returns from the body: the libraries when the flag is raised or their
    channel is gone. *)
Definition can_return (p : Process) (t : ThreadId) : Prop :=
  match t with
  | TpuQuicT _ | FwdQuicT _ => exit_flag p = true
  | SigVerifyT => tpu_senders_gone p ∨ ended p ForwarderT
  | EventLoopT => event_loop_can_return p
  | _ => False
  end.

(** *** The transitions *)

Definition set_status (t : ThreadId) (s : ThreadStatus) (p : Process) : Process :=
  {p with status ::= <[t := s]>}.

(** The hook of [graceful_panic], with no callback: the flag at once; five seconds later
    the end of the process. *)
Definition panic_hook (p : Process) : Process := {p with exit_flag := true}.
Definition hook_exits (p : Process) : Process := {p with exit_code := Some 1%Z}.

Inductive Label :=
| Signal | ServeFails | Subscribe | StreamEnds | ServeReturns
| LoopCheck (t : ThreadId) | BodyCompletes (t : ThreadId) | BodyReturns (t : ThreadId)
| BodyPanics (t : ThreadId) | Fault (t : ThreadId)
| SendBlocks (t : ThreadId) (again : nat) | SendAgain (t : ThreadId) | SendDone (t : ThreadId)
| SendPanics (t : ThreadId) | SendBreaks (t : ThreadId)
| JoinReturns | MainReturns | HookExits.

(** A subscription opens a stream, as long as the event loop is there to take it; a stream
    ends when its client leaves or the event loop drops its sender; the server returns when
    no stream is open, and opens none once it has been told to shut down. *)
Inductive act : Label → Process → Process → Prop :=
| act_signal p :
    main_pc p = Serving → act Signal p {p with exit_flag := true; main_pc := Draining}
| act_serve_fails p :
    main_pc p = Serving → act ServeFails p (panic_hook {p with main_pc := MainInHook})
| act_subscribe p n :
    main_pc p = Serving → ¬ ended p EventLoopT → callers p = S n →
    act Subscribe p {p with callers := n; streams ::= S}
| act_stream_ends p n :
    streams p = S n → act StreamEnds p {p with streams := n}
| act_serve_returns p :
    main_pc p = Draining → streams p = 0 → act ServeReturns p {p with exit_flag := true; main_pc := Joining main_joins}
| act_check p t :
    t ∈ threads → status p t = AtLoop →
    act (LoopCheck t) p
      (set_status t (if polls_exit t && exit_flag p then Ended else InBody) p)
| act_completes p t :
    t ∈ threads → status p t = InBody → can_complete p t →
    act (BodyCompletes t) p (set_status t AtLoop p)
| act_returns p t :
    t ∈ threads → status p t = InBody → can_return p t →
    act (BodyReturns t) p (set_status t Ended p)
| act_panics p t :
    t ∈ threads → status p t = InBody → can_panic p t →
    act (BodyPanics t) p (panic_hook (set_status t InHook p))
| act_fault p t :
    t ∈ threads → status p t = InBody → act (Fault t) p (panic_hook (set_status t InHook p))
| act_send_blocks p t u k :
    t ∈ threads → status p t = InBody → can_complete p t → receiver t = Some u → ¬ ended p u →
    act (SendBlocks t k) p (set_status t (InSend k) p)
| act_send_again p t u k :
    t ∈ threads → status p t = InSend (S k) → receiver t = Some u → ¬ ended p u →
    act (SendAgain t) p (set_status t (InSend k) p)
| act_send_done p t u k :
    t ∈ threads → status p t = InSend k → receiver t = Some u → ¬ ended p u →
    act (SendDone t) p (set_status t AtLoop p)
| act_send_panics p t u k :
    t ∈ threads → status p t = InSend k → receiver t = Some u → ended p u →
    send_failure_panics t = true →
    act (SendPanics t) p (panic_hook (set_status t InHook p))
| act_send_breaks p t u k :
    t ∈ threads → status p t = InSend k → receiver t = Some u → ended p u →
    send_failure_panics t = false →
    act (SendBreaks t) p (set_status t AtLoop p)
| act_join p t rest :
    main_pc p = Joining (t :: rest) → ended p t → act JoinReturns p {p with main_pc := Joining rest}
| act_main_returns p :
    main_pc p = Joining [] → act MainReturns p {p with exit_code := Some 0%Z}
| act_hook p :
    main_pc p = MainInHook ∨ (∃ t, t ∈ threads ∧ status p t = InHook) →
    act HookExits p (hook_exits p).

(** A process that has exited takes no step. *)
Definition labelled_step (l : Label) (p p' : Process) : Prop := exit_code p = None ∧ act l p p'.
Definition process_step (p p' : Process) : Prop := ∃ l, labelled_step l p p'.

(** The steps that come by themselves: not the signal, not a fault, not the arrival of a
    forwarded batch or of a subscription, and not the end of a stream; nor that a full
    channel gets room, but for that of the signature stage, which goes on receiving as long
    as it lives. *)
Definition guaranteed (l : Label) : bool :=
  match l with
  | Signal | ServeFails | Subscribe | StreamEnds | Fault _ | BodyCompletes FetchStageT
  | SendBlocks _ _ | SendAgain _ => false
  | SendDone t => bool_decide (t = FetchStageT)
  | _ => true
  end.

(** Every thread is gone, and [main] waits in the server for the clients to end their
    streams. *)
Definition waits_for_clients (p : Process) : Prop :=
  main_pc p = Draining ∧ Forall (ended p) threads ∧ streams p ≠ 0.

(** *** The transitions, executable *)

#[global] Instance ended_dec p t : Decision (ended p t).
Proof. unfold ended. apply _. Defined.
#[global] Instance can_panic_dec p t : Decision (can_panic p t).
Proof.
  unfold can_panic, fetch_stage_can_panic, health_manager_can_panic, forwarder_can_panic,
    fwd_senders_gone, slot_senders_gone, be_receiver_gone. destruct t; apply _.
Defined.
#[global] Instance can_complete_dec p t : Decision (can_complete p t).
Proof. unfold can_complete, fwd_senders_gone. apply _. Defined.
#[global] Instance joining_dec p : Decision (∃ rest, main_pc p = Joining rest).
Proof.
  refine (match main_pc p as m return Decision (∃ rest, m = Joining rest) with
          | Joining rest => left (ex_intro _ rest eq_refl) | _ => right _ end); by intros [].
Defined.
#[global] Instance can_return_dec p t : Decision (can_return p t).
Proof. unfold can_return, event_loop_can_return, tpu_senders_gone. destruct t; apply _. Defined.
#[global] Instance hooked_dec p : Decision (∃ t, t ∈ threads ∧ status p t = InHook).
Proof.
  refine (cast_if (decide (Exists (λ t, status p t = InHook) threads)));
    by rewrite <-stdpp.list_relations.list.Exists_exists.
Defined.

(** The step a label takes, if it is enabled. *)
Definition effect (l : Label) (p : Process) : option Process :=
  let when (P : Prop) {dec : Decision P} q := if decide P then Some q else None in
  match l with
  | Signal => when (main_pc p = Serving) {p with exit_flag := true; main_pc := Draining}
  | ServeFails => when (main_pc p = Serving) (panic_hook {p with main_pc := MainInHook})
  | Subscribe =>
      match callers p with
      | S n => when (main_pc p = Serving ∧ ¬ ended p EventLoopT) {p with callers := n; streams ::= S}
      | O => None
      end
  | StreamEnds => match streams p with S n => Some {p with streams := n} | O => None end
  | ServeReturns =>
      when (main_pc p = Draining ∧ streams p = 0) {p with exit_flag := true; main_pc := Joining main_joins}
  | LoopCheck t =>
      when (t ∈ threads ∧ status p t = AtLoop)
        (set_status t (if polls_exit t && exit_flag p then Ended else InBody) p)
  | BodyCompletes t =>
      when (t ∈ threads ∧ status p t = InBody ∧ can_complete p t) (set_status t AtLoop p)
  | BodyReturns t =>
      when (t ∈ threads ∧ status p t = InBody ∧ can_return p t) (set_status t Ended p)
  | BodyPanics t =>
      when (t ∈ threads ∧ status p t = InBody ∧ can_panic p t) (panic_hook (set_status t InHook p))
  | Fault t => when (t ∈ threads ∧ status p t = InBody) (panic_hook (set_status t InHook p))
  | SendBlocks t k =>
      match receiver t with
      | Some u => when (t ∈ threads ∧ status p t = InBody ∧ can_complete p t ∧ ¬ ended p u)
                    (set_status t (InSend k) p)
      | None => None
      end
  | SendAgain t =>
      match receiver t, status p t with
      | Some u, InSend (S k) => when (t ∈ threads ∧ ¬ ended p u) (set_status t (InSend k) p)
      | _, _ => None
      end
  | SendDone t =>
      match receiver t, status p t with
      | Some u, InSend _ => when (t ∈ threads ∧ ¬ ended p u) (set_status t AtLoop p)
      | _, _ => None
      end
  | SendPanics t =>
      match receiver t, status p t with
      | Some u, InSend _ => when (t ∈ threads ∧ ended p u ∧ send_failure_panics t = true)
          (panic_hook (set_status t InHook p))
      | _, _ => None
      end
  | SendBreaks t =>
      match receiver t, status p t with
      | Some u, InSend _ => when (t ∈ threads ∧ ended p u ∧ send_failure_panics t = false)
          (set_status t AtLoop p)
      | _, _ => None
      end
  | JoinReturns =>
      match main_pc p with
      | Joining (t :: rest) => when (ended p t) {p with main_pc := Joining rest}
      | _ => None
      end
  | MainReturns => when (main_pc p = Joining []) {p with exit_code := Some 0%Z}
  | HookExits =>
      when (main_pc p = MainInHook ∨ ∃ t, t ∈ threads ∧ status p t = InHook) (hook_exits p)
  end.
Definition run (ls : list Label) (p : Process) : option Process :=
  foldl (λ mp l, p ← mp; match exit_code p with None => effect l p | Some _ => None end) (Some p) ls.

(** No batch reaches the fetch stage from a forwards server. *)
Definition no_forward (l : Label) : bool :=
  match l with BodyCompletes FetchStageT | SendBlocks FetchStageT _ => false | _ => true end.

(** On every run with labels in [allowed], [P] comes true: no run can put it off for
    ever, and one that stops short of it can go on by itself. *)
Inductive inevitable (allowed : Label → bool) (P : Process → Prop) (p : Process) : Prop :=
| inevitable_now : P p → inevitable allowed P p
| inevitable_next :
    (∃ l p', guaranteed l = true ∧ allowed l = true ∧ labelled_step l p p') →
    (∀ l p', allowed l = true → labelled_step l p p' → inevitable allowed P p') →
    inevitable allowed P p.

(** ** Threads only leave *)

Definition weight (t : ThreadId) (s : ThreadStatus) : nat :=
  match s with
  | AtLoop => if polls_exit t then 1 else 2
  | InBody => if polls_exit t then 3 else 1
  | InSend _ => 2
  | InHook | Ended => 0
  end.
Definition resends (s : ThreadStatus) : nat := match s with InSend k => k | _ => 0 end.
Definition main_weight (pc : MainPc) : nat :=
  match pc with
  | Serving => 3 + length main_joins
  | Draining => 2 + length main_joins
  | Joining rest => 1 + length rest
  | MainInHook => 0
  end.
(** The steps left once the flag is raised. *)
Definition steps_left (p : Process) : nat :=
  sum_list_with (λ t, weight t (status p t)) threads + main_weight (main_pc p) +
  (2 * callers p + streams p) + (if exit_code p then 0 else 1).

(** The sends on full channels the threads may wait in besides. *)
Definition resends_left (p : Process) : nat := sum_list_with (λ t, resends (status p t)) threads.

(** The executable transitions are the rules. *)
Lemma effect_act l p p' : effect l p = Some p' ↔ act l p p'.
Proof.
  split.
  - intros He. destruct l; cbn -[main_joins threads] in He;
      repeat match type of He with
             | match decide ?P with _ => _ end = Some _ => destruct (decide P); [|done]
             | match ?x with _ => _ end = Some _ => destruct x eqn:?; try done
             end;
      injection He as <-; econstructor; intuition eauto.
  - destruct 1; cbn -[main_joins threads];
      repeat match goal with
             | H : ?x = _ |- match ?x with _ => _ end = Some _ => rewrite H
             end; by rewrite ?decide_True.
Qed.

Lemma run_cons l ls p p' : effect l p = Some p' → exit_code p = None → run (l :: ls) p = run ls p'.
Proof. intros He Hc. unfold run. cbn [foldl mbind option_bind]. by rewrite Hc, He. Qed.

Lemma run_rtc ls p p' : run ls p = Some p' → rtc process_step p p'.
Proof.
  unfold run. revert p p'. induction ls as [|l ls IH] using rev_ind; intros p p'; [by intros [= ->]|].
  rewrite foldl_app. cbn. intros Hl. destruct (foldl _ _ _) as [q|] eqn:Hq; [|done].
  apply (rtc_r p q); [by apply IH|]. cbn in Hl. exists l.
  destruct (exit_code q) eqn:Hc; [done|]. split; [done|]. by apply effect_act.
Qed.

Lemma sum_list_with_le {A} (f g : A → nat) l :
  (∀ b, b ∈ l → f b ≤ g b) → sum_list_with f l ≤ sum_list_with g l.
Proof.
  induction l as [|b l IH]; cbn; intros Hle; [lia|].
  specialize (IH (λ c Hc, Hle c (list_elem_of_further _ _ _ Hc))).
  specialize (Hle b (list_elem_of_here _ _)). lia.
Qed.

Lemma sum_list_with_lt {A} (f g : A → nat) l a :
  a ∈ l → f a < g a → (∀ b, b ∈ l → f b ≤ g b) → sum_list_with f l < sum_list_with g l.
Proof.
  intros [k1 [k2 ->]]%list_elem_of_split Hlt Hle. rewrite !sum_list_with_app. cbn.
  assert (sum_list_with f k1 ≤ sum_list_with g k1)
    by (apply sum_list_with_le; intros; apply Hle; set_solver).
  assert (sum_list_with f k2 ≤ sum_list_with g k2)
    by (apply sum_list_with_le; intros; apply Hle; set_solver).
  lia.
Qed.

Lemma status_set t s p u :
  status (set_status t s p) u = if decide (t = u) then s else status p u.
Proof. by destruct p. Qed.

Lemma panic_hook_status p : status (panic_hook p) = status p.
Proof. by destruct p. Qed.

(** What a step does to a thread: nothing, or it moves it on. *)
Lemma act_status l p p' t :
  act l p p' → status p' t = status p t ∨
    (t ∈ threads ∧ status p t = AtLoop ∧ (status p' t = InBody ∨ status p' t = Ended)) ∨
    (t ∈ threads ∧ status p t = InBody ∧
      ((l = BodyCompletes t ∧ can_complete p t ∧ status p' t = AtLoop) ∨
       (l = BodyReturns t ∧ can_return p t ∧ status p' t = Ended) ∨
       (∃ k, l = SendBlocks t k ∧ can_complete p t ∧ is_Some (receiver t) ∧ status p' t = InSend k) ∨
       status p' t = InHook)) ∨
    ((∃ k, status p t = InSend k) ∧
      ((∃ k, status p' t = InSend k) ∨ status p' t = AtLoop ∨ status p' t = InHook)).
Proof.
  destruct 1;
    rewrite ?panic_hook_status, ?status_set; try (left; by destruct p);
    case_decide; subst; try (by left); right; [left|right..];
    repeat case_match; naive_solver.
Qed.

Lemma gone_stays s l p p' t :
  s = Ended ∨ s = InHook → act l p p' → status p t = s → status p' t = s.
Proof. intros Hs Ha Ht. destruct (act_status l p p' t Ha) as [|[(_ & ? & _)|[(_ & ? & _)|[[? ?] _]]]];
  destruct Hs; congruence. Qed.

Lemma flag_stays l p p' : act l p p' → exit_flag p = true → exit_flag p' = true.
Proof. destruct 1; by destruct p. Qed.

(** The reachable states: the flag goes up with a signal or a hook, [main] joins once it
    is up, and a status of zero means that every joined thread returned. *)
Definition in_hook (p : Process) : Prop :=
  main_pc p = MainInHook ∨ ∃ t, t ∈ threads ∧ status p t = InHook.
Record coherent (p : Process) : Prop := {
  coherent_flag : main_pc p ≠ Serving → exit_flag p = true;
  coherent_hook : exit_flag p = true → main_pc p ≠ Serving ∨ in_hook p;
  coherent_raised : in_hook p → exit_flag p = true;
  coherent_joining rest : main_pc p = Joining rest →
    ∃ joined, main_joins = joined ++ rest ∧ Forall (ended p) joined;
  coherent_send t k : status p t = InSend k → is_Some (receiver t);
  coherent_code c : exit_code p = Some c →
    (c = 0%Z ∧ Forall (ended p) main_joins) ∨ (c = 1%Z ∧ in_hook p) }.

Lemma coherent_new n : coherent (Process_new n).
Proof. split; try done. by intros [?|(t & _ & ?)]. Qed.

Lemma in_hook_stays l p p' : act l p p' → in_hook p → in_hook p'.
Proof.
  intros Ha [Hmain|(t & Ht & Hs)]; [left|right; exists t; split; [done|]].
  - destruct Ha; destruct p; cbn in *; congruence.
  - eapply gone_stays; eauto.
Qed.

(** A step that raises the flag leaves a hook behind or [main] out of its service. *)
Lemma act_raises l p p' :
  act l p p' → exit_flag p' = true → exit_flag p = true ∨ main_pc p' ≠ Serving ∨ in_hook p'.
Proof.
  destruct 1; destruct p; unfold in_hook; cbn in *; intros Hflag; auto;
    right; right; right; exists t; by rewrite fn_lookup_insert.
Qed.

(** A hook that has just started has raised it. *)
Lemma act_hooks l p p' : act l p p' → in_hook p' → in_hook p ∨ exit_flag p' = true.
Proof.
  intros Ha [Hpc|(t & Ht & Hs)].
  - destruct Ha; destruct p; unfold in_hook in *; cbn -[main_joins threads] in *;
      unfold constant in *; simplify_eq; auto.
  - destruct (decide (status p t = InHook)) as [|Hne]; [left; right; eauto|right].
    destruct Ha; destruct p; cbn -[threads] in *; unfold constant in *; try done;
      unfold insert, fn_insert in Hs; repeat case_match; congruence.
Qed.

(** [main] leaves its service with the flag up, and joins what it has left to join. *)
Lemma act_main l p p' : act l p p' →
  (main_pc p = Serving → main_pc p' ≠ Serving → exit_flag p' = true) ∧
  (main_pc p ≠ Serving → main_pc p' ≠ Serving) ∧
  (∀ rest, main_pc p' = Joining rest → main_pc p = Joining rest ∨ rest = main_joins ∨
    ∃ t, main_pc p = Joining (t :: rest) ∧ ended p t).
Proof.
  destruct 1; destruct p; cbn -[main_joins] in *; unfold constant in *; subst;
    repeat split; intros; simplify_eq; eauto.
Qed.

Lemma act_exit_code l p p' c : act l p p' → exit_code p' = Some c →
  exit_code p = Some c ∨ (c = 0%Z ∧ main_pc p = Joining []) ∨ (c = 1%Z ∧ in_hook p).
Proof. unfold in_hook. destruct 1; destruct p; cbn in *; unfold constant in *; intros; simplify_eq; auto. Qed.

Lemma coherent_step p p' : coherent p → process_step p p' → coherent p'.
Proof.
  intros [Hflag Hhook Hraised Hjoin Hsend Hcode] (l & Hnone & Ha).
  assert (∀ ts, Forall (ended p) ts → Forall (ended p') ts) as Hended
    by (intros ts; apply Forall_impl; intros t; apply (gone_stays _ l p); auto).
  destruct (act_main _ _ _ Ha) as (Hup & Hleft & Hrest).
  split.
  - intros Hpc. destruct (decide (main_pc p = Serving)) as [|Hpc']; [auto|].
    apply (flag_stays _ _ _ Ha), Hflag, Hpc'.
  - intros Hf. destruct (act_raises _ _ _ Ha Hf) as [Hf'|]; [|done].
    destruct (Hhook Hf') as [Hpc|]; [left; auto|right; eauto using in_hook_stays].
  - intros Hin. destruct (act_hooks _ _ _ Ha Hin) as [Hin'|]; [|done].
    by apply (flag_stays _ _ _ Ha), Hraised.
  - intros rest Hpc. destruct (Hrest _ Hpc) as [Hpc'|[->|(t & Hpc' & Ht)]].
    + destruct (Hjoin _ Hpc') as (joined & -> & Hjoined). eauto.
    + by exists [].
    + destruct (Hjoin _ Hpc') as (joined & -> & Hjoined).
      exists (joined ++ [t]). rewrite <- (assoc _). split; [done|].
      apply Hended, Forall_app; auto.
  - intros t k Hs. destruct (act_status _ _ _ t Ha)
      as [Heq|[(_ & _ & [?|?])|[(_ & _ & [?|[?|[(? & _ & _ & Hr & _)|?]]])|[[k' Hk] _]]]];
      [apply (Hsend t k)|..|by apply (Hsend t k')]; naive_solver congruence.
  - intros c Hc. destruct (act_exit_code _ _ _ _ Ha Hc) as [?|[[-> Hpc]|[-> Hin]]];
      [congruence|left|right; eauto using in_hook_stays].
    destruct (Hjoin _ Hpc) as (joined & -> & Hjoined). rewrite (right_id [] (++)). eauto.
Qed.

(** A process that exited with zero has ended each thread it joins. *)
Lemma coherent_zero p t :
  coherent p → exit_code p = Some 0%Z → t ∈ main_joins → ended p t.
Proof.
  intros Hcoh Hcode Ht%list_elem_of_In.
  destruct (coherent_code _ Hcoh _ Hcode) as [[_ Hall]|[? _]]; [|done].
  by apply (proj1 (Forall_forall _ _) Hall).
Qed.

Lemma reachable_coherent n p : rtc process_step (Process_new n) p → coherent p.
Proof. apply rtc_invariant; [apply coherent_step|apply coherent_new]. Qed.

(** Once the flag is up, every step uses one of the steps left. *)
Lemma steps_left_thread p t s :
  t ∈ threads → weight t s < weight t (status p t) →
  steps_left (set_status t s p) < steps_left p.
Proof.
  intros Ht Hlt. unfold steps_left.
  cut (sum_list_with (λ u, weight u (status (set_status t s p) u)) threads <
       sum_list_with (λ u, weight u (status p u)) threads); [destruct p; cbn; unfold constant; lia|].
  apply (sum_list_with_lt _ _ _ t); [done|by rewrite status_set, decide_True|].
  intros u _. rewrite status_set. case_decide; subst; lia.
Qed.

(** Waiting again uses up one of the sends left. *)
Lemma resends_left_thread p t k :
  t ∈ threads → status p t = InSend (S k) →
  steps_left (set_status t (InSend k) p) = steps_left p ∧
  resends_left (set_status t (InSend k) p) < resends_left p.
Proof.
  intros Ht Hs. split.
  - unfold steps_left.
    cut (sum_list_with (λ u, weight u (status (set_status t (InSend k) p) u)) threads =
         sum_list_with (λ u, weight u (status p u)) threads); [destruct p; cbn; unfold constant; lia|].
    apply Nat.le_antisymm; apply sum_list_with_le; intros u _; rewrite status_set; case_decide; subst;
      rewrite ?Hs; cbn; lia.
  - apply (sum_list_with_lt _ _ _ t); [done|by rewrite status_set, decide_True, Hs by done; cbn; lia|].
    intros u _. rewrite status_set. case_decide; subst; rewrite ?Hs; cbn; lia.
Qed.

Lemma receiver_polls t u : receiver t = Some u → polls_exit t = true.
Proof. by destruct t. Qed.

Lemma steps_left_step l p p' :
  exit_flag p = true → labelled_step l p p' →
  steps_left p' < steps_left p ∨ (steps_left p' = steps_left p ∧ resends_left p' < resends_left p).
Proof.
  intros Hflag [Hnone Ha].
  assert (∀ q, steps_left (panic_hook q) = steps_left q) as Hhook by by intros [].
  destruct Ha as [p Hpc|p Hpc|p n Hpc _ Hn|p n Hn|p Hpc Hn|p t Ht Hs|p t Ht Hs Hc|p t Ht Hs Hc|p t Ht Hs Hc|p t Ht Hs
    |p t u k Ht Hs Hc Hr _|p t u k Ht Hs _ _|p t u k Ht Hs Hr _|p t u k Ht Hs _ _ _|p t u k Ht Hs Hr _ _
    |p t rest Hpc Hs|p Hpc|p Hin].
  12: right; by apply resends_left_thread.
  all: left; rewrite ?Hhook.
  6-14: apply steps_left_thread; [done|]; rewrite Hs; unfold weight; rewrite ?Hflag.
  6: by destruct (polls_exit t); cbn; lia.
  6: destruct Hc as [-> _]; lia.
  6-8: by destruct (polls_exit t); lia.
  6, 7, 9: rewrite (receiver_polls _ _ Hr); lia.
  6: lia.
  all: destruct p; unfold steps_left, hook_exits; cbn -[threads main_joins] in *;
    unfold constant; simplify_eq; cbn -[threads main_joins]; lia.
Qed.

(** *** A thread that has not ended can go on, and so can the joins *)

Definition can_go_on (p : Process) : Prop :=
  ∃ l p', guaranteed l = true ∧ no_forward l = true ∧ labelled_step l p p'.

Lemma go_on l p p' :
  exit_code p = None → act l p p' → guaranteed l = true → no_forward l = true → can_go_on p.
Proof. intros. by exists l, p'. Qed.

Lemma not_all_ended p ts : ¬ Forall (ended p) ts → ∃ t, t ∈ ts ∧ ¬ ended p t.
Proof. intros (t & ? & ?)%not_Forall_Exists%stdpp.list_relations.list.Exists_exists; [by exists t|apply _]. Qed.

(** A thread goes on by itself, unless it is in the body with nothing to do there, or
    waits for room in the channel of a thread that cannot go on. *)
Lemma thread_goes_on p t :
  coherent p → exit_code p = None → t ∈ threads → ¬ ended p t →
  (status p t = InBody → can_return p t ∨ can_panic p t ∨
    (can_complete p t ∧ t ≠ FetchStageT) ∨ can_go_on p) →
  (∀ u, receiver t = Some u → t ≠ FetchStageT → ¬ ended p u → can_go_on p) →
  can_go_on p.
Proof.
  intros Hcoh Hcode Ht Hrun Hbody Hsend. unfold ended in Hrun. destruct (status p t) as [| |k| |] eqn:Hs; [| | | |done].
  - by eapply (go_on (LoopCheck t)); [|constructor| |].
  - destruct (Hbody eq_refl) as [Hr|[Hp|[[Hc Hne]|Hgo]]]; [| | |exact Hgo].
    + by eapply (go_on (BodyReturns t)); [|constructor| |].
    + by eapply (go_on (BodyPanics t)); [|constructor| |].
    + eapply (go_on (BodyCompletes t)); [done|by constructor|by destruct t|by destruct t].
  - destruct (coherent_send _ Hcoh t k Hs) as [u Hr].
    destruct (decide (ended p u)) as [Hu|Hu].
    + destruct (send_failure_panics t) eqn:Hf.
      * by eapply (go_on (SendPanics t)); [|econstructor| |].
      * by eapply (go_on (SendBreaks t)); [|econstructor| |].
    + destruct (decide (t = FetchStageT)) as [->|Hne]; [|by eapply Hsend].
      by eapply (go_on (SendDone FetchStageT)); [|econstructor| |].
  - by eapply (go_on HookExits); [|constructor; eauto| |].
Qed.

Lemma main_joins_threads t : t ∈ main_joins → t ∈ threads.
Proof. unfold threads. rewrite !elem_of_app. auto. Qed.
Lemma fwd_threads t : t ∈ FwdQuicT <$> seq 0 (num_fwd_servers cfg) → t ∈ threads.
Proof. intros Ht. apply main_joins_threads. unfold main_joins, Tpu_join. rewrite !elem_of_app. auto. Qed.
Lemma tpu_threads t :
  t ∈ FetchStageT :: (TpuQuicT <$> seq 0 (num_tpu_servers cfg)) → t ∈ threads.
Proof.
  intros Ht. apply main_joins_threads. unfold main_joins, Tpu_join.
  rewrite !elem_of_app, !elem_of_cons in *. intuition.
Qed.

Lemma event_loop_threads : EventLoopT ∈ threads.
Proof. unfold threads. rewrite !elem_of_app. right; left. by left. Qed.
Lemma health_manager_threads : HealthManagerT ∈ threads.
Proof. apply main_joins_threads. unfold main_joins. rewrite !elem_of_app. right; left. by left. Qed.

Section raised.
Variable p : Process.
Hypotheses (Hcoh : coherent p) (Hflag : exit_flag p = true) (Hcode : exit_code p = None).

(** The event loop waits for no one, so the threads that wait for it go on, and so do those
    that wait for the health manager. *)
Lemma event_loop_goes_on : ¬ ended p EventLoopT → can_go_on p.
Proof.
  intros Hrun. apply (thread_goes_on _ _ Hcoh Hcode event_loop_threads Hrun); [|done].
  intros _. right; right; left. by repeat split.
Qed.

Lemma polling_thread_goes_on t :
  t ∈ threads → polls_exit t = true → t ≠ FetchStageT → ¬ ended p t →
  (∀ u, receiver t = Some u → ¬ ended p u → can_go_on p) → can_go_on p.
Proof.
  intros Ht Hpolls Hne Hrun Hsend. apply (thread_goes_on _ _ Hcoh Hcode Ht Hrun); [|by intros; eapply Hsend].
  intros _. right; right; left. by repeat split.
Qed.

Lemma health_manager_goes_on : ¬ ended p HealthManagerT → can_go_on p.
Proof.
  intros Hrun. apply (polling_thread_goes_on _ health_manager_threads); [done..|].
  intros u [= <-]. apply event_loop_goes_on.
Qed.

Lemma fetch_stage_goes_on : FetchStageT ∈ threads → ¬ ended p FetchStageT → can_go_on p.
Proof.
  intros Ht Hrun. apply (thread_goes_on _ _ Hcoh Hcode Ht Hrun); [|done]. intros _.
  destruct (decide (Forall (ended p) (FwdQuicT <$> seq 0 (num_fwd_servers cfg)))) as [Hall|Hsome].
  - right; left. by left.
  - right; right; right. destruct (not_all_ended _ _ Hsome) as (u & Hu & Hrun').
    pose proof (fwd_threads _ Hu) as Hut. apply list_elem_of_fmap in Hu as (i & -> & _).
    apply (thread_goes_on _ _ Hcoh Hcode Hut Hrun'); [|done]. intros _. by left.
Qed.

(** The signature stage waits for those that feed it to end. *)
Lemma sigverify_goes_on : SigVerifyT ∈ threads → ¬ ended p SigVerifyT → can_go_on p.
Proof.
  intros Ht Hrun. apply (thread_goes_on _ _ Hcoh Hcode Ht Hrun); [|done]. intros _.
  destruct (decide (Forall (ended p) (FetchStageT :: (TpuQuicT <$> seq 0 (num_tpu_servers cfg)))))
    as [Hall|Hsome]; [left; by left|right; right; right].
  destruct (not_all_ended _ _ Hsome) as (u & Hu & Hrun'). pose proof (tpu_threads _ Hu) as Hut.
  apply elem_of_cons in Hu as [->|(i & -> & _)%list_elem_of_fmap]; [by apply fetch_stage_goes_on|].
  apply (thread_goes_on _ _ Hcoh Hcode Hut Hrun'); [|done]. intros _. by left.
Qed.

Lemma any_thread_goes_on t : t ∈ threads → ¬ ended p t → can_go_on p.
Proof.
  intros Ht Hrun. destruct (decide (t = FetchStageT)) as [->|Hf]; [by apply fetch_stage_goes_on|].
  destruct (decide (t = SigVerifyT)) as [->|Hsig]; [by apply sigverify_goes_on|].
  destruct (polls_exit t) eqn:Hpolls.
  - apply (polling_thread_goes_on t Ht Hpolls Hf Hrun). intros u Hr Hu.
    destruct t; try done; injection Hr as <-; first [by apply event_loop_goes_on|by apply health_manager_goes_on].
  - apply (thread_goes_on _ _ Hcoh Hcode Ht Hrun); [|by destruct t]. intros _. left.
    by destruct t.
Qed.

Lemma hook_goes_on : in_hook p → can_go_on p.
Proof. intros Hin. by eapply (go_on HookExits); [|constructor| |]. Qed.

Lemma process_goes_on : waits_for_clients p ∨ can_go_on p.
Proof.
  destruct (coherent_hook _ Hcoh Hflag) as [Hpc|Hin]; [|right; by apply hook_goes_on].
  destruct (main_pc p) as [| |[|t rest]|] eqn:Hmain; [done| |right..].
  - destruct (decide (Forall (ended p) threads)) as [Hall|Hsome].
    + destruct (decide (streams p = 0)) as [Hz|Hz]; [right|by left].
      by eapply (go_on ServeReturns); [|constructor| |].
    + right. destruct (not_all_ended _ _ Hsome) as (t & Ht & Hrun). by apply (any_thread_goes_on t).
  - by eapply (go_on MainReturns); [|constructor| |].
  - destruct (decide (status p t = Ended)) as [Ht|Ht].
    + by eapply (go_on JoinReturns); [|econstructor| |].
    + destruct (coherent_joining _ Hcoh _ Hmain) as (joined & Heq & _). apply (any_thread_goes_on t); [|done].
      apply main_joins_threads. rewrite Heq. set_solver.
  - apply hook_goes_on. by left.
Qed.
End raised.

(** A property of the states that cannot go on, and of those that have exited, is
    inevitable once the flag is up. *)
Lemma inevitable_rest allowed (P I : Process → Prop) p :
  (∀ l, no_forward l = true → allowed l = true) →
  (∀ q, coherent q → exit_flag q = true → I q → P q ∨ (exit_code q = None ∧ can_go_on q)) →
  (∀ l q q', allowed l = true → coherent q → exit_flag q = true → I q → labelled_step l q q' → I q') →
  coherent p → exit_flag p = true → I p → inevitable allowed P p.
Proof.
  intros Hallowed Hdone Hstep. remember (steps_left p) as n eqn:Hn. revert p Hn.
  induction n as [n IH] using lt_wf_ind. intros p. remember (resends_left p) as m eqn:Hm. revert p Hm.
  induction m as [m IHm] using lt_wf_ind. intros p -> -> Hcoh Hflag HI.
  destruct (Hdone p Hcoh Hflag HI) as [HP|[Hcode (l & p' & Hg & Hf & Hl)]]; [by apply inevitable_now|].
  apply inevitable_next; [exists l, p'; auto|]. clear l p' Hg Hf Hl. intros l p' Hl Hs.
  assert (coherent p') as Hcoh' by (eapply coherent_step; [done|by exists l]).
  assert (exit_flag p' = true) as Hflag' by (by eapply flag_stays; [apply Hs|]).
  assert (I p') as HI' by (by apply (Hstep l p p')).
  destruct (steps_left_step l p p' Hflag Hs) as [Hless|[Hsame Hless]].
  - by apply (IH (steps_left p')).
  - by apply (IHm (resends_left p')).
Qed.

(** No stream comes any more, unless a hook is about to end the process. *)
Definition streams_over (p : Process) : Prop := in_hook p ∨ streams p = 0.
Lemma streams_over_stays l p p' :
  coherent p → exit_flag p = true → streams_over p → labelled_step l p p' → streams_over p'.
Proof.
  intros Hcoh Hflag Hover [_ Ha]. destruct (decide (main_pc p = Serving)) as [Hpc|Hpc].
  - left. destruct (coherent_hook _ Hcoh Hflag) as [?|Hin]; [done|by eapply in_hook_stays].
  - destruct Hover as [Hin|Hz]; [left; by eapply in_hook_stays|right].
    destruct Ha; destruct p; cbn in *; unfold constant in *; congruence.
Qed.

(** C12: Once the exit flag is up, by a signal or by the hook of a panic, every run ends the
    process or comes to the one point where it waits for others: all threads are gone and
    [main] waits in the server, which holds the validators' queues, until these have ended
    their streams.  When no stream is open the process ends on every run.  No run goes on
    for ever, and no other state is stuck, though threads wait in sends on full channels,
    the health manager and the forwarder for the event loop, the subscriptions for the
    health manager, the fetch stage for the signature stage.  The steps that are relied on
    are those of [guaranteed]: timers fire, RPC calls come back, the QUIC servers follow the
    flag, the signature stage goes on receiving; not that any other channel gets room, nor
    that another batch is forwarded, nor that a client leaves, nor a second signal. *)
Theorem shutdown_terminates n p :
  rtc process_step (Process_new n) p → exit_flag p = true →
  inevitable (λ _, true) (λ q, is_Some (exit_code q) ∨ waits_for_clients q) p ∧
  (streams_over p → inevitable (λ _, true) (λ q, is_Some (exit_code q)) p).
Proof.
  intros Hreach%reachable_coherent Hflag. split; [|intros Hover].
  - apply (inevitable_rest _ _ (λ _, True)); [done| |done..]. intros q Hq Hf _.
    destruct (exit_code q) as [c|] eqn:Hcode; [left; left; by exists c|].
    destruct (process_goes_on q Hq Hf Hcode); [left; by right|by right].
  - apply (inevitable_rest _ _ streams_over); [done| | |done..].
    + intros q Hq Hf Hover'. destruct (exit_code q) as [c|] eqn:Hcode; [left; by exists c|right].
      split; [done|]. destruct (process_goes_on q Hq Hf Hcode) as [(Hpc & _ & Hz)|]; [|done].
      destruct Hover' as [Hin|]; [by apply hook_goes_on|done].
    + intros l q q' _. apply streams_over_stays.
Qed.


(** A joined thread that can never end keeps [main] from returning. *)
Lemma exit_one_inevitable allowed (I : Process → Prop) t p :
  t ∈ main_joins → (∀ l, no_forward l = true → allowed l = true) →
  (∀ q, I q → ¬ ended q t) → (∀ q, coherent q → exit_flag q = true → exit_code q = None → I q → can_go_on q) →
  (∀ l q q', allowed l = true → I q → labelled_step l q q' → I q') →
  coherent p → exit_flag p = true → I p →
  inevitable allowed (λ q, exit_code q = Some 1%Z) p.
Proof.
  intros Ht Hallowed Hrun Hgo Hstep. apply (inevitable_rest _ _ I); [done| |by eauto].
  intros q Hq Hf HI. destruct (exit_code q) as [c|] eqn:Hc; [left|right; auto].
  destruct (coherent_code _ Hq _ Hc) as [[-> _]|[-> _]]; [|done].
  destruct (Hrun q HI). by apply coherent_zero.
Qed.

(** C13: A panic brings the process down: after the hook of any thread that [main] joins
    has started, every run ends the process, and with status one. *)
Theorem panic_fails_fast n p t :
  rtc process_step (Process_new n) p → t ∈ main_joins → status p t = InHook →
  inevitable (λ _, true) (λ q, exit_code q = Some 1%Z) p.
Proof.
  intros Hcoh%reachable_coherent Ht Hs.
  apply (exit_one_inevitable _ (λ q, status q t = InHook) t); [done|done| | | |done| |done].
  - unfold ended. congruence.
  - intros q _ _ Hcode Hq. apply hook_goes_on; [done|]. right. exists t.
    split; [by apply main_joins_threads|done].
  - intros l q q' _ Hq [_ Ha]. eapply gone_stays; eauto.
  - apply (coherent_raised _ Hcoh). right. exists t. split; [by apply main_joins_threads|done].
Qed.

(** An exit status of zero means that [main] got there, and every thread it joins
    returned without a panic. *)
Theorem exit_zero_joined n p t :
  rtc process_step (Process_new n) p → exit_code p = Some 0%Z → t ∈ main_joins → status p t = Ended.
Proof.
  intros Hcoh%reachable_coherent Hcode Ht. by apply coherent_zero.
Qed.

(** In the body, without another batch, the fetch stage stays there or panics. *)
Lemma fetch_stage_stuck l q q' :
  (no_forward l = false → fwd_senders_gone q) →
  status q FetchStageT = InBody ∨ status q FetchStageT = InHook → labelled_step l q q' →
  status q' FetchStageT = InBody ∨ status q' FetchStageT = InHook.
Proof.
  intros Hl Hf [_ Ha].
  destruct (act_status _ _ _ FetchStageT Ha)
    as [->|[(_ & ? & _)|[(_ & Hs & [(-> & Hc & _)|[(_ & [] & _)|[(k & -> & Hc & _)|?]]])|[[k ?] _]]]];
    [done|destruct Hf; congruence| | |by right|destruct Hf; congruence];
    by destruct Hc as [_ []]; [|apply Hl].
Qed.
Lemma fetch_stage_not_ended q :
  status q FetchStageT = InBody ∨ status q FetchStageT = InHook → ¬ ended q FetchStageT.
Proof. unfold ended. intuition congruence. Qed.
Lemma fetch_stage_joined : FetchStageT ∈ main_joins.
Proof. by left. Qed.

(** C15: A fetch stage that waits for a forwarded batch cannot end well: without one, a
    shutdown is a panic ([recv] fails when the forwards servers have left), and the
    process exits with one, not zero, whatever else happens. *)
Theorem graceful_exit_needs_forward n p :
  rtc process_step (Process_new n) p → exit_flag p = true → status p FetchStageT = InBody →
  inevitable no_forward (λ q, exit_code q = Some 1%Z) p.
Proof.
  intros Hcoh%reachable_coherent Hflag Hs.
  apply (exit_one_inevitable _ (λ q, status q FetchStageT = InBody ∨ status q FetchStageT = InHook)
    _ _ fetch_stage_joined); [done|apply fetch_stage_not_ended| | |done|done|by left].
  - intros q Hq Hf Hc Hin. apply fetch_stage_goes_on; [done..|apply main_joins_threads, fetch_stage_joined|].
    by apply fetch_stage_not_ended.
  - intros l q q' Hl. apply fetch_stage_stuck. congruence.
Qed.

(** The threads leave in no order: when the event loop has read the flag before the
    forwarder, or the health manager, which is in a send to it, the send fails, and the
    signal of an operator ends in a panic with exit status one. *)
Theorem shutdown_race_panics p t k :
  t = ForwarderT ∨ t = HealthManagerT →
  main_pc p = Serving → exit_code p = None → status p EventLoopT = AtLoop → status p t = InSend k →
  ∃ p', run [Signal; LoopCheck EventLoopT; SendPanics t; HookExits] p = Some p' ∧ exit_code p' = Some 1%Z.
Proof.
  intros Ht Hmain Hcode Hloop Hs.
  assert (receiver t = Some EventLoopT ∧ send_failure_panics t = true ∧ t ≠ EventLoopT ∧ t ∈ threads)
    as (Hr & Hf & Hne & Hin).
  { destruct Ht as [->| ->]; split_and!; try done; try apply health_manager_threads.
    apply main_joins_threads. unfold main_joins. rewrite !elem_of_app. right; left. set_solver. }
  destruct p as [flag pc st sm cl code]. cbn in Hmain, Hcode, Hloop, Hs. subst pc code.
  set (p1 := {| exit_flag := true; main_pc := Draining; status := st; streams := sm; callers := cl;
    exit_code := None |}).
  set (p2 := set_status EventLoopT Ended p1).
  assert (ended p2 EventLoopT) as Hended by (unfold ended, p2; by rewrite status_set, decide_True).
  assert (status p2 t = InSend k) as Hs2 by (unfold p2; by rewrite status_set, decide_False by done).
  set (p3 := panic_hook (set_status t InHook p2)).
  assert (status p3 t = InHook) as Hs3 by (unfold p3; by rewrite panic_hook_status, status_set, decide_True).
  assert (effect Signal {| exit_flag := flag; main_pc := Serving; status := st;
      streams := sm; callers := cl; exit_code := None |} = Some p1 ∧
    effect (LoopCheck EventLoopT) p1 = Some p2 ∧ effect (SendPanics t) p2 = Some p3 ∧
    effect HookExits p3 = Some (hook_exits p3)) as (E1 & E2 & E3 & E4).
  { rewrite !effect_act. split_and!; [by constructor|apply (act_check p1 EventLoopT); [apply event_loop_threads|done]
      |by eapply act_send_panics|constructor; right; by exists t]. }
  exists (hook_exits p3). split; [|done]. by rewrite (run_cons _ _ _ _ E1 eq_refl), (run_cons _ _ _ _ E2 eq_refl),
    (run_cons _ _ _ _ E3 eq_refl), (run_cons _ _ _ _ E4 eq_refl).
Qed.

End process.

(** With no forwards servers, which the arguments allow, the fetch stage has no
    sender from the start: its panic is enabled as soon as it is in its loop, and from
    then on no run reaches status zero. *)
Theorem no_forward_server_panics `{Sdk} (args : Args) n p p' :
  let cfg := process_config args in
  args_num_tpu_fwd_quic_servers args = 0%Z →
  rtc (process_step cfg) (Process_new n) p → status p FetchStageT = InBody →
  rtc (process_step cfg) p p' →
  (exit_code p' = None → ∃ q, labelled_step cfg (if decide (status p' FetchStageT = InBody)
    then BodyPanics FetchStageT else HookExits) p' q) ∧ exit_code p' ≠ Some 0%Z.
Proof.
  intros cfg Hargs Hreach Hs Hrun.
  assert (∀ q, fwd_senders_gone cfg q) as Hnone by (intros q; unfold fwd_senders_gone; cbn; by rewrite Hargs).
  assert (status p' FetchStageT = InBody ∨ status p' FetchStageT = InHook) as Hs'.
  { apply (rtc_invariant (process_step cfg)
      (λ q, status q FetchStageT = InBody ∨ status q FetchStageT = InHook) p p'); [|by left|done].
    intros q q' Hq (l & Hl). apply (fetch_stage_stuck cfg l q); [|done..].
    intros _. apply Hnone. }
  assert (FetchStageT ∈ threads cfg) as Ht by apply main_joins_threads, fetch_stage_joined.
  split.
  - intros Hcode. case_decide as Hd.
    + eexists. split; [done|]. apply act_panics; [done..|left; apply Hnone].
    + eexists. split; [done|]. apply act_hook. right. exists FetchStageT. by destruct Hs'.
  - intros Hcode. assert (coherent cfg p') as Hcoh by (apply (reachable_coherent cfg n); by etransitivity).
    apply (fetch_stage_not_ended p' Hs'), (coherent_zero cfg), fetch_stage_joined; done.
Qed.

(** ** The rules and the components

    [can_panic] and [can_return] are what the bodies do, with the channels as the
    process has them. *)

Section bodies.
Context `{Sdk} `{!IpText} `{!Channels} `{!Histograms} `{!HashOrder Pubkey} `{!HashOrder Slot}.

(** One iteration of a thread: its parameters, what it receives, the state it is in. *)
Inductive Body :=
| FetchBody (i : FetchInput) (st : FetchStage)
| HealthBody (missing_slot_unhealthy_threshold : Z) (i : HealthEvent * Z) (st : HealthManager)
| ForwarderBody (thread_id packet_delay_ms : Z) (i : ForwarderInput) (st : Forwarder)
| EventLoopBody (config : RelayerConfig) (i : RelayerInput) (st : Relayer).

Definition body_thread (b : Body) : ThreadId :=
  match b with
  | FetchBody _ _ => FetchStageT
  | HealthBody _ _ _ => HealthManagerT
  | ForwarderBody _ _ _ _ => ForwarderT
  | EventLoopBody _ _ _ => EventLoopT
  end.

Inductive Ending := Completes | Returns | Panics.
Definition ending {E A S} (r : Outcome E A * S) : Ending :=
  match r.1 with Done _ => Completes | Fail _ => Returns | Panicked _ => Panics end.

(** A body without an [Err] completes or panics. *)
Lemma total_ending {A S} (r : Outcome Empty_set A * S) (P Q R : Prop) :
  ((∃ w s, r = (Panicked w, s)) → P) →
  match ending r with Completes => True | Panics => P ∨ Q | Returns => R end.
Proof. destruct r as [[a|[]|w] s]; cbn; eauto. Qed.

Section process_bodies.
Variables (cfg : ProcessConfig) (p : Process).

Definition body_ending (b : Body) : Ending :=
  match b with
  | FetchBody i st => ending (fetch_stage_iteration i st)
  | HealthBody threshold i st => ending (health_iteration threshold i st)
  | ForwarderBody thread_id delay i st =>
      ending (forwarder_iteration thread_id delay (negb (mempool_enabled cfg)) i st)
  | EventLoopBody config i st => ending (relayer_iteration config i st)
  end.

(** A channel answers that the other end is gone only when it is. *)
Definition observes (b : Body) : Prop :=
  match b with
  | FetchBody i st =>
      (fi_first i = None → fwd_senders_gone cfg p) ∧
      (tpu_accepts (fs_channels st) ≠ None → ended p SigVerifyT)
  | HealthBody _ i _ =>
      match i.1 with
      | SlotReceived slot alive _ =>
          (slot = None → slot_senders_gone cfg p) ∧ (alive = false → ended p EventLoopT)
      | _ => True
      end
  | ForwarderBody _ _ i st =>
      (fi_recv i = RecvDisconnected → ended p SigVerifyT) ∧
      (fi_be_answer i = Some Closed → be_receiver_gone cfg p) ∧
      (delay_accepts st ≠ None → ended p EventLoopT)
  | EventLoopBody _ i _ =>
      match ri_event i with
      | SlotArm None _ _ => ended p HealthManagerT
      | PacketArm None _ _ _ _ => ended p ForwarderT
      | SubscriptionArm None _ => ∃ rest, main_pc p = Joining rest
      | _ => True
      end
  end.

(** C14: The bodies of the fetch stage, the health manager and the forwarder panic only
    where the process lets them, and the event loop returns only where it lets it: as
    long as the channels' other ends are held, they go round. *)
Theorem bodies_follow b :
  observes b →
  match body_ending b with
  | Completes => True
  | Panics => can_panic cfg p (body_thread b) ∨ body_thread b = EventLoopT
  | Returns => can_return cfg p (body_thread b)
  end.
Proof.
  destruct b as [i st|threshold [ev len] st|thread_id delay i st|config i st];
    cbn [observes body_ending body_thread can_panic can_return fst];
    unfold fetch_stage_can_panic, health_manager_can_panic, event_loop_can_return.
  - intros [Hfirst Hacc]. apply total_ending. intros (w & st' & Hi).
    destruct (fi_first i) as [first|] eqn:Hf; [right|auto]. apply Hacc. intros Hroom.
    destruct (fetch_stage_iteration_completes _ _ _ Hf Hroom) as [? Hd]. congruence.
  - intros Hev. apply total_ending. intros Hp. destruct ev as [now|slot alive now|];
      [by destruct Hp as (? & ? & ?)| |by destruct Hp as (? & ? & ?)].
    apply health_iteration_panics in Hp. naive_solver.
  - intros (Hrecv & Hbe & Hacc). apply total_ending. intros (w & st' & Hi).
    apply (dec_stable (P := can_panic cfg p ForwarderT)). cbn [can_panic]. unfold forwarder_can_panic.
    intros Hno.
    destruct (forwarder_iteration_spec thread_id delay (negb (mempool_enabled cfg)) i st)
      as (sent & st2 & Hd & _); [|apply dec_stable; naive_solver|congruence].
    split; [naive_solver|]. destruct (mempool_enabled cfg); [right; naive_solver|by left].
  - intros Hgone. unfold ending. destruct (relayer_iteration config i st) as [[u|e|w] st'] eqn:Hi;
      cbn; [done| |by right].
    apply relayer_iteration_fails in Hi. destruct (ri_event i) as [[] | [] | [] | | ]; naive_solver.
Qed.
End process_bodies.
End bodies.

(** ** Concrete inputs *)

Definition toy_process_config : ProcessConfig :=
  {| num_tpu_servers := 1; num_fwd_servers := 1; num_subscriptions := 1;
     lookup_table_refresh := false; mempool_enabled := true; block_engine_connected := true |}.

(** The fetch stage and the servers are at work when the signal comes. *)
Definition toy_signalled : list Label :=
  [LoopCheck FetchStageT; LoopCheck SigVerifyT; LoopCheck (TpuQuicT 0); LoopCheck (FwdQuicT 0); Signal].
(** Besides, the forwarder and the health manager wait for the event loop. *)
Definition toy_blocked : list Label :=
  [LoopCheck ForwarderT; SendBlocks ForwarderT 2; LoopCheck HealthManagerT; SendBlocks HealthManagerT 0]
  ++ toy_signalled.
(** A batch is forwarded in time: every thread leaves, and [main] returns. *)
Definition toy_graceful : list Label :=
  toy_signalled ++
  [BodyCompletes FetchStageT; LoopCheck FetchStageT; LoopCheck StakedNodesT;
   BodyReturns (TpuQuicT 0); BodyReturns (FwdQuicT 0); BodyReturns SigVerifyT;
   LoopCheck HealthManagerT; LoopCheck LeaderScheduleT; LoopCheck ForwarderT;
   LoopCheck BlockEngineT; ServeReturns] ++
  repeat JoinReturns (length (main_joins toy_process_config)) ++ [MainReturns].

(** All have left, but a validator stays. *)
Definition toy_held : list Label :=
  [Subscribe; Subscribe; StreamEnds] ++ toy_signalled ++
  [BodyCompletes FetchStageT; LoopCheck FetchStageT; LoopCheck StakedNodesT;
   BodyReturns (TpuQuicT 0); BodyReturns (FwdQuicT 0); BodyReturns SigVerifyT;
   LoopCheck HealthManagerT; LoopCheck LeaderScheduleT; LoopCheck ForwarderT;
   LoopCheck BlockEngineT; LoopCheck EventLoopT; LoopCheck (SubscriptionT 0)].

(** The clients may subscribe twice. *)
Definition toy_start : Process := Process_new 2.
Definition toy_after (ls : list Label) : Process :=
  default toy_start (run toy_process_config ls toy_start).

Lemma toy_reachable ls :
  is_Some (run toy_process_config ls toy_start) →
  rtc (process_step toy_process_config) toy_start (toy_after ls).
Proof. intros [p Hp]. unfold toy_after. rewrite Hp. by apply (run_rtc _ ls). Qed.

Lemma shutdown_terminates_witness :
  inevitable toy_process_config (λ _, true) (λ q, is_Some (exit_code q)) (toy_after toy_blocked) ∧
  inevitable toy_process_config (λ _, true)
    (λ q, is_Some (exit_code q) ∨ waits_for_clients toy_process_config q)
    (toy_after ([Subscribe] ++ toy_blocked)).
Proof.
  split.
  - refine (proj2 (shutdown_terminates toy_process_config 2 (toy_after toy_blocked) _ _) _);
      [apply toy_reachable; eexists; vm_compute; reflexivity|vm_refl|right; vm_refl].
  - refine (proj1 (shutdown_terminates toy_process_config 2 _ _ _));
      [apply toy_reachable; eexists; vm_compute; reflexivity|vm_refl].
Defined.


Lemma graceful_exit_needs_forward_witness :
  inevitable toy_process_config no_forward (λ q, exit_code q = Some 1%Z) (toy_after toy_signalled).
Proof.
  apply (graceful_exit_needs_forward _ 2);
    [apply toy_reachable; eexists; vm_compute; reflexivity|vm_refl|vm_refl].
Defined.

Lemma exit_zero_joined_witness : status (toy_after toy_graceful) FetchStageT = Ended.
Proof.
  apply (exit_zero_joined toy_process_config 2);
    [apply toy_reachable; eexists; vm_compute; reflexivity|vm_refl|by left].
Defined.

Lemma panic_fails_fast_witness :
  inevitable toy_process_config (λ _, true) (λ q, exit_code q = Some 1%Z)
    (toy_after [LoopCheck ForwarderT; Fault ForwarderT]).
Proof.
  apply (panic_fails_fast _ 2 _ ForwarderT);
    [apply toy_reachable; eexists; vm_compute; reflexivity| |vm_refl].
  apply (bool_decide_unpack _). vm_compute. exact I.
Defined.

(** The sockets are bound as asked, none for the forwards. *)
Definition toy_no_forward : Args :=
  {(toy_args None) with args_num_tpu_fwd_quic_servers := 0%Z}.
Definition toy_no_forward_sockets : bool :=
  match (get_sockets (E := Status) toy_no_forward (∅ : Host)).1 with
  | Done s => bool_decide (transactions_forwards_quic_sockets s = [])
  | _ => false
  end.

Lemma no_forward_server_panics_witness :
  let cfg := process_config toy_no_forward in
  toy_no_forward_sockets = true ∧
  exit_code (default (Process_new 0) (run cfg [LoopCheck FetchStageT] (Process_new 0))) ≠ Some 0%Z.
Proof.
  intros cfg. split; [vm_refl|].
  assert (rtc (process_step cfg) (Process_new 0)
    (default (Process_new 0) (run cfg [LoopCheck FetchStageT] (Process_new 0)))) as Hr
    by (apply (run_rtc _ [LoopCheck FetchStageT]); vm_compute; reflexivity).
  apply (no_forward_server_panics toy_no_forward 0 _ _ eq_refl Hr); [vm_refl|apply rtc_refl].
Defined.

(** The slot subscriptions are over before the health manager has looked at the flag. *)
Lemma bodies_follow_witness :
  let p := toy_after [LoopCheck HealthManagerT; Signal; LoopCheck (SubscriptionT 0)] in
  let b := HealthBody 10 (SlotReceived None true 5, 0%Z) (HealthManager_new 0) in
  body_ending toy_process_config b = Panics ∧ can_panic toy_process_config p HealthManagerT.
Proof.
  intros p b. split; [vm_refl|].
  destruct (bodies_follow toy_process_config p b) as [Hp|Hp]; [|exact Hp|discriminate Hp].
  split; [intros _|discriminate]. apply (bool_decide_unpack _). vm_compute. exact I.
Defined.

Lemma shutdown_race_panics_witness :
  ∃ p', run toy_process_config [Signal; LoopCheck EventLoopT; SendPanics ForwarderT; HookExits]
      (toy_after [LoopCheck ForwarderT; SendBlocks ForwarderT 2]) = Some p' ∧ exit_code p' = Some 1%Z.
Proof.
  apply (shutdown_race_panics toy_process_config _ ForwarderT 2); [by left|vm_refl..].
Defined.
